(* ===== verification/_CoqProject ===== *)
-Q . S2P
Prelude.v
Errors.v
Composite.v
Utf8.v
Visibility.v
VisibilityParse.v
VisibilityNormal.v
VisibilityProps.v
Store.v
Cell.v
Crypto.v
Providers.v
Policy.v
SecureKeyspace.v
Panic.v
JournalEntry.v
JournalReader.v
JournalWriter.v
JournalFiles.v
SnapshotTracker.v
BTree.v
ConflictManager.v
Mvcc.v
Db.v
DbProps.v
WriteTx.v
WriteTxProps.v
KeyspaceMap.v
Optimistic.v
OptimisticProps.v
SecureTx.v
KeyspaceConfig.v
MetaKeyspace.v
KeyspaceOptions.v
Catalog.v
CatalogProps.v
ReplayHistory.v
Recovery.v
RecoveryProps.v
RecoveryFrame.v
TxHandles.v
TxHandlesProps.v
Readers.v
ReadersProps.v
OptimisticSerial.v
Engine.v
EngineProps.v
EngineRestart.v
EngineDurable.v
EngineLog.v
Ingestion.v
SnapshotIsolation.v
WorkerPool.v
SecureDb.v
SecureSerial.v
SecureSw.v
Version.v
DbConfig.v
Opening.v
OpeningProps.v
Databases.v
DatabasesProps.v
SecureTxDatabases.v
