(* ===== verification/Prelude.v ===== *)
(** * Verification of omrya-kv, a fork of the fjall key-value engine

    The program ([src/src]) is an embeddable log-structured key-value store. Keyspaces
    are LSM trees (the [lsm_tree] library); every write goes to a shared journal before
    it reaches a tree; snapshots and transactions read at a sequence number; background
    workers flush memtables and drop journals; a security layer ([src/src/secure]) stores
    versioned, labelled and encrypted cells under composite keys. This library models the
    engine's own logic as executable functions and proves what makes it correct. It is a
    shallow embedding: pure code is a function, stateful code passes its state, a Rust
    [Result] is [Result] of [Errors], a panic is [None] or a [Panic] outcome, interleavings
    are a step relation.

    ** Files and what they model

    - [Prelude] (this file): bytes, machine integers, fixed-width encodings, the order of
      byte strings. [Errors]: [error.rs], [journal/error.rs], the [Result] monad, byte
      readers. [BTree]: [BTreeMap] with integer keys. [Panic]: the monads of code that can
      fail or panic.
    - [Composite]: [secure/composite.rs], the order-preserving key encoding and prefix
      ranges. [Utf8], [Visibility], [VisibilityParse], [VisibilityNormal],
      [VisibilityProps]: [secure/visibility.rs], labels, the recursive-descent parser, the
      normaliser, the printer, evaluation.
    - [Store]: the interface of an ordered keyspace ([ReadableLaws], [KeyspaceLaws]) with
      an in-memory instance, and the monad of fallible state-passing code. [Cell]:
      [secure/cell.rs]. [Crypto]: [secure/crypto.rs]. [Providers]: [secure/providers.rs]
      and [secure/audit.rs]. [Policy]: [secure/policy.rs], the retention filter.
      [SecureKeyspace]: the data operations of [secure/keyspace.rs].
    - [JournalEntry]: [journal/entry.rs], the wire format. [JournalReader]:
      [journal/reader.rs] and [journal/batch_reader.rs], the batch state machine and the
      truncation of torn tails. [JournalWriter]: [journal/writer.rs]; the I/O calls take
      their outcome from a script, so every pattern of failures is covered.
      [JournalFiles]: [journal/recovery.rs], [journal/manager.rs] and rotation.
    - [SnapshotTracker]: [snapshot_tracker.rs] and [snapshot_nonce.rs] as a step relation
      over the sections its lock protects.
    - [Mvcc]: the contract of the trees ([TreeOps], [TreeLaws]) on histories of versions.
      [Db], [DbProps]: the logged writes of [keyspace/mod.rs], [batch/mod.rs],
      [batch/item.rs], [write_buffer_manager.rs], [Database::persist] and the replay of
      the active journal in [Database::recover] of [db.rs]. [KeyspaceMap]: the contents of
      the keyspaces as a map.
    - [WriteTx], [WriteTxProps]: [tx/write_tx.rs]. [ConflictManager], [Optimistic],
      [OptimisticProps], [OptimisticSerial]: [tx/optimistic/conflict_manager.rs],
      [oracle.rs], [write_tx.rs] and the opening of transactions in [mod.rs]. [SecureTx]: the data operations of
      [secure/tx.rs], against the interface [TransactionOps] that both kinds of
      transaction implement. [TxHandles], [TxHandlesProps]: the keyspace handles of
      [tx/single_writer] and [tx/optimistic], with the writer lock and the retry loops.
    - [KeyspaceConfig]: the policies of [keyspace/config] and their encoding.
      [MetaKeyspace]: [meta_keyspace.rs]. [KeyspaceOptions]: [keyspace/options.rs].
      [Catalog], [CatalogProps]: creating, opening, deleting and dropping keyspaces in
      [db.rs] and [keyspace/mod.rs], and [recover_keyspaces] of [recovery.rs], on the
      dictionary, the meta tree and the folders.
    - [ReplayHistory], [Recovery], [RecoveryProps], [RecoveryFrame]:
      [recover_sealed_memtables] of [recovery.rs] and the rest of [Database::recover]. [Engine], [EngineProps],
      [EngineDurable]: the messages of [worker_pool.rs], [flush/], [compaction/] and the
      rotations of [keyspace/mod.rs], as steps beside the writes. [EngineRestart]: the
      engine that recovery starts, and the engines a database can become. [EngineLog]: a
      keyspace as the map of the batches written to it. [Ingestion]: [ingestion.rs]. [WorkerPool]: the
      channels, start and shutdown of the workers, poisoning ([poison_dart.rs]) and the
      write stalls of [keyspace/mod.rs].
    - [Readers], [ReadersProps]: [readable.rs] with its four implementations, [guard.rs],
      [iter.rs], [snapshot.rs] and the reads of keyspaces. [SnapshotIsolation]: the engine
      and the snapshot tracker running together.
    - [SecureDb]: the builders of the secure databases and the opening of secure
      keyspaces. [SecureSerial], [SecureSw]: whole secure transactions of the optimistic
      and the single-writer kind.
    - [Version]: [version.rs]. [DbConfig]: [db_config.rs] and [builder.rs]. [Opening],
      [OpeningProps]: [Database::create_or_recover] with the lock file, the marker and the
      journals of the folder, composed with the catalogue, the recovery and the pool.
      [Databases], [DatabasesProps]: [Database] with its getters and destructor and the
      transactional databases [tx/single_writer/mod.rs] and [tx/optimistic/mod.rs], on top
      of it. [SecureTxDatabases]: the secure transactional databases on top of those.

    ** What the theorems show

    - Keys and labels: encoding a composite key is a round trip and preserves the logical
      order; prefix ranges contain exactly the keys of the prefix; the visibility parser
      is total, its canonical text parses back, normalisation preserves evaluation and
      identifies expressions equal up to order, grouping and repetition.
    - Secure keyspaces: scans return the visible, matching versions, up to their limit;
      results do not depend on records a session may not see, unless the limit is zero; operations without permission have no
      effect; stored data stays canonical and decryptable; the retention filter keeps
      exactly the unexpired versions among the newest of their group. Secure databases
      open fail-closed ([SecureDb.secure_open_spec]) and are found again after a crash
      ([SecureTxDatabases.secure_tx_reopen]); secure transactions of both kinds
      are serialisable ([SecureSerial.secure_commit_serial], [SecureSw.sw_secure_serial]).
    - Journal: whatever prefix of a journal a crash leaves, reading returns the complete
      batches and cuts the file behind them (a build with debug assertions may panic at a
      torn tail instead, [torn_length_panics]); wrong counts and checksums are errors;
      writes are atomic under any I/O failure; persisted batches survive.
    - Database: after a crash the contents are those after a prefix of the operations,
      and no operation is lost whose bytes were left, session after session
      ([DbProps.crash_consistency]); closing loses nothing ([DbProps.close_keeps_all]);
      recovery restores the sequence number; the write API refines a map from cells to
      values under any I/O failure ([KeyspaceMap.operations_refine_map]).
    - Engine: at every point of any interleaving of writes and maintenance, in the middle
      of a write too ([EngineProps.fine_step]), the tables and journals on disk hold every
      journaled write ([EngineDurable.engine_durable]), and a keyspace reads as the map
      of all batches since it was created ([EngineLog.keyspace_log]); if the journal loses
      batches that were not synced, each key keeps a prefix of its history
      ([EngineLog.power_loss]); replay skips exactly what the tables cover and cuts the
      journals behind their last batch ([RecoveryProps.recovery_complete]); opening the folder again gives
      back keyspaces, contents and counters ([OpeningProps.reopen_restores]); a foreign
      version or a taken lock leaves it untouched ([open_refused]); closing properly loses
      nothing either ([DatabasesProps.close_reopen]). The database may have
      been killed and recovered any number of times before ([EngineRestart.lives]), as
      long as recovery continues above the sequence numbers of the journals; that it may
      not is [RecoveryProps.clear_resets_seqno]. What these theorems say of contents is
      about the keyspaces whose compactions lose no data ([exact] of [FlushLaws]) and that
      are never weakly removed from; see the assumptions below.
    - Catalogue: dictionary, meta tree and folders stay consistent whatever fails, and are
      rebuilt after a crash; options come back as written, up to the level count and the
      filter factory.
    - Workers: a tick with the channels for itself never blocks; the destructor returns
      exactly when every thread can count itself out; a writer that is held up goes on once
      the workers caught up ([local_backpressure_returns]).
    - Snapshots and transactions: the watermark stays below every open snapshot in every
      interleaving; an open snapshot sees the same contents whatever the engine does
      ([SnapshotIsolation.snapshot_repeatable], for nonces closed once and a counter above
      zero); in every state of a commit snapshots and iterators see all of the batch or
      nothing; the four readers agree; a
      transaction refines a map of its writes over its snapshot; a commit is atomic;
      conflict detection is exact; what the operations of a committed transaction returned
      they would have returned at its commit point ([OptimisticSerial.commit_serializable]),
      and the oracle's log stays complete, from every opening of the database on
      ([DatabasesProps.optimistic_reopen]); the retry loops of the handles are
      linearizable. A session inside a transaction has the secure operations on the
      transaction's own view ([SecureTx.secure_tx_refines]).
    - Departures of the code from its intent are theorems too: [zero_instant_unsafe],
      [double_close_lost_conflict], [batch_error_ignored], [remove_weak_divergence],
      [write_after_failure_lost], [created_journal_not_recovered], [scan_zero_limit],
      [has_conflict_panics], [clear_replay_drops_ingestion], [failed_clear_panics],
      [clear_resets_seqno], [empty_secure_name], [stale_delete_removes_new],
      [keyspace_id_reused], [retention_lost_after_restart], [half_created_stuck],
      [refilled_channel_blocks], [range_sees_torn_batch], [removal_tears],
      [flush_before_sync_tears], [torn_length_panics], [stale_handle_captures],
      [size_of_not_validated], [zero_limit_leak].

    ** Parameters

    [lsm_tree] (trees, memtables, flushing and compacting, prefix ranges, value-type and
    compression bytes), XXH3, LZ4, the cipher, the audit sink and the permission handlers
    are class or record arguments with their contract as laws; each class has an in-memory
    instance, which the witnesses use. The map order of hash maps is an argument, any
    permutation.

    ** Assumptions on the trees

    - [clears_succeed] (in [Mvcc]): [clear] of a tree does not fail. The theorems on
      recovery name it as a premise; [failed_clear_panics] shows recovery without it.
    - [FlushLaws] (in [Engine]): a flush or compaction keeps what readers from the watermark
      on see, in keyspaces that are [exact] and whose data has no weak tombstones. FIFO
      compaction and compaction filters, the retention filter of secure keyspaces among
      them, drop data, and a weak tombstone may bring an older version back: keyspaces that
      use them are not [exact], or excluded by [weak_free], and nothing is claimed of their
      contents. In the in-memory instance [FlushHist] all keyspaces are [exact].
    - [consistent] (in [WriteTxProps]): the handles used in a transaction do not mix a
      keyspace with a deleted one of the same name; a transaction files its writes under
      names, and [stale_handle_captures] shows what happens otherwise.

    ** Fuel

    Parsing a visibility expression runs with fuel above four times the length of the
    text, and [parse_total] shows that it never runs out. Reading journal entries is
    bounded by the bytes left, since every entry takes at least one byte;
    [journal_crash_recovery] states the result outright, so fuel suffices. The retry loops
    of optimistic handles may run forever under contention and take one unit of fuel per
    attempt; alone, one attempt is enough ([TxHandlesProps.update_uncontended]).

    ** Not modelled

    Ingestions are modelled ([Ingestion.ingestion_atomic]) but are not among the steps of
    [engine_durable], since they are not journaled. A rotation whose folder sync fails leaves
    the new journal in use and the old one unknown to the manager
    ([Engine.seal_journal]); it is modelled but not among those steps either. Not modelled
    are statistics and sizes on disk, the internals of [lsm_tree], the
    re-exports and test counters of [lib.rs] and [drop.rs], examples and tests. Sequence
    numbers and journal ids are unbounded integers where the code adds one, since they
    stay far below [2^63]. *)

From stdpp Require Import base gmap list sorting strings countable numbers.
From Stdlib Require Import ZArith Lia.
From Stdlib Require Import Strings.Byte.

#[global] Open Scope Z_scope.
#[global] Set Default Goal Selector "1".

(** ** Bytes and machine integers *)

Abbreviation byte := Corelib.Init.Byte.byte.
Abbreviation bytes := (list byte).

#[export] Instance byte_eq_decision : EqDecision byte := Byte.byte_eq_dec.

#[export] Program Instance byte_countable : Countable byte :=
  inj_countable Byte.to_N Byte.of_N _.
Next Obligation. intros b. apply Byte.of_to_N. Qed.

(** The unsigned value of a byte. *)
Definition bval (b : byte) : Z := Z.of_N (Byte.to_N b).

(** [z as u8]: truncation to the low eight bits. *)
Definition byte_of_Z (z : Z) : byte :=
  match Byte.of_N (Z.to_N (z mod 256)) with Some b => b | None => Byte.x00 end.

Lemma byte_of_Z_bval b : byte_of_Z (bval b) = b.
Proof. destruct b; reflexivity. Qed.

Lemma bval_bound b : 0 <= bval b < 256.
Proof. unfold bval. pose proof (Byte.to_N_bounded b). lia. Qed.

Lemma bval_byte_of_Z z : bval (byte_of_Z z) = z mod 256.
Proof.
  unfold bval, byte_of_Z. pose proof (Z.mod_pos_bound z 256 eq_refl).
  destruct (Byte.of_N _) as [b|] eqn:E.
  - apply Byte.to_of_N in E. rewrite E. lia.
  - apply Byte.of_N_None_iff in E. lia.
Qed.

Lemma byte_of_Z_mod z : byte_of_Z (z mod 256) = byte_of_Z z.
Proof. unfold byte_of_Z. by rewrite Z.mod_mod. Qed.

#[export] Instance bval_inj : Inj (=) (=) bval.
Proof. intros a b E. by rewrite <- (byte_of_Z_bval a), E, byte_of_Z_bval. Qed.

(** Truncating casts and the ranges of the machine integers. *)
Definition u8_max : Z := 2 ^ 8 - 1.
Definition u16_max : Z := 2 ^ 16 - 1.
Definition u32_max : Z := 2 ^ 32 - 1.
Definition u64_max : Z := 2 ^ 64 - 1.
Definition i64_min : Z := - 2 ^ 63.
Definition i64_max : Z := 2 ^ 63 - 1.

Definition is_u32 (z : Z) : Prop := 0 <= z <= u32_max.
Definition is_u64 (z : Z) : Prop := 0 <= z <= u64_max.
Definition is_i64 (z : Z) : Prop := i64_min <= z <= i64_max.

(** [u64::saturating_add], [u64::saturating_sub], [i64::saturating_sub]. *)
Definition u64_sat_add (a b : Z) : Z := Z.min u64_max (a + b).
Definition u64_sat_sub (a b : Z) : Z := Z.max 0 (a - b).
Definition i64_sat_sub (a b : Z) : Z := Z.max i64_min (Z.min i64_max (a - b)).

Ltac unfold_ranges :=
  unfold is_u32, is_u64, is_i64, u8_max, u16_max, u32_max, u64_max,
    i64_min, i64_max, u64_sat_add, u64_sat_sub, i64_sat_sub in *.

(** ** Fixed-width encodings *)

(** [to_le_bytes] and [from_le_bytes] of an [n]-byte unsigned integer. *)
Fixpoint le_bytes (n : nat) (z : Z) : bytes :=
  match n with
  | O => []
  | S n => byte_of_Z z :: le_bytes n (z / 256)
  end.

Fixpoint le_val (bs : bytes) : Z :=
  match bs with
  | [] => 0
  | b :: bs => bval b + 256 * le_val bs
  end.

(** [to_be_bytes] and [from_be_bytes]. *)
Fixpoint be_bytes (n : nat) (z : Z) : bytes :=
  match n with
  | O => []
  | S n => byte_of_Z (z / 256 ^ Z.of_nat n) :: be_bytes n z
  end.

Fixpoint be_val (bs : bytes) : Z :=
  match bs with
  | [] => 0
  | b :: bs => bval b * 256 ^ Z.of_nat (length bs) + be_val bs
  end.

Lemma pow256_pos n : 0 < 256 ^ Z.of_nat n.
Proof. apply Z.pow_pos_nonneg; lia. Qed.

Lemma pow256_S n : 256 ^ Z.of_nat (S n) = 256 * 256 ^ Z.of_nat n.
Proof. rewrite Nat2Z.inj_succ. apply Z.pow_succ_r. lia. Qed.

Lemma le_bytes_length n z : length (le_bytes n z) = n.
Proof. revert z. induction n; intros z; simpl; auto. Qed.

Lemma be_bytes_length n z : length (be_bytes n z) = n.
Proof. induction n; simpl; auto. Qed.

Lemma le_val_bytes n z : 0 <= z < 256 ^ Z.of_nat n -> le_val (le_bytes n z) = z.
Proof.
  revert z. induction n as [|n IH]; intros z Hz.
  - simpl in *. lia.
  - rewrite pow256_S in Hz. cbn [le_bytes le_val].
    rewrite bval_byte_of_Z, IH.
    + pose proof (Z.div_mod z 256). lia.
    + split; [apply Z.div_pos; lia | apply Z.div_lt_upper_bound; lia].
Qed.

Lemma le_val_bound bs : 0 <= le_val bs < 256 ^ Z.of_nat (length bs).
Proof.
  induction bs as [|b bs IH]; [simpl; lia|].
  cbn [length le_val]. rewrite pow256_S. pose proof (bval_bound b). lia.
Qed.

Lemma le_bytes_val bs : le_bytes (length bs) (le_val bs) = bs.
Proof.
  induction bs as [|b bs IH]; [done|]. cbn [length le_val le_bytes].
  pose proof (bval_bound b). f_equal.
  - rewrite <- byte_of_Z_mod, Z.mul_comm, Z_mod_plus_full.
    by rewrite byte_of_Z_mod, byte_of_Z_bval.
  - rewrite Z.mul_comm, Z.div_add, Z.div_small by lia. done.
Qed.

Lemma be_bytes_mod n z : be_bytes n (z mod 256 ^ Z.of_nat n) = be_bytes n z.
Proof.
  enough (forall m, (n <= m)%nat -> be_bytes n (z mod 256 ^ Z.of_nat m) = be_bytes n z)
    as H by (apply H; lia).
  induction n as [|n IH]; intros m Hm; [done|]. cbn [be_bytes]. f_equal; [|apply IH; lia].
  rewrite <- byte_of_Z_mod, <- (byte_of_Z_mod (z / _)). f_equal.
  pose proof (pow256_pos n). pose proof (pow256_pos (m - S n)).
  replace (256 ^ Z.of_nat m)
    with (256 ^ Z.of_nat n * (256 * 256 ^ Z.of_nat (m - S n))); cycle 1.
  { rewrite <- Z.pow_succ_r, <- Z.pow_add_r by lia. f_equal. lia. }
  rewrite Z.rem_mul_r by lia.
  rewrite Z.mul_comm, Z.div_add, Z.div_small, Z.add_0_l by (apply Z.mod_pos_bound; lia) || lia.
  rewrite Z.rem_mul_r by lia. rewrite Z.mul_comm, Z_mod_plus_full. by apply Z.mod_mod.
Qed.

Lemma be_val_bytes n z : 0 <= z < 256 ^ Z.of_nat n -> be_val (be_bytes n z) = z.
Proof.
  revert z. induction n as [|n IH]; intros z Hz; [simpl in *; lia|].
  cbn [be_bytes be_val]. rewrite be_bytes_length, bval_byte_of_Z.
  rewrite pow256_S in Hz. pose proof (pow256_pos n).
  rewrite Z.mod_small by (split; [apply Z.div_pos; lia | apply Z.div_lt_upper_bound; lia]).
  rewrite <- be_bytes_mod, IH by (apply Z.mod_pos_bound; lia).
  pose proof (Z.div_mod z (256 ^ Z.of_nat n)). lia.
Qed.

Lemma be_val_bound bs : 0 <= be_val bs < 256 ^ Z.of_nat (length bs).
Proof.
  induction bs as [|b bs IH]; [simpl; lia|].
  cbn [length be_val]. rewrite pow256_S. pose proof (bval_bound b). nia.
Qed.

Lemma be_bytes_val bs : be_bytes (length bs) (be_val bs) = bs.
Proof.
  induction bs as [|b bs IH]; [done|]. cbn [length be_val be_bytes].
  pose proof (pow256_pos (length bs)). pose proof (be_val_bound bs). f_equal.
  - rewrite Z.div_add_l, Z.div_small, Z.add_0_r by lia. apply byte_of_Z_bval.
  - rewrite <- be_bytes_mod, Z.add_comm, Z_mod_plus_full, Z.mod_small by lia. done.
Qed.

(** ** Lexicographic order on byte strings

    [Ord for [u8]]: keys of the engine are compared byte by byte, a proper
    prefix being smaller. *)

Fixpoint bytes_cmp (a b : bytes) : comparison :=
  match a, b with
  | [], [] => Eq
  | [], _ :: _ => Lt
  | _ :: _, [] => Gt
  | x :: a, y :: b =>
      match bval x ?= bval y with Eq => bytes_cmp a b | c => c end
  end.

(** [Ordering::then_with]. *)
Definition then_with (c d : comparison) : comparison :=
  match c with Eq => d | c => c end.

Definition bytes_lt (a b : bytes) : Prop := bytes_cmp a b = Lt.
Definition bytes_le (a b : bytes) : Prop := bytes_cmp a b <> Gt.

#[export] Instance bytes_lt_dec : RelDecision bytes_lt.
Proof. intros a b. unfold bytes_lt, Decision. decide equality. Defined.

#[export] Instance bytes_le_dec : RelDecision bytes_le.
Proof.
  intros a b. unfold bytes_le, Decision. destruct (bytes_cmp a b); (left; done) || (right; tauto).
Defined.

Lemma bytes_cmp_refl a : bytes_cmp a a = Eq.
Proof. induction a as [|x a IH]; simpl; [done|]. by rewrite Z.compare_refl. Qed.

Lemma bytes_cmp_eq a b : bytes_cmp a b = Eq <-> a = b.
Proof.
  split; [|intros ->; apply bytes_cmp_refl].
  revert b. induction a as [|x a IH]; intros [|y b]; simpl; try done.
  destruct (bval x ?= bval y) eqn:E; try done.
  apply Z.compare_eq_iff, (inj bval) in E. intros H. f_equal; auto.
Qed.

Lemma bytes_cmp_antisym a b : bytes_cmp b a = CompOpp (bytes_cmp a b).
Proof.
  revert b. induction a as [|x a IH]; intros [|y b]; simpl; try done.
  rewrite (Z.compare_antisym (bval x)). destruct (bval x ?= bval y); simpl; auto.
Qed.

Lemma bytes_cmp_app p a b : bytes_cmp (p ++ a) (p ++ b) = bytes_cmp a b.
Proof. induction p as [|x p IH]; simpl; [done|]. by rewrite Z.compare_refl. Qed.

Lemma bytes_cmp_le_trans a b c :
  bytes_cmp a b <> Gt -> bytes_cmp b c <> Gt ->
  bytes_cmp a c <> Gt /\ (bytes_cmp a b = Lt \/ bytes_cmp b c = Lt -> bytes_cmp a c = Lt).
Proof.
  revert b c. induction a as [|x a IH]; intros [|y b] [|z c]; simpl; try (intuition congruence).
  destruct (Z.compare_spec (bval x) (bval y)), (Z.compare_spec (bval y) (bval z)),
    (Z.compare_spec (bval x) (bval z)); try lia; try (intuition congruence).
  intros Hab Hbc. destruct (IH b c Hab Hbc). intuition.
Qed.

#[export] Instance bytes_le_preorder : PreOrder bytes_le.
Proof.
  split.
  - intros a. unfold bytes_le. by rewrite bytes_cmp_refl.
  - intros a b c H1 H2. by destruct (bytes_cmp_le_trans a b c H1 H2).
Qed.

#[export] Instance bytes_le_antisymm : AntiSymm (=) bytes_le.
Proof.
  intros a b. unfold bytes_le. rewrite (bytes_cmp_antisym a b).
  destruct (bytes_cmp a b) eqn:E; simpl; try done. intros _ _. by apply bytes_cmp_eq.
Qed.

#[export] Instance bytes_le_total : Total bytes_le.
Proof.
  intros a b. unfold bytes_le. rewrite (bytes_cmp_antisym a b).
  destruct (bytes_cmp a b); simpl; auto; (left; done) || (right; done).
Qed.

#[export] Instance bytes_lt_transitive : Transitive bytes_lt.
Proof.
  intros a b c H1 H2. unfold bytes_lt in *.
  destruct (bytes_cmp_le_trans a b c) as [_ H]; [congruence..|]. auto.
Qed.

#[export] Instance bytes_lt_irreflexive : Irreflexive bytes_lt.
Proof. intros a H. unfold bytes_lt in H. by rewrite bytes_cmp_refl in H. Qed.

Lemma bytes_lt_le a b : bytes_lt a b -> bytes_le a b.
Proof. unfold bytes_lt, bytes_le. by intros ->. Qed.

Lemma bytes_le_lt_eq a b : bytes_le a b <-> bytes_lt a b \/ a = b.
Proof.
  unfold bytes_le, bytes_lt. rewrite <- bytes_cmp_eq. destruct (bytes_cmp a b); intuition done.
Qed.

Lemma bytes_not_le a b : ~ bytes_le a b <-> bytes_lt b a.
Proof.
  unfold bytes_le, bytes_lt. rewrite (bytes_cmp_antisym a b).
  destruct (bytes_cmp a b); simpl; intuition (try done; congruence).
Qed.

Lemma be_bytes_cmp n x y :
  0 <= x < 256 ^ Z.of_nat n -> 0 <= y < 256 ^ Z.of_nat n ->
  bytes_cmp (be_bytes n x) (be_bytes n y) = (x ?= y).
Proof.
  revert x y. induction n as [|n IH]; intros x y Hx Hy.
  { simpl in *. symmetry. apply Z.compare_eq_iff. lia. }
  rewrite pow256_S in Hx, Hy. pose proof (pow256_pos n) as Hp.
  cbn [be_bytes bytes_cmp]. rewrite !bval_byte_of_Z.
  assert (0 <= x / 256 ^ Z.of_nat n < 256) as Hxd
    by (split; [apply Z.div_pos; lia | apply Z.div_lt_upper_bound; lia]).
  assert (0 <= y / 256 ^ Z.of_nat n < 256) as Hyd
    by (split; [apply Z.div_pos; lia | apply Z.div_lt_upper_bound; lia]).
  rewrite !(Z.mod_small _ 256) by lia.
  rewrite <- (be_bytes_mod n x), <- (be_bytes_mod n y), IH
    by (apply Z.mod_pos_bound; lia).
  pose proof (Z.div_mod x (256 ^ Z.of_nat n)). pose proof (Z.div_mod y (256 ^ Z.of_nat n)).
  pose proof (Z.mod_pos_bound x (256 ^ Z.of_nat n)).
  pose proof (Z.mod_pos_bound y (256 ^ Z.of_nat n)).
  destruct (Z.compare_spec (x / 256 ^ Z.of_nat n) (y / 256 ^ Z.of_nat n)) as [E|E|E].
  - rewrite E in *. destruct (Z.compare_spec (x mod 256 ^ Z.of_nat n) (y mod 256 ^ Z.of_nat n));
      symmetry; [apply Z.compare_eq_iff | apply Z.compare_lt_iff | apply Z.compare_gt_iff]; lia.
  - symmetry. apply Z.compare_lt_iff. nia.
  - symmetry. apply Z.compare_gt_iff. nia.
Qed.

(** Strictly sorted lists have no duplicates. *)
Lemma StronglySorted_NoDup {A} (R : relation A) `{!Irreflexive R} (l : list A) : StronglySorted R l -> NoDup l.
Proof.
  induction 1 as [|x l _ IH Hx]; constructor; [|done]. intros Hin.
  exact (irreflexivity R x (proj1 (list.Forall_forall _ _) Hx x Hin)).
Qed.
