(* ===== verification/Errors.v ===== *)
(** * Error values and the [Result] type

    The error enumerations of [src/src/error.rs] and [src/src/journal/error.rs],
    the small enumerations they mention, and [crate::Result] as a monad.  A Rust
    [?] is the bind of this monad. *)

From stdpp Require Import base strings.
From S2P Require Import Prelude.

(** [std::io::ErrorKind], restricted to the kinds the engine distinguishes. *)
Inductive IoErrorKind :=
  | UnexpectedEof
  | IoErrorOther
  | IoAlreadyExists
  | IoNotFound
  | IoErrorKind_ (code : Z).

(** [lsm_tree::CompressionType] and [crate::FormatVersion]. *)
Inductive CompressionType := CompressionNone | Lz4.

Inductive FormatVersion := V1 | V2 | V3.

(** The variants of [lsm_tree::Error] the engine produces or inspects. *)
Inductive LsmError :=
  | LsmIo (k : IoErrorKind)
  | LsmInvalidTag (what : string) (tag : byte)
  | LsmUnrecoverable
  | LsmOther (code : Z).

(** [journal::error::RecoveryError]. *)
Inductive RecoveryError :=
  | InsufficientLength
  | TooManyItems
  | ChecksumMismatch
  | InvalidFileName.

(** [crate::Error]. *)
Inductive Error :=
  | Storage (e : LsmError)
  | Io (k : IoErrorKind)
  | JournalRecovery (e : RecoveryError)
  | InvalidVersion (v : option FormatVersion)
  | Decompress (c : CompressionType)
  | InvalidTrailer
  | InvalidTag (what : string) (tag : byte)
  | InvalidCompositeKey (msg : string)
  | InvalidVisibilityExpression (msg : string)
  | MissingSecurityProvider (msg : string)
  | AuthenticationDenied
  | PermissionDenied (msg : string)
  | ReservedKeyspaceName
  | Crypto (msg : string)
  | Audit (msg : string)
  | InvalidPolicy (msg : string)
  | Poisoned
  | KeyspaceDeleted
  | Locked
  | Unrecoverable.

#[export] Instance IoErrorKind_eq_dec : EqDecision IoErrorKind.
Proof. solve_decision. Defined.
#[export] Instance CompressionType_eq_dec : EqDecision CompressionType.
Proof. solve_decision. Defined.
#[export] Instance FormatVersion_eq_dec : EqDecision FormatVersion.
Proof. solve_decision. Defined.
#[export] Instance LsmError_eq_dec : EqDecision LsmError.
Proof. solve_decision. Defined.
#[export] Instance RecoveryError_eq_dec : EqDecision RecoveryError.
Proof. solve_decision. Defined.
#[export] Instance Error_eq_dec : EqDecision Error.
Proof. solve_decision. Defined.

(** [crate::Result<T>]. *)
Inductive Result (A : Type) : Type :=
  | Ok (a : A)
  | Err (e : Error).
Arguments Ok {A} a.
Arguments Err {A} e.

#[export] Instance Result_ret : MRet Result := fun A a => Ok a.
#[export] Instance Result_bind : MBind Result :=
  fun A B f r => match r with Ok a => f a | Err e => Err e end.
#[export] Instance Result_fmap : FMap Result :=
  fun A B f r => match r with Ok a => Ok (f a) | Err e => Err e end.

#[export] Instance Result_eq_dec `{EqDecision A} : EqDecision (Result A).
Proof. solve_decision. Defined.

(** [Option::ok_or]. *)
Definition ok_or {A} (o : option A) (e : Error) : Result A :=
  match o with Some a => Ok a | None => Err e end.

(** [Result::is_ok]. *)
Definition is_ok {A} (r : Result A) : bool :=
  match r with Ok _ => true | Err _ => false end.

Lemma bind_Ok {A B} (r : Result A) (f : A -> Result B) b :
  (r ≫= f) = Ok b <-> exists a, r = Ok a /\ f a = Ok b.
Proof. destruct r; simpl; naive_solver. Qed.

Lemma bind_Err {A B} (r : Result A) (f : A -> Result B) e :
  (r ≫= f) = Err e <-> r = Err e \/ exists a, r = Ok a /\ f a = Err e.
Proof. destruct r; simpl; naive_solver. Qed.

(** Case analysis on the [match]es of a hypothesis or goal, discarding the
    branches whose results clash. *)
Ltac break_match :=
  match goal with
  | H : context [match ?x with _ => _ end] |- _ => destruct x eqn:?
  | |- context [match ?x with _ => _ end] => destruct x eqn:?
  end.

(** Inversion of a chain of [?]s that returned [Ok]. *)
Ltac inv_ok :=
  repeat match goal with
  | H : (_ ≫= _) = Ok _ |- _ =>
      let x := fresh "x" in let Hx := fresh "Hx" in
      apply bind_Ok in H as (x & Hx & H)
  | H : Ok _ = Ok _ |- _ => injection H as H; subst
  | H : Err _ = Ok _ |- _ => discriminate H
  | H : Ok _ = Err _ |- _ => discriminate H
  end.

(** ** Sequential byte readers ([std::io::Read])

    A reader is the list of bytes it has not produced yet; a read that runs out
    of bytes fails with [UnexpectedEof]. *)

Definition read_exact (n : nat) (r : bytes) : Result (bytes * bytes) :=
  if decide (n <= length r)%nat then Ok (take n r, drop n r)
  else Err (Io UnexpectedEof).

Definition read_u8 (r : bytes) : Result (byte * bytes) :=
  match r with
  | b :: r => Ok (b, r)
  | [] => Err (Io UnexpectedEof)
  end.

(** [read_u16/u32/u64::<LittleEndian>], by width in bytes. *)
Definition read_le (n : nat) (r : bytes) : Result (Z * bytes) :=
  '(bs, r) ← read_exact n r;
  Ok (le_val bs, r).

Lemma read_exact_app bs r n :
  n = length bs -> read_exact n (bs ++ r) = Ok (bs, r).
Proof.
  intros ->. unfold read_exact. rewrite decide_True by (rewrite length_app; lia).
  by rewrite take_app_length, drop_app_length.
Qed.

Lemma read_le_app n z r :
  0 <= z < 256 ^ Z.of_nat n -> read_le n (le_bytes n z ++ r) = Ok (z, r).
Proof.
  intros Hz. unfold read_le.
  rewrite read_exact_app by (by rewrite le_bytes_length). simpl.
  by rewrite le_val_bytes.
Qed.

Lemma read_exact_Ok n r bs r' :
  read_exact n r = Ok (bs, r') -> r = bs ++ r' /\ length bs = n.
Proof.
  unfold read_exact. case_decide; [|done]. intros [= <- <-].
  rewrite take_drop, length_take. split; [done|lia].
Qed.

Lemma read_le_Ok n r z r' :
  read_le n r = Ok (z, r') -> r = le_bytes n z ++ r' /\ 0 <= z < 256 ^ Z.of_nat n.
Proof.
  unfold read_le. intros H. inv_ok. destruct x as [bs r2].
  apply read_exact_Ok in Hx as [-> <-]. simpl in H. inv_ok. subst.
  rewrite le_bytes_val. split; [done|apply le_val_bound].
Qed.

Lemma read_exact_Err n r e : read_exact n r = Err e -> e = Io UnexpectedEof.
Proof. unfold read_exact. case_decide; congruence. Qed.

Create Rewrite HintDb readers.
#[export] Hint Rewrite @read_exact_app using (by rewrite ?le_bytes_length) : readers.
