(* ===== verification/Composite.v ===== *)
(** * Ordered composite keys

    Models [src/src/secure/composite.rs]: the escaped, terminated, binary-sortable
    encoding of a wide-row key, its decoder, and the range bounds of a prefix of
    fields.  [lsm_tree::util::prefix_to_range] is code of another crate and is a
    parameter ([PrefixRange]) with its documented contract. *)

From stdpp Require Import base list strings.
From S2P Require Import Prelude Errors.

(** [std::ops::Bound]. *)
Inductive Bound (A : Type) : Type :=
  | Included (a : A)
  | Excluded (a : A)
  | Unbounded.
Arguments Included {A} a.
Arguments Excluded {A} a.
Arguments Unbounded {A}.

(** [RangeBounds::contains] on byte-string keys. *)
Definition above (lo : Bound bytes) (k : bytes) : bool :=
  match lo with
  | Included b => bool_decide (bytes_le b k)
  | Excluded b => bool_decide (bytes_lt b k)
  | Unbounded => true
  end.

Definition below (hi : Bound bytes) (k : bytes) : bool :=
  match hi with
  | Included b => bool_decide (bytes_le k b)
  | Excluded b => bool_decide (bytes_lt k b)
  | Unbounded => true
  end.

Definition in_range (r : Bound bytes * Bound bytes) (k : bytes) : bool :=
  above r.1 k && below r.2 k.

(** [lsm_tree::util::prefix_to_range]: the bounds that cover exactly the keys
    starting with the given prefix. *)
Class PrefixRange := {
  prefix_to_range : bytes -> Bound bytes * Bound bytes;
  prefix_to_range_spec :
    forall p k, in_range (prefix_to_range p) k = true <-> p `prefix_of` k
}.

(** ** Constants *)

Definition FORMAT_VERSION : byte := Byte.x01.
Definition FIELD_TERMINATOR : byte := Byte.x00.
Definition FIELD_ESCAPE : byte := Byte.x01.
Definition ESCAPED_ZERO : byte := Byte.x01.
Definition ESCAPED_ONE : byte := Byte.x02.
Definition ENCODED_TIMESTAMP_LEN : nat := 8.
Definition MAX_USER_KEY_LEN : Z := u16_max.

(** ** Data *)

Record CompositeKey := mkCompositeKey {
  row : bytes;
  family : bytes;
  qualifier : bytes;
  visibility : bytes;
  timestamp : Z
}.

Record CompositePrefix := mkCompositePrefix {
  p_row : option bytes;
  p_family : option bytes;
  p_qualifier : option bytes;
  p_visibility : option bytes
}.

#[export] Instance CompositeKey_eq_dec : EqDecision CompositeKey.
Proof. solve_decision. Defined.

(** The timestamp is an [i64]. *)
Definition key_wf (k : CompositeKey) : Prop := is_i64 (timestamp k).

(** ** Fields *)

(** The bytes [encode_field] pushes for one byte of a field. *)
Definition encode_byte (b : byte) : bytes :=
  if decide (b = FIELD_TERMINATOR) then [FIELD_ESCAPE; ESCAPED_ZERO]
  else if decide (b = FIELD_ESCAPE) then [FIELD_ESCAPE; ESCAPED_ONE]
  else [b].

(** [encode_field] appends the encoded field to [encoded]. *)
Fixpoint encode_field (field : bytes) (encoded : bytes) : bytes :=
  match field with
  | [] => encoded ++ [FIELD_TERMINATOR]
  | b :: field => encode_field field (encoded ++ encode_byte b)
  end.

(** [encoded_field_len], used to size the buffer. *)
Definition encoded_field_len (field : bytes) : nat :=
  (sum_list ((fun b => if decide (b = FIELD_TERMINATOR \/ b = FIELD_ESCAPE) then 2%nat else 1%nat)
               <$> field) + 1)%nat.

(** [decode_field]: the loop, with its accumulator [decoded].  Structural on the
    remaining bytes, so it always returns. *)
Fixpoint decode_field_loop (remaining : bytes) (decoded : bytes) : Result (bytes * bytes) :=
  match remaining with
  | [] => Err (InvalidCompositeKey "unterminated composite key field")
  | b :: tail =>
      if decide (b = FIELD_TERMINATOR) then Ok (decoded, tail)
      else if decide (b = FIELD_ESCAPE) then
        match tail with
        | [] => Err (InvalidCompositeKey "unterminated field escape")
        | escaped :: next =>
            if decide (escaped = ESCAPED_ZERO) then
              decode_field_loop next (decoded ++ [FIELD_TERMINATOR])
            else if decide (escaped = ESCAPED_ONE) then
              decode_field_loop next (decoded ++ [FIELD_ESCAPE])
            else Err (InvalidCompositeKey "invalid field escape")
        end
      else decode_field_loop tail (decoded ++ [b])
  end.

Definition decode_field (remaining : bytes) : Result (bytes * bytes) :=
  decode_field_loop remaining [].

(** ** Timestamps *)

(** [u64::from_ne_bytes(timestamp.to_ne_bytes())] and back. *)
Definition i64_as_u64 (t : Z) : Z := t mod 2 ^ 64.
Definition u64_as_i64 (u : Z) : Z := if decide (u < 2 ^ 63) then u else u - 2 ^ 64.

Definition SIGN_BIT : Z := 0x8000000000000000.

(** [!x] on [u64]. *)
Definition u64_not (x : Z) : Z := Z.lnot x mod 2 ^ 64.

Definition encode_descending_timestamp (t : Z) : bytes :=
  let ascending := Z.lxor (i64_as_u64 t) SIGN_BIT in
  be_bytes 8 (u64_not ascending).

Definition decode_descending_timestamp (encoded : bytes) : Z :=
  let descending := be_val encoded in
  let ascending := u64_not descending in
  u64_as_i64 (Z.lxor ascending SIGN_BIT).

(** ** Keys *)

Definition validate_encoded_len (len : nat) : Result () :=
  if decide (Z.of_nat len > MAX_USER_KEY_LEN) then
    Err (InvalidCompositeKey "encoded composite key exceeds Fjall's user-key length limit")
  else Ok ().

Definition encode_prefix_fields (fields : list bytes) : bytes :=
  foldl (fun encoded field => encode_field field encoded) [FORMAT_VERSION] fields.

Definition encode (k : CompositeKey) : Result bytes :=
  let fields := [row k; family k; qualifier k; visibility k] in
  let encoded := encode_prefix_fields fields ++ encode_descending_timestamp (timestamp k) in
  _ ← validate_encoded_len (length encoded);
  Ok encoded.

Definition decode (encoded : bytes) : Result CompositeKey :=
  match encoded with
  | [] => Err (InvalidCompositeKey "missing composite key version")
  | version :: rest =>
      if decide (version <> FORMAT_VERSION) then
        Err (InvalidCompositeKey "unsupported composite key version")
      else
        '(row, rest) ← decode_field rest;
        '(family, rest) ← decode_field rest;
        '(qualifier, rest) ← decode_field rest;
        '(visibility, rest) ← decode_field rest;
        if decide (length rest <> ENCODED_TIMESTAMP_LEN) then
          Err (InvalidCompositeKey "composite key timestamp must be exactly 8 bytes")
        else
          Ok (mkCompositeKey row family qualifier visibility (decode_descending_timestamp rest))
  end.

(** The logical order of keys: fields ascending, then newest timestamp first. *)
Definition cmp_logical (l r : CompositeKey) : comparison :=
  then_with (bytes_cmp (row l) (row r))
    (then_with (bytes_cmp (family l) (family r))
      (then_with (bytes_cmp (qualifier l) (qualifier r))
        (then_with (bytes_cmp (visibility l) (visibility r))
          (timestamp r ?= timestamp l)))).

(** ** Prefix ranges *)

(** The [match] of [CompositePrefix::range] on the supplied fields. *)
Definition prefix_fields (p : CompositePrefix) : Result (list bytes) :=
  match p_row p, p_family p, p_qualifier p, p_visibility p with
  | None, None, None, None => Ok []
  | Some r, None, None, None => Ok [r]
  | Some r, Some f, None, None => Ok [r; f]
  | Some r, Some f, Some q, None => Ok [r; f; q]
  | Some r, Some f, Some q, Some v => Ok [r; f; q; v]
  | _, _, _, _ => Err (InvalidCompositeKey "composite prefix fields must be contiguous")
  end.

Definition range `{PrefixRange} (p : CompositePrefix) : Result (Bound bytes * Bound bytes) :=
  fields ← prefix_fields p;
  let prefix := encode_prefix_fields fields in
  _ ← validate_encoded_len (length prefix);
  Ok (prefix_to_range prefix).

(** Whether a key has the field values a prefix asks for. *)
Definition field_matches (want : option bytes) (have : bytes) : bool :=
  match want with None => true | Some w => bool_decide (w = have) end.

Definition prefix_matches (p : CompositePrefix) (k : CompositeKey) : bool :=
  field_matches (p_row p) (row k) && field_matches (p_family p) (family k) &&
  field_matches (p_qualifier p) (qualifier k) && field_matches (p_visibility p) (visibility k).

(** ** Lemmas on fields *)

(** What [encode_field] appends. *)
Definition escaped (field : bytes) : bytes :=
  concat (encode_byte <$> field) ++ [FIELD_TERMINATOR].

Lemma escaped_nil : escaped [] = [FIELD_TERMINATOR].
Proof. done. Qed.

Lemma escaped_cons b field : escaped (b :: field) = encode_byte b ++ escaped field.
Proof. unfold escaped. simpl. by rewrite app_assoc. Qed.

Lemma encode_field_app field acc : encode_field field acc = acc ++ escaped field.
Proof.
  unfold escaped. revert acc. induction field as [|b field IH]; intros acc; simpl; [done|].
  by rewrite IH, <- !app_assoc.
Qed.

Lemma encode_prefix_fields_app fields :
  encode_prefix_fields fields = FORMAT_VERSION :: concat (escaped <$> fields).
Proof.
  unfold encode_prefix_fields. change (FORMAT_VERSION :: concat (escaped <$> fields))
    with ([FORMAT_VERSION] ++ concat (escaped <$> fields)).
  generalize [FORMAT_VERSION]. induction fields as [|f fields IH]; intros acc; simpl.
  - by rewrite app_nil_r.
  - by rewrite encode_field_app, IH, <- app_assoc.
Qed.

Lemma bval_zero b : bval b = 0 -> b = FIELD_TERMINATOR.
Proof. intros H. apply (inj bval). exact H. Qed.

Lemma bval_one b : bval b = 1 -> b = FIELD_ESCAPE.
Proof. intros H. apply (inj bval). exact H. Qed.

(** The three shapes of an escaped byte. *)
Lemma encode_byte_cases b :
  (b = FIELD_TERMINATOR /\ encode_byte b = [FIELD_ESCAPE; ESCAPED_ZERO]) \/
  (b = FIELD_ESCAPE /\ encode_byte b = [FIELD_ESCAPE; ESCAPED_ONE]) \/
  (2 <= bval b /\ b <> FIELD_TERMINATOR /\ b <> FIELD_ESCAPE /\ encode_byte b = [b]).
Proof.
  unfold encode_byte. case_decide; [by left|]. case_decide; [by right; left|].
  right; right. pose proof (bval_bound b).
  assert (bval b <> 0) by (intros ?%bval_zero; done).
  assert (bval b <> 1) by (intros ?%bval_one; done). repeat split; [lia|done..].
Qed.

(** Byte comparisons by the numeric values of the constants. *)
Ltac cmp_bytes :=
  assert (bval FIELD_TERMINATOR = 0) by done; assert (bval FIELD_ESCAPE = 1) by done;
  assert (bval ESCAPED_ZERO = 1) by done; assert (bval ESCAPED_ONE = 2) by done;
  cbn [app bytes_cmp];
  repeat match goal with |- context [?u ?= ?v] => destruct (Z.compare_spec u v) end;
  try done; lia.

Lemma encode_byte_cmp x y a b :
  bytes_cmp (encode_byte x ++ a) (encode_byte y ++ b) =
  then_with (bval x ?= bval y) (bytes_cmp a b).
Proof.
  destruct (encode_byte_cases x) as [[-> ->]|[[-> ->]|(Hx & _ & _ & ->)]],
    (encode_byte_cases y) as [[-> ->]|[[-> ->]|(Hy & _ & _ & ->)]]; cmp_bytes.
Qed.

Lemma terminator_encode_byte_cmp y a b :
  bytes_cmp ([FIELD_TERMINATOR] ++ a) (encode_byte y ++ b) = Lt.
Proof.
  destruct (encode_byte_cases y) as [[-> ->]|[[-> ->]|(Hy & _ & _ & ->)]]; cmp_bytes.
Qed.

(** The escaped encoding of a field preserves the order of fields and is
    prefix free: what follows it is compared only when the fields are equal. *)
Lemma escaped_cmp f g a b :
  bytes_cmp (escaped f ++ a) (escaped g ++ b) = then_with (bytes_cmp f g) (bytes_cmp a b).
Proof.
  revert g. induction f as [|x f IH]; intros [|y g]; rewrite ?escaped_cons, ?escaped_nil.
  - done.
  - by rewrite <- !app_assoc, terminator_encode_byte_cmp.
  - by rewrite bytes_cmp_antisym, <- !app_assoc, terminator_encode_byte_cmp.
  - rewrite <- !app_assoc, encode_byte_cmp, IH. simpl. by destruct (bval x ?= bval y).
Qed.

Lemma encoded_field_len_spec f : length (escaped f) = encoded_field_len f.
Proof.
  induction f as [|b f IH]; [done|]. rewrite escaped_cons, length_app, IH.
  unfold encoded_field_len. csimpl. rewrite <- Nat.add_assoc. f_equal.
  unfold encode_byte. repeat case_decide; simpl; naive_solver.
Qed.

Lemma decode_field_escaped f rest acc :
  decode_field_loop (escaped f ++ rest) acc = Ok (acc ++ f, rest).
Proof.
  revert acc. induction f as [|x f IH]; intros acc.
  - by rewrite app_nil_r.
  - rewrite escaped_cons, <- !app_assoc.
    destruct (encode_byte_cases x) as [[-> ->]|[[-> ->]|(_ & H0 & H1 & ->)]]; simpl.
    + by rewrite IH, <- app_assoc.
    + by rewrite IH, <- app_assoc.
    + rewrite !decide_False by done. by rewrite IH, <- app_assoc.
Qed.

Lemma decode_field_loop_Ok bs acc f rest :
  decode_field_loop bs acc = Ok (f, rest) ->
  exists g, f = acc ++ g /\ bs = escaped g ++ rest.
Proof.
  assert (exists n, length bs <= n)%nat as [n Hn] by eauto. revert bs acc Hn.
  induction n as [|n IH]; intros [|b bs] acc Hn H; simpl in Hn; [done|lia|done|].
  simpl in H. case_decide as H0.
  { simplify_eq. exists []. by rewrite app_nil_r. }
  case_decide as H1; [destruct bs as [|e bs]; [done|]; repeat case_decide; [..|done]|];
    (apply IH in H as (g & -> & ->); [|simpl in Hn; lia]).
  - exists (FIELD_TERMINATOR :: g). by rewrite <- app_assoc; subst.
  - exists (FIELD_ESCAPE :: g). by rewrite <- app_assoc; subst.
  - exists (b :: g). rewrite <- app_assoc. split; [done|].
    unfold escaped, encode_byte. simpl. by rewrite !decide_False.
Qed.

Lemma decode_field_Ok bs f rest : decode_field bs = Ok (f, rest) <-> bs = escaped f ++ rest.
Proof.
  unfold decode_field. split.
  - intros (g & -> & ->)%decode_field_loop_Ok. done.
  - intros ->. apply decode_field_escaped.
Qed.

(** ** Lemmas on timestamps *)

Lemma u64_not_sub x : is_u64 x -> u64_not x = u64_max - x.
Proof.
  unfold_ranges. intros Hx. unfold u64_not.
  symmetry. apply Z.mod_unique_pos with (-1); unfold Z.lnot; lia.
Qed.

(** Flipping the sign bit of the two's complement pattern shifts by [2^63]. *)
Lemma sign_flip t : is_i64 t -> Z.lxor (i64_as_u64 t) SIGN_BIT = t + 2 ^ 63.
Proof.
  unfold_ranges. intros Ht. unfold i64_as_u64, SIGN_BIT.
  assert (Hlow : forall a, 0 <= a < 2 ^ 63 -> Z.lxor a (2 ^ 63) = a + 2 ^ 63).
  { intros a Ha. rewrite Z.add_nocarry_lxor; [done|]. apply Z.bits_inj'. intros n Hn.
    rewrite Z.land_spec, Z.bits_0, Z.pow2_bits_eqb by lia.
    destruct (Z.eqb_spec 63 n) as [<-|]; [|by rewrite andb_false_r].
    rewrite andb_true_r. apply Z.testbit_false; [lia|]. by rewrite Z.div_small by lia. }
  change 0x8000000000000000 with (2 ^ 63).
  destruct (decide (0 <= t)).
  - rewrite Z.mod_small by lia. apply Hlow. lia.
  - replace (t mod 2 ^ 64) with ((t + 2 ^ 63) + 2 ^ 63)
      by (apply Z.mod_unique_pos with (-1); lia).
    rewrite <- (Hlow (t + 2 ^ 63)) by lia.
    rewrite Z.lxor_assoc, Z.lxor_nilpotent, Z.lxor_0_r. lia.
Qed.

Lemma sign_unflip u : is_u64 u -> u64_as_i64 (Z.lxor u SIGN_BIT) = u - 2 ^ 63.
Proof.
  intros Hu. assert (is_i64 (u - 2 ^ 63)) as Hi by (unfold_ranges; lia).
  pose proof (sign_flip _ Hi) as H. replace (u - 2 ^ 63 + 2 ^ 63) with u in H by lia.
  rewrite <- H at 1. rewrite Z.lxor_assoc, Z.lxor_nilpotent, Z.lxor_0_r.
  clear H. unfold u64_as_i64, i64_as_u64. unfold_ranges.
  destruct (decide (0 <= u - 2 ^ 63)).
  - rewrite Z.mod_small, decide_True by lia. done.
  - replace ((u - 2 ^ 63) mod 2 ^ 64) with (u + 2 ^ 63)
      by (apply Z.mod_unique_pos with (-1); lia).
    rewrite decide_False by lia. lia.
Qed.

Lemma encode_descending_timestamp_val t :
  is_i64 t -> encode_descending_timestamp t = be_bytes 8 (i64_max - t).
Proof.
  intros Ht. unfold encode_descending_timestamp. rewrite sign_flip by done.
  rewrite u64_not_sub by (unfold_ranges; lia). f_equal. unfold_ranges. lia.
Qed.

Lemma encode_descending_timestamp_length t :
  length (encode_descending_timestamp t) = ENCODED_TIMESTAMP_LEN.
Proof. apply be_bytes_length. Qed.

Lemma pow256_8 : 256 ^ Z.of_nat 8 = 2 ^ 64.
Proof. done. Qed.

Lemma decode_encode_timestamp t :
  is_i64 t -> decode_descending_timestamp (encode_descending_timestamp t) = t.
Proof.
  intros Ht. rewrite encode_descending_timestamp_val by done.
  unfold decode_descending_timestamp.
  rewrite be_val_bytes by (rewrite pow256_8; unfold_ranges; lia).
  rewrite u64_not_sub, sign_unflip by (unfold_ranges; lia). unfold_ranges. lia.
Qed.

Lemma encode_decode_timestamp bs :
  length bs = ENCODED_TIMESTAMP_LEN ->
  is_i64 (decode_descending_timestamp bs) /\
  encode_descending_timestamp (decode_descending_timestamp bs) = bs.
Proof.
  intros Hl. pose proof (be_val_bound bs) as Hb. rewrite Hl in Hb.
  change (256 ^ Z.of_nat ENCODED_TIMESTAMP_LEN) with (2 ^ 64) in Hb.
  assert (decode_descending_timestamp bs = i64_max - be_val bs) as ->.
  { unfold decode_descending_timestamp.
    rewrite u64_not_sub, sign_unflip by (unfold_ranges; lia). unfold_ranges. lia. }
  split; [unfold_ranges; lia|].
  rewrite encode_descending_timestamp_val by (unfold_ranges; lia).
  replace (i64_max - (i64_max - be_val bs)) with (be_val bs) by lia.
  change 8%nat with ENCODED_TIMESTAMP_LEN. rewrite <- Hl. apply be_bytes_val.
Qed.

Lemma timestamp_cmp t u :
  is_i64 t -> is_i64 u ->
  bytes_cmp (encode_descending_timestamp t) (encode_descending_timestamp u) = (u ?= t).
Proof.
  intros Ht Hu. rewrite !encode_descending_timestamp_val by done.
  rewrite be_bytes_cmp by (rewrite pow256_8; unfold_ranges; lia).
  destruct (Z.compare_spec u t);
    [apply Z.compare_eq_iff | apply Z.compare_lt_iff | apply Z.compare_gt_iff]; lia.
Qed.

(** ** Lemmas on keys *)

(** The bytes [encode] produces when the length check passes. *)
Definition encoded (k : CompositeKey) : bytes :=
  FORMAT_VERSION :: escaped (row k) ++ escaped (family k) ++ escaped (qualifier k) ++
    escaped (visibility k) ++ encode_descending_timestamp (timestamp k).

Lemma encode_eq k :
  encode k = if decide (Z.of_nat (length (encoded k)) > MAX_USER_KEY_LEN)
             then Err (InvalidCompositeKey "encoded composite key exceeds Fjall's user-key length limit")
             else Ok (encoded k).
Proof.
  unfold encode, validate_encoded_len. rewrite encode_prefix_fields_app. csimpl.
  rewrite app_nil_r, <- !app_assoc. fold (encoded k). by case_decide.
Qed.

Lemma encode_Ok k e : encode k = Ok e <-> e = encoded k /\ Z.of_nat (length (encoded k)) <= MAX_USER_KEY_LEN.
Proof. rewrite encode_eq. case_decide; split; intros; destruct_and?; simplify_eq; try done; lia. Qed.

Lemma encoded_cmp k1 k2 :
  key_wf k1 -> key_wf k2 -> bytes_cmp (encoded k1) (encoded k2) = cmp_logical k1 k2.
Proof.
  intros H1 H2. unfold encoded. cbn [bytes_cmp]. rewrite Z.compare_refl.
  by rewrite !escaped_cmp, timestamp_cmp.
Qed.

Lemma decode_encoded k : key_wf k -> decode (encoded k) = Ok k.
Proof.
  intros Hk. unfold decode, encoded. rewrite decide_False by tauto.
  do 4 (rewrite (proj2 (decode_field_Ok _ _ _) eq_refl); cbn [mbind Result_bind]).
  rewrite encode_descending_timestamp_length, decide_False, decode_encode_timestamp by tauto.
  by destruct k.
Qed.

Lemma decode_Ok bs k : decode bs = Ok k -> bs = encoded k /\ key_wf k.
Proof.
  destruct bs as [|v bs]; [done|]. unfold decode. case_decide as Hv; [done|].
  subst v. intros H. inv_ok.
  destruct x as [r b1]; apply decode_field_Ok in Hx as ->. inv_ok.
  destruct x as [f b2]; apply decode_field_Ok in Hx as ->. inv_ok.
  destruct x as [q b3]; apply decode_field_Ok in Hx as ->. inv_ok.
  destruct x as [v b4]; apply decode_field_Ok in Hx as ->.
  case_decide as Hl; [done|]. injection H as <-.
  destruct (encode_decode_timestamp b4 Hl) as [Hi Hb].
  unfold encoded, key_wf. simpl. by rewrite Hb.
Qed.

(** The fields of [k], in key order. *)
Definition key_fields (k : CompositeKey) : list bytes := [row k; family k; qualifier k; visibility k].

Lemma escaped_prefix f g a b :
  escaped f ++ a `prefix_of` escaped g ++ b <-> f = g /\ a `prefix_of` b.
Proof.
  split.
  - intros [c Hc]. rewrite <- app_assoc in Hc.
    pose proof (escaped_cmp f g (a ++ c) b) as H. rewrite <- Hc, bytes_cmp_refl in H.
    destruct (bytes_cmp f g) eqn:E; try done. apply bytes_cmp_eq in E as ->.
    split; [done|]. exists c. by apply app_inv_head in Hc.
  - intros [-> H]. by apply prefix_app.
Qed.

Lemma encode_prefix_fields_prefix fs gs t :
  encode_prefix_fields fs `prefix_of` FORMAT_VERSION :: concat (escaped <$> gs) ++ t ->
  (length fs <= length gs)%nat -> fs `prefix_of` gs.
Proof.
  rewrite encode_prefix_fields_app. intros H%prefix_cons_inv_2. revert gs H.
  induction fs as [|f fs IH]; intros [|g gs] H Hl; simpl in Hl; try lia.
  - apply prefix_nil.
  - apply prefix_nil.
  - csimpl in H. rewrite <- app_assoc in H. apply escaped_prefix in H as [-> H].
    apply prefix_cons, IH; [done|lia].
Qed.

Lemma encode_prefix_fields_encoded fs k :
  (length fs <= 4)%nat ->
  encode_prefix_fields fs `prefix_of` encoded k <-> fs `prefix_of` key_fields k.
Proof.
  intros Hl. assert (encoded k = FORMAT_VERSION :: concat (escaped <$> key_fields k) ++
    encode_descending_timestamp (timestamp k)) as ->.
  { unfold encoded, key_fields. csimpl. by rewrite app_nil_r, <- !app_assoc. }
  split.
  - intros H. by eapply encode_prefix_fields_prefix.
  - intros [gs E]. rewrite encode_prefix_fields_app, E, fmap_app, concat_app, <- app_assoc.
    by apply prefix_cons, prefix_app_r.
Qed.

Lemma prefix_fields_matches p fs k :
  prefix_fields p = Ok fs ->
  (length fs <= 4)%nat /\ (fs `prefix_of` key_fields k <-> prefix_matches p k = true).
Proof.
  destruct p as [r f q v], k as [r' f' q' v' t]. unfold prefix_fields, prefix_matches, key_fields; simpl.
  destruct r, f, q, v; intros [= <-]; (split; [simpl; lia|]); simpl;
    rewrite ?andb_true_iff, ?bool_decide_eq_true.
  all: split; [intros [c E]; simplify_eq/=; done | intros; destruct_and?; subst; eexists; done].
Qed.

(** The supplied fields of a prefix, and whether they are contiguous from the row on. *)
Definition supplied (p : CompositePrefix) : list bytes :=
  omap id [p_row p; p_family p; p_qualifier p; p_visibility p].

Definition contiguous (p : CompositePrefix) : bool :=
  implb (bool_decide (is_Some (p_family p))) (bool_decide (is_Some (p_row p))) &&
  implb (bool_decide (is_Some (p_qualifier p))) (bool_decide (is_Some (p_family p))) &&
  implb (bool_decide (is_Some (p_visibility p))) (bool_decide (is_Some (p_qualifier p))).

Lemma prefix_fields_contiguous p :
  prefix_fields p =
  if contiguous p then Ok (supplied p)
  else Err (InvalidCompositeKey "composite prefix fields must be contiguous").
Proof. by destruct p as [[] [] [] []]. Qed.

Lemma encode_prefix_fields_length fs :
  length (encode_prefix_fields fs) = (1 + sum_list (encoded_field_len <$> fs))%nat.
Proof.
  rewrite encode_prefix_fields_app. simpl. f_equal.
  induction fs as [|f fs IH]; csimpl; [done|]. by rewrite length_app, IH, encoded_field_len_spec.
Qed.

(** ** A concrete [PrefixRange]

    The least byte string above every extension of a prefix (drop trailing
    [0xff]s, increment the last remaining byte) as an exclusive upper bound. *)

Fixpoint prefix_upper (p : bytes) : option bytes :=
  match p with
  | [] => None
  | b :: p =>
      match prefix_upper p with
      | Some q => Some (b :: q)
      | None => if decide (bval b = 255) then None else Some [byte_of_Z (bval b + 1)]
      end
  end.

Definition upper_bound (p : bytes) : Bound bytes :=
  match prefix_upper p with Some q => Excluded q | None => Unbounded end.

Lemma upper_bound_spec p k :
  in_range (Included p, upper_bound p) k = true <-> p `prefix_of` k.
Proof.
  unfold in_range, upper_bound. cbn [fst snd above].
  rewrite andb_true_iff, bool_decide_eq_true. revert k.
  induction p as [|b p IH]; intros [|x k]; cbn [prefix_upper below].
  - by split; [intros; apply prefix_nil|].
  - by split; [intros; apply prefix_nil|].
  - split; [by intros []|]. intros H%prefix_nil_inv. done.
  - specialize (IH k). pose proof (bval_bound b). pose proof (bval_bound x).
    unfold bytes_le in *. cbn [bytes_cmp]. destruct (Z.compare_spec (bval b) (bval x)) as [E|E|E].
    + apply (inj bval) in E as <-. split.
      * intros [H1 H2]. apply prefix_cons, IH. split; [done|].
        destruct (prefix_upper p) as [q|]; [|done]. simpl in *.
        apply bool_decide_eq_true in H2. apply bool_decide_eq_true.
        unfold bytes_lt in *. simpl in H2. by rewrite Z.compare_refl in H2.
      * intros H2%prefix_cons_inv_2. apply IH in H2 as [H1 H2]. split; [done|].
        destruct (prefix_upper p) as [q|]; [|case_decide; [done|]]; simpl in *;
          apply bool_decide_eq_true; unfold bytes_lt; cbn [bytes_cmp].
        -- rewrite Z.compare_refl. by apply bool_decide_eq_true in H2.
        -- rewrite bval_byte_of_Z, Z.mod_small by lia.
           by rewrite (proj2 (Z.compare_lt_iff _ _)) by lia.
    + split; [intros [_ H2] | intros Hp; apply prefix_cons_inv_1 in Hp; subst; lia].
      exfalso. destruct (prefix_upper p) as [q|]; [|case_decide; [lia|]]; simpl in *;
        apply bool_decide_eq_true in H2; unfold bytes_lt in H2; cbn [bytes_cmp] in H2.
      * rewrite (proj2 (Z.compare_gt_iff _ _)) in H2 by lia. done.
      * rewrite bval_byte_of_Z, Z.mod_small in H2 by lia.
        destruct (Z.compare_spec (bval x) (bval b + 1)); try lia; try done. by destruct k.
    + split; [by intros [??]|]. intros Hp; apply prefix_cons_inv_1 in Hp; subst; lia.
Qed.

#[export] Program Instance reference_prefix_range : PrefixRange :=
  {| prefix_to_range p := (Included p, upper_bound p) |}.
Next Obligation. intros p k. apply upper_bound_spec. Qed.

(** ** Properties *)

(** decoding the encoding of a key gives the key back, for every field content
    (zero, one and 0xff bytes included) and every [i64] timestamp. *)
Theorem composite_roundtrip k e :
  key_wf k -> encode k = Ok e -> decode e = Ok k.
Proof. intros Hk [-> _]%encode_Ok. by apply decode_encoded. Qed.

(** the decoder accepts nothing but encodings: what it accepts re-encodes to the
    very same bytes (unless they exceed the user-key limit), and the decoded
    timestamp is an [i64]. *)
Theorem composite_decode_canonical e k :
  decode e = Ok k -> Z.of_nat (length e) <= MAX_USER_KEY_LEN -> encode k = Ok e /\ key_wf k.
Proof. intros [-> Hk]%decode_Ok Hl. split; [|done]. by apply encode_Ok. Qed.

(** C15: the byte order of encoded keys is the logical order: row, family, qualifier
    and visibility ascending, then newest timestamp first. *)
Theorem composite_order k1 k2 e1 e2 :
  key_wf k1 -> key_wf k2 -> encode k1 = Ok e1 -> encode k2 = Ok e2 ->
  bytes_cmp e1 e2 = cmp_logical k1 k2.
Proof. intros ?? [-> _]%encode_Ok [-> _]%encode_Ok. by apply encoded_cmp. Qed.

(** the range of a prefix contains exactly the encoded keys whose leading fields
    have the requested values. *)
Theorem composite_range_exact `{PrefixRange} p r k e :
  range p = Ok r -> encode k = Ok e -> in_range r e = prefix_matches p k.
Proof.
  intros Hr [-> _]%encode_Ok. unfold range in Hr. inv_ok.
  destruct (prefix_fields_matches p _ k Hx) as [Hl Hm].
  apply eq_true_iff_eq.
  rewrite prefix_to_range_spec, encode_prefix_fields_encoded by done. exact Hm.
Qed.

(** a prefix range is given exactly when the supplied fields are contiguous from
    the row on and their encoding is no longer than a user key may be; the buffer size
    computed by [encoded_field_len] is that encoding's length. *)
Theorem composite_range_errors `{PrefixRange} p :
  is_ok (range p) =
  contiguous p &&
  bool_decide (Z.of_nat (1 + sum_list (encoded_field_len <$> supplied p)) <= MAX_USER_KEY_LEN).
Proof.
  unfold range. rewrite prefix_fields_contiguous. destruct (contiguous p); [|done]. simpl.
  unfold validate_encoded_len. rewrite encode_prefix_fields_length.
  case_decide; case_bool_decide; done || lia.
Qed.

(** ** Witnesses *)

Definition sample_key : CompositeKey :=
  mkCompositeKey [Byte.x00; Byte.x01; Byte.xfe; Byte.xff] [Byte.x66; Byte.x00] [Byte.x01] [Byte.xff] (-1).

Definition sample_key_newer : CompositeKey :=
  mkCompositeKey [Byte.x00; Byte.x01; Byte.xfe; Byte.xff] [Byte.x66; Byte.x00] [Byte.x01] [Byte.xff] 7.

Definition sample_prefix : CompositePrefix :=
  mkCompositePrefix (Some (row sample_key)) (Some (family sample_key)) None None.

Lemma composite_roundtrip_witness : decode (encoded sample_key) = Ok sample_key.
Proof. apply (composite_roundtrip sample_key); [split; lia || done | reflexivity]. Defined.

Lemma composite_decode_canonical_witness :
  encode sample_key = Ok (encoded sample_key) /\ key_wf sample_key.
Proof. apply (composite_decode_canonical (encoded sample_key) sample_key); [reflexivity | done]. Defined.

Lemma composite_order_witness :
  bytes_cmp (encoded sample_key_newer) (encoded sample_key) = cmp_logical sample_key_newer sample_key /\
  cmp_logical sample_key_newer sample_key = Lt.
Proof.
  split; [|reflexivity].
  apply (composite_order sample_key_newer sample_key); [split; done | split; done | reflexivity..].
Defined.

Lemma composite_range_exact_witness :
  in_range (prefix_to_range (encode_prefix_fields [row sample_key; family sample_key])) (encoded sample_key)
  = prefix_matches sample_prefix sample_key.
Proof.
  apply (composite_range_exact sample_prefix _ sample_key (encoded sample_key)); reflexivity.
Defined.
