(* ===== verification/Utf8.v ===== *)
(** * Strings

    Rust strings as lists of Unicode scalar values, with the UTF-8 encoding and
    [std::str::from_utf8] that relate them to byte strings.  [Ord for str] is the
    order of the encoded bytes. *)

From stdpp Require Import base list sorting strings.
From S2P Require Import Prelude.

Abbreviation char := Z.
Abbreviation str := (list Z).

(** [char]: a Unicode scalar value. *)
Definition is_scalar (c : char) : bool :=
  ((0 <=? c) && (c <? 0xD800)) || ((0xE000 <=? c) && (c <=? 0x10FFFF)).

(** The UTF-8 encoding of one character. *)
Definition char_bytes (c : char) : bytes :=
  byte_of_Z <$>
  (if c <? 0x80 then [c]
   else if c <? 0x800 then [0xC0 + c / 64; 0x80 + c mod 64]
   else if c <? 0x10000 then [0xE0 + c / 4096; 0x80 + c / 64 mod 64; 0x80 + c mod 64]
   else [0xF0 + c / 262144; 0x80 + c / 4096 mod 64; 0x80 + c / 64 mod 64; 0x80 + c mod 64]).

(** [str::as_bytes]. *)
Definition str_bytes (s : str) : bytes := concat (char_bytes <$> s).

(** A continuation byte and its six payload bits. *)
Definition is_cont (b : byte) : bool := (0x80 <=? bval b) && (bval b <? 0xC0).
Definition payload (b : byte) : Z := bval b mod 64.

(** [std::str::from_utf8]: rejects stray or missing continuation bytes, overlong
    forms, surrogates and values above [0x10FFFF]. *)
Fixpoint from_utf8 (bs : bytes) : option str :=
  match bs with
  | [] => Some []
  | b0 :: t0 =>
      if bval b0 <? 0x80 then cons (bval b0) <$> from_utf8 t0
      else match t0 with
      | [] => None
      | b1 :: t1 =>
          if negb (is_cont b1) then None
          else if (0xC0 <=? bval b0) && (bval b0 <? 0xE0) then
            let c := bval b0 mod 32 * 64 + payload b1 in
            if 0x80 <=? c then cons c <$> from_utf8 t1 else None
          else match t1 with
          | [] => None
          | b2 :: t2 =>
              if negb (is_cont b2) then None
              else if (0xE0 <=? bval b0) && (bval b0 <? 0xF0) then
                let c := bval b0 mod 16 * 4096 + payload b1 * 64 + payload b2 in
                if (0x800 <=? c) && is_scalar c then cons c <$> from_utf8 t2 else None
              else match t2 with
              | [] => None
              | b3 :: t3 =>
                  if negb (is_cont b3) then None
                  else if (0xF0 <=? bval b0) && (bval b0 <? 0xF8) then
                    let c := bval b0 mod 8 * 262144 + payload b1 * 4096 + payload b2 * 64 + payload b3 in
                    if (0x10000 <=? c) && is_scalar c then cons c <$> from_utf8 t3 else None
                  else None
              end
          end
      end
  end.

(** String literals. *)
Definition s2str (s : string) : str :=
  (fun a => Z.of_N (Ascii.N_of_ascii a)) <$> String.list_ascii_of_string s.

(** [Ord for str]. *)
Definition str_cmp (s t : str) : comparison := bytes_cmp (str_bytes s) (str_bytes t).
Definition str_le (s t : str) : Prop := bytes_le (str_bytes s) (str_bytes t).

#[export] Instance str_le_dec : RelDecision str_le.
Proof. intros s t. unfold str_le. apply _. Defined.

(** ** Strings of ASCII characters *)

Definition is_ascii (c : char) : bool := (0 <=? c) && (c <? 0x80).

Lemma is_ascii_spec c : is_ascii c = true <-> 0 <= c < 0x80.
Proof. unfold is_ascii. rewrite andb_true_iff, Z.leb_le, Z.ltb_lt. done. Qed.

Lemma char_bytes_ascii c : is_ascii c = true -> char_bytes c = [byte_of_Z c].
Proof.
  intros H%is_ascii_spec. unfold char_bytes. by rewrite (proj2 (Z.ltb_lt c 0x80)) by lia.
Qed.

Lemma bval_ascii c : is_ascii c = true -> bval (byte_of_Z c) = c.
Proof. intros H%is_ascii_spec. rewrite bval_byte_of_Z. apply Z.mod_small. lia. Qed.

Lemma str_bytes_ascii s : forallb is_ascii s = true -> str_bytes s = byte_of_Z <$> s.
Proof.
  unfold str_bytes. induction s as [|c s IH]; [done|]. csimpl. intros [Hc Hs]%andb_true_iff.
  by rewrite char_bytes_ascii, IH.
Qed.

Lemma from_utf8_ascii s : forallb is_ascii s = true -> from_utf8 (str_bytes s) = Some s.
Proof.
  intros Hs. rewrite str_bytes_ascii by done.
  induction s as [|c s IH]; [done|]. csimpl in Hs. apply andb_true_iff in Hs as [Hc Hs].
  cbn [fmap list_fmap from_utf8]. rewrite bval_ascii by done. apply is_ascii_spec in Hc.
  rewrite (proj2 (Z.ltb_lt _ _)) by lia. rewrite IH by done. done.
Qed.

(** Equal bytes, equal ASCII strings. *)
Lemma str_bytes_ascii_inj s t :
  forallb is_ascii s = true -> forallb is_ascii t = true -> str_bytes s = str_bytes t -> s = t.
Proof.
  intros Hs Ht E. apply (inj Some). by rewrite <- from_utf8_ascii, E, from_utf8_ascii.
Qed.

(** ** Every string reads back *)

(** A Rust string holds scalar values only. *)
Definition is_str (s : str) : Prop := Forall (fun c => is_scalar c = true) s.

Lemma is_scalar_range c : is_scalar c = true -> (0 <= c < 0xD800 \/ 0xE000 <= c <= 0x10FFFF).
Proof. unfold is_scalar. rewrite orb_true_iff, !andb_true_iff, !Z.leb_le, Z.ltb_lt. lia. Qed.

Lemma bval_small z : 0 <= z < 256 -> bval (byte_of_Z z) = z.
Proof. intros Hz. rewrite bval_byte_of_Z. by apply Z.mod_small. Qed.

(** Continuation bytes carry six bits. *)
Lemma cont_byte z : is_cont (byte_of_Z (0x80 + z mod 64)) = true /\ payload (byte_of_Z (0x80 + z mod 64)) = z mod 64.
Proof.
  pose proof (Z.mod_pos_bound z 64 eq_refl). unfold is_cont, payload. rewrite bval_small by lia. split.
  - rewrite andb_true_iff, Z.leb_le, Z.ltb_lt. lia.
  - rewrite Z.add_comm, <- (Z.mul_1_l 0x80). change (1 * 0x80) with (2 * 64). rewrite Z_mod_plus_full. by apply Z.mod_mod.
Qed.

(** The lead byte of a [k]-byte form. *)
Lemma lead_byte base m z : 0 <= z < m -> 0 <= base -> base + m <= 256 -> base mod m = 0 ->
  bval (byte_of_Z (base + z)) = base + z /\ bval (byte_of_Z (base + z)) mod m = z.
Proof.
  intros Hz Hb Hm Hd. rewrite bval_small by lia. split; [done|].
  rewrite <- Z.add_mod_idemp_l, Hd, Z.add_0_l by lia. by apply Z.mod_small.
Qed.

Ltac decide_ranges :=
  repeat match goal with
  | |- context [?a <? ?b] => first [rewrite (proj2 (Z.ltb_lt a b)) by lia | rewrite (proj2 (Z.ltb_ge a b)) by lia]
  | |- context [?a <=? ?b] => first [rewrite (proj2 (Z.leb_le a b)) by lia | rewrite (proj2 (Z.leb_gt a b)) by lia]
  end.

Lemma from_utf8_char c r : is_scalar c = true -> from_utf8 (char_bytes c ++ r) = cons c <$> from_utf8 r.
Proof.
  intros Hs. pose proof (is_scalar_range c Hs) as Hc. unfold char_bytes.
  destruct (Z.ltb_spec c 0x80); [|destruct (Z.ltb_spec c 0x800); [|destruct (Z.ltb_spec c 0x10000)]];
    cbn [fmap list_fmap app from_utf8].
  - rewrite bval_small by lia. decide_ranges. done.
  - destruct (lead_byte 0xC0 32 (c / 64)) as [E1 E2]; [|lia|lia|done|].
    { split; [apply Z.div_pos; lia|apply Z.div_lt_upper_bound; lia]. }
    destruct (cont_byte c) as [Ec1 Ec2]. rewrite Ec1, E2, Ec2, E1. pose proof (Z.div_mod c 64).
    assert (0 <= c / 64 < 32) by (split; [apply Z.div_pos; lia|apply Z.div_lt_upper_bound; lia]).
    decide_ranges. cbn [negb andb]. replace (c / 64 * 64 + c mod 64) with c by lia. decide_ranges. done.
  - destruct (lead_byte 0xE0 16 (c / 4096)) as [E1 E2]; [|lia|lia|done|].
    { split; [apply Z.div_pos; lia|apply Z.div_lt_upper_bound; lia]. }
    destruct (cont_byte c) as [Ec1 Ec2], (cont_byte (c / 64)) as [Ed1 Ed2].
    rewrite Ec1, Ed1, E2, Ec2, Ed2, E1.
    assert (0 <= c / 4096 < 16) by (split; [apply Z.div_pos; lia|apply Z.div_lt_upper_bound; lia]).
    decide_ranges. cbn [negb andb].
    assert (c / 4096 = c / 64 / 64) as Hd by (by rewrite Z.div_div by lia).
    replace (c / 4096 * 4096 + (c / 64) mod 64 * 64 + c mod 64) with c
      by (pose proof (Z.div_mod c 64); pose proof (Z.div_mod (c / 64) 64); lia).
    decide_ranges. by rewrite Hs.
  - destruct (lead_byte 0xF0 8 (c / 262144)) as [E1 E2]; [|lia|lia|done|].
    { split; [apply Z.div_pos; lia|apply Z.div_lt_upper_bound; lia]. }
    destruct (cont_byte c) as [Ec1 Ec2], (cont_byte (c / 64)) as [Ed1 Ed2], (cont_byte (c / 4096)) as [Ef1 Ef2].
    rewrite Ec1, Ed1, Ef1, E2, Ec2, Ed2, Ef2, E1.
    assert (0 <= c / 262144 < 8) by (split; [apply Z.div_pos; lia|apply Z.div_lt_upper_bound; lia]).
    decide_ranges. cbn [negb andb].
    assert (c / 4096 = c / 64 / 64) as Hd by (by rewrite Z.div_div by lia).
    assert (c / 262144 = c / 4096 / 64) as Hd2 by (by rewrite Z.div_div by lia).
    replace (c / 262144 * 262144 + (c / 4096) mod 64 * 4096 + (c / 64) mod 64 * 64 + c mod 64) with c
      by (pose proof (Z.div_mod c 64); pose proof (Z.div_mod (c / 64) 64); pose proof (Z.div_mod (c / 4096) 64); lia).
    decide_ranges. by rewrite Hs.
Qed.

Lemma from_utf8_str_bytes s : is_str s -> from_utf8 (str_bytes s) = Some s.
Proof.
  unfold str_bytes. induction 1 as [|c s Hc Hs IH]; [done|]. csimpl. by rewrite from_utf8_char, IH.
Qed.

Lemma str_bytes_inj s t : is_str s -> is_str t -> str_bytes s = str_bytes t -> s = t.
Proof. intros Hs Ht E. apply (inj Some). by rewrite <- from_utf8_str_bytes, E, from_utf8_str_bytes. Qed.
