(* ===== verification/Visibility.v ===== *)
(** * Visibility expressions and authorizations

    Models [src/src/secure/visibility.rs]: the expression type, its evaluation
    against a set of labels, the canonical printer, the normaliser and the
    recursive-descent parser. *)

From stdpp Require Import base gmap list sorting strings.
From S2P Require Import Prelude Errors Utf8.

(** ** Authorizations *)

(** The punctuation of the syntax, by code point. *)
Definition LPAREN : char := 40.
Definition RPAREN : char := 41.
Definition AMP : char := 38.
Definition BAR : char := 124.
Definition UNDERSCORE : char := 95.
Definition DASH : char := 45.
Definition DOT : char := 46.
Definition COLON : char := 58.

(** [is_label_char]: [is_ascii_alphanumeric] or one of [_ - . :]. *)
Definition is_label_char (c : char) : bool :=
  ((48 <=? c) && (c <=? 57)) || ((65 <=? c) && (c <=? 90)) || ((97 <=? c) && (c <=? 122)) ||
  (c =? UNDERSCORE) || (c =? DASH) || (c =? DOT) || (c =? COLON).

Definition is_valid_label (label : str) : bool :=
  negb (bool_decide (label = [])) && forallb is_label_char label.

(** [Authorizations]: a [BTreeSet<String>]. *)
Record Authorizations := mkAuthorizations { labels : gset str }.

Definition auths_empty : Authorizations := mkAuthorizations ∅.

Definition auths_contains (auths : Authorizations) (label : str) : bool :=
  bool_decide (label ∈ labels auths).

(** [Authorizations::insert]: the new set and whether the label was new. *)
Definition auths_insert (auths : Authorizations) (label : str) : Result (Authorizations * bool) :=
  if negb (is_valid_label label) then
    Err (InvalidVisibilityExpression "authorization label must be a valid identifier")
  else Ok (mkAuthorizations ({[label]} ∪ labels auths), negb (auths_contains auths label)).

Fixpoint auths_insert_all (auths : Authorizations) (ls : list str) : Result Authorizations :=
  match ls with
  | [] => Ok auths
  | label :: ls => '(auths, _) ← auths_insert auths label; auths_insert_all auths ls
  end.

Definition from_labels (ls : list str) : Result Authorizations := auths_insert_all auths_empty ls.

(** [Authorizations::iter]: in the order of the strings. *)
Definition auths_iter (auths : Authorizations) : list str :=
  merge_sort str_le (elements (labels auths)).

(** ** Expressions *)

Inductive Expr :=
  | Public
  | Label (label : str)
  | And (children : list Expr)
  | Or (children : list Expr).

Inductive Operator := OpAnd | OpOr.

Fixpoint expr_evaluate (e : Expr) (auths : Authorizations) : bool :=
  match e with
  | Public => true
  | Label label => auths_contains auths label
  | And children => forallb (fun child => expr_evaluate child auths) children
  | Or children => existsb (fun child => expr_evaluate child auths) children
  end.

Definition precedence (e : Expr) : Z :=
  match e with
  | Public | Label _ => 3
  | And _ => 2
  | Or _ => 1
  end.

(** ** The canonical printer *)

(** [write_joined]: the children separated by [separator]; [first] is the loop's
    flag and [write] is [write_canonical] at the operator's precedence. *)
Definition write_joined_with (write : Expr -> str -> str) (separator : char) :
    list Expr -> bool -> str -> str :=
  fix loop children first canonical :=
    match children with
    | [] => canonical
    | child :: children =>
        let canonical := if first then canonical else canonical ++ [separator] in
        loop children false (write child canonical)
    end.

Fixpoint write_canonical (e : Expr) (parent_precedence : Z) (canonical : str) : str :=
  let wrap := precedence e <? parent_precedence in
  let canonical := if wrap then canonical ++ [LPAREN] else canonical in
  let canonical :=
    match e with
    | Public => canonical
    | Label label => canonical ++ label
    | And children =>
        write_joined_with (fun child => write_canonical child 2) AMP children true canonical
    | Or children =>
        write_joined_with (fun child => write_canonical child 1) BAR children true canonical
    end in
  if wrap then canonical ++ [RPAREN] else canonical.

(** [write_joined] for an operator. *)
Definition write_joined (children : list Expr) (separator : char) (prec : Z) (canonical : str) : str :=
  write_joined_with (fun child => write_canonical child prec) separator children true canonical.

Definition expr_canonical (e : Expr) : str := write_canonical e 0 [].

(** ** The normaliser *)

(** [slice::sort_by], a stable sort: an element goes before the later elements
    that are not smaller. *)
Fixpoint insert_pair (p : str * Expr) (l : list (str * Expr)) : list (str * Expr) :=
  match l with
  | [] => [p]
  | q :: l =>
      match str_cmp p.1 q.1 with
      | Gt => q :: insert_pair p l
      | _ => p :: q :: l
      end
  end.

Definition sort_pairs (l : list (str * Expr)) : list (str * Expr) := foldr insert_pair [] l.

(** [Vec::dedup_by] on the canonical strings: the first of each run is kept. *)
Fixpoint dedup_after (last : str) (l : list (str * Expr)) : list (str * Expr) :=
  match l with
  | [] => []
  | p :: l => if decide (p.1 = last) then dedup_after last l else p :: dedup_after p.1 l
  end.

Definition dedup_pairs (l : list (str * Expr)) : list (str * Expr) :=
  match l with
  | [] => []
  | p :: l => p :: dedup_after p.1 l
  end.

(** The loop of [normalize_children]: [None] for its early return of [Public],
    otherwise the collected pairs. *)
Definition collect_pairs (norm : Expr -> Expr) (operator : Operator) :
    list Expr -> list (str * Expr) -> option (list (str * Expr)) :=
  fix loop children pairs :=
    match children with
    | [] => Some pairs
    | child :: children =>
        match operator, norm child with
        | OpAnd, And grandchildren | OpOr, Or grandchildren =>
            loop children (pairs ++ ((fun g => (expr_canonical g, g)) <$> grandchildren))
        | OpAnd, Public => loop children pairs
        | OpOr, Public => None
        | _, normalized => loop children (pairs ++ [(expr_canonical normalized, normalized)])
        end
    end.

(** The rest of [normalize_children], from the collected pairs on. *)
Definition rebuild (operator : Operator) (pairs : list (str * Expr)) : Expr :=
  match snd <$> dedup_pairs (sort_pairs pairs) with
  | [] => Public
  | [first] => first
  | all => match operator with OpAnd => And all | OpOr => Or all end
  end.

Definition normalize_with (norm : Expr -> Expr) (operator : Operator) (children : list Expr) : Expr :=
  match collect_pairs norm operator children [] with
  | None => Public
  | Some pairs => rebuild operator pairs
  end.

Fixpoint normalized (e : Expr) : Expr :=
  match e with
  | And children => normalize_with normalized OpAnd children
  | Or children => normalize_with normalized OpOr children
  | other => other
  end.

Definition normalize_children (children : list Expr) (operator : Operator) : Expr :=
  normalize_with normalized operator children.

(** ** The parser

    The recursive descent works on the characters not consumed yet; [None] marks
    exhausted fuel, which [parse] never runs into. *)

(** [Parser::consume]. *)
Definition consume (expected : char) (s : str) : option str :=
  match s with
  | c :: s => if decide (c = expected) then Some s else None
  | [] => None
  end.

(** [Parser::parse_label]: the longest run of label characters. *)
Fixpoint parse_label (s : str) : str * str :=
  match s with
  | c :: t => if is_label_char c then let '(label, rest) := parse_label t in (c :: label, rest) else ([], s)
  | [] => ([], [])
  end.

Definition remove_only_child (children : list Expr) : Expr :=
  match last children with Some child => child | None => Public end.

(** The end of [parse_or_expr] and [parse_and_expr]. *)
Definition finish (mk : list Expr -> Expr) (children : list Expr) : Expr :=
  if decide (length children = 1%nat) then remove_only_child children else mk children.

(** A parser result: exhausted fuel, or what the Rust method returns together
    with the characters left. *)
Abbreviation parsed := (option (Result (Expr * str))).
Abbreviation parsed_list := (option (Result (list Expr * str))).

Fixpoint parse_or_expr (fuel : nat) (s : str) : parsed :=
  match fuel with
  | O => None
  | S fuel =>
      match parse_and_expr fuel s with
      | Some (Ok (child, s)) =>
          match or_loop fuel [child] s with
          | Some (Ok (children, s)) => Some (Ok (finish Or children, s))
          | Some (Err e) => Some (Err e)
          | None => None
          end
      | r => r
      end
  end
with or_loop (fuel : nat) (children : list Expr) (s : str) : parsed_list :=
  match fuel with
  | O => None
  | S fuel =>
      match consume BAR s with
      | Some s =>
          match parse_and_expr fuel s with
          | Some (Ok (child, s)) => or_loop fuel (children ++ [child]) s
          | Some (Err e) => Some (Err e)
          | None => None
          end
      | None => Some (Ok (children, s))
      end
  end
with parse_and_expr (fuel : nat) (s : str) : parsed :=
  match fuel with
  | O => None
  | S fuel =>
      match parse_primary fuel s with
      | Some (Ok (child, s)) =>
          match and_loop fuel [child] s with
          | Some (Ok (children, s)) => Some (Ok (finish And children, s))
          | Some (Err e) => Some (Err e)
          | None => None
          end
      | r => r
      end
  end
with and_loop (fuel : nat) (children : list Expr) (s : str) : parsed_list :=
  match fuel with
  | O => None
  | S fuel =>
      match consume AMP s with
      | Some s =>
          match parse_primary fuel s with
          | Some (Ok (child, s)) => and_loop fuel (children ++ [child]) s
          | Some (Err e) => Some (Err e)
          | None => None
          end
      | None => Some (Ok (children, s))
      end
  end
with parse_primary (fuel : nat) (s : str) : parsed :=
  match fuel with
  | O => None
  | S fuel =>
      match consume LPAREN s with
      | Some s =>
          match parse_or_expr fuel s with
          | Some (Ok (expr, s)) =>
              match consume RPAREN s with
              | Some s => Some (Ok (expr, s))
              | None => Some (Err (InvalidVisibilityExpression "expected closing parenthesis"))
              end
          | r => r
          end
      | None =>
          let '(label, rest) := parse_label s in
          if decide (label = []) then
            Some (Err (InvalidVisibilityExpression "expected label or parenthesized expression"))
          else Some (Ok (Label label, rest))
      end
  end.

(** [Parser::parse_expr], with fuel for the whole input: every nested call
    happens after a character was consumed or one of three non-consuming steps. *)
Definition parse_fuel (s : str) : nat := (4 * length s + 4)%nat.
Definition parse_expr (s : str) : parsed := parse_or_expr (parse_fuel s) s.

(** ** Visibility expressions *)

Record VisibilityExpr := mkVisibilityExpr { expr : Expr; canonical : str }.

Definition public : VisibilityExpr := mkVisibilityExpr Public [].

Definition is_public (v : VisibilityExpr) : bool :=
  match expr v with Public => true | _ => false end.

Definition evaluate (v : VisibilityExpr) (auths : Authorizations) : bool :=
  expr_evaluate (expr v) auths.

(** [VisibilityExpr::as_bytes]. *)
Definition as_bytes (v : VisibilityExpr) : bytes := str_bytes (canonical v).

(** [VisibilityExpr::parse]; the [None] branch is unreachable ([parse_total]). *)
Definition parse (input : str) : Result VisibilityExpr :=
  if decide (input = []) then Ok public
  else
    match parse_expr input with
    | None => Err Unrecoverable
    | Some (Err e) => Err e
    | Some (Ok (e, rest)) =>
        if decide (rest <> []) then
          Err (InvalidVisibilityExpression "unexpected trailing visibility token")
        else
          let e := normalized e in
          Ok (mkVisibilityExpr e (expr_canonical e))
    end.

(** The unit tests of the module. *)
Example canonical_tests :
  (fun s => canonical <$> parse (s2str s)) <$>
    ["audit&admin"; "admin&(audit&admin)"; "support|admin|audit"; "audit&(support|admin)"; "support&audit|admin"]%string
  = (fun s => Ok (s2str s)) <$>
    ["admin&audit"; "admin&audit"; "admin|audit|support"; "(admin|support)&audit"; "admin|audit&support"]%string.
Proof. vm_compute. reflexivity. Qed.

Example invalid_tests :
  (fun s => is_ok (parse (s2str s))) <$>
    ["&admin"; "admin|"; "admin&&audit"; "()"; "(admin"; "admin)"; "admin audit"]%string
  = [false; false; false; false; false; false; false].
Proof. vm_compute. reflexivity. Qed.
