(* ===== verification/VisibilityParse.v ===== *)
(** * The visibility parser and printer are inverse

    Totality and fuel-independence of the parser of [Visibility.v], normal forms,
    and the round trip from canonical strings back to expressions. *)

From stdpp Require Import base gmap list sorting strings.
From S2P Require Import Prelude Errors Utf8 Visibility.

(** ** Induction over expressions *)

Section ExprInd.
Context (P : Expr -> Prop).
Hypothesis HPublic : P Public.
Hypothesis HLabel : forall l, P (Label l).
Hypothesis HAnd : forall cs, Forall P cs -> P (And cs).
Hypothesis HOr : forall cs, Forall P cs -> P (Or cs).

Fixpoint Expr_nested_ind (e : Expr) : P e :=
  let fix go (cs : list Expr) : Forall P cs :=
    match cs with
    | [] => Forall_nil_2 P
    | c :: cs => Forall_cons_2 P c cs (Expr_nested_ind c) (go cs)
    end in
  match e with
  | Public => HPublic
  | Label l => HLabel l
  | And cs => HAnd cs (go cs)
  | Or cs => HOr cs (go cs)
  end.
End ExprInd.

(** ** Totality of the parser *)

Lemma consume_Some c s t : consume c s = Some t -> s = c :: t.
Proof. destruct s as [|d s]; [done|]. simpl. case_decide; naive_solver. Qed.

Lemma parse_label_app s : (parse_label s).1 ++ (parse_label s).2 = s.
Proof.
  induction s as [|c s IH]; simpl; [done|]. destruct (is_label_char c); [|done].
  destruct (parse_label s). simpl in *. by rewrite IH.
Qed.

Lemma parse_label_length s l r : parse_label s = (l, r) -> l <> [] -> (length r < length s)%nat.
Proof.
  intros E Hl. pose proof (parse_label_app s) as <-. rewrite E. simpl.
  rewrite length_app. destruct l; [done|]. simpl. lia.
Qed.

(** A result that consumed something, or an error. *)
Definition progress {A} (s : str) (r : option (Result (A * str))) (strict : bool) : Prop :=
  match r with
  | Some (Ok (_, s')) => if strict then (length s' < length s)%nat else (length s' <= length s)%nat
  | Some (Err _) => True
  | None => False
  end.

Lemma parser_progress n :
  (forall s, (4 * length s + 3 <= n)%nat -> progress s (parse_or_expr n s) true) /\
  (forall cs s, (4 * length s + 1 <= n)%nat -> progress s (or_loop n cs s) false) /\
  (forall s, (4 * length s + 2 <= n)%nat -> progress s (parse_and_expr n s) true) /\
  (forall cs s, (4 * length s + 1 <= n)%nat -> progress s (and_loop n cs s) false) /\
  (forall s, (4 * length s + 1 <= n)%nat -> progress s (parse_primary n s) true).
Proof.
  induction n as [|n (IHor & IHorl & IHand & IHandl & IHprim)]; [repeat split; intros; lia|].
  repeat split; intros; simpl.
  - specialize (IHand s ltac:(lia)). destruct (parse_and_expr n s) as [[[e s']|]|]; try done.
    simpl in IHand. specialize (IHorl [e] s' ltac:(lia)).
    destruct (or_loop n [e] s') as [[[cs s'']|]|]; try done. simpl in *. lia.
  - destruct (consume BAR s) as [t|] eqn:E; [apply consume_Some in E as ->|simpl; lia].
    simpl in *. specialize (IHand t ltac:(lia)).
    destruct (parse_and_expr n t) as [[[e s']|]|]; try done. simpl in IHand.
    specialize (IHorl (cs ++ [e]) s' ltac:(lia)).
    destruct (or_loop n (cs ++ [e]) s') as [[[cs' s'']|]|]; try done. simpl in *. lia.
  - specialize (IHprim s ltac:(lia)). destruct (parse_primary n s) as [[[e s']|]|]; try done.
    simpl in IHprim. specialize (IHandl [e] s' ltac:(lia)).
    destruct (and_loop n [e] s') as [[[cs s'']|]|]; try done. simpl in *. lia.
  - destruct (consume AMP s) as [t|] eqn:E; [apply consume_Some in E as ->|simpl; lia].
    simpl in *. specialize (IHprim t ltac:(lia)).
    destruct (parse_primary n t) as [[[e s']|]|]; try done. simpl in IHprim.
    specialize (IHandl (cs ++ [e]) s' ltac:(lia)).
    destruct (and_loop n (cs ++ [e]) s') as [[[cs' s'']|]|]; try done. simpl in *. lia.
  - destruct (consume LPAREN s) as [t|] eqn:E.
    + apply consume_Some in E as ->. simpl in *. specialize (IHor t ltac:(lia)).
      destruct (parse_or_expr n t) as [[[e s']|]|]; try done. simpl in IHor.
      destruct (consume RPAREN s') as [u|] eqn:E; [apply consume_Some in E as ->|done].
      simpl in *. lia.
    + destruct (parse_label s) as [l r] eqn:El. case_decide; [done|]. simpl.
      by eapply parse_label_length.
Qed.

(** One unfolding of each function. *)
Lemma parse_or_S n s :
  parse_or_expr (S n) s =
  match parse_and_expr n s with
  | Some (Ok (child, s)) =>
      match or_loop n [child] s with
      | Some (Ok (children, s)) => Some (Ok (finish Or children, s))
      | Some (Err e) => Some (Err e)
      | None => None
      end
  | r => r
  end.
Proof. done. Qed.

Lemma or_loop_S n cs s :
  or_loop (S n) cs s =
  match consume BAR s with
  | Some s =>
      match parse_and_expr n s with
      | Some (Ok (child, s)) => or_loop n (cs ++ [child]) s
      | Some (Err e) => Some (Err e)
      | None => None
      end
  | None => Some (Ok (cs, s))
  end.
Proof. done. Qed.

Lemma parse_and_S n s :
  parse_and_expr (S n) s =
  match parse_primary n s with
  | Some (Ok (child, s)) =>
      match and_loop n [child] s with
      | Some (Ok (children, s)) => Some (Ok (finish And children, s))
      | Some (Err e) => Some (Err e)
      | None => None
      end
  | r => r
  end.
Proof. done. Qed.

Lemma and_loop_S n cs s :
  and_loop (S n) cs s =
  match consume AMP s with
  | Some s =>
      match parse_primary n s with
      | Some (Ok (child, s)) => and_loop n (cs ++ [child]) s
      | Some (Err e) => Some (Err e)
      | None => None
      end
  | None => Some (Ok (cs, s))
  end.
Proof. done. Qed.

Lemma parse_primary_S n s :
  parse_primary (S n) s =
  match consume LPAREN s with
  | Some s =>
      match parse_or_expr n s with
      | Some (Ok (expr, s)) =>
          match consume RPAREN s with
          | Some s => Some (Ok (expr, s))
          | None => Some (Err (InvalidVisibilityExpression "expected closing parenthesis"))
          end
      | r => r
      end
  | None =>
      let '(label, rest) := parse_label s in
      if decide (label = []) then
        Some (Err (InvalidVisibilityExpression "expected label or parenthesized expression"))
      else Some (Ok (Label label, rest))
  end.
Proof. done. Qed.

(** More fuel does not change a result. *)
Lemma parser_mono_S n :
  (forall s r, parse_or_expr n s = Some r -> parse_or_expr (S n) s = Some r) /\
  (forall cs s r, or_loop n cs s = Some r -> or_loop (S n) cs s = Some r) /\
  (forall s r, parse_and_expr n s = Some r -> parse_and_expr (S n) s = Some r) /\
  (forall cs s r, and_loop n cs s = Some r -> and_loop (S n) cs s = Some r) /\
  (forall s r, parse_primary n s = Some r -> parse_primary (S n) s = Some r).
Proof.
  induction n as [|n (IHor & IHorl & IHand & IHandl & IHprim)]; [done|].
  repeat split; intros *.
  - rewrite (parse_or_S n), (parse_or_S (S n)).
    destruct (parse_and_expr n s) as [[[e s']|]|] eqn:E; try done; rewrite (IHand _ _ E); [|done].
    destruct (or_loop n [e] s') as [[[cs s'']|]|] eqn:E'; try done; by rewrite (IHorl _ _ _ E').
  - rewrite (or_loop_S n), (or_loop_S (S n)). destruct (consume BAR s) as [t|]; [|done].
    destruct (parse_and_expr n t) as [[[e s']|]|] eqn:E; try done; rewrite (IHand _ _ E); [|done].
    apply IHorl.
  - rewrite (parse_and_S n), (parse_and_S (S n)).
    destruct (parse_primary n s) as [[[e s']|]|] eqn:E; try done; rewrite (IHprim _ _ E); [|done].
    destruct (and_loop n [e] s') as [[[cs s'']|]|] eqn:E'; try done; by rewrite (IHandl _ _ _ E').
  - rewrite (and_loop_S n), (and_loop_S (S n)). destruct (consume AMP s) as [t|]; [|done].
    destruct (parse_primary n t) as [[[e s']|]|] eqn:E; try done; rewrite (IHprim _ _ E); [|done].
    apply IHandl.
  - rewrite (parse_primary_S n), (parse_primary_S (S n)).
    destruct (consume LPAREN s) as [t|]; [|done].
    destruct (parse_or_expr n t) as [[[e s']|]|] eqn:E; try done; by rewrite (IHor _ _ E).
Qed.

Section Mono.
Context (n m : nat) (Hle : (n <= m)%nat).

Lemma parse_or_mono s r : parse_or_expr n s = Some r -> parse_or_expr m s = Some r.
Proof. induction Hle; [done|]. intros. apply parser_mono_S. auto. Qed.
Lemma or_loop_mono cs s r : or_loop n cs s = Some r -> or_loop m cs s = Some r.
Proof. induction Hle; [done|]. intros. apply parser_mono_S. auto. Qed.
Lemma parse_and_mono s r : parse_and_expr n s = Some r -> parse_and_expr m s = Some r.
Proof. induction Hle; [done|]. intros. apply parser_mono_S. auto. Qed.
Lemma and_loop_mono cs s r : and_loop n cs s = Some r -> and_loop m cs s = Some r.
Proof. induction Hle; [done|]. intros. apply parser_mono_S. auto. Qed.
Lemma parse_primary_mono s r : parse_primary n s = Some r -> parse_primary m s = Some r.
Proof. induction Hle; [done|]. intros. apply parser_mono_S. auto. Qed.
End Mono.

(** The fuel of [parse_expr] is enough, and any run with some fuel agrees with it. *)
Lemma parse_expr_total s : exists r, parse_expr s = Some r.
Proof.
  destruct (parser_progress (parse_fuel s)) as (H & _).
  specialize (H s ltac:(unfold parse_fuel; lia)). unfold parse_expr.
  destruct (parse_or_expr _ s); [eauto|done].
Qed.

Lemma parse_expr_agrees n s r : parse_or_expr n s = Some r -> parse_expr s = Some r.
Proof.
  intros H. destruct (parse_expr_total s) as [r' H']. rewrite H'. unfold parse_expr in H'.
  apply (parse_or_mono n (n + parse_fuel s) ltac:(lia)) in H.
  apply (parse_or_mono (parse_fuel s) (n + parse_fuel s) ltac:(lia)) in H'. congruence.
Qed.

(** ** The printer *)

Lemma write_joined_with_app w sep cs first acc :
  Forall (fun c => forall acc, w c acc = acc ++ w c []) cs ->
  write_joined_with w sep cs first acc =
  acc ++ (if first then
            match cs with [] => [] | c :: cs => w c [] ++ concat ((fun c => sep :: w c []) <$> cs) end
          else concat ((fun c => sep :: w c []) <$> cs)).
Proof.
  revert first acc. induction cs as [|c cs IH]; intros first acc Hw.
  { destruct first; simpl; by rewrite app_nil_r. }
  apply Forall_cons in Hw as [Hc Hw]. simpl. rewrite IH by done. rewrite Hc.
  destruct first; csimpl; by rewrite <- ?app_assoc.
Qed.

(** The text [write_canonical] appends. *)
Definition show (p : Z) (e : Expr) : str := write_canonical e p [].

Lemma write_canonical_app e p acc : write_canonical e p acc = acc ++ show p e.
Proof.
  unfold show. revert p acc.
  induction e as [|l|cs IH|cs IH] using Expr_nested_ind; intros p acc; simpl;
    rewrite ?write_joined_with_app by (eapply Forall_impl; [exact IH|]; simpl; auto).
  all: destruct (_ <? p); rewrite ?app_nil_r, <- ?app_assoc; done.
Qed.

Lemma show_public p : p <= 3 -> show p Public = [].
Proof. intros. unfold show. simpl. by rewrite (proj2 (Z.ltb_ge _ _)). Qed.

Lemma show_label p l : p <= 3 -> show p (Label l) = l.
Proof. intros. unfold show. simpl. by rewrite (proj2 (Z.ltb_ge _ _)). Qed.

(** Children of an operator: the first, then each with its separator. *)
Definition show_list (p : Z) (sep : char) (cs : list Expr) : str :=
  match cs with
  | [] => []
  | c :: cs => show p c ++ concat ((fun c => sep :: show p c) <$> cs)
  end.

Lemma show_and p cs :
  show p (And cs) =
  if decide (p <= 2) then show_list 2 AMP cs else LPAREN :: show_list 2 AMP cs ++ [RPAREN].
Proof.
  unfold show. cbn [write_canonical precedence].
  rewrite write_joined_with_app by (apply Forall_true; intros; apply write_canonical_app).
  fold (show_list 2 AMP cs). case_decide.
  - by rewrite (proj2 (Z.ltb_ge _ _)) by lia.
  - by rewrite (proj2 (Z.ltb_lt _ _)), <- app_assoc by lia.
Qed.

Lemma show_or p cs :
  show p (Or cs) =
  if decide (p <= 1) then show_list 1 BAR cs else LPAREN :: show_list 1 BAR cs ++ [RPAREN].
Proof.
  unfold show. cbn [write_canonical precedence].
  rewrite write_joined_with_app by (apply Forall_true; intros; apply write_canonical_app).
  fold (show_list 1 BAR cs). case_decide.
  - by rewrite (proj2 (Z.ltb_ge _ _)) by lia.
  - by rewrite (proj2 (Z.ltb_lt _ _)), <- app_assoc by lia.
Qed.

(** ** Normal forms *)

Definition str_lt (s t : str) : Prop := str_cmp s t = Lt.
Definition canonical_lt (a b : Expr) : Prop := str_lt (expr_canonical a) (expr_canonical b).

Definition is_and (e : Expr) : Prop := match e with And _ => True | _ => False end.
Definition is_or (e : Expr) : Prop := match e with Or _ => True | _ => False end.

(** What the normaliser produces, [Public] apart: valid labels, operators with at
    least two children, no child with its parent's operator, children in strictly
    ascending canonical order. *)
Inductive nf : Expr -> Prop :=
  | nf_label l : is_valid_label l = true -> nf (Label l)
  | nf_and cs : (2 <= length cs)%nat -> Forall nf cs -> Forall (fun c => ~ is_and c) cs ->
      StronglySorted canonical_lt cs -> nf (And cs)
  | nf_or cs : (2 <= length cs)%nat -> Forall nf cs -> Forall (fun c => ~ is_or c) cs ->
      StronglySorted canonical_lt cs -> nf (Or cs).

Lemma nf_ind' (P : Expr -> Prop) :
  (forall l, is_valid_label l = true -> P (Label l)) ->
  (forall cs, nf (And cs) -> Forall P cs -> Forall (fun c => ~ is_and c) cs -> P (And cs)) ->
  (forall cs, nf (Or cs) -> Forall P cs -> Forall (fun c => ~ is_or c) cs -> P (Or cs)) ->
  forall e, nf e -> P e.
Proof.
  intros Hl Ha Ho e. induction e as [|l|cs IH|cs IH] using Expr_nested_ind; intros He;
    inversion He; subst; auto.
  - apply Ha; [done| |done]. rewrite Forall_forall in *. auto.
  - apply Ho; [done| |done]. rewrite Forall_forall in *. auto.
Qed.

(** ** Parsing what was printed *)

(** The text after an expression neither extends its last label nor continues the
    operators in [seps]. *)
Definition stops (seps : list char) (rest : str) : Prop :=
  match rest with
  | [] => True
  | c :: _ => is_label_char c = false /\ c ∉ seps
  end.

Lemma stops_weaken seps seps' rest : stops seps rest -> (forall c, c ∈ seps' -> c ∈ seps) -> stops seps' rest.
Proof. destruct rest; [done|]. intros [H1 H2] H. split; [done|]. intros ?. apply H2. auto. Qed.

Ltac solve_stops :=
  first
    [ eapply stops_weaken; [eassumption | set_solver]
    | simpl; split; [done|]; rewrite ?not_elem_of_cons; repeat split; try done;
      apply not_elem_of_nil ].

Lemma consume_stops c seps rest : c ∈ seps -> stops seps rest -> consume c rest = None.
Proof.
  destruct rest as [|d rest]; [done|]. intros Hc [_ Hd]. simpl.
  rewrite decide_False; [done|]. by intros ->.
Qed.

Lemma consume_cons c rest : consume c (c :: rest) = Some rest.
Proof. simpl. by rewrite decide_True. Qed.

Lemma parse_label_run l rest :
  forallb is_label_char l = true -> stops [] rest -> parse_label (l ++ rest) = (l, rest).
Proof.
  induction l as [|c l IH]; simpl.
  - intros _. destruct rest as [|c rest]; [done|]. intros [Hc _]. simpl. by rewrite Hc.
  - intros [Hc Hl]%andb_true_iff Hr. by rewrite Hc, IH.
Qed.

(** Some fuel makes the parser return [e] and leave [rest]. *)
Definition primary_ok (e : Expr) : Prop :=
  forall rest, stops [] rest -> exists n, parse_primary n (show 2 e ++ rest) = Some (Ok (e, rest)).
Definition and_ok (e : Expr) : Prop :=
  forall rest, stops [AMP] rest -> exists n, parse_and_expr n (show 1 e ++ rest) = Some (Ok (e, rest)).
Definition or_ok (e : Expr) : Prop :=
  forall rest, stops [AMP; BAR] rest -> exists n, parse_or_expr n (show 0 e ++ rest) = Some (Ok (e, rest)).

Lemma and_loop_list cs acc rest :
  Forall primary_ok cs -> stops [AMP] rest ->
  exists n, and_loop n acc (concat ((fun c => AMP :: show 2 c) <$> cs) ++ rest) =
            Some (Ok (acc ++ cs, rest)).
Proof.
  intros Hcs Hr. revert acc. induction Hcs as [|c cs Hc _ IH]; intros acc.
  - exists 1%nat. rewrite and_loop_S. csimpl.
    rewrite (consume_stops AMP [AMP]) by (done || set_solver). by rewrite app_nil_r.
  - destruct (IH (acc ++ [c])) as [n Hn]. csimpl. rewrite <- app_assoc.
    edestruct (Hc (concat ((fun c => AMP :: show 2 c) <$> cs) ++ rest)) as [m Hm].
    { destruct cs; csimpl; solve_stops. }
    exists (S (n + m)). rewrite and_loop_S, consume_cons.
    rewrite (parse_primary_mono m (n + m) ltac:(lia) _ _ Hm).
    rewrite (and_loop_mono n (n + m) ltac:(lia) _ _ _ Hn). by rewrite <- app_assoc.
Qed.

Lemma or_loop_list cs acc rest :
  Forall and_ok cs -> stops [AMP; BAR] rest ->
  exists n, or_loop n acc (concat ((fun c => BAR :: show 1 c) <$> cs) ++ rest) =
            Some (Ok (acc ++ cs, rest)).
Proof.
  intros Hcs Hr. revert acc. induction Hcs as [|c cs Hc _ IH]; intros acc.
  - exists 1%nat. rewrite or_loop_S. csimpl.
    rewrite (consume_stops BAR [AMP; BAR]) by (done || set_solver). by rewrite app_nil_r.
  - destruct (IH (acc ++ [c])) as [n Hn]. csimpl. rewrite <- app_assoc.
    edestruct (Hc (concat ((fun c => BAR :: show 1 c) <$> cs) ++ rest)) as [m Hm].
    { destruct cs; csimpl; solve_stops. }
    exists (S (n + m)). rewrite or_loop_S, consume_cons.
    rewrite (parse_and_mono m (n + m) ltac:(lia) _ _ Hm).
    rewrite (or_loop_mono n (n + m) ltac:(lia) _ _ _ Hn). by rewrite <- app_assoc.
Qed.

Lemma parse_and_list cs rest :
  (2 <= length cs)%nat -> Forall primary_ok cs -> stops [AMP] rest ->
  exists n, parse_and_expr n (show_list 2 AMP cs ++ rest) = Some (Ok (And cs, rest)).
Proof.
  intros Hl Hcs Hr. destruct cs as [|c cs]; [simpl in Hl; lia|].
  apply Forall_cons in Hcs as [Hc Hcs]. destruct (and_loop_list cs [c] rest Hcs Hr) as [n Hn].
  edestruct (Hc (concat ((fun c => AMP :: show 2 c) <$> cs) ++ rest)) as [m Hm].
  { destruct cs; csimpl; solve_stops. }
  exists (S (n + m)). rewrite parse_and_S. cbn [show_list]. rewrite <- app_assoc.
  rewrite (parse_primary_mono m (n + m) ltac:(lia) _ _ Hm).
  rewrite (and_loop_mono n (n + m) ltac:(lia) _ _ _ Hn).
  unfold finish. rewrite decide_False; [done|]. simpl in *. lia.
Qed.

Lemma parse_or_list cs rest :
  (2 <= length cs)%nat -> Forall and_ok cs -> stops [AMP; BAR] rest ->
  exists n, parse_or_expr n (show_list 1 BAR cs ++ rest) = Some (Ok (Or cs, rest)).
Proof.
  intros Hl Hcs Hr. destruct cs as [|c cs]; [simpl in Hl; lia|].
  apply Forall_cons in Hcs as [Hc Hcs]. destruct (or_loop_list cs [c] rest Hcs Hr) as [n Hn].
  edestruct (Hc (concat ((fun c => BAR :: show 1 c) <$> cs) ++ rest)) as [m Hm].
  { destruct cs; csimpl; solve_stops. }
  exists (S (n + m)). rewrite parse_or_S. cbn [show_list]. rewrite <- app_assoc.
  rewrite (parse_and_mono m (n + m) ltac:(lia) _ _ Hm).
  rewrite (or_loop_mono n (n + m) ltac:(lia) _ _ _ Hn).
  unfold finish. rewrite decide_False; [done|]. simpl in *. lia.
Qed.

(** A primary is a conjunction of one, a conjunction a disjunction of one. *)
Lemma and_of_primary e s rest n :
  parse_primary n s = Some (Ok (e, rest)) -> stops [AMP] rest ->
  exists m, parse_and_expr m s = Some (Ok (e, rest)).
Proof.
  intros H Hr. destruct n as [|n]; [done|]. exists (S (S n)). rewrite parse_and_S, H, and_loop_S.
  by rewrite (consume_stops AMP [AMP]) by (done || set_solver).
Qed.

Lemma or_of_and e s rest n :
  parse_and_expr n s = Some (Ok (e, rest)) -> stops [AMP; BAR] rest ->
  exists m, parse_or_expr m s = Some (Ok (e, rest)).
Proof.
  intros H Hr. destruct n as [|n]; [done|]. exists (S (S n)). rewrite parse_or_S, H, or_loop_S.
  by rewrite (consume_stops BAR [AMP; BAR]) by (done || set_solver).
Qed.

Lemma primary_label l : is_valid_label l = true -> primary_ok (Label l).
Proof.
  unfold is_valid_label. rewrite andb_true_iff, negb_true_iff, bool_decide_eq_false.
  intros [Hne Hl] rest Hr. exists 1%nat. rewrite parse_primary_S, show_label by lia.
  assert (consume LPAREN (l ++ rest) = None) as ->.
  { destruct l as [|c l]; [done|]. simpl in *. apply andb_true_iff in Hl as [Hc _].
    rewrite decide_False; [done|]. intros ->. done. }
  rewrite parse_label_run by done. by rewrite decide_False.
Qed.

Lemma primary_parens e s rest n :
  parse_or_expr n (s ++ RPAREN :: rest) = Some (Ok (e, RPAREN :: rest)) ->
  parse_primary (S n) ((LPAREN :: s ++ [RPAREN]) ++ rest) = Some (Ok (e, rest)).
Proof.
  intros H. rewrite parse_primary_S. cbn [app]. rewrite consume_cons, <- app_assoc. cbn [app].
  rewrite H. by rewrite consume_cons.
Qed.

(** Every normal form is read back from its canonical text, at each level of the
    grammar that prints it without parentheses of its own. *)
Lemma nf_parses e :
  nf e -> (~ is_and e -> primary_ok e) /\ (~ is_or e -> and_ok e) /\ or_ok e.
Proof.
  intros He. induction He as [l Hl|cs He IH Hn|cs He IH Hn] using nf_ind'.
  - pose proof (primary_label l Hl) as Hp.
    assert (and_ok (Label l)) as Ha.
    { intros rest Hr. rewrite show_label by lia. rewrite <- (show_label 2 l) by lia.
      destruct (Hp rest) as [n Hn]; [solve_stops|].
      by eapply and_of_primary. }
    split; [done|]. split; [done|]. intros rest Hr. rewrite show_label by lia.
    rewrite <- (show_label 1 l) by lia.
    destruct (Ha rest) as [n Hn]; [solve_stops|]. by eapply or_of_and.
  - assert (Forall primary_ok cs) as Hp by (rewrite Forall_forall in *; naive_solver).
    assert (and_ok (And cs)) as Ha.
    { intros rest Hr. rewrite show_and, decide_True by lia. inversion He. by apply parse_and_list. }
    split; [intros []; done|]. split; [done|]. intros rest Hr.
    rewrite show_and, decide_True by lia. specialize (Ha rest).
    rewrite show_and, decide_True in Ha by lia.
    destruct Ha as [n Hn']; [solve_stops|]. by eapply or_of_and.
  - assert (Forall and_ok cs) as Hp by (rewrite Forall_forall in *; naive_solver).
    assert (or_ok (Or cs)) as Ho.
    { intros rest Hr. rewrite show_or, decide_True by lia. inversion He. by apply parse_or_list. }
    split; [|split; [intros []; done|done]]. intros _ rest Hr.
    rewrite show_or, decide_False by lia. destruct (Ho (RPAREN :: rest)) as [n Hn'].
    { solve_stops. }
    rewrite show_or, decide_True in Hn' by lia. eexists. apply primary_parens. exact Hn'.
Qed.

(** The canonical text of a normal form parses back to it. *)
Lemma parse_expr_canonical e : nf e -> parse_expr (expr_canonical e) = Some (Ok (e, [])).
Proof.
  intros (_ & _ & Ho)%nf_parses. destruct (Ho [] I) as [n Hn]. rewrite app_nil_r in Hn.
  by eapply parse_expr_agrees.
Qed.

(** So canonical texts identify normal forms. *)
Lemma expr_canonical_inj e f : nf e -> nf f -> expr_canonical e = expr_canonical f -> e = f.
Proof.
  intros He%parse_expr_canonical Hf%parse_expr_canonical E. rewrite E in He. congruence.
Qed.
