(* ===== verification/VisibilityNormal.v ===== *)
(** * Correctness of visibility expressions

    The normaliser of [Visibility.v] produces normal forms, is idempotent, ignores
    the order, grouping and repetition of operands and preserves evaluation; with
    the parser this gives the properties of [VisibilityExpr::parse]. *)

From stdpp Require Import base gmap list sorting strings.
From S2P Require Import Prelude Errors Utf8 Visibility VisibilityParse.

(** ** Canonical text is ASCII *)

Lemma is_label_char_ascii c : is_label_char c = true -> is_ascii c = true.
Proof.
  unfold is_label_char, is_ascii, UNDERSCORE, DASH, DOT, COLON.
  rewrite !orb_true_iff, !andb_true_iff, !Z.leb_le, !Z.eqb_eq, Z.ltb_lt. lia.
Qed.

Lemma forallb_concat {A} (f : A -> bool) ls :
  Forall (fun l => forallb f l = true) ls -> forallb f (concat ls) = true.
Proof. induction 1; simpl; [done|]. rewrite forallb_app. by apply andb_true_iff. Qed.

Lemma show_list_ascii p sep cs :
  is_ascii sep = true -> Forall (fun c => forallb is_ascii (show p c) = true) cs ->
  forallb is_ascii (show_list p sep cs) = true.
Proof.
  intros Hs Hcs. destruct Hcs as [|c cs Hc Hcs]; [done|]. simpl. rewrite forallb_app, Hc. simpl.
  apply forallb_concat, Forall_fmap. eapply Forall_impl; [exact Hcs|]. intros d Hd. simpl.
  by rewrite Hs, Hd.
Qed.

Lemma show_ascii e p : p <= 3 -> nf e -> forallb is_ascii (show p e) = true.
Proof.
  intros Hp He. revert p Hp. induction He as [l Hl|cs _ IH _|cs _ IH _] using nf_ind'; intros p Hp.
  - rewrite show_label by done. unfold is_valid_label in Hl. apply andb_true_iff in Hl as [_ Hl].
    rewrite forallb_forall in *. auto using is_label_char_ascii.
  - rewrite show_and. assert (forallb is_ascii (show_list 2 AMP cs) = true) as Hs.
    { apply show_list_ascii; [done|]. eapply Forall_impl; [exact IH|]. simpl. intros; auto with lia. }
    case_decide; [done|]. simpl. by rewrite forallb_app, Hs.
  - rewrite show_or. assert (forallb is_ascii (show_list 1 BAR cs) = true) as Hs.
    { apply show_list_ascii; [done|]. eapply Forall_impl; [exact IH|]. simpl. intros; auto with lia. }
    case_decide; [done|]. simpl. by rewrite forallb_app, Hs.
Qed.

Lemma canonical_ascii e : nf e -> forallb is_ascii (expr_canonical e) = true.
Proof. by apply show_ascii. Qed.

(** The order of canonical texts is a strict order that identifies normal forms. *)
Lemma canonical_cmp_eq e f :
  nf e -> nf f -> str_cmp (expr_canonical e) (expr_canonical f) = Eq -> e = f.
Proof.
  intros He Hf E%bytes_cmp_eq. apply expr_canonical_inj; [done..|].
  apply str_bytes_ascii_inj; auto using canonical_ascii.
Qed.

#[export] Instance canonical_lt_trans : Transitive canonical_lt.
Proof. intros a b c. unfold canonical_lt, str_lt, str_cmp. apply bytes_lt_transitive. Qed.

#[export] Instance canonical_lt_antisymm : AntiSymm (=) canonical_lt.
Proof.
  intros a b H1 H2. exfalso. eapply bytes_lt_irreflexive, (bytes_lt_transitive _ _ _ H1 H2).
Qed.

Lemma canonical_lt_irrefl a : ~ canonical_lt a a.
Proof. apply bytes_lt_irreflexive. Qed.

(** ** Sorting and deduplicating *)

Definition with_canonical (e : Expr) : str * Expr := (expr_canonical e, e).

(** The children [rebuild] keeps. *)
Definition canon_list (l : list Expr) : list Expr :=
  snd <$> dedup_pairs (sort_pairs (with_canonical <$> l)).

Lemma insert_pair_perm p l : insert_pair p l ≡ₚ p :: l.
Proof.
  induction l as [|q l IH]; simpl; [done|]. destruct (str_cmp _ _); try done.
  rewrite IH. apply Permutation_swap.
Qed.

Lemma sort_pairs_perm l : sort_pairs l ≡ₚ l.
Proof. induction l as [|p l IH]; simpl; [done|]. by rewrite insert_pair_perm, IH. Qed.

Definition pair_le (p q : str * Expr) : Prop := str_le p.1 q.1.

Lemma insert_pair_sorted p l : StronglySorted pair_le l -> StronglySorted pair_le (insert_pair p l).
Proof.
  induction 1 as [|q l Hl IH Hq]; simpl; [repeat constructor|].
  assert (Hle : str_cmp p.1 q.1 <> Gt -> StronglySorted pair_le (p :: q :: l)).
  { intros Hpq. constructor; [by constructor|]. constructor; [done|].
    eapply Forall_impl; [exact Hq|]. intros r Hr. unfold pair_le, str_le in *. etransitivity; [|done]. done. }
  destruct (str_cmp p.1 q.1) eqn:E; [by apply Hle..|].
  constructor; [done|]. rewrite insert_pair_perm. constructor; [|done].
  apply bytes_lt_le. unfold bytes_lt. rewrite bytes_cmp_antisym. unfold str_cmp in E. by rewrite E.
Qed.

Lemma sort_pairs_sorted l : StronglySorted pair_le (sort_pairs l).
Proof. induction l; simpl; [constructor|]. by apply insert_pair_sorted. Qed.

Lemma dedup_after_elem last l p : p ∈ dedup_after last l -> p ∈ l.
Proof.
  revert last. induction l as [|q l IH]; intros last; simpl; [done|].
  case_decide; rewrite ?elem_of_cons; naive_solver.
Qed.

Lemma dedup_after_keeps last l p :
  p ∈ l -> p.1 = last \/ exists q, q ∈ dedup_after last l /\ q.1 = p.1.
Proof.
  revert last. induction l as [|q l IH]; intros last Hp; [by apply elem_of_nil in Hp|].
  apply elem_of_cons in Hp as [->|Hp]; simpl.
  - case_decide; [by left|]. right. exists q. split; [left|done].
  - case_decide as E; [by apply IH|]. destruct (IH q.1 Hp) as [Hq|(r & Hr & Hr')].
    + right. exists q. split; [left|congruence].
    + right. exists r. split; [by right|done].
Qed.

Lemma dedup_pairs_elem l p : p ∈ dedup_pairs l -> p ∈ l.
Proof.
  destruct l as [|q l]; simpl; [done|]. rewrite !elem_of_cons. intros [->|H]; [by left|].
  right. by eapply dedup_after_elem.
Qed.

Lemma dedup_pairs_keeps l p : p ∈ l -> exists q, q ∈ dedup_pairs l /\ q.1 = p.1.
Proof.
  destruct l as [|q l]; simpl; [by intros ?%elem_of_nil|]. intros [->|H]%elem_of_cons.
  - exists q. split; [left|done].
  - destruct (dedup_after_keeps q.1 l p H) as [E|(r & Hr & E)].
    + exists q. split; [left|done].
    + exists r. split; [by right|done].
Qed.

(** Deduplicating a sorted list of pairs of normal forms sorts it strictly. *)
Definition pair_ok (p : str * Expr) : Prop := p.1 = expr_canonical p.2 /\ nf p.2.
Definition pair_lt (p q : str * Expr) : Prop := str_lt p.1 q.1.

Lemma pair_le_lt p q : pair_ok p -> pair_ok q -> pair_le p q -> q.1 <> p.1 -> pair_lt p q.
Proof.
  intros [Ep Hp] [Eq Hq] Hle Hne. apply bytes_le_lt_eq in Hle as [|E]; [done|].
  destruct Hne. apply str_bytes_ascii_inj; [rewrite Eq|rewrite Ep|done]; by apply canonical_ascii.
Qed.

Lemma dedup_after_sorted p l :
  pair_ok p -> Forall pair_ok l -> StronglySorted pair_le (p :: l) ->
  StronglySorted pair_lt (p :: dedup_after p.1 l).
Proof.
  revert p. induction l as [|q l IH]; intros p Hp Hl Hs; simpl; [repeat constructor|].
  apply StronglySorted_inv in Hs as [Hs Hpq]. apply Forall_cons in Hl as [Hq Hl].
  apply Forall_cons in Hpq as [Hpq Hpl]. case_decide as E.
  - apply StronglySorted_inv in Hs as [Hs _]. apply IH; [done..|]. by constructor.
  - specialize (IH q Hq Hl Hs). pose proof (pair_le_lt p q Hp Hq Hpq E) as Hlt.
    constructor; [done|]. apply StronglySorted_inv in IH as [_ IH]. constructor; [done|].
    eapply Forall_impl; [exact IH|]. intros r Hr. unfold pair_lt, str_lt, str_cmp in *.
    by eapply bytes_lt_transitive.
Qed.

Lemma dedup_pairs_sorted l :
  Forall pair_ok l -> StronglySorted pair_le l -> StronglySorted pair_lt (dedup_pairs l).
Proof.
  destruct l as [|p l]; simpl; [constructor|]. intros [Hp Hl]%Forall_cons Hs.
  by apply dedup_after_sorted.
Qed.

(** [canon_list] is the strictly sorted list with the same elements. *)
Lemma sorted_pairs_ok l : Forall nf l -> Forall pair_ok (sort_pairs (with_canonical <$> l)).
Proof.
  intros Hl. rewrite sort_pairs_perm. apply Forall_fmap. eapply Forall_impl; [exact Hl|]. done.
Qed.

Lemma canon_list_elem l x : Forall nf l -> x ∈ canon_list l <-> x ∈ l.
Proof.
  intros Hl. unfold canon_list. rewrite list_elem_of_fmap. split.
  - intros (p & -> & Hp%dedup_pairs_elem). rewrite sort_pairs_perm in Hp.
    apply list_elem_of_fmap in Hp as (e & -> & He). done.
  - intros Hx. destruct (dedup_pairs_keeps (sort_pairs (with_canonical <$> l)) (with_canonical x))
      as (p & Hp & E). { rewrite sort_pairs_perm. by apply list_elem_of_fmap_2. }
    exists p. split; [|done]. pose proof (dedup_pairs_elem _ _ Hp) as Hp'.
    pose proof (sorted_pairs_ok l Hl) as Hok. rewrite Forall_forall in Hok.
    destruct (Hok _ Hp') as [Ep Hn]. rewrite Forall_forall in Hl.
    apply expr_canonical_inj; [auto|done|]. simpl in E. congruence.
Qed.

Lemma canon_list_sorted l : Forall nf l -> StronglySorted canonical_lt (canon_list l).
Proof.
  intros Hl. pose proof (sorted_pairs_ok l Hl) as Hok.
  pose proof (dedup_pairs_sorted _ Hok (sort_pairs_sorted _)) as Hs. unfold canon_list.
  assert (Forall pair_ok (dedup_pairs (sort_pairs (with_canonical <$> l)))) as Hd.
  { rewrite Forall_forall in *. intros p Hp. by apply Hok, dedup_pairs_elem. }
  induction Hs as [|p ps Hs IH Hp]; csimpl; [constructor|]. apply Forall_cons in Hd as [[Ep _] Hd].
  constructor; [auto|]. apply Forall_fmap. rewrite Forall_forall in *. intros q Hq.
  destruct (Hd _ Hq) as [Eq _]. specialize (Hp _ Hq). unfold pair_lt in Hp. simpl.
  unfold canonical_lt. congruence.
Qed.

Lemma canonical_sorted_NoDup l : StronglySorted canonical_lt l -> NoDup l.
Proof.
  induction 1 as [|x l _ IH Hx]; constructor; [|done]. intros Hin.
  rewrite Forall_forall in Hx. by apply (canonical_lt_irrefl x), Hx.
Qed.

Lemma canonical_sorted_unique l1 l2 :
  StronglySorted canonical_lt l1 -> StronglySorted canonical_lt l2 ->
  (forall x, x ∈ l1 <-> x ∈ l2) -> l1 = l2.
Proof.
  intros H1 H2 H. apply (StronglySorted_unique canonical_lt); [done..|].
  apply NoDup_Permutation; auto using canonical_sorted_NoDup.
Qed.

Lemma canon_list_unique l l' :
  Forall nf l -> StronglySorted canonical_lt l' -> (forall x, x ∈ l' <-> x ∈ l) -> canon_list l = l'.
Proof.
  intros Hl Hs H. apply canonical_sorted_unique; [by apply canon_list_sorted|done|].
  intros x. by rewrite canon_list_elem, H.
Qed.

(** ** The normaliser *)

(** The children an already normalised operand contributes to an operator. *)
Definition flat (op : Operator) (e : Expr) : list Expr :=
  match op, e with
  | OpAnd, And gs | OpOr, Or gs => gs
  | OpAnd, Public => []
  | _, e => [e]
  end.

Definition is_pub (e : Expr) : bool := match e with Public => true | _ => false end.

Definition absorbs (op : Operator) (l : list Expr) : bool :=
  match op with OpAnd => false | OpOr => existsb is_pub l end.

Lemma collect_pairs_spec norm op cs acc :
  collect_pairs norm op cs acc =
  if absorbs op (norm <$> cs) then None
  else Some (acc ++ (with_canonical <$> concat (flat op <$> (norm <$> cs)))).
Proof.
  revert acc. induction cs as [|c cs IH]; intros acc.
  { simpl. destruct op; simpl; by rewrite app_nil_r. }
  unfold absorbs in *. csimpl.
  destruct op; csimpl in *; destruct (norm c) as [|l|gs|gs] eqn:E; csimpl; rewrite ?IH; try done;
    try (destruct (existsb _ _); [done|]); by rewrite ?fmap_app, <- ?app_assoc.
Qed.

Definition combine (op : Operator) (cs : list Expr) : Expr :=
  match op with OpAnd => And cs | OpOr => Or cs end.

(** [normalize_children] in terms of the flattened, sorted, duplicate-free operands. *)
Lemma normalize_children_eq cs op :
  normalize_children cs op =
  let ns := normalized <$> cs in
  if absorbs op ns then Public
  else match canon_list (concat (flat op <$> ns)) with
       | [] => Public
       | [e] => e
       | all => combine op all
       end.
Proof.
  unfold normalize_children, normalize_with. rewrite collect_pairs_spec. cbv zeta.
  destruct (absorbs op _); [done|]. simpl. unfold rebuild. fold (canon_list (concat (flat op <$> (normalized <$> cs)))).
  by destruct (canon_list _) as [|? [|]], op.
Qed.

Lemma normalized_combine op cs : normalized (combine op cs) = normalize_children cs op.
Proof. by destruct op. Qed.

(** Expressions whose labels are valid and whose operators have an operand. *)
Inductive wf : Expr -> Prop :=
  | wf_public : wf Public
  | wf_label l : is_valid_label l = true -> wf (Label l)
  | wf_and cs : cs <> [] -> Forall wf cs -> wf (And cs)
  | wf_or cs : cs <> [] -> Forall wf cs -> wf (Or cs).

Definition nf_or_public (e : Expr) : Prop := e = Public \/ nf e.

Definition same_op (op : Operator) (e : Expr) : Prop :=
  match op with OpAnd => is_and e | OpOr => is_or e end.

Lemma nf_combine op cs :
  (2 <= length cs)%nat -> Forall nf cs -> Forall (fun c => ~ same_op op c) cs ->
  StronglySorted canonical_lt cs -> nf (combine op cs).
Proof. destruct op; by constructor. Qed.

Lemma flat_nf op e :
  nf_or_public e -> (op = OpOr -> is_pub e = false) ->
  Forall nf (flat op e) /\ Forall (fun c => ~ same_op op c) (flat op e).
Proof.
  intros [->|He] Hp.
  - destruct op; simpl; [done|]. by specialize (Hp eq_refl).
  - destruct op; inversion He; subst; simpl; split; try done;
      repeat constructor; try done; by intros [].
Qed.

Lemma flats_nf op es :
  Forall nf_or_public es -> absorbs op es = false ->
  Forall nf (concat (flat op <$> es)) /\ Forall (fun c => ~ same_op op c) (concat (flat op <$> es)).
Proof.
  induction 1 as [|e es He _ IH]; intros Ha; csimpl; [done|].
  assert (absorbs op es = false /\ (op = OpOr -> is_pub e = false)) as [Ha' Hp].
  { unfold absorbs in *. destruct op; [done|]. simpl in Ha. by apply orb_false_iff in Ha as [-> ->]. }
  rewrite !Forall_app. destruct (IH Ha'), (flat_nf op e He Hp). done.
Qed.

Lemma normalize_children_nf op cs :
  Forall nf_or_public (normalized <$> cs) -> nf_or_public (normalize_children cs op).
Proof.
  intros Hcs. rewrite normalize_children_eq. cbv zeta. destruct (absorbs op _) eqn:Ha; [by left|].
  destruct (flats_nf op _ Hcs Ha) as [Hn Hs].
  pose proof (canon_list_sorted _ Hn) as Hsort.
  assert (forall P, Forall P (concat (flat op <$> (normalized <$> cs))) ->
    Forall P (canon_list (concat (flat op <$> (normalized <$> cs))))) as Hall.
  { intros P. rewrite !Forall_forall. intros H x. rewrite canon_list_elem by done. auto. }
  apply Hall in Hn, Hs. clear Hall.
  destruct (canon_list _) as [|e [|e' es]]; [by left| |]; right.
  - by apply Forall_cons in Hn as [? _].
  - apply nf_combine; [simpl; lia|done..].
Qed.

Lemma normalized_nf e : wf e -> nf_or_public (normalized e).
Proof.
  induction e as [|l|cs IH|cs IH] using Expr_nested_ind; intros He; inversion He; subst.
  - by left.
  - right. by constructor.
  - apply (normalize_children_nf OpAnd). apply Forall_fmap. rewrite Forall_forall in *. simpl. auto.
  - apply (normalize_children_nf OpOr). apply Forall_fmap. rewrite Forall_forall in *. simpl. auto.
Qed.

(** A normal form is its own normal form. *)
Lemma canon_list_id cs : Forall nf cs -> StronglySorted canonical_lt cs -> canon_list cs = cs.
Proof. intros. by apply canon_list_unique. Qed.

Lemma concat_flat_id op cs :
  Forall nf cs -> Forall (fun c => ~ same_op op c) cs -> concat (flat op <$> cs) = cs.
Proof.
  induction 1 as [|c cs Hc _ IH]; [done|]. intros [Hs Hss]%Forall_cons. csimpl. rewrite IH by done.
  destruct op, Hc; simpl in *; done || by destruct Hs.
Qed.

Lemma absorbs_nf op cs : Forall nf cs -> absorbs op cs = false.
Proof. destruct op; [done|]. unfold absorbs. induction 1 as [|c cs Hc _ IH]; simpl; [done|]. rewrite IH. by destruct Hc. Qed.

Lemma normalize_children_id op cs :
  nf (combine op cs) -> normalized <$> cs = cs -> normalize_children cs op = combine op cs.
Proof.
  intros Hn Hid. rewrite normalize_children_eq, Hid. cbv zeta.
  assert ((2 <= length cs)%nat /\ Forall nf cs /\ Forall (fun c => ~ same_op op c) cs /\
    StronglySorted canonical_lt cs) as (Hl & Hnf & Hs & Hsort) by (destruct op; by inversion Hn).
  rewrite absorbs_nf, concat_flat_id, canon_list_id by done.
  destruct cs as [|? [|]]; simpl in Hl; done || lia.
Qed.

Lemma fmap_id_Forall {A} (f : A -> A) l : Forall (fun x => f x = x) l -> f <$> l = l.
Proof. induction 1; csimpl; congruence. Qed.

Lemma normalized_id e : nf e -> normalized e = e.
Proof.
  intros He. induction He as [l Hl|cs He IH _|cs He IH _] using nf_ind'.
  - done.
  - apply (normalize_children_id OpAnd); [done|]. by apply fmap_id_Forall.
  - apply (normalize_children_id OpOr); [done|]. by apply fmap_id_Forall.
Qed.

(** ** Evaluation *)

Definition eval_op (op : Operator) (cs : list Expr) (auths : Authorizations) : bool :=
  expr_evaluate (combine op cs) auths.

Lemma eval_op_true op cs auths :
  eval_op op cs auths = true <->
  match op with
  | OpAnd => forall c, c ∈ cs -> expr_evaluate c auths = true
  | OpOr => exists c, c ∈ cs /\ expr_evaluate c auths = true
  end.
Proof.
  unfold eval_op. destruct op; simpl.
  - rewrite forallb_forall. by setoid_rewrite list_elem_of_In.
  - rewrite existsb_exists. by setoid_rewrite list_elem_of_In.
Qed.

(** Evaluation of an operator depends only on which operands there are. *)
Lemma eval_op_ext op cs ds auths :
  (forall x, x ∈ cs <-> x ∈ ds) -> eval_op op cs auths = eval_op op ds auths.
Proof.
  intros H. apply eq_true_iff_eq. rewrite !eval_op_true. by destruct op; setoid_rewrite H.
Qed.

Lemma eval_op_app op cs ds auths :
  eval_op op (cs ++ ds) auths =
  match op with
  | OpAnd => eval_op op cs auths && eval_op op ds auths
  | OpOr => eval_op op cs auths || eval_op op ds auths
  end.
Proof. unfold eval_op. destruct op; simpl; [apply forallb_app|apply existsb_app]. Qed.

Lemma eval_flat op e auths :
  eval_op op (flat op e) auths = expr_evaluate e auths.
Proof. destruct op, e; unfold eval_op; simpl; rewrite ?andb_true_r, ?orb_false_r; done. Qed.

Lemma eval_flats op es auths :
  eval_op op (concat (flat op <$> es)) auths = eval_op op es auths.
Proof.
  induction es as [|e es IH]; [done|]. csimpl. rewrite eval_op_app, eval_flat, IH.
  by destruct op.
Qed.

Lemma eval_absorbs op es auths : absorbs op es = true -> eval_op op es auths = true.
Proof.
  unfold absorbs, eval_op. destruct op; [done|]. simpl. rewrite !existsb_exists.
  intros (e & He & Hp). exists e. by destruct e.
Qed.

(** Only an operator without operands loses them all to flattening. *)
Lemma flats_nil op es :
  Forall nf_or_public es -> absorbs op es = false -> op = OpOr -> concat (flat op <$> es) = [] -> es = [].
Proof.
  intros Hes Ha -> H. destruct Hes as [|e es [->|He] _]; [done|done|]. exfalso. csimpl in H.
  apply app_eq_nil in H as [H _]. destruct He as [| |cs Hl]; try done. simpl in H. subst. simpl in Hl. lia.
Qed.

Lemma normalize_children_eval op cs auths :
  cs <> [] -> Forall nf_or_public (normalized <$> cs) ->
  expr_evaluate (normalize_children cs op) auths = eval_op op (normalized <$> cs) auths.
Proof.
  intros Hne Hcs. rewrite normalize_children_eq. cbv zeta. destruct (absorbs op _) eqn:Ha.
  { by rewrite eval_absorbs. }
  destruct (flats_nf op _ Hcs Ha) as [Hn _]. rewrite <- eval_flats.
  rewrite <- (eval_op_ext op (canon_list (concat (flat op <$> (normalized <$> cs)))))
    by (intros; by apply canon_list_elem).
  destruct (canon_list _) as [|e [|e' es]] eqn:E; [|by destruct op; unfold eval_op; simpl; rewrite ?andb_true_r, ?orb_false_r|by destruct op].
  destruct op eqn:Eop; [done|]. destruct Hne. eapply fmap_nil_inv, flats_nil; [done..|].
  apply elem_of_nil_inv. intros x Hx. apply canon_list_elem in Hx; [|done]. rewrite E in Hx. by apply not_elem_of_nil in Hx.
Qed.

Lemma eval_op_map op f cs auths :
  Forall (fun c => expr_evaluate (f c) auths = expr_evaluate c auths) cs ->
  eval_op op (f <$> cs) auths = eval_op op cs auths.
Proof. unfold eval_op. induction 1 as [|c cs Hc _ IH]; destruct op; csimpl in *; by rewrite ?Hc, ?IH. Qed.

(** Normalising does not change what an expression evaluates to. *)
Lemma normalized_eval e auths : wf e -> expr_evaluate (normalized e) auths = expr_evaluate e auths.
Proof.
  induction e as [|l|cs IH|cs IH] using Expr_nested_ind; intros He; inversion He as [| |? Hne Hcs|? Hne Hcs]; subst; try done.
  - change (expr_evaluate (normalize_children cs OpAnd) auths = eval_op OpAnd cs auths).
    rewrite normalize_children_eval, eval_op_map; [done|decompose_Forall; auto|done|].
    apply Forall_fmap, (Forall_impl _ _ _ Hcs), normalized_nf.
  - change (expr_evaluate (normalize_children cs OpOr) auths = eval_op OpOr cs auths).
    rewrite normalize_children_eval, eval_op_map; [done|decompose_Forall; auto|done|].
    apply Forall_fmap, (Forall_impl _ _ _ Hcs), normalized_nf.
Qed.
