(* ===== verification/VisibilityProps.v ===== *)
(** * Correctness of visibility expressions

    The parser of [src/src/secure/visibility.rs] always terminates with a value or
    a syntax error, its normal form evaluates like the expression that was written,
    reads back as itself, and is shared by all expressions that differ only in the
    order, the grouping and the repetition of operands. *)

From stdpp Require Import base gmap list sorting strings.
From S2P Require Import Prelude Errors Utf8 Visibility VisibilityParse VisibilityNormal.

(** ** What the parser returns *)

(** Valid labels, no empty operator, and not visible without any label. *)
Definition guarded (e : Expr) : Prop := wf e /\ expr_evaluate e auths_empty = false.

Definition syntax_error (e : Error) : Prop := exists msg, e = InvalidVisibilityExpression msg.

Definition parser_post {A} (P : A -> Prop) (r : option (Result (A * str))) : Prop :=
  match r with
  | Some (Ok (x, _)) => P x
  | Some (Err e) => syntax_error e
  | None => True
  end.

Definition all_guarded (cs : list Expr) : Prop := cs <> [] /\ Forall guarded cs.

Lemma guarded_combine op cs : all_guarded cs -> guarded (combine op cs).
Proof.
  intros [Hne Hcs]. split.
  - destruct op; constructor; try done; eapply Forall_impl; try done; by intros ? [].
  - destruct Hcs as [|c cs Hc Hcs]; [done|]. destruct op; simpl; destruct Hc as [_ ->]; [done|].
    induction Hcs as [|d cs [_ Hd] _ IH]; simpl; [done|]. rewrite Hd. by apply IH.
Qed.

Lemma guarded_finish op mk cs : mk = combine op -> all_guarded cs -> guarded (finish mk cs).
Proof.
  intros -> Hcs. unfold finish. case_decide as E; [|by apply guarded_combine].
  destruct cs as [|c [|]]; try done. destruct Hcs as [_ [Hc _]%Forall_cons]. done.
Qed.

Lemma all_guarded_snoc cs c : Forall guarded cs -> guarded c -> all_guarded (cs ++ [c]).
Proof. split; [by destruct cs|]. by apply Forall_app_2; [|constructor]. Qed.

Lemma parse_label_chars s : forallb is_label_char (parse_label s).1 = true.
Proof.
  induction s as [|c s IH]; simpl; [done|]. destruct (is_label_char c) eqn:E; [|done].
  destruct (parse_label s). simpl in *. by rewrite E.
Qed.

Lemma guarded_label s l r : parse_label s = (l, r) -> l <> [] -> guarded (Label l).
Proof.
  intros E Hl. split; [|done]. constructor. unfold is_valid_label.
  rewrite bool_decide_eq_false_2 by done. pose proof (parse_label_chars s) as H. by rewrite E in H.
Qed.

(** Every parser function returns guarded expressions or a syntax error. *)
Lemma parser_sound n :
  (forall s, parser_post guarded (parse_or_expr n s)) /\
  (forall cs s, all_guarded cs -> parser_post all_guarded (or_loop n cs s)) /\
  (forall s, parser_post guarded (parse_and_expr n s)) /\
  (forall cs s, all_guarded cs -> parser_post all_guarded (and_loop n cs s)) /\
  (forall s, parser_post guarded (parse_primary n s)).
Proof.
  induction n as [|n (IHo & IHol & IHa & IHal & IHp)]; [done|].
  assert (forall c, guarded c -> all_guarded [c]) as H1 by (by intros; split; [|constructor]).
  split_and!.
  - intros s. rewrite parse_or_S. pose proof (IHa s) as H.
    destruct (parse_and_expr n s) as [[[c t]|e]|]; simpl in *; try done.
    pose proof (IHol [c] t (H1 _ H)) as Hl.
    destruct (or_loop n [c] t) as [[[cs u]|e]|]; simpl in *; try done. by apply (guarded_finish OpOr).
  - intros cs s Hcs. rewrite or_loop_S. destruct (consume BAR s) as [t|]; [|done].
    pose proof (IHa t) as H. destruct (parse_and_expr n t) as [[[c u]|e]|]; simpl in *; try done.
    apply IHol. by apply all_guarded_snoc; [apply Hcs|].
  - intros s. rewrite parse_and_S. pose proof (IHp s) as H.
    destruct (parse_primary n s) as [[[c t]|e]|]; simpl in *; try done.
    pose proof (IHal [c] t (H1 _ H)) as Hl.
    destruct (and_loop n [c] t) as [[[cs u]|e]|]; simpl in *; try done. by apply (guarded_finish OpAnd).
  - intros cs s Hcs. rewrite and_loop_S. destruct (consume AMP s) as [t|]; [|done].
    pose proof (IHp t) as H. destruct (parse_primary n t) as [[[c u]|e]|]; simpl in *; try done.
    apply IHal. by apply all_guarded_snoc; [apply Hcs|].
  - intros s. rewrite parse_primary_S. destruct (consume LPAREN s) as [t|].
    + pose proof (IHo t) as H. destruct (parse_or_expr n t) as [[[c u]|e]|]; simpl in *; try done.
      destruct (consume RPAREN u); [done|by eexists].
    + destruct (parse_label s) as [l r] eqn:E. case_decide; [by eexists|]. by eapply guarded_label.
Qed.

Lemma parse_expr_sound s : parser_post guarded (parse_expr s).
Proof. apply parser_sound. Qed.

(** The two ways [parse] succeeds. *)
Lemma parse_Ok s v :
  parse s = Ok v <->
  (s = [] /\ v = public) \/
  (s <> [] /\ exists e, parse_expr s = Some (Ok (e, [])) /\
    v = mkVisibilityExpr (normalized e) (expr_canonical (normalized e))).
Proof.
  unfold parse. case_decide; [naive_solver|].
  destruct (parse_expr s) as [[[e r]|e]|]; [|naive_solver..].
  case_decide as Hr; [naive_solver|]. subst. naive_solver.
Qed.

Lemma parse_guarded s e r : parse_expr s = Some (Ok (e, r)) -> guarded e.
Proof. intros E. pose proof (parse_expr_sound s) as H. by rewrite E in H. Qed.

Lemma guarded_nf e : guarded e -> nf (normalized e).
Proof.
  intros [Hw He]. destruct (normalized_nf e Hw) as [Hp|]; [|done].
  rewrite <- normalized_eval, Hp in He by done. done.
Qed.

Lemma nf_canonical_nonempty e : nf e -> expr_canonical e <> [].
Proof.
  intros He H. pose proof (parse_expr_canonical e He) as E. by rewrite H in E.
Qed.

Lemma parse_nf e : nf e -> parse (expr_canonical e) = Ok (mkVisibilityExpr e (expr_canonical e)).
Proof.
  intros He. apply parse_Ok. right. split; [by apply nf_canonical_nonempty|].
  exists e. by rewrite (normalized_id e He), parse_expr_canonical.
Qed.

(** A successful parse is [public] or a normal form with its canonical text. *)
Lemma parse_Ok_nf s v :
  parse s = Ok v -> v = public \/ (nf (expr v) /\ canonical v = expr_canonical (expr v)).
Proof.
  intros [[_ ->]|(_ & e & E & ->)]%parse_Ok; [by left|right].
  split; [|done]. by eapply guarded_nf, parse_guarded.
Qed.

(** C39: Parsing a visibility expression always terminates within the parser's fuel:
    every input yields an expression or an [InvalidVisibilityExpression] error. *)
Theorem parse_total s :
  (exists v, parse s = Ok v) \/ (exists msg, parse s = Err (InvalidVisibilityExpression msg)).
Proof.
  unfold parse. case_decide; [eauto|].
  destruct (parse_expr_total s) as [r E]. pose proof (parse_expr_sound s) as Hp. rewrite E in *.
  destruct r as [[e r]|e]; simpl in Hp; [case_decide as Hr; eauto|]. destruct Hp as [msg ->]. eauto.
Qed.

Lemma parse_canonical_reparse s v : parse s = Ok v -> parse (canonical v) = Ok v.
Proof.
  intros H. destruct (parse_Ok_nf s v H) as [->|[Hn Hc]]; [done|].
  rewrite Hc, parse_nf by done. destruct v. simpl in *. by subst.
Qed.

(** C22: The canonical text of a parsed expression parses to that same expression:
    canonicalisation is idempotent, so what is stored in a key reads back unchanged. *)
Theorem parse_canonical_roundtrip s v : parse s = Ok v -> parse (canonical v) = Ok v.
Proof. apply parse_canonical_reparse. Qed.

Lemma parse_canonical_roundtrip_witness :
  exists v, parse (s2str "audit&(support|admin)") = Ok v /\
    canonical v = s2str "(admin|support)&audit" /\ parse (canonical v) = Ok v.
Proof.
  eexists. split; [vm_compute; reflexivity|]. split; [reflexivity|].
  apply (parse_canonical_roundtrip (s2str "audit&(support|admin)")). vm_compute. reflexivity.
Defined.

(** C38: Normalisation does not change access: the parsed expression is satisfied by
    exactly the authorizations that satisfy the expression as it was written. *)
Theorem parse_evaluate s e v auths :
  parse_expr s = Some (Ok (e, [])) -> parse s = Ok v -> evaluate v auths = expr_evaluate e auths.
Proof.
  intros He [[-> ->]|(_ & e' & He' & ->)]%parse_Ok; [done|]. simplify_eq.
  unfold evaluate. simpl. apply normalized_eval. by eapply parse_guarded.
Qed.

Lemma parse_evaluate_witness :
  let auths := mkAuthorizations {[s2str "b"; s2str "c"]} in
  exists e v, parse_expr (s2str "(c|a)&b&b") = Some (Ok (e, [])) /\ parse (s2str "(c|a)&b&b") = Ok v /\
    evaluate v auths = expr_evaluate e auths /\ expr_evaluate e auths = true.
Proof.
  do 2 eexists. split; [vm_compute; reflexivity|]. split; [vm_compute; reflexivity|]. split; [|vm_compute; reflexivity].
  apply (parse_evaluate (s2str "(c|a)&b&b")); vm_compute; reflexivity.
Defined.

(** Only the empty input is public: an accepted non-empty expression is never
    satisfied by a caller that holds no labels. *)
Theorem nonempty_not_public s v :
  parse s = Ok v -> s <> [] -> is_public v = false /\ evaluate v auths_empty = false.
Proof.
  intros [[-> _]|(_ & e & He & ->)]%parse_Ok Hs; [done|].
  pose proof (parse_guarded _ _ _ He) as Hg. unfold evaluate, is_public. simpl.
  rewrite normalized_eval by apply Hg. split; [|apply Hg]. by destruct (guarded_nf e Hg).
Qed.

Lemma nonempty_not_public_witness :
  exists v, parse (s2str "admin") = Ok v /\ is_public v = false /\ evaluate v auths_empty = false.
Proof.
  eexists. split; [vm_compute; reflexivity|].
  apply (nonempty_not_public (s2str "admin")); [vm_compute; reflexivity|done].
Defined.

(** ** Stored bytes *)

Lemma parse_canonical_ascii s v : parse s = Ok v -> forallb is_ascii (canonical v) = true.
Proof.
  intros [->|[Hn ->]]%parse_Ok_nf; [done|]. by apply canonical_ascii.
Qed.

(** Parsed expressions with equal stored bytes are equal, and the stored bytes
    are the UTF-8 of the canonical text: the visibility field of a composite key
    determines the expression. *)
Theorem parse_as_bytes_inj s t v w :
  parse s = Ok v -> parse t = Ok w ->
  from_utf8 (as_bytes v) = Some (canonical v) /\ (as_bytes v = as_bytes w -> v = w).
Proof.
  intros Hv Hw. pose proof (parse_canonical_ascii _ _ Hv). pose proof (parse_canonical_ascii _ _ Hw).
  split; [by apply from_utf8_ascii|]. intros E%str_bytes_ascii_inj; [|done..].
  apply parse_canonical_reparse in Hv, Hw. rewrite E in Hv. congruence.
Qed.

Lemma parse_as_bytes_inj_witness :
  exists v w, parse (s2str "b&a") = Ok v /\ parse (s2str "a&b&a") = Ok w /\ v = w.
Proof.
  do 2 eexists. split; [vm_compute; reflexivity|]. split; [vm_compute; reflexivity|].
  apply (parse_as_bytes_inj (s2str "b&a") (s2str "a&b&a")); vm_compute; reflexivity.
Defined.

(** ** Order, grouping and repetition *)

(** Same expression up to the order, the grouping and the repetition of operands. *)
Inductive expr_equiv : Expr -> Expr -> Prop :=
  | eqv_refl e : expr_equiv e e
  | eqv_sym e f : expr_equiv e f -> expr_equiv f e
  | eqv_trans e f g : expr_equiv e f -> expr_equiv f g -> expr_equiv e g
  | eqv_perm op cs ds : cs ≡ₚ ds -> expr_equiv (combine op cs) (combine op ds)
  | eqv_dup op c cs : expr_equiv (combine op (c :: c :: cs)) (combine op (c :: cs))
  | eqv_single op e : expr_equiv (combine op [e]) e
  | eqv_nest op gs cs : gs <> [] ->
      expr_equiv (combine op (combine op gs :: cs)) (combine op (gs ++ cs))
  | eqv_cong op c d cs : expr_equiv c d -> expr_equiv (combine op (c :: cs)) (combine op (d :: cs)).

Lemma wf_combine op cs : wf (combine op cs) <-> cs <> [] /\ Forall wf cs.
Proof. destruct op; (split; [by inversion 1|by intros []; constructor]). Qed.

Lemma permutation_nil_iff {A} (l k : list A) : l ≡ₚ k -> (l <> [] <-> k <> []).
Proof.
  intros H. split; intros Hn ->; apply Hn; [by apply Permutation_nil_r|by apply Permutation_nil_r; symmetry].
Qed.

Lemma expr_equiv_wf e f : expr_equiv e f -> (wf e <-> wf f).
Proof.
  induction 1 as [| | |op cs ds Hp| |op e|op gs cs Hne|op c d cs _ IH];
    rewrite ?wf_combine, ?Forall_app, ?Forall_cons, ?Forall_nil; try tauto.
  - rewrite (permutation_nil_iff _ _ Hp). by rewrite Hp.
  - naive_solver.
  - naive_solver.
  - rewrite wf_combine. split; [|naive_solver]. intros [_ ((_ & ?) & ?)]. split; [by destruct gs|done].
  - rewrite IH. naive_solver.
Qed.

(** The operands that decide the normal form of an operator, and whether one of
    them makes the whole expression public. *)
Definition operands (op : Operator) (cs : list Expr) : list Expr := concat (flat op <$> (normalized <$> cs)).
Definition absorbed (op : Operator) (cs : list Expr) : bool := absorbs op (normalized <$> cs).

Lemma normalized_nfs cs : Forall wf cs -> Forall nf_or_public (normalized <$> cs).
Proof. intros H. apply Forall_fmap, (Forall_impl _ _ _ H), normalized_nf. Qed.

Lemma operands_nf op cs :
  Forall wf cs -> absorbed op cs = false ->
  Forall nf (operands op cs) /\ Forall (fun c => ~ same_op op c) (operands op cs).
Proof. intros H%normalized_nfs. by apply flats_nf. Qed.

(** Operators with the same operands have the same normal form. *)
Lemma normalize_children_ext op cs ds :
  Forall wf cs -> Forall wf ds -> absorbed op cs = absorbed op ds ->
  (absorbed op ds = false -> forall x, x ∈ operands op cs <-> x ∈ operands op ds) ->
  normalize_children cs op = normalize_children ds op.
Proof.
  intros Hc Hd Ha Ho. rewrite !normalize_children_eq. cbv zeta. fold (absorbed op cs) (absorbed op ds).
  rewrite Ha. destruct (absorbed op ds) eqn:E; [done|].
  fold (operands op cs) (operands op ds). specialize (Ho eq_refl).
  destruct (operands_nf op cs Hc Ha) as [Hcn _], (operands_nf op ds Hd E) as [Hdn _].
  rewrite (canon_list_unique (operands op cs) (canon_list (operands op ds))); [done|done|by apply canon_list_sorted|].
  intros x. by rewrite canon_list_elem, Ho.
Qed.

(** A nested operator contributes its operands to its parent of the same kind. *)
Lemma nested_operands op gs :
  gs <> [] -> Forall wf gs ->
  absorbs op [normalized (combine op gs)] = absorbed op gs /\
  (absorbed op gs = false -> forall x, x ∈ flat op (normalized (combine op gs)) <-> x ∈ operands op gs).
Proof.
  intros Hne Hgs. rewrite normalized_combine, normalize_children_eq. cbv zeta.
  fold (absorbed op gs) (operands op gs).
  destruct (absorbed op gs) eqn:Ea; [by destruct op|].
  destruct (operands_nf op gs Hgs Ea) as [Hn Hs].
  assert (forall x, x ∈ canon_list (operands op gs) <-> x ∈ operands op gs) as He by (intros; by apply canon_list_elem).
  assert (op = OpOr -> operands op gs <> []) as Hnil.
  { intros -> H. apply Hne. apply (fmap_nil_inv normalized).
    apply (flats_nil OpOr); [by apply normalized_nfs|exact Ea|done|exact H]. }
  destruct (canon_list _) as [|e [|e' es]].
  - destruct op; [split; [done|]; intros _ x; by rewrite <- He|]. exfalso. apply Hnil; [done|].
    apply elem_of_nil_inv. intros x Hx%He. by apply not_elem_of_nil in Hx.
  - rewrite Forall_forall in Hn, Hs. assert (e ∈ operands op gs) as Hin by (apply He; left).
    specialize (Hn _ Hin). specialize (Hs _ Hin). split.
    + destruct op; [done|]. by destruct Hn.
    + intros _ x. rewrite <- He. destruct op, Hn; try done; exfalso; by apply Hs.
  - by destruct op.
Qed.

Lemma operands_cons op c cs : operands op (c :: cs) = flat op (normalized c) ++ operands op cs.
Proof. done. Qed.
Lemma operands_app op cs ds : operands op (cs ++ ds) = operands op cs ++ operands op ds.
Proof. unfold operands. by rewrite !fmap_app, concat_app. Qed.
Lemma absorbed_cons op c cs : absorbed op (c :: cs) = absorbs op [normalized c] || absorbed op cs.
Proof. unfold absorbed, absorbs. destruct op; csimpl; by rewrite ?orb_false_r. Qed.
Lemma absorbed_app op cs ds : absorbed op (cs ++ ds) = absorbed op cs || absorbed op ds.
Proof. unfold absorbed, absorbs. destruct op; [done|]. by rewrite fmap_app, existsb_app. Qed.

Lemma normalize_nest op gs cs :
  gs <> [] -> Forall wf gs -> Forall wf cs ->
  normalize_children (combine op gs :: cs) op = normalize_children (gs ++ cs) op.
Proof.
  intros Hne Hgs Hcs. destruct (nested_operands op gs Hne Hgs) as [Ha Ho].
  apply normalize_children_ext.
  - constructor; [by apply wf_combine|done].
  - by apply Forall_app.
  - by rewrite absorbed_cons, absorbed_app, Ha.
  - rewrite absorbed_app, orb_false_iff. intros [Hg _] x.
    by rewrite operands_cons, operands_app, !elem_of_app, Ho.
Qed.

Lemma normalize_single op e : wf e -> normalize_children [e] op = normalized e.
Proof.
  intros He. rewrite normalize_children_eq. cbv zeta. csimpl. rewrite app_nil_r.
  destruct (normalized_nf e He) as [E|Hn]; [rewrite E; by destruct op|].
  assert (absorbs op [normalized e] = false) as -> by (apply absorbs_nf; by constructor).
  destruct op, Hn as [l Hl|cs Hl Hc _ Hsort|cs Hl Hc _ Hsort]; try done; simpl;
    rewrite canon_list_id by done; destruct cs as [|? [|]]; simpl in Hl; done || lia.
Qed.

Lemma normalize_perm op cs ds :
  Forall wf cs -> cs ≡ₚ ds -> normalize_children cs op = normalize_children ds op.
Proof.
  intros Hc Hp. apply normalize_children_ext; [done|by rewrite <- Hp|..].
  - unfold absorbed, absorbs. destruct op; [done|]. apply eq_true_iff_eq. rewrite !existsb_exists.
    setoid_rewrite <- list_elem_of_In. by setoid_rewrite Hp.
  - intros _ x. unfold operands. by rewrite Hp.
Qed.

(** Normalisation is canonical: expressions that differ only in the order, the
    grouping or the repetition of operands have the same normal form (so the same
    stored bytes). *)
Theorem normalized_equiv e f : expr_equiv e f -> wf e -> normalized e = normalized f.
Proof.
  intros H. induction H as [| e f H IH|e f g H1 IH1 H2 IH2|op cs ds Hp|op c cs|op e|op gs cs Hne|op c d cs H IH];
    intros Hw; rewrite ?normalized_combine; try apply wf_combine in Hw as [_ Hw].
  - done.
  - symmetry. apply IH. by apply (expr_equiv_wf _ _ H).
  - rewrite IH1 by done. apply IH2. by apply (expr_equiv_wf _ _ H1).
  - by apply normalize_perm.
  - apply normalize_children_ext; [done|by inversion Hw|..].
    + rewrite !absorbed_cons. by destruct (absorbs op _).
    + intros _ x. rewrite !operands_cons, !elem_of_app. tauto.
  - apply normalize_single. by inversion Hw.
  - apply Forall_cons in Hw as [[_ Hg]%wf_combine Hw]. by apply normalize_nest.
  - apply Forall_cons in Hw as [Hw Hcs]. apply normalize_children_ext.
    + by constructor.
    + constructor; [by apply (expr_equiv_wf _ _ H)|done].
    + rewrite !absorbed_cons. by rewrite IH.
    + intros _ x. rewrite !operands_cons. by rewrite IH.
Qed.

(** [b & (a & b)] and [a & b]. *)
Lemma normalized_equiv_witness :
  let a := Label (s2str "a") in let b := Label (s2str "b") in
  normalized (And [b; And [a; b]]) = normalized (And [a; b]).
Proof.
  intros a b. apply (normalized_equiv (And [b; And [a; b]]) (And [a; b])).
  - apply (eqv_trans _ (And [And [a; b]; b])). { apply (eqv_perm OpAnd), perm_swap. }
    apply (eqv_trans _ (And [a; b; b])). { by apply (eqv_nest OpAnd [a; b] [b]). }
    apply (eqv_trans _ (And [b; b; a])). { apply (eqv_perm OpAnd [a;b;b] [b;b;a]). rewrite perm_swap. apply perm_skip, perm_swap. }
    apply (eqv_trans _ (And [b; a])). { apply (eqv_dup OpAnd). }
    apply (eqv_perm OpAnd), perm_swap.
  - repeat constructor; done.
Defined.

(** ** Authorizations *)

(** More labels never hide data: evaluation is monotone in the authorizations. *)
Theorem evaluate_monotone v a b :
  labels a ⊆ labels b -> evaluate v a = true -> evaluate v b = true.
Proof.
  intros Hs. unfold evaluate. generalize (expr v). clear v.
  induction e as [|l|cs IH|cs IH] using Expr_nested_ind; simpl; [done| |rewrite !forallb_forall|rewrite !existsb_exists].
  - unfold auths_contains. rewrite !bool_decide_eq_true. set_solver.
  - intros H x Hx. rewrite Forall_forall in IH. by apply IH, H; [apply list_elem_of_In|].
  - rewrite Forall_forall in IH. intros (x & Hx & H). exists x. split; [done|]. by apply IH; [apply list_elem_of_In|].
Qed.

Lemma evaluate_monotone_witness :
  exists v, parse (s2str "a|b") = Ok v /\
    evaluate v (mkAuthorizations {[s2str "a"]}) = true /\
    evaluate v (mkAuthorizations {[s2str "a"; s2str "c"]}) = true.
Proof.
  eexists. split; [vm_compute; reflexivity|]. split; [vm_compute; reflexivity|].
  apply (evaluate_monotone _ (mkAuthorizations {[s2str "a"]})); [simpl; set_solver|vm_compute; reflexivity].
Defined.

Lemma auths_insert_all_spec a ls :
  auths_insert_all a ls =
  if forallb is_valid_label ls then Ok (mkAuthorizations (labels a ∪ list_to_set ls))
  else Err (InvalidVisibilityExpression "authorization label must be a valid identifier").
Proof.
  revert a. induction ls as [|l ls IH]; intros [a]; simpl.
  - f_equal. f_equal. set_solver.
  - unfold auths_insert. destruct (is_valid_label l); simpl; [|done]. rewrite IH. simpl.
    destruct (forallb _ _); [|done]. do 2 f_equal. set_solver.
Qed.

(** [Authorizations::from_labels] accepts exactly the lists of valid labels and
    then grants exactly those labels. *)
Theorem from_labels_spec ls :
  (forallb is_valid_label ls = true ->
     exists a, from_labels ls = Ok a /\ forall l, auths_contains a l = true <-> l ∈ ls) /\
  (forallb is_valid_label ls = false -> exists msg, from_labels ls = Err (InvalidVisibilityExpression msg)).
Proof.
  unfold from_labels. rewrite auths_insert_all_spec. split; intros ->; [|by eexists]. eexists. split; [done|].
  intros l. unfold auths_contains. rewrite bool_decide_eq_true. simpl. set_solver.
Qed.
