(* ===== verification/Store.v ===== *)
(** * The ordered key-value store under a keyspace

    The interface through which the secure layer ([src/src/secure]) uses a raw
    keyspace: point writes, point reads and ordered range scans, each of which can
    fail. A client's theorems are proved against the laws of [KeyspaceLaws]; the
    store itself (the LSM tree) is third-party code. [gmap_store] is an in-memory
    instance of the laws. *)

From stdpp Require Import base gmap list sorting.
From S2P Require Import Prelude Errors Composite.

(** ** Fallible state-passing computations *)

Definition StateR (S A : Type) : Type := S -> S * Result A.

Definition st_ret {S A} (a : A) : StateR S A := fun s => (s, Ok a).
Definition st_err {S A} (e : Error) : StateR S A := fun s => (s, Err e).
(** The [?] operator: an error stops the computation in the state reached. *)
Definition st_bind {S A B} (m : StateR S A) (f : A -> StateR S B) : StateR S B :=
  fun s => match m s with
           | (s', Ok a) => f a s'
           | (s', Err e) => (s', Err e)
           end.
Definition st_lift {S A} (r : Result A) : StateR S A := fun s => (s, r).
(** A read-only operation. *)
Definition st_read {S A} (f : S -> Result A) : StateR S A := fun s => (s, f s).

Declare Scope state_scope.
Delimit Scope state_scope with st.
Notation "x <- m ;; k" := (st_bind m (fun x => k))
  (at level 100, m at next level, k at level 200, right associativity) : state_scope.
Notation "m ;;; k" := (st_bind m (fun _ => k))
  (at level 100, k at level 200, right associativity) : state_scope.

Lemma st_bind_Ok {S A B} (m : StateR S A) (f : A -> StateR S B) s s' b :
  st_bind m f s = (s', Ok b) <-> exists t a, m s = (t, Ok a) /\ f a t = (s', Ok b).
Proof. unfold st_bind. destruct (m s) as [t [a|e]]; naive_solver. Qed.

Lemma st_lift_Ok {S A} (r : Result A) (s s' : S) a :
  st_lift r s = (s', Ok a) <-> s' = s /\ r = Ok a.
Proof. unfold st_lift. naive_solver. Qed.

Lemma result_pair {S A} (p : S * Result A) r : p.2 = r -> p = (p.1, r).
Proof. by intros <-; destruct p. Qed.

(** Inversion of a computation that returned [Ok]. *)
Ltac inv_st :=
  repeat match goal with
  | H : st_bind _ _ _ = (_, Ok _) |- _ =>
      let t := fresh "t" in let a := fresh "a" in let Ha := fresh "Ha" in
      apply st_bind_Ok in H as (t & a & Ha & H)
  | H : st_lift _ _ = (_, Ok _) |- _ =>
      let Hr := fresh "Hr" in apply st_lift_Ok in H as [-> Hr]
  | H : st_ret _ _ = (_, Ok _) |- _ => unfold st_ret in H; simplify_eq
  | H : st_err _ _ = (_, Ok _) |- _ => discriminate H
  end.

(** ** The interface *)

Abbreviation key_range := (Bound bytes * Bound bytes)%type.
Abbreviation entry := (bytes * bytes)%type.

(** What the [Readable] trait offers on a keyspace or a snapshot of it. *)
Class ReadableOps (S : Type) := {
  rd_get : bytes -> S -> Result (option bytes);
  (** The items of the iterator, each of which may be an I/O error. *)
  rd_range : key_range -> S -> list (Result entry)
}.

(** The writes of a keyspace. *)
Class KeyspaceOps (S : Type) := {
  ks_insert : bytes -> bytes -> StateR S ();
  ks_remove : bytes -> StateR S ()
}.

(** The entries of [m] in [r], in ascending key order. *)
Definition key_lt (a b : entry) : Prop := bytes_lt a.1 b.1.

Definition lists_range (m : gmap bytes bytes) (r : key_range) (l : list entry) : Prop :=
  StronglySorted key_lt l /\
  forall k v, (k, v) ∈ l <-> m !! k = Some v /\ in_range r k = true.

(** An iteration that delivers [l], or a prefix of it followed by an error. *)
Definition delivers (items : list (Result entry)) (l : list entry) : Prop :=
  items = Ok <$> l \/
  exists pre suf e rest, l = pre ++ suf /\ items = (Ok <$> pre) ++ Err e :: rest.

Class ReadableLaws (S : Type) `{!ReadableOps S} := {
  view : S -> gmap bytes bytes;
  get_law k s o : rd_get k s = Ok o -> o = view s !! k;
  range_law r s : exists l, lists_range (view s) r l /\ delivers (rd_range r s) l
}.

(** A failed write leaves the contents as they were. *)
Class KeyspaceLaws (S : Type) `{!ReadableOps S, !ReadableLaws S, !KeyspaceOps S} := {
  insert_law k v s s' r :
    ks_insert k v s = (s', r) ->
    view s' = if is_ok r then <[k := v]> (view s) else view s;
  remove_law k s s' r :
    ks_remove k s = (s', r) ->
    view s' = if is_ok r then delete k (view s) else view s
}.

(** ** Ordered listings are unique *)

#[export] Instance key_lt_transitive : Transitive key_lt.
Proof. intros a b c. unfold key_lt. apply transitivity. Qed.
#[export] Instance key_lt_irreflexive : Irreflexive key_lt.
Proof. intros a H. by apply (irreflexivity bytes_lt a.1). Qed.

Lemma key_lt_NoDup l : StronglySorted key_lt l -> NoDup l.
Proof. apply StronglySorted_NoDup, _. Qed.

(** A list sorted by an asymmetric relation is determined by its elements. *)
Lemma sorted_asym_unique {A} (R : A -> A -> Prop) (l1 l2 : list A) :
  (forall x y, R x y -> R y x -> False) ->
  StronglySorted R l1 -> StronglySorted R l2 -> (forall x, x ∈ l1 <-> x ∈ l2) -> l1 = l2.
Proof.
  intros HR H1. revert l2. induction H1 as [|x l1 Hs IH Hx]; intros l2 H2 He.
  - symmetry. apply elem_of_nil_inv. intros y Hy. apply (not_elem_of_nil y), He, Hy.
  - destruct H2 as [|y l2 Hs2 Hy]; [exfalso; apply (not_elem_of_nil x), He; left|].
    rewrite Forall_forall in Hx, Hy.
    assert (x = y) as <-.
    { assert (x ∈ y :: l2) as Hxy by (apply He; left). assert (y ∈ x :: l1) as Hyx by (apply He; left).
      apply elem_of_cons in Hxy as [?|Hxy], Hyx as [?|Hyx]; try done. exfalso. apply (HR x y); auto. }
    f_equal. apply IH; [done|]. intros z. specialize (He z). rewrite !elem_of_cons in He.
    split; intros Hz.
    + destruct (proj1 He (or_intror Hz)) as [->|]; [|done]. exfalso. apply (HR x x); by apply Hx.
    + destruct (proj2 He (or_intror Hz)) as [->|]; [|done]. exfalso. apply (HR x x); by apply Hy.
Qed.

Lemma sorted_elements_unique (l1 l2 : list entry) :
  StronglySorted key_lt l1 -> StronglySorted key_lt l2 -> (forall x, x ∈ l1 <-> x ∈ l2) -> l1 = l2.
Proof.
  apply sorted_asym_unique. intros x y H1 H2. apply (irreflexivity key_lt x). by trans y.
Qed.

Lemma lists_range_unique m r l1 l2 : lists_range m r l1 -> lists_range m r l2 -> l1 = l2.
Proof.
  intros [H1 E1] [H2 E2]. apply sorted_elements_unique; [done..|]. intros [k v]. by rewrite E1, E2.
Qed.

(** ** An in-memory instance *)

(** Insertion into a list sorted by key. *)
Fixpoint insert_entry (e : entry) (l : list entry) : list entry :=
  match l with
  | [] => [e]
  | f :: l => if decide (bytes_lt e.1 f.1) then e :: f :: l else f :: insert_entry e l
  end.

Definition sorted_entries (m : gmap bytes bytes) : list entry :=
  foldr insert_entry [] (map_to_list m).

Definition range_entries (m : gmap bytes bytes) (r : key_range) : list entry :=
  filter (fun e => in_range r e.1 = true) (sorted_entries m).

Lemma insert_entry_perm e l : insert_entry e l ≡ₚ e :: l.
Proof.
  induction l as [|f l IH]; simpl; [done|]. case_decide; [done|]. rewrite IH. apply perm_swap.
Qed.

Lemma insert_entry_sorted e l :
  StronglySorted key_lt l -> Forall (fun f => f.1 <> e.1) l -> StronglySorted key_lt (insert_entry e l).
Proof.
  induction 1 as [|f l Hs IH Hf]; simpl; intros Hn; [by repeat constructor|].
  apply Forall_cons in Hn as [Hn Hns]. case_decide as Hlt.
  - constructor; [by constructor|]. constructor; [done|].
    apply (Forall_impl _ _ _ Hf). intros g Hg. unfold key_lt in *. by trans f.1.
  - constructor; [by apply IH|]. rewrite insert_entry_perm. constructor; [|done].
    unfold key_lt. apply bytes_not_le. by intros [H|H]%bytes_le_lt_eq; [|destruct Hn].
Qed.

Lemma sorted_entries_perm m : sorted_entries m ≡ₚ map_to_list m.
Proof.
  unfold sorted_entries. induction (map_to_list m) as [|e l IH]; simpl; [done|].
  by rewrite insert_entry_perm, IH.
Qed.

Lemma sorted_entries_sorted m : StronglySorted key_lt (sorted_entries m).
Proof.
  unfold sorted_entries. pose proof (NoDup_fst_map_to_list m) as Hnd.
  induction (map_to_list m) as [|e l IH]; simpl; [constructor|].
  csimpl in Hnd. apply NoDup_cons in Hnd as [Hn Hnd].
  apply insert_entry_sorted; [by apply IH|].
  assert (foldr insert_entry [] l ≡ₚ l) as ->.
  { clear. induction l as [|e l IH]; simpl; [done|]. by rewrite insert_entry_perm, IH. }
  apply Forall_forall. intros f Hf Heq. apply Hn. rewrite <- Heq. by apply list_elem_of_fmap_2.
Qed.

Lemma StronglySorted_filter {A} (R : A -> A -> Prop) (P : A -> Prop) `{!forall x, Decision (P x)} l :
  StronglySorted R l -> StronglySorted R (filter P l).
Proof.
  induction 1 as [|x l Hs IH Hx]; [constructor|]. rewrite filter_cons. case_decide; [|done].
  constructor; [done|]. rewrite Forall_forall in *. intros y [_ Hy]%list_elem_of_filter. auto.
Qed.

Lemma range_entries_spec m r : lists_range m r (range_entries m r).
Proof.
  split; [apply StronglySorted_filter, sorted_entries_sorted|].
  intros k v. unfold range_entries.
  rewrite list_elem_of_filter, sorted_entries_perm, elem_of_map_to_list. simpl. tauto.
Qed.

#[export] Instance gmap_readable_ops : ReadableOps (gmap bytes bytes) := {|
  rd_get k m := Ok (m !! k);
  rd_range r m := Ok <$> range_entries m r
|}.

#[export] Instance gmap_store_ops : KeyspaceOps (gmap bytes bytes) := {|
  ks_insert k v m := (<[k := v]> m, Ok ());
  ks_remove k m := (delete k m, Ok ())
|}.

#[export] Program Instance gmap_readable_laws : ReadableLaws (gmap bytes bytes) := {| view m := m |}.
Next Obligation. intros. simpl in *. by simplify_eq. Qed.
Next Obligation. intros. exists (range_entries s r). split; [apply range_entries_spec|by left]. Qed.

#[export] Program Instance gmap_store_laws : KeyspaceLaws (gmap bytes bytes).
Next Obligation. intros. simpl in *. by simplify_eq. Qed.
Next Obligation. intros. simpl in *. by simplify_eq. Qed.

(** ** Scans

    The loop of the versioned scans: each item is decoded by [step], which decides
    whether it contributes an entry, and the loop stops when [satisfied] accepts the
    number of entries collected so far. *)

Fixpoint scan_loop {A} (step : entry -> Result (option A)) (satisfied : nat -> bool)
    (items : list (Result entry)) (entries : list A) : Result (list A) :=
  match items with
  | [] => Ok entries
  | guard :: items =>
      kv ← guard;
      o ← step kv;
      let entries := entries ++ option_list o in
      if satisfied (length entries) then Ok entries else scan_loop step satisfied items entries
  end.

(** [count >= max] for an optional limit. *)
Definition reaches (max : option nat) (count : nat) : bool :=
  match max with None => false | Some n => (n <=? count)%nat end.

Definition limit {A} (max : option nat) (l : list A) : list A :=
  match max with Some n => take n l | None => l end.

(** What [step] selects from an entry. *)
Definition selected {A} (step : entry -> Result (option A)) (kv : entry) : option A :=
  match step kv with Ok o => o | Err _ => None end.

Lemma omap_cons_list {A B} (f : A -> option B) x l :
  omap f (x :: l) = option_list (f x) ++ omap f l.
Proof. csimpl. by destruct (f x). Qed.

Lemma delivers_nil l : delivers [] l -> l = [].
Proof.
  intros [E|(pre & suf & e & rest & _ & E)]; [by destruct l|by destruct pre].
Qed.

Lemma delivers_cons kv items l : delivers (Ok kv :: items) l -> exists l', l = kv :: l' /\ delivers items l'.
Proof.
  intros [E|(pre & suf & e & rest & -> & E)].
  - destruct l as [|kv' l]; csimpl in E; simplify_eq. exists l. split; [done|by left].
  - destruct pre as [|kv' pre]; csimpl in E; simplify_eq.
    exists (pre ++ suf). split; [done|]. right. by exists pre, suf, e, rest.
Qed.

Lemma reaches_app {A} max (acc l : list A) :
  reaches max (length acc) = false -> reaches max (length (acc ++ l)) = false \/
  exists n, max = Some n /\ (length acc < n <= length (acc ++ l))%nat.
Proof.
  unfold reaches. destruct max as [n|]; [|by left]. rewrite !Nat.leb_gt. intros H.
  destruct (decide (n <= length (acc ++ l))%nat); [right; exists n; split; [done|lia]|left; lia].
Qed.

(** What a successful scan returns, whatever the store delivered. *)
Lemma scan_loop_Ok {A} step max items l (acc es : list A) :
  delivers items l -> reaches max (length acc) = false ->
  scan_loop step (reaches max) items acc = Ok es -> es = limit max (acc ++ omap (selected step) l).
Proof.
  revert l acc. induction items as [|[kv|e] items IH]; intros l acc Hd Hacc; simpl; [| |done].
  - apply delivers_nil in Hd as ->. simpl. rewrite app_nil_r. intros [= <-].
    destruct max as [n|]; [|done]. simpl in *. apply Nat.leb_gt in Hacc. by rewrite take_ge by lia.
  - apply delivers_cons in Hd as (l' & -> & Hd). intros H. inv_ok. rewrite omap_cons_list, app_assoc.
    assert (selected step kv = x) as -> by (unfold selected; by rewrite Hx).
    assert (length (option_list x) <= 1)%nat as Hle by (destruct x; simpl; lia).
    destruct (reaches_app max acc (option_list x) Hacc) as [Hr|(n & -> & Hn)].
    + rewrite Hr in H. by apply IH.
    + assert (n = length (acc ++ option_list x)) as -> by (rewrite length_app in *; lia).
      unfold reaches in H. rewrite Nat.leb_refl in H. inv_ok. simpl. by rewrite take_app_length.
Qed.

(** When the store delivers every entry and every entry decodes, the scan succeeds. *)
Lemma scan_loop_total {A} step max l (acc : list A) :
  Forall (fun kv => is_ok (step kv) = true) l ->
  exists es, scan_loop step (reaches max) (Ok <$> l) acc = Ok es.
Proof.
  intros Hl. revert acc. induction Hl as [|kv l Hkv _ IH]; intros acc; csimpl; [by eexists|].
  destruct (step kv) as [o|e]; [|done]. simpl. destruct (reaches _ _); [by eexists|]. apply IH.
Qed.

(** With a limit of zero the first item a scan reads decides: it is tested before the
    limit is. *)
Lemma scan_loop_zero {A} step items l (es : list A) :
  delivers items l -> scan_loop step (reaches (Some 0%nat)) items [] = Ok es -> es = option_list (head l ≫= selected step).
Proof.
  intros [->|(pre & suf & e & rest & -> & ->)].
  - destruct l as [|kv l]; cbn; [by intros [= <-]|]. unfold selected. destruct (step kv) as [[a|]|]; cbn; by intros [= <-].
  - destruct pre as [|kv pre]; cbn; [done|]. unfold selected. destruct (step kv) as [[a|]|]; cbn; by intros [= <-].
Qed.
