(* ===== verification/Cell.v ===== *)
(** * Versioned cells

    Models [src/src/secure/cell.rs]: versions of a cell are stored under composite
    keys, so a scan of a version group returns its versions newest first. *)

From stdpp Require Import base gmap list sorting.
From S2P Require Import Prelude Errors Composite Store.

#[local] Open Scope state_scope.

(** ** Data *)

Record Cell := mkCell { c_row : bytes; c_family : bytes; c_qualifier : bytes; c_visibility : bytes }.

Record VersionedCell := mkVersionedCell { vc_cell : Cell; vc_timestamp : Z }.

Record VersionedEntry := mkVersionedEntry { ve_cell : VersionedCell; ve_value : bytes }.

#[export] Instance Cell_eq_dec : EqDecision Cell.
Proof. solve_decision. Defined.
#[export] Instance VersionedCell_eq_dec : EqDecision VersionedCell.
Proof. solve_decision. Defined.
#[export] Instance VersionedEntry_eq_dec : EqDecision VersionedEntry.
Proof. solve_decision. Defined.

Definition version (c : Cell) (timestamp : Z) : VersionedCell := mkVersionedCell c timestamp.

Definition composite_prefix (c : Cell) : CompositePrefix :=
  mkCompositePrefix (Some (c_row c)) (Some (c_family c)) (Some (c_qualifier c)) (Some (c_visibility c)).

Definition composite_key_from (vc : VersionedCell) : CompositeKey :=
  let c := vc_cell vc in
  mkCompositeKey (c_row c) (c_family c) (c_qualifier c) (c_visibility c) (vc_timestamp vc).

Definition versioned_cell_from (k : CompositeKey) : VersionedCell :=
  mkVersionedCell (mkCell (row k) (family k) (qualifier k) (visibility k)) (timestamp k).

Definition cell_encode (vc : VersionedCell) : Result bytes := encode (composite_key_from vc).

Record VersionScan := mkVersionScan {
  min_timestamp : option Z;
  max_timestamp : option Z;
  max_versions : option nat
}.

Definition default_scan : VersionScan := mkVersionScan None None None.

Definition includes (scan : VersionScan) (timestamp : Z) : bool :=
  match min_timestamp scan with None => true | Some min => min <=? timestamp end &&
  match max_timestamp scan with None => true | Some max => timestamp <=? max end.

Definition is_satisfied_by (scan : VersionScan) (count : nat) : bool :=
  match max_versions scan with None => false | Some max => (max <=? count)%nat end.

(** ** Reads on anything readable ([VersionedCellReadExt]) *)

Section reads.
Context `{PrefixRange} {S : Type} `{!ReadableOps S}.

(** The body of the scan loop: decode the key, keep the entry if its timestamp is
    asked for. *)
Definition scan_step (scan : VersionScan) (kv : entry) : Result (option VersionedEntry) :=
  k ← decode kv.1;
  let cell := versioned_cell_from k in
  Ok (if includes scan (vc_timestamp cell) then Some (mkVersionedEntry cell kv.2) else None).

Definition scan_versioned_prefix (prefix : CompositePrefix) (scan : VersionScan) (s : S) :
    Result (list VersionedEntry) :=
  r ← range prefix;
  scan_loop (scan_step scan) (is_satisfied_by scan) (rd_range r s) [].

Definition scan_versions (c : Cell) (scan : VersionScan) (s : S) : Result (list VersionedEntry) :=
  scan_versioned_prefix (composite_prefix c) scan s.

Definition latest_version (c : Cell) (s : S) : Result (option VersionedEntry) :=
  entries ← scan_versions c (mkVersionScan None None (Some 1%nat)) s;
  Ok (head entries).

Definition get_version (vc : VersionedCell) (s : S) : Result (option bytes) :=
  key ← cell_encode vc;
  rd_get key s.
End reads.

(** ** Writes on a keyspace ([VersionedCellKeyspaceExt]) *)

Section writes.
Context `{PrefixRange} {S : Type} `{!ReadableOps S, !KeyspaceOps S}.

Definition insert_version (vc : VersionedCell) (value : bytes) : StateR S () :=
  key <- st_lift (cell_encode vc) ;;
  ks_insert key value.

Definition delete_version (vc : VersionedCell) : StateR S () :=
  key <- st_lift (cell_encode vc) ;;
  ks_remove key.

(** The first loop of [delete_versions_matching]: the keys to delete. *)
Fixpoint matching_keys (predicate : Z -> bool) (items : list (Result entry)) (keys : list bytes) :
    Result (list bytes) :=
  match items with
  | [] => Ok keys
  | guard :: items =>
      kv ← guard;
      k ← decode kv.1;
      let cell := versioned_cell_from k in
      matching_keys predicate items (if predicate (vc_timestamp cell) then keys ++ [kv.1] else keys)
  end.

(** The second loop. *)
Fixpoint remove_keys (keys : list bytes) : StateR S () :=
  match keys with
  | [] => st_ret ()
  | key :: keys => ks_remove key ;;; remove_keys keys
  end.

Definition delete_versions_matching (c : Cell) (predicate : Z -> bool) : StateR S () :=
  r <- st_lift (range (composite_prefix c)) ;;
  keys <- st_read (fun s => matching_keys predicate (rd_range r s) []) ;;
  remove_keys keys.

Definition delete_versions (c : Cell) : StateR S () :=
  delete_versions_matching c (fun _ => true).

Definition delete_versions_older_than (c : Cell) (timestamp : Z) : StateR S () :=
  delete_versions_matching c (fun version => version <? timestamp).
End writes.

(** ** Conversions *)

Lemma composite_key_from_to k : composite_key_from (versioned_cell_from k) = k.
Proof. by destruct k. Qed.
Lemma versioned_cell_from_to vc : versioned_cell_from (composite_key_from vc) = vc.
Proof. by destruct vc as [[] ?]. Qed.

(** The composite key an entry is stored under, when its key decodes. *)
Definition entry_cell (kv : entry) : option VersionedEntry :=
  match decode kv.1 with
  | Ok k => Some (mkVersionedEntry (versioned_cell_from k) kv.2)
  | Err _ => None
  end.

(** The encoded key of an entry. *)
Definition stored_key (e : VersionedEntry) : bytes := encoded (composite_key_from (ve_cell e)).

Lemma entry_cell_Some kv e :
  entry_cell kv = Some e <-> kv = (stored_key e, ve_value e) /\ is_i64 (vc_timestamp (ve_cell e)).
Proof.
  unfold entry_cell, stored_key. destruct kv as [key value]. simpl. split.
  - destruct (decode key) as [k|] eqn:E; [|done]. intros [= <-]. simpl.
    rewrite composite_key_from_to. apply decode_Ok in E as [-> Hk]. done.
  - intros [[= -> ->] Hw]. rewrite decode_encoded by done. rewrite versioned_cell_from_to. by destruct e.
Qed.

(** The newest-first order of the entries of a scan. *)
Definition entry_before (a b : VersionedEntry) : Prop :=
  cmp_logical (composite_key_from (ve_cell a)) (composite_key_from (ve_cell b)) = Lt.

Definition entry_ok (e : VersionedEntry) : Prop := is_i64 (vc_timestamp (ve_cell e)).

Lemma entry_before_key a b :
  entry_ok a -> entry_ok b -> (entry_before a b <-> bytes_lt (stored_key a) (stored_key b)).
Proof. intros Ha Hb. unfold entry_before, bytes_lt, stored_key. by rewrite encoded_cmp. Qed.

Lemma entry_before_asym a b : entry_before a b -> entry_before b a -> False.
Proof.
  unfold entry_before, cmp_logical.
  generalize (composite_key_from (ve_cell a)), (composite_key_from (ve_cell b)). intros k l.
  rewrite (bytes_cmp_antisym (row k)), (bytes_cmp_antisym (family k)), (bytes_cmp_antisym (qualifier k)),
    (bytes_cmp_antisym (visibility k)), (Z.compare_antisym (timestamp l)).
  destruct (bytes_cmp (row k) _), (bytes_cmp (family k) _), (bytes_cmp (qualifier k) _),
    (bytes_cmp (visibility k) _), (timestamp l ?= timestamp k); done.
Qed.

Lemma omap_entries_sorted (f : entry -> option VersionedEntry) l :
  (forall kv e, f kv = Some e -> entry_cell kv = Some e) ->
  StronglySorted key_lt l -> StronglySorted entry_before (omap f l).
Proof.
  intros Hf. induction 1 as [|kv l Hs IH Hkv]; [constructor|]. csimpl.
  destruct (f kv) as [e|] eqn:E; [|done]. constructor; [done|].
  rewrite Forall_forall in Hkv. apply Forall_forall. intros e' (kv' & Hin & E')%list_elem_of_omap.
  apply Hf, entry_cell_Some in E as [-> Hw], E' as [-> Hw'].
  apply entry_before_key; [done..|]. by apply (Hkv _ Hin).
Qed.

Lemma range_encoded `{PrefixRange} p r k :
  range p = Ok r -> in_range r (encoded k) = prefix_matches p k.
Proof.
  intros Hr. unfold range in Hr. inv_ok. destruct (prefix_fields_matches p _ k Hx) as [Hl Hm].
  apply eq_true_iff_eq. rewrite prefix_to_range_spec, encode_prefix_fields_encoded by done. exact Hm.
Qed.

(** ** What a scan returns *)

(** The stored entries a scan asks for. *)
Definition wanted (m : gmap bytes bytes) (prefix : CompositePrefix) (scan : VersionScan)
    (e : VersionedEntry) : Prop :=
  m !! stored_key e = Some (ve_value e) /\ entry_ok e /\
  prefix_matches prefix (composite_key_from (ve_cell e)) = true /\
  includes scan (vc_timestamp (ve_cell e)) = true.

(** [l] lists them all, newest version first within a cell. *)
Definition lists_wanted (m : gmap bytes bytes) (prefix : CompositePrefix) (scan : VersionScan)
    (l : list VersionedEntry) : Prop :=
  StronglySorted entry_before l /\ forall e, e ∈ l <-> wanted m prefix scan e.

Section reads_ok.
Context `{PrefixRange} {S : Type} `{!ReadableOps S, !ReadableLaws S}.

(** The entries a successful scan loop has chosen from. *)
Lemma scan_prefix_Ok {A} (step : entry -> Result (option A)) scan r (s : S) es :
  max_versions scan <> Some 0%nat ->
  scan_loop step (is_satisfied_by scan) (rd_range r s) [] = Ok es ->
  exists l, lists_range (view s) r l /\ es = limit (max_versions scan) (omap (selected step) l).
Proof.
  intros Hmax Hs. destruct (range_law r s) as (l & Hl & Hd). exists l. split; [done|].
  change (is_satisfied_by scan) with (reaches (max_versions scan)) in Hs.
  eapply (scan_loop_Ok step _ _ _ []); [done| |done].
  unfold reaches. destruct (max_versions scan) as [[]|]; done.
Qed.

Lemma selected_scan_step scan kv e :
  selected (scan_step scan) kv = Some e <->
  entry_cell kv = Some e /\ includes scan (vc_timestamp (ve_cell e)) = true.
Proof.
  unfold selected, scan_step, entry_cell. destruct (decode kv.1) as [k|]; simpl; [|by split; [|intros []]].
  destruct (includes scan (timestamp k)) eqn:E; split; try done.
  - by intros [= <-].
  - by intros [? _].
  - intros [[= <-] Hi]. simpl in Hi. congruence.
Qed.

(** The stored entries in a prefix range, by composite key. *)
Lemma lists_range_entries prefix r m l e :
  range prefix = Ok r -> lists_range m r l ->
  (exists kv, kv ∈ l /\ entry_cell kv = Some e) <->
  m !! stored_key e = Some (ve_value e) /\ entry_ok e /\
  prefix_matches prefix (composite_key_from (ve_cell e)) = true.
Proof.
  intros Hr [_ Hl]. split.
  - intros ([k v] & Hin & [[= -> ->] Hw]%entry_cell_Some). apply Hl in Hin as [Hm Hin].
    unfold stored_key in Hin. rewrite (range_encoded _ _ _ Hr) in Hin. done.
  - intros (Hm & Hw & Hp). exists (stored_key e, ve_value e). split; [|by apply entry_cell_Some].
    apply Hl. split; [done|]. unfold stored_key. by rewrite (range_encoded _ _ _ Hr).
Qed.

Lemma scan_Ok prefix scan (s : S) es :
  max_versions scan <> Some 0%nat -> scan_versioned_prefix prefix scan s = Ok es ->
  exists l, lists_wanted (view s) prefix scan l /\ es = limit (max_versions scan) l.
Proof.
  intros Hmax Hs. unfold scan_versioned_prefix in Hs. inv_ok.
  destruct (scan_prefix_Ok _ _ _ _ _ Hmax Hs) as (l & Hl & ->).
  eexists. split; [|done]. split.
  - apply omap_entries_sorted; [|apply Hl]. by intros ?? [? _]%selected_scan_step.
  - intros e. rewrite list_elem_of_omap. setoid_rewrite selected_scan_step. unfold wanted.
    destruct (lists_range_entries prefix x (view s) l e Hx Hl) as [H1 H2]. split.
    + intros (kv & Hin & He & Hi). destruct H1 as (? & ? & ?); [by exists kv|done].
    + intros (Hm & Hw & Hp & Hi). destruct H2 as (kv & ? & ?); [done|by exists kv].
Qed.
End reads_ok.

(** ** Version groups *)

Lemma prefix_matches_cell c vc :
  prefix_matches (composite_prefix c) (composite_key_from vc) = true <-> vc_cell vc = c.
Proof.
  unfold prefix_matches, field_matches. simpl. rewrite !andb_true_iff, !bool_decide_eq_true.
  destruct c, vc as [[] ?]; simpl. naive_solver.
Qed.

Lemma entry_before_group a b :
  vc_cell (ve_cell a) = vc_cell (ve_cell b) -> entry_before a b ->
  vc_timestamp (ve_cell b) < vc_timestamp (ve_cell a).
Proof.
  unfold entry_before, cmp_logical. simpl. intros ->. by rewrite !bytes_cmp_refl.
Qed.

(** ** Properties of the reads *)

(** A versioned scan returns exactly the stored entries of the prefix whose
    timestamps are in the requested window, in composite-key order (newest version
    first within a cell), cut off after [max_versions] of them. *)
Theorem scan_versioned_prefix_spec `{PrefixRange} {St} `{!ReadableOps St, !ReadableLaws St} prefix scan (s : St) es :
  scan_versioned_prefix prefix scan s = Ok es -> max_versions scan <> Some 0%nat ->
  exists l, lists_wanted (view s) prefix scan l /\ es = limit (max_versions scan) l.
Proof. intros Hs Hm. by apply scan_Ok. Qed.

(** [latest_version] returns the version with the greatest timestamp stored for
    the cell, and [None] exactly when no version is stored. *)
Theorem latest_version_spec `{PrefixRange} {St} `{!ReadableOps St, !ReadableLaws St} c (s : St) o :
  latest_version c s = Ok o ->
  let versions e := wanted (view s) (composite_prefix c) default_scan e in
  match o with
  | Some e => versions e /\ forall e', versions e' -> vc_timestamp (ve_cell e') <= vc_timestamp (ve_cell e)
  | None => forall e, ~ versions e
  end.
Proof.
  intros Ho versions. unfold latest_version in Ho. inv_ok.
  apply scan_Ok in Hx as (l & [Hs Hl] & ->); [|done]. simpl.
  assert (forall e, e ∈ l <-> versions e) as Hv by apply Hl. clear Hl.
  destruct Hs as [|e l Hs He]; simpl.
  { intros e He%Hv. by apply not_elem_of_nil in He. }
  split; [apply Hv; left|]. intros e' [->|He']%Hv%elem_of_cons; [lia|].
  rewrite Forall_forall in He. specialize (He _ He').
  assert (versions e /\ versions e') as [(_ & _ & Hc & _) (_ & _ & Hc' & _)] by (rewrite <- !Hv; split; by constructor).
  apply prefix_matches_cell in Hc, Hc'. apply entry_before_group in He; [lia|congruence].
Qed.


(** ** Properties of the writes *)

(** The keys of the versions of [c] that satisfy [predicate]. *)
Definition is_matching_version (c : Cell) (predicate : Z -> bool) (key : bytes) : bool :=
  match decode key with
  | Ok k => bool_decide (vc_cell (versioned_cell_from k) = c) && predicate (timestamp k)
  | Err _ => false
  end.

Section writes_ok.
Context `{PrefixRange} {St : Type} `{!ReadableOps St, !ReadableLaws St, !KeyspaceOps St, !KeyspaceLaws St}.

Lemma matching_keys_Ok predicate items l acc keys :
  delivers items l -> matching_keys predicate items acc = Ok keys ->
  forall key, key ∈ keys <->
    key ∈ acc \/ exists v k, (key, v) ∈ l /\ decode key = Ok k /\ predicate (timestamp k) = true.
Proof.
  revert l acc. induction items as [|[kv|e] items IH]; intros l acc Hd Hk key; simpl in Hk; [| |done].
  - apply delivers_nil in Hd as ->. inv_ok. split; [by left|]. intros [?|(v & k & Hin & _)]; [done|].
    by apply not_elem_of_nil in Hin.
  - apply delivers_cons in Hd as (l' & -> & Hd). inv_ok. destruct kv as [key' v']. simpl in *.
    rewrite (IH _ _ Hd Hk). setoid_rewrite elem_of_cons. destruct (predicate (timestamp x)) eqn:E.
    + rewrite elem_of_app, list_elem_of_singleton. split.
      * intros [[?| ->]|(v & k & ?)]; [by left| |right; naive_solver]. right. exists v', x. naive_solver.
      * intros [?|(v & k & [[= -> ->]|?] & ? & ?)]; naive_solver.
    + split; [naive_solver|]. intros [?|(v & k & [[= -> ->]|?] & ? & ?)]; [by left| |right; naive_solver].
      congruence.
Qed.

(** Removing keys one by one: an error leaves the later ones in place. *)
Lemma remove_keys_view keys (s s' : St) res :
  remove_keys keys s = (s', res) ->
  (forall key, view s' !! key = view s !! key \/ (key ∈ keys /\ view s' !! key = None)) /\
  (res = Ok () -> forall key, key ∈ keys -> view s' !! key = None).
Proof.
  revert s. induction keys as [|k keys IH]; intros s Hr; simpl in Hr.
  { unfold st_ret in Hr. simplify_eq. split; [by left|]. intros _ key Hin. by apply not_elem_of_nil in Hin. }
  unfold st_bind in Hr. destruct (ks_remove k s) as [t [[]|e]] eqn:E; pose proof (remove_law _ _ _ _ E) as Ht; simpl in Ht.
  - destruct (IH _ Hr) as [H1 H2]. split.
    + intros key. destruct (H1 key) as [Hk|[Hin Hk]]; [|right; by rewrite elem_of_cons; auto].
      rewrite Hk, Ht. destruct (decide (key = k)) as [->|Hne].
      * right. rewrite lookup_delete_eq. split; [left|done].
      * left. by rewrite lookup_delete_ne.
    + intros -> key [->|Hin]%elem_of_cons; [|by apply H2].
      destruct (H1 k) as [Hk|[_ Hk]]; [|done]. by rewrite Hk, Ht, lookup_delete_eq.
  - simplify_eq. split; [|done]. intros key. left. by rewrite Ht.
Qed.

Lemma delete_versions_matching_view c predicate (s s' : St) res :
  delete_versions_matching c predicate s = (s', res) ->
  (forall key, view s' !! key = view s !! key \/
     (is_matching_version c predicate key = true /\ view s' !! key = None)) /\
  (res = Ok () -> forall key, is_matching_version c predicate key = true -> view s' !! key = None).
Proof.
  unfold delete_versions_matching, st_bind, st_lift, st_read.
  destruct (range (composite_prefix c)) as [r|e] eqn:Er; [|intros [= <- <-]; split; [by left|done]].
  destruct (matching_keys _ _ _) as [keys|e] eqn:Ek; [|intros [= <- <-]; split; [by left|done]].
  destruct (range_law r s) as (l & [Hs Hl] & Hd).
  pose proof (matching_keys_Ok _ _ _ _ _ Hd Ek) as Hkeys.
  intros Hr. destruct (remove_keys_view _ _ _ _ Hr) as [H1 H2].
  assert (forall key, key ∈ keys -> is_matching_version c predicate key = true) as Hm.
  { intros key [Hin|(v & k & Hin & Hk & Hp)]%Hkeys; [by apply not_elem_of_nil in Hin|].
    unfold is_matching_version. rewrite Hk, Hp, andb_true_r, bool_decide_eq_true.
    apply Hl in Hin as [_ Hin]. apply decode_Ok in Hk as [-> _].
    rewrite (range_encoded _ _ _ Er), <- (composite_key_from_to k), prefix_matches_cell in Hin. by rewrite composite_key_from_to in Hin || done. }
  split.
  { intros key. destruct (H1 key) as [?|[? ?]]; [by left|right; auto]. }
  intros -> key Hmatch.
  destruct (H1 key) as [Hk|[_ Hk]]; [|done]. destruct (view s !! key) as [v|] eqn:Ev; [|done].
  apply H2; [done|]. apply Hkeys. right. unfold is_matching_version in Hmatch.
  destruct (decode key) as [k|] eqn:Edec; [|done]. apply andb_true_iff in Hmatch as [Hc Hp].
  apply bool_decide_eq_true in Hc. exists v, k. split; [|done]. apply Hl. split; [done|].
  apply decode_Ok in Edec as [-> _]. rewrite (range_encoded _ _ _ Er), <- (composite_key_from_to k).
  by apply prefix_matches_cell.
Qed.

(** [delete_versions_older_than] removes every version of the cell with a
    timestamp below the cutoff and nothing else; if it fails part-way, what it
    removed so far are such versions. *)
Theorem delete_versions_older_than_spec c cutoff (s s' : St) res :
  delete_versions_older_than c cutoff s = (s', res) ->
  let old := is_matching_version c (fun t => t <? cutoff) in
  (forall key, view s' !! key = view s !! key \/ (old key = true /\ view s' !! key = None)) /\
  (res = Ok () -> forall key, old key = true -> view s' !! key = None).
Proof. apply delete_versions_matching_view. Qed.

(** After a version is written, reading it returns the value written and every
    other version reads as before. *)
Theorem insert_get_version vc vc' value (s s' : St) o :
  insert_version vc value s = (s', Ok ()) -> is_i64 (vc_timestamp vc) -> is_i64 (vc_timestamp vc') ->
  get_version vc' s' = Ok o ->
  if decide (vc' = vc) then o = Some value else forall o', get_version vc' s = Ok o' -> o = o'.
Proof.
  intros Hi Hw Hw' Hg. unfold insert_version, get_version, cell_encode in *. inv_st. inv_ok.
  apply encode_Ok in Hr as [-> _]. apply encode_Ok in Hx as [-> Hlen].
  apply get_law in Hg. apply insert_law in Hi. simpl in Hi. rewrite Hg, Hi. case_decide as Heq; [subst; by rewrite lookup_insert_eq|].
  intros o' Ho'. inv_ok. apply encode_Ok in Hx as [-> _]. apply get_law in Ho'. rewrite Ho'.
  apply lookup_insert_ne. intros E. apply Heq.
  assert (decode (encoded (composite_key_from vc)) = decode (encoded (composite_key_from vc'))) as E' by by rewrite E.
  rewrite !decode_encoded in E' by done. injection E' as E'. destruct vc as [[] ?], vc' as [[] ?]. simpl in *. by simplify_eq.
Qed.
End writes_ok.

(** ** Witnesses *)

Definition sample_cell : Cell := mkCell [Byte.x72] [Byte.x66] [Byte.x71] [Byte.x76].
Definition sample_version (t : Z) : VersionedCell := version sample_cell t.

(** A store with versions 1 to 3 of a cell and one version of another row. *)
Definition sample_store : gmap bytes bytes :=
  ((insert_version (sample_version 1) [Byte.x61] ;;;
   insert_version (sample_version 3) [Byte.x63] ;;;
   insert_version (sample_version 2) [Byte.x62] ;;;
   insert_version (version (mkCell [Byte.x73] [Byte.x66] [Byte.x71] [Byte.x76]) 9) [Byte.x7a])%st (∅ : gmap bytes bytes)).1.

Lemma scan_versioned_prefix_spec_witness :
  let scan := mkVersionScan (Some 2) None (Some 5%nat) in
  let es := [mkVersionedEntry (sample_version 3) [Byte.x63]; mkVersionedEntry (sample_version 2) [Byte.x62]] in
  scan_versioned_prefix (composite_prefix sample_cell) scan sample_store = Ok es /\
  exists l, lists_wanted (view sample_store) (composite_prefix sample_cell) scan l /\ es = limit (Some 5%nat) l.
Proof.
  split; [vm_compute; reflexivity|].
  apply (scan_versioned_prefix_spec (composite_prefix sample_cell) (mkVersionScan (Some 2) None (Some 5%nat)) sample_store);
    [vm_compute; reflexivity|done].
Defined.

Lemma latest_version_spec_witness :
  wanted sample_store (composite_prefix sample_cell) default_scan (mkVersionedEntry (sample_version 3) [Byte.x63]).
Proof.
  refine (proj1 (latest_version_spec sample_cell sample_store (Some (mkVersionedEntry (sample_version 3) [Byte.x63])) _)).
  vm_compute. reflexivity.
Defined.

Lemma delete_versions_older_than_spec_witness :
  (delete_versions_older_than sample_cell 3 sample_store).2 = Ok () /\
  (forall key, is_matching_version sample_cell (fun t => t <? 3) key = true ->
     view (delete_versions_older_than sample_cell 3 sample_store).1 !! key = None).
Proof.
  assert ((delete_versions_older_than sample_cell 3 sample_store).2 = Ok ()) as E by (vm_compute; reflexivity).
  split; [exact E|].
  pose proof (delete_versions_older_than_spec sample_cell 3 sample_store _ _
    (result_pair _ _ E)) as Hspec. exact (proj2 Hspec eq_refl).
Defined.

Lemma insert_get_version_witness :
  let m := insert_version (sample_version 7) [Byte.x67] in
  m sample_store = ((m sample_store).1, Ok ()) /\
  get_version (sample_version 7) (m sample_store).1 = Ok (Some [Byte.x67]).
Proof.
  intros m. assert ((m sample_store).2 = Ok ()) as E by (vm_compute; reflexivity).
  assert (get_version (sample_version 7) (m sample_store).1 = Ok (Some [Byte.x67])) as Hg by (vm_compute; reflexivity).
  split; [exact (result_pair _ _ E)|].
  pose proof (insert_get_version (sample_version 7) (sample_version 7) [Byte.x67] sample_store _ _
    (result_pair _ _ E) ltac:(done) ltac:(done) Hg) as Hres. exact Hg.
Defined.

(** A limit of zero is not honoured: the limit is tested only after an entry was
    pushed, so a scan with [max_versions] zero returns an entry when the first stored
    one matches. *)
Theorem scan_zero_limit :
  scan_versions sample_cell (mkVersionScan None None (Some 0%nat)) sample_store =
  Ok [mkVersionedEntry (sample_version 3) [Byte.x63]].
Proof. vm_compute. reflexivity. Qed.
