(* ===== verification/Crypto.v ===== *)
(** * Value encryption

    Models [src/src/secure/crypto.rs]: a value is stored as a marker, the length of
    the ciphertext and the ciphertext. The cipher itself is a provider supplied by
    the application, a parameter here. *)

From stdpp Require Import base list strings.
From S2P Require Import Prelude Errors Utf8 Visibility.

Inductive EncryptionScope := ScopeValue | ScopeBlock | ScopeKeyspace.

Record CryptoContext := mkCryptoContext {
  ctx_keyspace : str;
  ctx_key : bytes;
  ctx_scope : EncryptionScope
}.

(** The [CryptoProvider] trait. *)
Record CryptoProvider := mkCryptoProvider {
  provider_encrypt : CryptoContext -> bytes -> Result bytes;
  provider_decrypt : CryptoContext -> bytes -> Result bytes
}.

Record EncryptionConfig := mkEncryptionConfig { provider : CryptoProvider; scope : EncryptionScope }.

Record ValueEncryption := mkValueEncryption { logical_keyspace : str; config : EncryptionConfig }.

(** [b"fjall:secure:v1:"]. *)
Definition VALUE_ENCRYPTION_MAGIC : bytes := str_bytes (s2str "fjall:secure:v1:").

(** [ValueEncryption::context]. *)
Definition context (ve : ValueEncryption) (encoded_key : bytes) : CryptoContext :=
  mkCryptoContext (logical_keyspace ve) encoded_key (scope (config ve)).

Definition encrypt_value (ve : ValueEncryption) (encoded_key value : bytes) : Result bytes :=
  ciphertext ← provider_encrypt (provider (config ve)) (context ve encoded_key) value;
  let ciphertext_len := Z.of_nat (length ciphertext) in
  if decide (u32_max < ciphertext_len) then Err (Crypto "ciphertext exceeds u32 length")
  else Ok (VALUE_ENCRYPTION_MAGIC ++ be_bytes 4 ciphertext_len ++ ciphertext).

(** [slice::strip_prefix]. *)
Fixpoint strip_prefix (prefix s : bytes) : option bytes :=
  match prefix, s with
  | [], _ => Some s
  | p :: prefix, b :: s => if decide (p = b) then strip_prefix prefix s else None
  | _ :: _, [] => None
  end.

Definition parse_stored_ciphertext (stored : bytes) : Result bytes :=
  rest ← ok_or (strip_prefix VALUE_ENCRYPTION_MAGIC stored) (Crypto "encrypted value marker missing");
  if decide (length rest < 4)%nat then Err (Crypto "encrypted value length missing")
  else
    let len := be_val (take 4 rest) in
    let ciphertext := drop 4 rest in
    if decide (Z.of_nat (length ciphertext) <> len) then Err (Crypto "encrypted value length mismatch")
    else Ok ciphertext.

Definition decrypt_value (ve : ValueEncryption) (encoded_key stored : bytes) : Result bytes :=
  ciphertext ← parse_stored_ciphertext stored;
  provider_decrypt (provider (config ve)) (context ve encoded_key) ciphertext.

Definition maybe_encrypt_value (encryption : option ValueEncryption) (encoded_key value : bytes) : Result bytes :=
  match encryption with
  | Some encryption => encrypt_value encryption encoded_key value
  | None => Ok value
  end.

Definition maybe_decrypt_entry (encryption : option ValueEncryption) (encoded_key value : bytes) : Result bytes :=
  match encryption with
  | Some encryption => decrypt_value encryption encoded_key value
  | None => Ok value
  end.

(** What an encryption provider promises: under the same context, decrypting what
    was encrypted gives the plaintext back. *)
Definition provider_correct (p : CryptoProvider) : Prop :=
  forall ctx plain cipher, provider_encrypt p ctx plain = Ok cipher -> provider_decrypt p ctx cipher = Ok plain.

Definition encryption_correct (encryption : option ValueEncryption) : Prop :=
  match encryption with Some ve => provider_correct (provider (config ve)) | None => True end.

(** ** Framing *)

Lemma strip_prefix_app p s : strip_prefix p (p ++ s) = Some s.
Proof. induction p as [|b p IH]; simpl; [done|]. by rewrite decide_True. Qed.

Lemma strip_prefix_Some p s r : strip_prefix p s = Some r -> s = p ++ r.
Proof.
  revert s. induction p as [|b p IH]; intros s; simpl; [by intros [= ->]|].
  destruct s as [|c s]; [done|]. case_decide; [|done]. subst. intros ->%IH. done.
Qed.

(** The stored form of a ciphertext. *)
Definition framed (ciphertext : bytes) : bytes :=
  VALUE_ENCRYPTION_MAGIC ++ be_bytes 4 (Z.of_nat (length ciphertext)) ++ ciphertext.

Lemma parse_framed c : Z.of_nat (length c) <= u32_max -> parse_stored_ciphertext (framed c) = Ok c.
Proof.
  intros Hc. unfold parse_stored_ciphertext, framed. rewrite strip_prefix_app.
  assert (be_val (be_bytes 4 (Z.of_nat (length c))) = Z.of_nat (length c)) as Hv
    by (apply be_val_bytes; unfold u32_max in Hc; simpl; lia).
  pose proof (be_bytes_length 4 (Z.of_nat (length c))) as Hl.
  revert Hv Hl. generalize (be_bytes 4 (Z.of_nat (length c))). intros len Hv Hl. cbn [ok_or mbind Result_bind].
  rewrite decide_False by (rewrite length_app; lia).
  rewrite take_app_length', drop_app_length' by done. by rewrite Hv, decide_False by lia.
Qed.

Lemma parse_stored_Ok stored c :
  parse_stored_ciphertext stored = Ok c -> stored = framed c /\ Z.of_nat (length c) <= u32_max.
Proof.
  unfold parse_stored_ciphertext. intros H. inv_ok. destruct (strip_prefix _ _) as [r|] eqn:E; [|done].
  simpl in Hx. inv_ok. case_decide as Hl; [done|]. case_decide as Hlen; [done|]. inv_ok.
  apply strip_prefix_Some in E as ->.   assert (length (take 4 x) = 4%nat) as Ht by (rewrite length_take; lia).
  pose proof (be_val_bound (take 4 x)) as Hb. rewrite Ht in Hb. unfold framed.
  split; [|unfold u32_max; simpl in Hb; lia].
  pose proof (be_bytes_val (take 4 x)) as Hv. rewrite Ht in Hv. by rewrite Hlen, Hv, take_drop.
Qed.

Lemma encrypt_value_Ok ve key value stored :
  encrypt_value ve key value = Ok stored ->
  exists c, provider_encrypt (provider (config ve)) (context ve key) value = Ok c /\
    Z.of_nat (length c) <= u32_max /\ stored = framed c.
Proof.
  unfold encrypt_value. destruct (provider_encrypt _ _ _) as [c|]; cbn [mbind Result_bind]; [|done].
  fold (framed c). case_decide; [done|]. intros E. exists c. split; [done|]. split; [lia|congruence].
Qed.

(** The encrypted form of a value reads back as that value under the same key
    and keyspace, for every encryption provider that decrypts what it encrypted. *)
Theorem encrypt_decrypt_roundtrip ve key value stored :
  provider_correct (provider (config ve)) -> encrypt_value ve key value = Ok stored ->
  decrypt_value ve key stored = Ok value.
Proof.
  intros Hp (c & Hc & Hl & ->)%encrypt_value_Ok.
  unfold decrypt_value. rewrite parse_framed by done. by apply Hp.
Qed.

(** The repository's test provider: every byte is combined with a key byte. *)
Definition xor_byte (key b : byte) : byte := byte_of_Z (Z.lxor (bval b) (bval key)).
Definition xor_provider (key : byte) : CryptoProvider := {|
  provider_encrypt _ plain := Ok (xor_byte key <$> plain);
  provider_decrypt _ cipher := Ok (xor_byte key <$> cipher)
|}.

Lemma log2_byte z : 0 <= z < 256 -> Z.log2 z < 8.
Proof. intros H. destruct (decide (z = 0)) as [->|]; [done|]. apply Z.log2_lt_pow2; lia. Qed.

Lemma xor_byte_involutive key b : xor_byte key (xor_byte key b) = b.
Proof.
  unfold xor_byte. rewrite bval_byte_of_Z, Z.mod_small.
  - by rewrite Z.lxor_assoc, Z.lxor_nilpotent, Z.lxor_0_r, byte_of_Z_bval.
  - pose proof (bval_bound b). pose proof (bval_bound key). split; [apply Z.lxor_nonneg; lia|].
    destruct (decide (Z.lxor (bval b) (bval key) = 0)) as [->|Hne]; [lia|].
    change 256 with (2 ^ 8). apply Z.log2_lt_pow2; [pose proof (Z.lxor_nonneg (bval b) (bval key)); lia|].
    eapply Z.le_lt_trans; [apply Z.log2_lxor; lia|].
    apply Z.max_lub_lt; by apply log2_byte.
Qed.

Lemma xor_provider_correct key : provider_correct (xor_provider key).
Proof.
  intros ctx plain cipher [= <-]. simpl. rewrite <- list_fmap_compose. f_equal.
  rewrite <- (list_fmap_id plain) at 2. apply list_fmap_ext. intros. apply xor_byte_involutive.
Qed.

Definition sample_encryption : ValueEncryption :=
  mkValueEncryption (s2str "events") (mkEncryptionConfig (xor_provider Byte.x5a) ScopeValue).

Lemma encrypt_decrypt_roundtrip_witness :
  let plain := str_bytes (s2str "plaintext") in
  exists stored, encrypt_value sample_encryption [Byte.x6b] plain = Ok stored /\
    decrypt_value sample_encryption [Byte.x6b] stored = Ok plain.
Proof.
  intros plain. eexists. split; [vm_compute; reflexivity|].
  apply (encrypt_decrypt_roundtrip sample_encryption [Byte.x6b] plain); [apply xor_provider_correct|vm_compute; reflexivity].
Defined.

(** A stored value is handed to the provider only if it has the exact stored form
    of a ciphertext: anything else is rejected before decryption. *)
Theorem decrypt_rejects_unframed ve key stored :
  (exists c, stored = framed c /\ Z.of_nat (length c) <= u32_max /\
     decrypt_value ve key stored = provider_decrypt (provider (config ve)) (context ve key) c) \/
  (exists msg, decrypt_value ve key stored = Err (Crypto msg)).
Proof.
  unfold decrypt_value. destruct (parse_stored_ciphertext stored) as [c|e] eqn:E.
  - left. exists c. by apply parse_stored_Ok in E as [-> Hc].
  - right. unfold parse_stored_ciphertext in E. destruct (strip_prefix _ _); simpl in E; [|by simplify_eq; eexists].
    repeat case_decide; simplify_eq; by eexists.
Qed.
