(* ===== verification/Providers.v ===== *)
(** * Security providers and audit

    Models [src/src/secure/audit.rs] and [src/src/secure/providers.rs]: the audit
    configuration, authentication, permission checks and the built-in providers.
    The world [W] is the state the audit sink (an application object) writes to. *)

From stdpp Require Import base gmap list strings.
From S2P Require Import Prelude Errors Utf8 Visibility Store.

#[local] Open Scope state_scope.

(** ** Permissions and credentials *)

Record Credentials := mkCredentials { principal : str; secret : bytes }.

Inductive SystemPermission := CreateKeyspace | DropKeyspace | ManageUsers | ManagePolicies | SysCompact.

Inductive KeyspacePermission := PRead | PWrite | PDelete | PCompact | PAlter.

#[export] Instance SystemPermission_eq_dec : EqDecision SystemPermission.
Proof. solve_decision. Defined.
#[export] Instance KeyspacePermission_eq_dec : EqDecision KeyspacePermission.
Proof. solve_decision. Defined.

Definition as_str (p : KeyspacePermission) : string :=
  match p with
  | PRead => "keyspace:read"
  | PWrite => "keyspace:write"
  | PDelete => "keyspace:delete"
  | PCompact => "keyspace:compact"
  | PAlter => "keyspace:alter"
  end.

(** ** Audit *)

Inductive CompactionDeleteReason := MaxVersions | Ttl.

Inductive AuditFailureMode := BestEffort | FailClosed.

Inductive AuditEvent (I : Type) :=
  | AuthenticationSucceeded (identity : I)
  | AuthenticationFailed
  | AuthorizationDenied (identity : I) (keyspace : str)
  | PolicyViolation (keyspace : str)
  | CompactionDeleted (keyspace : str) (reason : CompactionDeleteReason)
  | KeyspaceAccess (identity : I) (keyspace : str).
Arguments AuthenticationSucceeded {I} identity.
Arguments AuthenticationFailed {I}.
Arguments AuthorizationDenied {I} identity keyspace.
Arguments PolicyViolation {I} keyspace.
Arguments CompactionDeleted {I} keyspace reason.
Arguments KeyspaceAccess {I} identity keyspace.

Record AuditConfig (W I : Type) := mkAuditConfig {
  sink : AuditEvent I -> StateR W ();
  failure_mode : AuditFailureMode
}.
Arguments mkAuditConfig {W I} sink failure_mode.
Arguments sink {W I} a.
Arguments failure_mode {W I} a.

(** [AuditConfig::record]. *)
Definition record {W I} (audit : AuditConfig W I) (event : AuditEvent I) : StateR W () :=
  fun w => match sink audit event w with
           | (w, Ok ()) => (w, Ok ())
           | (w, Err _) =>
               match failure_mode audit with
               | BestEffort => (w, Ok ())
               | FailClosed => (w, Err (Audit "audit sink failed"))
               end
           end.

(** ** The provider set *)

Record Session (I : Type) := mkSession { identity : I; auths : Authorizations }.
Arguments mkSession {I} identity auths.
Arguments identity {I} s.
Arguments auths {I} s.

(** The three provider traits and the optional audit configuration. *)
Record SecurityProviders (W I : Type) := mkSecurityProviders {
  authenticator : Credentials -> Result (option I);
  has_system_permission : I -> SystemPermission -> bool;
  has_keyspace_permission : I -> str -> KeyspacePermission -> bool;
  authorizor : I -> Result Authorizations;
  audit : option (AuditConfig W I)
}.
Arguments mkSecurityProviders {W I} authenticator has_system_permission has_keyspace_permission authorizor audit.
Arguments authenticator {W I} s.
Arguments has_system_permission {W I} s.
Arguments has_keyspace_permission {W I} s.
Arguments authorizor {W I} s.
Arguments audit {W I} s.

Section providers.
Context {W I : Type}.

Definition record_audit (p : SecurityProviders W I) (event : AuditEvent I) : StateR W () :=
  match audit p with
  | Some audit => record audit event
  | None => st_ret ()
  end.

(** [SecurityProviders::new]. *)
Definition security_providers_new (a : Credentials -> Result (option I)) (sys : I -> SystemPermission -> bool)
    (ks : I -> str -> KeyspacePermission -> bool) (z : I -> Result Authorizations) : SecurityProviders W I :=
  mkSecurityProviders a sys ks z None.

(** [with_audit_sink]. *)
Definition with_audit_sink (p : SecurityProviders W I) (s : AuditEvent I -> StateR W ())
    (mode : AuditFailureMode) : SecurityProviders W I :=
  mkSecurityProviders (authenticator p) (has_system_permission p) (has_keyspace_permission p) (authorizor p)
    (Some (mkAuditConfig s mode)).

Definition authenticate (p : SecurityProviders W I) (credentials : Credentials) : StateR W (Session I) :=
  o <- st_lift (authenticator p credentials) ;;
  match o with
  | None => record_audit p AuthenticationFailed ;;; st_err AuthenticationDenied
  | Some identity =>
      auths <- st_lift (authorizor p identity) ;;
      record_audit p (AuthenticationSucceeded identity) ;;;
      st_ret (mkSession identity auths)
  end.

Definition check_keyspace_permission (p : SecurityProviders W I) (identity : I) (keyspace : str)
    (permission : KeyspacePermission) : StateR W () :=
  if has_keyspace_permission p identity keyspace permission then
    record_audit p (KeyspaceAccess identity keyspace)
  else
    record_audit p (AuthorizationDenied identity keyspace) ;;;
    st_err (PermissionDenied (as_str permission)).
End providers.

(** ** Built-in providers *)

Record StaticAuthenticator (I : Type) := mkStaticAuthenticator { identities : gmap str (bytes * I) }.
Arguments mkStaticAuthenticator {I} identities.
Arguments identities {I} s.

Definition static_authenticator_new {I} : StaticAuthenticator I := mkStaticAuthenticator ∅.

Definition with_principal {I} (a : StaticAuthenticator I) (principal : str) (secret : bytes) (identity : I) :
    StaticAuthenticator I :=
  mkStaticAuthenticator (<[principal := (secret, identity)]> (identities a)).

Definition static_authenticate {I} (a : StaticAuthenticator I) (credentials : Credentials) : Result (option I) :=
  Ok (match identities a !! principal credentials with
      | Some (s, identity) => if decide (s = secret credentials) then Some identity else None
      | None => None
      end).

Definition allow_all_system {I} (identity : I) (permission : SystemPermission) : bool := true.

Definition allow_all_keyspace {I} (identity : I) (keyspace : str) (permission : KeyspacePermission) : bool := true.

(** [StaticPermissionHandler]: sets of permissions as lists. *)
Record StaticPermissionHandler := mkStaticPermissionHandler {
  system_permissions : list SystemPermission;
  keyspace_permissions : gmap str (list KeyspacePermission)
}.

Definition static_permissions_new : StaticPermissionHandler := mkStaticPermissionHandler [] ∅.

Definition with_system_permission (h : StaticPermissionHandler) (p : SystemPermission) : StaticPermissionHandler :=
  mkStaticPermissionHandler (p :: system_permissions h) (keyspace_permissions h).

Definition with_keyspace_permission (h : StaticPermissionHandler) (keyspace : str) (p : KeyspacePermission) :
    StaticPermissionHandler :=
  mkStaticPermissionHandler (system_permissions h)
    (<[keyspace := p :: default [] (keyspace_permissions h !! keyspace)]> (keyspace_permissions h)).

Definition static_has_system_permission {I} (h : StaticPermissionHandler) (identity : I) (p : SystemPermission) : bool :=
  bool_decide (p ∈ system_permissions h).

Definition static_has_keyspace_permission {I} (h : StaticPermissionHandler) (identity : I) (keyspace : str)
    (p : KeyspacePermission) : bool :=
  match keyspace_permissions h !! keyspace with
  | Some permissions => bool_decide (p ∈ permissions)
  | None => false
  end.

Definition static_authorizations {I} (auths : Authorizations) (identity : I) : Result Authorizations := Ok auths.

(** ** Properties *)

(** With a fail-closed sink, an authenticated session exists only if the sink
    recorded the success; authentication never yields a session for credentials the
    authenticator denied, and a session carries the authorizations of its identity. *)
Theorem authenticate_sound {W I} (p : SecurityProviders W I) credentials w w' s :
  authenticate p credentials w = (w', Ok s) ->
  authenticator p credentials = Ok (Some (identity s)) /\
  authorizor p (identity s) = Ok (auths s) /\
  record_audit p (AuthenticationSucceeded (identity s)) w = (w', Ok ()).
Proof.
  unfold authenticate. intros H. inv_st. destruct a as [i|]; inv_st.
  destruct a0. done.
Qed.

(** The events a recording sink has seen. *)
Definition log_sink {I} (event : AuditEvent I) : StateR (list (AuditEvent I)) () :=
  fun log => (log ++ [event], Ok ()).
Definition failing_sink {W I} (event : AuditEvent I) : StateR W () := st_err (Io IoErrorOther).

Definition sample_providers : SecurityProviders (list (AuditEvent nat)) nat :=
  mkSecurityProviders
    (static_authenticate (with_principal static_authenticator_new (s2str "alice") (str_bytes (s2str "secret")) 7%nat))
    (static_has_system_permission static_permissions_new)
    (static_has_keyspace_permission
       (with_keyspace_permission static_permissions_new (s2str "events") PRead))
    (static_authorizations (mkAuthorizations {[s2str "admin"]}))
    (Some (mkAuditConfig log_sink FailClosed)).

Lemma authenticate_sound_witness :
  let c := mkCredentials (s2str "alice") (str_bytes (s2str "secret")) in
  authenticator sample_providers c = Ok (Some 7%nat) /\
  (authenticate sample_providers c []).1 = [AuthenticationSucceeded 7%nat].
Proof.
  intros c. split; [|vm_compute; reflexivity].
  refine (proj1 (authenticate_sound sample_providers c [] [AuthenticationSucceeded 7%nat]
    (mkSession 7%nat (mkAuthorizations {[s2str "admin"]})) _)). vm_compute. reflexivity.
Defined.

(** A permission check succeeds exactly when the handler grants the permission and
    the access could be audited (always, for a best-effort sink); a denial is audited
    as such and is an error in every audit mode. *)
Theorem check_permission_spec {W I} (p : SecurityProviders W I) i keyspace permission w :
  let granted := has_keyspace_permission p i keyspace permission in
  let event := if granted then KeyspaceAccess i keyspace else AuthorizationDenied i keyspace in
  let outcome := match audit p with Some a => sink a event w | None => (w, Ok ()) end in
  let fail_closed := match audit p with
                     | Some a => match failure_mode a with FailClosed => true | BestEffort => false end
                     | None => false
                     end in
  check_keyspace_permission p i keyspace permission w =
  (outcome.1,
   if fail_closed && negb (is_ok outcome.2) then Err (Audit "audit sink failed")
   else if granted then Ok () else Err (PermissionDenied (as_str permission))).
Proof.
  unfold check_keyspace_permission, record_audit, record, st_bind, st_ret, st_err.
  destruct (has_keyspace_permission _ _ _ _), (audit p) as [a|]; simpl; try done;
    destruct (sink a _ w) as [w' [[]|e]]; simpl; rewrite ?andb_false_r; try done; by destruct (failure_mode a).
Qed.
