(* ===== verification/Policy.v ===== *)
(** * Retention policies and the compaction filter

    Models [src/src/secure/policy.rs]: the filter a compaction runs over the
    ascending stream of keys, which removes the versions beyond the newest
    [max_versions] of a group and the versions older than [ttl]. *)

From stdpp Require Import base gmap list sorting strings.
From S2P Require Import Prelude Errors Utf8 Visibility Composite Store Cell Providers.

#[local] Open Scope state_scope.

(** A [Duration], as whole seconds and nanoseconds. *)
Record Duration := mkDuration { secs : Z; nanos : Z }.

Definition is_zero (d : Duration) : bool := bool_decide (secs d = 0) && bool_decide (nanos d = 0).

Record RetentionPolicy := mkRetentionPolicy { rp_max_versions : option nat; ttl : option Duration }.

Definition validate (p : RetentionPolicy) : Result () :=
  if bool_decide (rp_max_versions p = Some 0%nat) then
    Err (InvalidPolicy "max_versions must be greater than zero")
  else
    match ttl p with
    | Some ttl => if is_zero ttl then Err (InvalidPolicy "ttl must be greater than zero") else Ok ()
    | None => Ok ()
    end.

(** The physical group of a version. *)
Record VersionGroup := mkVersionGroup { g_row : bytes; g_family : bytes; g_qualifier : bytes; g_visibility : bytes }.

#[export] Instance VersionGroup_eq_dec : EqDecision VersionGroup.
Proof. solve_decision. Defined.

Definition version_group_from (k : CompositeKey) : VersionGroup :=
  mkVersionGroup (row k) (family k) (qualifier k) (visibility k).

Record SecureCompactionPolicy (W I : Type) := mkSecureCompactionPolicy {
  policy_keyspace : str;
  retention : RetentionPolicy;
  policy_audit : option (AuditConfig W I)
}.
Arguments mkSecureCompactionPolicy {W I} policy_keyspace retention policy_audit.
Arguments policy_keyspace {W I} s.
Arguments retention {W I} s.
Arguments policy_audit {W I} s.

(** [SecureCompactionPolicy::new]. *)
Definition compaction_policy_new {W I} (keyspace : str) (r : RetentionPolicy) (audit : option (AuditConfig W I)) :
    Result (SecureCompactionPolicy W I) :=
  _ ← validate r;
  Ok (mkSecureCompactionPolicy keyspace r audit).

(** [SecureRetentionFilter]: the policy and the clock reading are fixed for the
    lifetime of a filter. *)
Record FilterState := mkFilterState { current_group : option VersionGroup; versions_seen : nat }.

(** [make_filter]. *)
Definition fresh_filter : FilterState := mkFilterState None 0.

Inductive Verdict := Keep | Remove.

#[export] Instance Verdict_eq_dec : EqDecision Verdict.
Proof. solve_decision. Defined.

Definition is_expired (r : RetentionPolicy) (now : Z) (timestamp : Z) : bool :=
  match ttl r with
  | None => false
  | Some ttl =>
      if decide (i64_max < secs ttl) then false
      else timestamp <=? i64_sat_sub now (secs ttl)
  end.

Section filter.
Context {W I : Type} (policy : SecureCompactionPolicy W I) (now : Z).

Definition audit_delete (reason : CompactionDeleteReason) : StateR W () :=
  match policy_audit policy with
  | Some audit => record audit (CompactionDeleted (policy_keyspace policy) reason)
  | None => st_ret ()
  end.

(** [to_lsm_error]: every failure of the filter is unrecoverable for the LSM tree. *)
Definition to_lsm_error : Error := Storage LsmUnrecoverable.

Definition or_lsm_error {A} (m : StateR W A) : StateR W A :=
  fun w => match m w with
           | (w, Ok a) => (w, Ok a)
           | (w, Err _) => (w, Err to_lsm_error)
           end.

Definition filter_item (f : FilterState) (key : bytes) : StateR W (FilterState * Verdict) :=
  k <- or_lsm_error (st_lift (decode key)) ;;
  let group := version_group_from k in
  let f := if decide (current_group f = Some group) then f else mkFilterState (Some group) 0 in
  let f := mkFilterState (current_group f) (versions_seen f + 1) in
  if match rp_max_versions (retention policy) with Some max => (max <? versions_seen f)%nat | None => false end then
    or_lsm_error (audit_delete MaxVersions) ;;; st_ret (f, Remove)
  else if is_expired (retention policy) now (timestamp k) then
    or_lsm_error (audit_delete Ttl) ;;; st_ret (f, Remove)
  else st_ret (f, Keep).

(** A compaction: the filter runs over the stream of keys and keeps those with the
    verdict [Keep]. *)
Fixpoint run_filter (f : FilterState) (keys : list bytes) : StateR W (list bytes) :=
  match keys with
  | [] => st_ret []
  | key :: keys =>
      fv <- filter_item f key ;;
      kept <- run_filter fv.1 keys ;;
      st_ret (if decide (fv.2 = Keep) then key :: kept else kept)
  end.
End filter.

(** ** What a compaction keeps *)

(** Versions of the group of [k] in the stream that are newer than [k]. *)
Definition newer_versions (all : list CompositeKey) (k : CompositeKey) : nat :=
  length (filter (fun k' => version_group_from k' = version_group_from k /\ timestamp k < timestamp k') all).

(** The policy as a predicate on a version: fewer than [max_versions] newer versions
    and not expired. *)
Definition retained (r : RetentionPolicy) (now : Z) (all : list CompositeKey) (k : CompositeKey) : bool :=
  match rp_max_versions r with Some max => (newer_versions all k <? max)%nat | None => true end &&
  negb (is_expired r now (timestamp k)).

Definition key_before (a b : CompositeKey) : Prop := bytes_lt (encoded a) (encoded b).

(** The filter without the audit. *)
Definition next_state (f : FilterState) (k : CompositeKey) : FilterState :=
  let f := if decide (current_group f = Some (version_group_from k)) then f
           else mkFilterState (Some (version_group_from k)) 0 in
  mkFilterState (current_group f) (versions_seen f + 1).

Definition keeps (r : RetentionPolicy) (now : Z) (f : FilterState) (k : CompositeKey) : bool :=
  match rp_max_versions r with Some max => (versions_seen f <=? max)%nat | None => true end &&
  negb (is_expired r now (timestamp k)).

Fixpoint kept_keys (r : RetentionPolicy) (now : Z) (f : FilterState) (ks : list CompositeKey) : list CompositeKey :=
  match ks with
  | [] => []
  | k :: ks =>
      let f := next_state f k in
      if keeps r now f k then k :: kept_keys r now f ks else kept_keys r now f ks
  end.

Section compaction.
Context {W I : Type} (policy : SecureCompactionPolicy W I) (now : Z).

Lemma filter_item_Ok f key w w' fv :
  filter_item policy now f key w = (w', Ok fv) ->
  exists k, key = encoded k /\ key_wf k /\ fv.1 = next_state f k /\
    (fv.2 = Keep <-> keeps (retention policy) now (next_state f k) k = true).
Proof.
  unfold filter_item. intros H. inv_st. unfold or_lsm_error, st_lift in Ha.
  destruct (decode key) as [k|] eqn:E; [|done]. simplify_eq. apply decode_Ok in E as [-> Hk].
  exists a. split; [done|]. split; [done|]. fold (next_state f a) in H. unfold keeps.
  assert ((match rp_max_versions (retention policy) with
           | Some max => (max <? versions_seen (next_state f a))%nat | None => false end) =
          negb (match rp_max_versions (retention policy) with
           | Some max => (versions_seen (next_state f a) <=? max)%nat | None => true end)) as Hmax.
  { destruct (rp_max_versions _); [|done]. by rewrite Nat.leb_antisym, negb_involutive. }
  rewrite Hmax in H.
  destruct (match rp_max_versions (retention policy) with Some max => _ | None => _ end); simpl in H;
    [destruct (is_expired _ _ _); simpl in H|]; inv_st; done.
Qed.

Lemma run_filter_Ok f keys w w' kept :
  run_filter policy now f keys w = (w', Ok kept) ->
  exists ks, keys = encoded <$> ks /\ Forall key_wf ks /\
    kept = encoded <$> kept_keys (retention policy) now f ks.
Proof.
  revert f w kept. induction keys as [|key keys IH]; intros f w kept H; simpl in H.
  { inv_st. by exists []. }
  inv_st. apply filter_item_Ok in Ha as (k & -> & Hk & Hf & Hv).
  apply IH in Ha0 as (ks & -> & Hks & ->). rewrite Hf in *. exists (k :: ks). split; [done|]. split; [by constructor|].
  simpl. destruct (keeps _ _ _ _); case_decide as Hd; rewrite Hv in Hd; done.
Qed.
End compaction.

(** ** Versions of a group are adjacent *)

Definition group_fields (g : VersionGroup) : list bytes := [g_row g; g_family g; g_qualifier g; g_visibility g].

Lemma group_prefix g k :
  in_range (prefix_to_range (encode_prefix_fields (group_fields g))) (encoded k) = true <->
  version_group_from k = g.
Proof.
  rewrite prefix_to_range_spec, encode_prefix_fields_encoded by done.
  unfold group_fields, key_fields, version_group_from. destruct g, k; simpl. split.
  - intros E%prefix_length_eq; [by simplify_eq|done].
  - by intros [= -> -> -> ->].
Qed.

Lemma in_range_convex r a b c :
  in_range r a = true -> in_range r c = true -> bytes_lt a b -> bytes_lt b c -> in_range r b = true.
Proof.
  unfold in_range. rewrite !andb_true_iff. intros [Ha _] [_ Hc] Hab Hbc. split.
  - destruct r as [[lo|lo|] ?]; simpl in *; try done; apply bool_decide_eq_true in Ha; apply bool_decide_eq_true.
    + etrans; [exact Ha|by apply bytes_lt_le].
    + by etrans.
  - destruct r as [? [hi|hi|]]; simpl in *; try done; apply bool_decide_eq_true in Hc; apply bool_decide_eq_true.
    + etrans; [by apply bytes_lt_le|exact Hc].
    + by etrans.
Qed.

Lemma group_contiguous a b c :
  key_before a b -> key_before b c -> version_group_from a = version_group_from c ->
  version_group_from b = version_group_from c.
Proof.
  intros Hab Hbc Hg. apply group_prefix. eapply in_range_convex; [| |exact Hab|exact Hbc]; by apply group_prefix.
Qed.

Lemma key_before_group a b :
  key_wf a -> key_wf b -> version_group_from a = version_group_from b ->
  key_before a b -> timestamp b < timestamp a.
Proof.
  intros Ha Hb. unfold key_before, bytes_lt, version_group_from. rewrite encoded_cmp by done. unfold cmp_logical.
  intros [= -> -> -> ->]. by rewrite !bytes_cmp_refl.
Qed.

Definition group_count (g : VersionGroup) (ks : list CompositeKey) : nat :=
  length (filter (fun k => version_group_from k = g) ks).

Lemma filter_ext_in {A} (P Q : A -> Prop) `{!forall x, Decision (P x), !forall x, Decision (Q x)} (l : list A) :
  (forall x, x ∈ l -> (P x <-> Q x)) -> filter P l = filter Q l.
Proof.
  induction l as [|x l IH]; intros E; [done|]. rewrite !filter_cons.
  rewrite (decide_ext (P x) (Q x)) by (apply E; left). rewrite IH by (intros; apply E; by right). done.
Qed.

Lemma filter_none {A} (P : A -> Prop) `{!forall x, Decision (P x)} (l : list A) :
  (forall x, x ∈ l -> ~ P x) -> filter P l = [].
Proof.
  intros E. apply elem_of_nil_inv. intros x [Hp Hx]%list_elem_of_filter. by apply (E x).
Qed.

(** In the sorted stream the newer versions of [k] are those of its group before it. *)
Lemma newer_versions_before seen k rest :
  StronglySorted key_before (seen ++ k :: rest) -> Forall key_wf (seen ++ k :: rest) ->
  newer_versions (seen ++ k :: rest) k = group_count (version_group_from k) seen.
Proof.
  intros Hs Hw. unfold newer_versions, group_count. rewrite filter_app, length_app.
  apply StronglySorted_app in Hs as (Hx & _ & Hs). inversion Hs as [|?? _ Hk]; subst.
  rewrite Forall_forall in Hw, Hk.
  assert (key_wf k) as Hwk by (apply Hw; set_solver).
  rewrite (filter_none _ (k :: rest)), Nat.add_0_r.
  - f_equal. apply filter_ext_in. intros x Hin. split; [by intros []|]. intros Hg. split; [done|].
    apply key_before_group; [apply Hw; set_solver|done|done|]. apply Hx; [done|left].
  - intros x [->|Hin]%elem_of_cons [Hg Ht]; [lia|].
    assert (timestamp x < timestamp k); [|lia].
    apply key_before_group; [done|apply Hw; set_solver|done|by apply Hk].
Qed.

(** What the filter state says about the keys already seen. *)
Definition state_ok (f : FilterState) (seen : list CompositeKey) : Prop :=
  match last seen with
  | None => f = fresh_filter
  | Some k => current_group f = Some (version_group_from k) /\
      versions_seen f = group_count (version_group_from k) seen
  end.

Lemma state_ok_step f seen k rest :
  StronglySorted key_before (seen ++ k :: rest) -> state_ok f seen ->
  state_ok (next_state f k) (seen ++ [k]) /\
  versions_seen (next_state f k) = (group_count (version_group_from k) seen + 1)%nat.
Proof.
  intros Hs Hf. unfold state_ok. rewrite last_snoc.
  assert (versions_seen (next_state f k) = (group_count (version_group_from k) seen + 1)%nat) as Hv.
  { unfold next_state. case_decide as Hg; simpl; f_equal.
    - unfold state_ok in Hf. destruct (last seen) as [l|] eqn:El; [|by rewrite Hf in Hg].
      destruct Hf as [Hcur ->]. congruence.
    - unfold group_count. rewrite filter_none; [done|]. intros x Hx Hxg.
      unfold state_ok in Hf. destruct (last seen) as [l|] eqn:El.
      + destruct Hf as [Hcur _]. apply last_Some in El as [seen' ->]. apply Hg. rewrite Hcur. f_equal.
        apply elem_of_app in Hx as [Hx| ->%list_elem_of_singleton]; [|done].
        apply StronglySorted_app in Hs as (Hb & Hd & _). apply StronglySorted_app in Hd as (Hb' & _).
        apply (group_contiguous x); [apply Hb'; set_solver|apply Hb; set_solver|done].
      + apply last_None in El as ->. by apply not_elem_of_nil in Hx. }
  split; [|done]. split.
  - unfold next_state. by case_decide as Hg.
  - rewrite Hv. unfold group_count. rewrite filter_app, length_app. by rewrite filter_cons_True.
Qed.

Lemma keeps_retained r now f seen k rest :
  StronglySorted key_before (seen ++ k :: rest) -> Forall key_wf (seen ++ k :: rest) -> state_ok f seen ->
  keeps r now (next_state f k) k = retained r now (seen ++ k :: rest) k.
Proof.
  intros Hs Hw Hf. unfold keeps, retained. rewrite newer_versions_before by done.
  destruct (state_ok_step f seen k rest Hs Hf) as [_ ->]. f_equal. destruct (rp_max_versions r); [|done].
  apply eq_true_iff_eq. rewrite Nat.leb_le, Nat.ltb_lt. lia.
Qed.

Lemma kept_keys_spec r now f seen rest :
  StronglySorted key_before (seen ++ rest) -> Forall key_wf (seen ++ rest) -> state_ok f seen ->
  kept_keys r now f rest = filter (fun k => retained r now (seen ++ rest) k = true) rest.
Proof.
  revert f seen. induction rest as [|k rest IH]; intros f seen Hs Hw Hf; [done|].
  cbn [kept_keys]. rewrite filter_cons. rewrite (keeps_retained _ _ _ seen _ rest) by done.
  destruct (state_ok_step f seen k rest Hs Hf) as [Hf' _].
  specialize (IH (next_state f k) (seen ++ [k])). rewrite <- app_assoc in IH. simpl in IH.
  rewrite IH by done. destruct (retained _ _ _ _) eqn:E; case_decide; done.
Qed.

(** C37: A compaction with the retention filter over an ascending stream of keys keeps
    exactly the versions that have fewer than [max_versions] newer versions in their
    group and are not expired; in particular the newest unexpired version survives. *)
Theorem run_filter_spec {W I} (policy : SecureCompactionPolicy W I) now keys w w' kept :
  run_filter policy now fresh_filter keys w = (w', Ok kept) -> StronglySorted bytes_lt keys ->
  exists ks, keys = encoded <$> ks /\ Forall key_wf ks /\
    kept = encoded <$> filter (fun k => retained (retention policy) now ks k = true) ks.
Proof.
  intros (ks & -> & Hw & ->)%run_filter_Ok Hs. exists ks. split; [done|]. split; [done|]. f_equal.
  apply (kept_keys_spec _ _ fresh_filter []); [|done|done].
  clear -Hs. induction ks as [|k ks IH]; [constructor|]. csimpl in Hs. inversion Hs as [|?? Hs' Hk]; subst.
  constructor; [by apply IH|]. rewrite Forall_fmap in Hk. exact Hk.
Qed.

(** Versions 3, 2 and 1 of one cell, and version 9 of the next row. *)
Definition sample_stream : list CompositeKey :=
  composite_key_from <$> [sample_version 3; sample_version 2; sample_version 1;
    version (mkCell [Byte.x73] [Byte.x66] [Byte.x71] [Byte.x76]) 9].

Definition sample_policy : SecureCompactionPolicy () () :=
  mkSecureCompactionPolicy (s2str "events") (mkRetentionPolicy (Some 2%nat) None) None.

Lemma run_filter_spec_witness :
  exists ks, (encoded <$> sample_stream) = encoded <$> ks /\ Forall key_wf ks /\
    (encoded <$> [composite_key_from (sample_version 3); composite_key_from (sample_version 2);
       composite_key_from (version (mkCell [Byte.x73] [Byte.x66] [Byte.x71] [Byte.x76]) 9)]) =
    encoded <$> filter (fun k => retained (mkRetentionPolicy (Some 2%nat) None) 100 ks k = true) ks.
Proof.
  apply (run_filter_spec sample_policy 100 (encoded <$> sample_stream) () ()); [vm_compute; reflexivity|].
  repeat constructor; vm_compute; reflexivity.
Defined.

(** A policy is accepted exactly when [max_versions] and [ttl], where given, are
    not zero. *)
Theorem validate_spec r :
  validate r = Ok () <->
  rp_max_versions r <> Some 0%nat /\ forall d, ttl r = Some d -> ~ (secs d = 0 /\ nanos d = 0).
Proof.
  unfold validate, is_zero. case_bool_decide; [naive_solver|]. destruct (ttl r) as [d|]; [|naive_solver].
  repeat case_bool_decide; simpl; naive_solver.
Qed.
