(* ===== verification/SecureKeyspace.v ===== *)
(** * Secure keyspaces

    Models the access path of [src/src/secure/keyspace.rs]: every operation checks a
    permission first, writes require a canonical visibility expression, and reads
    return only what the session's authorizations satisfy. The world [W] is the raw
    keyspace together with whatever the audit sink writes to. *)

From stdpp Require Import base gmap list sorting strings.
From S2P Require Import Prelude Errors Utf8 Visibility VisibilityParse VisibilityNormal VisibilityProps.
From S2P Require Import Composite Store Cell Crypto Providers.

#[local] Open Scope state_scope.

(** ** Visibility of stored bytes *)

Definition parse_visibility (bs : bytes) : Result VisibilityExpr :=
  match from_utf8 bs with
  | Some expr => parse expr
  | None => Err (InvalidVisibilityExpression "visibility expression must be valid UTF-8")
  end.

Definition is_visible (bs : bytes) (auths : Authorizations) : Result bool :=
  v ← parse_visibility bs;
  Ok (evaluate v auths).

Definition canonicalize_cell (cell : VersionedCell) : Result VersionedCell :=
  v ← parse_visibility (c_visibility (vc_cell cell));
  if decide (as_bytes v <> c_visibility (vc_cell cell)) then
    Err (InvalidVisibilityExpression "secure writes require canonical visibility expressions")
  else Ok cell.

(** ** The keyspace handle *)

Record SecureKeyspace (W I : Type) := mkSecureKeyspace {
  name : str;
  security : SecurityProviders W I;
  encryption : option ValueEncryption
}.
Arguments mkSecureKeyspace {W I} name security encryption.
Arguments name {W I} s.
Arguments security {W I} s.
Arguments encryption {W I} s.

Module Secure.
Section operations.
Context `{PrefixRange} {W I : Type} `{!ReadableOps W, !KeyspaceOps W} (ks : SecureKeyspace W I).

Definition check (session : Session I) (permission : KeyspacePermission) : StateR W () :=
  check_keyspace_permission (security ks) (identity session) (name ks) permission.

Definition insert_version (session : Session I) (cell : VersionedCell) (value : bytes) : StateR W () :=
  check session PWrite ;;;
  canonical_cell <- st_lift (canonicalize_cell cell) ;;
  encoded_key <- st_lift (cell_encode canonical_cell) ;;
  stored_value <- st_lift (maybe_encrypt_value (encryption ks) encoded_key value) ;;
  ks_insert encoded_key stored_value.

Definition get_version (session : Session I) (cell : VersionedCell) : StateR W (option bytes) :=
  check session PRead ;;;
  visible <- st_lift (is_visible (c_visibility (vc_cell cell)) (auths session)) ;;
  if negb visible then st_ret None
  else
    encoded_key <- st_lift (cell_encode cell) ;;
    stored <- st_read (rd_get encoded_key) ;;
    match stored with
    | None => st_ret None
    | Some stored =>
        value <- st_lift (maybe_decrypt_entry (encryption ks) encoded_key stored) ;;
        st_ret (Some value)
    end.

(** The body of the scan loop. *)
Definition secure_step (session : Session I) (scan : VersionScan) (kv : entry) :
    Result (option VersionedEntry) :=
  k ← decode kv.1;
  let cell := versioned_cell_from k in
  if includes scan (vc_timestamp cell) then
    visible ← is_visible (c_visibility (vc_cell cell)) (auths session);
    if (visible : bool) then
      value ← maybe_decrypt_entry (encryption ks) kv.1 kv.2;
      Ok (Some (mkVersionedEntry cell value))
    else Ok None
  else Ok None.

Definition scan_versioned_prefix (session : Session I) (prefix : CompositePrefix) (scan : VersionScan) :
    StateR W (list VersionedEntry) :=
  check session PRead ;;;
  r <- st_lift (range prefix) ;;
  st_read (fun w => scan_loop (secure_step session scan) (is_satisfied_by scan) (rd_range r w) []).

Definition delete_version (session : Session I) (cell : VersionedCell) : StateR W () :=
  check session PDelete ;;;
  canonical_cell <- st_lift (canonicalize_cell cell) ;;
  encoded_key <- st_lift (cell_encode canonical_cell) ;;
  ks_remove encoded_key.
End operations.
End Secure.

(** ** Canonical cells *)

Lemma parse_visibility_canonical s v : parse s = Ok v -> parse_visibility (as_bytes v) = Ok v.
Proof.
  intros Hv. pose proof (parse_canonical_ascii s v Hv) as Ha. unfold parse_visibility, as_bytes.
  rewrite from_utf8_ascii by done. by eapply parse_canonical_reparse.
Qed.

(** A cell is accepted for writing exactly when its visibility field is the stored
    form of a parsed expression. *)
Lemma canonicalize_cell_Ok cell cell' :
  canonicalize_cell cell = Ok cell' <->
  cell' = cell /\ exists s v, parse s = Ok v /\ c_visibility (vc_cell cell) = as_bytes v.
Proof.
  unfold canonicalize_cell. split.
  - intros Hc. inv_ok. case_decide as Hd; [done|]. inv_ok. split; [done|].
    unfold parse_visibility in Hx. destruct (from_utf8 _) as [s|]; [|done]. by exists s, x.
  - intros [-> (s & v & Hv & E)]. rewrite E. rewrite (parse_visibility_canonical _ _ Hv). simpl.
    rewrite decide_False; [done|]. intros Hn. by apply Hn.
Qed.

Lemma is_visible_canonical s v auths : parse s = Ok v -> is_visible (as_bytes v) auths = Ok (evaluate v auths).
Proof. intros Hv. unfold is_visible. by rewrite (parse_visibility_canonical _ _ Hv). Qed.

(** ** Permission checks *)

(** The audit sink does not write to the keyspace. *)
Definition audit_isolated {W I} `{!ReadableOps W, !ReadableLaws W} (p : SecurityProviders W I) : Prop :=
  forall event w, view (record_audit p event w).1 = view w.

Section access.
Context `{PrefixRange} {W I : Type} `{!ReadableOps W, !ReadableLaws W, !KeyspaceOps W, !KeyspaceLaws W}.
Context (ks : SecureKeyspace W I).
Hypothesis isolated : audit_isolated (security ks).

Lemma check_view session permission w w' r :
  Secure.check ks session permission w = (w', r) ->
  view w' = view w /\
  (is_ok r = true -> has_keyspace_permission (security ks) (identity session) (name ks) permission = true).
Proof.
  unfold Secure.check, check_keyspace_permission, st_bind, st_err.
  destruct (has_keyspace_permission _ _ _ _) eqn:E.
  - intros Hr. pose proof (isolated (KeyspaceAccess (identity session) (name ks)) w) as Hi.
    rewrite Hr in Hi. done.
  - pose proof (isolated (AuthorizationDenied (identity session) (name ks)) w) as Hi.
    destruct (record_audit _ _ w) as [w1 [[]|e]]; intros [= <- <-]; done.
Qed.

(** The four operations, when they get past the permission check. *)
Lemma insert_version_cases session cell value w w' r :
  Secure.insert_version ks session cell value w = (w', r) ->
  (is_ok r = false /\ view w' = view w) \/
  (r = Ok () /\ has_keyspace_permission (security ks) (identity session) (name ks) PWrite = true /\
   canonicalize_cell cell = Ok cell /\
   exists key stored, cell_encode cell = Ok key /\
     maybe_encrypt_value (encryption ks) key value = Ok stored /\ view w' = <[key := stored]> (view w)).
Proof.
  unfold Secure.insert_version, st_bind, st_lift.
  destruct (Secure.check _ _ _ w) as [w1 r1] eqn:Ec. apply check_view in Ec as [Hv Hp].
  destruct r1 as [[]|e]; [|intros [= <- <-]; by left].
  destruct (canonicalize_cell cell) as [c|e] eqn:Ecan; [|intros [= <- <-]; by left].
  apply canonicalize_cell_Ok in Ecan as Ecan'. destruct Ecan' as [-> _].
  destruct (cell_encode cell) as [key|e] eqn:Ek; [|intros [= <- <-]; by left].
  destruct (maybe_encrypt_value _ _ _) as [stored|e] eqn:Es; [|intros [= <- <-]; by left].
  intros Hi. apply insert_law in Hi. rewrite Hv in Hi. destruct r as [[]|e]; [right|by left].
  split; [done|]. split; [by apply Hp|]. split; [done|]. by exists key, stored.
Qed.

Lemma delete_version_cases session cell w w' r :
  Secure.delete_version ks session cell w = (w', r) ->
  (is_ok r = false /\ view w' = view w) \/
  (r = Ok () /\ has_keyspace_permission (security ks) (identity session) (name ks) PDelete = true /\
   exists key, cell_encode cell = Ok key /\ view w' = delete key (view w)).
Proof.
  unfold Secure.delete_version, st_bind, st_lift.
  destruct (Secure.check _ _ _ w) as [w1 r1] eqn:Ec. apply check_view in Ec as [Hv Hp].
  destruct r1 as [[]|e]; [|intros [= <- <-]; by left].
  destruct (canonicalize_cell cell) as [c|e] eqn:Ecan; [|intros [= <- <-]; by left].
  apply canonicalize_cell_Ok in Ecan as [-> _].
  destruct (cell_encode cell) as [key|e] eqn:Ek; [|intros [= <- <-]; by left].
  intros Hi. apply remove_law in Hi. rewrite Hv in Hi. destruct r as [[]|e]; [right|by left].
  split; [done|]. split; [by apply Hp|]. by exists key.
Qed.
End access.

(** ** All operations of a secure keyspace as one step *)

Inductive SecureOp :=
  | SInsert (cell : VersionedCell) (value : bytes)
  | SGet (cell : VersionedCell)
  | SScan (prefix : CompositePrefix) (scan : VersionScan)
  | SDelete (cell : VersionedCell).

Inductive Response := RUnit | RValue (v : option bytes) | REntries (es : list VersionedEntry).

(** The permission an operation needs. *)
Definition required (op : SecureOp) : KeyspacePermission :=
  match op with
  | SInsert _ _ => PWrite
  | SGet _ | SScan _ _ => PRead
  | SDelete _ => PDelete
  end.

(** The timestamps are [i64]s. *)
Definition op_typed (op : SecureOp) : Prop :=
  match op with
  | SInsert cell _ | SGet cell | SDelete cell => is_i64 (vc_timestamp cell)
  | SScan _ _ => True
  end.

Definition run_op `{PrefixRange} {W I} `{!ReadableOps W, !KeyspaceOps W} (ks : SecureKeyspace W I)
    (session : Session I) (op : SecureOp) : StateR W Response :=
  match op with
  | SInsert cell value => Secure.insert_version ks session cell value ;;; st_ret RUnit
  | SGet cell => v <- Secure.get_version ks session cell ;; st_ret (RValue v)
  | SScan prefix scan => es <- Secure.scan_versioned_prefix ks session prefix scan ;; st_ret (REntries es)
  | SDelete cell => Secure.delete_version ks session cell ;;; st_ret RUnit
  end.

(** What the secure API leaves in the store: canonical visibility expressions under
    well-formed keys, and values that decrypt. *)
Definition store_ok (enc : option ValueEncryption) (m : gmap bytes bytes) : Prop :=
  forall key stored, m !! key = Some stored ->
    exists vc, key = encoded (composite_key_from vc) /\ is_i64 (vc_timestamp vc) /\
      canonicalize_cell vc = Ok vc /\ is_ok (maybe_decrypt_entry enc key stored) = true.

Section steps.
Context `{PrefixRange} {W I : Type} `{!ReadableOps W, !ReadableLaws W, !KeyspaceOps W, !KeyspaceLaws W}.
Context (ks : SecureKeyspace W I).

(** Reads leave the store alone and fail without the permission. *)
Lemma get_version_view session cell w w' r :
  audit_isolated (security ks) -> Secure.get_version ks session cell w = (w', r) ->
  view w' = view w /\
  (is_ok r = true -> has_keyspace_permission (security ks) (identity session) (name ks) PRead = true).
Proof.
  intros Hiso. unfold Secure.get_version, st_bind, st_lift, st_read, st_ret.
  destruct (Secure.check _ _ _ w) as [w1 r1] eqn:Ec. apply check_view in Ec as [Hv Hp]; [|done].
  destruct r1 as [[]|e]; [|by intros [= <- <-]]. specialize (Hp eq_refl).
  repeat (break_match; simplify_eq; try (intros; by simplify_eq)).
Qed.

Lemma scan_view session prefix scan w w' r :
  audit_isolated (security ks) -> Secure.scan_versioned_prefix ks session prefix scan w = (w', r) ->
  view w' = view w /\
  (is_ok r = true -> has_keyspace_permission (security ks) (identity session) (name ks) PRead = true).
Proof.
  intros Hiso. unfold Secure.scan_versioned_prefix, st_bind, st_lift, st_read.
  destruct (Secure.check _ _ _ w) as [w1 r1] eqn:Ec. apply check_view in Ec as [Hv Hp]; [|done].
  destruct r1 as [[]|e]; [|by intros [= <- <-]]. specialize (Hp eq_refl).
  destruct (range prefix); intros [= <- <-]; done.
Qed.

(** What a step does to the store. *)
Lemma run_op_view session op w w' r :
  audit_isolated (security ks) -> run_op ks session op w = (w', r) ->
  (is_ok r = true -> has_keyspace_permission (security ks) (identity session) (name ks) (required op) = true) /\
  (view w' = view w \/
   is_ok r = true /\
   ((exists cell value key stored, op = SInsert cell value /\ canonicalize_cell cell = Ok cell /\
       cell_encode cell = Ok key /\ maybe_encrypt_value (encryption ks) key value = Ok stored /\
       view w' = <[key := stored]> (view w)) \/
    (exists cell key, op = SDelete cell /\ cell_encode cell = Ok key /\ view w' = delete key (view w)))).
Proof.
  intros Hiso. destruct op as [cell value|cell|prefix scan|cell]; simpl; unfold st_bind, st_ret.
  - destruct (Secure.insert_version _ _ _ _ w) as [w1 r1] eqn:E.
    apply insert_version_cases in E as [[Hr Hv]|(-> & Hp & Hc & key & stored & Hk & Hs & Hv)]; [| |done].
    + destruct r1; [done|]. intros [= <- <-]. split; [done|by left].
    + intros [= <- <-]. split; [done|]. right. split; [done|]. left. by exists cell, value, key, stored.
  - destruct (Secure.get_version _ _ _ w) as [w1 r1] eqn:E. apply get_version_view in E as [Hv Hp]; [|done].
    destruct r1; intros [= <- <-]; (split; [by auto|by left]).
  - destruct (Secure.scan_versioned_prefix _ _ _ _ w) as [w1 r1] eqn:E. apply scan_view in E as [Hv Hp]; [|done].
    destruct r1; intros [= <- <-]; (split; [by auto|by left]).
  - destruct (Secure.delete_version _ _ _ w) as [w1 r1] eqn:E.
    apply delete_version_cases in E as [[Hr Hv]|(-> & Hp & key & Hk & Hv)]; [| |done].
    + destruct r1; [done|]. intros [= <- <-]. split; [done|by left].
    + intros [= <- <-]. split; [done|]. right. split; [done|]. right. by exists cell, key.
Qed.

Lemma maybe_roundtrip enc key value stored :
  encryption_correct enc -> maybe_encrypt_value enc key value = Ok stored ->
  maybe_decrypt_entry enc key stored = Ok value.
Proof.
  destruct enc as [ve|]; simpl; [|congruence].
  intros Hp (c & Hc & Hl & ->)%encrypt_value_Ok. unfold decrypt_value. rewrite parse_framed by done. by apply Hp.
Qed.

Lemma store_ok_step session op w w' r :
  audit_isolated (security ks) -> encryption_correct (encryption ks) -> op_typed op ->
  run_op ks session op w = (w', r) -> store_ok (encryption ks) (view w) -> store_ok (encryption ks) (view w').
Proof.
  intros Hiso Henc Hty Hop Hok.
  destruct (run_op_view _ _ _ _ _ Hiso Hop) as [_ [->|[_ [(cell & value & key & stored & -> & Hc & Hk & Hs & ->)|
    (cell & key & -> & Hk & ->)]]]]; [done| |].
  - intros key' stored' [[<- <-]|[_ Hm]]%lookup_insert_Some; [|by apply Hok].
    exists cell. apply encode_Ok in Hk as [-> _]. split; [done|]. split; [done|]. split; [done|].
    by rewrite (maybe_roundtrip _ _ _ _ Henc Hs).
  - intros key' stored' [_ Hm]%lookup_delete_Some. by apply Hok.
Qed.
End steps.

(** ** What a session can read *)

(** Whether the stored key is one the authorizations give access to. *)
Definition key_visible (auths : Authorizations) (key : bytes) : bool :=
  match decode key with
  | Ok k => match is_visible (visibility k) auths with Ok b => b | Err _ => false end
  | Err _ => false
  end.

(** The entries a session gets from a scan: stored, visible, decrypted. *)
Definition readable (enc : option ValueEncryption) (auths : Authorizations) (m : gmap bytes bytes)
    (prefix : CompositePrefix) (scan : VersionScan) (e : VersionedEntry) : Prop :=
  exists stored, m !! stored_key e = Some stored /\ entry_ok e /\
    prefix_matches prefix (composite_key_from (ve_cell e)) = true /\
    includes scan (vc_timestamp (ve_cell e)) = true /\
    is_visible (c_visibility (vc_cell (ve_cell e))) auths = Ok true /\
    maybe_decrypt_entry enc (stored_key e) stored = Ok (ve_value e).

Section reading.
Context `{PrefixRange} {W I : Type} `{!ReadableOps W, !ReadableLaws W, !KeyspaceOps W}.
Context (ks : SecureKeyspace W I).

Lemma secure_scan_Ok session prefix scan w w' es :
  audit_isolated (security ks) -> max_versions scan <> Some 0%nat ->
  Secure.scan_versioned_prefix ks session prefix scan w = (w', Ok es) ->
  exists r l, range prefix = Ok r /\ lists_range (view w) r l /\
    es = limit (max_versions scan) (omap (selected (Secure.secure_step ks session scan)) l).
Proof.
  intros Hiso Hmax Hs. unfold Secure.scan_versioned_prefix in Hs. inv_st.
  apply check_view in Ha as [Hv _]; [|done]. unfold st_read in Hs.
  assert (scan_loop (Secure.secure_step ks session scan) (is_satisfied_by scan) (rd_range a0 t) [] = Ok es) as Hloop
    by congruence.
  apply scan_prefix_Ok in Hloop as (l & Hl & ->); [|done]. rewrite Hv in Hl. by exists a0, l.
Qed.

Lemma selected_secure_step session scan key stored e :
  selected (Secure.secure_step ks session scan) (key, stored) = Some e <->
  key = stored_key e /\ entry_ok e /\ includes scan (vc_timestamp (ve_cell e)) = true /\
  is_visible (c_visibility (vc_cell (ve_cell e))) (auths session) = Ok true /\
  maybe_decrypt_entry (encryption ks) key stored = Ok (ve_value e).
Proof.
  unfold selected, Secure.secure_step, stored_key, entry_ok. simpl. split.
  - destruct (decode key) as [k|] eqn:Ek; simpl; [|done].
    destruct (includes _ _) eqn:Ei; [|done].
    destruct (is_visible _ _) as [[]|] eqn:Ev; simpl; try done.
    destruct (maybe_decrypt_entry _ _ _) as [v|] eqn:Ed; simpl; [|done]. intros [= <-]. simpl.
    apply decode_Ok in Ek as [-> Hk]. by rewrite composite_key_from_to.
  - intros (-> & Hw & Hi & Hv & Hd). rewrite decode_encoded by done. simpl.
    rewrite versioned_cell_from_to. rewrite Hi, Hv. simpl. rewrite Hd. simpl. by destruct e.
Qed.

(** Entries of a scan are ordered like their keys. *)
Lemma selected_sorted session scan l :
  StronglySorted key_lt l ->
  StronglySorted entry_before (omap (selected (Secure.secure_step ks session scan)) l).
Proof.
  induction 1 as [|[k s] l Hs IH Hk]; [constructor|]. rewrite omap_cons_list.
  destruct (selected _ (k, s)) as [e|] eqn:E; [|done]. simpl. constructor; [done|].
  rewrite Forall_forall in Hk. apply Forall_forall. intros e' ([k' s'] & Hin & E')%list_elem_of_omap.
  apply selected_secure_step in E as (-> & Hw & _), E' as (-> & Hw' & _).
  apply entry_before_key; [done..|]. by apply (Hk _ Hin).
Qed.

Lemma selected_readable session prefix scan r m l e :
  range prefix = Ok r -> lists_range m r l ->
  e ∈ omap (selected (Secure.secure_step ks session scan)) l <->
  readable (encryption ks) (auths session) m prefix scan e.
Proof.
  intros Hr [_ Hl]. rewrite list_elem_of_omap. unfold readable. split.
  - intros ([k s] & Hin & (-> & Hw & Hi & Hv & Hd)%selected_secure_step). apply Hl in Hin as [Hm Hin].
    unfold stored_key in Hin. rewrite (range_encoded _ _ _ Hr) in Hin. by exists s.
  - intros (s & Hm & Hw & Hp & Hi & Hv & Hd). exists (stored_key e, s). split; [|by apply selected_secure_step].
    apply Hl. split; [done|]. unfold stored_key. by rewrite (range_encoded _ _ _ Hr).
Qed.

(** The entries a session may read are all a scan depends on. *)
Lemma secure_scan_readable session prefix scan w w' es :
  audit_isolated (security ks) -> max_versions scan <> Some 0%nat ->
  Secure.scan_versioned_prefix ks session prefix scan w = (w', Ok es) ->
  exists l, StronglySorted entry_before l /\
    (forall e, e ∈ l <-> readable (encryption ks) (auths session) (view w) prefix scan e) /\
    es = limit (max_versions scan) l.
Proof.
  intros Hiso Hmax Hs. destruct (secure_scan_Ok _ _ _ _ _ _ Hiso Hmax Hs) as (r & l & Hr & Hl & ->).
  eexists. split; [|split; [|done]].
  - apply selected_sorted, Hl.
  - intros e. by eapply selected_readable.
Qed.
End reading.

(** ** Properties *)

Section properties.
Context `{PrefixRange} {W I : Type} `{!ReadableOps W, !ReadableLaws W, !KeyspaceOps W, !KeyspaceLaws W}.

(** C33: Without the permission an operation needs, it is an error (in every audit
    mode) and the keyspace is left as it was. *)
Theorem permission_required (ks : SecureKeyspace W I) session op w w' r :
  audit_isolated (security ks) ->
  has_keyspace_permission (security ks) (identity session) (name ks) (required op) = false ->
  run_op ks session op w = (w', r) -> is_ok r = false /\ view w' = view w.
Proof.
  intros Hiso Hp Hop. destruct (run_op_view ks _ _ _ _ _ Hiso Hop) as [Hr Hv].
  destruct (is_ok r) eqn:E; [by rewrite Hr in Hp|]. split; [done|]. by destruct Hv as [|[? _]].
Qed.

(** C34: Whatever sequence of operations sessions run through a secure keyspace, every
    stored key carries a canonical visibility expression and every stored value
    decrypts: the secure reads never meet a record they cannot judge. *)
Theorem store_ok_invariant (ks : SecureKeyspace W I) session op w w' r :
  audit_isolated (security ks) -> encryption_correct (encryption ks) -> op_typed op ->
  run_op ks session op w = (w', r) -> store_ok (encryption ks) (view w) -> store_ok (encryption ks) (view w').
Proof. apply store_ok_step. Qed.

(** C14: A secure scan returns exactly the stored versions that match the prefix and
    the timestamp window and whose visibility the session's authorizations satisfy,
    decrypted and newest first within a cell; with a limit, the first [max_versions] of them.
    This is about scans that succeed, with a limit other than zero: for zero the code
    returns an entry, unlike its documentation ([Cell.scan_zero_limit]). *)
Theorem secure_scan_spec (ks : SecureKeyspace W I) session prefix scan w w' es :
  audit_isolated (security ks) -> max_versions scan <> Some 0%nat ->
  Secure.scan_versioned_prefix ks session prefix scan w = (w', Ok es) ->
  exists l, StronglySorted entry_before l /\
    (forall e, e ∈ l <-> readable (encryption ks) (auths session) (view w) prefix scan e) /\
    es = limit (max_versions scan) l.
Proof. apply secure_scan_readable. Qed.

Lemma readable_agree enc auths m1 m2 prefix scan e :
  (forall key, key_visible auths key = true -> m1 !! key = m2 !! key) ->
  readable enc auths m1 prefix scan e -> readable enc auths m2 prefix scan e.
Proof.
  intros Hm (s & Hs & Hw & Hp & Hi & Hv & Hd). exists s. rewrite <- Hm; [done|].
  unfold key_visible, stored_key. rewrite decode_encoded by done. simpl. by rewrite Hv.
Qed.

Lemma scans_agree (ks : SecureKeyspace W I) session prefix scan w1 w2 es1 es2 :
  audit_isolated (security ks) -> max_versions scan <> Some 0%nat ->
  (forall key, key_visible (auths session) key = true -> view w1 !! key = view w2 !! key) ->
  (Secure.scan_versioned_prefix ks session prefix scan w1).2 = Ok es1 ->
  (Secure.scan_versioned_prefix ks session prefix scan w2).2 = Ok es2 -> es1 = es2.
Proof.
  intros Hiso Hmax Hm H1%result_pair H2%result_pair.
  destruct (secure_scan_readable _ _ _ _ _ _ _ Hiso Hmax H1) as (l1 & Hs1 & He1 & ->).
  destruct (secure_scan_readable _ _ _ _ _ _ _ Hiso Hmax H2) as (l2 & Hs2 & He2 & ->).
  f_equal. apply (sorted_asym_unique entry_before); [apply entry_before_asym|done..|].
  intros e. rewrite He1, He2. split; apply readable_agree; [done|]. intros. symmetry. auto.
Qed.

(** A version that was written reads back, decrypted, for a session whose
    authorizations satisfy its visibility, and as absent for any other session. *)
Theorem secure_insert_get (ks : SecureKeyspace W I) writer reader cell value w w1 w2 o :
  audit_isolated (security ks) -> encryption_correct (encryption ks) ->
  Secure.insert_version ks writer cell value w = (w1, Ok ()) ->
  Secure.get_version ks reader cell w1 = (w2, Ok o) ->
  exists v, parse_visibility (c_visibility (vc_cell cell)) = Ok v /\
    o = if evaluate v (auths reader) then Some value else None.
Proof.
  intros Hiso Henc Hins Hget.
  destruct (insert_version_cases ks Hiso _ _ _ _ _ _ Hins) as [[? _]|(_ & _ & Hc & key & stored & Hk & Hs & Hv)]; [done|].
  apply canonicalize_cell_Ok in Hc as [_ (s & v & Hp & Hvis)]. exists v.
  rewrite Hvis, (parse_visibility_canonical _ _ Hp). split; [done|].
  unfold Secure.get_version in Hget. inv_st. rewrite Hvis, (is_visible_canonical _ _ _ Hp) in Hr. inv_ok.
  apply check_view in Ha as [Hv' _]; [|done].
  destruct (evaluate v (auths reader)); simpl in Hget; inv_st; [|done].
  rewrite Hk in Hr. inv_ok. unfold st_read in Ha0. injection Ha0 as <- Hg.
  apply get_law in Hg. rewrite Hv', Hv, lookup_insert_eq in Hg. subst a1. inv_st.
  rewrite (maybe_roundtrip _ _ _ _ Henc Hs) in Hr. by inv_ok.
Qed.
End properties.

(** The store delivers the records of a prefix without an I/O error. *)
Definition reads_through `{PrefixRange} {W} `{!ReadableOps W} (prefix : CompositePrefix) (w : W) : Prop :=
  forall r, range prefix = Ok r -> Forall (fun item => is_ok item = true) (rd_range r w).

Lemma delivers_all items l :
  Forall (fun item => is_ok item = true) items -> delivers items l -> items = Ok <$> l.
Proof.
  intros Hok [->|(pre & suf & e & rest & _ & ->)]; [done|].
  apply Forall_app in Hok as [_ Hok]. by apply Forall_cons in Hok as [He _].
Qed.

(** On a store filled through the secure API, a scan by a session with the read
    permission always succeeds, provided the prefix is valid, the access can be
    audited and the store delivers its records without I/O error. *)
Theorem secure_scan_total `{PrefixRange} {W I} `{!ReadableOps W, !ReadableLaws W, !KeyspaceOps W}
    (ks : SecureKeyspace W I) session prefix scan r w w1 :
  audit_isolated (security ks) -> store_ok (encryption ks) (view w) ->
  range prefix = Ok r -> Secure.check ks session PRead w = (w1, Ok ()) -> reads_through prefix w1 ->
  exists w' es, Secure.scan_versioned_prefix ks session prefix scan w = (w', Ok es).
Proof.
  intros Hiso Hok Hr Hc Hio. unfold Secure.scan_versioned_prefix, st_bind, st_lift, st_read.
  rewrite Hc, Hr. apply check_view in Hc as [Hv _]; [|done].
  destruct (range_law r w1) as (l & [_ Hl] & Hd). rewrite (delivers_all _ _ (Hio _ Hr) Hd). rewrite Hv in Hl.
  destruct (scan_loop_total (Secure.secure_step ks session scan) (max_versions scan) l []) as [es Hes];
    [|exists w1, es; f_equal; exact Hes].
  apply Forall_forall. intros [key stored] [Hin _]%Hl. apply Hok in Hin as (vc & -> & Hty & Hcan & Hdec).
  apply canonicalize_cell_Ok in Hcan as [_ (s & v & Hp & Hvis)].
  unfold Secure.secure_step. cbn [fst snd]. rewrite decode_encoded by done. cbn [mbind Result_bind].
  rewrite versioned_cell_from_to, Hvis, (is_visible_canonical _ _ _ Hp).
  destruct (includes _ _); [|done]. cbn [mbind Result_bind]. destruct (evaluate _ _); [|done].
  destruct (maybe_decrypt_entry _ _ _); done.
Qed.

(** The result of a scan whose permission check and reads come out the same way. *)
Lemma scan_cases `{PrefixRange} {W I} `{!ReadableOps W, !ReadableLaws W, !KeyspaceOps W}
    (ks : SecureKeyspace W I) session prefix scan w :
  audit_isolated (security ks) -> store_ok (encryption ks) (view w) ->
  reads_through prefix (Secure.check ks session PRead w).1 ->
  match (Secure.check ks session PRead w).2, range prefix with
  | Ok _, Ok _ => exists es, (Secure.scan_versioned_prefix ks session prefix scan w).2 = Ok es
  | Ok _, Err e | Err e, _ => (Secure.scan_versioned_prefix ks session prefix scan w).2 = Err e
  end.
Proof.
  intros Hiso Hok Hio. destruct (Secure.check ks session PRead w) as [w1 [[]|e]] eqn:Hc; cbn [fst snd] in *.
  - destruct (range prefix) as [r|e] eqn:Hr.
    + destruct (secure_scan_total ks session prefix scan r w w1) as (w' & es & ->); [done..|]. by exists es.
    + unfold Secure.scan_versioned_prefix, st_bind, st_lift. by rewrite Hc, Hr.
  - unfold Secure.scan_versioned_prefix, st_bind. by rewrite Hc.
Qed.

(** C7: Non-interference: if two states of a keyspace agree on the records visible to a
    session, scans of this session in them that succeed return the same entries, whatever
    else the states hold. When both were filled through the secure operations, the hidden
    records do not show in whether a scan succeeds either: if the permission checks come out
    alike and the records are delivered without I/O error, the results are the same, errors
    included. The limit of the scan must not be zero ([zero_limit_leak] shows why). *)
Theorem scan_noninterference `{PrefixRange} {W I} `{!ReadableOps W, !ReadableLaws W, !KeyspaceOps W}
    (ks : SecureKeyspace W I) session prefix scan w1 w2 :
  audit_isolated (security ks) -> max_versions scan <> Some 0%nat ->
  (forall key, key_visible (auths session) key = true -> view w1 !! key = view w2 !! key) ->
  let result w := (Secure.scan_versioned_prefix ks session prefix scan w).2 in
  let checked w := Secure.check ks session PRead w in
  (forall es1 es2, result w1 = Ok es1 -> result w2 = Ok es2 -> es1 = es2) /\
  (store_ok (encryption ks) (view w1) -> store_ok (encryption ks) (view w2) ->
   (checked w1).2 = (checked w2).2 ->
   reads_through prefix (checked w1).1 -> reads_through prefix (checked w2).1 ->
   result w1 = result w2).
Proof.
  intros Hiso Hmax Hm result checked. split; [intros; by eapply scans_agree|].
  intros Hok1 Hok2 Hc Hio1 Hio2.
  pose proof (scan_cases ks session prefix scan w1 Hiso Hok1 Hio1) as H1.
  pose proof (scan_cases ks session prefix scan w2 Hiso Hok2 Hio2) as H2.
  subst result checked. cbv beta in *. rewrite <- Hc in H2.
  destruct (Secure.check ks session PRead w1).2 as [[]|e]; [destruct (range prefix) as [r|e]|]; [|congruence..].
  destruct H1 as [es1 H1], H2 as [es2 H2]. rewrite H1, H2. f_equal. by eapply scans_agree.
Qed.

(** ** Witnesses *)

Definition quiet_audit : AuditConfig (gmap bytes bytes) nat := mkAuditConfig (fun _ => st_ret ()) FailClosed.

(** Everybody may write, nobody may delete; the keyspace encrypts. *)
Definition sample_secure : SecureKeyspace (gmap bytes bytes) nat :=
  mkSecureKeyspace (s2str "events")
    (mkSecurityProviders (fun _ => Ok (Some 7%nat)) allow_all_system
       (fun _ _ p => bool_decide (p <> PDelete)) (fun _ => Ok auths_empty) (Some quiet_audit))
    (Some sample_encryption).

Lemma sample_isolated : audit_isolated (security sample_secure).
Proof. by intros event w. Qed.

Lemma sample_encryption_correct : encryption_correct (encryption sample_secure).
Proof. apply xor_provider_correct. Qed.

Definition admin_session : Session nat := mkSession 7%nat (mkAuthorizations {[s2str "admin"]}).
Definition guest_session : Session nat := mkSession 8%nat auths_empty.

Definition labelled (label : string) (t : Z) : VersionedCell :=
  version (mkCell [Byte.x72] [Byte.x66] [Byte.x71] (str_bytes (s2str label))) t.

(** A public version and one for administrators. *)
Definition admin_store : gmap bytes bytes :=
  (Secure.insert_version sample_secure guest_session (labelled "admin" 1) [Byte.x61] ∅).1.
Definition both_store : gmap bytes bytes :=
  (Secure.insert_version sample_secure guest_session (labelled "" 5) [Byte.x62] admin_store).1.

Definition row_prefix : CompositePrefix := mkCompositePrefix (Some [Byte.x72]) None None None.

Lemma permission_required_witness :
  is_ok (run_op sample_secure admin_session (SDelete (labelled "admin" 1)) admin_store).2 = false /\
  view (run_op sample_secure admin_session (SDelete (labelled "admin" 1)) admin_store).1 = view admin_store.
Proof.
  apply (permission_required sample_secure admin_session (SDelete (labelled "admin" 1)) admin_store);
    [exact sample_isolated|vm_compute; reflexivity|apply surjective_pairing].
Defined.

Lemma store_ok_empty enc : store_ok enc ∅.
Proof. intros key stored Hk. by rewrite lookup_empty in Hk. Qed.

Lemma store_ok_invariant_witness :
  store_ok (encryption sample_secure)
    (view (run_op sample_secure guest_session (SInsert (labelled "admin" 1) [Byte.x61]) (∅ : gmap bytes bytes)).1).
Proof.
  apply (store_ok_invariant sample_secure guest_session (SInsert (labelled "admin" 1) [Byte.x61]) ∅ _
    (run_op sample_secure guest_session (SInsert (labelled "admin" 1) [Byte.x61]) (∅ : gmap bytes bytes)).2);
    [exact sample_isolated|exact sample_encryption_correct|done|apply surjective_pairing|apply store_ok_empty].
Defined.

Lemma secure_scan_spec_witness :
  let es := [mkVersionedEntry (labelled "" 5) [Byte.x62]; mkVersionedEntry (labelled "admin" 1) [Byte.x61]] in
  exists l, StronglySorted entry_before l /\
    (forall e, e ∈ l <-> readable (encryption sample_secure) (auths admin_session) both_store row_prefix default_scan e) /\
    es = l.
Proof.
  intros es.
  assert ((Secure.scan_versioned_prefix sample_secure admin_session row_prefix default_scan both_store).2 = Ok es) as E
    by (vm_compute; reflexivity).
  exact (secure_scan_spec sample_secure admin_session row_prefix default_scan both_store _ es
    sample_isolated ltac:(done) (result_pair _ _ E)).
Defined.

Lemma admin_store_ok : store_ok (encryption sample_secure) (view admin_store).
Proof.
  apply (store_ok_step sample_secure guest_session (SInsert (labelled "admin" 1) [Byte.x61]) ∅ _ (Ok RUnit));
    [exact sample_isolated|exact sample_encryption_correct|done|vm_compute; reflexivity|apply store_ok_empty].
Qed.

(** The guest does not see the difference the administrators' record makes. *)
Lemma scan_noninterference_witness :
  (Secure.scan_versioned_prefix sample_secure guest_session row_prefix default_scan admin_store).2 =
  (Secure.scan_versioned_prefix sample_secure guest_session row_prefix default_scan (∅ : gmap bytes bytes)).2.
Proof.
  assert (forall key, key_visible (auths guest_session) key = true ->
    view admin_store !! key = view (∅ : gmap bytes bytes) !! key) as Hagree.
  { intros key Hk. unfold view; simpl. rewrite lookup_empty. apply eq_None_not_Some. intros [stored Hs].
    apply elem_of_map_to_list in Hs.
    assert (fst <$> map_to_list admin_store = [encoded (composite_key_from (labelled "admin" 1))]) as Em
      by (vm_compute; reflexivity).
    apply (list_elem_of_fmap_2 fst) in Hs. rewrite Em in Hs. apply list_elem_of_singleton in Hs. simpl in Hs. subst key.
    vm_compute in Hk. discriminate Hk. }
  apply (scan_noninterference sample_secure guest_session row_prefix default_scan admin_store ∅
    sample_isolated ltac:(done) Hagree); [apply admin_store_ok|apply store_ok_empty|reflexivity| |].
  - intros r [= <-]. vm_compute. repeat constructor.
  - intros r [= <-]. vm_compute. constructor.
Defined.

Lemma secure_insert_get_witness :
  exists v, parse_visibility (str_bytes (s2str "admin")) = Ok v /\
    Some [Byte.x61] = if evaluate v (auths admin_session) then Some [Byte.x61] else None.
Proof.
  assert ((Secure.insert_version sample_secure guest_session (labelled "admin" 1) [Byte.x61] (∅ : gmap bytes bytes)).2 = Ok ())
    as E1 by (vm_compute; reflexivity).
  assert ((Secure.get_version sample_secure admin_session (labelled "admin" 1) admin_store).2 = Ok (Some [Byte.x61])) as E2
    by (vm_compute; reflexivity).
  exact (secure_insert_get sample_secure guest_session admin_session (labelled "admin" 1) [Byte.x61] ∅ _ _ _
    sample_isolated sample_encryption_correct (result_pair _ _ E1) (result_pair _ _ E2)).
Defined.

Lemma secure_scan_total_witness :
  exists w' es, Secure.scan_versioned_prefix sample_secure guest_session row_prefix default_scan (∅ : gmap bytes bytes) = (w', Ok es).
Proof.
  apply (secure_scan_total sample_secure guest_session row_prefix default_scan
    (prefix_to_range (encode_prefix_fields [[Byte.x72]])) ∅ ∅);
    [exact sample_isolated|apply store_ok_empty|vm_compute; reflexivity|vm_compute; reflexivity|].
  intros r [= <-]. vm_compute. constructor.
Defined.

(** A scan with a limit of zero does not satisfy non-interference: hidden records
    that sort first change what an unauthorized session gets. *)
Theorem zero_limit_leak :
  let zero := mkVersionScan None None (Some 0%nat) in
  let public_store := (Secure.insert_version sample_secure guest_session (labelled "b" 5) [Byte.x62] (∅ : gmap bytes bytes)).1 in
  let session := mkSession 8%nat (mkAuthorizations {[s2str "b"]}) in
  let with_hidden := (Secure.insert_version sample_secure guest_session (labelled "admin" 1) [Byte.x61] public_store).1 in
  length <$> (Secure.scan_versioned_prefix sample_secure session row_prefix zero public_store).2 = Ok 1%nat /\
  length <$> (Secure.scan_versioned_prefix sample_secure session row_prefix zero with_hidden).2 = Ok 0%nat.
Proof. vm_compute. split; reflexivity. Qed.
