(* ===== verification/Panic.v ===== *)
(** * Computations that may fail or panic

    A Rust function that returns a [Result] and contains [expect], [assert!] or
    [unreachable!] has three outcomes; [None] is the panic. [PResult] is the monad of
    such functions and [PState] the one of those that also change a state. *)

From stdpp Require Import base list.
From S2P Require Import Prelude Errors Store.

Definition PResult (A : Type) : Type := option (Result A).

Definition p_ret {A} (a : A) : PResult A := Some (Ok a).
Definition p_bind {A B} (m : PResult A) (f : A -> PResult B) : PResult B :=
  match m with
  | Some (Ok a) => f a
  | Some (Err e) => Some (Err e)
  | None => None
  end.
(** A function that does not panic. *)
Definition p_lift {A} (r : Result A) : PResult A := Some r.
(** [Option::expect] and [Result::expect]. *)
Definition p_expect {A} (o : option A) : PResult A := Ok <$> o.
Definition p_expect_ok {A} (r : Result A) : PResult A :=
  match r with Ok a => Some (Ok a) | Err _ => None end.

Declare Scope panic_scope.
Delimit Scope panic_scope with panic.
Notation "x <-? m ;; k" := (p_bind m (fun x => k))
  (at level 20, m at level 99, k at level 200, only parsing) : panic_scope.
Notation "' x <-? m ;; k" := (p_bind m (fun y => match y with x => k end))
  (at level 20, x pattern, m at level 99, k at level 200, only parsing) : panic_scope.

Lemma p_bind_Ok {A B} (m : PResult A) (f : A -> PResult B) b :
  p_bind m f = Some (Ok b) <-> exists a, m = Some (Ok a) /\ f a = Some (Ok b).
Proof. destruct m as [[]|]; simpl; naive_solver. Qed.

Lemma p_lift_Ok {A} (r : Result A) a : p_lift r = Some (Ok a) -> r = Ok a.
Proof. by intros [=]. Qed.

(** Inversion of a computation that returned. *)
Ltac inv_p :=
  repeat match goal with
  | H : p_bind _ _ = Some (Ok _) |- _ =>
      let x := fresh "x" in let Hx := fresh "Hx" in
      apply p_bind_Ok in H as (x & Hx & H)
  | H : p_lift _ = Some (Ok _) |- _ => apply p_lift_Ok in H
  | H : p_ret _ = Some (Ok _) |- _ => injection H as H; subst
  end.

(** ** With state *)

Definition PState (S A : Type) : Type := S -> option (S * Result A).

Definition ps_ret {S A} (a : A) : PState S A := fun s => Some (s, Ok a).
Definition ps_err {S A} (e : Error) : PState S A := fun s => Some (s, Err e).
Definition ps_bind {S A B} (m : PState S A) (f : A -> PState S B) : PState S B := fun s =>
  match m s with
  | Some (s', Ok a) => f a s'
  | Some (s', Err e) => Some (s', Err e)
  | None => None
  end.
(** A state-passing function that does not panic, and a pure one that may. *)
Definition ps_run {S A} (m : StateR S A) : PState S A := fun s => Some (m s).
Definition ps_pure {S A} (m : PResult A) : PState S A := fun s => match m with Some r => Some (s, r) | None => None end.
Definition ps_read {S A} (f : S -> PResult A) : PState S A := fun s => match f s with Some r => Some (s, r) | None => None end.
Definition ps_modify {S} (f : S -> S) : PState S () := fun s => Some (f s, Ok ()).
Definition ps_assert {S} (b : bool) : PState S () := fun s => if b then Some (s, Ok ()) else None.

Declare Scope pstate_scope.
Delimit Scope pstate_scope with pstate.
Notation "x <-- m ;; k" := (ps_bind m (fun x => k))
  (at level 100, m at next level, k at level 200, right associativity) : pstate_scope.
Notation "m ;;;; k" := (ps_bind m (fun _ => k))
  (at level 100, k at level 200, right associativity) : pstate_scope.

Lemma ps_bind_Some {S A B} (m : PState S A) (f : A -> PState S B) s s' r :
  ps_bind m f s = Some (s', r) <->
  (exists t a, m s = Some (t, Ok a) /\ f a t = Some (s', r)) \/ (exists e, r = Err e /\ m s = Some (s', Err e)).
Proof.
  unfold ps_bind. destruct (m s) as [[t [a|e]]|]; split.
  - intros Hf. left. by exists t, a.
  - intros [(t' & a' & [= <- <-] & Hf)|(e & _ & [=])]. done.
  - intros [= <- <-]. right. by exists e.
  - intros [(t' & a' & [=] & _)|(e' & -> & [= -> ->])]. done.
  - done.
  - intros [(t' & a' & [=] & _)|(e' & _ & [=])].
Qed.
