(* ===== verification/JournalEntry.v ===== *)
(** * Journal entries

    Models [src/src/journal/entry.rs]: the four kinds of journal records and their
    byte encoding. The tags of [lsm_tree] value and compression types, LZ4 and the
    XXH3 checksum are third-party code and enter through [JournalCodec], and so does the
    build profile: with [debug_assertions], a failing [debug_assert!] is a panic. *)

From stdpp Require Import base list strings.
From S2P Require Import Prelude Errors Store Panic.

(** [lsm_tree::ValueType]. *)
Inductive ValueType := Value | Tombstone | WeakTombstone | Indirection.

#[export] Instance ValueType_eq_dec : EqDecision ValueType.
Proof. solve_decision. Defined.

(** What the journal relies on: tags that read back, of a fixed size; lossless LZ4;
    a checksum of 64 bits. *)
Class JournalCodec := {
  value_type_byte : ValueType -> byte;
  value_type_of : byte -> option ValueType;
  value_type_roundtrip vt : value_type_of (value_type_byte vt) = Some vt;
  compression_encode : CompressionType -> bytes;
  compression_decode : bytes -> (CompressionType * bytes) + LsmError;
  compression_width : nat;
  compression_encode_width c : length (compression_encode c) = compression_width;
  compression_roundtrip c r : compression_decode (compression_encode c ++ r) = inl (c, r);
  compression_decode_width r c r' :
    compression_decode r = inl (c, r') -> exists p, r = p ++ r' /\ length p = compression_width;
  lz4_compress : bytes -> bytes;
  (** [decompress_into] a buffer of the given size: the bytes written. *)
  lz4_decompress_into : bytes -> nat -> option bytes;
  lz4_roundtrip v : lz4_decompress_into (lz4_compress v) (length v) = Some v;
  xxh3 : bytes -> Z;
  xxh3_u64 bs : is_u64 (xxh3 bs);
  (** [cfg!(debug_assertions)]. *)
  debug_assertions : bool
}.

Definition MAGIC_BYTES : bytes := [Byte.x46; Byte.x4a; Byte.x4c; Byte.x03].

Inductive Tag := TagStart | TagItem | TagEnd | TagClear.

Definition tag_byte (t : Tag) : byte :=
  match t with TagStart => Byte.x01 | TagItem => Byte.x02 | TagEnd => Byte.x03 | TagClear => Byte.x04 end.

Definition tag_try_from (b : byte) : Result Tag :=
  match b with
  | Byte.x01 => Ok TagStart
  | Byte.x02 => Ok TagItem
  | Byte.x03 => Ok TagEnd
  | Byte.x04 => Ok TagClear
  | _ => Err (InvalidTag "JournalMarkerTag" b)
  end.

Inductive Entry :=
  | Start (item_count : Z) (seqno : Z)
  | Item (keyspace_id : Z) (key value : bytes) (value_type : ValueType) (compression : CompressionType)
  | End (checksum : Z)
  | Clear (keyspace_id : Z).

#[export] Instance Entry_eq_dec : EqDecision Entry.
Proof. solve_decision. Defined.

Section codec.
#[local] Open Scope panic_scope.
Context `{JournalCodec}.

(** [serialize_marker_item]; the length fields are truncated to their widths. *)
Definition serialize_marker_item (keyspace_id : Z) (key value : bytes) (value_type : ValueType)
    (compression : CompressionType) : bytes :=
  let compressed_value := match compression with
                          | CompressionNone => value
                          | Lz4 => lz4_compress value
                          end in
  [tag_byte TagItem] ++
  [value_type_byte value_type] ++
  compression_encode compression ++
  le_bytes 8 keyspace_id ++
  le_bytes 2 (Z.of_nat (length key)) ++
  le_bytes 4 (Z.of_nat (length value)) ++
  le_bytes 4 (Z.of_nat (length compressed_value)) ++
  key ++
  compressed_value.

Definition encode_into (e : Entry) : bytes :=
  match e with
  | Start item_count seqno => [tag_byte TagStart] ++ le_bytes 4 item_count ++ le_bytes 8 seqno
  | Item keyspace_id key value value_type compression =>
      serialize_marker_item keyspace_id key value value_type compression
  | End val => [tag_byte TagEnd] ++ le_bytes 8 val ++ MAGIC_BYTES
  | Clear keyspace_id => [tag_byte TagClear] ++ le_bytes 8 keyspace_id
  end.

(** [CompressionType::decode_from], whose error is an [lsm_tree] error. *)
Definition read_compression (r : bytes) : Result (CompressionType * bytes) :=
  match compression_decode r with
  | inl p => Ok p
  | inr e => Err (Storage e)
  end.

(** [debug_assert!]. *)
Definition debug_assert (P : Prop) `{!Decision P} : PResult () :=
  if debug_assertions && negb (bool_decide P) then None else p_ret ().

(** [None] is the failed assertion on the lengths of an uncompressed value. *)
Definition decode_from (r : bytes) : PResult (Entry * bytes) :=
  '(b, r) <-? p_lift (read_u8 r) ;;
  tag <-? p_lift (tag_try_from b) ;;
  match tag with
  | TagStart =>
      '(item_count, r) <-? p_lift (read_le 4 r) ;;
      '(seqno, r) <-? p_lift (read_le 8 r) ;;
      p_ret (Start item_count seqno, r)
  | TagItem =>
      '(vt, r) <-? p_lift (read_u8 r) ;;
      value_type <-? p_lift (ok_or (value_type_of vt) (Storage (LsmInvalidTag "ValueType" vt))) ;;
      '(compression, r) <-? p_lift (read_compression r) ;;
      '(keyspace_id, r) <-? p_lift (read_le 8 r) ;;
      '(key_len, r) <-? p_lift (read_le 2 r) ;;
      '(value_len, r) <-? p_lift (read_le 4 r) ;;
      '(on_disk_value_len, r) <-? p_lift (read_le 4 r) ;;
      '(key, r) <-? p_lift (read_exact (Z.to_nat key_len) r) ;;
      match compression with
      | CompressionNone =>
          _ <-? debug_assert (value_len = on_disk_value_len) ;;
          '(value, r) <-? p_lift (read_exact (Z.to_nat on_disk_value_len) r) ;;
          p_ret (Item keyspace_id key value value_type compression, r)
      | Lz4 =>
          '(compressed_value, r) <-? p_lift (read_exact (Z.to_nat on_disk_value_len) r) ;;
          value <-? p_lift (ok_or (lz4_decompress_into compressed_value (Z.to_nat value_len)) (Decompress Lz4)) ;;
          if decide (length value <> Z.to_nat value_len) then p_lift (Err (Decompress Lz4))
          else p_ret (Item keyspace_id key value value_type compression, r)
      end
  | TagEnd =>
      '(checksum, r) <-? p_lift (read_le 8 r) ;;
      '(magic, r) <-? p_lift (read_exact (length MAGIC_BYTES) r) ;;
      if decide (magic <> MAGIC_BYTES) then p_lift (Err InvalidTrailer)
      else p_ret (End checksum, r)
  | TagClear =>
      '(keyspace_id, r) <-? p_lift (read_le 8 r) ;;
      p_ret (Clear keyspace_id, r)
  end.

(** ** Well-formed entries: every field fits its width *)

Definition stored_value (value : bytes) (compression : CompressionType) : bytes :=
  match compression with CompressionNone => value | Lz4 => lz4_compress value end.

Definition entry_wf (e : Entry) : Prop :=
  match e with
  | Start item_count seqno => is_u32 item_count /\ is_u64 seqno
  | Item keyspace_id key value _ compression =>
      is_u64 keyspace_id /\ Z.of_nat (length key) <= u16_max /\ Z.of_nat (length value) <= u32_max /\
      Z.of_nat (length (stored_value value compression)) <= u32_max
  | End checksum => is_u64 checksum
  | Clear keyspace_id => is_u64 keyspace_id
  end.

Lemma tag_roundtrip t : tag_try_from (tag_byte t) = Ok t.
Proof. by destruct t. Qed.

Lemma u64_width z : is_u64 z -> 0 <= z < 256 ^ Z.of_nat 8.
Proof. unfold_ranges. simpl. lia. Qed.
Lemma u32_width z : is_u32 z -> 0 <= z < 256 ^ Z.of_nat 4.
Proof. unfold_ranges. simpl. lia. Qed.

Lemma debug_assert_true (P : Prop) `{!Decision P} : P -> debug_assert P = p_ret ().
Proof. intros HP. unfold debug_assert. rewrite bool_decide_eq_true_2 by done. by rewrite andb_false_r. Qed.

(** The next read of a decoder. *)
Ltac next_read := cbn [app read_u8 p_bind p_lift p_ret ok_or].

Lemma decode_item_roundtrip ks key value vt c r :
  entry_wf (Item ks key value vt c) ->
  decode_from (serialize_marker_item ks key value vt c ++ r) = Some (Ok (Item ks key value vt c, r)).
Proof.
  intros (Hks & Hk & Hv & Hs). unfold serialize_marker_item. fold (stored_value value c).
  unfold decode_from. rewrite <- !app_assoc. next_read. rewrite tag_roundtrip.
  next_read. rewrite value_type_roundtrip. next_read.
  unfold read_compression. rewrite compression_roundtrip. next_read.
  rewrite read_le_app by (by apply u64_width). next_read.
  rewrite read_le_app by (unfold u16_max in Hk; simpl; lia). next_read.
  rewrite read_le_app by (unfold u32_max in Hv; simpl; lia). next_read.
  rewrite read_le_app by (unfold u32_max in Hs; simpl; lia). next_read.
  rewrite read_exact_app by lia. next_read.
  destruct c; cbn [stored_value].
  - rewrite debug_assert_true by done. next_read. by rewrite read_exact_app by lia.
  - rewrite read_exact_app by lia. next_read. rewrite Nat2Z.id, lz4_roundtrip. next_read. rewrite decide_False; [done|lia].
Qed.

(** Decoding an encoded entry, followed by anything. *)
Lemma decode_encode e r : entry_wf e -> decode_from (encode_into e ++ r) = Some (Ok (e, r)).
Proof.
  destruct e as [count seqno|ks key value vt c|checksum|ks]; intros Hw; [|by apply decode_item_roundtrip|..];
    unfold decode_from, encode_into; rewrite <- ?app_assoc; next_read; rewrite tag_roundtrip; next_read.
  - destruct Hw as [Hc Hs]. rewrite read_le_app by (by apply u32_width). next_read. by rewrite read_le_app by (by apply u64_width).
  - rewrite read_le_app by (by apply u64_width). next_read.
    rewrite read_exact_app by done. next_read. by rewrite decide_False by (by intros []).
  - by rewrite read_le_app by (by apply u64_width).
Qed.

(** ** What a failed or torn read looks like *)

(** The errors at which the journal reader stops quietly. *)
Definition stop_error (e : Error) : bool :=
  match e with
  | Io UnexpectedEof | Io IoErrorOther => true
  | Io _ => false
  | _ => true
  end.

(** Readers that fail only with an error the journal reader stops at. *)
Definition fails_quietly {A} (m : Result A) : Prop := forall e, m = Err e -> stop_error e = true.

Lemma quiet_bind {A B} (m : Result A) (f : A -> Result B) :
  fails_quietly m -> (forall a, fails_quietly (f a)) -> fails_quietly (m ≫= f).
Proof. intros Hm Hf e [E|(a & _ & E)]%bind_Err; [by apply Hm|by apply (Hf a)]. Qed.

Lemma quiet_Ok {A} (a : A) : fails_quietly (Ok a).
Proof. by intros e [=]. Qed.
Lemma quiet_Err {A} e : stop_error e = true -> fails_quietly (@Err A e).
Proof. by intros H' e' [= <-]. Qed.
Lemma quiet_read_exact n r : fails_quietly (read_exact n r).
Proof. by intros e ->%read_exact_Err. Qed.
Lemma quiet_read_u8 r : fails_quietly (read_u8 r).
Proof. destruct r; intros e [=]; by subst. Qed.
Lemma quiet_read_le n r : fails_quietly (read_le n r).
Proof. apply quiet_bind; [apply quiet_read_exact|]. intros []. apply quiet_Ok. Qed.
Lemma quiet_ok_or {A} (o : option A) e : stop_error e = true -> fails_quietly (ok_or o e).
Proof. intros He. destruct o; [apply quiet_Ok|by apply quiet_Err]. Qed.

(** The same for computations that may panic. *)
Definition p_quiet {A} (m : PResult A) : Prop := forall e, m = Some (Err e) -> stop_error e = true.

Lemma quiet_p_bind {A B} (m : PResult A) (f : A -> PResult B) : p_quiet m -> (forall a, p_quiet (f a)) -> p_quiet (p_bind m f).
Proof. intros Hm Hf e. destruct m as [[a|e']|]; cbn [p_bind]; [apply Hf|intros [= <-]; by apply Hm|done]. Qed.
Lemma quiet_p_lift {A} (r : Result A) : fails_quietly r -> p_quiet (p_lift r).
Proof. intros Hr e [= ->]. by apply Hr. Qed.
Lemma quiet_p_ret {A} (a : A) : p_quiet (p_ret a).
Proof. by intros e [=]. Qed.
Lemma quiet_debug_assert (P : Prop) `{!Decision P} : p_quiet (debug_assert P).
Proof. intros e. unfold debug_assert. by destruct (_ && _). Qed.

Create HintDb quiet.
#[local] Hint Resolve quiet_p_ret quiet_debug_assert quiet_read_u8 quiet_read_le quiet_read_exact quiet_Ok : quiet.

(** One read after another. *)
Ltac quiet_reads := repeat (apply quiet_p_bind; [first [by auto with quiet|by apply quiet_p_lift; auto with quiet]|intros []]).

Lemma decode_from_quiet r : p_quiet (decode_from r).
Proof.
  unfold decode_from. quiet_reads. apply quiet_p_bind; [apply quiet_p_lift; by destruct b; (apply quiet_Ok || by apply quiet_Err)|]. intros [].
  - quiet_reads. auto with quiet.
  - quiet_reads. apply quiet_p_bind; [by apply quiet_p_lift, quiet_ok_or|]. intros value_type.
    apply quiet_p_bind; [apply quiet_p_lift; unfold read_compression; destruct (compression_decode _); [apply quiet_Ok|by apply quiet_Err]|].
    intros [c r3]. quiet_reads. destruct c; quiet_reads; [auto with quiet|].
    apply quiet_p_bind; [by apply quiet_p_lift, quiet_ok_or|intros v].
    case_decide; [by apply quiet_p_lift, quiet_Err|auto with quiet].
  - quiet_reads. case_decide; [by apply quiet_p_lift, quiet_Err|auto with quiet].
  - quiet_reads. auto with quiet.
Qed.

(** Only the debug assertion panics. *)
Lemma p_bind_None {A B} (m : PResult A) (f : A -> PResult B) : p_bind m f = None -> m = None \/ exists a, m = Some (Ok a) /\ f a = None.
Proof. destruct m as [[a|e]|]; cbn [p_bind]; [intros Hf; right; by exists a|done|by left]. Qed.

Lemma decode_from_None r : decode_from r = None -> debug_assertions = true.
Proof.
  unfold decode_from. intros Hd.
  repeat match goal with
  | H : p_bind _ _ = None |- _ => apply p_bind_None in H as [H|(? & _ & H)]
  | H : p_lift _ = None |- _ => discriminate H
  | H : p_ret _ = None |- _ => discriminate H
  | H : debug_assert _ = None |- _ => unfold debug_assert in H; by destruct debug_assertions
  | H : context [let '(_, _) := ?x in _] |- _ => destruct x
  | H : match ?x with _ => _ end = None |- _ => destruct x
  end.
Qed.

Definition tag_of (e : Entry) : Tag :=
  match e with Start _ _ => TagStart | Item _ _ _ _ _ => TagItem | End _ => TagEnd | Clear _ => TagClear end.

(** The fixed-size header of an item. *)
Definition item_header (vt : byte) (comp : bytes) (ks klen vlen dlen : Z) : bytes :=
  [tag_byte TagItem] ++ [vt] ++ comp ++ le_bytes 8 ks ++ le_bytes 2 klen ++ le_bytes 4 vlen ++ le_bytes 4 dlen.

(** The bytes a successful read has consumed. *)
Definition consumed_shape (e : Entry) (p : bytes) : Prop :=
  match e with
  | Start item_count seqno => p = encode_into (Start item_count seqno)
  | Clear keyspace_id => p = encode_into (Clear keyspace_id)
  | End checksum => p = encode_into (End checksum)
  | Item ks key _ _ _ =>
      exists vt comp vlen dlen stored,
        p = item_header vt comp ks (Z.of_nat (length key)) vlen dlen ++ key ++ stored /\
        length comp = compression_width /\ Z.of_nat (length stored) = dlen /\
        Z.of_nat (length key) < 256 ^ Z.of_nat 2 /\ dlen < 256 ^ Z.of_nat 4
  end.

Lemma tag_try_from_Ok b t : tag_try_from b = Ok t -> b = tag_byte t.
Proof. destruct b; intros [= <-]; done. Qed.

Lemma read_u8_Ok r b r' : read_u8 r = Ok (b, r') -> r = b :: r'.
Proof. destruct r; [done|]. by intros [= -> ->]. Qed.

(** Read inversions, one after another. *)
Ltac inv_reads :=
  repeat (inv_p; simplify_eq;
    match goal with
    | H : read_u8 _ = Ok ?p |- _ => destruct p; apply read_u8_Ok in H as ->
    | H : read_le _ _ = Ok ?p |- _ => destruct p; apply read_le_Ok in H as [-> ?]
    | H : read_exact _ _ = Ok ?p |- _ => destruct p; apply read_exact_Ok in H as [-> ?]
    | H : tag_try_from _ = Ok _ |- _ => apply tag_try_from_Ok in H as ->
    end; cbn beta iota in *).

Lemma decode_item_Ok r e r' :
  decode_from (tag_byte TagItem :: r) = Some (Ok (e, r')) ->
  exists p, tag_byte TagItem :: r = p ++ r' /\ consumed_shape e p /\ tag_of e = TagItem.
Proof.
  unfold decode_from. intros ([b0 r0] & Hb & Hd)%p_bind_Ok. injection Hb as <- <-.
  apply p_bind_Ok in Hd as (tag & Ht%p_lift_Ok & Hd). cbn in Ht. injection Ht as <-. cbn beta iota in Hd.
  inv_reads. inv_p. destruct x0 as [c r3]. unfold read_compression in Hx0.
  destruct (compression_decode _) as [[c' r4]|] eqn:Ec; [|done]. injection Hx0 as -> ->.
  apply compression_decode_width in Ec as (pc & -> & Hpc). cbn beta iota in *.
  inv_reads.
  assert (exists stored value, l1 = stored ++ r' /\ length stored = Z.to_nat z2 /\ e = Item z l value x c)
    as (stored & value & -> & Hs & ->).
  { destruct c; inv_reads; inv_p.
    - simplify_eq. by eexists _, _.
    - case_decide; [done|]. inv_p. simplify_eq. by eexists _, _. }
  exists (item_header b pc z z0 z1 z2 ++ l ++ stored). unfold item_header. split; [|split; [|done]].
  - by rewrite <- !app_assoc.
  - exists b, pc, z1, z2, stored. assert (Z.of_nat (length l) = z0) as <- by lia. split; [done|]. split; [done|]. split; [lia|]. split; [|apply H3]. lia.
Qed.

Lemma decode_from_Ok r e r' : decode_from r = Some (Ok (e, r')) -> exists p, r = p ++ r' /\ consumed_shape e p.
Proof.
  intros Hd. pose proof Hd as Hd'. unfold decode_from in Hd. inv_p. destruct x as [b r1].
  apply read_u8_Ok in Hx as ->. inv_p. apply tag_try_from_Ok in Hx as ->. destruct x.
  - clear Hd'. inv_reads. inv_p. simplify_eq. eexists. split; [|done]. unfold encode_into. by rewrite <- !app_assoc.
  - apply decode_item_Ok in Hd' as (p & ? & ? & _). by exists p.
  - clear Hd'. inv_reads. inv_p. case_decide as Hm; [done|]. inv_p. simplify_eq.
    eexists. split; [|done]. unfold encode_into. by rewrite <- !app_assoc.
  - clear Hd'. inv_reads. inv_p. simplify_eq. eexists. split; [|done]. unfold encode_into. by rewrite <- !app_assoc.
Qed.

Lemma consumed_head e p : consumed_shape e p -> head p = Some (tag_byte (tag_of e)).
Proof. destruct e; simpl; intros Hp; [by subst| |by subst..]. by destruct Hp as (? & ? & ? & ? & ? & -> & _). Qed.

Lemma encode_head e : exists p, encode_into e = tag_byte (tag_of e) :: p.
Proof. destruct e; by eexists. Qed.

Lemma tag_byte_inj t u : tag_byte t = tag_byte u -> t = u.
Proof. by destruct t, u. Qed.

(** ** Torn entries *)

Definition zeros (m : nat) : bytes := repeat Byte.x00 m.

Lemma app_take_zeros E p r n m :
  p ++ r = take n E ++ zeros m -> (n <= length E)%nat -> (n <= length p)%nat ->
  exists k m', p = take n E ++ zeros k /\ r = zeros m'.
Proof.
  intros Heq Hn Hp. assert (length (take n E) = n) as Ht by (rewrite length_take; lia).
  apply app_eq_inv in Heq as [(k & -> & Hz)|(k & E1 & E2)].
  - symmetry in Hz. exists (length k), (length r). unfold zeros in *.
    assert (forall b, b ∈ k ++ r -> b = Byte.x00) as Hall.
    { intros b Hb. rewrite Hz in Hb. by apply list_elem_of_In, repeat_spec in Hb. }
    split.
    + f_equal. clear -Hall. induction k as [|b k IH]; [done|]. simpl. f_equal; [apply Hall; left|].
      apply IH. intros. apply Hall. by right.
    + clear -Hall. induction r as [|b r IH]; [done|]. simpl.
      f_equal; [apply Hall, elem_of_app; right; left|]. apply IH. intros b' [?|?]%elem_of_app; apply Hall, elem_of_app; [by left|].
      right. by right.
  - assert (k = []) as ->.
    { apply (f_equal length) in E1. rewrite length_app in E1. destruct k; [done|]. simpl in E1. lia. }
    rewrite app_nil_r in E1. exists 0%nat, m. simpl. rewrite app_nil_r. done.
Qed.

Lemma item_encoding ks key value vt c :
  encode_into (Item ks key value vt c) =
  item_header (value_type_byte vt) (compression_encode c) ks (Z.of_nat (length key))
    (Z.of_nat (length value)) (Z.of_nat (length (stored_value value c))) ++ key ++ stored_value value c.
Proof. unfold encode_into, serialize_marker_item, item_header. fold (stored_value value c). by rewrite <- !app_assoc. Qed.

Lemma item_header_length vt comp ks klen vlen dlen :
  length (item_header vt comp ks klen vlen dlen) = (length comp + 20)%nat.
Proof. unfold item_header. rewrite !length_app, !le_bytes_length. simpl. lia. Qed.

(** Headers that agree announce the same lengths. *)
Lemma item_header_inj vt comp ks klen vlen dlen vt' comp' ks' klen' vlen' dlen' a b :
  length comp = length comp' ->
  0 <= klen < 256 ^ Z.of_nat 2 -> 0 <= klen' < 256 ^ Z.of_nat 2 ->
  0 <= dlen < 256 ^ Z.of_nat 4 -> 0 <= dlen' < 256 ^ Z.of_nat 4 ->
  item_header vt comp ks klen vlen dlen ++ a = item_header vt' comp' ks' klen' vlen' dlen' ++ b ->
  klen = klen' /\ dlen = dlen'.
Proof.
  intros Hc H1 H2 H3 H4 E. apply app_inj_1 in E as [E _]; [|by rewrite !item_header_length, Hc].
  unfold item_header in E. do 3 (apply app_inj_1 in E as [_ E]; [|done]).
  apply app_inj_1 in E as [_ E]; [|by rewrite !le_bytes_length].
  apply app_inj_1 in E as [Ek E]; [|by rewrite !le_bytes_length].
  apply app_inj_1 in E as [_ Ed]; [|by rewrite !le_bytes_length].
  apply (f_equal le_val) in Ek, Ed. rewrite !le_val_bytes in Ek, Ed by done. done.
Qed.

Lemma last_zeros (l : bytes) k : (0 < k)%nat -> last (l ++ zeros k) = Some Byte.x00.
Proof.
  intros Hk. destruct k as [|k]; [lia|]. unfold zeros.
  replace (S k) with (k + 1)%nat by lia. rewrite repeat_app, app_assoc. apply last_snoc.
Qed.

(** The consumed part reaches past the tear. *)
Lemma torn_consumed e e' p n m r' :
  entry_wf e -> (n < length (encode_into e))%nat -> consumed_shape e' p -> tag_of e' = tag_of e ->
  p ++ r' = take n (encode_into e) ++ zeros m -> (n <= length p)%nat.
Proof.
  intros Hw Hn Hp Ht Heq. destruct (decide (n <= length p)%nat) as [|Hlt]; [done|]. exfalso.
  assert (exists q, encode_into e = p ++ q) as [q Hq].
  { apply app_eq_inv in Heq as [(k & -> & _)|(k & E & _)].
    - rewrite length_app, length_take in Hlt. lia.
    - exists (k ++ drop n (encode_into e)). by rewrite app_assoc, <- E, take_drop. }
  assert (length p < length (encode_into e))%nat as Hlen by lia.
  destruct e as [count seqno|ks key value vt c|checksum|ks], e' as [c' s'|ks' key' v' vt' c'|ch'|ks']; try done;
    try (simpl in Hp; subst p; cbn [encode_into] in Hlen; rewrite !length_app, !le_bytes_length in Hlen; simpl in Hlen; lia).
  rewrite item_encoding in Hq, Hlen. destruct Hw as (_ & Hk & _ & Hd).
  destruct Hp as (vt2 & comp & vlen & dlen & stored & -> & Hc & Hs & Hk' & Hd'). rewrite <- app_assoc in Hq.
  apply item_header_inj in Hq as [Ek Ed];
    [|by rewrite compression_encode_width|unfold u16_max in Hk; simpl; lia|simpl in *; lia|unfold u32_max in Hd; simpl; lia|simpl in *; lia].
  rewrite !length_app, !item_header_length, compression_encode_width, Hc in Hlen. lia.
Qed.

Lemma end_length checksum : length (encode_into (End checksum)) = 13%nat.
Proof. cbn [encode_into]. by rewrite !length_app, !le_bytes_length. Qed.

(** An entry that was torn off after [n] of its bytes, with zero bytes after the
    tear, is either rejected or read as an entry of the same kind behind which only
    zero bytes are left; an end marker is never read from a torn one. *)
Lemma decode_torn e n m e' r' :
  entry_wf e -> (0 < n < length (encode_into e))%nat ->
  decode_from (take n (encode_into e) ++ zeros m) = Some (Ok (e', r')) ->
  tag_of e' = tag_of e /\ tag_of e <> TagEnd /\ exists m', r' = zeros m'.
Proof.
  intros Hw Hn Hd. apply decode_from_Ok in Hd as (p & Heq & Hp). symmetry in Heq.
  assert (tag_of e' = tag_of e) as Ht.
  { apply tag_byte_inj, (inj Some). rewrite <- (consumed_head _ _ Hp).
    destruct (encode_head e) as [q Hq]. rewrite Hq in *. destruct n as [|n]; [lia|]. simpl in Heq.
    assert (p <> []) as Hne by (intros ->; by apply consumed_head in Hp). 
    destruct p as [|b p]; [done|]. simpl in Heq. by injection Heq as -> _. }
  pose proof (torn_consumed e e' p n m r' Hw ltac:(lia) Hp Ht Heq) as Hlen.
  destruct (app_take_zeros _ _ _ _ _ Heq ltac:(lia) Hlen) as (k & m' & -> & ->).
  split; [done|]. split; [|by exists m'].
  intros HE. destruct e as [| |checksum|]; try done. destruct e' as [| |checksum'|]; try done.
  cbn [consumed_shape] in Hp. destruct (decide (k = 0%nat)) as [->|Hk].
  - apply (f_equal length) in Hp. rewrite length_app, length_take, !end_length in Hp. rewrite end_length in Hn.
    simpl in Hp. lia.
  - apply (f_equal last) in Hp. rewrite last_zeros in Hp by lia. done.
Qed.

Lemma decode_zeros m : exists e, decode_from (zeros m) = Some (Err e) /\ stop_error e = true.
Proof. destruct m; by eexists. Qed.
End codec.
