(* ===== verification/JournalReader.v ===== *)
(** * Reading a journal

    Models [src/src/journal/reader.rs] and [src/src/journal/batch_reader.rs]: the
    entry reader, which truncates the file at the first position it cannot read, and
    the batch reader on top of it, which emits whole batches and discards an
    incomplete last one. A file is its contents; the position is the stream position
    of the buffered reader. A failed [debug_assert!] of the decoder is a panic, [None]. *)

From stdpp Require Import base list strings.
From S2P Require Import Prelude Errors Store Panic JournalEntry.

(** ** The entry reader *)

Record JournalReader := mkJournalReader { file : bytes; stream_pos : nat; last_valid_pos : nat }.

Definition journal_reader_new (contents : bytes) : JournalReader := mkJournalReader contents 0 0.

Definition remaining (jr : JournalReader) : bytes := drop (stream_pos jr) (file jr).

(** [File::set_len] to a smaller length. *)
Definition truncate_file (jr : JournalReader) (pos : nat) : JournalReader :=
  mkJournalReader (take pos (file jr)) (stream_pos jr) (last_valid_pos jr).

(** [maybe_truncate_file_to_last_valid_pos] after a failed read, which has moved the
    stream position unless there was nothing left to read. *)
Definition maybe_truncate_file_to_last_valid_pos (jr : JournalReader) : JournalReader :=
  let pos := if decide (remaining jr = []) then stream_pos jr else S (stream_pos jr) in
  if decide (last_valid_pos jr < pos)%nat then truncate_file jr (last_valid_pos jr) else jr.

(** [Iterator::next]. *)
Definition next_entry `{JournalCodec} (jr : JournalReader) : option (option (Result Entry) * JournalReader) :=
  match decode_from (remaining jr) with
  | None => None
  | Some (Ok (item, rest)) =>
      let pos := (length (file jr) - length rest)%nat in
      Some (Some (Ok item), mkJournalReader (file jr) pos pos)
  | Some (Err (Io UnexpectedEof)) | Some (Err (Io IoErrorOther)) => Some (None, maybe_truncate_file_to_last_valid_pos jr)
  | Some (Err (Io k)) => Some (Some (Err (Io k)), jr)
  | Some (Err _) => Some (None, maybe_truncate_file_to_last_valid_pos jr)
  end.

(** ** The batch reader *)

Record ReadBatchItem := mkReadBatchItem {
  ri_keyspace_id : Z; ri_key : bytes; ri_value : bytes; ri_value_type : ValueType
}.

Record Batch := mkBatch { b_seqno : Z; b_items : list ReadBatchItem; b_cleared_keyspaces : list Z }.

(** [hashed] are the bytes the checksum builder was fed with. *)
Record JournalBatchReader := mkJournalBatchReader {
  reader : JournalReader;
  items : list ReadBatchItem;
  cleared_keyspaces : list Z;
  is_in_batch : bool;
  batch_counter : Z;
  batch_seqno : Z;
  br_last_valid_pos : nat;
  hashed : bytes
}.

Definition batch_reader_new (jr : JournalReader) : JournalBatchReader :=
  mkJournalBatchReader jr [] [] false 0 0 0 [].

Definition with_reader (br : JournalBatchReader) (jr : JournalReader) : JournalBatchReader :=
  mkJournalBatchReader jr (items br) (cleared_keyspaces br) (is_in_batch br) (batch_counter br)
    (batch_seqno br) (br_last_valid_pos br) (hashed br).

Definition with_hashed (br : JournalBatchReader) (h : bytes) : JournalBatchReader :=
  mkJournalBatchReader (reader br) (items br) (cleared_keyspaces br) (is_in_batch br) (batch_counter br)
    (batch_seqno br) (br_last_valid_pos br) h.

(** [truncate_to]. *)
Definition truncate_to (br : JournalBatchReader) (pos : nat) : JournalBatchReader :=
  with_reader br (truncate_file (reader br) pos).

Definition on_close (br : JournalBatchReader) : JournalBatchReader :=
  if is_in_batch br then truncate_to br (br_last_valid_pos br) else br.

(** The [match] of the loop on one entry: go on with a new state, or return. *)
Inductive LoopStep :=
  | Continue (br : JournalBatchReader)
  | Return (r : option (Result Batch)) (br : JournalBatchReader).

Definition discard (br : JournalBatchReader) : LoopStep :=
  Return None (truncate_to br (br_last_valid_pos br)).

Definition fail_recovery (e : RecoveryError) (br : JournalBatchReader) : LoopStep :=
  Return (Some (Err (JournalRecovery e))) br.

Definition on_entry `{JournalCodec} (br : JournalBatchReader) (item : Entry) : LoopStep :=
  let journal_file_pos := last_valid_pos (reader br) in
  match item with
  | Start item_count seqno =>
      if is_in_batch br then discard br
      else Continue (mkJournalBatchReader (reader br) (items br) (cleared_keyspaces br) true item_count seqno
                       (br_last_valid_pos br) (hashed br))
  | End expected_checksum =>
      if decide (0 < batch_counter br) then fail_recovery InsufficientLength br
      else if negb (is_in_batch br) then discard br
      else
        let got_checksum := xxh3 (hashed br) in
        let br := with_hashed br [] in
        if decide (got_checksum <> expected_checksum) then fail_recovery ChecksumMismatch br
        else
          Return (Some (Ok (mkBatch (batch_seqno br) (items br) (cleared_keyspaces br))))
            (mkJournalBatchReader (reader br) [] [] false 0 (batch_seqno br) journal_file_pos (hashed br))
  | Item keyspace_id key value value_type compression =>
      let br := with_hashed br (hashed br ++ encode_into item) in
      if negb (is_in_batch br) then discard br
      else if decide (batch_counter br = 0) then fail_recovery TooManyItems br
      else Continue (mkJournalBatchReader (reader br)
             (items br ++ [mkReadBatchItem keyspace_id key value value_type]) (cleared_keyspaces br) true
             (batch_counter br - 1) (batch_seqno br) (br_last_valid_pos br) (hashed br))
  | Clear keyspace_id =>
      let br := with_hashed br (hashed br ++ encode_into item) in
      if negb (is_in_batch br) then discard br
      else if decide (batch_counter br = 0) then fail_recovery TooManyItems br
      else Continue (mkJournalBatchReader (reader br) (items br) (cleared_keyspaces br ++ [keyspace_id]) true
             (batch_counter br - 1) (batch_seqno br) (br_last_valid_pos br) (hashed br))
  end.

(** [Iterator::next]: the [loop]; [None] marks a panic or exhausted fuel. *)
Fixpoint next_batch `{JournalCodec} (fuel : nat) (br : JournalBatchReader) :
    option (option (Result Batch) * JournalBatchReader) :=
  match fuel with
  | O => None
  | S fuel =>
      match next_entry (reader br) with
      | None => None
      | Some (item, jr) =>
          let br := with_reader br jr in
          match item with
          | None => Some (None, on_close br)
          | Some (Err e) => Some (Some (Err e), br)
          | Some (Ok item) =>
              match on_entry br item with
              | Continue br => next_batch fuel br
              | Return r br => Some (r, br)
              end
          end
      end
  end.

(** Every entry takes at least a byte. *)
Definition next_fuel (br : JournalBatchReader) : nat := S (length (remaining (reader br))).

(** [for batch in reader { let batch = batch?; .. }]: the batches of a journal and the
    file as the reader leaves it. *)
Fixpoint read_batches `{JournalCodec} (fuel : nat) (br : JournalBatchReader) :
    option (Result (list Batch) * bytes) :=
  match fuel with
  | O => None
  | S fuel =>
      match next_batch (next_fuel br) br with
      | None => None
      | Some (None, br) => Some (Ok [], file (reader br))
      | Some (Some (Err e), br) => Some (Err e, file (reader br))
      | Some (Some (Ok batch), br) =>
          match read_batches fuel br with
          | Some (Ok batches, f) => Some (Ok (batch :: batches), f)
          | r => r
          end
      end
  end.

Definition read_journal `{JournalCodec} (contents : bytes) : option (Result (list Batch) * bytes) :=
  read_batches (S (length contents)) (batch_reader_new (journal_reader_new contents)).

(** ** Batches as the writer lays them out *)

Section reading.
Context `{JournalCodec}.

Definition body_bytes (es : list Entry) : bytes := concat (encode_into <$> es).

(** A batch on disk: start marker, items, end marker with their checksum. *)
Definition batch_bytes (seqno : Z) (es : list Entry) : bytes :=
  encode_into (Start (Z.of_nat (length es)) seqno) ++ body_bytes es ++ encode_into (End (xxh3 (body_bytes es))).

Definition is_body (e : Entry) : bool :=
  match e with Item _ _ _ _ _ | Clear _ => true | _ => false end.

Definition batch_wf (b : Z * list Entry) : Prop :=
  is_u64 b.1 /\ Z.of_nat (length b.2) <= u32_max /\ Forall (fun e => is_body e = true /\ entry_wf e) b.2.

Definition read_item (e : Entry) : option ReadBatchItem :=
  match e with Item ks key value vt _ => Some (mkReadBatchItem ks key value vt) | _ => None end.
Definition read_clear (e : Entry) : option Z := match e with Clear ks => Some ks | _ => None end.

(** What the reader returns for a batch. *)
Definition batch_of (b : Z * list Entry) : Batch := mkBatch b.1 (omap read_item b.2) (omap read_clear b.2).

Definition journal_bytes (bs : list (Z * list Entry)) : bytes := concat ((fun b => batch_bytes b.1 b.2) <$> bs).

(** ** Reading entries *)

Definition reader_at (pre rest : bytes) : JournalReader :=
  mkJournalReader (pre ++ rest) (length pre) (length pre).

Lemma remaining_at pre rest : remaining (reader_at pre rest) = rest.
Proof. apply drop_app_length. Qed.

Lemma next_entry_at pre e rest :
  entry_wf e ->
  next_entry (reader_at pre (encode_into e ++ rest)) = Some (Some (Ok e), reader_at (pre ++ encode_into e) rest).
Proof.
  intros He. unfold next_entry. rewrite remaining_at, decode_encode by done. unfold reader_at. simpl.
  rewrite <- !app_assoc, !length_app.
  replace (length pre + (length (encode_into e) + length rest) - length rest)%nat
    with (length pre + length (encode_into e))%nat by lia. done.
Qed.

Lemma next_entry_stop pre rest e :
  decode_from rest = Some (Err e) -> exists jr, next_entry (reader_at pre rest) = Some (None, jr) /\ file jr = pre.
Proof.
  intros Hd. pose proof (decode_from_quiet rest e Hd) as Hq. unfold next_entry. rewrite remaining_at, Hd.
  assert (file (maybe_truncate_file_to_last_valid_pos (reader_at pre rest)) = pre) as Hf.
  { unfold maybe_truncate_file_to_last_valid_pos. rewrite remaining_at. unfold reader_at; simpl.
    destruct (decide (rest = [])) as [->|]; case_decide; simpl; try lia; by rewrite ?app_nil_r, ?take_app_length. }
  destruct e as [|[]| | | | | | | | | | | | | | | | | |]; simpl in Hq; try done; by eexists.
Qed.

(** ** Reading batches *)

(** The batch reader at a batch boundary: everything before [rest] was emitted. *)
Definition at_boundary (pre rest : bytes) (seqno : Z) : JournalBatchReader :=
  mkJournalBatchReader (reader_at pre rest) [] [] false 0 seqno (length pre) [].

(** Inside a batch that starts behind [base]: [seen] were read, [cnt] are missing. *)
Definition in_batch (base : nat) (pre rest : bytes) (seqno : Z) (seen : list Entry) (cnt : Z) : JournalBatchReader :=
  mkJournalBatchReader (reader_at pre rest) (omap read_item seen) (omap read_clear seen) true cnt seqno base
    (body_bytes seen).

Lemma next_batch_S fuel br :
  next_batch (S fuel) br =
  match next_entry (reader br) with
  | None => None
  | Some (item, jr) =>
      let br := with_reader br jr in
      match item with
      | None => Some (None, on_close br)
      | Some (Err e) => Some (Some (Err e), br)
      | Some (Ok item) =>
          match on_entry br item with
          | Continue br => next_batch fuel br
          | Return r br => Some (r, br)
          end
      end
  end.
Proof. done. Qed.

Lemma body_bytes_snoc es e : body_bytes (es ++ [e]) = body_bytes es ++ encode_into e.
Proof. unfold body_bytes. by rewrite fmap_app, concat_app, <- (app_nil_r (encode_into e)). Qed.

Lemma next_start pre rest seqno s n fuel :
  is_u64 s -> is_u32 n ->
  next_batch (S fuel) (at_boundary pre (encode_into (Start n s) ++ rest) seqno) =
  next_batch fuel (in_batch (length pre) (pre ++ encode_into (Start n s)) rest s [] n).
Proof.
  intros Hs Hn. rewrite next_batch_S. unfold at_boundary at 1. cbn [reader].
  by rewrite next_entry_at.
Qed.

Lemma next_body base pre e rest seqno seen cnt fuel :
  is_body e = true -> entry_wf e -> 0 <= cnt ->
  next_batch (S fuel) (in_batch base pre (encode_into e ++ rest) seqno seen (cnt + 1)) =
  next_batch fuel (in_batch base (pre ++ encode_into e) rest seqno (seen ++ [e]) cnt).
Proof.
  intros Hb He Hc. rewrite next_batch_S. unfold in_batch at 1. cbn [reader].
  rewrite next_entry_at by done. unfold in_batch. rewrite !omap_app, body_bytes_snoc.
  destruct e; try done; unfold on_entry; cbn [with_reader with_hashed is_in_batch batch_counter negb];
    rewrite decide_False by lia; simpl; rewrite ?app_nil_r; by replace (cnt + 1 - 1) with cnt by lia.
Qed.

Lemma next_bodies base pre es rest seqno seen cnt fuel :
  Forall (fun e => is_body e = true /\ entry_wf e) es -> 0 <= cnt ->
  next_batch (length es + fuel) (in_batch base pre (body_bytes es ++ rest) seqno seen (cnt + Z.of_nat (length es))) =
  next_batch fuel (in_batch base (pre ++ body_bytes es) rest seqno (seen ++ es) cnt).
Proof.
  intros Hes Hc. revert pre seen cnt Hc. induction Hes as [|e es [Hb He] _ IH]; intros pre seen cnt Hc.
  { simpl. rewrite Z.add_0_r. unfold body_bytes. simpl. by rewrite !app_nil_r. }
  change (body_bytes (e :: es)) with (encode_into e ++ body_bytes es). rewrite <- !app_assoc.
  cbn [length Nat.add]. replace (cnt + Z.of_nat (S (length es))) with (cnt + Z.of_nat (length es) + 1) by lia.
  rewrite next_body by (done || lia). rewrite IH by done. by rewrite <- !app_assoc.
Qed.

Lemma next_end base pre rest seqno seen fuel :
  next_batch (S fuel) (in_batch base pre (encode_into (End (xxh3 (body_bytes seen))) ++ rest) seqno seen 0) =
  Some (Some (Ok (mkBatch seqno (omap read_item seen) (omap read_clear seen))),
        at_boundary (pre ++ encode_into (End (xxh3 (body_bytes seen)))) rest seqno).
Proof.
  rewrite next_batch_S. unfold in_batch. cbn [reader]. rewrite next_entry_at by apply xxh3_u64.
  unfold on_entry. cbn [with_reader batch_counter is_in_batch hashed negb].
  rewrite decide_False by lia. by rewrite decide_False by (by intros []).
Qed.

(** One whole batch. *)
Lemma next_batch_whole pre b rest seqno fuel :
  batch_wf b -> (length b.2 + 2 <= fuel)%nat ->
  next_batch fuel (at_boundary pre (batch_bytes b.1 b.2 ++ rest) seqno) =
  Some (Some (Ok (batch_of b)), at_boundary (pre ++ batch_bytes b.1 b.2) rest b.1).
Proof.
  destruct b as [s es]. intros (Hs & Hn & Hes) Hf. cbn [fst snd] in *. unfold batch_bytes. rewrite <- !app_assoc.
  replace fuel with (S (length es + S (fuel - length es - 2)))%nat by lia.
  rewrite next_start by (done || (unfold_ranges; lia)).
  rewrite <- (Z.add_0_l (Z.of_nat (length es))), next_bodies by (done || lia).
  rewrite next_end. simpl. by rewrite <- !app_assoc.
Qed.

(** ** Incomplete batches at the end *)

(** The reader returns [None] and leaves the file with the contents [pre]. *)
Definition stops_at (pre : bytes) (fuel : nat) (br : JournalBatchReader) : Prop :=
  exists br', next_batch fuel br = Some (None, br') /\ file (reader br') = pre.

(** Or it panics, at the assertion of a debug build. *)
Definition tears_at (pre : bytes) (fuel : nat) (br : JournalBatchReader) : Prop :=
  stops_at pre fuel br \/ debug_assertions = true /\ next_batch fuel br = None.

Lemma decode_panic pre rest fuel br :
  decode_from rest = None -> remaining (reader br) = rest -> tears_at pre (S fuel) br.
Proof.
  intros Hd Hr. right. split; [by apply (decode_from_None rest)|]. rewrite next_batch_S. unfold next_entry. by rewrite Hr, Hd.
Qed.

Lemma boundary_stop pre rest seqno e fuel :
  decode_from rest = Some (Err e) -> stops_at pre (S fuel) (at_boundary pre rest seqno).
Proof.
  intros Hd. destruct (next_entry_stop pre rest e Hd) as (jr & Hn & Hf). eexists. rewrite next_batch_S.
  unfold at_boundary. cbn [reader]. rewrite Hn. done.
Qed.

Lemma batch_stop pre mid rest seqno seen cnt e fuel :
  decode_from rest = Some (Err e) -> stops_at pre (S fuel) (in_batch (length pre) (pre ++ mid) rest seqno seen cnt).
Proof.
  intros Hd. destruct (next_entry_stop (pre ++ mid) rest e Hd) as (jr & Hn & Hf). eexists. rewrite next_batch_S.
  unfold in_batch. cbn [reader]. rewrite Hn. split; [done|]. simpl. rewrite Hf. apply take_app_length.
Qed.

Lemma zeros_stop pre mid m seqno seen cnt fuel :
  stops_at pre (S fuel) (in_batch (length pre) (pre ++ mid) (zeros m) seqno seen cnt).
Proof. destruct (decode_zeros m) as (e & He & _). by eapply batch_stop. Qed.

Lemma next_entry_Ok pre rest e r' :
  decode_from rest = Some (Ok (e, r')) ->
  exists p, rest = p ++ r' /\ next_entry (reader_at pre rest) = Some (Some (Ok e), reader_at (pre ++ p) r').
Proof.
  intros Hd. pose proof Hd as (p & -> & _)%decode_from_Ok. exists p. split; [done|].
  unfold next_entry. rewrite remaining_at, Hd. unfold reader_at. simpl. rewrite <- !app_assoc, !length_app.
  replace (length pre + (length p + length r') - length r')%nat with (length pre + length p)%nat by lia. done.
Qed.

(** A torn start marker. *)
Lemma torn_start pre n m seqno j s fuel :
  is_u32 n -> is_u64 s -> (j < length (encode_into (Start n s)))%nat ->
  tears_at pre (S (S fuel)) (at_boundary pre (take j (encode_into (Start n s)) ++ zeros m) seqno).
Proof.
  intros Hn Hs Hj. destruct (decode_from (take j (encode_into (Start n s)) ++ zeros m)) as [[[e' r']|e]|] eqn:Hd;
    [|left; by eapply boundary_stop|eapply decode_panic; [done|apply remaining_at]].
  destruct (decide (j = 0%nat)) as [->|Hj0].
  { destruct (decode_zeros m) as (e & He & _). simpl in Hd. congruence. }
  destruct (decode_torn (Start n s) _ _ _ _ (conj Hn Hs) (conj (proj1 (Nat.neq_0_lt_0 _) Hj0) Hj) Hd) as (Ht & _ & m' & ->).
  destruct e'; try done. destruct (next_entry_Ok pre _ _ _ Hd) as (p & _ & Hne).
  left. unfold stops_at. rewrite next_batch_S. unfold at_boundary. cbn [reader]. rewrite Hne.
  apply (zeros_stop pre p m' seqno0 [] item_count fuel).
Qed.

(** A torn item inside a batch. *)
Lemma torn_body pre mid e j m seqno seen cnt fuel :
  entry_wf e -> is_body e = true -> 0 < cnt -> (j < length (encode_into e))%nat ->
  tears_at pre (S (S fuel)) (in_batch (length pre) (pre ++ mid) (take j (encode_into e) ++ zeros m) seqno seen cnt).
Proof.
  intros He Hb Hc Hj. destruct (decode_from (take j (encode_into e) ++ zeros m)) as [[[e' r']|er]|] eqn:Hd;
    [|left; by eapply batch_stop|eapply decode_panic; [done|apply remaining_at]].
  destruct (decide (j = 0%nat)) as [->|Hj0].
  { destruct (decode_zeros m) as (er & Her & _). simpl in Hd. congruence. }
  destruct (decode_torn e _ _ _ _ He (conj (proj1 (Nat.neq_0_lt_0 _) Hj0) Hj) Hd) as (Ht & _ & m' & ->).
  destruct (next_entry_Ok (pre ++ mid) _ _ _ Hd) as (p & _ & Hne).
  left. unfold stops_at. rewrite next_batch_S. unfold in_batch. cbn [reader]. rewrite Hne. rewrite <- app_assoc.
  destruct e, e'; try done; unfold on_entry; cbn [with_reader with_hashed is_in_batch batch_counter negb];
    rewrite decide_False by lia; rewrite next_batch_S; cbn [reader with_reader with_hashed];
    destruct (decode_zeros m') as (er & Her & _);
    destruct (next_entry_stop (pre ++ mid ++ p) (zeros m') er Her) as (jr & Hn & Hf); rewrite Hn;
    (eexists; split; [done|]); simpl; rewrite Hf; apply take_app_length.
Qed.

(** A torn end marker. *)
Lemma torn_end pre mid c j m seqno seen cnt fuel :
  is_u64 c -> (j < length (encode_into (End c)))%nat ->
  tears_at pre (S fuel) (in_batch (length pre) (pre ++ mid) (take j (encode_into (End c)) ++ zeros m) seqno seen cnt).
Proof.
  intros Hc Hj. destruct (decide (j = 0%nat)) as [->|Hj0]; [left; apply zeros_stop|].
  destruct (decode_from (take j (encode_into (End c)) ++ zeros m)) as [[[e' r']|er]|] eqn:Hd;
    [|left; by eapply batch_stop|eapply decode_panic; [done|apply remaining_at]].
  destruct (decode_torn (End c) _ _ _ _ Hc (conj (proj1 (Nat.neq_0_lt_0 _) Hj0) Hj) Hd) as (_ & Hn & _). done.
Qed.

(** A cut through a concatenation goes through one of its parts. *)
Lemma take_concat {A} (ls : list (list A)) n :
  (n < length (concat ls))%nat ->
  exists l1 x l2 j, ls = l1 ++ x :: l2 /\ (j < length x)%nat /\ take n (concat ls) = concat l1 ++ take j x.
Proof.
  revert n. induction ls as [|l ls IH]; intros n Hn; simpl in Hn; [lia|].
  destruct (decide (n < length l)%nat) as [Hl|Hl].
  - exists [], l, ls, n. split; [done|]. split; [done|]. simpl. by rewrite take_app_le by lia.
  - rewrite length_app in Hn. destruct (IH (n - length l)%nat ltac:(lia)) as (l1 & x & l2 & j & -> & Hj & E).
    exists (l :: l1), x, l2, j. split; [done|]. split; [done|]. simpl. rewrite take_app_ge, E by lia. by rewrite app_assoc.
Qed.

Lemma encode_nonempty e : (1 <= length (encode_into e))%nat.
Proof. destruct (encode_head e) as [p ->]. simpl. lia. Qed.

Lemma body_bytes_length es : (length es <= length (body_bytes es))%nat.
Proof.
  induction es as [|e es IH]; [done|]. change (body_bytes (e :: es)) with (encode_into e ++ body_bytes es).
  rewrite length_app. pose proof (encode_nonempty e). simpl. lia.
Qed.

(** The entries of a batch, markers included. *)
Definition batch_entries (b : Z * list Entry) : list Entry :=
  Start (Z.of_nat (length b.2)) b.1 :: b.2 ++ [End (xxh3 (body_bytes b.2))].

Lemma batch_bytes_entries b : batch_bytes b.1 b.2 = concat (encode_into <$> batch_entries b).
Proof.
  unfold batch_bytes, batch_entries, body_bytes. rewrite fmap_cons, fmap_app, concat_cons, concat_app.
  simpl. by rewrite ?app_nil_r.
Qed.

(** The complete entries in front of the tear are read, then the reader stops. *)
Lemma torn_inside pre b es1 x es2 j m seqno fuel :
  batch_wf b -> b.2 ++ [End (xxh3 (body_bytes b.2))] = es1 ++ x :: es2 -> (j < length (encode_into x))%nat ->
  (1 + length es1 + (if decide (j = 0%nat) then 1 else 2) <= fuel)%nat ->
  tears_at pre fuel
    (at_boundary pre (encode_into (Start (Z.of_nat (length b.2)) b.1) ++ body_bytes es1 ++ take j (encode_into x) ++ zeros m) seqno).
Proof.
  destruct b as [s es]. intros (Hs & Hn & Hes) Hx Hj Hf. cbn [fst snd] in *.
  assert (exists k, length es = (length es1 + k)%nat /\ Forall (fun e => is_body e = true /\ entry_wf e) es1 /\
    ((k = 0%nat /\ x = End (xxh3 (body_bytes es1))) \/ (0 < k)%nat /\ is_body x = true /\ entry_wf x))
    as (k & Hk & Hes1 & Hkx).
  { apply app_eq_inv in Hx as [(q & -> & Hq)|(q & -> & Hq)].
    - destruct q as [|y q].
      + simpl in Hq. injection Hq as -> ->. exists 0%nat. rewrite app_nil_r in *. split; [lia|]. split; [done|by left].
      + simpl in Hq. injection Hq as -> Hq. exists (length (y :: q)). rewrite length_app. split; [done|].
        apply Forall_app in Hes as [H1 H2]. split; [done|]. right. apply Forall_cons in H2 as [[? ?] _]. split; [simpl; lia|done].
    - destruct q as [|y q]; [|by destruct q]. simpl in Hq. injection Hq as <- <-.
      exists 0%nat. rewrite app_nil_r in *. split; [lia|]. split; [done|by left]. }
  replace fuel with (S (length es1 + (fuel - 1 - length es1)))%nat by lia.
  unfold tears_at, stops_at. rewrite next_start by (done || (unfold_ranges; lia)).
  rewrite Hk, Nat2Z.inj_add, Z.add_comm, next_bodies by (done || lia). rewrite <- app_assoc. cbn [app].
  destruct (decide (j = 0%nat)) as [->|Hj0].
  { replace (fuel - 1 - length es1)%nat with (S (fuel - 2 - length es1)) by lia. left. apply zeros_stop. }
  replace (fuel - 1 - length es1)%nat with (S (S (fuel - 3 - length es1))) by lia.
  destruct Hkx as [[-> ->]|(Hk0 & Hb & Hw)].
  - apply torn_end; [apply xxh3_u64|done].
  - apply torn_body; [done..|lia|done].
Qed.

Lemma next_batch_torn pre b n m seqno fuel :
  batch_wf b -> (n < length (batch_bytes b.1 b.2))%nat -> (n + 1 <= fuel)%nat ->
  tears_at pre fuel (at_boundary pre (take n (batch_bytes b.1 b.2) ++ zeros m) seqno).
Proof.
  intros Hw Hn Hf. pose proof Hn as Hn'. rewrite batch_bytes_entries in Hn' |- *.
  destruct (take_concat _ _ Hn') as (l1 & x & l2 & j & Hl & Hj & E). rewrite E, <- app_assoc.
  assert (length (take n (concat (encode_into <$> batch_entries b))) = n) as Hlen by (rewrite length_take; lia).
  rewrite E, length_app, length_take in Hlen.
  apply fmap_app_inv in Hl as (es1 & es2 & -> & Hl2 & Hes). symmetry in Hl2.
  apply fmap_cons_inv in Hl2 as (e & es2' & -> & -> & ->). unfold batch_entries in Hes.
  destruct es1 as [|e1 es1].
  - cbn [app] in *. injection Hes as <- _. cbn [fmap list_fmap concat app]. destruct Hw as (Hs & Hc & _).
    destruct (decide (j = 0%nat)) as [->|].
    + destruct (decode_zeros m) as (er & Her & _). replace fuel with (S (fuel - 1)) by lia. left. by eapply boundary_stop.
    + cbn [fmap list_fmap concat app length] in Hlen. replace fuel with (S (S (fuel - 2))) by lia.
      apply torn_start; [unfold_ranges; lia|done|done].
  - cbn [app] in Hes. injection Hes as <- Hes. rewrite fmap_cons, concat_cons, <- app_assoc.
    rewrite fmap_cons, concat_cons, length_app in Hlen.
    pose proof (body_bytes_length es1) as Hb. unfold body_bytes in Hb.
    pose proof (encode_nonempty (Start (Z.of_nat (length b.2)) b.1)).
    apply (torn_inside pre b es1 e es2'); [done|done|done|]. case_decide; lia.
Qed.

(** ** Whole journals *)

Lemma batch_bytes_length b : (length b.2 + 2 <= length (batch_bytes b.1 b.2))%nat.
Proof.
  unfold batch_bytes. rewrite !length_app. pose proof (body_bytes_length b.2).
  pose proof (encode_nonempty (Start (Z.of_nat (length b.2)) b.1)). rewrite end_length. lia.
Qed.

Lemma journal_bytes_cons b bs : journal_bytes (b :: bs) = batch_bytes b.1 b.2 ++ journal_bytes bs.
Proof. done. Qed.

Lemma next_fuel_at pre rest seqno : next_fuel (at_boundary pre rest seqno) = S (length rest).
Proof. unfold next_fuel, at_boundary. cbn [reader]. by rewrite remaining_at. Qed.

Lemma read_batches_S fuel br :
  read_batches (S fuel) br =
  match next_batch (next_fuel br) br with
  | None => None
  | Some (None, br) => Some (Ok [], file (reader br))
  | Some (Some (Err e), br) => Some (Err e, file (reader br))
  | Some (Some (Ok batch), br) =>
      match read_batches fuel br with
      | Some (Ok batches, f) => Some (Ok (batch :: batches), f)
      | r => r
      end
  end.
Proof. done. Qed.

(** What is read in front of a tail. *)
Definition behind (bs : list (Z * list Entry)) (tail : option (Result (list Batch) * bytes)) : option (Result (list Batch) * bytes) :=
  match tail with
  | Some (Ok l, f) => Some (Ok ((batch_of <$> bs) ++ l), f)
  | _ => tail
  end.

(** The sequence number of the last batch. *)
Definition last_seqno (seqno : Z) (bs : list (Z * list Entry)) : Z := foldl (fun _ b => b.1) seqno bs.

(** Complete batches are read one by one. *)
Lemma read_batches_app pre bs rest seqno fuel :
  Forall batch_wf bs ->
  read_batches (length bs + fuel) (at_boundary pre (journal_bytes bs ++ rest) seqno) =
  behind bs (read_batches fuel (at_boundary (pre ++ journal_bytes bs) rest (last_seqno seqno bs))).
Proof.
  intros Hbs. revert pre seqno. induction Hbs as [|b bs Hb _ IH]; intros pre seqno.
  { cbn [length Nat.add]. unfold journal_bytes. cbn [fmap list_fmap concat app]. rewrite app_nil_r. cbn [last_seqno foldl].
    by destruct (read_batches fuel _) as [[[] f]|]. }
  cbn [length Nat.add]. rewrite journal_bytes_cons, <- app_assoc, read_batches_S, next_fuel_at.
  rewrite next_batch_whole by (done || (rewrite !length_app; pose proof (batch_bytes_length b); lia)).
  rewrite IH, <- app_assoc. cbn [last_seqno foldl]. by destruct (read_batches fuel _) as [[[] f]|].
Qed.

Lemma journal_bytes_length bs : (length bs <= length (journal_bytes bs))%nat.
Proof.
  induction bs as [|b bs IH]; [done|]. rewrite journal_bytes_cons, length_app.
  pose proof (batch_bytes_length b). simpl. lia.
Qed.

Lemma read_journal_app bs rest tail :
  Forall batch_wf bs ->
  (forall fuel, read_batches (S fuel) (at_boundary (journal_bytes bs) rest (last_seqno 0 bs)) = tail) ->
  read_journal (journal_bytes bs ++ rest) = behind bs tail.
Proof.
  intros Hbs Htail. unfold read_journal. change (batch_reader_new (journal_reader_new (journal_bytes bs ++ rest)))
    with (at_boundary [] (journal_bytes bs ++ rest) 0).
  pose proof (journal_bytes_length bs). rewrite length_app.
  replace (S (length (journal_bytes bs) + length rest)) with
    (length bs + (S (length (journal_bytes bs) + length rest - length bs)))%nat by lia.
  rewrite read_batches_app by done. f_equal. apply Htail.
Qed.

(** A computation that gives [a], or fails a [debug_assert!] in a build that has them. *)
Definition unless_asserts {A} (o : option A) (a : A) : Prop := o = Some a \/ debug_assertions = true /\ o = None.

Lemma unless_release {A} (o : option A) a : debug_assertions = false -> unless_asserts o a -> o = Some a.
Proof. intros Hd [?|[? _]]; [done|congruence]. Qed.

(** The reader stops behind the complete batches. *)
Lemma read_stopped bs rest :
  Forall batch_wf bs -> tears_at (journal_bytes bs) (S (length rest)) (at_boundary (journal_bytes bs) rest (last_seqno 0 bs)) ->
  unless_asserts (read_journal (journal_bytes bs ++ rest)) (Ok (batch_of <$> bs), journal_bytes bs).
Proof.
  intros Hbs [(br' & Hn & Hf)|[Hd Hn]].
  - left. rewrite (read_journal_app bs rest (Some (Ok [], journal_bytes bs))); [cbn; by rewrite app_nil_r|done|].
    intros fuel. by rewrite read_batches_S, next_fuel_at, Hn, Hf.
  - right. split; [done|]. rewrite (read_journal_app bs rest None); [done..|]. intros fuel. by rewrite read_batches_S, next_fuel_at, Hn.
Qed.

Lemma read_torn bs b n m :
  Forall batch_wf bs -> batch_wf b -> (n < length (batch_bytes b.1 b.2))%nat ->
  unless_asserts (read_journal (journal_bytes bs ++ take n (batch_bytes b.1 b.2) ++ zeros m)) (Ok (batch_of <$> bs), journal_bytes bs).
Proof.
  intros Hbs Hb Hn. apply read_stopped; [done|]. apply next_batch_torn; [done|done|]. rewrite length_app, length_take. lia.
Qed.

(** More items than announced. *)
Lemma next_too_many base pre es rest seqno seen n fuel :
  Forall (fun e => is_body e = true /\ entry_wf e) es -> 0 <= n < Z.of_nat (length es) ->
  exists br, next_batch (length es + fuel) (in_batch base pre (body_bytes es ++ rest) seqno seen n) =
    Some (Some (Err (JournalRecovery TooManyItems)), br).
Proof.
  intros Hes. revert pre seen n. induction Hes as [|e es [Hb He] _ IH]; intros pre seen n Hn; [simpl in Hn; lia|].
  change (body_bytes (e :: es)) with (encode_into e ++ body_bytes es). rewrite <- !app_assoc. cbn [length Nat.add].
  destruct (decide (n = 0)) as [->|Hn0].
  - rewrite next_batch_S. unfold in_batch. cbn [reader]. rewrite next_entry_at by done.
    destruct e; try done; by eexists.
  - pose proof (next_body base pre e (body_bytes es ++ rest) seqno seen (n - 1) (length es + fuel) Hb He ltac:(lia)) as E.
    replace (n - 1 + 1) with n in E by lia. rewrite E. apply IH. cbn [length] in Hn. lia.
Qed.

(** An end marker that does not match the items before it. *)
Lemma corrupt_end base pre s n es c rest fuel :
  is_u32 n -> is_u64 c -> Forall (fun e => is_body e = true /\ entry_wf e) es ->
  n <> Z.of_nat (length es) \/ c <> xxh3 (body_bytes es) ->
  exists e br, next_batch (length es + S fuel) (in_batch base pre (body_bytes es ++ encode_into (End c) ++ rest) s [] n) =
    Some (Some (Err (JournalRecovery e)), br).
Proof.
  intros Hn Hc Hes Hbad. destruct (decide (Z.of_nat (length es) <= n)) as [Hle|Hgt].
  - pose proof (next_bodies base pre es (encode_into (End c) ++ rest) s [] (n - Z.of_nat (length es)) (S fuel) Hes
      ltac:(lia)) as E.
    replace (n - Z.of_nat (length es) + Z.of_nat (length es)) with n in E by lia. rewrite E.
    rewrite next_batch_S. unfold in_batch. cbn [reader]. rewrite next_entry_at by done.
    unfold on_entry. cbn [with_reader batch_counter is_in_batch hashed negb app].
    case_decide; [by eexists _, _|]. rewrite decide_True; [by eexists _, _|]. destruct Hbad as [?|Hne]; [lia|congruence].
  - destruct (next_too_many base pre es (encode_into (End c) ++ rest) s [] n (S fuel) Hes) as [br ->];
      [unfold is_u32 in Hn; lia|by eexists _, _].
Qed.

Lemma journal_bytes_app bs bs' : journal_bytes (bs ++ bs') = journal_bytes bs ++ journal_bytes bs'.
Proof. unfold journal_bytes. by rewrite fmap_app, concat_app. Qed.

(** A complete journal in its preallocated file. *)
Lemma read_complete bs m :
  Forall batch_wf bs -> read_journal (journal_bytes bs ++ zeros m) = Some (Ok (batch_of <$> bs), journal_bytes bs).
Proof.
  intros Hbs. destruct (decode_zeros m) as (e & He & _).
  rewrite (read_journal_app bs _ (Some (Ok [], journal_bytes bs))); [cbn; by rewrite app_nil_r|done|]. intros fuel.
  rewrite read_batches_S, next_fuel_at. by destruct (boundary_stop (journal_bytes bs) (zeros m) (last_seqno 0 bs) e (length (zeros m)) He) as (br & -> & ->).
Qed.

(** A prefix of a journal reads as the batches it completes. *)
Lemma read_prefix bs k m :
  Forall batch_wf bs -> (k <= length (journal_bytes bs))%nat ->
  exists j, unless_asserts (read_journal (take k (journal_bytes bs) ++ zeros m)) (Ok (batch_of <$> take j bs), journal_bytes (take j bs)) /\
    (k = length (journal_bytes (take j bs)) -> read_journal (take k (journal_bytes bs) ++ zeros m) = Some (Ok (batch_of <$> take j bs), journal_bytes (take j bs))) /\
    (length (journal_bytes (take j bs)) <= k)%nat /\
    ((j < length bs)%nat -> (k < length (journal_bytes (take (S j) bs)))%nat).
Proof.
  intros Hbs Hk. destruct (decide (k = length (journal_bytes bs))) as [->|Hne].
  - exists (length bs). rewrite !firstn_all, read_complete by done. split; [by left|]. split; [done|]. split; [done|lia].
  - unfold journal_bytes in Hk, Hne. destruct (take_concat ((fun b => batch_bytes b.1 b.2) <$> bs) k ltac:(lia))
      as (l1 & x & l2 & j & Hl & Hj & E).
    apply fmap_app_inv in Hl as (bs1 & bs2 & -> & Hl2 & ->). symmetry in Hl2.
    apply fmap_cons_inv in Hl2 as (b & bs2' & -> & -> & ->). fold (journal_bytes (bs1 ++ b :: bs2')) in *.
    fold (journal_bytes bs1) in E. apply Forall_app in Hbs as [Hbs1 [Hb _]%Forall_cons].
    assert (length (take k (journal_bytes (bs1 ++ b :: bs2'))) = k) as Hlen by (rewrite length_take; lia).
    rewrite E, length_app, length_take in Hlen.
    exists (length bs1). rewrite E, <- app_assoc, take_app_length. split; [by apply read_torn|]. split; [|split; [lia|]].
    + intros Hk0. assert (j = 0%nat) as -> by lia. cbn [take app]. by apply read_complete.
    + intros _. rewrite cons_middle, app_assoc, take_app_length' by (rewrite length_app; simpl; lia).
      rewrite journal_bytes_app, journal_bytes_cons, !length_app. lia.
Qed.

(** C8: Crash recovery: if a crash leaves any prefix of the written journal, followed by
    zero bytes of the preallocated file, reading it returns exactly the batches that are
    complete within that prefix, in order, and cuts the file off behind the last one.
    No batch is ever recovered in part. If the cut goes through a batch, a build with
    debug assertions may panic instead (see [torn_length_panics]); nothing else panics. *)
Theorem journal_crash_recovery bs k m :
  Forall batch_wf bs -> (k <= length (journal_bytes bs))%nat ->
  let read := read_journal (take k (journal_bytes bs) ++ zeros m) in
  exists j, unless_asserts read (Ok (batch_of <$> take j bs), journal_bytes (take j bs)) /\
    (k = length (journal_bytes (take j bs)) -> read = Some (Ok (batch_of <$> take j bs), journal_bytes (take j bs))) /\
    (length (journal_bytes (take j bs)) <= k)%nat /\
    ((j < length bs)%nat -> (k < length (journal_bytes (take (S j) bs)))%nat).
Proof. apply read_prefix. Qed.

(** A complete batch with a wrong item count or a wrong checksum is never
    emitted: reading the journal fails with a recovery error. *)
Theorem journal_corruption_detected bs s n es c rest :
  Forall batch_wf bs -> is_u64 s -> is_u32 n -> is_u64 c -> Forall (fun e => is_body e = true /\ entry_wf e) es ->
  n <> Z.of_nat (length es) \/ c <> xxh3 (body_bytes es) ->
  exists e f, read_journal (journal_bytes bs ++ encode_into (Start n s) ++ body_bytes es ++ encode_into (End c) ++ rest) =
    Some (Err (JournalRecovery e), f).
Proof.
  intros Hbs Hs Hn Hc Hes Hbad.
  set (tail := encode_into (Start n s) ++ body_bytes es ++ encode_into (End c) ++ rest).
  assert (length es + 2 <= S (length tail))%nat as Hlen.
  { unfold tail. rewrite !length_app, end_length. pose proof (body_bytes_length es). lia. }
  destruct (corrupt_end (length (journal_bytes bs)) (journal_bytes bs ++ encode_into (Start n s)) s n es c rest
    (length tail - 1 - length es) Hn Hc Hes Hbad) as (e & br & Hb).
  exists e, (file (reader br)).
  rewrite (read_journal_app bs tail (Some (Err (JournalRecovery e), file (reader br)))); [done|done|].
  intros fuel. rewrite read_batches_S, next_fuel_at.
  replace (S (length tail)) with (S (length es + S (length tail - 1 - length es)))%nat by lia.
  unfold tail. rewrite next_start by done. fold tail. by rewrite Hb.
Qed.
End reading.

(** ** A codec for concrete runs

    Fixed tags, compression that does nothing and a byte sum as checksum satisfy the
    laws of [JournalCodec]. *)

Definition toy_value_type_byte (vt : ValueType) : byte :=
  match vt with Value => Byte.x00 | Tombstone => Byte.x01 | WeakTombstone => Byte.x02 | Indirection => Byte.x03 end.
Definition toy_value_type_of (b : byte) : option ValueType :=
  match b with
  | Byte.x00 => Some Value
  | Byte.x01 => Some Tombstone
  | Byte.x02 => Some WeakTombstone
  | Byte.x03 => Some Indirection
  | _ => None
  end.
Definition toy_compression_decode (r : bytes) : (CompressionType * bytes) + LsmError :=
  match r with
  | Byte.x00 :: r => inl (CompressionNone, r)
  | Byte.x01 :: r => inl (Lz4, r)
  | b :: _ => inr (LsmInvalidTag "CompressionType" b)
  | [] => inr (LsmIo UnexpectedEof)
  end.

Program Definition toy_codec_of (debug : bool) : JournalCodec := {|
  value_type_byte := toy_value_type_byte;
  value_type_of := toy_value_type_of;
  compression_encode c := match c with CompressionNone => [Byte.x00] | Lz4 => [Byte.x01] end;
  compression_decode := toy_compression_decode;
  compression_width := 1;
  lz4_compress v := v;
  lz4_decompress_into c n := if decide (length c = n) then Some c else None;
  xxh3 bs := foldr (fun b z => bval b + z) 0 bs mod 2 ^ 64;
  debug_assertions := debug
|}.
Next Obligation. by intros ? []. Qed.
Next Obligation. by intros ? []. Qed.
Next Obligation. by intros ? []. Qed.
Next Obligation.
  intros _ r c r' Hd. destruct r as [|b r]; [done|]. exists [b]. split; [|done].
  destruct b; simpl in Hd; try done; by simplify_eq.
Qed.
Next Obligation. intros _ v. simpl. by rewrite decide_True. Qed.
Next Obligation. intros _ bs. unfold is_u64, u64_max. pose proof (Z.mod_pos_bound (foldr (fun b z => bval b + z) 0 bs) (2 ^ 64)). lia. Qed.

#[export] Instance toy_codec : JournalCodec := toy_codec_of false.

Definition sample_batches : list (Z * list Entry) :=
  [(5, [Item 1 [Byte.x61] [Byte.x62; Byte.x63] Value CompressionNone]);
   (6, [Item 1 [Byte.x61] [] Tombstone CompressionNone; Item 2 [Byte.x7a] [Byte.x79] Value Lz4]);
   (7, [Clear 1])].

Lemma sample_batches_wf : Forall batch_wf sample_batches.
Proof. repeat (constructor || unfold_ranges || (simpl; lia)). Qed.

Lemma journal_crash_recovery_witness :
  exists j, read_journal (take 100 (journal_bytes sample_batches) ++ zeros 40) =
      Some (Ok (batch_of <$> take j sample_batches), journal_bytes (take j sample_batches)) /\ j = 1%nat.
Proof.
  destruct (journal_crash_recovery sample_batches 100 40 sample_batches_wf ltac:(vm_compute; lia)) as (j & E & _ & Hle & Hlt).
  exists j. split; [exact (unless_release _ _ eq_refl E)|].
  destruct j as [|[|[|[|j]]]]; [exfalso|reflexivity|exfalso..];
    [specialize (Hlt ltac:(vm_compute; lia)); vm_compute in Hlt; lia|vm_compute in Hle; lia..].
Defined.

(** A debug build: the crash left the first length of an item, but not the second. The
    assertion that they are equal fails, and the database cannot be opened. *)
Theorem torn_length_panics :
  @read_journal (toy_codec_of true) (take 29 (@journal_bytes (toy_codec_of true) sample_batches) ++ zeros 40) = None.
Proof. vm_compute. reflexivity. Qed.

(** A batch announced with two items that has one. *)
Lemma journal_corruption_detected_witness :
  exists e f, read_journal (journal_bytes sample_batches ++ encode_into (Start 2 8) ++
      body_bytes [Clear 1] ++ encode_into (End 3) ++ zeros 5) = Some (Err (JournalRecovery e), f).
Proof.
  apply (journal_corruption_detected sample_batches 8 2 [Clear 1] 3 (zeros 5));
    [exact sample_batches_wf|unfold_ranges; lia|unfold_ranges; lia|unfold_ranges; lia| |left; done].
  repeat (constructor || unfold_ranges || (simpl; lia)).
Defined.
