(* ===== verification/JournalWriter.v ===== *)
(** * Writing a journal

    Models [src/src/journal/writer.rs]. The file behind the buffered writer is a
    stream of accepted bytes of which a prefix was flushed to the OS and a prefix of
    that was synced to disk; [faults] scripts the outcome of the coming I/O calls, so
    every theorem covers every sequence of I/O failures. *)

From stdpp Require Import base list strings.
From S2P Require Import Prelude Errors Utf8 Visibility Store Panic JournalEntry JournalReader.

#[local] Open Scope state_scope.

(** The outcome of an I/O call: success, or an error, for a write after [n] bytes. *)
Inductive Outcome := Success | Failure (k : IoErrorKind) (n : nat).

Record Writer := mkWriter {
  name : str;
  stream : bytes;
  flushed : nat;
  synced : nat;
  buf : bytes;
  is_buffer_dirty : bool;
  compression : CompressionType;
  compression_threshold : nat;
  faults : list Outcome
}.

Definition set_buf (b : bytes) (w : Writer) : Writer :=
  mkWriter (name w) (stream w) (flushed w) (synced w) b (is_buffer_dirty w) (compression w)
    (compression_threshold w) (faults w).
Definition set_dirty (d : bool) (w : Writer) : Writer :=
  mkWriter (name w) (stream w) (flushed w) (synced w) (buf w) d (compression w) (compression_threshold w) (faults w).
Definition set_file (s : bytes) (f y : nat) (w : Writer) : Writer :=
  mkWriter (name w) s f y (buf w) (is_buffer_dirty w) (compression w) (compression_threshold w) (faults w).

(** [set_compression]. *)
Definition set_compression (comp : CompressionType) (threshold : nat) (w : Writer) : Writer :=
  mkWriter (name w) (stream w) (flushed w) (synced w) (buf w) (is_buffer_dirty w) comp threshold (faults w).

(** The next scripted outcome; calls succeed once the script is over. *)
Definition next_outcome (w : Writer) : Outcome * Writer :=
  match faults w with
  | [] => (Success, w)
  | o :: faults =>
      (o, mkWriter (name w) (stream w) (flushed w) (synced w) (buf w) (is_buffer_dirty w) (compression w)
            (compression_threshold w) faults)
  end.

(** [BufWriter::write_all]: a failing write has accepted a proper prefix. *)
Definition write_all (bs : bytes) : StateR Writer () := fun w =>
  match next_outcome w with
  | (Success, w) => (set_file (stream w ++ bs) (flushed w) (synced w) w, Ok ())
  | (Failure k n, w) =>
      (set_file (stream w ++ take (Nat.min n (length bs - 1)) bs) (flushed w) (synced w) w, Err (Io k))
  end.

(** [BufWriter::flush]. *)
Definition flush : StateR Writer () := fun w =>
  match next_outcome w with
  | (Success, w) => (set_file (stream w) (length (stream w)) (synced w) w, Ok ())
  | (Failure k n, w) => (set_file (stream w) (Nat.max (flushed w) (Nat.min n (length (stream w)))) (synced w) w, Err (Io k))
  end.

(** [File::sync_all] and [File::sync_data] make what was flushed durable. *)
Definition sync : StateR Writer () := fun w =>
  match next_outcome w with
  | (Success, w) => (set_file (stream w) (flushed w) (flushed w) w, Ok ())
  | (Failure k n, w) => (w, Err (Io k))
  end.

Definition modify (f : Writer -> Writer) : StateR Writer () := fun w => (f w, Ok ()).

Inductive PersistMode := Buffer | SyncData | SyncAll.

Definition persist (mode : PersistMode) : StateR Writer () :=
  dirty <- st_read (fun w => Ok (is_buffer_dirty w)) ;;
  (if (dirty : bool) then flush ;;; modify (set_dirty false) else st_ret ()) ;;;
  match mode with
  | SyncAll | SyncData => sync
  | Buffer => st_ret ()
  end.

(** [Writer::from_file] on a file that exists: it is opened for appending, and nothing is
    known to be on disk. *)
Definition from_file (path : str) (contents : bytes) (faults : list Outcome) : Writer :=
  mkWriter path contents (length contents) 0 [] false CompressionNone 0 faults.

(** The active journal of a database that is opened again: [Journal::from_file] and
    [with_compression] in [recover_journals], then a sync. *)
Definition journal_resume (path : str) (contents : bytes) (comp : CompressionType) (threshold : nat) (faults : list Outcome)
    : Writer * Result () :=
  persist SyncAll (set_compression comp threshold (from_file path contents faults)).

(** The reader cuts the file behind the last complete batch, and syncs it. *)
Definition truncated (file : bytes) (w : Writer) : Writer := set_file file (length file) (length file) w.

(** Dropping the journal persists it; an error is logged. *)
Definition journal_drop (w : Writer) : Writer := (persist SyncAll w).1.

Section writing.
Context `{JournalCodec}.

(** The common end of [write_start] and [write_end]: the marker goes through [buf]. *)
Definition write_marker (e : Entry) : StateR Writer nat :=
  modify (fun w => set_buf (buf w ++ encode_into e) w) ;;;
  b <- st_read (fun w => Ok (buf w)) ;;
  write_all b ;;;
  st_ret (length b).

Definition write_start (item_count seqno : Z) : StateR Writer nat := write_marker (Start item_count seqno).
Definition write_end (checksum : Z) : StateR Writer nat := write_marker (End checksum).

Definition clear_buf : StateR Writer () := modify (set_buf []).

(** The compression an item is written with. *)
Definition item_compression (w : Writer) (value : bytes) : CompressionType :=
  if decide (0 < compression_threshold w /\ compression_threshold w <= length value)%nat
  then compression w else CompressionNone.

Definition write_raw (keyspace_id : Z) (key value : bytes) (value_type : ValueType) (seqno : Z) : StateR Writer nat :=
  modify (set_dirty true) ;;;
  clear_buf ;;;
  n1 <- write_start 1 seqno ;;
  clear_buf ;;;
  modify (fun w => set_buf (buf w ++ serialize_marker_item keyspace_id key value value_type (item_compression w value)) w) ;;;
  b <- st_read (fun w => Ok (buf w)) ;;
  write_all b ;;;
  clear_buf ;;;
  n2 <- write_end (xxh3 b) ;;
  st_ret (n1 + length b + n2)%nat.

Definition write_clear (keyspace_id seqno : Z) : StateR Writer nat :=
  modify (set_dirty true) ;;;
  clear_buf ;;;
  n1 <- write_start 1 seqno ;;
  clear_buf ;;;
  modify (fun w => set_buf (buf w ++ encode_into (Clear keyspace_id)) w) ;;;
  b <- st_read (fun w => Ok (buf w)) ;;
  write_all b ;;;
  clear_buf ;;;
  n2 <- write_end (xxh3 b) ;;
  st_ret (n1 + length b + n2)%nat.

(** A [BatchItem], by the id of its keyspace. *)
Record BatchItem := mkBatchItem { bi_keyspace_id : Z; bi_key : bytes; bi_value : bytes; bi_value_type : ValueType }.

(** The loop of [write_batch]: hashes and counts what it writes. *)
Fixpoint write_items (items : list BatchItem) (hashed : bytes) (count : nat) : StateR Writer (bytes * nat) :=
  match items with
  | [] => st_ret (hashed, count)
  | item :: items =>
      modify (fun w => set_buf (buf w ++ serialize_marker_item (bi_keyspace_id item) (bi_key item) (bi_value item)
                                  (bi_value_type item) (item_compression w (bi_value item))) w) ;;;
      b <- st_read (fun w => Ok (buf w)) ;;
      write_all b ;;;
      clear_buf ;;;
      write_items items (hashed ++ b) (count + length b)
  end.

Definition write_batch (items : list BatchItem) (batch_size : nat) (seqno : Z) : StateR Writer nat :=
  if decide (batch_size = 0%nat) then st_ret 0%nat
  else
    modify (set_dirty true) ;;;
    clear_buf ;;;
    n1 <- write_start (Z.of_nat batch_size mod 2 ^ 32) seqno ;;
    clear_buf ;;;
    hc <- write_items items [] n1 ;;
    n2 <- write_end (xxh3 hc.1) ;;
    st_ret (hc.2 + n2)%nat.

(** ** What a write appends *)

(** What writes do not change. *)
Definition settings (w : Writer) := (name w, flushed w, synced w, compression w, compression_threshold w).

(** [m] appends [target] to the stream; if it fails, a proper prefix of it. *)
Definition appends {A} (m : StateR Writer A) (w : Writer) (target : bytes) (Q : A -> Writer -> Prop) : Prop :=
  match m w with
  | (w', Ok a) => stream w' = stream w ++ target /\ settings w' = settings w /\ Q a w'
  | (w', Err _) => exists n, (n < length target)%nat /\ stream w' = stream w ++ take n target /\ settings w' = settings w
  end.

Lemma appends_bind {A B} (m : StateR Writer A) (f : A -> StateR Writer B) w t1 t2 Q1 Q2 :
  appends m w t1 Q1 ->
  (forall a w', settings w' = settings w -> Q1 a w' -> appends (f a) w' t2 Q2) ->
  appends (st_bind m f) w (t1 ++ t2) Q2.
Proof.
  unfold appends, st_bind. destruct (m w) as [w1 [a|e]].
  - intros (Hs & Hset & HQ) Hf. specialize (Hf a w1 Hset HQ). destruct (f a w1) as [w2 [b|e]].
    + destruct Hf as (Hs2 & Hset2 & HQ2). by rewrite Hs2, Hs, app_assoc, Hset2.
    + destruct Hf as (n & Hn & Hs2 & Hset2). exists (length t1 + n)%nat. rewrite length_app. split; [lia|].
      by rewrite Hs2, Hs, take_app_add, app_assoc, Hset2.
  - intros (n & Hn & Hs & Hset) _. exists n. rewrite length_app. split; [lia|]. by rewrite take_app_le by lia.
Qed.

(** The last write of a computation, and steps that write nothing. *)
Lemma appends_last {A B} (m : StateR Writer A) (f : A -> StateR Writer B) w t Q1 Q2 :
  appends m w t Q1 -> (forall a w', settings w' = settings w -> Q1 a w' -> appends (f a) w' [] Q2) ->
  appends (st_bind m f) w t Q2.
Proof. intros. rewrite <- (app_nil_r t). by eapply appends_bind. Qed.

Lemma appends_skip {A B} (m : StateR Writer A) (f : A -> StateR Writer B) w t Q1 Q2 :
  appends m w [] Q1 -> (forall a w', settings w' = settings w -> Q1 a w' -> appends (f a) w' t Q2) ->
  appends (st_bind m f) w t Q2.
Proof. intros. change t with ([] ++ t). by eapply appends_bind. Qed.

Lemma appends_modify f w :
  stream (f w) = stream w -> settings (f w) = settings w -> appends (modify f) w [] (fun _ w' => w' = f w).
Proof. intros Hs Hset. unfold appends. simpl. rewrite app_nil_r. done. Qed.

Lemma appends_read {A} (f : Writer -> A) w :
  appends (st_read (fun w => Ok (f w))) w [] (fun a w' => a = f w /\ w' = w).
Proof. unfold appends. simpl. rewrite app_nil_r. done. Qed.

Lemma appends_ret {A} (a : A) w : appends (st_ret a) w [] (fun a' w' => a' = a /\ w' = w).
Proof. unfold appends. simpl. rewrite app_nil_r. done. Qed.

Lemma appends_write_all bs w : bs <> [] -> appends (write_all bs) w bs (fun _ w' => buf w' = buf w).
Proof.
  intros Hbs. unfold appends, write_all, next_outcome.
  destruct (faults w) as [|[|k n] fs]; simpl; [done..|].
  exists (Nat.min n (length bs - 1)). split; [|done]. destruct bs; [done|]. simpl. lia.
Qed.

Lemma appends_weaken {A} (m : StateR Writer A) w t (Q Q' : A -> Writer -> Prop) :
  appends m w t Q -> (forall a w', Q a w' -> Q' a w') -> appends m w t Q'.
Proof. unfold appends. destruct (m w) as [w1 [a|e]]; [|done]. intros (? & ? & ?) HQ. auto. Qed.

Lemma encode_not_nil e : encode_into e <> [].
Proof. destruct (encode_head e) as [p ->]. done. Qed.

(** [write_start] and [write_end] on an empty buffer. *)
Lemma appends_marker e w :
  buf w = [] ->
  appends (write_marker e) w (encode_into e) (fun n w' => n = length (encode_into e)).
Proof.
  intros Hb. unfold write_marker.
  eapply appends_skip; [by apply appends_modify|]. intros _ w1 _ ->.
  eapply appends_skip; [apply appends_read|]. intros b w2 _ [-> ->]. simpl. rewrite Hb. simpl.
  eapply appends_last; [apply appends_write_all, encode_not_nil|]. intros _ w3 _ _.
  eapply appends_weaken; [apply appends_ret|]. by intros ?? [-> _].
Qed.

(** The middle of a one-item batch: clear the buffer, fill it, write it, clear it. *)
Lemma appends_item (enc : Writer -> bytes) (bs : bytes) w {A} (k : bytes -> StateR Writer A) t Q :
  bs <> [] -> (forall w', settings w' = settings w -> enc w' = bs) ->
  (forall w', settings w' = settings w -> buf w' = [] -> appends (k bs) w' t Q) ->
  appends (clear_buf ;;; modify (fun w => set_buf (buf w ++ enc w) w) ;;;
           b <- st_read (fun w => Ok (buf w)) ;; write_all b ;;; clear_buf ;;; k b) w (bs ++ t) Q.
Proof.
  intros Hbs Henc Hk.
  eapply appends_skip; [by apply appends_modify|]. intros _ w1 S1 ->.
  eapply appends_skip; [by apply appends_modify|]. intros _ w2 S2 ->.
  eapply appends_skip; [apply appends_read|]. intros b w3 S3 [-> ->]. simpl. rewrite Henc by done.
  eapply appends_bind; [by apply appends_write_all|]. intros ? w4 S4 Hb4.
  eapply appends_skip; [by apply appends_modify|]. intros _ w5 S5 ->. apply Hk; [|done].
  rewrite S5, S4. done.
Qed.

(** The entry [write_raw] makes of its arguments. *)
Definition raw_entry (w : Writer) (keyspace_id : Z) (key value : bytes) (vt : ValueType) : Entry :=
  Item keyspace_id key value vt (item_compression w value).

Lemma item_compression_settings w w' value : settings w' = settings w -> item_compression w' value = item_compression w value.
Proof. unfold settings, item_compression. by intros [= _ _ _ -> ->]. Qed.

(** A batch of a single entry. *)
Lemma appends_single (enc : Writer -> bytes) e w seqno :
  encode_into e = enc w -> (forall w', settings w' = settings w -> enc w' = enc w) ->
  appends (modify (set_dirty true) ;;; clear_buf ;;; n1 <- write_start 1 seqno ;; clear_buf ;;;
           modify (fun w => set_buf (buf w ++ enc w) w) ;;;
           b <- st_read (fun w => Ok (buf w)) ;; write_all b ;;; clear_buf ;;; n2 <- write_end (xxh3 b) ;;
           st_ret (n1 + length b + n2)%nat) w (batch_bytes seqno [e])
    (fun n _ => n = length (batch_bytes seqno [e])).
Proof.
  intros He Henc. unfold batch_bytes.
  assert (body_bytes [e] = encode_into e) as Hbody by (unfold body_bytes; simpl; by rewrite app_nil_r).
  eapply appends_skip; [by apply appends_modify|]. intros _ w1 S1 ->.
  eapply appends_skip; [by apply appends_modify|]. intros _ w2 S2 ->.
  eapply appends_bind; [by apply appends_marker|]. intros n1 w3 S3 ->.
  rewrite Hbody, He. apply (appends_item enc).
  - rewrite <- He. apply encode_not_nil.
  - intros w4 S4. apply Henc. by rewrite S4, S3.
  - intros w4 S4 Hb4. eapply appends_last; [by apply appends_marker|]. intros n2 w5 _ ->.
    eapply appends_weaken; [apply appends_ret|]. intros ? ? [-> _]. rewrite !length_app. simpl. lia.
Qed.

Lemma write_raw_appends ks key value vt seqno w :
  appends (write_raw ks key value vt seqno) w (batch_bytes seqno [raw_entry w ks key value vt])
    (fun n _ => n = length (batch_bytes seqno [raw_entry w ks key value vt])).
Proof.
  apply (appends_single (fun w => serialize_marker_item ks key value vt (item_compression w value))); [done|].
  intros w' Hs. by rewrite (item_compression_settings w w').
Qed.

Lemma write_clear_appends ks seqno w :
  appends (write_clear ks seqno) w (batch_bytes seqno [Clear ks]) (fun n _ => n = length (batch_bytes seqno [Clear ks])).
Proof. by apply (appends_single (fun _ => encode_into (Clear ks))). Qed.

Definition batch_entry (w : Writer) (item : BatchItem) : Entry :=
  raw_entry w (bi_keyspace_id item) (bi_key item) (bi_value item) (bi_value_type item).

Lemma batch_entry_settings w w' (items : list BatchItem) : settings w' = settings w -> batch_entry w' <$> items = batch_entry w <$> items.
Proof.
  intros Hs. apply list_fmap_ext. intros _ item _. unfold batch_entry, raw_entry.
  by rewrite (item_compression_settings w w').
Qed.

Lemma write_items_appends items hashed count w :
  buf w = [] ->
  appends (write_items items hashed count) w (body_bytes (batch_entry w <$> items))
    (fun hc w' => buf w' = [] /\ hc.1 = hashed ++ body_bytes (batch_entry w <$> items) /\
       hc.2 = (count + length (body_bytes (batch_entry w <$> items)))%nat).
Proof.
  revert hashed count w. induction items as [|item items IH]; intros hashed count w Hb.
  { eapply appends_weaken; [apply appends_ret|]. intros ? ? [-> ->]. simpl. by rewrite app_nil_r, Nat.add_0_r. }
  cbn [write_items]. rewrite fmap_cons.
  change (body_bytes (batch_entry w item :: (batch_entry w <$> items)))
    with (encode_into (batch_entry w item) ++ body_bytes (batch_entry w <$> items)).
  eapply appends_skip; [by apply appends_modify|]. intros _ w1 S1 ->.
  eapply appends_skip; [apply appends_read|]. intros b w2 S2 [-> ->]. cbn [buf set_buf]. rewrite Hb, app_nil_l.
  change (serialize_marker_item (bi_keyspace_id item) (bi_key item) (bi_value item) (bi_value_type item)
    (item_compression w (bi_value item))) with (encode_into (batch_entry w item)).
  eapply appends_bind; [apply appends_write_all, encode_not_nil|]. intros _ w3 S3 _.
  eapply appends_skip; [by apply appends_modify|]. intros _ w4 S4 ->.
  assert (settings (set_buf [] w3) = settings w) as Hs by (by rewrite S4, S3).
  rewrite <- (batch_entry_settings _ _ items Hs). eapply appends_weaken; [by apply IH|].
  intros hc w' (? & -> & ->). rewrite length_app, app_assoc. split; [done|]. split; [done|lia].
Qed.

Lemma write_batch_appends items seqno w :
  items <> [] -> Z.of_nat (length items) <= u32_max ->
  appends (write_batch items (length items) seqno) w (batch_bytes seqno (batch_entry w <$> items))
    (fun n _ => n = length (batch_bytes seqno (batch_entry w <$> items))).
Proof.
  intros Hne Hlen. unfold write_batch. rewrite decide_False by (by destruct items).
  rewrite Z.mod_small by (unfold u32_max in Hlen; lia). unfold batch_bytes. rewrite length_fmap.
  eapply appends_skip; [by apply appends_modify|]. intros _ w1 S1 ->.
  eapply appends_skip; [by apply appends_modify|]. intros _ w2 S2 ->.
  eapply appends_bind; [by apply appends_marker|]. intros n1 w3 S3 ->.
  eapply appends_skip; [by apply appends_modify|]. intros _ w4 S4 ->.
  assert (settings (set_buf [] w3) = settings w) as Hs by (by rewrite S4, S3).
  rewrite <- (batch_entry_settings _ _ items Hs).
  eapply appends_bind; [by apply write_items_appends|]. intros hc w5 S5 (Hb5 & Hh & Hc). simpl in Hh. rewrite Hh.
  eapply appends_last; [by apply appends_marker|]. intros n2 w6 _ ->.
  eapply appends_weaken; [apply appends_ret|]. intros ? ? [-> _]. rewrite Hc, !length_app. lia.
Qed.

(** ** Writes and recovery *)

Inductive WriteOp :=
  | WRaw (keyspace_id : Z) (key value : bytes) (value_type : ValueType) (seqno : Z)
  | WClear (keyspace_id : Z) (seqno : Z)
  | WBatch (batch : list BatchItem) (seqno : Z).

Definition run_write (op : WriteOp) : StateR Writer nat :=
  match op with
  | WRaw ks key value vt seqno => write_raw ks key value vt seqno
  | WClear ks seqno => write_clear ks seqno
  | WBatch batch seqno => write_batch batch (length batch) seqno
  end.

(** The batch an operation puts into the journal. *)
Definition op_batch (w : Writer) (op : WriteOp) : option (Z * list Entry) :=
  match op with
  | WRaw ks key value vt seqno => Some (seqno, [raw_entry w ks key value vt])
  | WClear ks seqno => Some (seqno, [Clear ks])
  | WBatch [] _ => None
  | WBatch batch seqno => Some (seqno, batch_entry w <$> batch)
  end.

Definition op_wf (w : Writer) (op : WriteOp) : Prop :=
  match op_batch w op with Some b => batch_wf b | None => True end.

Lemma run_write_appends op w :
  op_wf w op ->
  match op_batch w op with
  | Some b => appends (run_write op) w (batch_bytes b.1 b.2) (fun n _ => n = length (batch_bytes b.1 b.2))
  | None => run_write op w = (w, Ok 0%nat)
  end.
Proof.
  intros Hw. destruct op as [ks key value vt seqno|ks seqno|[|item batch] seqno]; cbn [op_batch fst snd run_write] in *.
  - apply write_raw_appends.
  - apply write_clear_appends.
  - done.
  - apply write_batch_appends; [done|]. destruct Hw as (_ & Hlen & _).
    change (Z.of_nat (length (batch_entry w <$> item :: batch)) <= u32_max) in Hlen. by rewrite length_fmap in Hlen.
Qed.

Lemma journal_bytes_snoc bs b : journal_bytes bs ++ batch_bytes b.1 b.2 = journal_bytes (bs ++ [b]).
Proof. rewrite journal_bytes_app. unfold journal_bytes at 3. simpl. by rewrite app_nil_r. Qed.

(** A successful write appends its batch. *)
Lemma run_write_Ok op w w' n :
  op_wf w op -> run_write op w = (w', Ok n) ->
  stream w' = stream w ++ concat ((fun b => batch_bytes b.1 b.2) <$> option_list (op_batch w op)) /\
  settings w' = settings w.
Proof.
  intros Hw Hr. pose proof (run_write_appends op w Hw) as Ha. destruct (op_batch w op) as [b|]; simpl.
  - unfold appends in Ha. rewrite Hr in Ha. destruct Ha as (Hs & Hset & _). by rewrite app_nil_r.
  - rewrite Hr in Ha. simplify_eq. by rewrite app_nil_r.
Qed.

(** C20: Every journal write is atomic and acknowledged writes are recovered: whatever
    I/O errors happen, a write that returns success has appended its whole batch, which is
    read back, and after one that fails the journal reads exactly as before it (where a
    build with debug assertions may panic instead, see [torn_length_panics]). *)
Theorem write_atomic op w w' r bs m :
  stream w = journal_bytes bs -> Forall batch_wf bs -> op_wf w op -> run_write op w = (w', r) ->
  let bs' := if is_ok r then bs ++ option_list (op_batch w op) else bs in
  let read := read_journal (stream w' ++ zeros m) in
  unless_asserts read (Ok (batch_of <$> bs'), journal_bytes bs') /\
  (is_ok r = true -> stream w' = journal_bytes bs' /\ read = Some (Ok (batch_of <$> bs'), journal_bytes bs')).
Proof.
  intros Hs Hbs Hw Hr. pose proof (run_write_appends op w Hw) as Ha. unfold op_wf in Hw.
  destruct (op_batch w op) as [b|]; simpl option_list.
  - unfold appends in Ha. rewrite Hr in Ha. destruct r as [n|e]; simpl.
    + destruct Ha as (Hs' & _ & _). rewrite Hs', Hs.
      rewrite journal_bytes_snoc, read_complete by (apply Forall_app; split; [done|by constructor]). by split; [left|].
    + destruct Ha as (n & Hn & Hs' & _). rewrite Hs', Hs, <- app_assoc. split; [by apply read_torn|done].
  - rewrite Hr in Ha. simplify_eq. simpl. rewrite app_nil_r, Hs, read_complete by done. by split; [left|].
Qed.

(** ** Durability *)

(** The bookkeeping of the buffered writer. *)
Definition writer_ok (w : Writer) : Prop :=
  (synced w <= flushed w <= length (stream w))%nat /\
  (is_buffer_dirty w = false -> flushed w = length (stream w)).

Lemma persist_cases mode w w' :
  persist mode w = (w', Ok ()) -> writer_ok w ->
  writer_ok w' /\ stream w' = stream w /\
  match mode with
  | Buffer => flushed w' = length (stream w')
  | SyncData | SyncAll => synced w' = length (stream w')
  end.
Proof.
  unfold persist, st_bind, st_read, st_ret, flush, sync, modify, next_outcome. intros Hp [Hle Hd].
  destruct (is_buffer_dirty w) eqn:Ed.
  - destruct w as [nm st fl sy bf d c ct fs]; simpl in *. destruct fs as [|[|k n] [|[|k' n'] fs]], mode; simpl in *;
      simplify_eq; unfold writer_ok; simpl; repeat split; try done; lia.
  - specialize (Hd eq_refl). destruct w as [nm st fl sy bf d c ct fs]; simpl in *. subst.
    destruct fs as [|[|k n] fs], mode; simpl in *; simplify_eq; unfold writer_ok; simpl; repeat split; try done; lia.
Qed.

(** Also when it fails. *)
Lemma persist_any mode w w' r : persist mode w = (w', r) -> writer_ok w -> writer_ok w' /\ stream w' = stream w.
Proof.
  destruct r as [[]|e]; intros Hp Hw.
  { by destruct (persist_cases _ _ _ Hp Hw) as (? & ? & _). }
  unfold persist, st_bind, st_read, st_ret, flush, sync, modify, next_outcome in Hp. destruct Hw as [Hle Hd].
  destruct w as [nm st fl sy bf [] c ct fs]; simpl in *; destruct fs as [|[|k n] [|[|k' n'] fs]], mode; simpl in *;
    simplify_eq; unfold writer_ok; simpl; try specialize (Hd eq_refl); (split; [|done]); split; try done; lia.
Qed.

(** What a crash preserves of the stream: after a process crash what was flushed, after
    a crash of the system what was synced. *)
Definition survives (mode : PersistMode) (w : Writer) : nat :=
  match mode with Buffer => flushed w | SyncData | SyncAll => synced w end.

(** Once [persist] has succeeded, every batch written so far is recovered after any
    crash its mode protects against. *)
Theorem persist_durable mode w w' bs k m :
  stream w = journal_bytes bs -> Forall batch_wf bs -> writer_ok w -> persist mode w = (w', Ok ()) ->
  (survives mode w' <= k <= length (stream w'))%nat ->
  read_journal (take k (stream w') ++ zeros m) = Some (Ok (batch_of <$> bs), journal_bytes bs).
Proof.
  intros Hs Hbs Hw Hp Hk. destruct (persist_cases _ _ _ Hp Hw) as (_ & Hs' & Hm).
  assert (k = length (stream w')) as -> by (destruct mode; simpl in Hk; lia).
  rewrite firstn_all, Hs', Hs. by apply read_complete.
Qed.

(** Writes never clear the dirty flag. *)
Definition stays_dirty {A} (m : StateR Writer A) : Prop :=
  forall w, is_buffer_dirty w = true -> is_buffer_dirty (m w).1 = true.

Lemma dirty_bind {A B} (m : StateR Writer A) (f : A -> StateR Writer B) :
  stays_dirty m -> (forall a, stays_dirty (f a)) -> stays_dirty (st_bind m f).
Proof.
  intros Hm Hf w Hd. unfold st_bind. specialize (Hm w Hd). destruct (m w) as [w1 [a|e]]; [by apply Hf|done].
Qed.

Lemma dirty_write_all bs : stays_dirty (write_all bs).
Proof. intros w Hd. unfold write_all, next_outcome. by destruct (faults w) as [|[|k n] fs]. Qed.

Lemma dirty_marker e : stays_dirty (write_marker e).
Proof. repeat (apply dirty_bind; [by intros w|intros ?]). apply dirty_bind; [apply dirty_write_all|]. by intros ? w. Qed.

Lemma dirty_items items hashed count : stays_dirty (write_items items hashed count).
Proof.
  revert hashed count. induction items as [|item items IH]; intros hashed count; [by intros w|]. cbn [write_items].
  do 2 (apply dirty_bind; [by intros w|intros ?]). apply dirty_bind; [apply dirty_write_all|intros ?].
  apply dirty_bind; [by intros w|intros ?]. apply IH.
Qed.

(** A computation that marks the buffer dirty first. *)
Lemma dirty_first {A} (m : StateR Writer A) w : stays_dirty m -> is_buffer_dirty ((modify (set_dirty true) ;;; m) w).1 = true.
Proof. intros Hm. unfold st_bind. simpl. by apply Hm. Qed.

Lemma write_dirty op w w' r b : op_batch w op = Some b -> run_write op w = (w', r) -> is_buffer_dirty w' = true.
Proof.
  intros Hb Hr. assert (is_buffer_dirty (run_write op w).1 = true) as Hd; [|by rewrite Hr in Hd]. clear Hr.
  destruct op as [ks key value vt seqno|ks seqno|[|item batch] seqno]; [| |done|]; cbn [run_write].
  1,2: apply dirty_first; apply dirty_bind; [by intros ?|intros ?]; apply dirty_bind; [apply dirty_marker|intros ?];
    do 3 (apply dirty_bind; [by intros ?|intros ?]); apply dirty_bind; [apply dirty_write_all|intros ?];
    apply dirty_bind; [by intros ?|intros ?]; apply dirty_bind; [apply dirty_marker|]; by intros ? ?.
  unfold write_batch. rewrite decide_False by done. apply dirty_first. apply dirty_bind; [by intros ?|intros ?].
  apply dirty_bind; [apply dirty_marker|intros ?]. apply dirty_bind; [by intros ?|intros ?].
  apply dirty_bind; [apply dirty_items|intros ?]. apply dirty_bind; [apply dirty_marker|]. by intros ? ?.
Qed.

(** The writes keep the bookkeeping. *)
Lemma write_writer_ok op w w' r :
  op_wf w op -> writer_ok w -> run_write op w = (w', r) -> writer_ok w'.
Proof.
  intros Hop [Hle Hd] Hr. pose proof (run_write_appends op w Hop) as Ha. pose proof (write_dirty op w w' r) as Hdirty.
  destruct (op_batch w op) as [b|]; [|rewrite Hr in Ha; by simplify_eq].
  assert (settings w' = settings w /\ exists t, stream w' = stream w ++ t) as [Hset [t Ht]].
  { unfold appends in Ha. rewrite Hr in Ha. destruct r; [destruct Ha as (? & ? & _)|destruct Ha as (? & ? & ? & ?)]; eauto. }
  unfold settings in Hset. injection Hset as _ Hf Hsy _ _. split.
  - rewrite Hf, Hsy, Ht, length_app. lia.
  - intros Ef. by rewrite (Hdirty b) in Ef.
Qed.
End writing.

(** ** Witnesses *)

Definition fresh_writer (faults : list Outcome) : Writer :=
  mkWriter (s2str "0.jnl") [] 0 0 [] false CompressionNone 0 faults.

Definition sample_op : WriteOp := WRaw 1 [Byte.x61] [Byte.x62] Value 5.

Lemma sample_op_wf faults : op_wf (fresh_writer faults) sample_op.
Proof. repeat (constructor || unfold_ranges || (simpl; lia)). Qed.

(** The item write fails after three bytes. *)
Lemma write_atomic_witness :
  let w := fresh_writer [Success; Failure IoErrorOther 3] in
  let p := run_write sample_op w in
  is_ok p.2 = false /\ read_journal (stream p.1 ++ zeros 30) = Some (Ok [], []).
Proof.
  intros w p. split; [vm_compute; reflexivity|].
  assert (p.2 = Err (Io IoErrorOther)) as E by (vm_compute; reflexivity).
  exact (unless_release _ _ eq_refl (proj1 (write_atomic sample_op w p.1 (Err (Io IoErrorOther)) [] 30 eq_refl (Forall_nil_2 _)
    (sample_op_wf _) (result_pair p _ E)))).
Defined.

Lemma persist_durable_witness :
  let w := (run_write sample_op (fresh_writer [])).1 in
  let p := persist SyncAll w in
  read_journal (take (length (stream w)) (stream p.1) ++ zeros 30) =
  Some (Ok (batch_of <$> [(5, [Item 1 [Byte.x61] [Byte.x62] Value CompressionNone])]),
        journal_bytes [(5, [Item 1 [Byte.x61] [Byte.x62] Value CompressionNone])]).
Proof.
  intros w p. assert (p.2 = Ok ()) as E by (vm_compute; reflexivity).
  apply (persist_durable SyncAll w p.1 [(5, [Item 1 [Byte.x61] [Byte.x62] Value CompressionNone])] (length (stream w)) 30).
  - vm_compute. reflexivity.
  - repeat (constructor || unfold_ranges || (simpl; lia)).
  - split; [vm_compute; lia|by intros [=]].
  - exact (result_pair p _ E).
  - vm_compute. lia.
Defined.

(** A failed write poisons the journal for later ones: the next write of the same
    writer succeeds, but recovery discards it together with the torn batch. *)
Theorem write_after_failure_lost :
  let w := fresh_writer [Success; Failure IoErrorOther 0] in
  let p := run_write sample_op w in
  let q := run_write (WRaw 1 [Byte.x61] [Byte.x63] Value 6) p.1 in
  is_ok p.2 = false /\ is_ok q.2 = true /\ read_journal (stream q.1) = Some (Ok [], []).
Proof. vm_compute. done. Qed.
