(* ===== verification/JournalFiles.v ===== *)
(** * Journal files: names, rotation, recovery and eviction

    Models the file handling of [src/src/journal/writer.rs] ([rotate]),
    [src/src/journal/recovery.rs] and [src/src/journal/manager.rs]. A journal folder is
    the set of its file names; contents are the subject of [JournalReader]. *)

From stdpp Require Import base gmap list sorting strings.
From S2P Require Import Prelude Errors Utf8 Visibility Store JournalEntry JournalReader JournalWriter.

#[local] Open Scope state_scope.

(** ** Numbers in file names *)

(** [u64::to_string]. A [u64] has at most twenty digits. *)
Fixpoint digits (fuel : nat) (n : Z) : str :=
  match fuel with
  | O => []
  | S fuel => if decide (n < 10) then [48 + n] else digits fuel (n / 10) ++ [48 + n mod 10]
  end.
Definition to_string (n : Z) : str := digits 20 n.

(** [str::parse::<u64>]. *)
Fixpoint parse_digits (acc : Z) (s : str) : option Z :=
  match s with
  | [] => Some acc
  | c :: s =>
      if decide (48 <= c <= 57) then
        let acc := acc * 10 + (c - 48) in
        if decide (acc <= u64_max) then parse_digits acc s else None
      else None
  end.

Definition PLUS : char := 43.
Definition parse_u64 (s : str) : option Z :=
  match s with
  | [] => None
  | c :: rest =>
      if decide (c = PLUS) then match rest with [] => None | _ => parse_digits 0 rest end
      else parse_digits 0 s
  end.

Definition DOT_JNL : str := s2str ".jnl".

(** [str::strip_suffix(".jnl")]. *)
Definition strip_jnl (name : str) : option str :=
  let n := (length name - 4)%nat in
  if decide (drop n name = DOT_JNL) then Some (take n name) else None.

(** What follows the last dot; [None] without a dot. *)
Fixpoint after_last_dot (s : str) : option (str * str) :=
  match s with
  | [] => None
  | c :: s =>
      match after_last_dot s with
      | Some (before, ext) => Some (c :: before, ext)
      | None => if decide (c = DOT) then Some ([], s) else None
      end
  end.

(** [Path::extension] of a file name. *)
Definition extension (name : str) : option str :=
  match after_last_dot name with
  | Some ([], _) => None
  | Some (_, ext) => Some ext
  | None => None
  end.

Definition ascii_lower (c : char) : char := if decide (65 <= c <= 90) then c + 32 else c.

(** The filter of the directory listing. *)
Definition is_journal_name (name : str) : bool :=
  match extension name with
  | Some ext => bool_decide (ascii_lower <$> ext = s2str "jnl")
  | None => false
  end.

Definition invalid_name : Error := JournalRecovery InvalidFileName.

Definition journal_id_of (filename : str) : Result Z :=
  basename ← ok_or (strip_jnl filename) invalid_name;
  ok_or (parse_u64 basename) invalid_name.

Definition journal_name (id : Z) : str := to_string id ++ DOT_JNL.

(** ** Recovery of the journal files *)

Record RecoveryResult := mkRecoveryResult {
  active : str;
  sealed : list (Z * str);
  was_active_created : bool
}.

(** The loop over the directory entries. *)
Fixpoint collect_fragments (names : list str) (max_id : Z) (fragments : list (Z * str)) :
    Result (Z * list (Z * str)) :=
  match names with
  | [] => Ok (max_id, fragments)
  | filename :: names =>
      if negb (is_journal_name filename) then collect_fragments names max_id fragments
      else
        journal_id ← journal_id_of filename;
        collect_fragments names (Z.max max_id journal_id) (fragments ++ [(journal_id, filename)])
  end.

(** [sort_by_key]: a stable sort by journal id. *)
Fixpoint insert_fragment (f : Z * str) (l : list (Z * str)) : list (Z * str) :=
  match l with
  | [] => [f]
  | g :: l => if decide (f.1 <= g.1) then f :: g :: l else g :: insert_fragment f l
  end.
Definition sort_fragments (l : list (Z * str)) : list (Z * str) := foldr insert_fragment [] l.

(** [recover_journals] on a folder: the result and the folder afterwards. A new active
    journal is created with [File::create_new], which fails if the name is taken. *)
Definition recover_journals (folder : list str) : Result RecoveryResult * list str :=
  match collect_fragments folder 0 [] with
  | Err e => (Err e, folder)
  | Ok (max_journal_id, fragments) =>
      match reverse (sort_fragments fragments) with
      | (_, active) :: rest => (Ok (mkRecoveryResult active (reverse rest) false), folder)
      | [] =>
          let new_name := to_string (max_journal_id + 1) in
          if decide (new_name ∈ folder) then (Err (Io IoAlreadyExists), folder)
          else (Ok (mkRecoveryResult new_name [] true), folder ++ [new_name])
      end
  end.

(** ** Rotation *)

(** [Writer::create_new] for a name in [folder]: [File::create_new], [set_len] and
    [sync_all] take their outcomes from the script of [w]; the folder keeps the file
    when a later call fails. *)
Definition create_new (new_name : str) (w : Writer) (folder : list str) : (Writer * list str) * Result Writer :=
  if decide (new_name ∈ folder) then ((w, folder), Err (Io IoAlreadyExists))
  else
    match next_outcome w with
    | (Failure k _, w) => ((w, folder), Err (Io k))
    | (Success, w) =>
        match next_outcome w with
        | (Failure k _, w) => ((w, folder ++ [new_name]), Err (Io k))
        | (Success, w) =>
            match next_outcome w with
            | (Failure k _, w) => ((w, folder ++ [new_name]), Err (Io k))
            | (Success, w) =>
                ((w, folder ++ [new_name]), Ok (mkWriter new_name [] 0 0 [] false CompressionNone 0 (faults w)))
            end
        end
    end.

(** [Writer::rotate]: the writer and the folder afterwards, the names of the sealed and
    of the new journal. A failing [fsync_directory] leaves the new writer in place. *)
Definition rotate (w : Writer) (folder : list str) : (Writer * list str) * Result (str * str) :=
  match persist SyncAll w with
  | (w, Err e) => ((w, folder), Err e)
  | (w, Ok ()) =>
      let prev_name := name w in
      match journal_id_of prev_name with
      | Err e => ((w, folder), Err e)
      | Ok journal_id =>
          let new_name := journal_name (journal_id + 1) in
          match create_new new_name w folder with
          | (wf, Err e) => (wf, Err e)
          | ((w, folder), Ok w') =>
              let w' := set_compression (compression w) (compression_threshold w) w' in
              match next_outcome w' with
              | (Failure k _, w') => ((w', folder), Err (Io k))
              | (Success, w') => ((w', folder), Ok (prev_name, new_name))
              end
          end
      end
  end.

(** ** Names *)

Lemma parse_digits_app acc s c :
  parse_digits acc (s ++ [c]) = parse_digits acc s ≫= fun a => parse_digits a [c].
Proof.
  revert acc. induction s as [|d s IH]; intros acc; [done|].
  change (parse_digits acc ((d :: s) ++ [c])) with (if decide (48 <= d <= 57) then
    if decide (acc * 10 + (d - 48) <= u64_max) then parse_digits (acc * 10 + (d - 48)) (s ++ [c]) else None else None).
  change (parse_digits acc (d :: s)) with (if decide (48 <= d <= 57) then
    if decide (acc * 10 + (d - 48) <= u64_max) then parse_digits (acc * 10 + (d - 48)) s else None else None).
  destruct (decide (48 <= d <= 57)); [|done]. destruct (decide (acc * 10 + (d - 48) <= u64_max)); [apply IH|done].
Qed.

Lemma parse_digits_digits fuel n :
  0 <= n < 10 ^ Z.of_nat fuel -> n <= u64_max -> parse_digits 0 (digits fuel n) = Some n.
Proof.
  revert n. induction fuel as [|fuel IH]; intros n Hn Hmax; [simpl in *; f_equal; lia|]. cbn [digits].
  case_decide as Hlt.
  - cbn [parse_digits]. rewrite !decide_True by lia. f_equal. lia.
  - rewrite Nat2Z.inj_succ, Z.pow_succ_r in Hn by lia.
    pose proof (Z.div_mod n 10 ltac:(lia)). pose proof (Z.mod_pos_bound n 10 ltac:(lia)).
    rewrite parse_digits_app, IH; [|split; [apply Z.div_pos; lia|apply Z.div_lt_upper_bound; lia]|lia].
    cbn [parse_digits mbind option_bind]. rewrite !decide_True by lia. f_equal. lia.
Qed.

(** The first character of a number is a digit. *)
Lemma digits_head fuel n : (0 < fuel)%nat -> 0 <= n -> exists c s, digits fuel n = c :: s /\ 48 <= c.
Proof.
  revert n. induction fuel as [|fuel IH]; intros n Hf Hn; [lia|]. cbn [digits].
  case_decide; [exists (48 + n), []; split; [done|lia]|].
  destruct fuel as [|fuel]; [exists (48 + n mod 10), []; split; [done|]; pose proof (Z.mod_pos_bound n 10); lia|].
  destruct (IH (n / 10) ltac:(lia) ltac:(apply Z.div_pos; lia)) as (c & s & -> & Hc). by exists c, (s ++ [48 + n mod 10]).
Qed.

Lemma parse_to_string n : is_u64 n -> parse_u64 (to_string n) = Some n.
Proof.
  unfold_ranges. intros Hn. pose proof (parse_digits_digits 20 n ltac:(simpl; lia) ltac:(unfold u64_max; lia)) as Hp.
  unfold to_string, parse_u64. destruct (digits_head 20 n ltac:(lia) ltac:(lia)) as (c & s & E & Hc). rewrite E in *.
  rewrite decide_False by (unfold PLUS; lia). done.
Qed.

Lemma strip_jnl_app s : strip_jnl (s ++ DOT_JNL) = Some s.
Proof.
  unfold strip_jnl. rewrite length_app. replace (length s + length DOT_JNL - 4)%nat with (length s) by (simpl; lia).
  by rewrite drop_app_length, take_app_length, decide_True.
Qed.

Lemma after_last_dot_app s : after_last_dot (s ++ DOT_JNL) = Some (s, s2str "jnl").
Proof. induction s as [|c s IH]; [done|]. cbn [app after_last_dot]. by rewrite IH. Qed.

Lemma to_string_nonempty n : 0 <= n -> to_string n <> [].
Proof. intros Hn. destruct (digits_head 20 n ltac:(lia) Hn) as (c & s & E & _). unfold to_string. by rewrite E. Qed.

Lemma journal_name_is n : 0 <= n -> is_journal_name (journal_name n) = true.
Proof.
  intros Hn. unfold is_journal_name, extension, journal_name. rewrite after_last_dot_app.
  pose proof (to_string_nonempty n Hn). by destruct (to_string n).
Qed.

(** Names and ids correspond. *)
Lemma journal_id_of_name n : is_u64 n -> journal_id_of (journal_name n) = Ok n.
Proof.
  intros Hn. unfold journal_id_of, journal_name. rewrite strip_jnl_app. simpl. by rewrite parse_to_string.
Qed.

Lemma journal_name_inj m n : is_u64 m -> is_u64 n -> journal_name m = journal_name n -> m = n.
Proof. intros Hm Hn E. apply journal_id_of_name in Hm, Hn. rewrite E in Hm. congruence. Qed.

(** ** What recovery finds *)

(** A folder whose journal files are those of [ids]. *)
Definition folder_of (ids : list Z) (folder : list str) : Prop :=
  Forall is_u64 ids /\ NoDup ids /\ filter (fun n => is_journal_name n = true) folder = journal_name <$> ids.

Lemma collect_fragments_spec names ids max_id acc :
  Forall is_u64 ids -> filter (fun n => is_journal_name n = true) names = journal_name <$> ids ->
  exists m, collect_fragments names max_id acc = Ok (m, acc ++ ((fun i => (i, journal_name i)) <$> ids)).
Proof.
  revert ids max_id acc. induction names as [|n names IH]; intros ids max_id acc Hids Hf.
  { destruct ids; [|done]. exists max_id. simpl. by rewrite app_nil_r. }
  rewrite filter_cons in Hf. cbn [collect_fragments]. case_decide as Hj.
  - rewrite Hj. cbn [negb]. destruct ids as [|i ids]; [done|]. csimpl in Hf. injection Hf as -> Hf.
    apply Forall_cons in Hids as [Hi Hids]. rewrite journal_id_of_name by done. cbn [mbind Result_bind].
    destruct (IH ids (Z.max max_id i) (acc ++ [(i, journal_name i)]) Hids Hf) as [m ->]. exists m. csimpl. by rewrite <- app_assoc.
  - apply not_true_iff_false in Hj. rewrite Hj. cbn [negb]. by apply IH.
Qed.

Lemma insert_fragment_perm f l : insert_fragment f l ≡ₚ f :: l.
Proof. induction l as [|g l IH]; simpl; [done|]. case_decide; [done|]. rewrite IH. apply perm_swap. Qed.

Lemma sort_fragments_perm l : sort_fragments l ≡ₚ l.
Proof. induction l as [|f l IH]; simpl; [done|]. by rewrite insert_fragment_perm, IH. Qed.

Lemma sort_fragments_sorted l :
  NoDup (fst <$> l) -> StronglySorted (fun a b => a.1 < b.1) (sort_fragments l).
Proof.
  induction l as [|f l IH]; csimpl; intros Hnd; [constructor|]. apply NoDup_cons in Hnd as [Hf Hnd]. specialize (IH Hnd).
  assert (forall g, g ∈ sort_fragments l -> g.1 <> f.1) as Hne.
  { intros g Hg E. apply Hf. rewrite <- E. apply list_elem_of_fmap_2. by rewrite <- sort_fragments_perm. }
  cbn [sort_fragments foldr]. fold (sort_fragments l). revert Hne.
  induction IH as [|g k Hs IHk Hg]; simpl; intros Hne; [repeat constructor|]. case_decide as Hle.
  - assert (g.1 <> f.1) by (apply Hne; left). constructor; [by constructor|]. constructor; [lia|].
    apply (Forall_impl _ _ _ Hg). simpl. lia.
  - constructor; [apply IHk; intros; apply Hne; by right|]. rewrite insert_fragment_perm. constructor; [lia|done].
Qed.

(** Recovery finds the journals of a folder in the order they were written: the one
    with the highest id is the active one, the others are sealed, oldest first. *)
Theorem recover_journals_spec ids folder :
  folder_of ids folder -> ids <> [] ->
  exists sealed_ids id,
    recover_journals folder =
      (Ok (mkRecoveryResult (journal_name id) ((fun i => (i, journal_name i)) <$> sealed_ids) false), folder) /\
    StronglySorted Z.lt (sealed_ids ++ [id]) /\ sealed_ids ++ [id] ≡ₚ ids.
Proof.
  intros (Hids & Hnd & Hf) Hne. unfold recover_journals.
  destruct (collect_fragments_spec folder ids 0 [] Hids Hf) as [m ->]. simpl app.
  set (frags := (fun i => (i, journal_name i)) <$> ids).
  assert (NoDup (fst <$> frags)) as Hnd' by (unfold frags; rewrite <- list_fmap_compose; simpl; by rewrite list_fmap_id).
  pose proof (sort_fragments_sorted frags Hnd') as Hs. pose proof (sort_fragments_perm frags) as Hp.
  assert (sort_fragments frags = (fun i => (i, journal_name i)) <$> (fst <$> sort_fragments frags)) as Hshape.
  { rewrite <- list_fmap_compose. symmetry. rewrite <- (list_fmap_id (sort_fragments frags)) at 2.
    apply list_fmap_ext. intros k [i n] Hk. apply list_elem_of_lookup_2 in Hk. rewrite Hp in Hk.
    apply list_elem_of_fmap in Hk as (i' & [= -> ->] & _). done. }
  assert (fst <$> sort_fragments frags ≡ₚ ids) as Hpi.
  { rewrite Hp. unfold frags. rewrite <- list_fmap_compose. simpl. by rewrite list_fmap_id. }
  assert (StronglySorted Z.lt (fst <$> sort_fragments frags)) as Hsi.
  { clear -Hs. induction Hs as [|f l Hs IH Hf]; csimpl; constructor; [done|]. apply Forall_fmap. done. }
  rewrite Hshape. clear Hs Hp Hshape. revert Hpi Hsi. generalize (fst <$> sort_fragments frags). intros l Hpi Hsi.
  destruct (exists_last (l := l)) as (l' & id & ->); [intros ->; by apply Permutation_nil_l in Hpi|].
  exists l', id. split; [|done]. rewrite fmap_app, reverse_app. simpl. by rewrite reverse_involutive.
Qed.

Lemma recover_journals_spec_witness :
  exists sealed_ids id,
    recover_journals [s2str "2.jnl"; s2str "lock"; s2str "10.jnl"; s2str "3.jnl"] =
      (Ok (mkRecoveryResult (journal_name id) ((fun i => (i, journal_name i)) <$> sealed_ids) false),
       [s2str "2.jnl"; s2str "lock"; s2str "10.jnl"; s2str "3.jnl"]) /\
    StronglySorted Z.lt (sealed_ids ++ [id]) /\ sealed_ids ++ [id] ≡ₚ [2; 10; 3].
Proof.
  apply (recover_journals_spec [2; 10; 3]); [|done]. split; [|split].
  - repeat constructor; unfold_ranges; lia.
  - repeat (apply NoDup_cons; split; [set_solver|]). constructor.
  - vm_compute. reflexivity.
Defined.

Lemma persist_name mode w : name (persist mode w).1 = name w.
Proof.
  unfold persist, st_bind, st_read, st_ret, flush, sync, modify, next_outcome.
  destruct w as [nm st fl sy bf [] c ct [|[|k n] [|[|k' n'] fs]]], mode; done.
Qed.

Lemma next_outcome_name w : name (next_outcome w).2 = name w /\ stream (next_outcome w).2 = stream w.
Proof. by destruct w as [? ? ? ? ? ? ? ? []]. Qed.

Lemma create_new_Ok n w folder w1 folder' w' :
  create_new n w folder = ((w1, folder'), Ok w') -> name w' = n /\ stream w' = [] /\ folder' = folder ++ [n].
Proof.
  unfold create_new. case_decide; [done|].
  do 3 (destruct (next_outcome _) as [[|? ?] ?]; [|done]). by intros [= <- <- <-].
Qed.

(** A rotation seals the active journal and starts the one with the next id, under a
    name that recovery takes for the newest journal. *)
Theorem rotate_next w folder id w' folder' old new :
  name w = journal_name id -> 0 <= id < u64_max ->
  rotate w folder = ((w', folder'), Ok (old, new)) ->
  old = journal_name id /\ new = journal_name (id + 1) /\ name w' = new /\ stream w' = [] /\ folder' = folder ++ [new] /\
  journal_id_of new = Ok (id + 1) /\ is_journal_name new = true.
Proof.
  intros Hn Hid. unfold rotate. pose proof (persist_name SyncAll w) as E.
  destruct (persist SyncAll w) as [w1 [[]|e]]; [|done]. simpl in E. rewrite E, Hn, journal_id_of_name by (unfold_ranges; lia).
  destruct (create_new _ w1 folder) as [[w2 f2] [w3|?]] eqn:Ec; [|done]. apply create_new_Ok in Ec as (Hn3 & Hs3 & ->).
  pose proof (next_outcome_name (set_compression (compression w2) (compression_threshold w2) w3)) as [Hn4 Hs4].
  destruct (next_outcome _) as [[|? ?] w4]; [|done]. intros [= <- <- <- <-].
  split_and!; [done|done|by cbn in Hn4; rewrite Hn4|by cbn in Hs4; rewrite Hs4|done| |].
  - apply journal_id_of_name. unfold_ranges; lia.
  - apply journal_name_is. lia.
Qed.

Lemma rotate_next_witness :
  let w := fresh_writer [] in
  let p := rotate w [s2str "0.jnl"] in
  name p.1.1 = journal_name 1 /\ p.1.2 = [s2str "0.jnl"; s2str "1.jnl"].
Proof.
  intros w p.
  assert (p = (p.1, Ok (journal_name 0, journal_name 1))) as E by (vm_compute; reflexivity).
  assert (p.1 = (p.1.1, p.1.2)) as E2 by (by destruct p.1). rewrite E2 in E.
  pose proof (rotate_next w [s2str "0.jnl"] 0 p.1.1 p.1.2 (journal_name 0) (journal_name 1) eq_refl ltac:(done) E)
    as (_ & _ & Hn & _ & Hf & _). split; [exact Hn|exact Hf].
Defined.

(** A folder without journals is not recoverable twice: the active journal that
    recovery creates there has no [.jnl] extension, so the next recovery does not see
    it, tries to create the same file again and fails; rotating it fails too. *)
Theorem created_journal_not_recovered folder :
  filter (fun n => is_journal_name n = true) folder = [] -> s2str "1" ∉ folder ->
  exists folder', recover_journals folder = (Ok (mkRecoveryResult (s2str "1") [] true), folder') /\
    (recover_journals folder').1 = Err (Io IoAlreadyExists) /\
    journal_id_of (s2str "1") = Err (JournalRecovery InvalidFileName).
Proof.
  intros Hf Hn. exists (folder ++ [s2str "1"]).
  assert (forall names max_id acc, filter (fun n => is_journal_name n = true) names = [] ->
    collect_fragments names max_id acc = Ok (max_id, acc)) as Hc.
  { clear. induction names as [|n names IH]; intros max_id acc E; [done|]. rewrite filter_cons in E.
    case_decide as Hj; [done|]. apply not_true_iff_false in Hj. cbn [collect_fragments]. rewrite Hj. by apply IH. }
  assert (to_string (0 + 1) = s2str "1") as E1 by reflexivity.
  unfold recover_journals. rewrite !Hc by (rewrite ?filter_app, ?Hf; done).
  change (reverse (sort_fragments [])) with (@nil (Z * str)). cbv iota beta. rewrite E1.
  rewrite decide_False by exact Hn. rewrite decide_True by (apply elem_of_app; right; left). done.
Qed.

Lemma created_journal_not_recovered_witness :
  exists folder', recover_journals [] = (Ok (mkRecoveryResult (s2str "1") [] true), folder') /\
    (recover_journals folder').1 = Err (Io IoAlreadyExists) /\
    journal_id_of (s2str "1") = Err (JournalRecovery InvalidFileName).
Proof. apply (created_journal_not_recovered []); [reflexivity|set_solver]. Defined.

(** ** The journal manager

    [K] are keyspace handles; the highest sequence number a keyspace has in its tables
    is a question to its LSM tree. *)

Section manager.
Context {K : Type} (highest_persisted_seqno : K -> option Z) (is_deleted : K -> bool).

Record EvictionWatermark := mkEvictionWatermark { wm_keyspace : K; lsn : Z }.

Record ManagerItem := mkManagerItem {
  item_path : str;
  size_in_bytes : Z;
  watermarks : list EvictionWatermark
}.

Record JournalManager := mkJournalManager { mgr_items : list ManagerItem; disk_space_in_bytes : Z }.

Definition manager_new : JournalManager := mkJournalManager [] 0.

Definition manager_clear (m : JournalManager) : JournalManager := mkJournalManager [] (disk_space_in_bytes m).

Definition enqueue (m : JournalManager) (item : ManagerItem) : JournalManager :=
  mkJournalManager (mgr_items m ++ [item]) (u64_sat_add (disk_space_in_bytes m) (size_in_bytes item)).

Definition sealed_journal_count (m : JournalManager) : nat := length (mgr_items m).
Definition journal_count (m : JournalManager) : nat := (sealed_journal_count m + 1)%nat.

(** [get_keyspaces_to_flush_for_oldest_journal_eviction]. *)
Definition needs_flush (wm : EvictionWatermark) : bool :=
  match highest_persisted_seqno (wm_keyspace wm) with
  | None => true
  | Some partition_seqno => bool_decide (partition_seqno < lsn wm)
  end.

Definition keyspaces_to_flush (m : JournalManager) : list K :=
  match mgr_items m with
  | item :: _ => wm_keyspace <$> filter (fun wm => needs_flush wm = true) (watermarks item)
  | [] => []
  end.

(** The inner loop of [maintenance]: whether the oldest journal may go. *)
Fixpoint all_flushed (wms : list EvictionWatermark) : bool :=
  match wms with
  | [] => true
  | wm :: wms =>
      if is_deleted (wm_keyspace wm) then all_flushed wms
      else
        match highest_persisted_seqno (wm_keyspace wm) with
        | None => false
        | Some keyspace_seqno => if decide (keyspace_seqno < lsn wm) then false else all_flushed wms
        end
  end.

(** [maintenance]: [remove_file] is the outcome of deleting a file; the names deleted
    are returned too. *)
Fixpoint maintenance_loop (remove_file : str -> Result ()) (items : list ManagerItem) (disk : Z) :
    JournalManager * list str * Result () :=
  match items with
  | [] => (mkJournalManager [] disk, [], Ok ())
  | item :: rest =>
      if all_flushed (watermarks item) then
        match remove_file (item_path item) with
        | Err e => (mkJournalManager items disk, [], Err e)
        | Ok () =>
            let '(m, removed, r) := maintenance_loop remove_file rest (u64_sat_sub disk (size_in_bytes item)) in
            (m, item_path item :: removed, r)
        end
      else (mkJournalManager items disk, [], Ok ())
  end.

Definition maintenance (remove_file : str -> Result ()) (m : JournalManager) : JournalManager * list str * Result () :=
  maintenance_loop remove_file (mgr_items m) (disk_space_in_bytes m).

(** [rotate_journal]: the file length is that of the active journal. *)
Definition rotate_journal (journal_size : Result Z) (wms : list EvictionWatermark) (m : JournalManager) (w : Writer)
    (folder : list str) : JournalManager * Writer * list str * Result () :=
  match journal_size with
  | Err e => (m, w, folder, Err e)
  | Ok journal_size =>
      match rotate w folder with
      | ((w, folder), Err e) => (m, w, folder, Err e)
      | ((w, folder), Ok (sealed_path, _)) =>
          (enqueue m (mkManagerItem sealed_path journal_size wms), w, folder, Ok ())
      end
  end.

(** Every live keyspace with data in the journal has it in its tables. *)
Definition fully_flushed (item : ManagerItem) : Prop :=
  forall wm, wm ∈ watermarks item -> is_deleted (wm_keyspace wm) = false ->
    exists s, highest_persisted_seqno (wm_keyspace wm) = Some s /\ lsn wm <= s.

Lemma all_flushed_spec wms path size :
  all_flushed wms = true <-> fully_flushed (mkManagerItem path size wms).
Proof.
  unfold fully_flushed. simpl. induction wms as [|wm wms IH]; simpl.
  { split; [|done]. intros _ wm Hin. by apply not_elem_of_nil in Hin. }
  setoid_rewrite elem_of_cons. destruct (is_deleted (wm_keyspace wm)) eqn:Ed.
  { rewrite IH. split; [|naive_solver]. intros H wm' [->|Hin]; [congruence|auto]. }
  destruct (highest_persisted_seqno (wm_keyspace wm)) as [s|] eqn:Es.
  - case_decide as Hlt.
    + split; [done|]. intros H. destruct (H wm (or_introl eq_refl) Ed) as (s' & E & Hs). simplify_eq. lia.
    + rewrite IH. split; [|naive_solver]. intros H wm' [->|Hin]; [|auto]. intros _. exists s. split; [done|lia].
  - split; [done|]. intros H. destruct (H wm (or_introl eq_refl) Ed) as (s' & E & _). congruence.
Qed.

Lemma maintenance_evicts remove_file m m' removed r :
  maintenance remove_file m = (m', removed, r) ->
  exists evicted, mgr_items m = evicted ++ mgr_items m' /\ removed = item_path <$> evicted /\
    Forall fully_flushed evicted /\
    (r = Ok () -> forall item, head (mgr_items m') = Some item -> ~ fully_flushed item).
Proof.
  unfold maintenance. generalize (disk_space_in_bytes m). generalize (mgr_items m). intros items.
  revert removed. induction items as [|item rest IH]; intros removed disk; simpl.
  { intros [= <- <- <-]. by exists []. }
  destruct (all_flushed (watermarks item)) eqn:Ea.
  - destruct (remove_file (item_path item)) as [[]|e]; [|intros [= <- <- <-]; by exists []].
    destruct (maintenance_loop _ _ _) as [[m1 removed1] r1] eqn:E. intros [= <- <- <-].
    destruct (IH _ _ E) as (evicted & -> & -> & Hf & Hr). exists (item :: evicted).
    split; [done|]. split; [done|]. split; [|done]. constructor; [|done].
    destruct item. by eapply all_flushed_spec.
  - intros [= <- <- <-]. exists []. split; [done|]. split; [done|]. split; [done|]. intros _ item' [= <-] Hff.
    destruct item as [path size wms]. apply all_flushed_spec in Hff. simpl in Ea. congruence.
Qed.

(** Journals are evicted oldest first and only when every live keyspace with data in
    them has flushed it; if no file deletion fails, eviction stops only at a journal that
    is still needed. *)
Theorem maintenance_spec remove_file m m' removed r :
  maintenance remove_file m = (m', removed, r) ->
  exists evicted, mgr_items m = evicted ++ mgr_items m' /\ removed = item_path <$> evicted /\
    Forall fully_flushed evicted /\
    (r = Ok () -> forall item, head (mgr_items m') = Some item -> ~ fully_flushed item).
Proof. apply maintenance_evicts. Qed.
End manager.

(** Two journals; keyspace 1 has flushed up to 9, keyspace 2 nothing. *)
Lemma maintenance_spec_witness :
  let hp := fun k : nat => if decide (k = 1%nat) then Some 9 else None in
  let item1 := mkManagerItem (s2str "0.jnl") 10 [mkEvictionWatermark 1%nat 7] in
  let item2 := mkManagerItem (s2str "1.jnl") 10 [mkEvictionWatermark 1%nat 9; mkEvictionWatermark 2%nat 8] in
  exists evicted, [item1; item2] = evicted ++ [item2] /\ [s2str "0.jnl"] = item_path <$> evicted /\
    Forall (fully_flushed hp (fun _ => false)) evicted /\
    (@Ok () () = Ok () -> forall item, Some item2 = Some item -> ~ fully_flushed hp (fun _ => false) item).
Proof.
  intros hp item1 item2.
  apply (maintenance_spec hp (fun _ => false) (fun _ => Ok ()) (mkJournalManager [item1; item2] 20)
    (mkJournalManager [item2] 10) [s2str "0.jnl"] (Ok ())). reflexivity.
Defined.
