(* ===== verification/SnapshotTracker.v ===== *)
(** * Snapshot tracking and the garbage collection watermark

    Models [src/src/snapshot_tracker.rs] and [src/src/snapshot_nonce.rs]. The tracker
    counts the open snapshots per instant; [lowest_freed_instant] is the watermark
    compactions use: a version is dropped only if a newer version of its key is at or
    below the watermark. Sequence numbers are [u64]s that stay far below the top bit.

    [data] is a hash map, so the order in which [gc] visits it is arbitrary: it is an
    argument, any permutation of the contents. The sections the [gc_lock] protects are
    steps of a relation, so the theorems cover every interleaving of threads. *)

From stdpp Require Import base gmap list.
From S2P Require Import Prelude.

Record SnapshotTracker := mkTracker {
  seqno : Z;
  data : gmap Z nat;
  freed_count : Z;
  lowest_freed_instant : Z
}.

(** [SnapshotTracker::new] on a sequence number counter. *)
Definition tracker_new (seqno : Z) : SnapshotTracker := mkTracker seqno ∅ 0 0.

(** [get] and [set], which [fetch_max]es the counter. *)
Definition tracker_get (t : SnapshotTracker) : Z := seqno t.
Definition tracker_set (value : Z) (t : SnapshotTracker) : SnapshotTracker :=
  mkTracker (Z.max (seqno t) value) (data t) (freed_count t) (lowest_freed_instant t).

Definition with_data (d : gmap Z nat) (t : SnapshotTracker) : SnapshotTracker :=
  mkTracker (seqno t) d (freed_count t) (lowest_freed_instant t).
Definition with_watermark (w : Z) (t : SnapshotTracker) : SnapshotTracker :=
  mkTracker (seqno t) (data t) (freed_count t) w.

(** [entry(instant).and_modify(|x| *x += 1).or_insert(1)]. *)
Definition count_up (instant : Z) (d : gmap Z nat) : gmap Z nat :=
  <[instant := S (default 0%nat (d !! instant))]> d.

Definition open_at (instant : Z) (t : SnapshotTracker) : SnapshotTracker :=
  with_data (count_up instant (data t)) t.

(** [open]: the instant of the nonce is the counter. *)
Definition tracker_open (t : SnapshotTracker) : SnapshotTracker * Z := (open_at (seqno t) t, seqno t).

Definition clone_snapshot (instant : Z) (t : SnapshotTracker) : SnapshotTracker * Z := (open_at instant t, instant).

Definition tracker_len (t : SnapshotTracker) : nat := size (data t).
Definition open_snapshots (t : SnapshotTracker) : nat := map_fold (fun _ n acc => (n + acc)%nat) 0%nat (data t).

Definition publish (batch_seqno : Z) (t : SnapshotTracker) : SnapshotTracker := tracker_set (batch_seqno + 1) t.

Definition get_seqno_safe_to_gc (t : SnapshotTracker) : Z := lowest_freed_instant t.

Definition pullup (t : SnapshotTracker) : SnapshotTracker :=
  if decide (data t = ∅) then with_watermark (u64_sat_sub (seqno t) 1) t else t.

(** ** Garbage collection *)

Definition should_be_retained (threshold : Z) (k : Z) (v : nat) : bool :=
  bool_decide (0 < v)%nat || bool_decide (threshold <= k).

(** The closure of [retain]: [lowest_retained] and [none_retained]. *)
Definition gc_visit (threshold : Z) (acc : Z * bool) (kv : Z * nat) : Z * bool :=
  if should_be_retained threshold kv.1 kv.2
  then (if decide (acc.1 = 0) then kv.1 else Z.min acc.1 kv.1, false)
  else acc.

Definition gc (order : list (Z * nat)) (t : SnapshotTracker) : SnapshotTracker :=
  let seqno_threshold := seqno t in
  let '(lowest_retained, none_retained) := foldl (gc_visit seqno_threshold) (0, true) order in
  let lowest_retained := if (none_retained : bool) then seqno_threshold else lowest_retained in
  mkTracker (seqno t) (filter (fun kv => should_be_retained seqno_threshold kv.1 kv.2 = true) (data t))
    (freed_count t) (Z.max (lowest_freed_instant t) (u64_sat_sub lowest_retained 1)).

(** [close_raw] up to the release of the lock, and whether it goes on to [gc]. *)
Definition close_count (instant : Z) (t : SnapshotTracker) : SnapshotTracker * bool :=
  let freed := (freed_count t + 1) mod 2 ^ 64 in
  (mkTracker (seqno t) (alter Nat.pred instant (data t)) freed (lowest_freed_instant t),
   bool_decide (freed mod 10000 = 0)).

(** [close_raw] in one go, the map visited in [order] by the collection. *)
Definition close_raw (order : SnapshotTracker -> list (Z * nat)) (instant : Z) (t : SnapshotTracker) : SnapshotTracker :=
  let '(t, due) := close_count instant t in
  if due then gc (order t) t else t.

(** ** Interleavings

    [opening] are the instants of threads between reading the counter and counting the
    snapshot in [open], where they hold the read lock; [live] are the nonces in use. *)

Record TrackerState := mkTrackerState {
  tracker : SnapshotTracker;
  opening : list Z;
  live : list Z
}.

Inductive tracker_step : TrackerState -> TrackerState -> Prop :=
  | StepOpenRead s :
      tracker_step s (mkTrackerState (tracker s) (seqno (tracker s) :: opening s) (live s))
  | StepOpenCount s i rest :
      opening s ≡ₚ i :: rest ->
      tracker_step s (mkTrackerState (open_at i (tracker s)) rest (i :: live s))
  | StepClone s i :
      i ∈ live s ->
      tracker_step s (mkTrackerState (clone_snapshot i (tracker s)).1 (opening s) (i :: live s))
  | StepClose s i rest :
      live s ≡ₚ i :: rest ->
      tracker_step s (mkTrackerState (close_count i (tracker s)).1 (opening s) rest)
  | StepPublish s batch_seqno :
      tracker_step s (mkTrackerState (publish batch_seqno (tracker s)) (opening s) (live s))
  | StepSet s value :
      tracker_step s (mkTrackerState (tracker_set value (tracker s)) (opening s) (live s))
  | StepPullup s :
      opening s = [] ->
      tracker_step s (mkTrackerState (pullup (tracker s)) [] (live s))
  | StepGc s order :
      opening s = [] -> order ≡ₚ map_to_list (data (tracker s)) ->
      tracker_step s (mkTrackerState (gc order (tracker s)) [] (live s)).

Definition tracker_init (seqno : Z) : TrackerState := mkTrackerState (tracker_new seqno) [] [].

Definition tracker_reachable (seqno : Z) (s : TrackerState) : Prop := rtc tracker_step (tracker_init seqno) s.

(** ** What [gc] computes *)

Definition retained (threshold : Z) (order : list (Z * nat)) : list Z :=
  fst <$> filter (fun kv => should_be_retained threshold kv.1 kv.2 = true) order.

(** The fold of the closure finds the least retained instant, as long as 0, which also
    stands for "none so far", is not an instant. *)
Lemma gc_visit_fold threshold order :
  (forall k v, (k, v) ∈ order -> 0 < k) ->
  match foldl (gc_visit threshold) (0, true) order with
  | (lo, true) => lo = 0 /\ retained threshold order = []
  | (lo, false) => lo ∈ retained threshold order /\ forall k, k ∈ retained threshold order -> lo <= k
  end.
Proof.
  induction order as [|[k v] order IH] using rev_ind; intros Hpos; [done|].
  rewrite foldl_app. cbn [foldl]. unfold gc_visit at 1. unfold retained in *. rewrite filter_app, fmap_app, filter_cons, filter_nil.
  cbn [fst snd].
  assert (0 < k) as Hk by (apply (Hpos k v), elem_of_app; right; left).
  specialize (IH (fun k v H => Hpos k v (proj2 (elem_of_app _ _ _) (or_introl H)))).
  destruct (foldl _ _ order) as [lo none] eqn:E. cbn [fst].
  destruct (should_be_retained threshold k v).
  - destruct (decide (true = true)) as [_|?]; [|done]. cbn [fmap list_fmap fst]. destruct none.
    + destruct IH as [-> ->]. rewrite decide_True by done. simpl.
      split; [left|]. intros k' Hk'%list_elem_of_singleton. lia.
    + destruct IH as [Hin Hle].
      assert (0 < lo). { apply list_elem_of_fmap in Hin as ((k', v') & -> & Hin). apply list_elem_of_filter in Hin as [_ Hin].
        apply (Hpos k' v'), elem_of_app. by left. }
      rewrite decide_False by lia. split.
      * destruct (Z.min_spec lo k) as [[_ ->]|[_ ->]]; apply elem_of_app; [by left|right; left].
      * intros k' [Hk'%Hle|Hk'%list_elem_of_singleton]%elem_of_app; lia.
  - destruct (decide (false = true)) as [?|_]; [done|]. cbn [fmap list_fmap]. rewrite app_nil_r. done.
Qed.

(** ** The invariant of the tracker *)

Definition occurrences (i : Z) (l : list Z) : nat := length (filter (fun j => j = i) l).

Lemma occurrences_cons i j l : occurrences i (j :: l) = ((if decide (j = i) then 1 else 0) + occurrences i l)%nat.
Proof. unfold occurrences. rewrite filter_cons. by case_decide. Qed.

Lemma occurrences_perm i l l' : l ≡ₚ l' -> occurrences i l = occurrences i l'.
Proof. intros Hp. unfold occurrences. by rewrite Hp. Qed.

Lemma occurrences_elem i l : i ∈ l <-> (0 < occurrences i l)%nat.
Proof.
  unfold occurrences. rewrite <- Nat.neq_0_lt_0, length_zero_iff_nil. split.
  - intros Hi Hn. apply (not_elem_of_nil i). rewrite <- Hn. by apply list_elem_of_filter.
  - intros Hn. destruct (filter _ l) as [|j l'] eqn:E; [done|].
    assert (j ∈ filter (fun j => j = i) l) as Hj by (rewrite E; left).
    by apply list_elem_of_filter in Hj as [-> ?].
Qed.

Record tracker_inv (s : TrackerState) : Prop := {
  inv_count i : default 0%nat (data (tracker s) !! i) = occurrences i (live s);
  inv_keys i n : data (tracker s) !! i = Some n -> 0 < i <= seqno (tracker s);
  inv_opening i : i ∈ opening s -> lowest_freed_instant (tracker s) < i <= seqno (tracker s);
  inv_live i : i ∈ live s -> lowest_freed_instant (tracker s) < i;
  inv_watermark : 0 <= lowest_freed_instant (tracker s) < seqno (tracker s)
}.

Lemma live_counted s i : tracker_inv s -> i ∈ live s -> exists n, data (tracker s) !! i = Some n /\ (0 < n)%nat.
Proof.
  intros Hs Hi%occurrences_elem. pose proof (inv_count s Hs i) as E.
  destruct (data (tracker s) !! i) as [n|]; simpl in E; [|lia]. exists n. split; [done|lia].
Qed.

Lemma init_inv n : 0 < n -> tracker_inv (tracker_init n).
Proof.
  intros Hn. constructor; simpl.
  - done.
  - intros i m H. by rewrite lookup_empty in H.
  - by intros i H%elem_of_nil.
  - by intros i H%elem_of_nil.
  - lia.
Qed.

Lemma open_at_inv s i ops :
  tracker_inv s -> lowest_freed_instant (tracker s) < i <= seqno (tracker s) -> (forall j, j ∈ ops -> j ∈ opening s) ->
  tracker_inv (mkTrackerState (open_at i (tracker s)) ops (i :: live s)).
Proof.
  intros Hs Hi Hops. pose proof (inv_watermark s Hs). constructor; unfold open_at, with_data, count_up; simpl.
  - intros j. rewrite occurrences_cons. case_decide as E; [subst j|].
    + rewrite lookup_insert_eq. simpl. by rewrite (inv_count s Hs).
    + rewrite lookup_insert_ne by done. apply (inv_count s Hs).
  - intros j n Hj. destruct (decide (i = j)) as [<-|Hne]; [lia|].
    rewrite lookup_insert_ne in Hj by done. by eapply (inv_keys s Hs).
  - intros j Hj. apply (inv_opening s Hs), Hops, Hj.
  - intros j [-> |Hj]%elem_of_cons; [lia|]. by apply (inv_live s Hs).
  - done.
Qed.

Lemma close_inv s i rest :
  tracker_inv s -> live s ≡ₚ i :: rest ->
  tracker_inv (mkTrackerState (close_count i (tracker s)).1 (opening s) rest).
Proof.
  intros Hs Hp. constructor; unfold close_count; simpl.
  - intros j. pose proof (inv_count s Hs j) as E. rewrite (occurrences_perm _ _ _ Hp), occurrences_cons in E.
    case_decide as Ej; [subst j|].
    + rewrite lookup_alter_eq. destruct (data (tracker s) !! i); simpl in *; lia.
    + rewrite lookup_alter_ne by done. done.
  - intros j n Hj. destruct (decide (i = j)) as [<-|Hne].
    + rewrite lookup_alter_eq in Hj. destruct (data (tracker s) !! i) eqn:E; [|done]. by eapply (inv_keys s Hs).
    + rewrite lookup_alter_ne in Hj by done. by eapply (inv_keys s Hs).
  - apply (inv_opening s Hs).
  - intros j Hj. apply (inv_live s Hs). rewrite Hp. by right.
  - apply (inv_watermark s Hs).
Qed.

Lemma set_inv s v :
  tracker_inv s -> tracker_inv (mkTrackerState (tracker_set v (tracker s)) (opening s) (live s)).
Proof.
  intros Hs. pose proof (inv_watermark s Hs). constructor; unfold tracker_set; simpl.
  - apply (inv_count s Hs).
  - intros i n Hi. apply (inv_keys s Hs) in Hi. lia.
  - intros i Hi. apply (inv_opening s Hs) in Hi. lia.
  - apply (inv_live s Hs).
  - lia.
Qed.

Lemma pullup_inv s : tracker_inv s -> opening s = [] -> tracker_inv (mkTrackerState (pullup (tracker s)) [] (live s)).
Proof.
  intros Hs Ho. pose proof (inv_watermark s Hs). unfold pullup. case_decide as Hd.
  - assert (live s = []) as Hl.
    { apply elem_of_nil_inv. intros i Hi. destruct (live_counted s i Hs Hi) as (n & E & _). by rewrite Hd, lookup_empty in E. }
    constructor; unfold with_watermark; simpl.
    + apply (inv_count s Hs).
    + apply (inv_keys s Hs).
    + by intros i Hi%elem_of_nil.
    + rewrite Hl. by intros i Hi%elem_of_nil.
    + unfold_ranges. lia.
  - pose proof Hs as [H1 H2 H3 H4 H5]. rewrite Ho in H3. by constructor.
Qed.

(** ** What a collection leaves *)

Lemma retained_elem threshold order k :
  k ∈ retained threshold order <-> exists v, (k, v) ∈ order /\ should_be_retained threshold k v = true.
Proof.
  unfold retained. rewrite list_elem_of_fmap. split.
  - intros ((k' & v) & -> & H). apply list_elem_of_filter in H as [? ?]. by exists v.
  - intros (v & ? & ?). exists (k, v). split; [done|]. by apply list_elem_of_filter.
Qed.

Lemma live_retained s order i :
  tracker_inv s -> order ≡ₚ map_to_list (data (tracker s)) -> i ∈ live s ->
  i ∈ retained (seqno (tracker s)) order.
Proof.
  intros Hs Ho Hi. destruct (live_counted s i Hs Hi) as (n & E & Hn). apply retained_elem. exists n. split.
  - rewrite Ho. by apply elem_of_map_to_list.
  - unfold should_be_retained. by rewrite bool_decide_eq_true_2.
Qed.

(** The new watermark: just below the oldest live snapshot, or below the counter. *)
Lemma gc_watermark s order :
  tracker_inv s -> order ≡ₚ map_to_list (data (tracker s)) ->
  exists lowest,
    lowest_freed_instant (gc order (tracker s)) = Z.max (lowest_freed_instant (tracker s)) (lowest - 1) /\
    0 < lowest <= seqno (tracker s) /\ (lowest = seqno (tracker s) \/ lowest ∈ live s) /\
    forall i, i ∈ live s -> lowest <= i.
Proof.
  intros Hs Ho. pose proof (inv_watermark s Hs) as Hw. unfold gc.
  assert (forall k v, (k, v) ∈ order -> data (tracker s) !! k = Some v) as Hel.
  { intros k v H. rewrite Ho in H. by apply elem_of_map_to_list in H. }
  pose proof (gc_visit_fold (seqno (tracker s)) order) as Hf.
  specialize (Hf (fun k v H => proj1 (inv_keys s Hs k v (Hel k v H)))).
  destruct (foldl _ _ _) as [lo []]; destruct Hf as [Hf Hle]; cbn [lowest_freed_instant].
  - exists (seqno (tracker s)). split; [unfold_ranges; lia|]. split; [lia|]. split; [by left|].
    intros i Hi. apply (live_retained s order i Hs Ho) in Hi. rewrite Hle in Hi. by apply elem_of_nil in Hi.
  - exists lo. apply retained_elem in Hf as (v & Hin & Hr). apply Hel in Hin as Hd.
    pose proof (inv_keys s Hs _ _ Hd) as Hk. split; [unfold_ranges; lia|]. split; [lia|]. split.
    + unfold should_be_retained in Hr. apply orb_true_iff in Hr as [Hr|Hr]; apply bool_decide_eq_true in Hr.
      * right. apply occurrences_elem. rewrite <- (inv_count s Hs), Hd. done.
      * left. lia.
    + intros i Hi. by apply Hle, (live_retained s).
Qed.

Lemma gc_inv s order :
  tracker_inv s -> opening s = [] -> order ≡ₚ map_to_list (data (tracker s)) ->
  tracker_inv (mkTrackerState (gc order (tracker s)) [] (live s)).
Proof.
  intros Hs Ho Hp. pose proof (inv_watermark s Hs).
  destruct (gc_watermark s order Hs Hp) as (lo & Hm & Hlo & _ & Hle).
  assert (seqno (gc order (tracker s)) = seqno (tracker s)) as Hseq
    by (unfold gc; by destruct (foldl _ _ _)).
  assert (data (gc order (tracker s)) =
    filter (fun kv => should_be_retained (seqno (tracker s)) kv.1 kv.2 = true) (data (tracker s))) as Hd
    by (unfold gc; by destruct (foldl _ _ _)).
  constructor; cbn [tracker opening live]; rewrite ?Hm, ?Hseq, ?Hd.
  - intros i. rewrite <- (inv_count s Hs). rewrite map_lookup_filter.
    destruct (data (tracker s) !! i) as [n|] eqn:E; [|done]. simpl.
    destruct (should_be_retained _ i n) eqn:Er; [done|].
    unfold should_be_retained in Er. apply orb_false_iff in Er as [Er _]. apply bool_decide_eq_false in Er. simpl. lia.
  - intros i n [Hi _]%map_lookup_filter_Some. by eapply (inv_keys s Hs).
  - by intros i Hi%elem_of_nil.
  - intros i Hi. pose proof (inv_live s Hs i Hi). specialize (Hle i Hi). lia.
  - lia.
Qed.

Lemma step_inv s s' : tracker_inv s -> tracker_step s s' -> tracker_inv s'.
Proof.
  intros Hs Hstep. pose proof (inv_watermark s Hs) as Hw.
  destruct Hstep as [s|s i rest Hp|s i Hi|s i rest Hp|s b|s v|s Ho|s order Ho Hp].
  - destruct Hs. constructor; simpl; try done. intros i [-> |Hi]%elem_of_cons; [lia|]. auto.
  - apply open_at_inv; [done| |].
    + apply (inv_opening s Hs). rewrite Hp. left.
    + intros j Hj. rewrite Hp. by right.
  - apply open_at_inv; [done| |done]. split; [by apply (inv_live s Hs)|].
    destruct (live_counted s i Hs Hi) as (n & E & _). apply (inv_keys s Hs) in E. lia.
  - by apply close_inv.
  - by apply set_inv.
  - by apply set_inv.
  - by apply pullup_inv.
  - by apply gc_inv.
Qed.

Lemma reachable_inv n s : 0 < n -> tracker_reachable n s -> tracker_inv s.
Proof.
  intros Hn Hr. unfold tracker_reachable in Hr. pose proof (init_inv n Hn) as Hi.
  induction Hr as [s|s1 s2 s3 Hstep _ IH]; [done|]. by eapply IH, step_inv.
Qed.

(** C16: However threads open, clone and close snapshots, publish writes and collect,
    the garbage collection watermark stays below the instant of every open snapshot and
    of every snapshot being opened, provided the counter does not start at 0. *)
Theorem watermark_safe n s i :
  0 < n -> tracker_reachable n s -> i ∈ live s ++ opening s ->
  get_seqno_safe_to_gc (tracker s) < i <= tracker_get (tracker s).
Proof.
  intros Hn Hr [Hi|Hi]%elem_of_app; pose proof (reachable_inv n s Hn Hr) as Hs.
  - split; [by apply (inv_live s Hs)|]. destruct (live_counted s i Hs Hi) as (m & E & _). apply (inv_keys s Hs) in E. apply E.
  - by apply (inv_opening s Hs).
Qed.

(** A collection makes progress: it moves the watermark to just below the oldest
    open snapshot, or just below the counter when none is open, in whatever order it
    visits the map, and it leaves the counters of the open snapshots alone. *)
Theorem gc_exact n s order oldest :
  0 < n -> tracker_reachable n s -> opening s = [] -> order ≡ₚ map_to_list (data (tracker s)) ->
  oldest = foldr Z.min (seqno (tracker s)) (live s) ->
  get_seqno_safe_to_gc (gc order (tracker s)) = Z.max (get_seqno_safe_to_gc (tracker s)) (oldest - 1) /\
  (forall i, default 0%nat (data (gc order (tracker s)) !! i) = occurrences i (live s)).
Proof.
  intros Hn Hr Hop Ho ->. pose proof (reachable_inv n s Hn Hr) as Hs.
  destruct (gc_watermark s order Hs Ho) as (lo & Hm & Hlo & Hor & Hle). split.
  - unfold get_seqno_safe_to_gc. rewrite Hm. do 2 f_equal.
    assert (forall l, foldr Z.min (seqno (tracker s)) l <= seqno (tracker s)) as Hseq by (induction l; simpl; lia).
    apply Z.le_antisymm.
    + assert (forall l, (forall i, i ∈ l -> lo <= i) -> lo <= foldr Z.min (seqno (tracker s)) l) as Hfold; [|by apply Hfold].
      induction l as [|j l IH]; intros Hl; simpl; [lia|]. pose proof (Hl j ltac:(left)).
      enough (lo <= foldr Z.min (seqno (tracker s)) l) by lia. apply IH. intros i Hi. apply Hl. by right.
    + destruct Hor as [-> |Hin]; [apply Hseq|]. clear -Hin. induction (live s) as [|j l IH]; [by apply elem_of_nil in Hin|].
      apply elem_of_cons in Hin as [-> |Hin]; simpl; [lia|]. specialize (IH Hin). lia.
  - apply (inv_count _ (gc_inv s order Hs Hop Ho)).
Qed.

(** The watermark never moves backwards. *)
Theorem watermark_monotone n s s' :
  0 < n -> tracker_reachable n s -> rtc tracker_step s s' ->
  get_seqno_safe_to_gc (tracker s) <= get_seqno_safe_to_gc (tracker s').
Proof.
  intros Hn Hr%(reachable_inv n _ Hn). induction 1 as [s|s s1 s2 Hstep Hrest IH]; [done|].
  etrans; [|apply IH; by eapply step_inv]. clear IH Hrest s2. pose proof (inv_watermark s Hr) as Hw. unfold get_seqno_safe_to_gc.
  destruct Hstep as [| | | | | |s|s order Ho Hp]; try done.
  - unfold pullup. case_decide; simpl; [unfold_ranges; lia|done].
  - cbn [tracker]. destruct (gc_watermark s order Hr Hp) as (lo & -> & _). lia.
Qed.

(** A snapshot at instant 0, taken before anything was written, disturbs the
    computation of the lowest retained instant: 0 is also the marker for "none yet".
    Here the snapshot at 5 is open and the watermark moves to 6. *)
Theorem zero_instant_unsafe :
  exists s order, tracker_reachable 0 s /\ opening s = [] /\ order ≡ₚ map_to_list (data (tracker s)) /\ 5 ∈ live s /\
    get_seqno_safe_to_gc (gc order (tracker s)) = 6.
Proof.
  pose (s0 := tracker_init 0).
  pose (open s := mkTrackerState (open_at (seqno (tracker s)) (tracker s)) [] (seqno (tracker s) :: live s)).
  pose (pub n s := mkTrackerState (publish n (tracker s)) (opening s) (live s)).
  assert (forall s, opening s = [] -> rtc tracker_step s (open s)) as Hopen.
  { intros s Ho. eapply rtc_l; [apply StepOpenRead|]. rewrite Ho. apply rtc_once.
    by apply (StepOpenCount (mkTrackerState _ _ _) (seqno (tracker s)) []). }
  assert (forall n s, rtc tracker_step s (pub n s)) as Hpub by (intros; apply rtc_once, StepPublish).
  exists (open (pub 6 (open (pub 4 (open s0))))), [(5, 1%nat); (0, 1%nat); (7, 1%nat)]. split_and!.
  - unfold tracker_reachable. do 4 (etrans; [|by first [apply Hopen | apply Hpub]]). by apply Hopen.
  - done.
  - apply NoDup_Permutation.
    + repeat (apply NoDup_cons; split; [set_solver|]). constructor.
    + apply NoDup_map_to_list.
    + intros [k v]. rewrite elem_of_map_to_list. split.
      * intros H. repeat (apply elem_of_cons in H as [[= -> ->]|H]; [reflexivity|]). by apply elem_of_nil in H.
      * intros H.
        assert (data (tracker (open (pub 6 (open (pub 4 (open s0)))))) =
          list_to_map [(5, 1%nat); (0, 1%nat); (7, 1%nat)]) as E by (vm_compute; reflexivity).
        rewrite E in H. by apply elem_of_list_to_map_2 in H.
  - simpl. set_solver.
  - vm_compute. reflexivity.
Qed.

(** ** A sample run: three snapshots, the oldest closed *)

Definition sample_state : TrackerState :=
  mkTrackerState (close_count 1 (open_at 4 (publish 3 (open_at 1 (tracker_new 1))))).1 [] [4].

Lemma sample_reachable : tracker_reachable 1 sample_state.
Proof.
  unfold tracker_reachable. eapply rtc_l; [apply StepOpenRead|].
  eapply rtc_l; [by apply (StepOpenCount (mkTrackerState _ _ _) 1 [])|].
  eapply rtc_l; [apply (StepPublish _ 3)|]. eapply rtc_l; [apply StepOpenRead|].
  eapply rtc_l; [by apply (StepOpenCount (mkTrackerState _ _ _) 4 [])|].
  apply rtc_once. apply (StepClose (mkTrackerState _ _ _) 1 [4]). apply perm_swap.
Qed.

Lemma watermark_safe_witness : 4 ∈ live sample_state ++ opening sample_state /\
  get_seqno_safe_to_gc (tracker sample_state) < 4 <= tracker_get (tracker sample_state).
Proof.
  split; [left|]. apply (watermark_safe 1 sample_state 4); [done|exact sample_reachable|left].
Defined.

Lemma gc_exact_witness :
  get_seqno_safe_to_gc (gc (map_to_list (data (tracker sample_state))) (tracker sample_state)) = 3.
Proof.
  apply (gc_exact 1 sample_state (map_to_list (data (tracker sample_state))) 4);
    [done|exact sample_reachable|reflexivity|reflexivity|reflexivity].
Defined.

Lemma watermark_monotone_witness :
  get_seqno_safe_to_gc (tracker (tracker_init 1)) <= get_seqno_safe_to_gc (tracker sample_state).
Proof. apply (watermark_monotone 1 (tracker_init 1) sample_state); [done|apply rtc_refl|exact sample_reachable]. Defined.
