(* ===== verification/BTree.v ===== *)
(** * Ordered maps with integer keys

    [std::collections::BTreeMap] with [u64] keys as an association list in ascending
    key order: the iteration order is the list order. *)

From stdpp Require Import base list sorting.
From S2P Require Import Prelude.

Section btree.
Context {A : Type}.

Abbreviation btree := (list (Z * A)).

Fixpoint bt_get (k : Z) (m : btree) : option A :=
  match m with
  | [] => None
  | (k', v) :: m => if decide (k = k') then Some v else bt_get k m
  end.

(** [insert]: replaces the value of an existing key. *)
Fixpoint bt_insert (k : Z) (v : A) (m : btree) : btree :=
  match m with
  | [] => [(k, v)]
  | (k', v') :: m =>
      if decide (k < k') then (k, v) :: (k', v') :: m
      else if decide (k = k') then (k, v) :: m
      else (k', v') :: bt_insert k v m
  end.

(** [range(lo..)] and [retain] by key. *)
Definition bt_range_from (lo : Z) (m : btree) : btree := filter (fun kv => lo <= kv.1) m.
Definition bt_retain (f : Z -> bool) (m : btree) : btree := filter (fun kv => f kv.1 = true) m.

Definition bt_sorted (m : btree) : Prop := StronglySorted Z.lt (m.*1).

Lemma bt_insert_elem k v m k' v' :
  bt_sorted m -> (k', v') ∈ bt_insert k v m <-> (k' = k /\ v' = v) \/ (k' <> k /\ (k', v') ∈ m).
Proof.
  unfold bt_sorted. induction m as [|[k1 v1] m IH]; cbn [fmap list_fmap fst bt_insert]; intros Hs.
  { rewrite list_elem_of_singleton, elem_of_nil. naive_solver. }
  apply StronglySorted_inv in Hs as [Hs Hhd]. specialize (IH Hs).
  assert (forall v, (k1, v) ∉ m) as Hn.
  { intros w Hin. rewrite Forall_forall in Hhd. specialize (Hhd k1). 
    enough (k1 < k1) by lia. apply Hhd. by apply (list_elem_of_fmap_2 fst _ (k1, w)). }
  assert (k < k1 -> forall v, (k, v) ∉ m) as Hlt.
  { intros Hk w Hin. rewrite Forall_forall in Hhd. specialize (Hhd k (list_elem_of_fmap_2 fst _ (k, w) Hin)). lia. }
  destruct (decide (k < k1)) as [Hk|Hk]; [|destruct (decide (k = k1)) as [->|Hne]].
  - rewrite !elem_of_cons. specialize (Hlt Hk). split.
    + intros [[= -> ->]|[[= -> ->]|Hin]]; [by left|right; split; [lia|by left]|].
      right. split; [|by right]. intros ->. by apply (Hlt v').
    + intros [[-> ->]|[Hne Hin]]; [by left|by right].
  - rewrite !elem_of_cons. split.
    + intros [[= -> ->]|Hin]; [by left|]. right. split; [|by right]. intros ->. by apply (Hn v').
    + intros [[-> ->]|[Hne [[= -> ->]|Hin]]]; [by left|done|by right].
  - rewrite !elem_of_cons, IH. naive_solver.
Qed.

Lemma bt_insert_sorted k v m : bt_sorted m -> bt_sorted (bt_insert k v m).
Proof.
  unfold bt_sorted. induction m as [|[k1 v1] m IH]; cbn [fmap list_fmap fst bt_insert]; intros Hs.
  { repeat constructor. }
  apply StronglySorted_inv in Hs as [Hs Hhd]. pose proof Hhd as Hhd'. rewrite Forall_forall in Hhd'.
  destruct (decide (k < k1)) as [Hk|Hk]; [|destruct (decide (k = k1)) as [->|Hne]]; cbn [fmap list_fmap fst].
  - constructor; [by constructor|]. constructor; [done|]. apply Forall_forall. intros x Hx. specialize (Hhd' x Hx). lia.
  - by constructor.
  - constructor; [by apply IH|]. apply Forall_forall. intros x Hx.
    apply list_elem_of_fmap in Hx as ([k2 v2] & -> & Hx). apply bt_insert_elem in Hx; [|done]. simpl.
    destruct Hx as [[-> _]|[_ Hx]]; [lia|]. apply Hhd'. by apply (list_elem_of_fmap_2 fst _ (k2, v2)).
Qed.

Lemma bt_get_elem k v m : bt_sorted m -> bt_get k m = Some v <-> (k, v) ∈ m.
Proof.
  unfold bt_sorted. induction m as [|[k1 v1] m IH]; cbn [fmap list_fmap fst bt_get]; intros Hs.
  { rewrite elem_of_nil. done. }
  apply StronglySorted_inv in Hs as [Hs Hhd]. rewrite elem_of_cons. case_decide as E.
  - subst k1. split; [intros [= ->]; by left|]. intros [[= ->]|Hin]; [done|]. exfalso.
    rewrite Forall_forall in Hhd. specialize (Hhd k (list_elem_of_fmap_2 fst _ (k, v) Hin)). lia.
  - rewrite IH by done. split; [by right|]. intros [[= -> ->]|Hin]; done.
Qed.

Lemma bt_retain_sorted f m : bt_sorted m -> bt_sorted (bt_retain f m).
Proof.
  unfold bt_sorted, bt_retain. induction m as [|[k v] m IH]; [done|]. rewrite filter_cons. cbn [fmap list_fmap fst].
  intros [Hs Hhd]%StronglySorted_inv. case_decide; [|by apply IH]. cbn [fmap list_fmap fst]. constructor; [by apply IH|].
  rewrite Forall_forall in Hhd |- *. intros x Hx. apply Hhd. apply list_elem_of_fmap in Hx as (kv & -> & Hx).
  apply list_elem_of_filter in Hx as [_ Hx]. by apply list_elem_of_fmap_2.
Qed.
End btree.
