(* ===== verification/ConflictManager.v ===== *)
(** * Conflict detection of optimistic transactions

    Models [src/src/tx/optimistic/conflict_manager.rs]: the reads and the written keys
    of a transaction per keyspace. [None] as the result of [has_conflict] is a panic. *)

From stdpp Require Import base gmap list.
From S2P Require Import Prelude Composite BTree.

Inductive Read :=
  | Single (key : bytes)
  | Range (start fin : Bound bytes)
  | All.

Record ConflictManager := mkConflictManager {
  reads : list (Z * list Read);
  conflict_keys : list (Z * gset bytes)
}.

Definition cm_default : ConflictManager := mkConflictManager [] [].

Definition push_read (ks : Z) (r : Read) (cm : ConflictManager) : ConflictManager :=
  mkConflictManager (bt_insert ks (default [] (bt_get ks (reads cm)) ++ [r]) (reads cm)) (conflict_keys cm).

Definition mark_read (ks : Z) (key : bytes) (cm : ConflictManager) : ConflictManager := push_read ks (Single key) cm.

Definition mark_conflict (ks : Z) (key : bytes) (cm : ConflictManager) : ConflictManager :=
  mkConflictManager (reads cm) (bt_insert ks ({[ key ]} ∪ default ∅ (bt_get ks (conflict_keys cm))) (conflict_keys cm)).

(** The read a range is recorded as. *)
Definition range_read (start fin : Bound bytes) : Read :=
  match start, fin with
  | Unbounded, Unbounded => All
  | _, _ => Range start fin
  end.

Definition mark_range (ks : Z) (start fin : Bound bytes) (cm : ConflictManager) : ConflictManager :=
  push_read ks (range_read start fin) cm.

(** [BTreeSet::range] panics on bounds that are out of order. *)
Definition invalid_range (start fin : Bound bytes) : bool :=
  match start, fin with
  | Included a, Included b | Included a, Excluded b | Excluded a, Included b => bool_decide (bytes_lt b a)
  | Excluded a, Excluded b => bool_decide (bytes_le b a)
  | _, _ => false
  end.

Definition any_in_range (start fin : Bound bytes) (keys : gset bytes) : bool :=
  existsb (in_range (start, fin)) (elements keys).

(** The arms of the [match] on a recorded read. *)
Definition read_conflicts (r : Read) (keys : gset bytes) : option bool :=
  match r with
  | Single k => Some (bool_decide (k ∈ keys))
  | Range start fin =>
      match start, fin with
      | Unbounded, Unbounded => None
      | Unbounded, Included e => Some (existsb (fun write => bool_decide (bytes_le write e)) (elements keys))
      | Unbounded, Excluded e => Some (existsb (fun write => bool_decide (bytes_lt write e)) (elements keys))
      | _, _ => if invalid_range start fin then None else Some (any_in_range start fin keys)
      end
  | All => Some (negb (bool_decide (keys = ∅)))
  end.

(** The loops, left at the first conflict. *)
Fixpoint any_read_conflicts (rs : list Read) (keys : gset bytes) : option bool :=
  match rs with
  | [] => Some false
  | r :: rs =>
      match read_conflicts r keys with
      | None => None
      | Some true => Some true
      | Some false => any_read_conflicts rs keys
      end
  end.

Fixpoint conflict_loop (tables : list (Z * list Read)) (other : ConflictManager) : option bool :=
  match tables with
  | [] => Some false
  | (ks, rs) :: tables =>
      match bt_get ks (conflict_keys other) with
      | None => conflict_loop tables other
      | Some keys =>
          match any_read_conflicts rs keys with
          | None => None
          | Some true => Some true
          | Some false => conflict_loop tables other
          end
      end
  end.

Definition has_conflict (cm other : ConflictManager) : option bool := conflict_loop (reads cm) other.

(** ** Specification *)

(** The keys a recorded read depends on. *)
Definition covers (r : Read) (key : bytes) : bool :=
  match r with
  | Single k => bool_decide (k = key)
  | Range start fin => in_range (start, fin) key
  | All => true
  end.

Definition reads_of (cm : ConflictManager) (ks : Z) : list Read := default [] (bt_get ks (reads cm)).
Definition writes_of (cm : ConflictManager) (ks : Z) : gset bytes := default ∅ (bt_get ks (conflict_keys cm)).

Definition conflicts (cm other : ConflictManager) : Prop :=
  exists ks r key, r ∈ reads_of cm ks /\ key ∈ writes_of other ks /\ covers r key = true.

(** A read [has_conflict] does not panic on. *)
Definition valid_read (r : Read) : bool :=
  match r with
  | Range Unbounded Unbounded => false
  | Range start fin => negb (invalid_range start fin)
  | _ => true
  end.

Record cm_wf (cm : ConflictManager) : Prop := {
  wf_reads_sorted : bt_sorted (reads cm);
  wf_keys_sorted : bt_sorted (conflict_keys cm);
  wf_valid ks r : r ∈ reads_of cm ks -> valid_read r = true
}.

Lemma existsb_elements (P : bytes -> bool) (keys : gset bytes) : existsb P (elements keys) = true <-> exists k, k ∈ keys /\ P k = true.
Proof.
  rewrite existsb_exists. split; intros (k & Hk & HP); exists k; (split; [|done]).
  - by apply elem_of_elements, list_elem_of_In.
  - by apply list_elem_of_In, elem_of_elements.
Qed.

Lemma read_conflicts_spec r keys :
  valid_read r = true ->
  exists b, read_conflicts r keys = Some b /\ (b = true <-> exists key, key ∈ keys /\ covers r key = true).
Proof.
  intros Hv. destruct r as [k|start fin|]; simpl in *.
  - eexists. split; [done|]. rewrite bool_decide_eq_true. setoid_rewrite bool_decide_eq_true. naive_solver.
  - assert (forall P : bytes -> bool, (forall k, P k = in_range (start, fin) k) ->
      exists b, Some (existsb P (elements keys)) = Some b /\
        (b = true <-> exists key, key ∈ keys /\ in_range (start, fin) key = true)) as Hex.
    { intros P HP. eexists. split; [done|]. rewrite existsb_elements. by setoid_rewrite HP. }
    destruct start as [a|a|], fin as [b|b|]; try done;
      try (unfold any_in_range; apply negb_true_iff in Hv; rewrite Hv; by apply Hex);
      (apply Hex; intros k; done).
  - eexists. split; [done|]. rewrite negb_true_iff, bool_decide_eq_false. split.
    + intros Hne. destruct (set_choose_L keys Hne) as [k Hk]. eauto.
    + intros (k & Hk & _) ->. by apply not_elem_of_empty in Hk.
Qed.

Lemma any_read_conflicts_spec rs keys :
  (forall r, r ∈ rs -> valid_read r = true) ->
  exists b, any_read_conflicts rs keys = Some b /\
    (b = true <-> exists r key, r ∈ rs /\ key ∈ keys /\ covers r key = true).
Proof.
  induction rs as [|r rs IH]; intros Hv.
  { exists false. split; [done|]. split; [done|]. intros (r & key & Hr%elem_of_nil & _). done. }
  destruct (read_conflicts_spec r keys) as (b & Hb & Hspec); [apply Hv; left|].
  destruct IH as (b' & Hb' & Hspec'); [intros r' Hr'; apply Hv; by right|].
  cbn [any_read_conflicts]. rewrite Hb. destruct b.
  - exists true. split; [done|]. split; [|done]. intros _. destruct (proj1 Hspec eq_refl) as (key & ? & ?).
    exists r, key. split; [left|done].
  - exists b'. split; [done|]. rewrite Hspec'. split.
    + intros (r' & key & ? & ?). exists r', key. split; [by right|done].
    + intros (r' & key & [-> |Hr]%elem_of_cons & Hk & Hc); [|by exists r', key].
      exfalso. assert (false = true); [|done]. apply Hspec. eauto.
Qed.

Lemma conflict_loop_spec tables other :
  (forall ks rs r, (ks, rs) ∈ tables -> r ∈ rs -> valid_read r = true) ->
  exists b, conflict_loop tables other = Some b /\
    (b = true <-> exists ks rs r key, (ks, rs) ∈ tables /\ r ∈ rs /\ key ∈ writes_of other ks /\ covers r key = true).
Proof.
  induction tables as [|[ks rs] tables IH]; intros Hv.
  { exists false. split; [done|]. split; [done|]. intros (ks & rs & r & key & Hin%elem_of_nil & _). done. }
  destruct IH as (b' & Hb' & Hspec'); [intros ks' rs' r Hin; apply (Hv ks' rs'); by right|]. cbn [conflict_loop].
  assert (forall b1, (b1 = true <-> exists r key, r ∈ rs /\ key ∈ writes_of other ks /\ covers r key = true) ->
    (b1 || b' = true <-> exists ks0 rs0 r key, (ks0, rs0) ∈ (ks, rs) :: tables /\ r ∈ rs0 /\ key ∈ writes_of other ks0 /\ covers r key = true))
    as Hcons.
  { intros b1 Hb1. rewrite orb_true_iff, Hb1, Hspec'. split.
    - intros [(r & key & ? & ?)|(ks0 & rs0 & r & key & ? & ?)]; [exists ks, rs, r, key; split; [left|done]|].
      exists ks0, rs0, r, key. split; [by right|done].
    - intros (ks0 & rs0 & r & key & [[= -> ->]|Hin]%elem_of_cons & Hr); [left; by exists r, key|right; by exists ks0, rs0, r, key]. }
  unfold writes_of in Hcons at 1. destruct (bt_get ks (conflict_keys other)) as [keys|] eqn:Ek; cbn [default] in Hcons.
  - destruct (any_read_conflicts_spec rs keys) as (b & -> & Hspec); [intros r Hr; apply (Hv ks rs); [left|done]|].
    specialize (Hcons b Hspec). destruct b; eexists; (split; [done|]); done.
  - exists b'. split; [done|]. specialize (Hcons false). apply Hcons. split; [done|].
    intros (r & key & _ & Hk & _). by apply not_elem_of_empty in Hk.
Qed.

(** Conflict detection against its specification. *)
Lemma has_conflict_iff cm other :
  cm_wf cm -> exists b, has_conflict cm other = Some b /\ (b = true <-> conflicts cm other).
Proof.
  intros Hwf. destruct (conflict_loop_spec (reads cm) other) as (b & Hb & Hspec).
  { intros ks rs r Hin Hr. apply (wf_valid cm Hwf ks). unfold reads_of.
    by rewrite (proj2 (bt_get_elem ks rs (reads cm) (wf_reads_sorted cm Hwf)) Hin). }
  exists b. split; [done|]. rewrite Hspec. unfold conflicts. split.
  - intros (ks & rs & r & key & Hin & Hr & Hk). exists ks, r, key. split; [|done]. unfold reads_of.
    by rewrite (proj2 (bt_get_elem ks rs (reads cm) (wf_reads_sorted cm Hwf)) Hin).
  - intros (ks & r & key & Hr & Hk). unfold reads_of in Hr. destruct (bt_get ks (reads cm)) as [rs|] eqn:E;
      [|by apply elem_of_nil in Hr]. exists ks, rs, r, key. split; [|done]. by apply bt_get_elem; [apply Hwf|].
Qed.

(** C40: Conflict detection is exact: for transactions whose recorded ranges are in order,
    [has_conflict] returns [true] iff some recorded read covers a key the other one
    wrote in the same keyspace, and [false] otherwise; it does not panic. *)
Theorem has_conflict_spec cm other :
  cm_wf cm -> exists b, has_conflict cm other = Some b /\ (b = true <-> conflicts cm other).
Proof. apply has_conflict_iff. Qed.

(** ** The marks *)

Lemma bt_get_insert {A} k (v : A) m k' :
  bt_sorted m -> bt_get k' (bt_insert k v m) = if decide (k' = k) then Some v else bt_get k' m.
Proof.
  intros Hs. pose proof (bt_insert_sorted k v m Hs) as Hs'. case_decide as E.
  - subst. apply bt_get_elem; [done|]. apply bt_insert_elem; [done|]. by left.
  - destruct (bt_get k' m) as [w|] eqn:Ew.
    + apply bt_get_elem; [done|]. apply bt_insert_elem; [done|]. right. split; [done|]. by apply bt_get_elem.
    + destruct (bt_get k' (bt_insert k v m)) as [w|] eqn:Ew'; [|done]. apply bt_get_elem in Ew'; [|done].
      apply bt_insert_elem in Ew' as [[? _]|[_ Hin]]; [done| |done]. apply bt_get_elem in Hin; [congruence|done].
Qed.

Lemma cm_default_wf : cm_wf cm_default.
Proof. constructor; [constructor|constructor|]. by intros ks r Hr%elem_of_nil. Qed.

Lemma reads_of_push ks r cm ks' :
  cm_wf cm -> reads_of (push_read ks r cm) ks' = reads_of cm ks' ++ (if decide (ks' = ks) then [r] else []).
Proof.
  intros Hwf. unfold reads_of, push_read. cbn [reads]. rewrite bt_get_insert by apply Hwf.
  case_decide; [by subst|]. by rewrite app_nil_r.
Qed.

Lemma push_read_wf ks r cm : cm_wf cm -> valid_read r = true -> cm_wf (push_read ks r cm).
Proof.
  intros Hwf Hr. constructor; [apply bt_insert_sorted, Hwf|apply Hwf|].
  intros ks' r'. rewrite reads_of_push by done. intros [Hin|Hin]%elem_of_app; [by eapply (wf_valid cm Hwf)|].
  case_decide; [by apply list_elem_of_singleton in Hin as ->|by apply elem_of_nil in Hin].
Qed.

Lemma writes_of_mark ks key cm ks' :
  cm_wf cm -> writes_of (mark_conflict ks key cm) ks' = if decide (ks' = ks) then {[ key ]} ∪ writes_of cm ks' else writes_of cm ks'.
Proof.
  intros Hwf. unfold writes_of, mark_conflict. cbn [conflict_keys]. rewrite bt_get_insert by apply Hwf. case_decide; [by subst|done].
Qed.

Lemma mark_conflict_wf ks key cm : cm_wf cm -> cm_wf (mark_conflict ks key cm).
Proof. intros Hwf. constructor; [apply Hwf|apply bt_insert_sorted, Hwf|]. apply (wf_valid cm Hwf). Qed.

Lemma range_read_covers start fin key : covers (range_read start fin) key = in_range (start, fin) key.
Proof. by destruct start, fin. Qed.

Lemma range_read_valid start fin : invalid_range start fin = false -> valid_read (range_read start fin) = true.
Proof. intros H. by destruct start, fin; simpl in *; rewrite ?H. Qed.

(** ** Samples *)

Definition sample_cm : ConflictManager := mark_range 1 (Included [Byte.x61]) Unbounded (mark_read 2 [Byte.x62] cm_default).

Lemma has_conflict_spec_witness :
  exists b, has_conflict sample_cm (mark_conflict 1 [Byte.x7a] cm_default) = Some b /\
    (b = true <-> conflicts sample_cm (mark_conflict 1 [Byte.x7a] cm_default)).
Proof. apply has_conflict_spec. by do 2 (apply push_read_wf; [|reflexivity]); apply cm_default_wf. Defined.

(** A recorded range whose bounds are out of order makes [has_conflict] panic, though
    only if the other transaction wrote to the same keyspace. *)
Theorem has_conflict_panics :
  let cm := mark_range 1 (Included [Byte.x62]) (Excluded [Byte.x61]) cm_default in
  has_conflict cm (mark_conflict 1 [Byte.x7a] cm_default) = None /\
  has_conflict cm (mark_conflict 2 [Byte.x7a] cm_default) = Some false.
Proof. vm_compute. done. Qed.
