(* ===== verification/Mvcc.v ===== *)
(** * Multi-version trees

    What the engine relies on from the LSM trees of its keyspaces ([lsm_tree], a
    third-party library): writes tagged with a sequence number and reads at an instant,
    which see the newest version of a key below that instant. [TreeOps] are the calls
    the engine makes, for all keyspaces at once and by keyspace id; [TreeLaws] states
    their contract on the history of versions; [hist_trees] is an in-memory instance. *)

From stdpp Require Import base gmap list.
From S2P Require Import Prelude Errors Store JournalEntry.

Record Version := mkVersion {
  v_keyspace : Z;
  v_key : bytes;
  v_seqno : Z;
  v_type : ValueType;
  v_value : bytes
}.

#[export] Instance ValueType_eq_dec : EqDecision ValueType.
Proof. solve_decision. Defined.
#[export] Instance Version_eq_dec : EqDecision Version.
Proof. solve_decision. Defined.

(** [ValueType::is_tombstone]. *)
Definition is_tombstone (vt : ValueType) : bool :=
  match vt with Tombstone | WeakTombstone => true | Value | Indirection => false end.

(** A history, the version applied last first. *)
Abbreviation history := (list Version).

Definition of_key (ks : Z) (key : bytes) (v : Version) : bool :=
  bool_decide (v_keyspace v = ks) && bool_decide (v_key v = key).

(** The version of a key a read at [instant] finds: the highest sequence number below
    [instant], the one applied last among equals. *)
Fixpoint newest (h : history) (ks : Z) (key : bytes) (instant : Z) : option Version :=
  match h with
  | [] => None
  | v :: h =>
      let older := newest h ks key instant in
      if of_key ks key v && bool_decide (v_seqno v < instant) then
        match older with
        | Some w => if decide (v_seqno v < v_seqno w) then Some w else Some v
        | None => Some v
        end
      else older
  end.

Definition visible_value (v : Version) : option bytes := if is_tombstone (v_type v) then None else Some (v_value v).

Definition snapshot_get (h : history) (ks : Z) (key : bytes) (instant : Z) : option bytes :=
  newest h ks key instant ≫= visible_value.

(** ** The interface *)

Class TreeOps (T : Type) := {
  (** [tree.insert], [tree.remove], [tree.remove_weak] return the item and memtable size. *)
  tree_insert : Z -> bytes -> bytes -> Z -> T -> T * (Z * Z);
  tree_remove : Z -> bytes -> Z -> T -> T * (Z * Z);
  tree_remove_weak : Z -> bytes -> Z -> T -> T * (Z * Z);
  tree_clear : Z -> T -> T * Result ();
  tree_get : Z -> bytes -> Z -> T -> Result (option bytes);
  tree_get_highest_seqno : Z -> T -> option Z
}.

Class TreeLaws (T : Type) `{!TreeOps T} := {
  versions : T -> history;
  insert_versions ks key value seqno t :
    versions (tree_insert ks key value seqno t).1 = mkVersion ks key seqno Value value :: versions t;
  remove_versions ks key seqno t :
    versions (tree_remove ks key seqno t).1 = mkVersion ks key seqno Tombstone [] :: versions t;
  remove_weak_versions ks key seqno t :
    versions (tree_remove_weak ks key seqno t).1 = mkVersion ks key seqno WeakTombstone [] :: versions t;
  clear_versions ks t t' r :
    tree_clear ks t = (t', r) ->
    versions t' = if is_ok r then filter (fun v => v_keyspace v <> ks) (versions t) else versions t;
  (** The instants from which on a keyspace can be read: compactions and clears may
      discard what older snapshots would need. *)
  readable_from : T -> Z -> Z;
  readable_max t ks : readable_from t ks <= u64_max;
  get_versions ks key instant t o :
    readable_from t ks <= instant -> tree_get ks key instant t = Ok o -> o = snapshot_get (versions t) ks key instant;
  highest_seqno_above ks t v :
    v ∈ versions t -> v_keyspace v = ks -> exists s, tree_get_highest_seqno ks t = Some s /\ v_seqno v <= s;
  highest_seqno_in ks t s :
    tree_get_highest_seqno ks t = Some s -> exists v, v ∈ versions t /\ v_keyspace v = ks /\ v_seqno v = s
}.

(** Runs in which no [clear] of a tree meets an I/O error. [Keyspace::clear] reports one when
    the clear is in the journal already, and recovery ignores one, so most theorems on
    contents are about such runs. *)
Definition clears_succeed (T : Type) `{!TreeOps T} : Prop := forall ks (t : T), is_ok (tree_clear ks t).2 = true.

(** ** Reads of a history *)

Lemma of_key_spec ks key v : of_key ks key v = true <-> v_keyspace v = ks /\ v_key v = key.
Proof. unfold of_key. rewrite andb_true_iff, !bool_decide_eq_true. done. Qed.

Lemma newest_Some h ks key instant v :
  newest h ks key instant = Some v ->
  v ∈ h /\ of_key ks key v = true /\ v_seqno v < instant /\
  forall w, w ∈ h -> of_key ks key w = true -> v_seqno w < instant -> v_seqno w <= v_seqno v.
Proof.
  revert v. induction h as [|u h IH]; intros v; cbn [newest]; [done|].
  destruct (of_key ks key u && bool_decide (v_seqno u < instant)) eqn:Eu.
  - apply andb_true_iff in Eu as [Eu Hu%bool_decide_eq_true].
    destruct (newest h ks key instant) as [w|] eqn:Ew.
    + destruct (IH w eq_refl) as (Hin & Hk & Hlt & Hmax). case_decide; intros [= <-].
      * split; [by right|]. split_and!; [done|done|]. intros x [-> |Hx]%elem_of_cons Hkx Hix; [lia|by apply Hmax].
      * split; [left|]. split_and!; [done|done|]. intros x [-> |Hx]%elem_of_cons Hkx Hix; [lia|].
        specialize (Hmax x Hx Hkx Hix). lia.
    + intros [= <-]. split; [left|]. split_and!; [done|done|].
      intros x [-> |Hx]%elem_of_cons Hkx Hix; [lia|]. exfalso. clear -Ew Hx Hkx Hix.
      induction h as [|y h IHh]; [by apply elem_of_nil in Hx|]. cbn [newest] in Ew.
      apply elem_of_cons in Hx as [<-|Hx].
      * rewrite Hkx, bool_decide_eq_true_2 in Ew by done. simpl in Ew. destruct (newest h _ _ _); [|done].
        by case_decide.
      * destruct (of_key ks key y && bool_decide (v_seqno y < instant)); [|by apply IHh].
        destruct (newest h ks key instant); [by case_decide|done].
  - intros E. destruct (IH v E) as (Hin & Hk & Hlt & Hmax). split; [by right|]. split_and!; [done|done|].
    intros x [-> |Hx]%elem_of_cons Hkx Hix; [|by apply Hmax].
    rewrite Hkx, bool_decide_eq_true_2 in Eu by done. done.
Qed.

(** Versions at or above the instant, and those of other keys, do not matter. *)
Lemma newest_filter (P : Version -> Prop) `{!forall v, Decision (P v)} h ks key instant :
  (forall v, v ∈ h -> of_key ks key v = true -> v_seqno v < instant -> P v) ->
  newest (filter P h) ks key instant = newest h ks key instant.
Proof.
  induction h as [|u h IH]; intros HP; [done|]. rewrite filter_cons. cbn [newest].
  rewrite <- IH by (intros v Hv; apply HP; by right).
  destruct (of_key ks key u && bool_decide (v_seqno u < instant)) eqn:Eu.
  - apply andb_true_iff in Eu as [Eu Hu%bool_decide_eq_true]. rewrite decide_True by (apply HP; [left|done|done]).
    cbn [newest]. rewrite Eu, bool_decide_eq_true_2 by done. done.
  - destruct (decide (P u)); [|done]. cbn [newest]. by rewrite Eu.
Qed.

Lemma newest_app_skip l h ks key instant :
  (forall v, v ∈ l -> of_key ks key v = true -> v_seqno v < instant -> False) ->
  newest (l ++ h) ks key instant = newest h ks key instant.
Proof.
  induction l as [|u l IH]; intros Hl; [done|]. simpl app. cbn [newest]. rewrite IH by (intros v Hv; apply Hl; by right).
  destruct (of_key ks key u && bool_decide (v_seqno u < instant)) eqn:Eu; [|done].
  apply andb_true_iff in Eu as [Eu Hu%bool_decide_eq_true]. exfalso. apply (Hl u); [left|done|done].
Qed.

(** A read is the same at two instants if no version of the key lies between them. *)
Lemma newest_instants h ks key i j :
  i <= j -> (forall v, v ∈ h -> of_key ks key v = true -> v_seqno v < j -> v_seqno v < i) ->
  newest h ks key i = newest h ks key j.
Proof.
  intros Hij. induction h as [|u h IH]; intros Hh; [done|]. cbn [newest].
  rewrite IH by (intros v Hv; apply Hh; by right).
  destruct (of_key ks key u) eqn:Eu; [|done]. simpl.
  assert (bool_decide (v_seqno u < i) = bool_decide (v_seqno u < j)) as ->; [|done].
  apply bool_decide_ext. split; [lia|]. apply Hh; [left|done].
Qed.

(** A version written on top of everything below it is the one found. *)
Lemma newest_top v h ks key instant :
  of_key ks key v = true -> v_seqno v < instant -> (forall w, w ∈ h -> v_seqno w <= v_seqno v) ->
  newest (v :: h) ks key instant = Some v.
Proof.
  intros Hk Hi Hh. cbn [newest]. rewrite Hk, bool_decide_eq_true_2 by done. simpl.
  destruct (newest h ks key instant) as [w|] eqn:E; [|done].
  apply newest_Some in E as (Hin & _). specialize (Hh w Hin). by rewrite decide_False by lia.
Qed.

(** ** An in-memory instance *)

Definition hist_highest (ks : Z) (h : history) : option Z :=
  foldr (fun v acc => if decide (v_keyspace v = ks) then Some (match acc with Some s => Z.max s (v_seqno v) | None => v_seqno v end) else acc) None h.

#[export] Instance hist_trees_ops : TreeOps history := {
  tree_insert ks key value seqno t := (mkVersion ks key seqno Value value :: t, (Z.of_nat (length value), 0));
  tree_remove ks key seqno t := (mkVersion ks key seqno Tombstone [] :: t, (0, 0));
  tree_remove_weak ks key seqno t := (mkVersion ks key seqno WeakTombstone [] :: t, (0, 0));
  tree_clear ks t := (filter (fun v => v_keyspace v <> ks) t, Ok ());
  tree_get ks key instant t := Ok (snapshot_get t ks key instant);
  tree_get_highest_seqno := hist_highest
}.

Lemma hist_highest_above ks h v :
  v ∈ h -> v_keyspace v = ks -> exists s, hist_highest ks h = Some s /\ v_seqno v <= s.
Proof.
  induction h as [|u h IH]; intros Hin Hk; [by apply elem_of_nil in Hin|]. unfold hist_highest in *. simpl.
  apply elem_of_cons in Hin as [<-|Hin].
  - rewrite decide_True by done. eexists. split; [done|]. destruct (foldr _ _ h); lia.
  - destruct (IH Hin Hk) as (s & -> & Hs). case_decide; eexists; (split; [done|]); lia.
Qed.

Lemma hist_highest_in ks h s :
  hist_highest ks h = Some s -> exists v, v ∈ h /\ v_keyspace v = ks /\ v_seqno v = s.
Proof.
  revert s. induction h as [|u h IH]; intros s; [done|]. unfold hist_highest in *. simpl.
  case_decide as Hu.
  - intros [= <-]. destruct (foldr _ _ h) as [s'|].
    + destruct (Z.max_spec s' (v_seqno u)) as [[_ ->]|[_ ->]]; [exists u; split; [left|done]|].
      destruct (IH s' eq_refl) as (v & ? & ?). exists v. split; [by right|done].
    + exists u. split; [left|done].
  - intros E. destruct (IH s E) as (v & ? & ?). exists v. split; [by right|done].
Qed.

#[export] Instance hist_trees_laws : TreeLaws history.
Proof.
  refine {| versions := fun t => t; readable_from := fun _ _ => 0 |}; try done.
  - by intros ks t t' r [= <- <-].
  - by intros ks key i t o _ [= <-].
  - intros ks t v. apply hist_highest_above.
  - intros ks t s. apply hist_highest_in.
Defined.

(** ** Writing a batch on top

    All versions of [l] carry the sequence number [s], above everything in [h]. *)
Lemma newest_batch l h s ks key instant :
  (forall v, v ∈ l -> v_seqno v = s) -> (forall v, v ∈ h -> v_seqno v < s) ->
  newest (l ++ h) ks key instant =
  if decide (s < instant)
  then match head (filter (fun v => of_key ks key v = true) l) with Some v => Some v | None => newest h ks key instant end
  else newest h ks key instant.
Proof.
  intros Hl Hh. case_decide as Hs.
  - induction l as [|v l IH]; [done|]. rewrite filter_cons. simpl app. cbn [newest].
    rewrite (IH (fun w Hw => Hl w (list_elem_of_further _ _ _ Hw))).
    destruct (of_key ks key v) eqn:Ev; simpl; [|done].
    assert (v_seqno v = s) as Hv by (apply Hl; left). rewrite bool_decide_eq_true_2 by lia.
    destruct (head (filter _ l)) as [w|] eqn:Ew.
    + assert (v_seqno w = s) as Hw.
      { apply Hl. right. assert (w ∈ filter (fun v => of_key ks key v = true) l) as Hin.
        { destruct (filter _ l); simplify_eq/=; left. }
        by apply list_elem_of_filter in Hin as [_ ?]. }
      by rewrite decide_False by lia.
    + destruct (newest h ks key instant) as [w|] eqn:En; [|done].
      apply newest_Some in En as (Hin & _). specialize (Hh w Hin). by rewrite decide_False by lia.
  - apply newest_app_skip. intros v Hv _ Hlt. rewrite (Hl v Hv) in Hlt. lia.
Qed.
