(* ===== verification/Db.v ===== *)
(** * The write path of the database and its crash recovery

    Models the logged writes of [src/src/keyspace/mod.rs], [WriteBatch] of
    [src/src/batch], [Database::persist] and the replay of the active journal in
    [Database::recover] ([src/src/db.rs]). The journal is that of [JournalWriter], the
    trees of the keyspaces are behind [TreeOps].

    A write holds the journal lock from drawing its sequence number to publishing it,
    so writes are atomic steps here; [batch_commit_steps] also shows the states in
    between. Modelled is the part of a write up to the accounting of the write buffer. The
    maintenance behind it, which takes no lock, does not change what is modelled here: it
    requests a memtable rotation ([Engine.check_memtable_rotate]) and then waits while the
    tree has too many unflushed memtables or runs ([WorkerPool.local_backpressure]), for
    ever if no worker reduces them. *)

From stdpp Require Import base gmap list.
From S2P Require Import Prelude Errors Utf8 Store Panic JournalEntry JournalReader JournalWriter SnapshotTracker Mvcc.

#[local] Open Scope state_scope.

(** ** The write buffer counter ([src/src/write_buffer_manager.rs]) *)

Definition allocate (n size : Z) : Z := (size + n) mod 2 ^ 64.
Definition free (n size : Z) : Z := u64_sat_sub size n.

(** ** State *)

(** A keyspace handle. *)
Record Keyspace := mkKeyspace { ks_id : Z; ks_name : str; is_deleted : bool; manual_journal_persist : bool }.

(** [PartialEq] and [Hash] of handles go by the name: a hash map takes a handle of a keyspace
    that was deleted and one of a new keyspace with its name for the same key. *)
Definition keyspace_key (ks : Keyspace) : str := ks_name ks.

Record Database (T : Type) := mkDatabase {
  db_journal : Writer;
  db_trees : T;
  db_seqno : Z;
  db_tracker : SnapshotTracker;
  is_poisoned : bool;
  write_buffer_size : Z
}.
Arguments mkDatabase {T}.
Arguments db_journal {T}.
Arguments db_trees {T}.
Arguments db_seqno {T}.
Arguments db_tracker {T}.
Arguments is_poisoned {T}.
Arguments write_buffer_size {T}.

(** An item of a write batch ([src/src/batch/item.rs]). *)
Record BItem := mkBItem { it_keyspace : Keyspace; it_key : bytes; it_value : bytes; it_type : ValueType }.

(** [Item::new]; [None] is a failed assertion. *)
Definition item_new (ks : Keyspace) (key value : bytes) (vt : ValueType) : option BItem :=
  if decide (key = []) then None
  else if decide (u16_max < Z.of_nat (length key)) then None
  else if decide (u32_max < Z.of_nat (length value)) then None
  else Some (mkBItem ks key value vt).

(** [WriteBatch]: [insert], [remove] and [remove_weak] push an item. *)
Record WriteBatch := mkWriteBatch { batch_data : list BItem; durability : option PersistMode }.

Definition batch_new : WriteBatch := mkWriteBatch [] None.
Definition with_durability (mode : option PersistMode) (b : WriteBatch) : WriteBatch := mkWriteBatch (batch_data b) mode.
Definition batch_push (item : BItem) (b : WriteBatch) : WriteBatch :=
  mkWriteBatch (batch_data b ++ [item]) (durability b).
Definition batch_insert (ks : Keyspace) (key value : bytes) (b : WriteBatch) : option WriteBatch :=
  item ← item_new ks key value Value; Some (batch_push item b).
Definition batch_remove (ks : Keyspace) (key : bytes) (b : WriteBatch) : option WriteBatch :=
  item ← item_new ks key [] Tombstone; Some (batch_push item b).
Definition batch_remove_weak (ks : Keyspace) (key : bytes) (b : WriteBatch) : option WriteBatch :=
  item ← item_new ks key [] WeakTombstone; Some (batch_push item b).

(** ** Computations that show their intermediate states *)

Definition Traced (S A : Type) : Type := S -> list S * (S * Result A).

Definition tr_ret {S A} (a : A) : Traced S A := fun s => ([], (s, Ok a)).
(** A step that others see as a whole. *)
Definition atomic {S A} (m : StateR S A) : Traced S A := fun s => ([(m s).1], m s).
Definition tr_bind {S A B} (m : Traced S A) (f : A -> Traced S B) : Traced S B := fun s =>
  match m s with
  | (l, (s', Ok a)) => let '(l', r) := f a s' in (l ++ l', r)
  | (l, (s', Err e)) => (l, (s', Err e))
  end.

Declare Scope traced_scope.
Delimit Scope traced_scope with traced.
Notation "x <~ m ;; k" := (tr_bind m (fun x => k)) (at level 100, m at next level, k at level 200, right associativity) : traced_scope.
#[local] Open Scope traced_scope.

(** What is left at the end, and the states on the way. *)
Definition outcome {S A} (m : Traced S A) : StateR S A := fun s => (m s).2.
Definition states {S A} (m : Traced S A) (s : S) : list S := (m s).1.

Lemma outcome_bind {S A B} (m : Traced S A) (f : A -> Traced S B) s :
  outcome (tr_bind m f) s = st_bind (outcome m) (fun a => outcome (f a)) s.
Proof. unfold outcome, tr_bind, st_bind. destruct (m s) as [l [s' [a|e]]]; cbn; [|done]. by destruct (f a s'). Qed.

Lemma states_bind {S A B} (m : Traced S A) (f : A -> Traced S B) s :
  states (tr_bind m f) s = states m s ++ match outcome m s with (s', Ok a) => states (f a) s' | (_, Err _) => [] end.
Proof.
  unfold states, outcome, tr_bind. destruct (m s) as [l [s' [a|e]]]; cbn; [by destruct (f a s')|by rewrite app_nil_r].
Qed.

(** ** Operations *)

Section operations.
Context `{JournalCodec} {T : Type} `{!TreeOps T}.

Abbreviation DbM := (StateR (Database T)).

Definition with_journal {A} (m : StateR Writer A) : DbM A := fun db =>
  let '(w, r) := m (db_journal db) in
  (mkDatabase w (db_trees db) (db_seqno db) (db_tracker db) (is_poisoned db) (write_buffer_size db), r).

Definition with_trees {A} (f : T -> T * A) : DbM A := fun db =>
  let '(t, a) := f (db_trees db) in
  (mkDatabase (db_journal db) t (db_seqno db) (db_tracker db) (is_poisoned db) (write_buffer_size db), Ok a).

Definition poison : DbM () := fun db =>
  (mkDatabase (db_journal db) (db_trees db) (db_seqno db) (db_tracker db) true (write_buffer_size db), Ok ()).

(** [supervisor.seqno.next()]. *)
Definition next_seqno : DbM Z := fun db =>
  (mkDatabase (db_journal db) (db_trees db) (db_seqno db + 1) (db_tracker db) (is_poisoned db) (write_buffer_size db),
   Ok (db_seqno db)).

Definition db_publish (seqno : Z) : DbM () := fun db =>
  (mkDatabase (db_journal db) (db_trees db) (db_seqno db) (publish seqno (db_tracker db)) (is_poisoned db)
     (write_buffer_size db), Ok ()).

Definition db_allocate (n : Z) : DbM () := fun db =>
  (mkDatabase (db_journal db) (db_trees db) (db_seqno db) (db_tracker db) (is_poisoned db)
     (allocate n (write_buffer_size db)), Ok ()).

Definition check_poisoned : DbM () := fun db => (db, if is_poisoned db then Err Poisoned else Ok ()).

(** A [persist] whose failure poisons the database; [e'] is the error reported. *)
Definition persist_or_poison (mode : PersistMode) (report : Error -> Error) : DbM () := fun db =>
  match with_journal (persist mode) db with
  | (db, Ok ()) => (db, Ok ())
  | (db, Err e) => ((poison db).1, Err (report e))
  end.

Definition auto_persist (ks : Keyspace) : DbM () :=
  if manual_journal_persist ks then st_ret () else persist_or_poison Buffer id.

(** The common body of [Keyspace::insert], [remove] and [remove_weak]. *)
Definition logged_write (ks : Keyspace) (key value : bytes) (vt : ValueType)
    (apply : Z -> T -> T * (Z * Z)) : DbM () :=
  if is_deleted ks then st_err KeyspaceDeleted
  else
    check_poisoned ;;;
    seqno <- next_seqno ;;
    with_journal (write_raw (ks_id ks) key value vt seqno) ;;;
    auto_persist ks ;;;
    sizes <- with_trees (apply seqno) ;;
    db_publish seqno ;;;
    db_allocate sizes.1.

Definition keyspace_insert (ks : Keyspace) (key value : bytes) : DbM () :=
  logged_write ks key value Value (tree_insert (ks_id ks) key value).

Definition keyspace_remove (ks : Keyspace) (key : bytes) : DbM () :=
  logged_write ks key [] Tombstone (tree_remove (ks_id ks) key).

(** The journal gets a weak tombstone, the tree a plain one. *)
Definition keyspace_remove_weak (ks : Keyspace) (key : bytes) : DbM () :=
  logged_write ks key [] WeakTombstone (tree_remove (ks_id ks) key).

Definition keyspace_clear (ks : Keyspace) : DbM () :=
  check_poisoned ;;;
  seqno <- next_seqno ;;
  with_journal (write_clear (ks_id ks) seqno) ;;;
  auto_persist ks ;;;
  cleared <- with_trees (tree_clear (ks_id ks)) ;;
  st_lift cleared ;;;
  db_publish seqno.

(** Applying an item to its tree; blob indirections never occur in a batch. *)
Definition apply_item (seqno : Z) (item : BItem) (t : T) : T * Z :=
  match it_type item with
  | Value => let '(t, sizes) := tree_insert (ks_id (it_keyspace item)) (it_key item) (it_value item) seqno t in (t, sizes.1)
  | Tombstone => let '(t, sizes) := tree_remove (ks_id (it_keyspace item)) (it_key item) seqno t in (t, sizes.1)
  | WeakTombstone => let '(t, sizes) := tree_remove_weak (ks_id (it_keyspace item)) (it_key item) seqno t in (t, sizes.1)
  | Indirection => (t, 0)
  end.

Fixpoint apply_items (seqno : Z) (items : list BItem) (size : Z) (t : T) : T * Z :=
  match items with
  | [] => (t, size)
  | item :: items =>
      let '(t, item_size) := apply_item seqno item t in
      apply_items seqno items (size + item_size) t
  end.

Definition journal_item (item : BItem) : BatchItem :=
  mkBatchItem (ks_id (it_keyspace item)) (it_key item) (it_value item) (it_type item).

(** [let _ = e]: the error is dropped. *)
Definition ignore_error {A} (m : DbM A) : DbM () := fun db => ((m db).1, Ok ()).

(** The loop of a commit, item by item. *)
Fixpoint apply_items_steps (seqno : Z) (items : list BItem) (size : Z) : Traced (Database T) Z :=
  match items with
  | [] => tr_ret size
  | item :: items =>
      item_size <~ atomic (with_trees (apply_item seqno item)) ;;
      apply_items_steps seqno items (size + item_size)
  end.

(** [WriteBatch::commit], with the states other threads can observe on the way. *)
Definition batch_commit_steps (b : WriteBatch) : Traced (Database T) () :=
  if decide (batch_data b = []) then tr_ret ()
  else
    _ <~ atomic check_poisoned ;;
    batch_seqno <~ atomic next_seqno ;;
    _ <~ atomic (ignore_error (with_journal (write_batch (journal_item <$> batch_data b) (length (batch_data b)) batch_seqno))) ;;
    _ <~ match durability b with
         | Some mode => atomic (persist_or_poison mode (fun _ => Poisoned))
         | None => tr_ret ()
         end ;;
    batch_size <~ apply_items_steps batch_seqno (batch_data b) 0 ;;
    _ <~ atomic (db_publish batch_seqno) ;;
    atomic (db_allocate batch_size).

Definition batch_commit (b : WriteBatch) : DbM () := outcome (batch_commit_steps b).

(** [Database::persist]. *)
Definition db_persist (mode : PersistMode) : DbM () :=
  check_poisoned ;;;
  persist_or_poison mode (fun _ => Poisoned).

(** [Keyspace::get] reads at the newest instant. *)
Definition keyspace_get (ks : Keyspace) (key : bytes) (db : Database T) : Result (option bytes) :=
  tree_get (ks_id ks) key u64_max (db_trees db).

(** A commit as a whole. *)
Lemma apply_items_outcome seqno items size db :
  outcome (apply_items_steps seqno items size) db = with_trees (apply_items seqno items size) db.
Proof.
  revert size db. induction items as [|item items IH]; intros size db; [by destruct db|]. cbn [apply_items_steps apply_items]. rewrite outcome_bind.
  unfold outcome at 1, atomic, st_bind. cbn [snd]. unfold with_trees at 1. destruct (apply_item seqno item (db_trees db)) as [t n] eqn:E.
  rewrite IH. unfold with_trees. cbn [db_trees db_journal db_seqno db_tracker is_poisoned write_buffer_size]. by rewrite E.
Qed.

Lemma batch_commit_whole b db :
  batch_commit b db =
  (if decide (batch_data b = []) then st_ret ()
   else
     check_poisoned ;;;
     batch_seqno <- next_seqno ;;
     ignore_error (with_journal (write_batch (journal_item <$> batch_data b) (length (batch_data b)) batch_seqno)) ;;;
     match durability b with
     | Some mode => persist_or_poison mode (fun _ => Poisoned)
     | None => st_ret ()
     end ;;;
     batch_size <- with_trees (apply_items batch_seqno (batch_data b) 0) ;;
     db_publish batch_seqno ;;;
     db_allocate batch_size)%st db.
Proof.
  unfold batch_commit, batch_commit_steps. case_decide; [done|].
  assert (forall A B (m : Traced (Database T) A) (f : A -> Traced (Database T) B) (m' : DbM A) (f' : A -> DbM B),
    (forall db, outcome m db = m' db) -> (forall a db, outcome (f a) db = f' a db) -> forall db, outcome (tr_bind m f) db = st_bind m' f' db) as Hbind.
  { intros A B m f m' f' Hm Hf d. rewrite outcome_bind. unfold st_bind. rewrite Hm. by destruct (m' d) as [d' [a|e]]. }
  repeat (apply Hbind; [first [done|by destruct (durability b)|apply apply_items_outcome]|intros ?; intros]); done.
Qed.

(** ** Recovery of the active journal

    [lookup] is the outcome of resolving a keyspace id to a recovered keyspace. [None] is
    a panic. *)

Section recover.
#[local] Open Scope panic_scope.
Context (lookup : Z -> PResult bool).

(** A blob indirection is unreachable code. *)
Definition recover_item (seqno : Z) (item : ReadBatchItem) (t : T) : PResult T :=
  found <-? lookup (ri_keyspace_id item) ;;
  if (found : bool) then
    match ri_value_type item with
    | Value => p_ret (tree_insert (ri_keyspace_id item) (ri_key item) (ri_value item) seqno t).1
    | Tombstone => p_ret (tree_remove (ri_keyspace_id item) (ri_key item) seqno t).1
    | WeakTombstone => p_ret (tree_remove_weak (ri_keyspace_id item) (ri_key item) seqno t).1
    | Indirection => None
    end
  else p_ret t.

Fixpoint recover_items (seqno : Z) (items : list ReadBatchItem) (t : T) : PResult T :=
  match items with
  | [] => p_ret t
  | item :: items => t <-? recover_item seqno item t ;; recover_items seqno items t
  end.

(** The outcome of [tree.clear()] is ignored. *)
Fixpoint recover_clears (cleared : list Z) (t : T) : PResult T :=
  match cleared with
  | [] => p_ret t
  | ks :: cleared =>
      found <-? lookup ks ;;
      recover_clears cleared (if (found : bool) then (tree_clear ks t).1 else t)
  end.

Definition recover_batch (b : Batch) (t : T) : PResult T :=
  t <-? recover_items (b_seqno b) (b_items b) t ;;
  recover_clears (b_cleared_keyspaces b) t.

Fixpoint recover_batches (bs : list Batch) (t : T) : PResult T :=
  match bs with
  | [] => p_ret t
  | b :: bs => t <-? recover_batch b t ;; recover_batches bs t
  end.

(** The loop over the journal; the file is left as the reader truncates it. *)
Definition recover_active (contents : bytes) (t : T) : PResult (T * bytes) :=
  match read_journal contents with
  | None => None
  | Some (Err e, _) => Some (Err e)
  | Some (Ok bs, file) => t <-? recover_batches bs t ;; p_ret (t, file)
  end.
End recover.

(** The sequence number counter after recovery. *)
Definition recover_seqno (keyspaces : list Z) (t : T) (seqno : Z) : Z :=
  foldl (fun s ks => Z.max s (match tree_get_highest_seqno ks t with Some x => x + 1 | None => 0 end)) seqno keyspaces.
End operations.
