(* ===== verification/DbProps.v ===== *)
(** * Crash consistency of the database

    The log of batches in the journal determines the contents of the trees: every
    operation appends its batch before it changes a tree, and recovery replays the
    complete batches. *)

From stdpp Require Import base gmap list strings.
From S2P Require Import Prelude Errors Utf8 Visibility Store Panic JournalEntry JournalReader JournalWriter SnapshotTracker Mvcc Db.

(** ** Histories that read the same

    A weak tombstone reads like a plain one. *)

Definition norm_type (vt : ValueType) : ValueType := match vt with WeakTombstone => Tombstone | _ => vt end.
Definition norm (v : Version) : Version :=
  mkVersion (v_keyspace v) (v_key v) (v_seqno v) (norm_type (v_type v)) (v_value v).

Definition hist_eq (h h' : history) : Prop := norm <$> h = norm <$> h'.

#[export] Instance hist_eq_equivalence : Equivalence hist_eq.
Proof. unfold hist_eq. split; [by intros ?|by intros ? ?|intros ? ? ?; congruence]. Qed.

Lemma newest_norm h ks key instant : newest (norm <$> h) ks key instant = norm <$> newest h ks key instant.
Proof.
  induction h as [|v h IH]; [done|]. cbn [newest fmap list_fmap]. change (list_fmap _ _ norm h) with (norm <$> h).
  rewrite IH. change (of_key ks key (norm v)) with (of_key ks key v). simpl v_seqno.
  destruct (of_key ks key v && _); [|done]. destruct (newest h ks key instant) as [w|]; simpl; [by case_decide|done].
Qed.

(** What a read returns does not depend on the kind of tombstone. *)
Lemma snapshot_get_norm h h' ks key i :
  norm <$> newest h ks key i = norm <$> newest h' ks key i -> snapshot_get h ks key i = snapshot_get h' ks key i.
Proof.
  intros E. unfold snapshot_get.
  destruct (newest h ks key i) as [v|], (newest h' ks key i) as [w|]; try discriminate E; [|done].
  unfold norm in E. cbn in E. injection E as _ _ _ Et Ev. cbn. unfold visible_value. rewrite Ev.
  by destruct (v_type v), (v_type w); simplify_eq/=.
Qed.

#[export] Instance snapshot_get_proper : Proper (hist_eq ==> eq ==> eq ==> eq ==> eq) snapshot_get.
Proof.
  intros h h' Hh ks ? <- key ? <- i ? <-. apply snapshot_get_norm. rewrite <- !newest_norm. by f_equal.
Qed.

#[export] Instance cons_hist_proper v : Proper (hist_eq ==> hist_eq) (cons v).
Proof. intros h h' Hh. unfold hist_eq in *. by rewrite !fmap_cons, Hh. Qed.

Definition drop_keyspace (ks : Z) (h : history) : history := filter (fun v => v_keyspace v <> ks) h.

Lemma drop_keyspace_norm ks h : norm <$> drop_keyspace ks h = drop_keyspace ks (norm <$> h).
Proof.
  unfold drop_keyspace. induction h as [|v h IH]; [done|]. rewrite fmap_cons, !filter_cons. simpl.
  case_decide; [by rewrite fmap_cons, IH|done].
Qed.

#[export] Instance drop_keyspace_proper ks : Proper (hist_eq ==> hist_eq) (drop_keyspace ks).
Proof. intros h h' Hh. unfold hist_eq. rewrite !drop_keyspace_norm. by f_equal. Qed.

(** ** The meaning of a journal *)

Definition item_version (ks : Z) (key value : bytes) (vt : ValueType) (seqno : Z) (h : history) : history :=
  match vt with
  | Value => mkVersion ks key seqno Value value :: h
  | Tombstone | WeakTombstone => mkVersion ks key seqno vt [] :: h
  | Indirection => h
  end.

Definition apply_entry (seqno : Z) (h : history) (e : Entry) : history :=
  match e with
  | Item ks key value vt _ => item_version ks key value vt seqno h
  | Clear ks => drop_keyspace ks h
  | _ => h
  end.

Definition apply_batch (h : history) (b : Z * list Entry) : history := foldl (apply_entry b.1) h b.2.

Definition replay (bs : list (Z * list Entry)) (base : history) : history := foldl apply_batch base bs.

#[export] Instance apply_entry_proper seqno : Proper (hist_eq ==> eq ==> hist_eq) (apply_entry seqno).
Proof.
  intros h h' Hh e ? <-. destruct e as [|ks key value [] c| |]; simpl; first [done|by rewrite Hh].
Qed.

#[export] Instance apply_batch_proper : Proper (hist_eq ==> eq ==> hist_eq) apply_batch.
Proof.
  intros h h' Hh [s es] ? <-. unfold apply_batch. simpl. revert h h' Hh.
  induction es as [|e es IH]; intros h h' Hh; [done|]. simpl. apply IH. by rewrite Hh.
Qed.

(** What the engine journals: items without indirections, or a single clear. *)
Definition item_of (e : Entry) : Prop := exists ks key value vt c, e = Item ks key value vt c /\ vt <> Indirection.
Definition storable (b : Z * list Entry) : Prop := Forall item_of b.2 \/ exists ks, b.2 = [Clear ks].

(** ** Recovery replays the journal *)

Section recovery.
Context {T : Type} `{!TreeOps T, !TreeLaws T}.
Context (tree_clear_ok : clears_succeed T).

Lemma clear_history ks (t : T) : versions (tree_clear ks t).1 = drop_keyspace ks (versions t).
Proof.
  pose proof (tree_clear_ok ks t) as Hok. destruct (tree_clear ks t) as [t' r] eqn:E. simpl in Hok.
  rewrite (clear_versions _ _ _ _ E), Hok. done.
Qed.

Section known.
Context (known : Z -> bool).

Definition known_part (h : history) : history := filter (fun v => known (v_keyspace v) = true) h.

Lemma known_part_get h ks key i : known ks = true -> snapshot_get (known_part h) ks key i = snapshot_get h ks key i.
Proof.
  intros Hk. unfold snapshot_get, known_part. rewrite newest_filter; [done|].
  intros v _ [<- _]%of_key_spec _. done.
Qed.

Lemma known_part_item h h' ks key value vt s :
  known_part h = known_part h' -> known_part (item_version ks key value vt s h) = known_part (item_version ks key value vt s h').
Proof. intros Hh. unfold known_part in *. destruct vt; simpl; rewrite ?filter_cons; try done; case_decide; by rewrite Hh. Qed.

Lemma known_part_skip h ks key value vt s : known ks = false -> known_part (item_version ks key value vt s h) = known_part h.
Proof. intros Hk. unfold known_part. destruct vt; simpl; rewrite ?filter_cons; try done; rewrite decide_False; simpl; congruence. Qed.

Lemma known_part_drop h ks : known_part (drop_keyspace ks h) = drop_keyspace ks (known_part h).
Proof. unfold known_part, drop_keyspace. rewrite !list_filter_filter. apply list_filter_iff. tauto. Qed.

Lemma known_part_drop_skip h ks : known ks = false -> known_part (drop_keyspace ks h) = known_part h.
Proof.
  intros Hk. unfold known_part, drop_keyspace. rewrite list_filter_filter. apply list_filter_iff.
  intros v. split; [tauto|]. intros Hv. split; [done|congruence].
Qed.

(** Entries of unknown keyspaces are skipped, which the known part does not see. *)
Definition apply_known (seqno : Z) (h : history) (e : Entry) : history :=
  match e with
  | Item ks _ _ _ _ | Clear ks => if known ks then apply_entry seqno h e else h
  | _ => h
  end.

Lemma apply_known_part s e h h' :
  known_part h = known_part h' -> known_part (apply_known s h e) = known_part (apply_entry s h' e).
Proof.
  intros Hh. destruct e as [|ks key value vt c| |ks]; simpl; try done; destruct (known ks) eqn:Hk.
  - by apply known_part_item.
  - by rewrite known_part_skip.
  - by rewrite !known_part_drop, Hh.
  - by rewrite known_part_drop_skip.
Qed.

Lemma foldl_known_part s es h h' :
  known_part h = known_part h' -> known_part (foldl (apply_known s) h es) = known_part (foldl (apply_entry s) h' es).
Proof.
  revert h h'. induction es as [|e es IH]; intros h h' Hh; [done|]. simpl. by apply IH, apply_known_part.
Qed.

Lemma replay_known_part bs h h' : known_part h = known_part h' -> known_part (replay bs h) = known_part (replay bs h').
Proof.
  revert h h'. induction bs as [|b bs IH]; intros h h' Hh; [done|]. apply IH. unfold apply_batch.
  by rewrite <- (foldl_known_part b.1 b.2 h h), (foldl_known_part b.1 b.2 h h').
Qed.

Context (lookup : Z -> PResult bool) (lookup_known : forall ks, lookup ks = Some (Ok (known ks))).

Lemma recover_items_history s es (t : T) :
  Forall item_of es ->
  exists t', recover_items lookup s (omap read_item es) t = Some (Ok t') /\ versions t' = foldl (apply_known s) (versions t) es.
Proof.
  intros Hes. revert t. induction Hes as [|e es (ks & key & value & vt & c & -> & Hvt) _ IH]; intros t; [by exists t|].
  cbn [omap list_omap read_item recover_items foldl apply_known]. unfold recover_item. cbn [ri_keyspace_id]. rewrite lookup_known.
  cbn [p_bind]. destruct (known ks); [|apply IH].
  destruct vt; cbn [ri_value_type ri_key ri_value p_bind p_ret apply_entry item_version].
  - rewrite <- insert_versions. apply IH.
  - rewrite <- remove_versions. apply IH.
  - rewrite <- remove_weak_versions. apply IH.
  - done.
Qed.

Lemma omap_items_clear es :
  Forall item_of es -> omap read_clear es = [].
Proof. by induction 1 as [|e es (ks & key & value & vt & c & -> & _) _ IH]. Qed.

Lemma recover_batch_history b (t : T) :
  storable b ->
  exists t', recover_batch lookup (batch_of b) t = Some (Ok t') /\ versions t' = foldl (apply_known b.1) (versions t) b.2.
Proof.
  destruct b as [s es]. unfold recover_batch, batch_of. cbn [b_seqno b_items b_cleared_keyspaces fst snd].
  intros [Hes|(ks & Hes)]; cbn [fst snd] in Hes.
  - destruct (recover_items_history s es t Hes) as (t' & -> & Hv). exists t'. cbn [p_bind].
    by rewrite omap_items_clear.
  - subst es. cbn. rewrite lookup_known. cbn. eexists. split; [done|]. destruct (known ks); [|done]. apply clear_history.
Qed.

Lemma recover_batches_history bs (t : T) h :
  Forall storable bs -> known_part (versions t) = known_part h ->
  exists t', recover_batches lookup (batch_of <$> bs) t = Some (Ok t') /\ known_part (versions t') = known_part (replay bs h).
Proof.
  intros Hbs. revert t h. induction Hbs as [|b bs Hb _ IH]; intros t h Ht; [by exists t|].
  cbn [fmap list_fmap recover_batches]. destruct (recover_batch_history b t Hb) as (t1 & -> & Hv). cbn [p_bind].
  apply (IH t1 (apply_batch h b)). rewrite Hv. unfold apply_batch. by apply foldl_known_part.
Qed.

(** Recovery from a prefix of the journal: the batches that are complete in it. *)
Lemma recover_active_prefix `{JournalCodec} bs k m (t : T) h :
  Forall batch_wf bs -> Forall storable bs -> (k <= length (journal_bytes bs))%nat ->
  known_part (versions t) = known_part h ->
  exists t' j, unless_asserts (recover_active lookup (take k (journal_bytes bs) ++ zeros m) t) (Ok (t', journal_bytes (take j bs))) /\
    known_part (versions t') = known_part (replay (take j bs) h) /\
    (length (journal_bytes (take j bs)) <= k)%nat /\
    ((j < length bs)%nat -> (k < length (journal_bytes (take (S j) bs)))%nat).
Proof.
  intros Hwf Hst Hk Ht. destruct (read_prefix bs k m Hwf Hk) as (j & Hr & _ & Hj & Hnext).
  destruct (recover_batches_history (take j bs) t h) as (t' & Hrec & Hv); [by apply Forall_take|done|].
  exists t', j. split; [|done]. unfold recover_active. destruct Hr as [->|[Hd ->]]; [left; by rewrite Hrec|by right].
Qed.
End known.

Lemma known_part_le (known known' : Z -> bool) h h' :
  (forall ks, known ks = true -> known' ks = true) -> known_part known' h = known_part known' h' -> known_part known h = known_part known h'.
Proof.
  intros Hle E. assert (forall h, known_part known h = known_part known (known_part known' h)) as Hf.
  { intros h0. unfold known_part. rewrite list_filter_filter. apply list_filter_iff. intros v. split; [auto|tauto]. }
  by rewrite (Hf h), E, <- Hf.
Qed.

(** ** Operations append to the journal and apply what they appended *)

Section operations.
Context `{JournalCodec}.

Inductive DbOp :=
  | OpInsert (ks : Keyspace) (key value : bytes)
  | OpRemove (ks : Keyspace) (key : bytes)
  | OpRemoveWeak (ks : Keyspace) (key : bytes)
  | OpClear (ks : Keyspace)
  | OpBatch (b : WriteBatch)
  | OpPersist (mode : PersistMode).

Definition run_op (op : DbOp) : StateR (Database T) () :=
  match op with
  | OpInsert ks key value => keyspace_insert ks key value
  | OpRemove ks key => keyspace_remove ks key
  | OpRemoveWeak ks key => keyspace_remove_weak ks key
  | OpClear ks => keyspace_clear ks
  | OpBatch b => batch_commit b
  | OpPersist mode => db_persist mode
  end.

(** The journal write of an operation. *)
Definition op_write (op : DbOp) (seqno : Z) : option WriteOp :=
  match op with
  | OpInsert ks key value => Some (WRaw (ks_id ks) key value Value seqno)
  | OpRemove ks key => Some (WRaw (ks_id ks) key [] Tombstone seqno)
  | OpRemoveWeak ks key => Some (WRaw (ks_id ks) key [] WeakTombstone seqno)
  | OpClear ks => Some (WClear (ks_id ks) seqno)
  | OpBatch b => Some (WBatch (journal_item <$> batch_data b) seqno)
  | OpPersist _ => None
  end.

(** A batch holds no blob indirections: its builders make none. *)
Definition op_types (op : WriteOp) : Prop :=
  match op with
  | WRaw _ _ _ vt _ => vt <> Indirection
  | WClear _ _ => True
  | WBatch items _ => Forall (fun i => bi_value_type i <> Indirection) items
  end.

(** The journal takes the write: its fields fit the format and no I/O call of the
    write fails. Failures of [persist] are not excluded. *)
Definition op_logged (op : DbOp) (db : Database T) : Prop :=
  match op_write op (db_seqno db) with
  | Some w => (op_wf (db_journal db) w /\ op_types w) /\ is_ok (run_write w (db_journal db)).2 = true
  | None => True
  end.

Section log.
(** [old] is in the journal from before the operations. *)
Context (old : list (Z * list Entry)).

Record db_inv (base : history) (db : Database T) (bs : list (Z * list Entry)) (applied : nat) : Prop := {
  inv_stream : stream (db_journal db) = journal_bytes (old ++ bs);
  inv_wf : Forall batch_wf bs;
  inv_storable : Forall storable bs;
  inv_writer : writer_ok (db_journal db);
  inv_applied : is_poisoned db = false -> applied = length bs;
  inv_trees : hist_eq (versions (db_trees db)) (replay (take applied bs) base)
}.

Lemma storable_op_batch w op b : op_types op -> op_batch w op = Some b -> storable b.
Proof.
  assert (forall ks key value vt, vt <> Indirection -> item_of (raw_entry w ks key value vt)) as Hraw
    by (intros; by eexists _, _, _, _, _).
  destruct op as [ks key value vt s|ks s|[|i its] s]; simpl; [| |done|]; intros Hty [= <-].
  - left. repeat constructor. by apply Hraw.
  - right. eauto.
  - left. cbn [snd]. apply (proj2 (Forall_fmap (batch_entry w) item_of (i :: its))). eapply Forall_impl; [exact Hty|]. intros x Hx. by apply Hraw.
Qed.

(** The journal after a write that was taken. *)
Lemma logged_journal base db bs n op w' r b :
  db_inv base db bs n -> op_wf (db_journal db) op /\ op_types op -> op_batch (db_journal db) op = Some b ->
  run_write op (db_journal db) = (w', r) -> is_ok r = true ->
  stream w' = journal_bytes (old ++ bs ++ [b]) /\ writer_ok w' /\ Forall batch_wf (bs ++ [b]) /\ Forall storable (bs ++ [b]).
Proof.
  intros Hdb [Hwf Hty] Hb Hr Hok. destruct r as [n'|e]; [|done].
  destruct (run_write_Ok _ _ _ _ Hwf Hr) as [Hs _]. rewrite Hb in Hs.
  change (option_list (Some b)) with [b] in Hs. rewrite list_fmap_singleton in Hs. cbn [concat] in Hs. rewrite app_nil_r in Hs.
  pose proof (storable_op_batch _ _ _ Hty Hb). unfold op_wf in Hwf. rewrite Hb in Hwf. split_and!.
  - by rewrite Hs, (inv_stream _ _ _ _ Hdb), journal_bytes_snoc, app_assoc.
  - eapply write_writer_ok; [|apply Hdb|done]. unfold op_wf. by rewrite Hb.
  - apply Forall_app. split; [apply Hdb|by constructor].
  - apply Forall_app. split; [apply Hdb|by constructor].
Qed.

(** A batch that is in the journal and was applied to the trees. *)
Lemma inv_apply base db bs b w t s tr p wb :
  db_inv base db bs (length bs) -> stream w = journal_bytes (old ++ bs ++ [b]) -> writer_ok w ->
  Forall batch_wf (bs ++ [b]) -> Forall storable (bs ++ [b]) ->
  hist_eq (versions t) (apply_batch (versions (db_trees db)) b) ->
  db_inv base (mkDatabase w t s tr p wb) (bs ++ [b]) (length (bs ++ [b])).
Proof.
  intros Hdb Hs Hw Hwf Hp Ht. constructor; try done. simpl. rewrite firstn_all.
  pose proof (inv_trees _ _ _ _ Hdb) as Hold. rewrite firstn_all in Hold.
  unfold replay. rewrite foldl_app. simpl. fold (replay bs base). rewrite Ht. by rewrite Hold.
Qed.

(** A batch that is in the journal only: the database is poisoned. *)
Lemma inv_logged base db bs b w s tr wb :
  db_inv base db bs (length bs) -> stream w = journal_bytes (old ++ bs ++ [b]) -> writer_ok w ->
  Forall batch_wf (bs ++ [b]) -> Forall storable (bs ++ [b]) ->
  db_inv base (mkDatabase w (db_trees db) s tr true wb) (bs ++ [b]) (length bs).
Proof.
  intros Hdb Hs Hw Hwf Hp. constructor; try done. simpl. rewrite take_app_length.
  pose proof (inv_trees _ _ _ _ Hdb) as Hold. by rewrite firstn_all in Hold.
Qed.

(** The batch an operation adds to the log. *)
Definition op_log (op : DbOp) (db : Database T) : list (Z * list Entry) :=
  option_list (op_write op (db_seqno db) ≫= op_batch (db_journal db)).

(** What an operation does to the log: it adds its batch or nothing, and once it returns
    [Ok] everything it added is applied. *)
Definition op_effect (base : history) (op : DbOp) (db : Database T) (bs : list (Z * list Entry)) (n : nat)
    (db' : Database T) (r : Result ()) : Prop :=
  exists bs' n', (bs' = [] \/ bs' = op_log op db) /\ db_inv base db' (bs ++ bs') n' /\ (n <= n')%nat /\
    (is_ok r = true -> bs' = op_log op db /\ (bs' = [] \/ n' = length (bs ++ bs'))).

Lemma effect_none base op db bs n e : db_inv base db bs n -> op_effect base op db bs n db (Err e).
Proof. intros Hdb. exists [], n. rewrite app_nil_r. split_and!; [by left|done|done|done]. Qed.

(** Logging, persisting and applying: the shape of every write. *)
Lemma effect_write base op db bs n w1 b db' r (persisted : Result ()) w2 t s tr wb :
  db_inv base db bs n -> is_poisoned db = false -> op_log op db = [b] ->
  stream w1 = journal_bytes (old ++ bs ++ [b]) -> writer_ok w1 -> Forall batch_wf (bs ++ [b]) -> Forall storable (bs ++ [b]) ->
  stream w2 = stream w1 -> writer_ok w2 ->
  hist_eq (versions t) (apply_batch (versions (db_trees db)) b) ->
  (if is_ok persisted then db' = mkDatabase w2 t s tr false wb
   else db' = mkDatabase w2 (db_trees db) s tr true wb /\ is_ok r = false) ->
  op_effect base op db bs n db' r.
Proof.
  intros Hdb Hpoison Hlog Hs1 Hw1 Hwf Hst Hs2 Hw2 Ht Hcase. pose proof (inv_applied _ _ _ _ Hdb Hpoison) as ->.
  exists [b]. destruct persisted; cbn [is_ok] in Hcase.
  - subst db'. exists (length (bs ++ [b])). split_and!; [by right| |rewrite length_app; lia|by split; [|right]].
    eapply inv_apply; try done. congruence.
  - destruct Hcase as [-> Hr]. exists (length bs). split_and!; [by right| |done|by rewrite Hr].
    eapply inv_logged; try done. congruence.
Qed.

Lemma raw_apply_history ks key value vt s (t : T) w f :
  (f = tree_insert ks key value /\ vt = Value \/
   f = tree_remove ks key /\ (vt = Tombstone \/ vt = WeakTombstone)) ->
  hist_eq (versions (f s t).1) (apply_batch (versions t) (s, [raw_entry w ks key value vt])).
Proof.
  intros [[-> ->]|[-> [-> | ->]]]; unfold apply_batch, raw_entry; simpl.
  - by rewrite insert_versions.
  - by rewrite remove_versions.
  - by rewrite remove_versions.
Qed.

Lemma logged_write_effect base op db bs n ks key value vt f db' r :
  db_inv base db bs n -> op_write op (db_seqno db) = Some (WRaw (ks_id ks) key value vt (db_seqno db)) ->
  op_logged op db ->
  (f = tree_insert (ks_id ks) key value /\ vt = Value \/
   f = tree_remove (ks_id ks) key /\ (vt = Tombstone \/ vt = WeakTombstone)) ->
  logged_write ks key value vt f db = (db', r) -> op_effect base op db bs n db' r.
Proof.
  intros Hdb Hop Hlog Hf. unfold op_logged in Hlog. rewrite Hop in Hlog. destruct Hlog as [Hwf Hok].
  unfold logged_write. destruct (is_deleted ks).
  { intros [= <- <-]. by apply effect_none. }
  unfold st_bind, check_poisoned. destruct (is_poisoned db) eqn:Hpo.
  { intros [= <- <-]. by apply effect_none. }
  cbn [next_seqno]. unfold with_journal at 1. cbn [db_journal].
  cbn [run_write] in Hok. destruct (write_raw _ _ _ _ _ _) as [w1 r1] eqn:Ew. cbn [snd] in Hok.
  destruct r1 as [n1|]; [|done].
  destruct (logged_journal base db bs n _ w1 (Ok n1) _ Hdb Hwf eq_refl Ew eq_refl) as (Hs1 & Hw1 & Hwf' & Hp').
  assert (op_log op db = [(db_seqno db, [raw_entry (db_journal db) (ks_id ks) key value vt])]) as Hl
    by (unfold op_log; by rewrite Hop).
  pose proof (raw_apply_history (ks_id ks) key value vt (db_seqno db) (db_trees db) (db_journal db) f Hf) as Ht.
  unfold auto_persist. destruct (manual_journal_persist ks).
  - unfold with_trees, st_ret. cbn. destruct (f (db_seqno db) (db_trees db)) as [t sz] eqn:Ef. cbn in Ht.
    intros [= <- <-]. rewrite ?Hpo. by eapply (effect_write _ _ _ _ _ w1 _ _ _ (Ok ()) w1 t); [..|reflexivity].
  - unfold persist_or_poison, with_journal. cbn [db_journal].
    destruct (persist Buffer w1) as [w2 r2] eqn:Ep. destruct (persist_any _ _ _ _ Ep Hw1) as [Hw2 Hs2].
    destruct r2 as [[]|e].
    + unfold with_trees. cbn. destruct (f (db_seqno db) (db_trees db)) as [t sz] eqn:Ef. cbn in Ht.
      intros [= <- <-]. rewrite ?Hpo. by eapply (effect_write _ _ _ _ _ w1 _ _ _ (Ok ()) w2 t); [..|reflexivity].
    + cbn. intros [= <- <-].
      by eapply (effect_write _ _ _ _ _ w1 _ _ _ (Err e) w2 (f (db_seqno db) (db_trees db)).1); [..|split; reflexivity].
Qed.

Lemma clear_effect base db bs n ks db' r :
  db_inv base db bs n -> op_logged (OpClear ks) db -> keyspace_clear ks db = (db', r) ->
  op_effect base (OpClear ks) db bs n db' r.
Proof.
  intros Hdb [Hwf Hok]. unfold keyspace_clear. unfold st_bind at 1, check_poisoned. destruct (is_poisoned db) eqn:Hpo.
  { intros [= <- <-]. by apply effect_none. }
  unfold st_bind. cbn [next_seqno]. unfold with_journal at 1. cbn [db_journal].
  cbn [run_write] in Hok. destruct (write_clear _ _ _) as [w1 r1] eqn:Ew. cbn [snd] in Hok. destruct r1 as [n1|]; [|done].
  destruct (logged_journal base db bs n _ w1 (Ok n1) _ Hdb Hwf eq_refl Ew eq_refl) as (Hs1 & Hw1 & Hwf' & Hp').
  pose proof (clear_history (ks_id ks) (db_trees db)) as Ht. pose proof (tree_clear_ok (ks_id ks) (db_trees db)) as Hc.
  assert (hist_eq (versions (tree_clear (ks_id ks) (db_trees db)).1)
            (apply_batch (versions (db_trees db)) (db_seqno db, [Clear (ks_id ks)]))) as Ht' by (by rewrite Ht).
  unfold auto_persist. destruct (manual_journal_persist ks).
  - unfold with_trees, st_ret, st_lift. cbn. destruct (tree_clear (ks_id ks) (db_trees db)) as [t [[]|]] eqn:Ec; [|done].
    intros [= <- <-]. rewrite ?Hpo. by eapply (effect_write _ _ _ _ _ w1 _ _ _ (Ok ()) w1 t); [..|reflexivity].
  - unfold persist_or_poison, with_journal. cbn [db_journal].
    destruct (persist Buffer w1) as [w2 r2] eqn:Ep. destruct (persist_any _ _ _ _ Ep Hw1) as [Hw2 Hs2].
    destruct r2 as [[]|e].
    + unfold with_trees, st_lift. cbn. destruct (tree_clear (ks_id ks) (db_trees db)) as [t [[]|]] eqn:Ec; [|done].
      intros [= <- <-]. rewrite ?Hpo. by eapply (effect_write _ _ _ _ _ w1 _ _ _ (Ok ()) w2 t); [..|reflexivity].
    + cbn. intros [= <- <-].
      by eapply (effect_write _ _ _ _ _ w1 _ _ _ (Err e) w2 (tree_clear (ks_id ks) (db_trees db)).1); [..|split; reflexivity].
Qed.

Lemma apply_items_history s its size (t : T) w :
  versions (apply_items s its size t).1 = apply_batch (versions t) (s, batch_entry w <$> (journal_item <$> its)).
Proof.
  revert size t. induction its as [|i its IH]; intros size t; [done|]. cbn [apply_items].
  assert (versions (apply_item s i t).1 = apply_entry s (versions t) (batch_entry w (journal_item i))) as E.
  { unfold apply_item, batch_entry, raw_entry, journal_item. cbn. destruct (it_type i); cbn.
    - rewrite <- insert_versions. by destruct (tree_insert _ _ _ _ _).
    - rewrite <- remove_versions. by destruct (tree_remove _ _ _ _).
    - rewrite <- remove_weak_versions. by destruct (tree_remove_weak _ _ _ _).
    - done. }
  destruct (apply_item s i t) as [t1 sz]. rewrite (IH (size + sz) t1). cbn [fst] in E. rewrite E. done.
Qed.

Lemma batch_effect base db bs n b db' r :
  db_inv base db bs n -> op_logged (OpBatch b) db -> batch_commit b db = (db', r) ->
  op_effect base (OpBatch b) db bs n db' r.
Proof.
  intros Hdb [Hwf Hok]. rewrite batch_commit_whole. case_decide as Hne.
  { intros [= <- <-]. exists [], n. rewrite app_nil_r. unfold op_log. cbn [op_write]. rewrite Hne.
    split_and!; [by left|done|done|]. intros _. split; [done|by left]. }
  unfold st_bind at 1, check_poisoned. destruct (is_poisoned db) eqn:Hpo.
  { intros [= <- <-]. by apply effect_none. }
  unfold st_bind. cbn [next_seqno]. unfold ignore_error, with_journal at 1. cbn [db_journal].
  cbn [run_write] in Hok. rewrite length_fmap in Hok. destruct (write_batch _ _ _ _) as [w1 r1] eqn:Ew. cbn [snd] in Hok.
  assert (exists l, op_batch (db_journal db) (WBatch (journal_item <$> batch_data b) (db_seqno db)) =
    Some (db_seqno db, l) /\ l = batch_entry (db_journal db) <$> (journal_item <$> batch_data b)) as (l & Hb & Hl)
    by (destruct (batch_data b); [done|by eexists]).
  rewrite <- (length_fmap journal_item) in Ew. destruct (logged_journal base db bs n _ w1 r1 _ Hdb Hwf Hb Ew Hok) as (Hs1 & Hw1 & Hwf' & Hp').
  assert (op_log (OpBatch b) db = [(db_seqno db, l)]) as Hlog by (unfold op_log; cbn [op_write mbind option_bind]; by rewrite Hb).
  pose proof (apply_items_history (db_seqno db) (batch_data b) 0 (db_trees db) (db_journal db)) as Ht. rewrite <- Hl in Ht.
  assert (hist_eq (versions (apply_items (db_seqno db) (batch_data b) 0 (db_trees db)).1)
            (apply_batch (versions (db_trees db)) (db_seqno db, l))) as Ht' by (by rewrite Ht).
  cbn [fst]. destruct (durability b) as [mode|].
  - unfold persist_or_poison, with_journal. cbn [db_journal].
    destruct (persist mode w1) as [w2 r2] eqn:Ep. destruct (persist_any _ _ _ _ Ep Hw1) as [Hw2 Hs2].
    destruct r2 as [[]|e].
    + unfold with_trees. cbn. destruct (apply_items (db_seqno db) (batch_data b) 0 (db_trees db)) as [t sz] eqn:Ec.
      intros [= <- <-]. rewrite ?Hpo. by eapply (effect_write _ _ _ _ _ w1 _ _ _ (Ok ()) w2 t); [..|reflexivity].
    + cbn. intros [= <- <-].
      by eapply (effect_write _ _ _ _ _ w1 _ _ _ (Err e) w2 (apply_items (db_seqno db) (batch_data b) 0 (db_trees db)).1);
        [..|split; reflexivity].
  - unfold with_trees, st_ret. cbn. destruct (apply_items (db_seqno db) (batch_data b) 0 (db_trees db)) as [t sz] eqn:Ec.
    intros [= <- <-]. rewrite ?Hpo. by eapply (effect_write _ _ _ _ _ w1 _ _ _ (Ok ()) w1 t); [..|reflexivity].
Qed.

Lemma persist_effect base db bs n mode db' r :
  db_inv base db bs n -> db_persist mode db = (db', r) -> op_effect base (OpPersist mode) db bs n db' r.
Proof.
  intros Hdb. unfold db_persist, st_bind, check_poisoned. destruct (is_poisoned db) eqn:Hpo.
  { intros [= <- <-]. by apply effect_none. }
  unfold persist_or_poison, with_journal. destruct (persist mode (db_journal db)) as [w2 r2] eqn:Ep.
  destruct (persist_any _ _ _ _ Ep (inv_writer _ _ _ _ Hdb)) as [Hw2 Hs2]. pose proof Hdb as [H1 H2 H3 H4 H5 H6].
  intros Heq. exists [], n. rewrite app_nil_r. split_and!; [by left| |done|intros _; split; [done|by left]].
  destruct r2 as [[]|e]; cbn in Heq; injection Heq as <- <-; constructor; cbn; try done; try congruence.
Qed.

Lemma run_op_effect base op db bs n db' r :
  db_inv base db bs n -> op_logged op db -> run_op op db = (db', r) -> op_effect base op db bs n db' r.
Proof.
  intros Hdb Hlog. destruct op as [ks key value|ks key|ks key|ks|b|mode]; cbn [run_op]; intros Hr.
  - eapply logged_write_effect; [done|done|done| |done]. by left.
  - eapply logged_write_effect; [done|done|done| |done]. right. split; [done|by left].
  - eapply logged_write_effect; [done|done|done| |done]. right. split; [done|by right].
  - by apply clear_effect.
  - by apply batch_effect.
  - by apply persist_effect.
Qed.

(** ** Runs *)

Definition run_ops (ops : list DbOp) (db : Database T) : Database T := foldl (fun db op => (run_op op db).1) db ops.

Fixpoint ops_logged (ops : list DbOp) (db : Database T) : Prop :=
  match ops with
  | [] => True
  | op :: ops => op_logged op db /\ ops_logged ops (run_op op db).1
  end.

Lemma ops_logged_app ops op db : ops_logged (ops ++ [op]) db <-> ops_logged ops db /\ op_logged op (run_ops ops db).
Proof. revert db. induction ops as [|o ops IH]; intros db; simpl; [tauto|]. rewrite IH. tauto. Qed.

Lemma run_ops_snoc ops op db : run_ops (ops ++ [op]) db = (run_op op (run_ops ops db)).1.
Proof. unfold run_ops. by rewrite foldl_app. Qed.

Lemma run_op_poisoned op db : is_poisoned db = true -> is_poisoned (run_op op db).1 = true.
Proof.
  intros Hp. destruct op as [ks key value|ks key|ks key|ks|b|mode]; cbn [run_op]; rewrite ?batch_commit_whole;
    unfold keyspace_insert, keyspace_remove, keyspace_remove_weak, logged_write, keyspace_clear, db_persist;
    try (destruct (is_deleted ks); [done|]); try (destruct (decide (batch_data b = [])); [done|]);
    unfold st_bind at 1, check_poisoned; by rewrite Hp.
Qed.

(** A database whose journal holds just [old]. *)
Definition holds_old (db : Database T) : Prop :=
  stream (db_journal db) = journal_bytes old /\ writer_ok (db_journal db) /\ is_poisoned db = false.

Lemma holds_old_inv db : holds_old db -> db_inv (versions (db_trees db)) db [] 0.
Proof. intros (Hs & Hw & Hp). constructor; rewrite ?app_nil_r; done. Qed.

Lemma op_log_length op db : (length (op_log op db) <= 1)%nat.
Proof. unfold op_log. destruct (op_write op _ ≫= _); simpl; lia. Qed.

(** The journal determines the length of its log. *)
Lemma log_determined base db bs j n n' :
  db_inv base db bs n -> db_inv base db (take j bs) n' -> (j <= length bs)%nat -> j = length bs.
Proof.
  intros Hinv Hdb Hj. apply Nat.le_antisymm; [done|]. pose proof (inv_stream _ _ _ _ Hdb) as E.
  rewrite (inv_stream _ _ _ _ Hinv), <- (take_drop j bs), !journal_bytes_app, take_app_le, take_idemp in E
    by (rewrite length_take; lia).
  destruct (drop j bs) as [|b rest] eqn:Ed; [apply (f_equal length) in Ed; rewrite length_drop in Ed; simpl in Ed; lia|].
  apply (f_equal length) in E. rewrite journal_bytes_cons, !length_app in E. pose proof (batch_bytes_length b). lia.
Qed.

(** The log of a run, and the run that belongs to each prefix of the log. *)
Lemma run_ops_log db0 ops :
  holds_old db0 -> ops_logged ops db0 -> is_poisoned (run_ops ops db0) = false ->
  let base := versions (db_trees db0) in
  exists bs, db_inv base (run_ops ops db0) bs (length bs) /\
    forall j, (j <= length bs)%nat -> exists i, (i <= length ops)%nat /\ db_inv base (run_ops (take i ops) db0) (take j bs) j /\
      ((i < length ops)%nat -> (j < length bs)%nat /\ stream (db_journal (run_ops (take (S i) ops) db0)) = journal_bytes (old ++ take (S j) bs)).
Proof.
  intros Hst. cbv zeta. induction ops as [|op ops IH] using rev_ind; intros Hlog Hpo.
  { exists []. split; [by apply holds_old_inv|]. intros j Hj. simpl in Hj. exists 0%nat. replace j with 0%nat by lia.
    split; [done|]. split; [by apply holds_old_inv|]. simpl. lia. }
  apply ops_logged_app in Hlog as [Hlog Hop]. rewrite run_ops_snoc in Hpo |- *.
  assert (is_poisoned (run_ops ops db0) = false) as Hpo'.
  { destruct (is_poisoned (run_ops ops db0)) eqn:E; [|done]. by rewrite run_op_poisoned in Hpo. }
  destruct (IH Hlog Hpo') as (bs & Hinv & Hpre).
  destruct (run_op op (run_ops ops db0)) as [db' r] eqn:Er. simpl in Hpo.
  destruct (run_op_effect _ _ _ _ _ _ _ Hinv Hop Er) as (new & n' & Hnew & Hinv' & _ & _).
  rewrite (inv_applied _ _ _ _ Hinv' Hpo) in Hinv'. exists (bs ++ new). split; [done|].
  assert (length new <= 1)%nat as Hlen by (destruct Hnew as [-> | ->]; [simpl; lia|apply op_log_length]).
  assert (forall i, (i <= length ops)%nat -> take i (ops ++ [op]) = take i ops) as Htake by (intros i Hi; by rewrite take_app_le).
  assert (run_ops (take (S (length ops)) (ops ++ [op])) db0 = db') as Hlast.
  { rewrite firstn_all2 by (rewrite length_app; simpl; lia). rewrite run_ops_snoc, Er. done. }
  intros j Hj. rewrite length_app in Hj. destruct (decide (j <= length bs)%nat) as [Hjb|Hjb].
  - destruct (Hpre j Hjb) as (i & Hi & Hdb & Hnext). rewrite (take_app_le bs) by lia.
    destruct (decide (i < length ops)%nat) as [Hlt|Hge].
    + exists i. rewrite !Htake, length_app by lia. destruct (Hnext Hlt) as [Hjl Hs]. split; [lia|]. split; [done|].
      intros _. rewrite length_app. split; [lia|]. by rewrite take_app_le by lia.
    + assert (i = length ops) as -> by lia. rewrite firstn_all in Hdb.
      pose proof (log_determined _ _ _ _ _ _ Hinv Hdb Hjb) as ->.
      rewrite firstn_all in Hdb |- *. destruct new as [|b [|? ?]]; [| |simpl in Hlen; lia].
      * exists (S (length ops)). rewrite Hlast, app_nil_r in *. rewrite length_app. simpl. split; [lia|]. split; [done|lia].
      * exists (length ops). rewrite Htake, firstn_all, !length_app by done. split; [simpl; lia|]. split; [done|]. intros _.
        simpl. split; [lia|]. rewrite Hlast, (inv_stream _ _ _ _ Hinv'). do 2 f_equal. symmetry.
        apply firstn_all2. rewrite length_app. simpl. lia.
  - exists (S (length ops)). rewrite Hlast, length_app. simpl. split; [lia|].
    assert (j = length (bs ++ new)) as -> by (rewrite length_app; lia). rewrite firstn_all. split; [done|lia].
Qed.

(** The log again, with where a crash at [k] cuts it. *)
Lemma run_ops_cut (known : Z -> bool) (lookup : Z -> PResult bool) (t0 : T) db0 ops k m :
  (forall ks, lookup ks = Some (Ok (known ks))) -> Forall batch_wf old -> Forall storable old ->
  holds_old db0 -> ops_logged ops db0 -> is_poisoned (run_ops ops db0) = false ->
  (length (journal_bytes old) <= k <= length (stream (db_journal (run_ops ops db0))))%nat ->
  exists t bs i,
    unless_asserts (recover_active lookup (take k (stream (db_journal (run_ops ops db0))) ++ zeros m) t0) (Ok (t, journal_bytes (old ++ bs))) /\
    known_part known (versions t) = known_part known (replay (old ++ bs) (versions t0)) /\
    (i <= length ops)%nat /\ db_inv (versions (db_trees db0)) (run_ops (take i ops) db0) bs (length bs) /\
    ((i < length ops)%nat -> (k < length (stream (db_journal (run_ops (take (S i) ops) db0))))%nat).
Proof.
  intros Hlookup Hwf Hst Hh Hlog Hpo Hk. destruct (run_ops_log db0 ops Hh Hlog Hpo) as (bs & Hinv & Hpre).
  rewrite (inv_stream _ _ _ _ Hinv) in Hk |- *.
  destruct (recover_active_prefix known lookup Hlookup (old ++ bs) k m t0 (versions t0)) as (t & j & Hrec & Hv & Hjk & Hnext);
    [apply Forall_app; split; [done|apply Hinv]|apply Forall_app; split; [done|apply Hinv]|apply Hk|done|].
  assert (length old <= j)%nat as Hj.
  { destruct (decide (length old <= j)%nat) as [?|Hlt]; [done|exfalso]. rewrite length_app in Hnext.
    specialize (Hnext ltac:(lia)). rewrite take_app_le in Hnext by lia.
    pose proof (f_equal length (journal_bytes_app (take (S j) old) (drop (S j) old))) as El. rewrite take_drop, length_app in El. lia. }
  destruct (Hpre (Nat.min (j - length old) (length bs))) as (i & Hi & Hdb & Hstream); [lia|].
  assert (take j (old ++ bs) = old ++ take (Nat.min (j - length old) (length bs)) bs) as Et.
  { rewrite take_app_ge by lia. f_equal. destruct (decide (j - length old <= length bs)%nat); [by rewrite Nat.min_l|].
    by rewrite Nat.min_r, !firstn_all2 by lia. }
  rewrite Et in Hrec, Hv. exists t, (take (Nat.min (j - length old) (length bs)) bs), i. split_and!; [done|done|done| |].
  - rewrite length_take. by replace (Nat.min (Nat.min (j - length old) (length bs)) (length bs)) with (Nat.min (j - length old) (length bs)) by lia.
  - intros Hlt. destruct (Hstream Hlt) as [Hlen ->]. rewrite length_app in Hnext. specialize (Hnext ltac:(lia)).
    rewrite take_app_ge in Hnext by lia. rewrite Nat.min_l by lia. by replace (S (j - length old)) with (S j - length old)%nat by lia.
Qed.
End log.

(** ** Sessions *)

(** A database whose journal was just started. *)
Definition started (db : Database T) : Prop :=
  stream (db_journal db) = [] /\ writer_ok (db_journal db) /\ is_poisoned db = false.

(** The database that is opened with what was recovered. *)
Definition reopened_db (w : Writer) (file : bytes) (t : T) (seqno : Z) (tr : SnapshotTracker) (wb : Z) : Database T :=
  mkDatabase (truncated file w) t seqno tr false wb.

(** A database of a new journal over the trees [t0], or one that was opened again, with the
    keyspaces that are [known] still there, after a crash of a session. The journal is
    synced when a session begins, so a crash leaves at least what it held then. *)
Inductive session (known : Z -> bool) (t0 : T) : Database T -> Prop :=
  | session_first db : started db -> db_trees db = t0 -> session known t0 db
  | session_again db ops k m known' lookup t file path comp threshold faults w seqno tr wb :
      session known t0 db -> ops_logged ops db -> is_poisoned (run_ops ops db) = false ->
      let contents := take k (stream (db_journal (run_ops ops db))) ++ zeros m in
      (length (stream (db_journal db)) <= k <= length (stream (db_journal (run_ops ops db))))%nat ->
      (forall ks, lookup ks = Some (Ok (known' ks))) -> (forall ks, known ks = true -> known' ks = true) ->
      journal_resume path contents comp threshold faults = (w, Ok ()) ->
      recover_active lookup contents t0 = Some (Ok (t, file)) ->
      session known t0 (reopened_db w file t seqno tr wb).

(** The journal of a session holds what its trees were recovered from. *)
Record continues (known : Z -> bool) (t0 : T) (old : list (Z * list Entry)) (db : Database T) : Prop := {
  co_old : holds_old old db;
  co_wf : Forall batch_wf old;
  co_storable : Forall storable old;
  co_trees : known_part known (versions (db_trees db)) = known_part known (replay old (versions t0))
}.

Lemma resumed_clean path contents comp threshold faults w r :
  journal_resume path contents comp threshold faults = (w, r) -> is_buffer_dirty w = false.
Proof.
  unfold journal_resume, persist, st_bind, st_read, st_ret, sync, next_outcome, from_file, set_compression, set_file. cbn.
  destruct faults as [|[|? ?] ?]; by intros [= <- _].
Qed.

Lemma session_continues known t0 db : session known t0 db -> exists old, continues known t0 old db.
Proof.
  induction 1 as [db Hs <-|db ops k m known' lookup t file path comp threshold faults w seqno tr wb _ (old & [Hold Hwf Hst Ht]) Hlog Hpo contents Hk Hlk Hle Hres Hrec].
  - exists []. by split.
  - pose proof Hold as (Hs & _). rewrite Hs in Hk.
    destruct (run_ops_cut old known' lookup t0 db ops k m Hlk Hwf Hst Hold Hlog Hpo Hk) as (t1 & bs & i & Hrec1 & Hv & _ & Hdb & _).
    fold contents in Hrec1. rewrite Hrec in Hrec1. destruct Hrec1 as [[= <- ->]|[_ [=]]]. exists (old ++ bs). split.
    + split_and!; [done| |done]. split; [cbn; lia|]. done.
    + apply Forall_app. split; [done|apply Hdb].
    + apply Forall_app. split; [done|apply Hdb].
    + by apply (known_part_le known known').
Qed.

(** What is recovered from the old batches and [bs] is what the trees hold after [bs]. *)
Lemma session_reads known t0 old db0 bs db (t : T) ks key instant :
  known_part known (versions (db_trees db0)) = known_part known (replay old (versions t0)) ->
  db_inv old (versions (db_trees db0)) db bs (length bs) ->
  known_part known (versions t) = known_part known (replay (old ++ bs) (versions t0)) -> known ks = true ->
  snapshot_get (versions t) ks key instant = snapshot_get (versions (db_trees db)) ks key instant.
Proof.
  intros Ht Hdb Hv Hks. pose proof (inv_trees _ _ _ _ _ Hdb) as Htr. rewrite firstn_all in Htr.
  rewrite Htr, <- (known_part_get known (versions t)), Hv by done. unfold replay at 1. rewrite foldl_app. fold (replay old (versions t0)).
  fold (replay bs (replay old (versions t0))). by rewrite <- (replay_known_part known bs (versions (db_trees db0))), known_part_get.
Qed.

(** What a crash leaves of a session is a prefix of its operations. *)
Lemma crash_prefix (known : Z -> bool) (lookup : Z -> PResult bool) (t0 : T) db0 ops k m :
  (forall ks, lookup ks = Some (Ok (known ks))) ->
  session known t0 db0 -> ops_logged ops db0 -> is_poisoned (run_ops ops db0) = false ->
  (length (stream (db_journal db0)) <= k <= length (stream (db_journal (run_ops ops db0))))%nat ->
  exists t file i,
    unless_asserts (recover_active lookup (take k (stream (db_journal (run_ops ops db0))) ++ zeros m) t0) (Ok (t, file)) /\
    (i <= length ops)%nat /\
    (forall ks key instant, known ks = true ->
      snapshot_get (versions t) ks key instant =
      snapshot_get (versions (db_trees (run_ops (take i ops) db0))) ks key instant) /\
    ((i < length ops)%nat -> (k < length (stream (db_journal (run_ops (take (S i) ops) db0))))%nat).
Proof.
  intros Hlk (old & [Hold Hwf Hst Ht])%session_continues Hlog Hpo Hk. pose proof Hold as (Hs & _). rewrite Hs in Hk.
  destruct (run_ops_cut old known lookup t0 db0 ops k m Hlk Hwf Hst Hold Hlog Hpo Hk) as (t & bs & i & Hrec & Hv & Hi & Hdb & Hnext).
  exists t, (journal_bytes (old ++ bs)), i. split_and!; [done|done| |done]. intros ks key instant Hks. by apply (session_reads known t0 old db0 bs).
Qed.

(** Dropping the journal, if that succeeds, loses nothing whatever happens then. *)
Theorem close_keeps_all (known : Z -> bool) (lookup : Z -> PResult bool) (t0 : T) db0 ops k m :
  (forall ks, lookup ks = Some (Ok (known ks))) ->
  session known t0 db0 -> ops_logged ops db0 -> is_poisoned (run_ops ops db0) = false ->
  let w := journal_drop (db_journal (run_ops ops db0)) in
  is_ok (persist SyncAll (db_journal (run_ops ops db0))).2 = true -> (synced w <= k <= length (stream w))%nat ->
  exists t file, recover_active lookup (take k (stream w) ++ zeros m) t0 = Some (Ok (t, file)) /\
    forall ks key instant, known ks = true ->
      snapshot_get (versions t) ks key instant = snapshot_get (versions (db_trees (run_ops ops db0))) ks key instant.
Proof.
  intros Hlk (old & [Hold Hwf Hst Ht])%session_continues Hlog Hpo w Hok Hk. pose proof Hold as (Hs & _).
  destruct (run_ops_log old db0 ops Hold Hlog Hpo) as (bs & Hinv & _).
  destruct (persist SyncAll (db_journal (run_ops ops db0))) as [w' [[]|]] eqn:Ep; [|done].
  destruct (persist_cases _ _ _ Ep (inv_writer _ _ _ _ _ Hinv)) as (_ & Es & Hsy). subst w. unfold journal_drop in *. rewrite Ep in *. cbn [fst] in *.
  rewrite Hsy in Hk. assert (k = length (stream w')) as -> by lia. rewrite firstn_all, Es, (inv_stream _ _ _ _ _ Hinv).
  destruct (recover_batches_history known lookup Hlk (old ++ bs) t0 (versions t0)) as (t & Hrec & Hv); [apply Forall_app; split; [done|apply Hinv]|done|].
  exists t, (journal_bytes (old ++ bs)). unfold recover_active. rewrite read_complete by (apply Forall_app; split; [done|apply Hinv]). rewrite Hrec.
  split; [done|]. intros ks key instant Hks. by apply (session_reads known t0 old db0 bs).
Qed.

(** The write of an operation on a keyspace, followed by its automatic persist and work
    that leaves the journal alone. *)
Lemma flushed_after_persist {A B} w (wr : StateR Writer A) (rest : StateR (Database T) B) db ks db' b :
  manual_journal_persist ks = false -> writer_ok (wr w).1 -> db_journal db = w ->
  (forall db, db_journal (rest db).1 = db_journal db) ->
  st_bind (with_journal wr) (fun _ => st_bind (auto_persist ks) (fun _ => rest)) db = (db', Ok b) ->
  flushed (db_journal db') = length (stream (db_journal db')).
Proof.
  intros Hm Hw Hj Hrest. unfold st_bind, auto_persist, with_journal. rewrite Hm, Hj.
  destruct (wr w) as [w1 [a|e]]; [|done]. simpl in Hw. unfold persist_or_poison, with_journal. cbn [db_journal].
  destruct (persist Buffer w1) as [w2 [[]|e]] eqn:Ep; [|done]. intros Hr.
  destruct (persist_cases _ _ _ Ep Hw) as (_ & _ & Hf).
  match type of Hr with rest ?d = _ => specialize (Hrest d) end. rewrite Hr in Hrest. simpl in Hrest. by rewrite Hrest.
Qed.

(** The operations on one keyspace. *)
Definition op_keyspace (op : DbOp) : option Keyspace :=
  match op with
  | OpInsert ks _ _ | OpRemove ks _ | OpRemoveWeak ks _ | OpClear ks => Some ks
  | OpBatch _ | OpPersist _ => None
  end.

(** Keyspaces that persist automatically survive a crash of the process: when a
    write to one returns [Ok], the whole journal is with the operating system. *)
Theorem auto_persist_flushed op ks db db' :
  writer_ok (db_journal db) -> op_logged op db -> op_keyspace op = Some ks ->
  manual_journal_persist ks = false -> run_op op db = (db', Ok ()) ->
  flushed (db_journal db') = length (stream (db_journal db')).
Proof.
  intros Hw Hlog Hks Hm Hr.
  assert (forall w, op_write op (db_seqno db) = Some w -> writer_ok (run_write w (db_journal db)).1) as Hok.
  { intros w E. unfold op_logged in Hlog. rewrite E in Hlog. destruct Hlog as [[Hwf _] _].
    eapply write_writer_ok; [done|done|]. apply surjective_pairing. }
  destruct op as [ks' key value|ks' key|ks' key|ks'| |]; simplify_eq/=;
    unfold keyspace_insert, keyspace_remove, keyspace_remove_weak, logged_write, keyspace_clear in Hr;
    try (destruct (is_deleted ks); [done|]); unfold st_bind at 1, check_poisoned in Hr;
    (destruct (is_poisoned db); [done|]); unfold st_bind at 1 in Hr; cbn [next_seqno] in Hr;
    (refine (flushed_after_persist _ _ _ _ _ _ _ Hm _ eq_refl _ Hr); [by apply (Hok _ eq_refl)|]);
    intros d; unfold st_bind, with_trees, st_lift;
    first [destruct (tree_insert _ _ _ _ _)|destruct (tree_remove _ _ _ _)|destruct (tree_clear _ _) as [? [[]|]]]; done.
Qed.
End operations.
End recovery.


(** ** The counter after recovery *)

Section seqno.
Context {T : Type} `{!TreeOps T, !TreeLaws T}.

Lemma recover_seqno_ge keyspaces (t : T) s : s <= recover_seqno keyspaces t s.
Proof.
  unfold recover_seqno. revert s. induction keyspaces as [|ks l IH]; intros s; simpl; [done|].
  etrans; [|apply IH]. lia.
Qed.

(** After recovery the next sequence number is above every recovered version of the
    keyspaces, so new writes are newer than all of them. *)
Theorem recover_seqno_fresh keyspaces (t : T) s v :
  v ∈ versions t -> v_keyspace v ∈ keyspaces -> v_seqno v < recover_seqno keyspaces t s.
Proof.
  intros Hv Hks. unfold recover_seqno. revert s. induction keyspaces as [|ks l IH]; intros s; [by apply elem_of_nil in Hks|].
  cbn [foldl]. apply elem_of_cons in Hks as [E|Hks].
  - destruct (highest_seqno_above ks t v Hv E) as (x & -> & Hx).
    eapply Z.lt_le_trans; [|apply recover_seqno_ge]. lia.
  - by apply IH.
Qed.
End seqno.

(** ** Sample runs *)

Definition sample_keyspace : Keyspace := mkKeyspace 1 (s2str "a") false false.
Definition sample_db (faults : list Outcome) : Database history :=
  mkDatabase (fresh_writer faults) [] 1 (tracker_new 1) false 0.

Definition key_a : bytes := [Byte.x61].
Definition key_b : bytes := [Byte.x62].

Definition sample_ops : list DbOp :=
  [OpInsert sample_keyspace key_a [Byte.x31];
   OpBatch (mkWriteBatch [mkBItem sample_keyspace key_a [Byte.x32] Value; mkBItem sample_keyspace key_b [] Tombstone]
     (Some SyncAll));
   OpClear sample_keyspace].

Lemma hist_clear_ok : clears_succeed history.
Proof. done. Qed.

Lemma op_wf_eq w op b : op_batch w op = Some b -> batch_wf b -> op_wf w op.
Proof. unfold op_wf. by intros ->. Qed.

Lemma op_logged_eq op (db : Database history) b :
  op_write op (db_seqno db) = Some b -> is_ok (run_write b (db_journal db)).2 = true -> op_types b -> op_wf (db_journal db) b -> op_logged op db.
Proof. intros E H1 H2 H3. unfold op_logged. by rewrite E. Qed.

Lemma sample_logged : ops_logged (T := history) sample_ops (sample_db []).
Proof.
  unfold sample_ops. cbn [ops_logged]. split_and!; [| | |done].
  - eapply op_logged_eq; [reflexivity|vm_compute; reflexivity|repeat constructor; done|].
    apply (op_wf_eq _ _ (1, [Item 1 key_a [Byte.x31] Value CompressionNone])); [vm_compute; reflexivity|].
    repeat (constructor || unfold_ranges || (simpl; lia)).
  - eapply op_logged_eq; [reflexivity|vm_compute; reflexivity|repeat constructor; done|].
    apply (op_wf_eq _ _ (2, [Item 1 key_a [Byte.x32] Value CompressionNone; Item 1 key_b [] Tombstone CompressionNone]));
      [vm_compute; reflexivity|]. repeat (constructor || unfold_ranges || (simpl; lia)).
  - eapply op_logged_eq; [reflexivity|vm_compute; reflexivity|repeat constructor; done|].
    apply (op_wf_eq _ _ (3, [Clear 1])); [vm_compute; reflexivity|]. repeat (constructor || unfold_ranges || (simpl; lia)).
Qed.

(** A crash inside the clear: the batch is recovered, the clear is not. The next session
    writes once more. *)
Definition all_known (ks : Z) : PResult bool := Some (Ok true).
Definition first_contents : bytes := take 150 (stream (db_journal (run_ops sample_ops (sample_db [])))) ++ zeros 8.
Definition second_db : Database history :=
  match recover_active all_known first_contents ([] : history) with
  | Some (Ok (t, file)) => reopened_db (journal_resume [] first_contents CompressionNone 0 []).1 file t 3 (tracker_new 3) 0
  | _ => sample_db []
  end.
Definition second_ops : list DbOp := [OpInsert sample_keyspace key_b [Byte.x33]].

(** A session that begins without I/O failures. *)
Lemma session_calm (known : Z -> bool) lookup (t0 : history) db ops k m t file seqno tr wb :
  session known t0 db -> ops_logged ops db -> is_poisoned (run_ops ops db) = false ->
  (length (stream (db_journal db)) <= k <= length (stream (db_journal (run_ops ops db))))%nat ->
  (forall ks, lookup ks = Some (Ok (known ks))) ->
  recover_active lookup (take k (stream (db_journal (run_ops ops db))) ++ zeros m) t0 = Some (Ok (t, file)) ->
  session known t0 (reopened_db (journal_resume [] (take k (stream (db_journal (run_ops ops db))) ++ zeros m) CompressionNone 0 []).1 file t seqno tr wb).
Proof. intros Hs Hlog Hpo Hk Hlk Hrec. by apply (session_again _ _ db ops k m known lookup t file [] CompressionNone 0 []). Qed.

Lemma second_session : session (fun _ => true) [] second_db.
Proof.
  unfold second_db, first_contents. destruct (recover_active all_known _ ([] : history)) as [[[t file]|]|] eqn:E; [|vm_compute in E; discriminate..].
  apply (session_calm (fun _ => true) all_known [] (sample_db []) sample_ops 150 8 t file 3 (tracker_new 3) 0).
  - by apply session_first; [split; [reflexivity|]; split; [vm_compute; split; [lia|done]|reflexivity]|].
  - exact sample_logged.
  - vm_compute. reflexivity.
  - vm_compute. lia.
  - done.
  - exact E.
Qed.

Lemma second_logged : ops_logged (T := history) second_ops second_db.
Proof.
  split; [|done]. eapply op_logged_eq; [reflexivity|vm_compute; reflexivity|repeat constructor; done|].
  apply (op_wf_eq _ _ (3, [Item 1 key_b [Byte.x33] Value CompressionNone])); [vm_compute; reflexivity|].
  repeat (constructor || unfold_ranges || (simpl; lia)).
Qed.


Lemma auto_persist_flushed_witness :
  let db' := (run_op (OpInsert sample_keyspace key_a [Byte.x31]) (sample_db [])).1 in
  flushed (db_journal db') = length (stream (db_journal db')).
Proof.
  apply (auto_persist_flushed (OpInsert sample_keyspace key_a [Byte.x31]) sample_keyspace (sample_db [])).
  - vm_compute. split; [lia|done].
  - exact (proj1 sample_logged).
  - reflexivity.
  - reflexivity.
  - apply result_pair. vm_compute. reflexivity.
Defined.

Lemma recover_seqno_fresh_witness :
  7 < recover_seqno [1; 2] [mkVersion 2 key_a 7 Value key_b; mkVersion 1 key_b 3 Value key_a] 0.
Proof.
  apply (recover_seqno_fresh [1; 2] [mkVersion 2 key_a 7 Value key_b; mkVersion 1 key_b 3 Value key_a] 0
    (mkVersion 2 key_a 7 Value key_b)); [left|right; left].
Defined.

(** [WriteBatch::commit] drops the outcome of the journal write: when that fails, the
    commit, even one with full durability, still returns [Ok] and its items are read
    back, but a restart does not recover them. *)
Theorem batch_error_ignored :
  let b := mkWriteBatch [mkBItem sample_keyspace key_a [Byte.x31] Value] (Some SyncAll) in
  let p := batch_commit b (sample_db [Success; Failure IoErrorOther 0]) in
  p.2 = Ok () /\ keyspace_get sample_keyspace key_a p.1 = Ok (Some [Byte.x31]) /\
  recover_active (T := history) (fun _ => Some (Ok true)) (stream (db_journal p.1)) [] = Some (Ok ([], [])).
Proof. vm_compute. done. Qed.

(** [remove_weak] logs a weak tombstone and applies a plain one, so a restart leaves
    a different kind of tombstone behind than the one that was there. *)
Theorem remove_weak_divergence :
  let p := keyspace_remove_weak sample_keyspace key_a (sample_db []) in
  p.2 = Ok () /\ v_type <$> db_trees p.1 = [Tombstone] /\
  exists t file, recover_active (T := history) (fun _ => Some (Ok true)) (stream (db_journal p.1)) [] = Some (Ok (t, file)) /\
    v_type <$> t = [WeakTombstone].
Proof. split; [vm_compute; reflexivity|]. split; [vm_compute; reflexivity|]. do 2 eexists. split; vm_compute; reflexivity. Qed.
