(* ===== verification/WriteTx.v ===== *)
(** * Write transactions: read-your-own-writes over a snapshot

    Models [BaseTransaction] of [src/src/tx/write_tx.rs]. A transaction collects its
    writes in one ephemeral memtable per keyspace name, tagged with sequence numbers from
    [2^63] up, reads them before the snapshot, and commits the newest write per key as
    one batch. Memtables and merged iterators belong to [lsm_tree] and are behind the
    classes [MemtableOps] and [TreeReads]. *)

From stdpp Require Import base gmap list sorting.
From S2P Require Import Prelude Errors Utf8 Composite Store JournalEntry JournalReader JournalWriter SnapshotTracker Mvcc Db.

(** ** The library interfaces *)

(** [lsm_tree::InternalValue]. *)
Record MItem := mkMItem { mi_key : bytes; mi_value : bytes; mi_seqno : Z; mi_type : ValueType }.

(** The order of internal keys: by key, newest first. *)
Definition mi_lt (a b : MItem) : Prop :=
  bytes_lt (mi_key a) (mi_key b) \/ (mi_key a = mi_key b /\ mi_seqno b < mi_seqno a).

Class MemtableOps (M : Type) := {
  mt_new : M;
  mt_insert : MItem -> M -> M;
  mt_get : bytes -> Z -> M -> option MItem;
  mt_iter : M -> list MItem
}.

(** The items of a key below a sequence number. *)
Definition mi_visible (key : bytes) (seqno : Z) (i : MItem) : bool :=
  bool_decide (mi_key i = key) && bool_decide (mi_seqno i < seqno).

Class MemtableLaws (M : Type) `{!MemtableOps M} := {
  mt_iter_new : mt_iter mt_new = [];
  mt_iter_insert i m :
    (forall j, j ∈ mt_iter m -> mi_key j = mi_key i -> mi_seqno j <> mi_seqno i) ->
    mt_iter (mt_insert i m) ≡ₚ i :: mt_iter m;
  mt_iter_sorted m : StronglySorted mi_lt (mt_iter m);
  mt_get_first key seqno m : mt_get key seqno m = head (filter (fun i => mi_visible key seqno i = true) (mt_iter m))
}.

(** Reads of a tree besides [get]. *)
Class TreeReads (T M : Type) := {
  tree_contains_key : Z -> bytes -> Z -> T -> Result bool;
  tree_size_of : Z -> bytes -> Z -> T -> Result (option Z);
  (** [tree.range(range, instant, Some((memtable, seqno)))]. *)
  tree_range : Z -> key_range -> Z -> option (M * Z) -> T -> list (Result entry)
}.

(** ** Transactions *)

Section tx.
Context `{JournalCodec} {T M : Type} `{!TreeOps T, !MemtableOps M, !TreeReads T M}.

(** The hash map of memtables is keyed by handles, that is by their names; it keeps the
    handle that was used first. *)
Record BaseTransaction := mkBaseTransaction {
  memtables : gmap str (Keyspace * M);
  tx_instant : Z;
  tx_durability : option PersistMode;
  tx_seqno : Z
}.

Definition tx_new (instant : Z) : BaseTransaction := mkBaseTransaction ∅ instant None (2 ^ 63).

Definition tx_with_durability (mode : option PersistMode) (tx : BaseTransaction) : BaseTransaction :=
  mkBaseTransaction (memtables tx) (tx_instant tx) mode (tx_seqno tx).

Definition ignore_tombstone_value (item : MItem) : option MItem :=
  if is_tombstone (mi_type item) then None else Some item.

(** The newest own write of a key: [memtable.get(key, SeqNo::MAX)]. *)
Definition own_item (ks : Keyspace) (key : bytes) (tx : BaseTransaction) : option MItem :=
  '(_, memtable) ← memtables tx !! keyspace_key ks;
  mt_get key u64_max memtable.

Definition tx_get (ks : Keyspace) (key : bytes) (tx : BaseTransaction) (t : T) : Result (option bytes) :=
  match own_item ks key tx with
  | Some item => Ok (mi_value <$> ignore_tombstone_value item)
  | None => tree_get (ks_id ks) key (tx_instant tx) t
  end.

Definition tx_contains_key (ks : Keyspace) (key : bytes) (tx : BaseTransaction) (t : T) : Result bool :=
  match own_item ks key tx with
  | Some item => Ok (negb (is_tombstone (mi_type item)))
  | None => tree_contains_key (ks_id ks) key (tx_instant tx) t
  end.

Definition tx_size_of (ks : Keyspace) (key : bytes) (tx : BaseTransaction) (t : T) : Result (option Z) :=
  match own_item ks key tx with
  | Some item => Ok ((fun x => Z.of_nat (length (mi_value x)) mod 2 ^ 32) <$> ignore_tombstone_value item)
  | None => tree_size_of (ks_id ks) key (tx_instant tx) t
  end.

(** [range]; [iter] is the full range and [prefix] a range too. *)
Definition tx_range (ks : Keyspace) (r : key_range) (tx : BaseTransaction) (t : T) : list (Result entry) :=
  tree_range (ks_id ks) r (tx_instant tx) ((fun km => (km.2, tx_seqno tx)) <$> memtables tx !! keyspace_key ks) t.

Definition tx_iter (ks : Keyspace) (tx : BaseTransaction) (t : T) : list (Result entry) :=
  tx_range ks (Unbounded, Unbounded) tx t.

Definition tx_write (ks : Keyspace) (key value : bytes) (vt : ValueType) (tx : BaseTransaction) : BaseTransaction :=
  let '(handle, memtable) := default (ks, mt_new) (memtables tx !! keyspace_key ks) in
  mkBaseTransaction (<[keyspace_key ks := (handle, mt_insert (mkMItem key value (tx_seqno tx) vt) memtable)]> (memtables tx))
    (tx_instant tx) (tx_durability tx) (tx_seqno tx + 1).

Definition tx_insert (ks : Keyspace) (key value : bytes) (tx : BaseTransaction) : BaseTransaction := tx_write ks key value Value tx.
Definition tx_remove (ks : Keyspace) (key : bytes) (tx : BaseTransaction) : BaseTransaction := tx_write ks key [] Tombstone tx.
Definition tx_remove_weak (ks : Keyspace) (key : bytes) (tx : BaseTransaction) : BaseTransaction := tx_write ks key [] WeakTombstone tx.

(** The common part of [update_fetch] and [fetch_update]: previous and updated value. *)
Definition tx_update (ks : Keyspace) (key : bytes) (f : option bytes -> option bytes) (tx : BaseTransaction) (t : T) :
    BaseTransaction * Result (option bytes * option bytes) :=
  match tx_get ks key tx t with
  | Err e => (tx, Err e)
  | Ok prev =>
      let updated := f prev in
      let tx' :=
        match updated with
        | Some value => if decide (prev = Some value) then tx else tx_insert ks key value tx
        | None => match prev with Some _ => tx_remove ks key tx | None => tx end
        end in
      (tx', Ok (prev, updated))
  end.

Definition tx_update_fetch (ks : Keyspace) (key : bytes) (f : option bytes -> option bytes) (tx : BaseTransaction) (t : T) :
    BaseTransaction * Result (option bytes) :=
  let '(tx, r) := tx_update ks key f tx t in (tx, snd <$> r).

Definition tx_fetch_update (ks : Keyspace) (key : bytes) (f : option bytes -> option bytes) (tx : BaseTransaction) (t : T) :
    BaseTransaction * Result (option bytes) :=
  let '(tx, r) := tx_update ks key f tx t in (tx, fst <$> r).

Definition tx_take (ks : Keyspace) (key : bytes) (tx : BaseTransaction) (t : T) : BaseTransaction * Result (option bytes) :=
  tx_fetch_update ks key (fun _ => None) tx t.

(** ** Commit *)

(** The loop over a memtable: items with the key of the previous one are skipped. *)
Fixpoint newest_items (prev_key : option bytes) (items : list MItem) : list MItem :=
  match items with
  | [] => []
  | item :: items =>
      if decide (prev_key = Some (mi_key item)) then newest_items prev_key items
      else item :: newest_items (Some (mi_key item)) items
  end.

Definition to_batch_item (ks : Keyspace) (item : MItem) : option BItem :=
  item_new ks (mi_key item) (mi_value item) (mi_type item).

(** The loop over the memtables, in the order of the hash map; [None] is a failed
    assertion of [Item::new]. *)
Fixpoint tx_items (tables : list (str * (Keyspace * M))) : option (list BItem) :=
  match tables with
  | [] => Some []
  | (_, (ks, memtable)) :: tables =>
      items ← mapM (to_batch_item ks) (newest_items None (mt_iter memtable));
      rest ← tx_items tables;
      Some (items ++ rest)
  end.

(** [commit] with the memtables visited in [order]. *)
Definition tx_commit (order : list (str * (Keyspace * M))) (tx : BaseTransaction) (db : Database T) :
    option (Database T * Result ()) :=
  if decide (memtables tx = ∅) then Some (db, Ok ())
  else
    items ← tx_items order;
    Some (batch_commit (mkWriteBatch items (tx_durability tx)) db).
End tx.

Arguments BaseTransaction : clear implicits.
