(* ===== verification/WriteTxProps.v ===== *)
(** * Write transactions refine an overlay of the snapshot

    The abstract view of a transaction is a map: its own writes over the snapshot it
    was opened at. The operations implement updates of that map, and a commit installs
    exactly the written part of it, atomically. *)

From stdpp Require Import base gmap list sorting.
From S2P Require Import Prelude Errors Utf8 Composite Store JournalEntry JournalReader JournalWriter SnapshotTracker Mvcc Db DbProps WriteTx.

(** ** The specification: maps from cells to values *)

Definition View : Type := Keyspace -> bytes -> option bytes.

Inductive TxOp :=
  | TInsert (ks : Keyspace) (key value : bytes)
  | TRemove (ks : Keyspace) (key : bytes)
  | TRemoveWeak (ks : Keyspace) (key : bytes)
  | TGet (ks : Keyspace) (key : bytes)
  | TUpdateFetch (ks : Keyspace) (key : bytes) (f : option bytes -> option bytes)
  | TFetchUpdate (ks : Keyspace) (key : bytes) (f : option bytes -> option bytes)
  | TTake (ks : Keyspace) (key : bytes).

Definition tx_keyspace (op : TxOp) : Keyspace :=
  match op with
  | TInsert ks _ _ | TRemove ks _ | TRemoveWeak ks _ | TGet ks _ | TUpdateFetch ks _ _ | TFetchUpdate ks _ _ | TTake ks _ => ks
  end.

(** What tells keyspaces apart: inside a transaction their names, in the database their
    ids. *)
Section views.
Context {K : Type} `{!EqDecision K} (key_of : Keyspace -> K).

Definition same_cell (ks ks' : Keyspace) (key key' : bytes) : Prop := key_of ks' = key_of ks /\ key' = key.
#[global] Instance same_cell_dec ks ks' key key' : Decision (same_cell ks ks' key key').
Proof. unfold same_cell. apply _. Defined.

(** A write shows through every handle of the keyspace. *)
Definition view_set (view : View) (ks : Keyspace) (key : bytes) (o : option bytes) : View :=
  fun ks' key' => if decide (same_cell ks ks' key key') then o else view ks' key'.

(** A read-modify-write that does not change the value writes nothing. *)
Definition view_update (view : View) (ks : Keyspace) (key : bytes) (o : option bytes) : View :=
  if decide (view ks key = o) then view else view_set view ks key o.

Definition spec_tx (op : TxOp) (view : View) : View * option bytes :=
  match op with
  | TInsert ks key value => (view_set view ks key (Some value), None)
  | TRemove ks key | TRemoveWeak ks key => (view_set view ks key None, None)
  | TGet ks key => (view, view ks key)
  | TUpdateFetch ks key f => (view_update view ks key (f (view ks key)), f (view ks key))
  | TFetchUpdate ks key f => (view_update view ks key (f (view ks key)), view ks key)
  | TTake ks key => (view_update view ks key None, view ks key)
  end.

(** Views that do not depend on the handle. *)
Lemma view_update_set (view : View) ks key o ks' key' :
  (forall k k', key_of k = key_of k' -> view k = view k') -> view_update view ks key o ks' key' = view_set view ks key o ks' key'.
Proof.
  intros Hview. unfold view_update. case_decide as E; [|done]. unfold view_set. case_decide as Hs; [|done].
  destruct Hs as [Hk ->]. by rewrite (Hview ks' ks Hk).
Qed.
End views.

(** On the keyspace of the operation both readings agree. *)
Lemma spec_tx_id op (view : View) ks key :
  (forall k k', ks_id k = ks_id k' -> view k = view k') ->
  (spec_tx ks_id op view).1 ks key =
  if decide (ks_id ks = ks_id (tx_keyspace op)) then (spec_tx keyspace_key op view).1 (tx_keyspace op) key else view ks key.
Proof.
  intros Hview.
  assert (forall k b o, view_set ks_id view k b o ks key = if decide (ks_id ks = ks_id k) then view_set keyspace_key view k b o k key else view ks key) as Hset.
  { intros k b o. unfold view_set, same_cell. destruct (decide (ks_id ks = ks_id k)) as [E|E].
    - rewrite (Hview ks k E). repeat case_decide; naive_solver.
    - rewrite decide_False by naive_solver. done. }
  assert (forall k b o, view_update ks_id view k b o ks key = if decide (ks_id ks = ks_id k) then view_update keyspace_key view k b o k key else view ks key) as Hupd.
  { intros k b o. unfold view_update. destruct (decide (view k b = o)) as [|]; [|apply Hset]. case_decide as E; [by rewrite (Hview ks k E)|done]. }
  destruct op; cbn [spec_tx fst tx_keyspace]; [apply Hset..| |apply Hupd|apply Hupd|apply Hupd]. case_decide as E; [by rewrite (Hview _ _ E)|done].
Qed.

Section theory.
Context `{JournalCodec} {T M : Type} `{!TreeOps T, !TreeLaws T, !MemtableOps M, !MemtableLaws M, !TreeReads T M}.

Abbreviation Tx := (BaseTransaction M).

(** ** Memtables *)

Lemma mi_lt_asym a b : mi_lt a b -> mi_lt b a -> False.
Proof.
  intros [H1|[H1 H1']] [H2|[H2 H2']]; try lia.
  - apply (irreflexivity bytes_lt (mi_key a)). by trans (mi_key b).
  - rewrite H2 in H1. by apply (irreflexivity bytes_lt (mi_key a)).
  - rewrite H1 in H2. by apply (irreflexivity bytes_lt (mi_key b)).
Qed.

Definition of_mkey (key : bytes) (m : M) : list MItem := filter (fun i => mi_visible key u64_max i = true) (mt_iter m).

Lemma of_mkey_insert key i m :
  mi_seqno i < u64_max -> (forall j, j ∈ mt_iter m -> mi_seqno j < mi_seqno i) ->
  of_mkey key (mt_insert i m) = if decide (mi_key i = key) then i :: of_mkey key m else of_mkey key m.
Proof.
  intros Hi Hm. assert (mt_iter (mt_insert i m) ≡ₚ i :: mt_iter m) as Hp.
  { apply mt_iter_insert. intros j Hj _. specialize (Hm j Hj). lia. }
  unfold of_mkey. apply (sorted_asym_unique mi_lt).
  - apply mi_lt_asym.
  - apply StronglySorted_filter, mt_iter_sorted.
  - case_decide as E; [|apply StronglySorted_filter, mt_iter_sorted]. constructor; [apply StronglySorted_filter, mt_iter_sorted|].
    apply Forall_forall. intros j [Hv Hj]%list_elem_of_filter. apply andb_true_iff in Hv as [Hk%bool_decide_eq_true _].
    right. split; [congruence|]. by apply Hm.
  - intros j. rewrite list_elem_of_filter, Hp, elem_of_cons. unfold mi_visible.
    rewrite andb_true_iff, !bool_decide_eq_true. case_decide as E.
    + rewrite elem_of_cons, list_elem_of_filter, andb_true_iff, !bool_decide_eq_true. naive_solver.
    + rewrite list_elem_of_filter, andb_true_iff, !bool_decide_eq_true. naive_solver.
Qed.

(** ** The invariant of a transaction *)

Record tx_wf (tx : Tx) : Prop := {
  wf_seqno : 2 ^ 63 <= tx_seqno tx <= u64_max;
  wf_table n ks m : memtables tx !! n = Some (ks, m) ->
    keyspace_key ks = n /\ mt_iter m <> [] /\ forall i, i ∈ mt_iter m -> 2 ^ 63 <= mi_seqno i < tx_seqno tx /\ mi_type i <> Indirection
}.

Lemma tx_new_wf instant : tx_wf (tx_new instant).
Proof. constructor; [by vm_compute|]. intros id ks m E. unfold tx_new in E. simpl in E. by rewrite lookup_empty in E. Qed.

Definition default_table (ks : Keyspace) (tx : Tx) : Keyspace * M := default (ks, mt_new) (memtables tx !! keyspace_key ks).

Lemma default_table_wf ks tx :
  tx_wf tx -> keyspace_key (default_table ks tx).1 = keyspace_key ks /\
  forall i, i ∈ mt_iter (default_table ks tx).2 -> 2 ^ 63 <= mi_seqno i < tx_seqno tx /\ mi_type i <> Indirection.
Proof.
  intros Hwf. unfold default_table. destruct (memtables tx !! keyspace_key ks) as [[h m]|] eqn:E; simpl.
  - destruct (wf_table tx Hwf _ _ _ E) as (? & _ & ?). done.
  - split; [done|]. rewrite mt_iter_new. by intros i Hi%elem_of_nil.
Qed.

Lemma tx_write_tables ks key value vt (tx : Tx) :
  tx_write ks key value vt tx =
  mkBaseTransaction (<[keyspace_key ks := ((default_table ks tx).1, mt_insert (mkMItem key value (tx_seqno tx) vt) (default_table ks tx).2)]>
    (memtables tx)) (tx_instant tx) (tx_durability tx) (tx_seqno tx + 1).
Proof. unfold tx_write. fold (default_table ks tx). by destruct (default_table ks tx). Qed.

Lemma tx_write_wf ks key value vt tx : vt <> Indirection -> tx_wf tx -> tx_seqno tx < u64_max -> tx_wf (tx_write ks key value vt tx).
Proof.
  intros Hvt Hwf Hs. pose proof (wf_seqno tx Hwf). destruct (default_table_wf ks tx Hwf) as [Hid Hi]. rewrite tx_write_tables.
  assert (mt_iter (mt_insert (mkMItem key value (tx_seqno tx) vt) (default_table ks tx).2) ≡ₚ
    mkMItem key value (tx_seqno tx) vt :: mt_iter (default_table ks tx).2) as Hp.
  { apply mt_iter_insert. intros j Hj _. specialize (Hi j Hj). simpl. lia. }
  constructor; cbn [tx_seqno memtables]; [lia|]. intros id h m. destruct (decide (id = keyspace_key ks)) as [->|Hne].
  - rewrite lookup_insert_eq. intros [= <- <-]. split; [done|]. split.
    + intros E. rewrite E in Hp. by apply Permutation_nil_cons in Hp.
    + intros i. rewrite Hp. intros [-> |Hin]%elem_of_cons; simpl; [split; [lia|done]|].
      destruct (Hi i Hin). split; [lia|done].
  - rewrite lookup_insert_ne by done. intros E. destruct (wf_table tx Hwf _ _ _ E) as (? & ? & Hm). split_and!; [done|done|].
    intros i Hin. destruct (Hm i Hin). split; [lia|done].
Qed.

Lemma own_item_head ks key (tx : Tx) :
  own_item ks key tx = head (of_mkey key (default_table ks tx).2).
Proof.
  unfold own_item, default_table. destruct (memtables tx !! keyspace_key ks) as [[h m]|]; simpl.
  - apply mt_get_first.
  - unfold of_mkey. by rewrite mt_iter_new.
Qed.

Lemma default_table_write ks key value vt (tx : Tx) ks' :
  default_table ks' (tx_write ks key value vt tx) =
  if decide (keyspace_key ks' = keyspace_key ks)
  then ((default_table ks tx).1, mt_insert (mkMItem key value (tx_seqno tx) vt) (default_table ks tx).2)
  else default_table ks' tx.
Proof.
  rewrite tx_write_tables. unfold default_table at 1. cbn [memtables]. case_decide as E.
  - by rewrite E, lookup_insert_eq.
  - by rewrite lookup_insert_ne by done.
Qed.

Lemma default_table_key ks ks' (tx : Tx) : keyspace_key ks = keyspace_key ks' -> (default_table ks tx).2 = (default_table ks' tx).2.
Proof. unfold default_table. intros ->. by destruct (memtables tx !! keyspace_key ks'). Qed.

(** The newest own write of a key after a write. *)
Lemma own_item_write ks key value vt (tx : Tx) ks' key' :
  tx_wf tx -> tx_seqno tx < u64_max ->
  own_item ks' key' (tx_write ks key value vt tx) =
  if decide (keyspace_key ks' = keyspace_key ks /\ key' = key) then Some (mkMItem key value (tx_seqno tx) vt) else own_item ks' key' tx.
Proof.
  intros Hwf Hs. rewrite !own_item_head, default_table_write. destruct (default_table_wf ks tx Hwf) as [_ Hi].
  destruct (decide (keyspace_key ks' = keyspace_key ks)) as [E|Hne]; [|by rewrite decide_False by naive_solver].
  cbn [snd]. rewrite of_mkey_insert by (simpl; first [done|intros j Hj; specialize (Hi j Hj); lia]). cbn [mi_key].
  rewrite (default_table_key ks' ks) by done.
  destruct (decide (key = key')) as [->|Hk]; [by rewrite decide_True|by rewrite decide_False by naive_solver].
Qed.

(** ** The abstract view *)

Definition own_value (ks : Keyspace) (key : bytes) (tx : Tx) : option (option bytes) :=
  (fun i => mi_value <$> ignore_tombstone_value i) <$> own_item ks key tx.

(** Own writes, by the name of the keyspace, over the snapshot of its tree. *)
Definition tx_view (tx : Tx) (t : T) (ks : Keyspace) (key : bytes) : option bytes :=
  match own_value ks key tx with
  | Some o => o
  | None => snapshot_get (versions t) (ks_id ks) key (tx_instant tx)
  end.

Lemma tx_get_view ks key tx t o :
  readable_from t (ks_id ks) <= tx_instant tx -> tx_get ks key tx t = Ok o -> o = tx_view tx t ks key.
Proof.
  intros Hr. unfold tx_get, tx_view, own_value. destruct (own_item ks key tx); simpl; [by intros [= <-]|].
  by apply get_versions.
Qed.

Lemma tx_write_view ks key value vt tx t ks' key' :
  tx_wf tx -> tx_seqno tx < u64_max ->
  tx_view (tx_write ks key value vt tx) t ks' key' =
  if decide (same_cell keyspace_key ks ks' key key') then (if is_tombstone vt then None else Some value) else tx_view tx t ks' key'.
Proof.
  intros Hwf Hs. unfold tx_view, own_value. rewrite own_item_write by done. unfold same_cell.
  case_decide; [unfold ignore_tombstone_value; simpl; by destruct vt|].
  rewrite tx_write_tables. done.
Qed.

(** ** Refinement of the operations *)

Definition run_tx (op : TxOp) (tx : Tx) (t : T) : Tx * Result (option bytes) :=
  match op with
  | TInsert ks key value => (tx_insert ks key value tx, Ok None)
  | TRemove ks key => (tx_remove ks key tx, Ok None)
  | TRemoveWeak ks key => (tx_remove_weak ks key tx, Ok None)
  | TGet ks key => (tx, tx_get ks key tx t)
  | TUpdateFetch ks key f => tx_update_fetch ks key f tx t
  | TFetchUpdate ks key f => tx_fetch_update ks key f tx t
  | TTake ks key => tx_take ks key tx t
  end.

(** What a transaction keeps and what of it is visible. *)
Definition tx_simulates (tx tx' : Tx) (t : T) (view : View) : Prop :=
  tx_wf tx' /\ tx_instant tx' = tx_instant tx /\ tx_seqno tx' <= tx_seqno tx + 1 /\
  forall ks key, tx_view tx' t ks key = view ks key.

Lemma write_simulates ks key value vt tx t :
  vt <> Indirection -> tx_wf tx -> tx_seqno tx < u64_max ->
  tx_simulates tx (tx_write ks key value vt tx) t
    (view_set keyspace_key (tx_view tx t) ks key (if is_tombstone vt then None else Some value)).
Proof.
  intros Hvt Hwf Hs. split; [by apply tx_write_wf|]. rewrite tx_write_tables. split; [done|]. split; [simpl; lia|].
  intros ks' key'. rewrite <- tx_write_tables. by apply tx_write_view.
Qed.

Lemma unchanged_simulates tx t : tx_wf tx -> tx_simulates tx tx t (tx_view tx t).
Proof. intros Hwf. split; [done|]. split; [done|]. split; [lia|done]. Qed.

Lemma tx_update_simulates ks key f tx t tx' r :
  tx_wf tx -> tx_seqno tx < u64_max -> readable_from t (ks_id ks) <= tx_instant tx ->
  tx_update ks key f tx t = (tx', r) ->
  match r with
  | Ok (prev, updated) => prev = tx_view tx t ks key /\ updated = f prev /\
      tx_simulates tx tx' t (view_update keyspace_key (tx_view tx t) ks key updated)
  | Err _ => tx' = tx
  end.
Proof.
  intros Hwf Hs Hr. unfold tx_update. destruct (tx_get ks key tx t) as [prev|e] eqn:Eg; intros [= <- <-]; [|done].
  apply tx_get_view in Eg as Hp; [|done]. split; [done|]. split; [done|]. unfold view_update. rewrite <- Hp.
  destruct (f prev) as [value|] eqn:Ef.
  - case_decide; [by apply unchanged_simulates|]. by apply (write_simulates _ _ _ Value).
  - destruct prev as [p|]; [rewrite decide_False by done; by apply (write_simulates _ _ _ Tombstone)|by apply unchanged_simulates].
Qed.

(** An operation of a transaction and its specification. *)
Lemma run_tx_simulates op tx t tx' r :
  tx_wf tx -> tx_seqno tx < u64_max -> readable_from t (ks_id (tx_keyspace op)) <= tx_instant tx ->
  run_tx op tx t = (tx', r) ->
  match r with
  | Ok o => o = (spec_tx keyspace_key op (tx_view tx t)).2 /\ tx_simulates tx tx' t (spec_tx keyspace_key op (tx_view tx t)).1
  | Err _ => tx' = tx
  end.
Proof.
  intros Hwf Hs Hr.
  destruct op as [ks key value|ks key|ks key|ks key|ks key f|ks key f|ks key]; cbn [run_tx spec_tx fst snd tx_keyspace] in *.
  - intros [= <- <-]. split; [done|]. by apply (write_simulates _ _ _ Value).
  - intros [= <- <-]. split; [done|]. by apply (write_simulates _ _ _ Tombstone).
  - intros [= <- <-]. split; [done|]. by apply (write_simulates _ _ _ WeakTombstone).
  - intros [= <- <-]. destruct (tx_get ks key tx t) as [o|e] eqn:Eg; [|done]. split; [by apply tx_get_view in Eg|].
    split; [done|]. split; [done|]. split; [lia|done].
  - unfold tx_update_fetch. destruct (tx_update ks key f tx t) as [tx1 r1] eqn:E. intros [= <- <-].
    apply tx_update_simulates in E; [|done..]. destruct r1 as [[prev updated]|e]; [|done].
    destruct E as (-> & -> & Hsim). done.
  - unfold tx_fetch_update. destruct (tx_update ks key f tx t) as [tx1 r1] eqn:E. intros [= <- <-].
    apply tx_update_simulates in E; [|done..]. destruct r1 as [[prev updated]|e]; [|done].
    destruct E as (-> & -> & Hsim). done.
  - unfold tx_take, tx_fetch_update. destruct (tx_update ks key _ tx t) as [tx1 r1] eqn:E. intros [= <- <-].
    apply tx_update_simulates in E; [|done..]. destruct r1 as [[prev updated]|e]; [|done].
    destruct E as (-> & -> & Hsim). done.
Qed.

(** C30: A write transaction refines a map: reads return the transaction's own writes to
    keyspaces of this name over the snapshot of the keyspace, every write and
    read-modify-write has exactly the effect and the result of the map operation, and an
    operation that fails changes nothing. *)
Theorem tx_refines_map op tx t tx' r :
  tx_wf tx -> tx_seqno tx < u64_max -> readable_from t (ks_id (tx_keyspace op)) <= tx_instant tx ->
  run_tx op tx t = (tx', r) ->
  match r with
  | Ok o => o = (spec_tx keyspace_key op (tx_view tx t)).2 /\ tx_simulates tx tx' t (spec_tx keyspace_key op (tx_view tx t)).1
  | Err _ => tx' = tx
  end.
Proof. apply run_tx_simulates. Qed.

(** Snapshot isolation: writes applied at or after the instant of a transaction do
    not change what it sees. *)
Theorem tx_snapshot_stable tx t t' l :
  versions t' = l ++ versions t -> (forall v, v ∈ l -> tx_instant tx <= v_seqno v) ->
  forall ks key, tx_view tx t' ks key = tx_view tx t ks key.
Proof.
  intros Hv Hl ks key. unfold tx_view. destruct (own_value ks key tx); [done|]. unfold snapshot_get.
  rewrite Hv, newest_app_skip; [done|]. intros v Hin _ Hlt. specialize (Hl v Hin). lia.
Qed.

(** ** Commit *)

Lemma newest_items_filter prev l key :
  StronglySorted mi_lt l -> (forall p i, prev = Some p -> i ∈ l -> bytes_le p (mi_key i)) ->
  filter (fun i => mi_key i = key) (newest_items prev l) =
  if decide (prev = Some key) then [] else option_list (head (filter (fun i => mi_key i = key) l)).
Proof.
  intros Hs. revert prev. induction Hs as [|i l Hs IH Hi]; intros prev Hp; [simpl; by case_decide|].
  rewrite Forall_forall in Hi.
  assert (forall j, j ∈ l -> bytes_le (mi_key i) (mi_key j)) as Hle.
  { intros j Hj. destruct (Hi j Hj) as [H1|[H1 _]]; [by apply bytes_lt_le|by rewrite H1]. }
  cbn [newest_items]. rewrite (filter_cons _ i l). destruct (decide (prev = Some (mi_key i))) as [E|E].
  - rewrite IH by (intros p j Hpj Hj; rewrite E in Hpj; injection Hpj as <-; by apply Hle).
    destruct (decide (prev = Some key)) as [|Hk]; [done|]. rewrite (decide_False (P := mi_key i = key)); [done|congruence].
  - rewrite filter_cons, IH by (intros p j [= <-] Hj; by apply Hle).
    destruct (decide (mi_key i = key)) as [Hk|Hk].
    + rewrite (decide_True (P := Some (mi_key i) = Some key)), (decide_False (P := prev = Some key)) by congruence. done.
    + rewrite (decide_False (P := Some (mi_key i) = Some key)) by congruence.
      destruct (decide (prev = Some key)) as [Hpk|Hpk]; [|done].
      destruct (filter (fun i => mi_key i = key) l) as [|j l'] eqn:Ef; [done|]. exfalso.
      assert (j ∈ filter (fun i => mi_key i = key) l) as Hj by (rewrite Ef; left).
      apply list_elem_of_filter in Hj as [<- Hj]. apply E. rewrite Hpk. f_equal.
      apply (anti_symm bytes_le); [apply (Hp (mi_key j) i Hpk); left|by apply Hle].
Qed.

(** A memtable item as an item of the batch. *)
Definition as_batch_item (ks : Keyspace) (i : MItem) : BItem := mkBItem ks (mi_key i) (mi_value i) (mi_type i).

Lemma mapM_batch_items ks items l : mapM (to_batch_item ks) items = Some l -> l = as_batch_item ks <$> items.
Proof.
  intros Hl%mapM_Some. induction Hl as [|i it items l Hi _ IH]; [done|]. rewrite fmap_cons, <- IH. f_equal.
  unfold to_batch_item, item_new in Hi. repeat case_decide; by simplify_eq.
Qed.

Definition cell_items (ks : Z) (key : bytes) (its : list BItem) : list BItem :=
  filter (fun it => ks_id (it_keyspace it) = ks /\ it_key it = key) its.

Lemma cell_items_table ks key (h : Keyspace) l :
  cell_items ks key (as_batch_item h <$> l) =
  if decide (ks_id h = ks) then as_batch_item h <$> filter (fun i => mi_key i = key) l else [].
Proof.
  unfold cell_items. induction l as [|i l IH]; [simpl; by case_decide|]. rewrite fmap_cons, !filter_cons, IH. simpl.
  repeat case_decide; naive_solver.
Qed.

Lemma cell_items_app ks key l1 l2 : cell_items ks key (l1 ++ l2) = cell_items ks key l1 ++ cell_items ks key l2.
Proof. apply filter_app. Qed.

(** The table whose handle, the one used first, is that of the keyspace [id]. *)
Definition table_of (id : Z) (tables : list (str * (Keyspace * M))) : option (Keyspace * M) :=
  '(_, kv) ← list_find (fun kv => ks_id kv.2.1 = id) tables; Some kv.2.

(** The items a commit writes to a cell: the newest own write. *)
Lemma tx_items_cell tables its id key :
  NoDup ((fun kv => ks_id kv.2.1) <$> tables) -> tx_items tables = Some its ->
  cell_items id key its =
  match table_of id tables with
  | Some (h, m) => option_list (as_batch_item h <$> head (filter (fun i => mi_key i = key) (mt_iter m)))
  | None => []
  end.
Proof.
  revert its. induction tables as [|[n [h m]] tables IH]; intros its Hnd; [by intros [= <-]|]. cbn [tx_items].
  destruct (mapM _ _) as [l|] eqn:El; [|done]. destruct (tx_items tables) as [rest|]; [|done]. intros [= <-].
  apply mapM_batch_items in El as ->. rewrite cell_items_app.
  rewrite cell_items_table, newest_items_filter by (done || apply mt_iter_sorted).
  rewrite (decide_False (P := None = Some key)) by done.
  rewrite fmap_cons in Hnd. cbn [fst snd] in Hnd. apply NoDup_cons in Hnd as [Hn Hnd].
  rewrite (IH rest) by done. unfold table_of. cbn [list_find fst snd].
  destruct (decide (ks_id h = id)) as [E|E].
  - assert (list_find (fun kv : str * (Keyspace * M) => ks_id kv.2.1 = id) tables = None) as ->.
    { apply list_find_None, Forall_forall. intros kv Hkv Ek. apply Hn. apply list_elem_of_fmap. exists kv. split; [congruence|done]. }
    cbn. rewrite app_nil_r. by destruct (head _).
  - cbn. by destruct (list_find _ tables) as [[? [? [? ?]]]|].
Qed.

(** The version an item adds to its tree. *)
Definition item_ver (s : Z) (it : BItem) : option Version :=
  match it_type it with
  | Value => Some (mkVersion (ks_id (it_keyspace it)) (it_key it) s Value (it_value it))
  | Indirection => None
  | vt => Some (mkVersion (ks_id (it_keyspace it)) (it_key it) s vt [])
  end.

Lemma apply_item_versions s it (t : T) : versions (apply_item s it t).1 = option_list (item_ver s it) ++ versions t.
Proof.
  unfold apply_item, item_ver. destruct (it_type it); cbn.
  - rewrite <- insert_versions. by destruct (tree_insert _ _ _ _ _).
  - rewrite <- remove_versions. by destruct (tree_remove _ _ _ _).
  - rewrite <- remove_weak_versions. by destruct (tree_remove_weak _ _ _ _).
  - done.
Qed.

Lemma apply_items_versions s its size (t : T) :
  versions (apply_items s its size t).1 = reverse (omap (item_ver s) its) ++ versions t.
Proof.
  revert size t. induction its as [|it its IH]; intros size t; [done|]. cbn [apply_items omap list_omap].
  pose proof (apply_item_versions s it t) as E. destruct (apply_item s it t) as [t1 sz]. rewrite (IH (size + sz) t1). cbn [fst] in E. rewrite E.
  destruct (item_ver s it); simpl; [|done]. by rewrite reverse_cons, <- app_assoc.
Qed.

Lemma batch_commit_versions b db db' :
  batch_commit b db = (db', Ok ()) ->
  versions (db_trees db') = reverse (omap (item_ver (db_seqno db)) (batch_data b)) ++ versions (db_trees db).
Proof.
  rewrite batch_commit_whole. case_decide as E; [intros [= <-]; by rewrite E|].
  unfold st_bind, check_poisoned. destruct (is_poisoned db); [done|]. cbn [next_seqno]. unfold ignore_error.
  unfold with_journal at 1. cbn [db_journal].
  destruct (write_batch _ _ _ _) as [w1 r1]. cbn [fst].
  destruct (durability b) as [mode|].
  - unfold persist_or_poison, with_journal. cbn [db_journal]. destruct (persist mode w1) as [w2 [[]|e]]; [|done].
    unfold with_trees in *. cbn. rewrite <- (apply_items_versions (db_seqno db) (batch_data b) 0).
    destruct (apply_items _ _ _ _) as [t sz]. by intros [= <-].
  - unfold st_ret, with_trees. cbn. rewrite <- (apply_items_versions (db_seqno db) (batch_data b) 0).
    destruct (apply_items _ _ _ _) as [t sz]. by intros [= <-].
Qed.

Lemma batch_commit_frame b (db db' : Database T) r :
  batch_commit b db = (db', r) -> batch_data b <> [] ->
  db_seqno db <= db_seqno db' /\
  match r with
  | Ok () => db_tracker db' = publish (db_seqno db) (db_tracker db) /\ db_seqno db' = db_seqno db + 1
  | Err _ => db_trees db' = db_trees db /\ db_tracker db' = db_tracker db
  end.
Proof.
  intros Hb Hne. rewrite batch_commit_whole, decide_False in Hb by done.
  unfold st_bind, check_poisoned in Hb. destruct (is_poisoned db); [injection Hb as <- <-; split; [lia|done]|].
  cbn [next_seqno] in Hb. unfold ignore_error in Hb. unfold with_journal at 1 in Hb. cbn [db_journal] in Hb.
  destruct (write_batch _ _ _ _) as [w1 r1]. cbn [fst] in Hb.
  destruct (durability b) as [mode|].
  - unfold persist_or_poison, with_journal in Hb. cbn [db_journal] in Hb. destruct (persist mode w1) as [w2 [[]|e]].
    + unfold with_trees in Hb. cbn in Hb. destruct (apply_items _ _ _ _). injection Hb as <- <-. cbn. split; [lia|done].
    + cbn in Hb. injection Hb as <- <-. cbn. split; [lia|done].
  - unfold st_ret, with_trees in Hb. cbn in Hb. destruct (apply_items _ _ _ _). injection Hb as <- <-. cbn. split; [lia|done].
Qed.

Lemma filter_cell_versions s ks key its :
  filter (fun v => of_key ks key v = true) (reverse (omap (item_ver s) its)) =
  reverse (omap (item_ver s) (cell_items ks key its)).
Proof.
  induction its as [|it its IH]; [done|]. unfold cell_items. rewrite filter_cons. fold (cell_items ks key its).
  cbn [omap list_omap]. destruct (item_ver s it) as [v|] eqn:Ev.
  - rewrite reverse_cons, filter_app, filter_cons, filter_nil. rewrite IH.
    assert (of_key ks key v = true <-> ks_id (it_keyspace it) = ks /\ it_key it = key) as Hk.
    { rewrite of_key_spec. unfold item_ver in Ev. destruct (it_type it); by simplify_eq/=. }
    destruct (decide (ks_id (it_keyspace it) = ks /\ it_key it = key)) as [Hc|Hc].
    + rewrite decide_True by (by apply Hk). cbn [omap list_omap]. by rewrite Ev, reverse_cons.
    + rewrite decide_False by (by rewrite Hk). by rewrite app_nil_r.
  - rewrite IH. case_decide; [|done]. cbn [omap list_omap]. by rewrite Ev.
Qed.

(** No two tables belong to the same keyspace: an id has one name. *)
Definition distinct_handles (tx : Tx) : Prop :=
  forall n n' h h' m m', memtables tx !! n = Some (h, m) -> memtables tx !! n' = Some (h', m') -> ks_id h = ks_id h' -> n = n'.

Lemma distinct_NoDup order (tx : Tx) :
  distinct_handles tx -> order ≡ₚ map_to_list (memtables tx) -> NoDup ((fun kv => ks_id kv.2.1) <$> order).
Proof.
  intros Hd Hp. rewrite Hp. clear Hp order. pose proof (NoDup_map_to_list (memtables tx)) as Hnd.
  assert (forall kv, kv ∈ map_to_list (memtables tx) -> memtables tx !! kv.1 = Some kv.2) as Hin by (intros [n hm]; apply elem_of_map_to_list).
  revert Hin. induction Hnd as [|[n [h m]] l Hn Hnd IH]; intros Hin; [constructor|]. rewrite fmap_cons. constructor; [|apply IH; intros kv Hkv; apply (Hin kv); by right].
  intros ([n' [h' m']] & E & Hl)%list_elem_of_fmap. cbn [fst snd] in E. apply Hn.
  pose proof (Hin (n, (h, m)) ltac:(left)) as H1. pose proof (Hin (n', (h', m')) ltac:(by right)) as H2. cbn in H1, H2.
  pose proof (Hd _ _ _ _ _ _ H1 H2 E) as <-. by simplify_eq.
Qed.

(** The order of the tables does not matter. *)
Lemma table_of_lookup order (tx : Tx) id :
  distinct_handles tx -> order ≡ₚ map_to_list (memtables tx) ->
  match table_of id order with
  | Some (h, m) => ks_id h = id /\ exists n, memtables tx !! n = Some (h, m)
  | None => forall n h m, memtables tx !! n = Some (h, m) -> ks_id h <> id
  end.
Proof.
  intros Hd Hp. unfold table_of. destruct (list_find _ order) as [[j [n [h m]]]|] eqn:E; cbn.
  - apply list_find_Some in E as (Hj & E & _). split; [done|]. exists n. apply elem_of_map_to_list. rewrite <- Hp. by eapply list_elem_of_lookup_2.
  - intros n h m Hl Eid. apply list_find_None in E. rewrite Forall_forall in E. apply (E (n, (h, m))); [|done]. rewrite Hp. by apply elem_of_map_to_list.
Qed.

(** What a commit leaves in a cell of the keyspace [id], if anything: what was written
    under the name of the handle that leads to it. *)
Definition committed (id : Z) (key : bytes) (tx : Tx) : option (option bytes) :=
  '(h, _) ← table_of id (map_to_list (memtables tx)); own_value h key tx.

(** A handle that the transaction does not take for another keyspace. *)
Record coherent (tx : Tx) (ks : Keyspace) : Prop := {
  co_same h m : memtables tx !! keyspace_key ks = Some (h, m) -> ks_id h = ks_id ks;
  co_only n h m : memtables tx !! n = Some (h, m) -> ks_id h = ks_id ks -> n = keyspace_key ks
}.

Lemma own_value_key ks ks' key (tx : Tx) : keyspace_key ks = keyspace_key ks' -> own_value ks key tx = own_value ks' key tx.
Proof. intros E. unfold own_value. by rewrite !own_item_head, (default_table_key ks ks') by done. Qed.

Lemma committed_coherent ks key tx : tx_wf tx -> distinct_handles tx -> coherent tx ks -> committed (ks_id ks) key tx = own_value ks key tx.
Proof.
  intros Hwf Hd [Hs Ho]. unfold committed. pose proof (table_of_lookup _ tx (ks_id ks) Hd (reflexivity _)) as Ht.
  destruct (table_of _ _) as [[h m]|]; cbn.
  - destruct Ht as [Eid (n & Hl)]. apply own_value_key. pose proof (Ho _ _ _ Hl Eid) as ->. by destruct (wf_table tx Hwf _ _ _ Hl) as [? _].
  - unfold own_value, own_item. destruct (memtables tx !! keyspace_key ks) as [[h m]|] eqn:E; [|done]. destruct (Ht _ _ _ E). by apply (Hs h m).
Qed.

(** Handles for which names and ids mean the same, like those of one catalogue. *)
Definition consistent (handles : Keyspace -> Prop) : Prop :=
  forall h h', handles h -> handles h' -> keyspace_key h = keyspace_key h' <-> ks_id h = ks_id h'.

Lemma consistent_one ks : consistent (eq ks).
Proof. by intros h h' <- <-. Qed.

(** The handles through which a transaction has written. *)
Definition uses (handles : Keyspace -> Prop) (tx : Tx) : Prop := forall n h m, memtables tx !! n = Some (h, m) -> handles h.

Section handles.
Context (handles : Keyspace -> Prop).

Lemma uses_empty (tx : Tx) : memtables tx = ∅ -> uses handles tx.
Proof. intros E n h m. by rewrite E, lookup_empty. Qed.

Lemma uses_write ks key value vt tx : handles ks -> uses handles tx -> uses handles (tx_write ks key value vt tx).
Proof.
  intros Hk Hu n h m. rewrite tx_write_tables. cbn [memtables]. rewrite lookup_insert_Some. intros [(_ & E)|(_ & Hl)]; [|by eapply Hu].
  injection E as <- _. unfold default_table. destruct (memtables tx !! keyspace_key ks) as [[h0 m0]|] eqn:E; [by eapply Hu|done].
Qed.

Context (handles_ok : consistent handles).

Lemma uses_distinct tx : tx_wf tx -> uses handles tx -> distinct_handles tx.
Proof.
  intros Hwf Hu n n' h h' m m' H1 H2 E. destruct (wf_table tx Hwf _ _ _ H1) as [<- _]. destruct (wf_table tx Hwf _ _ _ H2) as [<- _].
  by apply handles_ok; [eapply Hu..|].
Qed.

Lemma uses_coherent tx ks : tx_wf tx -> uses handles tx -> handles ks -> coherent tx ks.
Proof.
  intros Hwf Hu Hk. constructor.
  - intros h m Hl. destruct (wf_table tx Hwf _ _ _ Hl) as [E _]. by apply handles_ok; [eapply Hu| |].
  - intros n h m Hl E. destruct (wf_table tx Hwf _ _ _ Hl) as [<- _]. by apply handles_ok; [eapply Hu| |].
Qed.

Lemma committed_uses tx ks key : tx_wf tx -> uses handles tx -> handles ks -> committed (ks_id ks) key tx = own_value ks key tx.
Proof. intros Hwf Hu Hk. apply committed_coherent; [done|by apply uses_distinct|by apply uses_coherent]. Qed.

(** Other keyspaces are left alone. *)
Lemma committed_other tx id key :
  tx_wf tx -> uses handles tx -> (forall h, handles h -> ks_id h <> id) -> committed id key tx = None.
Proof.
  intros Hwf Hu Hid. unfold committed. pose proof (table_of_lookup _ tx id (uses_distinct tx Hwf Hu) (reflexivity _)) as Ht.
  destruct (table_of _ _) as [[h m]|]; [|done]. destruct Ht as [E (n & Hl)]. by destruct (Hid h (Hu _ _ _ Hl)).
Qed.
End handles.

(** A transaction on one keyspace. *)
Lemma committed_one ks tx id key :
  tx_wf tx -> uses (eq ks) tx -> committed id key tx = if decide (id = ks_id ks) then own_value ks key tx else None.
Proof.
  intros Hwf Hu. case_decide as E; [subst; by apply (committed_uses (eq ks) (consistent_one ks))|].
  apply (committed_other (eq ks) (consistent_one ks)); [done|done|]. by intros h <-.
Qed.

(** The value a commit leaves in a cell it wrote. *)
Lemma item_ver_value s h i :
  mi_type i <> Indirection ->
  exists v, item_ver s (as_batch_item h i) = Some v /\ v_seqno v = s /\
    visible_value v = (mi_value <$> ignore_tombstone_value i).
Proof.
  intros Ht. unfold item_ver, as_batch_item, ignore_tombstone_value, visible_value. simpl.
  destruct (mi_type i) eqn:E; [| | |done]; eexists; (split; [done|]); done.
Qed.

Lemma own_item_table tx (ks : Keyspace) key :
  tx_wf tx -> own_item ks key tx = head (filter (fun i => mi_key i = key) (mt_iter (default_table ks tx).2)).
Proof.
  intros Hwf. rewrite own_item_head. destruct (default_table_wf ks tx Hwf) as [_ Hi]. pose proof (wf_seqno tx Hwf) as Hs.
  f_equal. unfold of_mkey, mi_visible. induction (mt_iter (default_table ks tx).2) as [|i l IH]; [done|].
  rewrite !filter_cons, IH by (intros j Hj; apply Hi; by right).
  assert (mi_seqno i < u64_max) as Hlt by (destruct (Hi i ltac:(left)); lia).
  rewrite (bool_decide_eq_true_2 (mi_seqno i < u64_max)), andb_true_r by done.
  destruct (decide (mi_key i = key)) as [E|E].
  - rewrite decide_True by (by apply bool_decide_eq_true). done.
  - rewrite decide_False by (by rewrite bool_decide_eq_true). done.
Qed.

(** What a commit leaves to be read. *)
Lemma tx_commit_leaves order tx db db' :
  tx_wf tx -> distinct_handles tx -> order ≡ₚ map_to_list (memtables tx) ->
  (forall v, v ∈ versions (db_trees db) -> v_seqno v < db_seqno db) ->
  tx_commit order tx db = Some (db', Ok ()) ->
  forall id key instant,
    snapshot_get (versions (db_trees db')) id key instant =
    if decide (instant <= db_seqno db) then snapshot_get (versions (db_trees db)) id key instant
    else match committed id key tx with
         | Some o => o
         | None => snapshot_get (versions (db_trees db)) id key instant
         end.
Proof.
  intros Hwf Hd Hp Hdb Hc id key instant. unfold tx_commit in Hc.
  destruct (decide (memtables tx = ∅)) as [Hm|Hm].
  { injection Hc as <-. unfold committed. rewrite Hm, map_to_list_empty. cbn. by case_decide. }
  destruct (tx_items order) as [its|] eqn:Ei; [|done]. injection Hc as Hc. apply batch_commit_versions in Hc.
  pose proof (tx_items_cell order its id key (distinct_NoDup order tx Hd Hp) Ei) as Hcell.
  unfold snapshot_get. rewrite Hc. cbn [batch_data].
  rewrite (newest_batch _ _ (db_seqno db)); [|intros v Hv|done].
  2:{ apply elem_of_reverse, list_elem_of_omap in Hv as (it & _ & Hv). unfold item_ver in Hv. by destruct (it_type it); simplify_eq/=. }
  rewrite filter_cell_versions, Hcell. destruct (decide (instant <= db_seqno db)); [by rewrite decide_False by lia|].
  rewrite decide_True by lia. unfold committed.
  pose proof (table_of_lookup order tx id Hd Hp) as H1. pose proof (table_of_lookup _ tx id Hd (reflexivity _)) as H2.
  destruct (table_of id order) as [[h m]|].
  2:{ destruct (table_of id (map_to_list _)) as [[h m]|]; [|done]. destruct H2 as [E (k0 & Hl)]. by destruct (H1 _ _ _ Hl). }
  destruct H1 as [E1 (n0 & Hl)]. destruct (table_of id (map_to_list _)) as [[h' m']|]; [|by destruct (H2 _ _ _ Hl)].
  destruct H2 as [E2 (k & Hl')]. pose proof (Hd _ _ _ _ _ _ Hl Hl' ltac:(congruence)) as <-. rewrite Hl in Hl'. injection Hl' as <- <-.
  destruct (wf_table tx Hwf _ _ _ Hl) as (En & _ & Hi). cbn. unfold own_value. rewrite own_item_table by done.
  unfold default_table. rewrite En, Hl. cbn [default from_option Datatypes.id snd]. destruct (head (filter _ (mt_iter m))) as [i|] eqn:Eh; [|done].
  assert (mi_type i <> Indirection) as Ht.
  { assert (i ∈ filter (fun i => mi_key i = key) (mt_iter m)) as Hin by (destruct (filter _ (mt_iter m)); simplify_eq/=; left).
    apply list_elem_of_filter in Hin as [_ Hin]. by apply Hi. }
  destruct (item_ver_value (db_seqno db) h i Ht) as (v & Ev & _ & Hvis). cbn. rewrite Ev. cbn. done.
Qed.

Lemma tx_commit_reads order tx db db' :
  tx_wf tx -> distinct_handles tx -> order ≡ₚ map_to_list (memtables tx) ->
  (forall v, v ∈ versions (db_trees db) -> v_seqno v < db_seqno db) ->
  tx_commit order tx db = Some (db', Ok ()) ->
  forall ks key instant, coherent tx ks ->
    snapshot_get (versions (db_trees db')) (ks_id ks) key instant =
    if decide (instant <= db_seqno db) then snapshot_get (versions (db_trees db)) (ks_id ks) key instant
    else match own_value ks key tx with
         | Some o => o
         | None => snapshot_get (versions (db_trees db)) (ks_id ks) key instant
         end.
Proof. intros Hwf Hd Hp Hdb Hc ks key instant Hco. by rewrite <- committed_coherent, <- (tx_commit_leaves order tx db db'). Qed.

(** C21: A commit installs exactly the newest own writes of a transaction, atomically: every
    read from the commit on sees all of them and every other cell unchanged, every earlier
    snapshot sees none of them. What was written under the name of a keyspace goes to the
    tree of the handle that was used first for this name. *)
Theorem tx_commit_atomic order tx db db' :
  tx_wf tx -> distinct_handles tx -> order ≡ₚ map_to_list (memtables tx) ->
  (forall v, v ∈ versions (db_trees db) -> v_seqno v < db_seqno db) ->
  tx_commit order tx db = Some (db', Ok ()) ->
  forall id key instant,
    snapshot_get (versions (db_trees db')) id key instant =
    if decide (instant <= db_seqno db) then snapshot_get (versions (db_trees db)) id key instant
    else match committed id key tx with
         | Some o => o
         | None => snapshot_get (versions (db_trees db)) id key instant
         end.
Proof. apply tx_commit_leaves. Qed.
End theory.

(** ** An in-memory memtable *)

Definition mi_cmp (a b : MItem) : comparison :=
  match bytes_cmp (mi_key a) (mi_key b) with Eq => mi_seqno b ?= mi_seqno a | c => c end.

Lemma mi_cmp_lt a b : mi_cmp a b = Lt <-> mi_lt a b.
Proof.
  unfold mi_cmp, mi_lt, bytes_lt. destruct (bytes_cmp (mi_key a) (mi_key b)) eqn:E.
  - apply bytes_cmp_eq in E. rewrite Z.compare_lt_iff. naive_solver.
  - naive_solver.
  - split; [done|]. intros [?|[E' _]]; [done|]. rewrite E', bytes_cmp_refl in E. done.
Qed.

Lemma mi_cmp_eq a b : mi_cmp a b = Eq <-> mi_key a = mi_key b /\ mi_seqno a = mi_seqno b.
Proof.
  unfold mi_cmp. rewrite <- bytes_cmp_eq. destruct (bytes_cmp (mi_key a) (mi_key b)); [|naive_solver..].
  rewrite Z.compare_eq_iff. naive_solver.
Qed.

Lemma mi_cmp_gt a b : mi_cmp a b = Gt -> mi_lt b a.
Proof.
  intros E. apply mi_cmp_lt. unfold mi_cmp in *. rewrite (bytes_cmp_antisym (mi_key a)).
  destruct (bytes_cmp (mi_key a) (mi_key b)); simpl; try done. rewrite Z.compare_antisym, E. done.
Qed.

Fixpoint mi_insert (i : MItem) (l : list MItem) : list MItem :=
  match l with
  | [] => [i]
  | j :: l => match mi_cmp i j with Lt => i :: j :: l | Eq => i :: l | Gt => j :: mi_insert i l end
  end.

Definition sorted_items (m : list MItem) : list MItem := foldr mi_insert [] m.

#[export] Instance list_memtable_ops : MemtableOps (list MItem) := {
  mt_new := [];
  mt_insert := cons;
  mt_iter := sorted_items;
  mt_get key seqno m := head (filter (fun i => mi_visible key seqno i = true) (sorted_items m))
}.

Lemma mi_lt_trans a b c : mi_lt a b -> mi_lt b c -> mi_lt a c.
Proof.
  intros [H1|[H1 H1']] [H2|[H2 H2']].
  - left. by trans (mi_key b).
  - left. congruence.
  - left. congruence.
  - right. split; [congruence|lia].
Qed.

Lemma mi_insert_elem i l x : x ∈ mi_insert i l -> x = i \/ x ∈ l.
Proof.
  induction l as [|j l IH]; simpl; [set_solver|]. destruct (mi_cmp i j); rewrite !elem_of_cons; naive_solver.
Qed.

Lemma mi_insert_sorted i l : StronglySorted mi_lt l -> StronglySorted mi_lt (mi_insert i l).
Proof.
  induction 1 as [|j l Hs IH Hj]; simpl; [repeat constructor|]. rewrite Forall_forall in Hj.
  destruct (mi_cmp i j) eqn:E.
  - apply mi_cmp_eq in E as [E1 E2]. constructor; [done|]. apply Forall_forall. intros x Hx.
    destruct (Hj x Hx) as [H|[H1 H2]]; [left; congruence|right; split; [congruence|lia]].
  - apply mi_cmp_lt in E. constructor; [by constructor; [|apply Forall_forall]|]. apply Forall_forall.
    intros x [-> |Hx]%elem_of_cons; [done|]. eapply mi_lt_trans; [done|by apply Hj].
  - apply mi_cmp_gt in E. constructor; [done|]. apply Forall_forall. intros x [-> |Hx]%mi_insert_elem; [done|by apply Hj].
Qed.

#[export] Instance list_memtable_laws : MemtableLaws (list MItem).
Proof.
  split.
  - done.
  - intros i m Hf. simpl in *. induction (sorted_items m) as [|j l IH]; [done|]. simpl.
    destruct (mi_cmp i j) eqn:E.
    + apply mi_cmp_eq in E as [E1 E2]. exfalso. apply (Hf j); [left|done|done].
    + done.
    + rewrite IH by (intros x Hx; apply Hf; by right). apply perm_swap.
  - intros m. simpl. induction m as [|i m IH]; simpl; [constructor|]. by apply mi_insert_sorted.
  - done.
Qed.

(** ** Samples *)

Definition sample_tx : BaseTransaction (list MItem) := tx_insert sample_keyspace key_b [Byte.x39] (tx_new 3).
Definition sample_history : history := [mkVersion 1 key_a 4 Value [Byte.x32]; mkVersion 1 key_a 2 Value [Byte.x31]].

Lemma sample_tx_wf : tx_wf sample_tx.
Proof. apply tx_write_wf; [done|apply tx_new_wf|vm_compute; done]. Qed.

Lemma sample_tx_distinct : distinct_handles sample_tx.
Proof.
  intros n n' h h' m m'. unfold sample_tx, tx_insert. rewrite tx_write_tables. cbn [memtables tx_new].
  rewrite !lookup_insert_Some, !lookup_empty. naive_solver.
Qed.

(** A transaction holds a handle of a keyspace that was deleted and created again. What it
    writes through the old handle is read through the new one, and the commit puts what was
    written through the new handle into the tree of the deleted keyspace. *)
Definition new_keyspace : Keyspace := mkKeyspace 2 (ks_name sample_keyspace) false false.
Theorem stale_handle_captures :
  let tx := tx_insert new_keyspace key_a [Byte.x02] (tx_insert sample_keyspace key_b [Byte.x01] (tx_new 3)) in
  tx_get new_keyspace key_b tx ([] : history) = Ok (Some [Byte.x01]) /\
  committed 1 key_a tx = Some (Some [Byte.x02]) /\ committed 2 key_a tx = None.
Proof. vm_compute. done. Qed.

(** The transaction opened at 3 does not see version 4. *)
Lemma tx_refines_map_witness :
  let p := run_tx (TFetchUpdate sample_keyspace key_a (fun _ => Some [Byte.x33])) sample_tx sample_history in
  p.2 = Ok (Some [Byte.x31]) /\ tx_view p.1 sample_history sample_keyspace key_a = Some [Byte.x33].
Proof.
  intros p. assert (p.2 = Ok (Some [Byte.x31])) as E by (vm_compute; reflexivity). split; [exact E|].
  pose proof (tx_refines_map (TFetchUpdate sample_keyspace key_a (fun _ => Some [Byte.x33])) sample_tx sample_history p.1
    (Ok (Some [Byte.x31])) sample_tx_wf ltac:(vm_compute; done) ltac:(vm_compute; done) (result_pair p _ E)) as [_ (_ & _ & _ & H)].
  rewrite (H sample_keyspace key_a). reflexivity.
Defined.

Lemma tx_snapshot_stable_witness :
  tx_view sample_tx (mkVersion 1 key_a 5 Value [] :: sample_history) sample_keyspace key_a = Some [Byte.x31].
Proof.
  assert (versions (mkVersion 1 key_a 5 Value [] :: sample_history) = [mkVersion 1 key_a 5 Value []] ++ versions sample_history) as E
    by reflexivity.
  rewrite (tx_snapshot_stable sample_tx sample_history _ _ E); [vm_compute; reflexivity|].
  intros v ->%list_elem_of_singleton. vm_compute. done.
Defined.

Lemma tx_commit_atomic_witness :
  let db := mkDatabase (fresh_writer []) sample_history 5 (tracker_new 5) false 0 in
  exists db', tx_commit (map_to_list (memtables sample_tx)) sample_tx db = Some (db', Ok ()) /\
    snapshot_get (versions (db_trees db')) 1 key_b 6 = Some [Byte.x39] /\
    snapshot_get (versions (db_trees db')) 1 key_b 5 = None.
Proof.
  intros db. set (p := batch_commit (mkWriteBatch [mkBItem sample_keyspace key_b [Byte.x39] Value] None) db).
  assert (p.2 = Ok ()) as E by (vm_compute; reflexivity). exists p.1.
  assert (tx_commit (map_to_list (memtables sample_tx)) sample_tx db = Some (p.1, Ok ())) as Hc.
  { rewrite <- (result_pair p _ E). vm_compute. reflexivity. }
  pose proof (tx_commit_atomic (map_to_list (memtables sample_tx)) sample_tx db p.1 sample_tx_wf sample_tx_distinct (reflexivity _)) as H.
  assert (forall v, v ∈ versions (db_trees db) -> v_seqno v < db_seqno db) as Hdb.
  { intros v [-> |[-> |Hv]%elem_of_cons]%elem_of_cons; [vm_compute; done|vm_compute; done|by apply elem_of_nil in Hv]. }
  split; [exact Hc|]. split.
  - etrans; [exact (H Hdb Hc 1 key_b 6)|vm_compute; reflexivity].
  - etrans; [exact (H Hdb Hc 1 key_b 5)|vm_compute; reflexivity].
Defined.
