(* ===== verification/KeyspaceMap.v ===== *)
(** * Keyspaces as maps

    The write operations of a database refine updates of a map from cells to values:
    whatever I/O errors happen, an operation that returns [Ok] has exactly the effect of
    the map update and one that returns an error has none. *)

From stdpp Require Import base gmap list.
From S2P Require Import Prelude Errors Store JournalEntry JournalReader JournalWriter SnapshotTracker Mvcc Db DbProps WriteTxProps.

Section map.
Context `{JournalCodec} {T : Type} `{!TreeOps T, !TreeLaws T}.

(** Versions are below the visible sequence number, which is at most the next one. *)
Definition db_ok (db : Database T) : Prop :=
  (forall v, v ∈ versions (db_trees db) -> v_seqno v < seqno (db_tracker db)) /\ seqno (db_tracker db) <= db_seqno db.

(** The contents: reads at the newest instant, [SeqNo::MAX]. *)
Definition current (db : Database T) (ks : Z) (key : bytes) : option bytes :=
  snapshot_get (versions (db_trees db)) ks key u64_max.

Definition Contents : Type := Z -> bytes -> option bytes.

Definition put (ks : Z) (key : bytes) (o : option bytes) (m : Contents) : Contents :=
  fun ks' key' => if decide (ks' = ks /\ key' = key) then o else m ks' key'.

Definition put_item (m : Contents) (it : BItem) : Contents :=
  match it_type it with
  | Value => put (ks_id (it_keyspace it)) (it_key it) (Some (it_value it)) m
  | Tombstone | WeakTombstone => put (ks_id (it_keyspace it)) (it_key it) None m
  | Indirection => m
  end.

(** The specification of the operations. *)
Definition spec_op (op : DbOp) (m : Contents) : Contents :=
  match op with
  | OpInsert ks key value => put (ks_id ks) key (Some value) m
  | OpRemove ks key | OpRemoveWeak ks key => put (ks_id ks) key None m
  | OpClear ks => fun ks' key' => if decide (ks' = ks_id ks) then None else m ks' key'
  | OpBatch b => foldl put_item m (batch_data b)
  | OpPersist _ => m
  end.

(** ** Frames: what an operation changes besides the journal *)

Definition applies (f : T -> T) (db db' : Database T) (r : Result ()) : Prop :=
  db_seqno db <= db_seqno db' /\
  if is_ok r then
    db_trees db' = f (db_trees db) /\ db_tracker db' = publish (db_seqno db) (db_tracker db) /\ db_seqno db' = db_seqno db + 1
  else db_trees db' = db_trees db /\ db_tracker db' = db_tracker db.

Lemma applies_err f (db : Database T) e : applies f db db (Err e).
Proof. split; [lia|done]. Qed.

Lemma logged_write_applies ks key value vt f (db db' : Database T) r :
  logged_write ks key value vt f db = (db', r) -> applies (fun t => (f (db_seqno db) t).1) db db' r.
Proof.
  unfold logged_write. destruct (is_deleted ks); [intros [= <- <-]; apply applies_err|].
  unfold st_bind, check_poisoned. destruct (is_poisoned db); [intros [= <- <-]; apply applies_err|].
  cbn [next_seqno]. unfold with_journal at 1. cbn [db_journal]. destruct (write_raw _ _ _ _ _ _) as [w1 [n1|e]];
    [|intros [= <- <-]; split; [simpl; lia|done]].
  unfold auto_persist. destruct (manual_journal_persist ks).
  - unfold with_trees, st_ret. cbn. destruct (f _ _) as [t sz] eqn:Ef. intros [= <- <-]. split; [simpl; lia|]. cbn. by rewrite Ef.
  - unfold persist_or_poison, with_journal. cbn [db_journal]. destruct (persist Buffer w1) as [w2 [[]|e]].
    + unfold with_trees. cbn. destruct (f _ _) as [t sz] eqn:Ef. intros [= <- <-]. split; [simpl; lia|]. cbn. by rewrite Ef.
    + cbn. intros [= <- <-]. split; [simpl; lia|done].
Qed.

(** A clear that fails in the tree leaves the tree as it is. *)
Lemma clear_frame ks (db db' : Database T) r :
  keyspace_clear ks db = (db', r) ->
  db_seqno db <= db_seqno db' /\
  if is_ok r then
    versions (db_trees db') = drop_keyspace (ks_id ks) (versions (db_trees db)) /\
    db_tracker db' = publish (db_seqno db) (db_tracker db) /\ db_seqno db' = db_seqno db + 1
  else versions (db_trees db') = versions (db_trees db) /\ db_tracker db' = db_tracker db.
Proof.
  unfold keyspace_clear, st_bind, check_poisoned. destruct (is_poisoned db); [intros [= <- <-]; split; [lia|done]|].
  cbn [next_seqno]. unfold with_journal at 1. cbn [db_journal]. destruct (write_clear _ _ _) as [w1 [n1|e]];
    [|intros [= <- <-]; split; [simpl; lia|done]].
  unfold auto_persist. destruct (manual_journal_persist ks).
  - unfold with_trees, st_ret, st_lift. cbn. destruct (tree_clear (ks_id ks) (db_trees db)) as [t [[]|e]] eqn:Ec;
      apply clear_versions in Ec; intros [= <- <-]; (split; [simpl; lia|done]).
  - unfold persist_or_poison, with_journal. cbn [db_journal]. destruct (persist Buffer w1) as [w2 [[]|e]].
    + unfold with_trees, st_lift. cbn. destruct (tree_clear (ks_id ks) (db_trees db)) as [t [[]|e]] eqn:Ec;
        apply clear_versions in Ec; intros [= <- <-]; (split; [simpl; lia|done]).
    + cbn. intros [= <- <-]. split; [simpl; lia|done].
Qed.

(** ** The operations refine the map *)

(** Contents after adding versions of one sequence number on top. *)
Lemma current_batch (db db' : Database T) l s :
  db_ok db -> s = db_seqno db -> s < u64_max -> (forall v, v ∈ l -> v_seqno v = s) ->
  versions (db_trees db') = l ++ versions (db_trees db) ->
  forall ks key, current db' ks key =
    match head (filter (fun v => of_key ks key v = true) l) with Some v => visible_value v | None => current db ks key end.
Proof.
  intros [Hv Hs] -> Hmax Hl Hh ks key. unfold current, snapshot_get. rewrite Hh, (newest_batch _ _ (db_seqno db)).
  - rewrite decide_True by done. by destruct (head _).
  - done.
  - intros v Hin. specialize (Hv v Hin). lia.
Qed.

Lemma put_items_head its s (m : Contents) ks key :
  foldl put_item m its ks key =
  match head (filter (fun v => of_key ks key v = true) (reverse (omap (item_ver s) its))) with
  | Some v => visible_value v
  | None => m ks key
  end.
Proof.
  induction its as [|it its IH] using rev_ind; [done|]. rewrite foldl_app, omap_app, reverse_app, filter_app. cbn [foldl omap list_omap].
  unfold put_item, item_ver, put. destruct (it_type it); cbn [reverse rev_append]; try done.
  all: rewrite filter_cons, filter_nil; unfold of_key; cbn [v_keyspace v_key].
  all: destruct (decide (ks = ks_id (it_keyspace it) /\ key = it_key it)) as [[-> ->]|Hne];
    [rewrite !bool_decide_eq_true_2 by done; by cbn|].
  all: rewrite decide_False by (rewrite andb_true_iff, !bool_decide_eq_true; naive_solver); exact IH.
Qed.

(** What an operation does to the database: the invariant and the contents. *)
Definition refines (spec : Contents -> Contents) (db db' : Database T) (r : Result ()) : Prop :=
  db_ok db' /\ forall ks key, current db' ks key = (if is_ok r then spec (current db) else current db) ks key.

Lemma refines_same spec (db db' : Database T) r :
  db_ok db -> is_ok r = false -> versions (db_trees db') = versions (db_trees db) -> db_tracker db' = db_tracker db ->
  db_seqno db <= db_seqno db' -> refines spec db db' r.
Proof.
  intros [Hv Hs] Hr Ht Htr Hq. split; [split; [by rewrite Ht, Htr|rewrite Htr; lia]|].
  intros ks key. rewrite Hr. unfold current. by rewrite Ht.
Qed.

Lemma refines_batch spec (db db' : Database T) l :
  db_ok db -> db_seqno db < u64_max -> versions (db_trees db') = l ++ versions (db_trees db) ->
  (forall v, v ∈ l -> v_seqno v = db_seqno db) ->
  db_tracker db' = publish (db_seqno db) (db_tracker db) -> db_seqno db' = db_seqno db + 1 ->
  (forall ks key, spec (current db) ks key =
    match head (filter (fun v => of_key ks key v = true) l) with Some v => visible_value v | None => current db ks key end) ->
  refines spec db db' (Ok ()).
Proof.
  intros Hok Hmax Hv Hl Htr Hq Hspec. pose proof Hok as [Hold Hs]. split.
  - split; rewrite ?Htr, ?Hq; unfold publish, tracker_set; simpl; [|lia]. rewrite Hv.
    intros v [Hin|Hin]%elem_of_app; [rewrite (Hl v Hin); lia|]. specialize (Hold v Hin). lia.
  - intros ks key. cbn [is_ok]. rewrite Hspec. by eapply current_batch.
Qed.

Lemma refines_write spec (db db' : Database T) r f v :
  db_ok db -> db_seqno db < u64_max -> applies f db db' r ->
  versions (f (db_trees db)) = v :: versions (db_trees db) -> v_seqno v = db_seqno db ->
  (forall m, spec m = put (v_keyspace v) (v_key v) (visible_value v) m) -> refines spec db db' r.
Proof.
  intros Hok Hmax [Hq Ha] Hv Hs Hspec. destruct r as [[]|e]; cbn [is_ok] in Ha.
  - destruct Ha as (Ht & Htr & Hseq). apply (refines_batch _ _ _ [v]); [done|done|by rewrite Ht|..]; [|done|done|].
    + by intros w ->%list_elem_of_singleton.
    + intros ks key. rewrite Hspec. unfold put. rewrite filter_cons, filter_nil. unfold of_key.
      case_decide as E; [destruct E as [-> ->]; by rewrite !bool_decide_eq_true_2|].
      rewrite decide_False by (rewrite andb_true_iff, !bool_decide_eq_true; naive_solver). done.
  - destruct Ha as [Ht Htr]. apply refines_same; [done|done|by rewrite Ht|done|done].
Qed.

Lemma refines_clear ks (db db' : Database T) r :
  db_ok db -> keyspace_clear ks db = (db', r) -> refines (spec_op (OpClear ks)) db db' r.
Proof.
  intros Hok Hr. pose proof Hok as [Hv Hs]. destruct (clear_frame _ _ _ _ Hr) as [Hq Hf]. destruct r as [[]|e]; cbn [is_ok] in Hf.
  - destruct Hf as (Ht & Htr & Hseq). split.
    + split; rewrite ?Htr, ?Hseq; unfold publish, tracker_set; simpl; [|lia]. rewrite Ht.
      intros v [_ Hin]%list_elem_of_filter. specialize (Hv v Hin). lia.
    + intros ks' key. cbn [is_ok spec_op]. unfold current, snapshot_get. rewrite Ht. unfold drop_keyspace.
      destruct (decide (ks' = ks_id ks)) as [->|Hne].
      * destruct (newest _ _ key u64_max) as [v|] eqn:E; [|done]. apply newest_Some in E as ([Hin _]%list_elem_of_filter & [E _]%of_key_spec & _).
        done.
      * rewrite newest_filter; [done|]. intros v _ [E _]%of_key_spec _. congruence.
  - destruct Hf as [Ht Htr]. by apply refines_same.
Qed.

Lemma refines_commit b (db db' : Database T) r :
  db_ok db -> db_seqno db < u64_max -> batch_commit b db = (db', r) -> refines (spec_op (OpBatch b)) db db' r.
Proof.
  intros Hok Hmax Hr. destruct (decide (batch_data b = [])) as [E|E].
  { rewrite batch_commit_whole, decide_True in Hr by done. injection Hr as <- <-. split; [done|]. cbn. by rewrite E. }
  destruct (batch_commit_frame _ _ _ _ Hr E) as [Hq Hf]. destruct r as [[]|e].
  - destruct Hf as [Htr Hseq]. eapply refines_batch; [done|done|by apply batch_commit_versions|..]; [|done|done|].
    + intros v Hin. apply elem_of_reverse, list_elem_of_omap in Hin as (it & _ & Hin). unfold item_ver in Hin.
      by destruct (it_type it); simplify_eq/=.
    + intros ks key. apply put_items_head.
  - destruct Hf as [Ht Htr]. apply refines_same; [done|done|by rewrite Ht|done|done].
Qed.

Lemma refines_persist mode (db db' : Database T) r :
  db_ok db -> db_persist mode db = (db', r) -> refines (spec_op (OpPersist mode)) db db' r.
Proof.
  intros [Hv Hs]. unfold db_persist, st_bind, check_poisoned. destruct (is_poisoned db); [intros [= <- <-]; done|].
  unfold persist_or_poison, with_journal. destruct (persist mode (db_journal db)) as [w [[]|e]]; intros [= <- <-]; done.
Qed.

(** C23: The write API refines a map: inserts, removals, clears and batches (the last
    write of a key in a batch wins) change the contents exactly like the map when they
    return [Ok] and not at all when they fail, whatever the I/O failures; a snapshot
    taken afterwards sees the same contents. *)
Theorem operations_refine_map op (db db' : Database T) r :
  db_ok db -> db_seqno db < u64_max -> run_op op db = (db', r) ->
  db_ok db' /\
  (forall ks key, current db' ks key = (if is_ok r then spec_op op (current db) else current db) ks key) /\
  (seqno (db_tracker db') <= u64_max -> forall ks key,
    snapshot_get (versions (db_trees db')) ks key (tracker_open (db_tracker db')).2 = current db' ks key).
Proof.
  intros Hok Hmax Hr. assert (refines (spec_op op) db db' r) as [Hok' Hc].
  { destruct op as [ks key value|ks key|ks key|ks|b|mode]; cbn [run_op] in Hr.
    - by eapply refines_write; [| |by eapply logged_write_applies|apply insert_versions| |].
    - by eapply refines_write; [| |by eapply logged_write_applies|apply remove_versions| |].
    - by eapply refines_write; [| |by eapply logged_write_applies|apply remove_versions| |].
    - by apply refines_clear.
    - by apply refines_commit.
    - by apply refines_persist. }
  split; [done|]. split; [done|]. intros Hle ks key. unfold current, snapshot_get. f_equal. apply newest_instants; [done|].
  intros v Hv _ _. by apply Hok'.
Qed.
End map.

(** ** A sample: a batch that writes a key twice *)

Lemma sample_db_ok faults : db_ok (sample_db faults).
Proof. split; [by intros v Hv%elem_of_nil|simpl; lia]. Qed.

Lemma operations_refine_map_witness :
  let op := OpBatch (mkWriteBatch [mkBItem sample_keyspace key_a [Byte.x31] Value; mkBItem sample_keyspace key_a [Byte.x32] Value] None) in
  let p := run_op (T := history) op (sample_db []) in
  p.2 = Ok () /\ current p.1 1 key_a = Some [Byte.x32].
Proof.
  intros op p. assert (p.2 = Ok ()) as E by (vm_compute; reflexivity). split; [exact E|].
  destruct (operations_refine_map op (sample_db []) p.1 (Ok ()) (sample_db_ok []) ltac:(vm_compute; done) (result_pair p _ E))
    as (_ & H & _). rewrite (H 1 key_a). vm_compute. reflexivity.
Defined.
