(* ===== verification/Optimistic.v ===== *)
(** * Optimistic transactions

    Models [src/src/tx/optimistic/oracle.rs], [write_tx.rs] and [mod.rs]: transactions
    that record what they read and write and are validated at commit against the
    transactions committed since their snapshot was opened. [None] is a panic.

    The commit mutex of the oracle is held while a transaction is opened and while it
    commits, so both are atomic steps. *)

From stdpp Require Import base gmap list sorting.
From S2P Require Import Prelude Errors Utf8 Composite Store JournalEntry JournalReader JournalWriter SnapshotTracker BTree ConflictManager Mvcc Db WriteTx.

Inductive CommitOutcome := OutcomeOk | OutcomeAborted (e : Error) | OutcomeConflicted.

(** [Result<(), Conflict>]. *)
Inductive CommitResult := Committed | Conflict.

(** [OptimisticTxDatabase]: the database and the oracle's committed transactions by the
    sequence number they were published at; the tracker is that of the database. *)
Record OptimisticDb (T : Type) := mkOptimisticDb {
  inner_db : Database T;
  committed_txns : list (Z * ConflictManager)
}.
Arguments mkOptimisticDb {T}.
Arguments inner_db {T}.
Arguments committed_txns {T}.

Record WriteTransaction (M : Type) := mkWriteTransaction { inner : BaseTransaction M; cm : ConflictManager }.
Arguments mkWriteTransaction {M}.
Arguments inner {M}.
Arguments cm {M}.

Section optimistic.
Context `{JournalCodec} {T M : Type} `{!TreeOps T, !MemtableOps M, !TreeReads T M} `{!PrefixRange}.

Abbreviation Tx := (WriteTransaction M).
Abbreviation ODb := (OptimisticDb T).

Definition with_tracker (f : SnapshotTracker -> SnapshotTracker) (db : Database T) : Database T :=
  mkDatabase (db_journal db) (db_trees db) (db_seqno db) (f (db_tracker db)) (is_poisoned db) (write_buffer_size db).

(** [OptimisticTxDatabase::write_tx]. *)
Definition write_tx (manual_persist : bool) (s : ODb) : ODb * Tx :=
  let '(tracker, instant) := tracker_open (db_tracker (inner_db s)) in
  let tx := tx_new instant in
  let tx := if manual_persist then tx else tx_with_durability (Some Buffer) tx in
  (mkOptimisticDb (with_tracker (fun _ => tracker) (inner_db s)) (committed_txns s), mkWriteTransaction tx cm_default).

(** ** Reads *)

Definition with_cm (f : ConflictManager -> ConflictManager) (tx : Tx) : Tx := mkWriteTransaction (inner tx) (f (cm tx)).
Definition with_inner (b : BaseTransaction M) (tx : Tx) : Tx := mkWriteTransaction b (cm tx).

Definition otx_get (ks : Keyspace) (key : bytes) (t : T) (tx : Tx) : Tx * Result (option bytes) :=
  match tx_get ks key (inner tx) t with
  | Ok res => (with_cm (mark_read (ks_id ks) key) tx, Ok res)
  | Err e => (tx, Err e)
  end.

Definition otx_contains_key (ks : Keyspace) (key : bytes) (t : T) (tx : Tx) : Tx * Result bool :=
  match tx_contains_key ks key (inner tx) t with
  | Ok contains => (with_cm (mark_read (ks_id ks) key) tx, Ok contains)
  | Err e => (tx, Err e)
  end.

(** [size_of] records no read. *)
Definition otx_size_of (ks : Keyspace) (key : bytes) (t : T) (tx : Tx) : Tx * Result (option Z) :=
  (tx, tx_size_of ks key (inner tx) t).

Definition otx_range (ks : Keyspace) (r : key_range) (t : T) (tx : Tx) : Tx * list (Result entry) :=
  (with_cm (mark_range (ks_id ks) r.1 r.2) tx, tx_range ks r (inner tx) t).

Definition otx_iter (ks : Keyspace) (t : T) (tx : Tx) : Tx * list (Result entry) :=
  (with_cm (mark_range (ks_id ks) Unbounded Unbounded) tx, tx_iter ks (inner tx) t).

Definition otx_prefix (ks : Keyspace) (prefix : bytes) (t : T) (tx : Tx) : Tx * list (Result entry) :=
  otx_range ks (prefix_to_range prefix) t tx.

Definition otx_first_key_value (ks : Keyspace) (t : T) (tx : Tx) : Tx * option (Result entry) :=
  let '(tx, items) := otx_iter ks t tx in (tx, head items).
Definition otx_last_key_value (ks : Keyspace) (t : T) (tx : Tx) : Tx * option (Result entry) :=
  let '(tx, items) := otx_iter ks t tx in (tx, last items).

(** ** Writes *)

Definition otx_insert (ks : Keyspace) (key value : bytes) (tx : Tx) : Tx :=
  with_cm (mark_conflict (ks_id ks) key) (with_inner (tx_insert ks key value (inner tx)) tx).
Definition otx_remove (ks : Keyspace) (key : bytes) (tx : Tx) : Tx :=
  with_cm (mark_conflict (ks_id ks) key) (with_inner (tx_remove ks key (inner tx)) tx).
Definition otx_remove_weak (ks : Keyspace) (key : bytes) (tx : Tx) : Tx :=
  with_cm (mark_conflict (ks_id ks) key) (with_inner (tx_remove_weak ks key (inner tx)) tx).

Definition mark_both (ks : Keyspace) (key : bytes) (c : ConflictManager) : ConflictManager :=
  mark_conflict (ks_id ks) key (mark_read (ks_id ks) key c).

Definition otx_update_fetch (ks : Keyspace) (key : bytes) (f : option bytes -> option bytes) (t : T) (tx : Tx) :
    Tx * Result (option bytes) :=
  match tx_update_fetch ks key f (inner tx) t with
  | (b, Ok updated) => (with_cm (mark_both ks key) (with_inner b tx), Ok updated)
  | (b, Err e) => (with_inner b tx, Err e)
  end.

Definition otx_fetch_update (ks : Keyspace) (key : bytes) (f : option bytes -> option bytes) (t : T) (tx : Tx) :
    Tx * Result (option bytes) :=
  match tx_fetch_update ks key f (inner tx) t with
  | (b, Ok prev) => (with_cm (mark_both ks key) (with_inner b tx), Ok prev)
  | (b, Err e) => (with_inner b tx, Err e)
  end.

Definition otx_take (ks : Keyspace) (key : bytes) (t : T) (tx : Tx) : Tx * Result (option bytes) :=
  otx_fetch_update ks key (fun _ => None) t tx.

(** ** Commit *)

(** [range(..).any(|other| conflict_checker.has_conflict(other))]. *)
Fixpoint any_conflict (c : ConflictManager) (entries : list (Z * ConflictManager)) : option bool :=
  match entries with
  | [] => Some false
  | (_, other) :: entries =>
      match has_conflict c other with
      | None => None
      | Some true => Some true
      | Some false => any_conflict c entries
      end
  end.

(** Dropping a nonce closes its snapshot; [order] is the map order a collection sees. *)
Definition drop_nonce (order : SnapshotTracker -> list (Z * nat)) (instant : Z) (db : Database T) : Database T :=
  with_tracker (close_raw order instant) db.

(** [Oracle::with_commit]; [f] is the commit of the base transaction, which owns the
    nonce: it is dropped when [f] has run, or with [f] on a conflict. *)
Definition with_commit (order : SnapshotTracker -> list (Z * nat)) (instant : Z) (conflict_checker : ConflictManager)
    (f : Database T -> option (Database T * Result ())) (s : ODb) : option (ODb * CommitOutcome) :=
  conflicted ← any_conflict conflict_checker (bt_range_from (instant + 1) (committed_txns s));
  let db := with_tracker (close_raw order instant) (inner_db s) in
  let safe_to_gc := get_seqno_safe_to_gc (db_tracker db) in
  let committed := bt_retain (fun ts => bool_decide (safe_to_gc < ts)) (committed_txns s) in
  if (conflicted : bool) then Some (mkOptimisticDb (drop_nonce order instant db) committed, OutcomeConflicted)
  else
    '(db, r) ← f db;
    match r with
    | Err e => Some (mkOptimisticDb db committed, OutcomeAborted e)
    | Ok () => Some (mkOptimisticDb db (bt_insert (tracker_get (db_tracker db)) conflict_checker committed), OutcomeOk)
    end.

(** [BaseTransaction::commit] and the drop of its nonce. *)
Definition inner_commit (order : SnapshotTracker -> list (Z * nat)) (tables : list (str * (Keyspace * M)))
    (b : BaseTransaction M) (db : Database T) : option (Database T * Result ()) :=
  '(db, r) ← tx_commit tables b db;
  Some (drop_nonce order (tx_instant b) db, r).

(** [WriteTransaction::commit]; [tables] is the order of the memtables' hash map. *)
Definition otx_commit (order : SnapshotTracker -> list (Z * nat)) (tables : list (str * (Keyspace * M))) (tx : Tx) (s : ODb) :
    option (ODb * Result CommitResult) :=
  if decide (memtables (inner tx) = ∅) then
    Some (mkOptimisticDb (drop_nonce order (tx_instant (inner tx)) (inner_db s)) (committed_txns s), Ok Committed)
  else
    '(s, outcome) ← with_commit order (tx_instant (inner tx)) (cm tx) (inner_commit order tables (inner tx)) s;
    match outcome with
    | OutcomeOk => Some (s, Ok Committed)
    | OutcomeAborted e => Some (s, Err e)
    | OutcomeConflicted => Some (s, Ok Conflict)
    end.

(** [rollback]: the transaction is dropped. *)
Definition otx_rollback (order : SnapshotTracker -> list (Z * nat)) (tx : Tx) (s : ODb) : ODb :=
  mkOptimisticDb (drop_nonce order (tx_instant (inner tx)) (inner_db s)) (committed_txns s).
End optimistic.
