(* ===== verification/OptimisticProps.v ===== *)
(** * Validation of optimistic transactions

    The log of committed transactions stays complete from the watermark on, transactions
    record what they read and write, and a commit that passes validation finds all it read
    unchanged. [OptimisticSerial] draws the conclusion for whole transactions. *)

From stdpp Require Import base gmap list sorting.
From S2P Require Import Prelude Errors Utf8 Composite Store JournalEntry JournalReader JournalWriter SnapshotTracker BTree ConflictManager Mvcc Db DbProps WriteTx WriteTxProps Optimistic.

Section theory.
Context `{JournalCodec} {T M : Type} `{!TreeOps T, !TreeLaws T, !MemtableOps M, !MemtableLaws M}.

Abbreviation Tx := (WriteTransaction M).
Abbreviation ODb := (OptimisticDb T).

(** ** The invariant of a transaction: written keys are recorded

    A written key is recorded for the keyspace of the handle it was written through; the
    commit writes it to that of the handle used first for this name. *)

Record otx_wf (tx : Tx) : Prop := {
  otx_inner : tx_wf (inner tx);
  otx_cm : cm_wf (cm tx);
  otx_marked n h m i : memtables (inner tx) !! n = Some (h, m) -> i ∈ mt_iter m -> mi_key i ∈ writes_of (cm tx) (ks_id h)
}.

(** The transaction has not written through another keyspace's handle of the same name. *)
Definition leads_to (b : BaseTransaction M) (ks : Keyspace) : Prop := forall h m, memtables b !! keyspace_key ks = Some (h, m) -> ks_id h = ks_id ks.

Lemma leads_empty (b : BaseTransaction M) ks : memtables b = ∅ -> leads_to b ks.
Proof. intros E h m. by rewrite E, lookup_empty. Qed.

Lemma leads_uses handles (b : BaseTransaction M) ks : consistent handles -> tx_wf b -> uses handles b -> handles ks -> leads_to b ks.
Proof. intros Hc Hwf Hu Hk. intros h m. by apply (co_same b ks (uses_coherent handles Hc b ks Hwf Hu Hk)). Qed.

Lemma write_tx_wf manual (s : ODb) : otx_wf (write_tx (M := M) manual s).2.
Proof.
  unfold write_tx. destruct (tracker_open _) as [tr i]. cbn [snd].
  assert (forall b : BaseTransaction M, memtables b = ∅ -> tx_wf b -> otx_wf (mkWriteTransaction b cm_default)) as Hnew.
  { intros b Hb Hwf. constructor; [done|apply cm_default_wf|]. intros id h m x E. simpl in E. by rewrite Hb, lookup_empty in E. }
  pose proof (tx_new_wf (M := M) i) as Hwf. destruct manual; (apply Hnew; [done|]); [done|]. destruct Hwf. by constructor.
Qed.

Lemma writes_of_push ks r c ks' : writes_of (push_read ks r c) ks' = writes_of c ks'.
Proof. done. Qed.

Lemma mark_read_otx_wf ks r (tx : Tx) : valid_read r = true -> otx_wf tx -> otx_wf (with_cm (push_read ks r) tx).
Proof. intros Hr [H1 H2 H3]. constructor; [done|by apply push_read_wf|done]. Qed.

Lemma write_otx_wf ks key value vt (tx : Tx) c :
  vt <> Indirection -> otx_wf tx -> leads_to (inner tx) ks -> tx_seqno (inner tx) < u64_max -> cm_wf c ->
  (forall ks', writes_of (cm tx) ks' ⊆ writes_of c ks') ->
  otx_wf (mkWriteTransaction (tx_write ks key value vt (inner tx)) (mark_conflict (ks_id ks) key c)).
Proof.
  intros Hvt [H1 H2 H3] Hag Hs Hc Hsub. constructor; cbn [inner cm]; [by apply tx_write_wf|by apply mark_conflict_wf|].
  intros n h m i. destruct (default_table_wf ks (inner tx) H1) as [_ Hi].
  rewrite tx_write_tables. cbn [memtables]. destruct (decide (n = keyspace_key ks)) as [->|Hne].
  - rewrite lookup_insert_eq. intros [= <- <-].
    assert (ks_id (default_table ks (inner tx)).1 = ks_id ks) as ->.
    { unfold default_table. destruct (memtables (inner tx) !! keyspace_key ks) as [[h' m']|] eqn:E; [by apply (Hag h' m')|done]. }
    rewrite writes_of_mark, decide_True by done. rewrite mt_iter_insert by (intros j Hj _; destruct (Hi j Hj); simpl; lia).
    intros [-> |Hin]%elem_of_cons; [set_solver|]. apply elem_of_union_r, Hsub. unfold default_table in Hin.
    destruct (memtables (inner tx) !! keyspace_key ks) as [[h' m']|] eqn:E; simpl in Hin; [rewrite <- (Hag h' m' E); by eapply H3|].
    rewrite mt_iter_new in Hin. by apply elem_of_nil in Hin.
  - rewrite lookup_insert_ne by done. intros E Hin. rewrite writes_of_mark by done.
    assert (mi_key i ∈ writes_of c (ks_id h)) by (apply Hsub; by eapply H3). case_decide; [by apply elem_of_union_r|done].
Qed.

(** ** The invariant of the database and the oracle

    [start] is the sequence number at which the oracle started: every version written
    since, from the watermark on, was written by a transaction in the log that is
    published above it. *)

Record opt_inv (start : Z) (s : ODb) : Prop := {
  oi_sorted : bt_sorted (committed_txns s);
  oi_below ts c : (ts, c) ∈ committed_txns s -> ts <= seqno (db_tracker (inner_db s));
  oi_visible : seqno (db_tracker (inner_db s)) <= db_seqno (inner_db s);
  oi_versions v : v ∈ versions (db_trees (inner_db s)) -> v_seqno v < seqno (db_tracker (inner_db s));
  oi_covered v : v ∈ versions (db_trees (inner_db s)) -> start <= v_seqno v ->
    get_seqno_safe_to_gc (db_tracker (inner_db s)) <= v_seqno v ->
    exists ts c, (ts, c) ∈ committed_txns s /\ v_seqno v < ts /\ v_key v ∈ writes_of c (v_keyspace v)
}.

Lemma any_conflict_false c entries :
  cm_wf c -> any_conflict c entries = Some false -> forall ts other, (ts, other) ∈ entries -> ~ conflicts c other.
Proof.
  intros Hc. induction entries as [|[ts' other'] entries IH]; intros Ha ts other Hin; [by apply elem_of_nil in Hin|].
  cbn [any_conflict] in Ha. destruct (has_conflict_iff c other' Hc) as (b & Hb & Hspec). rewrite Hb in Ha.
  destruct b; [done|]. apply elem_of_cons in Hin as [[= -> ->]|Hin]; [|by eapply IH].
  intros Hco. by apply Hspec in Hco.
Qed.

(** A validated transaction: nothing it read was written since its snapshot. *)
Lemma validated_reads start (s : ODb) (tx : Tx) :
  opt_inv start s -> otx_wf tx -> start <= tx_instant (inner tx) ->
  get_seqno_safe_to_gc (db_tracker (inner_db s)) <= tx_instant (inner tx) ->
  any_conflict (cm tx) (bt_range_from (tx_instant (inner tx) + 1) (committed_txns s)) = Some false ->
  forall ks r key instant, r ∈ reads_of (cm tx) ks -> covers r key = true -> tx_instant (inner tx) <= instant ->
    newest (versions (db_trees (inner_db s))) ks key (tx_instant (inner tx)) =
    newest (versions (db_trees (inner_db s))) ks key instant.
Proof.
  intros Hs Htx Hstart Hmark Hval ks r key instant Hr Hcov Hle. apply newest_instants; [done|].
  intros v Hv [<- <-]%of_key_spec _. apply Z.lt_nge. intros Hge.
  destruct (oi_covered start s Hs v Hv) as (ts & c & Hin & Hts & Hw); [lia|lia|].
  apply (any_conflict_false _ _ (otx_cm tx Htx) Hval ts c).
  - unfold bt_range_from. apply list_elem_of_filter. split; [simpl; lia|done].
  - exists (v_keyspace v), r, (v_key v). done.
Qed.

(** ** The invariant is preserved *)

Lemma close_raw_mono order i t :
  seqno (close_raw order i t) = seqno t /\ get_seqno_safe_to_gc t <= get_seqno_safe_to_gc (close_raw order i t).
Proof.
  unfold close_raw, close_count, get_seqno_safe_to_gc. case_match; [|done]. unfold gc.
  destruct (foldl _ _ _) as [lo none]. simpl. split; [done|lia].
Qed.

(** The tracker may collect, and open and close snapshots. *)
Lemma opt_inv_tracker start (s : ODb) f :
  opt_inv start s -> seqno (f (db_tracker (inner_db s))) = seqno (db_tracker (inner_db s)) ->
  get_seqno_safe_to_gc (db_tracker (inner_db s)) <= get_seqno_safe_to_gc (f (db_tracker (inner_db s))) ->
  opt_inv start (mkOptimisticDb (with_tracker f (inner_db s)) (committed_txns s)).
Proof.
  intros [H1 H2 H3 H4 H5] Hs Hw. constructor; cbn [committed_txns inner_db with_tracker db_tracker db_trees db_seqno];
    rewrite ?Hs; try done. intros v Hv Hst Hm. apply H5; [done|done|lia].
Qed.

Lemma opt_inv_drop start (s : ODb) order i :
  opt_inv start s -> opt_inv start (mkOptimisticDb (drop_nonce order i (inner_db s)) (committed_txns s)).
Proof. intros Hs. apply opt_inv_tracker; [done|apply close_raw_mono..]. Qed.

(** Entries at or below the watermark are not needed. *)
Lemma opt_inv_retain start (s : ODb) safe :
  opt_inv start s -> safe <= get_seqno_safe_to_gc (db_tracker (inner_db s)) ->
  opt_inv start (mkOptimisticDb (inner_db s) (bt_retain (fun ts => bool_decide (safe < ts)) (committed_txns s))).
Proof.
  intros [H1 H2 H3 H4 H5] Hsafe. constructor; cbn [committed_txns inner_db]; try done.
  - by apply bt_retain_sorted.
  - intros ts c [_ Hin]%list_elem_of_filter. by eapply H2.
  - intros v Hv Hst Hm. destruct (H5 v Hv Hst Hm) as (ts & c & Hin & Hts & Hw). exists ts, c. split; [|done].
    apply list_elem_of_filter. split; [|done]. apply bool_decide_eq_true. simpl. lia.
Qed.

Lemma newest_items_elem p l i : i ∈ newest_items p l -> i ∈ l.
Proof.
  revert p. induction l as [|j l IH]; intros p; cbn [newest_items]; [done|]. case_decide.
  - intros Hi. right. by eapply IH.
  - intros [-> |Hi]%elem_of_cons; [left|]. right. by eapply IH.
Qed.

Lemma tx_items_elem (tables : list (str * (Keyspace * M))) its it :
  tx_items tables = Some its -> it ∈ its ->
  exists id h m i, (id, (h, m)) ∈ tables /\ i ∈ mt_iter m /\ it = as_batch_item h i.
Proof.
  revert its. induction tables as [|[id [h m]] tables IH]; intros its; cbn [tx_items]; [by intros [= <-] Hin%elem_of_nil|].
  destruct (mapM _ _) as [l|] eqn:El; [|done]. destruct (tx_items tables) as [rest|]; [|done]. intros [= <-] [Hin|Hin]%elem_of_app.
  - apply mapM_batch_items in El as ->. apply list_elem_of_fmap in Hin as (i & -> & Hi).
    exists id, h, m, i. split; [left|]. split; [by eapply newest_items_elem|done].
  - destruct (IH rest eq_refl Hin) as (id' & h' & m' & i & ? & ?). exists id', h', m', i. split; [by right|done].
Qed.

Lemma tx_items_nonempty (b : BaseTransaction M) tables its :
  tx_wf b -> memtables b <> ∅ -> tables ≡ₚ map_to_list (memtables b) -> tx_items tables = Some its -> its <> [].
Proof.
  intros Hwf Hne Hp Hi. destruct tables as [|[id [h m]] tables].
  { symmetry in Hp. apply Permutation_nil_r in Hp. by apply map_to_list_empty_iff in Hp. }
  assert (memtables b !! id = Some (h, m)) as Hl by (apply elem_of_map_to_list; rewrite <- Hp; left).
  destruct (wf_table b Hwf _ _ _ Hl) as (_ & Hm & _). cbn [tx_items] in Hi.
  destruct (mt_iter m) as [|i l]; [done|]. cbn [newest_items] in Hi. rewrite decide_False in Hi by done.
  destruct (mapM _ _) as [its'|] eqn:El; [|done]. apply mapM_batch_items in El as ->.
  destruct (tx_items tables); [|done]. by injection Hi as <-.
Qed.

(** The effect of the commit of a transaction on the database. *)
Lemma commit_installs start (s : ODb) (tx : Tx) tables db' r order :
  opt_inv start s -> otx_wf tx -> memtables (inner tx) <> ∅ -> tables ≡ₚ map_to_list (memtables (inner tx)) ->
  inner_commit order tables (inner tx) (inner_db s) = Some (db', r) ->
  opt_inv start (mkOptimisticDb db'
    (if is_ok r then bt_insert (tracker_get (db_tracker db')) (cm tx) (committed_txns s) else committed_txns s)).
Proof.
  intros Hs Htx Hne Hp. unfold inner_commit, tx_commit. rewrite decide_False by done.
  destruct (tx_items tables) as [its|] eqn:Ei; [|done]. cbn [mbind option_bind].
  destruct (batch_commit _ (inner_db s)) as [db1 r1] eqn:Eb. intros [= <- <-].
  pose proof (tx_items_nonempty _ _ _ (otx_inner tx Htx) Hne Hp Ei) as Hits.
  destruct (batch_commit_frame _ _ _ _ Eb Hits) as [Hseq Hr]. destruct (close_raw_mono order (tx_instant (inner tx)) (db_tracker db1)) as [Hcs Hcw].
  pose proof Hs as [H1 H2 H3 H4 H5]. destruct r1 as [[]|e]; cbn [is_ok].
  - destruct Hr as [Htr Hsq]. apply batch_commit_versions in Eb as Hv. cbn [batch_data] in Hv.
    assert (seqno (db_tracker db1) = db_seqno (inner_db s) + 1) as Hpub by (rewrite Htr; simpl; lia).
    assert (tracker_get (db_tracker (drop_nonce order (tx_instant (inner tx)) db1)) = db_seqno (inner_db s) + 1) as Hget
      by (unfold tracker_get, drop_nonce; simpl; lia).
    rewrite Hget. constructor; cbn [committed_txns inner_db drop_nonce with_tracker db_tracker db_trees db_seqno]; rewrite ?Hcs, ?Hpub, ?Hv.
    + by apply bt_insert_sorted.
    + intros ts c [[-> ->]|[_ Hin]]%bt_insert_elem; [lia| |done]. specialize (H2 ts c Hin). lia.
    + lia.
    + intros v [Hin|Hin]%elem_of_app; [|specialize (H4 v Hin); lia].
      apply elem_of_reverse, list_elem_of_omap in Hin as (it & _ & Hin). unfold item_ver in Hin. destruct (it_type it); simplify_eq/=; lia.
    + intros v [Hin|Hin]%elem_of_app Hst Hm.
      * exists (db_seqno (inner_db s) + 1), (cm tx). split; [apply bt_insert_elem; [done|]; by left|].
        apply elem_of_reverse, list_elem_of_omap in Hin as (it & Hit & Hin).
        destruct (tx_items_elem _ _ _ Ei Hit) as (id & h & m & i & Ht & Hi & ->). rewrite Hp in Ht. apply elem_of_map_to_list in Ht.
        pose proof (otx_marked tx Htx _ _ _ _ Ht Hi) as Hmk. unfold item_ver, as_batch_item in Hin. simpl in Hin. destruct (mi_type i); simplify_eq/=; split; first [lia|done].
      * destruct (H5 v Hin Hst) as (ts & c & Hc & Hts & Hw).
        { assert (get_seqno_safe_to_gc (db_tracker db1) = get_seqno_safe_to_gc (db_tracker (inner_db s))) by (by rewrite Htr). lia. }
        exists ts, c. split; [|done]. apply bt_insert_elem; [done|]. right. split; [|done]. specialize (H2 ts c Hc). lia.
  - destruct Hr as [Htrees Htr]. constructor; cbn [committed_txns inner_db drop_nonce with_tracker db_tracker db_trees db_seqno];
      rewrite ?Hcs, ?Htrees, ?Htr; try done; [lia|]. intros v Hin Hst Hm. apply H5; [done|done|]. rewrite Htr in Hcw. lia.
Qed.

(** Committing keeps the oracle's log complete: every version from the watermark on
    is covered by a logged transaction, whether the commit succeeds, conflicts or is
    aborted by an I/O error. *)
Theorem commit_keeps_log start (s : ODb) (tx : Tx) order tables s' r :
  opt_inv start s -> otx_wf tx -> tables ≡ₚ map_to_list (memtables (inner tx)) ->
  otx_commit order tables tx s = Some (s', r) -> opt_inv start s'.
Proof.
  intros Hs Htx Hp. unfold otx_commit. case_decide as Hne.
  { intros [= <- <-]. by apply opt_inv_drop. }
  unfold with_commit. destruct (any_conflict _ _) as [conflicted|]; [|done]. cbn [mbind option_bind].
  set (db1 := with_tracker _ (inner_db s)). set (committed := bt_retain _ _).
  assert (opt_inv start (mkOptimisticDb db1 committed)) as H1.
  { apply (opt_inv_retain start (mkOptimisticDb db1 (committed_txns s))); [by apply opt_inv_drop|done]. }
  destruct conflicted; [intros [= <- <-]; by apply (opt_inv_drop start (mkOptimisticDb db1 committed))|].
  destruct (inner_commit order tables (inner tx) db1) as [[db2 r2]|] eqn:Ec; [|done]. cbn [mbind option_bind].
  pose proof (commit_installs start (mkOptimisticDb db1 committed) tx tables db2 r2 order H1 Htx Hne Hp Ec) as H2.
  destruct r2 as [[]|e]; intros [= <- <-]; exact H2.
Qed.

(** What a committing transaction read is what it would read now. *)
Lemma commit_stable_reads start (s : ODb) (tx : Tx) order tables s' :
  opt_inv start s -> otx_wf tx -> start <= tx_instant (inner tx) ->
  get_seqno_safe_to_gc (db_tracker (inner_db s)) < tx_instant (inner tx) -> memtables (inner tx) <> ∅ ->
  otx_commit order tables tx s = Some (s', Ok Committed) ->
  forall ks r key, r ∈ reads_of (cm tx) ks -> covers r key = true ->
    snapshot_get (versions (db_trees (inner_db s))) ks key (tx_instant (inner tx)) =
    snapshot_get (versions (db_trees (inner_db s))) ks key (db_seqno (inner_db s)).
Proof.
  intros Hs Htx Hst Hw Hne Hc ks r key Hr Hcov. unfold otx_commit in Hc. rewrite decide_False in Hc by done.
  unfold with_commit in Hc. destruct (any_conflict _ _) as [conflicted|] eqn:Ea; [|done].
  destruct conflicted; [done|]. unfold snapshot_get. f_equal.
  destruct (decide (tx_instant (inner tx) <= db_seqno (inner_db s))) as [Hle|Hgt].
  - eapply (validated_reads start); try done. lia.
  - symmetry. apply newest_instants; [lia|]. intros v Hv _ _. pose proof (oi_versions start s Hs v Hv). pose proof (oi_visible start s Hs). lia.
Qed.

(** ** The operations record what they read and write *)

Definition recorded (tx : Tx) (ks : Z) (key : bytes) : Prop :=
  exists r, r ∈ reads_of (cm tx) ks /\ covers r key = true.

Lemma push_recorded ks r key (tx : Tx) : otx_wf tx -> covers r key = true -> recorded (with_cm (push_read ks r) tx) ks key.
Proof.
  intros Htx Hr. exists r. split; [|done]. cbn [with_cm cm]. rewrite reads_of_push by apply Htx.
  rewrite decide_True by done. apply elem_of_app. right. left.
Qed.

Inductive OtxOp :=
  | OGet (ks : Keyspace) (key : bytes)
  | OInsert (ks : Keyspace) (key value : bytes)
  | ORemove (ks : Keyspace) (key : bytes)
  | ORemoveWeak (ks : Keyspace) (key : bytes)
  | OUpdateFetch (ks : Keyspace) (key : bytes) (f : option bytes -> option bytes)
  | OFetchUpdate (ks : Keyspace) (key : bytes) (f : option bytes -> option bytes).

Definition run_otx (op : OtxOp) (t : T) (tx : Tx) : Tx * Result (option bytes) :=
  match op with
  | OGet ks key => otx_get ks key t tx
  | OInsert ks key value => (otx_insert ks key value tx, Ok None)
  | ORemove ks key => (otx_remove ks key tx, Ok None)
  | ORemoveWeak ks key => (otx_remove_weak ks key tx, Ok None)
  | OUpdateFetch ks key f => otx_update_fetch ks key f t tx
  | OFetchUpdate ks key f => otx_fetch_update ks key f t tx
  end.

(** The base transaction's view of the operation and the cell it reads. *)
Definition base_op (op : OtxOp) : TxOp :=
  match op with
  | OGet ks key => TGet ks key
  | OInsert ks key value => TInsert ks key value
  | ORemove ks key => TRemove ks key
  | ORemoveWeak ks key => TRemoveWeak ks key
  | OUpdateFetch ks key f => TUpdateFetch ks key f
  | OFetchUpdate ks key f => TFetchUpdate ks key f
  end.

Definition reads_cell (op : OtxOp) : option (Keyspace * bytes) :=
  match op with
  | OGet ks key | OUpdateFetch ks key _ | OFetchUpdate ks key _ => Some (ks, key)
  | _ => None
  end.

(** Read-modify-writes leave the transaction alone or write one item. *)
Lemma tx_update_cases ks key f (b b' : BaseTransaction M) (t : T) r :
  tx_update ks key f b t = (b', r) ->
  b' = b \/ exists value vt, vt <> Indirection /\ b' = tx_write ks key value vt b.
Proof.
  unfold tx_update. destruct (tx_get ks key b t) as [prev|e]; intros [= <- <-]; [|by left].
  destruct (f prev) as [value|]; [case_decide; [by left|right; by exists value, Value]|].
  destruct prev; [right; by exists [], Tombstone|by left].
Qed.

Lemma mark_both_wf ks key (tx : Tx) : otx_wf tx -> cm_wf (mark_read (ks_id ks) key (cm tx)).
Proof. intros Htx. apply push_read_wf; [apply Htx|done]. Qed.

Lemma update_otx ks key f (t : T) (tx : Tx) b r :
  otx_wf tx -> leads_to (inner tx) ks -> tx_seqno (inner tx) < u64_max -> tx_update ks key f (inner tx) t = (b, r) ->
  otx_wf (with_cm (mark_both ks key) (with_inner b tx)) /\ recorded (with_cm (mark_both ks key) (with_inner b tx)) (ks_id ks) key.
Proof.
  intros Htx Hag Hs Hu. pose proof (mark_both_wf ks key tx Htx) as Hc. split.
  - unfold with_cm, with_inner, mark_both. cbn [inner cm].
    destruct (tx_update_cases _ _ _ _ _ _ _ Hu) as [->|(value & vt & Hvt & ->)].
    + destruct Htx as [H1 H2 H3]. constructor; cbn [inner cm]; [done|by apply mark_conflict_wf|].
      intros id h m i E Hi. rewrite writes_of_mark by done. specialize (H3 id h m i E Hi).
      case_decide; [by apply elem_of_union_r|done].
    + by apply write_otx_wf.
  - exists (Single key). split; [|by apply bool_decide_eq_true]. unfold with_cm, mark_both. cbn [cm with_inner].
    change (reads_of (mark_conflict (ks_id ks) key ?c)) with (reads_of c). unfold mark_read. rewrite reads_of_push by apply Htx.
    rewrite decide_True by done. apply elem_of_app. right. left.
Qed.

(** The bookkeeping of an operation. *)
Lemma run_otx_records op (t : T) (tx tx' : Tx) r :
  otx_wf tx -> leads_to (inner tx) (tx_keyspace (base_op op)) -> tx_seqno (inner tx) < u64_max -> run_otx op t tx = (tx', r) ->
  run_tx (base_op op) (inner tx) t = (inner tx', r) /\ (is_ok r = true -> otx_wf tx') /\
  match reads_cell op with
  | Some (ks, key) => is_ok r = true -> recorded tx' (ks_id ks) key
  | None => True
  end.
Proof.
  intros Htx Hag Hs. destruct op as [ks key|ks key value|ks key|ks key|ks key f|ks key f]; cbn [run_otx base_op run_tx reads_cell tx_keyspace] in *.
  - unfold otx_get. destruct (tx_get ks key (inner tx) t) as [o|e] eqn:E; intros [= <- <-]; [|done].
    split; [done|]. split; intros _; [by apply mark_read_otx_wf|]. apply push_recorded; [done|by apply bool_decide_eq_true].
  - intros [= <- <-]. split; [done|]. split; [|done]. intros _. by apply write_otx_wf; [| | | |apply Htx|].
  - intros [= <- <-]. split; [done|]. split; [|done]. intros _. by apply write_otx_wf; [| | | |apply Htx|].
  - intros [= <- <-]. split; [done|]. split; [|done]. intros _. by apply write_otx_wf; [| | | |apply Htx|].
  - unfold otx_update_fetch, tx_update_fetch. destruct (tx_update ks key f (inner tx) t) as [b r1] eqn:E.
    destruct (update_otx _ _ _ _ _ _ _ Htx Hag Hs E) as [Hwf Hrec]. destruct r1 as [[p u]|e]; intros [= <- <-]; done.
  - unfold otx_fetch_update, tx_fetch_update. destruct (tx_update ks key f (inner tx) t) as [b r1] eqn:E.
    destruct (update_otx _ _ _ _ _ _ _ Htx Hag Hs E) as [Hwf Hrec]. destruct r1 as [[p u]|e]; intros [= <- <-]; done.
Qed.

(** The operations of an optimistic transaction behave like those of its base
    transaction and keep its bookkeeping: every key they may write is recorded as a
    conflict key, and every cell a successful operation read is recorded as a read. *)
Theorem otx_records op (t : T) (tx tx' : Tx) r :
  otx_wf tx -> leads_to (inner tx) (tx_keyspace (base_op op)) -> tx_seqno (inner tx) < u64_max -> run_otx op t tx = (tx', r) ->
  run_tx (base_op op) (inner tx) t = (inner tx', r) /\ (is_ok r = true -> otx_wf tx') /\
  match reads_cell op with
  | Some (ks, key) => is_ok r = true -> recorded tx' (ks_id ks) key
  | None => True
  end.
Proof. apply run_otx_records. Qed.
End theory.

(** ** Samples *)

Abbreviation SampleTx := (WriteTransaction (list MItem)).

Definition sample_opt : OptimisticDb history := mkOptimisticDb (sample_db []) [].
Definition no_order (t : SnapshotTracker) : list (Z * nat) := map_to_list (data t).
Definition commit_of (tx : SampleTx) (s : OptimisticDb history) : option (OptimisticDb history * Result CommitResult) :=
  otx_commit no_order (map_to_list (memtables (inner tx))) tx s.

Lemma sample_opt_inv : opt_inv 1 sample_opt.
Proof. constructor; try (by intros ? ?%elem_of_nil); [constructor|by intros ? ? ?%elem_of_nil|by vm_compute]. Qed.

(** A transaction that reads [key_b] and writes [key_a]. *)
Definition sample_otx : SampleTx :=
  otx_insert sample_keyspace key_a [Byte.x31]
    (otx_get sample_keyspace key_b (db_trees (inner_db sample_opt)) (write_tx true sample_opt).2).1.

Lemma sample_otx_wf : otx_wf sample_otx.
Proof.
  assert (otx_wf (otx_get sample_keyspace key_b (db_trees (inner_db sample_opt)) (write_tx (M := list MItem) true sample_opt).2).1) as H1
    by (apply mark_read_otx_wf; [done|apply write_tx_wf]).
  apply write_otx_wf; [done|done|by apply leads_empty|vm_compute; done|apply H1|done].
Qed.

Lemma sample_otx_agrees : leads_to (inner sample_otx) sample_keyspace.
Proof. intros h m E. vm_compute in E. by injection E as <- _. Qed.

Lemma sample_commits : exists s', commit_of sample_otx sample_opt = Some (s', Ok Committed).
Proof. eexists. vm_compute. reflexivity. Qed.

Lemma commit_keeps_log_witness : exists s', commit_of sample_otx sample_opt = Some (s', Ok Committed) /\ opt_inv 1 s'.
Proof.
  destruct sample_commits as [s' E]. exists s'. split; [exact E|].
  apply (commit_keeps_log 1 sample_opt sample_otx no_order (map_to_list (memtables (inner sample_otx))) s' (Ok Committed));
    [exact sample_opt_inv|exact sample_otx_wf|reflexivity|exact E].
Defined.

Lemma otx_records_witness :
  let p := run_otx (OGet sample_keyspace key_b) (db_trees (inner_db sample_opt)) sample_otx in
  p.2 = Ok None /\ recorded p.1 1 key_b.
Proof.
  intros p. assert (p.2 = Ok None) as E by (vm_compute; reflexivity). split; [exact E|].
  exact (proj2 (proj2 (otx_records (OGet sample_keyspace key_b) (db_trees (inner_db sample_opt)) sample_otx p.1 (Ok None)
    sample_otx_wf sample_otx_agrees ltac:(vm_compute; done) (result_pair p _ E))) eq_refl).
Defined.

(** ** The snapshot of a committed transaction is closed twice *)

Definition collect (s : OptimisticDb history) : OptimisticDb history :=
  mkOptimisticDb (with_tracker (fun t => gc (map_to_list (data t)) t) (inner_db s)) (committed_txns s).

(** Write one key in a transaction of its own. *)
Definition blind_write (key : bytes) (s : OptimisticDb history) : option (OptimisticDb history * Result CommitResult) :=
  let '(s, tx) := write_tx (M := list MItem) true s in
  commit_of (otx_insert sample_keyspace key [Byte.x31] tx) s.

(** Two transactions are opened at the same instant. The first writes [key_a] and
    commits; then there are collections and other commits. The second, still open,
    reads [key_a] at its snapshot, writes [key_b] and tries to commit. *)
Definition lost_conflict : option (Z * Z * Result (option bytes) * Result CommitResult) :=
  let '(s, tx1) := write_tx (M := list MItem) true sample_opt in
  let '(s, tx2) := write_tx (M := list MItem) true s in
  '(s, _) ← commit_of (otx_insert sample_keyspace key_a [Byte.x31] tx1) s;
  let s := collect s in
  let watermark := get_seqno_safe_to_gc (db_tracker (inner_db s)) in
  '(s, _) ← blind_write key_b s;
  '(s, _) ← blind_write key_b (collect s);
  let '(tx2, o) := otx_get sample_keyspace key_a (db_trees (inner_db s)) tx2 in
  '(_, r) ← commit_of (otx_insert sample_keyspace key_b [Byte.x32] tx2) s;
  Some (watermark, tx_instant (inner tx2), o, r).

(** [with_commit] closes the snapshot of the transaction and so does the drop of its
    nonce. The second close takes the snapshot of another transaction opened at the
    same instant away: the watermark reaches its instant while it is open, the log
    entry it would conflict with is discarded, and it commits although the value it
    read was overwritten by a transaction committed in between. *)
Theorem double_close_lost_conflict : lost_conflict = Some (1, 1, Ok None, Ok Committed).
Proof. vm_compute. reflexivity. Qed.
