(* ===== verification/SecureTx.v ===== *)
(** * Secure transactions

    Models the data operations of [src/src/secure/tx.rs]: a session's reads and writes
    of versioned cells inside a transaction. The two kinds of transaction (single-writer
    and optimistic) have the same code for them, which is written here once against the
    class [TransactionOps]; [base_transaction] and [optimistic_transaction] are its
    instances. Permission checks write to the audit state [A], which the transaction
    does not share. *)

From stdpp Require Import base gmap list sorting strings.
From S2P Require Import Prelude Errors Utf8 Visibility VisibilityParse VisibilityNormal VisibilityProps.
From S2P Require Import Composite Store Cell Crypto Providers SecureKeyspace.
From S2P Require Import JournalEntry JournalReader JournalWriter SnapshotTracker BTree ConflictManager Mvcc Db DbProps WriteTx WriteTxProps Optimistic OptimisticProps.

#[local] Open Scope state_scope.

(** ** What a transaction offers *)

(** Reads may update the transaction's bookkeeping; [T] are the trees it reads. *)
Class TransactionOps (T X : Type) := {
  txo_get : Keyspace -> bytes -> T -> X -> X * Result (option bytes);
  txo_range : Keyspace -> key_range -> T -> X -> X * list (Result entry);
  txo_insert : Keyspace -> bytes -> bytes -> X -> X;
  txo_remove : Keyspace -> bytes -> X -> X
}.

(** The contract: a transaction shows a map of cells that reads leave as it is and
    writes update. *)
Class TransactionLaws (T X : Type) `{!TransactionOps T X} := {
  txo_wf : X -> Prop;
  (** Sequence numbers are left for another write. *)
  txo_room : X -> Prop;
  (** The keyspace can be read at the instant of the transaction. *)
  txo_ready : Keyspace -> T -> X -> Prop;
  (** Writes through the handle are filed under its own keyspace. *)
  txo_leads : Keyspace -> X -> Prop;
  txo_view : X -> T -> View;
  txo_get_law ks key t x x' r :
    txo_wf x -> txo_get ks key t x = (x', r) ->
    txo_wf x' /\ (forall k b, txo_view x' t k b = txo_view x t k b) /\
    (txo_ready ks t x -> forall o, r = Ok o -> o = txo_view x t ks key);
  txo_range_law ks r t x x' items :
    (exists k, in_range r k = true) -> txo_wf x -> txo_range ks r t x = (x', items) ->
    txo_wf x' /\ (forall k b, txo_view x' t k b = txo_view x t k b) /\
    (txo_ready ks t x -> exists (m : gmap bytes bytes) l,
       (forall k, m !! k = txo_view x t ks k) /\ lists_range m r l /\ delivers items l);
  txo_insert_law ks key value t x :
    txo_wf x -> txo_room x -> txo_leads ks x -> txo_wf (txo_insert ks key value x) /\
    forall k b, txo_view (txo_insert ks key value x) t k b = view_set keyspace_key (txo_view x t) ks key (Some value) k b;
  txo_remove_law ks key t x :
    txo_wf x -> txo_room x -> txo_leads ks x -> txo_wf (txo_remove ks key x) /\
    forall k b, txo_view (txo_remove ks key x) t k b = view_set keyspace_key (txo_view x t) ks key None k b
}.

(** ** Secure transactions *)

(** [SingleWriterSecureTxKeyspace] and [OptimisticSecureTxKeyspace]. *)
Record SecureTxKeyspace := mkSecureTxKeyspace {
  stk_inner : Keyspace;
  stk_name : str;
  stk_encryption : option ValueEncryption
}.

(** [SingleWriterSecureWriteTransaction] and [OptimisticSecureWriteTransaction]. *)
Record SecureWriteTransaction (A I X : Type) := mkSecureWriteTransaction {
  stx_inner : X;
  stx_session : Session I;
  stx_security : SecurityProviders A I
}.
Arguments mkSecureWriteTransaction {A I X} stx_inner stx_session stx_security.
Arguments stx_inner {A I X} s.
Arguments stx_session {A I X} s.
Arguments stx_security {A I X} s.

(** [providers_from_parts]: the first missing provider is reported. *)
Definition providers_from_parts {A I} (authenticator : option (Credentials -> Result (option I)))
    (permission_handler : option ((I -> SystemPermission -> bool) * (I -> str -> KeyspacePermission -> bool)))
    (authorizor : option (I -> Result Authorizations)) (audit : option (AuditConfig A I)) :
    Result (SecurityProviders A I) :=
  a ← ok_or authenticator (MissingSecurityProvider "authenticator");
  p ← ok_or permission_handler (MissingSecurityProvider "permission_handler");
  z ← ok_or authorizor (MissingSecurityProvider "authorizor");
  Ok (mkSecurityProviders a p.1 p.2 z audit).

Module Txn.
Section operations.
Context `{PrefixRange} {T X A I : Type} `{!TransactionOps T X} (t : T).

Abbreviation Stx := (SecureWriteTransaction A I X).

(** The state of an operation: the transaction and what the audit sink writes to. *)
Abbreviation World := (X * A)%type.

Definition audited {B} (m : StateR A B) : StateR World B :=
  fun '(x, a) => let '(a, r) := m a in ((x, a), r).
(** A read of the transaction. *)
Definition reading {B} (f : X -> X * Result B) : StateR World B :=
  fun '(x, a) => let '(x, r) := f x in ((x, a), r).
Definition writing (f : X -> X) : StateR World () := fun '(x, a) => ((f x, a), Ok ()).

(** [check_keyspace_permission]. *)
Definition check (security : SecurityProviders A I) (identity : I) (keyspace : str) (permission : KeyspacePermission) :
    StateR World () := audited (check_keyspace_permission security identity keyspace permission).

Definition insert_version (security : SecurityProviders A I) (session : Session I) (ks : SecureTxKeyspace)
    (cell : VersionedCell) (value : bytes) : StateR World () :=
  check security (identity session) (stk_name ks) PWrite ;;;
  canonical_cell <- st_lift (canonicalize_cell cell) ;;
  encoded_key <- st_lift (cell_encode canonical_cell) ;;
  stored_value <- st_lift (maybe_encrypt_value (stk_encryption ks) encoded_key value) ;;
  writing (txo_insert (stk_inner ks) encoded_key stored_value).

(** [secure_get_version]: the cell is read before its visibility is checked. *)
Definition secure_get_version (security : SecurityProviders A I) (identity : I) (auths : Authorizations)
    (ks : SecureTxKeyspace) (cell : VersionedCell) : StateR World (option bytes) :=
  check security identity (stk_name ks) PRead ;;;
  encoded_key <- st_lift (cell_encode cell) ;;
  value <- reading (txo_get (stk_inner ks) encoded_key t) ;;
  visible <- st_lift (is_visible (c_visibility (vc_cell cell)) auths) ;;
  if negb visible then st_ret None
  else
    match value with
    | None => st_ret None
    | Some stored =>
        v <- st_lift (maybe_decrypt_entry (stk_encryption ks) encoded_key stored) ;;
        st_ret (Some v)
    end.

Definition get_version (security : SecurityProviders A I) (session : Session I) (ks : SecureTxKeyspace)
    (cell : VersionedCell) : StateR World (option bytes) :=
  secure_get_version security (identity session) (auths session) ks cell.

(** The body of the scan loop. *)
Definition step (enc : option ValueEncryption) (auths : Authorizations) (scan : VersionScan) (kv : entry) :
    Result (option VersionedEntry) :=
  k ← decode kv.1;
  let cell := versioned_cell_from k in
  if includes scan (vc_timestamp cell) then
    visible ← is_visible (c_visibility (vc_cell cell)) auths;
    if (visible : bool) then
      value ← maybe_decrypt_entry enc kv.1 kv.2;
      Ok (Some (mkVersionedEntry cell value))
    else Ok None
  else Ok None.

Definition secure_scan_versioned_prefix (security : SecurityProviders A I) (identity : I) (auths : Authorizations)
    (ks : SecureTxKeyspace) (prefix : CompositePrefix) (scan : VersionScan) : StateR World (list VersionedEntry) :=
  check security identity (stk_name ks) PRead ;;;
  r <- st_lift (range prefix) ;;
  reading (fun x =>
    let '(x, items) := txo_range (stk_inner ks) r t x in
    (x, scan_loop (step (stk_encryption ks) auths scan) (is_satisfied_by scan) items [])).

Definition scan_versioned_prefix (security : SecurityProviders A I) (session : Session I) (ks : SecureTxKeyspace)
    (prefix : CompositePrefix) (scan : VersionScan) : StateR World (list VersionedEntry) :=
  secure_scan_versioned_prefix security (identity session) (auths session) ks prefix scan.

Definition delete_version (security : SecurityProviders A I) (session : Session I) (ks : SecureTxKeyspace)
    (cell : VersionedCell) : StateR World () :=
  check security (identity session) (stk_name ks) PDelete ;;;
  canonical_cell <- st_lift (canonicalize_cell cell) ;;
  encoded_key <- st_lift (cell_encode canonical_cell) ;;
  writing (txo_remove (stk_inner ks) encoded_key).

(** One operation of a transaction on a keyspace. *)
Definition run (op : SecureOp) (ks : SecureTxKeyspace) (s : Stx) (a : A) : Stx * A * Result Response :=
  let security := stx_security s in
  let session := stx_session s in
  let m :=
    match op with
    | SInsert cell value => insert_version security session ks cell value ;;; st_ret RUnit
    | SGet cell => v <- get_version security session ks cell ;; st_ret (RValue v)
    | SScan prefix scan => es <- scan_versioned_prefix security session ks prefix scan ;; st_ret (REntries es)
    | SDelete cell => delete_version security session ks cell ;;; st_ret RUnit
    end in
  let '((x, a), r) := m (stx_inner s, a) in
  (mkSecureWriteTransaction x session security, a, r).
End operations.
End Txn.

(** ** What an operation must do *)

Definition same_view (v v' : View) : Prop := forall ks key, v' ks key = v ks key.

(** The value of an optional stored record. *)
Definition decrypted (enc : option ValueEncryption) (key : bytes) (stored o : option bytes) : Prop :=
  match stored with
  | Some stored => exists v, maybe_decrypt_entry enc key stored = Ok v /\ o = Some v
  | None => o = None
  end.

Definition answers `{PrefixRange} (ks : SecureTxKeyspace) (auths : Authorizations) (op : SecureOp) (v v' : View) (resp : Response) : Prop :=
  let enc := stk_encryption ks in
  let raw := stk_inner ks in
  match op with
  | SInsert cell value =>
      resp = RUnit /\ canonicalize_cell cell = Ok cell /\
      exists key stored, cell_encode cell = Ok key /\ maybe_encrypt_value enc key value = Ok stored /\
        same_view (view_set keyspace_key v raw key (Some stored)) v'
  | SDelete cell =>
      resp = RUnit /\ canonicalize_cell cell = Ok cell /\
      exists key, cell_encode cell = Ok key /\ same_view (view_set keyspace_key v raw key None) v'
  | SGet cell =>
      same_view v v' /\
      exists key visible o, resp = RValue o /\ cell_encode cell = Ok key /\
        is_visible (c_visibility (vc_cell cell)) auths = Ok visible /\
        decrypted enc key (if (visible : bool) then v raw key else None) o
  | SScan prefix scan =>
      same_view v v' /\
      exists es, resp = REntries es /\
        (max_versions scan <> Some 0%nat ->
         exists (m : gmap bytes bytes) l, (forall key, m !! key = v raw key) /\
           StronglySorted entry_before l /\ (forall e, e ∈ l <-> readable enc auths m prefix scan e) /\
           es = limit (max_versions scan) l) /\
        (** A limit of zero is tested behind the first stored record. *)
        (max_versions scan = Some 0%nat ->
         exists (m : gmap bytes bytes) rg l, (forall key, m !! key = v raw key) /\ range prefix = Ok rg /\ lists_range m rg l /\
           es = option_list (head l ≫= selected (Txn.step enc auths scan)))
  end.

(** ** The operations meet the specification *)

Section theory.
Context `{PrefixRange} {T X A I : Type} `{!TransactionOps T X, !TransactionLaws T X} (t : T).

Abbreviation World := (X * A)%type.

Lemma check_permission_cases (security : SecurityProviders A I) i name permission a :
  is_ok (check_keyspace_permission security i name permission a).2 = true ->
  has_keyspace_permission security i name permission = true.
Proof.
  unfold check_keyspace_permission, st_bind, st_err. destruct (has_keyspace_permission _ _ _ _); [done|].
  by destruct (record_audit _ _ a) as [a1 [[]|e]].
Qed.

Lemma check_world (security : SecurityProviders A I) i name permission (w w' : World) r :
  Txn.check security i name permission w = (w', r) ->
  w'.1 = w.1 /\ (is_ok r = true -> has_keyspace_permission security i name permission = true).
Proof.
  destruct w as [x a]. unfold Txn.check, Txn.audited.
  pose proof (check_permission_cases security i name permission a) as Hp.
  destruct (check_keyspace_permission _ _ _ _ a) as [a1 r1]. intros [= <- <-]. done.
Qed.

(** What [check] leaves to do. *)
Lemma check_then {B} (security : SecurityProviders A I) i name permission (m : StateR World B) (w w' : World) r :
  st_bind (Txn.check security i name permission) (fun _ => m) w = (w', r) ->
  (exists e, r = Err e /\ w'.1 = w.1) \/
  (has_keyspace_permission security i name permission = true /\ exists a, m (w.1, a) = (w', r)).
Proof.
  unfold st_bind. destruct (Txn.check _ _ _ _ w) as [w1 r1] eqn:E. apply check_world in E as [Hw Hp].
  destruct r1 as [[]|e]; [|intros [= <- <-]; left; by exists e]. intros Hm. right. split; [by apply Hp|].
  exists w1.2. rewrite <- Hw. by destruct w1.
Qed.

(** The outcome of an operation that ran from [x] to [x']. *)
Definition meets {B} (x x' : X) (r : Result B) (good : B -> View -> Prop) : Prop :=
  txo_wf x' /\ match r with Ok b => good b (txo_view x' t) | Err _ => same_view (txo_view x t) (txo_view x' t) end.

Lemma meets_err {B} (x : X) e (good : B -> View -> Prop) : txo_wf x -> meets x x (Err e) good.
Proof. by split. Qed.

Lemma insert_version_meets security (session : Session I) ks cell value (w w' : World) r :
  txo_wf w.1 -> txo_room w.1 -> txo_leads (stk_inner ks) w.1 -> Txn.insert_version security session ks cell value w = (w', r) ->
  meets w.1 w'.1 r (fun _ v' => has_keyspace_permission security (identity session) (stk_name ks) PWrite = true /\
    answers ks (auths session) (SInsert cell value) (txo_view w.1 t) v' RUnit).
Proof.
  intros Hwf Hroom Hag [(e & -> & Ew)|[Hp [a Hm]]]%check_then; [rewrite Ew; by apply meets_err|].
  unfold st_bind, st_lift, Txn.writing in Hm.
  destruct (canonicalize_cell cell) as [c|e] eqn:Ec; [|simplify_eq; by apply meets_err].
  apply canonicalize_cell_Ok in Ec as Ec'. destruct Ec' as [-> _].
  destruct (cell_encode cell) as [key|e] eqn:Ek; [|simplify_eq; by apply meets_err].
  destruct (maybe_encrypt_value _ _ _) as [stored|e] eqn:Es; [|simplify_eq; by apply meets_err].
  simplify_eq. destruct (txo_insert_law (stk_inner ks) key stored t w.1 Hwf Hroom Hag) as [Hwf' Hv].
  split; [done|]. split; [done|]. split; [done|]. split; [done|]. by exists key, stored.
Qed.

Lemma delete_version_meets security (session : Session I) ks cell (w w' : World) r :
  txo_wf w.1 -> txo_room w.1 -> txo_leads (stk_inner ks) w.1 -> Txn.delete_version security session ks cell w = (w', r) ->
  meets w.1 w'.1 r (fun _ v' => has_keyspace_permission security (identity session) (stk_name ks) PDelete = true /\
    answers ks (auths session) (SDelete cell) (txo_view w.1 t) v' RUnit).
Proof.
  intros Hwf Hroom Hag [(e & -> & Ew)|[Hp [a Hm]]]%check_then; [rewrite Ew; by apply meets_err|].
  unfold st_bind, st_lift, Txn.writing in Hm.
  destruct (canonicalize_cell cell) as [c|e] eqn:Ec; [|simplify_eq; by apply meets_err].
  apply canonicalize_cell_Ok in Ec as Ec'. destruct Ec' as [-> _].
  destruct (cell_encode cell) as [key|e] eqn:Ek; [|simplify_eq; by apply meets_err].
  simplify_eq. destruct (txo_remove_law (stk_inner ks) key t w.1 Hwf Hroom Hag) as [Hwf' Hv].
  split; [done|]. split; [done|]. split; [done|]. split; [done|]. by exists key.
Qed.

Lemma get_version_meets security (session : Session I) ks cell (w w' : World) r :
  txo_wf w.1 -> txo_ready (stk_inner ks) t w.1 -> Txn.get_version t security session ks cell w = (w', r) ->
  meets w.1 w'.1 r (fun o v' => has_keyspace_permission security (identity session) (stk_name ks) PRead = true /\
    answers ks (auths session) (SGet cell) (txo_view w.1 t) v' (RValue o)).
Proof.
  intros Hwf Hready [(e & -> & Ew)|[Hp [a Hm]]]%check_then; [rewrite Ew; by apply meets_err|].
  unfold st_bind, st_lift, st_ret, Txn.reading in Hm.
  destruct (cell_encode cell) as [key|e] eqn:Ek; [|simplify_eq; by apply meets_err].
  destruct (txo_get _ key t w.1) as [x1 r1] eqn:Eg.
  destruct (txo_get_law _ _ _ _ _ _ Hwf Eg) as (Hwf' & Hv & Ho). specialize (Ho Hready).
  destruct r1 as [o|e]; [|simplify_eq; by split]. specialize (Ho o eq_refl) as ->.
  destruct (is_visible _ _) as [visible|e] eqn:Ei; [|simplify_eq; by split].
  assert (forall resp, w' = (x1, a) -> r = Ok resp ->
    decrypted (stk_encryption ks) key (if visible then txo_view w.1 t (stk_inner ks) key else None) resp ->
    meets w.1 w'.1 r (fun o v' => has_keyspace_permission security (identity session) (stk_name ks) PRead = true /\
      answers ks (auths session) (SGet cell) (txo_view w.1 t) v' (RValue o))) as Hdone.
  { intros resp -> -> Hd. split; [done|]. split; [done|]. split; [done|]. by exists key, visible, resp. }
  destruct visible; simpl in Hm; [|simplify_eq; by eapply Hdone].
  destruct (txo_view w.1 t (stk_inner ks) key) as [stored|]; [|simplify_eq; by eapply Hdone].
  destruct (maybe_decrypt_entry _ _ _) as [v|e] eqn:Ed; simplify_eq; [|by split].
  eapply Hdone; [done..|]. by exists v.
Qed.

Lemma range_inhabited prefix r : range prefix = Ok r -> exists k, in_range r k = true.
Proof.
  unfold range. intros Hr. inv_ok. exists (encode_prefix_fields x). by apply prefix_to_range_spec.
Qed.

(** The scan step is that of a secure keyspace. *)
Lemma step_secure_step ks (security : SecurityProviders A I) (session : Session I) scan kv :
  Txn.step (stk_encryption ks) (auths session) scan kv =
  Secure.secure_step (mkSecureKeyspace (stk_name ks) security (stk_encryption ks)) session scan kv.
Proof. done. Qed.

Lemma scan_meets security (session : Session I) ks prefix scan (w w' : World) r :
  txo_wf w.1 -> txo_ready (stk_inner ks) t w.1 -> Txn.scan_versioned_prefix t security session ks prefix scan w = (w', r) ->
  meets w.1 w'.1 r (fun es v' => has_keyspace_permission security (identity session) (stk_name ks) PRead = true /\
    answers ks (auths session) (SScan prefix scan) (txo_view w.1 t) v' (REntries es)).
Proof.
  intros Hwf Hready [(e & -> & Ew)|[Hp [a Hm]]]%check_then; [rewrite Ew; by apply meets_err|].
  unfold st_bind, st_lift, Txn.reading in Hm.
  destruct (range prefix) as [rg|e] eqn:Er; [|simplify_eq; by apply meets_err].
  destruct (txo_range _ rg t w.1) as [x1 items] eqn:Eg. simplify_eq.
  destruct (txo_range_law _ _ _ _ _ _ (range_inhabited _ _ Er) Hwf Eg) as (Hwf' & Hv & Hl). specialize (Hl Hready).
  destruct (scan_loop _ _ _ _) as [es|e] eqn:Es; [|by split]. split; [done|]. split; [done|]. split; [done|].
  exists es. split; [done|]. destruct Hl as (m & l & Hm & Hl & Hd). split.
  2:{ intros Hmax. change (is_satisfied_by scan) with (reaches (max_versions scan)) in Es. rewrite Hmax in Es.
      exists m, rg, l. split_and!; [done|done|done|]. by apply (scan_loop_zero _ items). }
  intros Hmax. exists m.
  exists (omap (selected (Txn.step (stk_encryption ks) (auths session) scan)) l).
  split; [done|]. split; [|split].
  - by apply (selected_sorted (mkSecureKeyspace (stk_name ks) security (stk_encryption ks)) session scan l), Hl.
  - intros e. exact (selected_readable (mkSecureKeyspace (stk_name ks) security (stk_encryption ks)) session prefix scan rg m l e Er Hl).
  - apply (scan_loop_Ok _ _ items l []); [done| |done]. by destruct (max_versions scan) as [[]|].
Qed.

(** A result carried on by [st_ret]. *)
Lemma bind_ret {B C} (m : StateR World B) (f : B -> C) w w' r :
  (b <- m ;; st_ret (f b)) w = (w', r) -> exists r0, m w = (w', r0) /\ r = f <$> r0.
Proof. unfold st_bind, st_ret. destruct (m w) as [w1 [b|e]]; intros [= <- <-]; by eexists. Qed.

Lemma meets_fmap {B C} (x x' : X) (r0 : Result B) (f : B -> C) (good : B -> View -> Prop) (good' : C -> View -> Prop) :
  (forall b v, good b v -> good' (f b) v) -> meets x x' r0 good -> meets x x' (f <$> r0) good'.
Proof. intros Hf [Hwf Hr]. split; [done|]. destruct r0; simpl; auto. Qed.

(** Inside a transaction, of either kind, a session's operations are those of the
    secure keyspace on the transaction's own view: an operation that succeeds had its
    permission, inserts and deletes update the view at the encoded key of a canonical
    cell with the encrypted value, a point read returns the decrypted record if and only
    if its visibility is satisfied, a scan returns exactly the matching, visible versions
    in order, own writes included; an operation that fails leaves the view as it was.
    Session and providers stay those captured when the transaction began. *)
Theorem secure_tx_refines op ks (s s' : SecureWriteTransaction A I X) a a' r :
  txo_wf (stx_inner s) -> txo_room (stx_inner s) -> txo_ready (stk_inner ks) t (stx_inner s) -> txo_leads (stk_inner ks) (stx_inner s) ->
  Txn.run t op ks s a = (s', a', r) ->
  stx_session s' = stx_session s /\ stx_security s' = stx_security s /\ txo_wf (stx_inner s') /\
  match r with
  | Ok resp =>
      has_keyspace_permission (stx_security s) (identity (stx_session s)) (stk_name ks) (required op) = true /\
      answers ks (auths (stx_session s)) op (txo_view (stx_inner s) t) (txo_view (stx_inner s') t) resp
  | Err _ => same_view (txo_view (stx_inner s) t) (txo_view (stx_inner s') t)
  end.
Proof.
  intros Hwf Hroom Hready Hag Hrun. unfold Txn.run in Hrun.
  set (security := stx_security s) in *. set (session := stx_session s) in *.
  enough (forall m : StateR World Response,
    (let '((x, a), r) := m (stx_inner s, a) in (mkSecureWriteTransaction x session security, a, r)) = (s', a', r) ->
    (forall w' r', m (stx_inner s, a) = (w', r') ->
      meets (stx_inner s) w'.1 r' (fun resp v' =>
        has_keyspace_permission security (identity session) (stk_name ks) (required op) = true /\
        answers ks (auths session) op (txo_view (stx_inner s) t) v' resp)) ->
    stx_session s' = session /\ stx_security s' = security /\ txo_wf (stx_inner s') /\
    match r with
    | Ok resp => has_keyspace_permission security (identity session) (stk_name ks) (required op) = true /\
        answers ks (auths session) op (txo_view (stx_inner s) t) (txo_view (stx_inner s') t) resp
    | Err _ => same_view (txo_view (stx_inner s) t) (txo_view (stx_inner s') t)
    end) as Hlift.
  { apply (Hlift _ Hrun). clear Hlift Hrun. intros w' r'. destruct op as [cell value|cell|prefix scan|cell];
      intros (r0 & Hm & ->)%bind_ret.
    - apply insert_version_meets in Hm; [|done..]. revert Hm. by apply meets_fmap.
    - apply get_version_meets in Hm; [|done..]. revert Hm. by apply meets_fmap.
    - apply scan_meets in Hm; [|done..]. revert Hm. by apply meets_fmap.
    - apply delete_version_meets in Hm; [|done..]. revert Hm. by apply meets_fmap. }
  intros m. destruct (m (stx_inner s, a)) as [[x1 a1] r1]. intros [= <- <- <-] Hmeets.
  specialize (Hmeets _ _ eq_refl) as [Hwf' Hr]. done.
Qed.
End theory.

(** ** Range reads of a transaction *)

(** What a read of the trees with an ephemeral memtable sees of a key: the newest item
    of the memtable below the sequence number, else the snapshot. *)
Definition merged {T M} `{!TreeOps T, !TreeLaws T, !MemtableOps M} (ks instant : Z) (own : option (M * Z)) (t : T)
    (key : bytes) : option bytes :=
  match '(m, seqno) ← own; mt_get key seqno m with
  | Some item => mi_value <$> ignore_tombstone_value item
  | None => snapshot_get (versions t) ks key instant
  end.

(** [tree.range]: the merged entries in key order. *)
Class TreeReadsLaws (T M : Type) `{!TreeOps T, !TreeLaws T, !MemtableOps M, !TreeReads T M} := {
  tree_range_merged ks r instant own t :
    readable_from t ks <= instant ->
    exists (m : gmap bytes bytes) l, (forall key, m !! key = merged ks instant own t key) /\
      lists_range m r l /\ delivers (tree_range ks r instant own t) l
}.

Lemma filter_elem_iff {A} (P Q : A -> Prop) `{!forall x, Decision (P x), !forall x, Decision (Q x)} (l : list A) :
  (forall x, x ∈ l -> P x <-> Q x) -> filter P l = filter Q l.
Proof.
  induction l as [|x l IH]; intros Hl; [done|]. rewrite !filter_cons, IH by (intros y Hy; apply Hl; by right).
  specialize (Hl x (list_elem_of_here _ _)). repeat case_decide; naive_solver.
Qed.

(** Bounds with a key between them. *)
Lemma bytes_le_lt_trans a b c : bytes_le a b -> bytes_lt b c -> bytes_lt a c.
Proof. intros [H| ->]%bytes_le_lt_eq ?; [by trans b|done]. Qed.
Lemma bytes_lt_le_trans a b c : bytes_lt a b -> bytes_le b c -> bytes_lt a c.
Proof. intros ? [H|<-]%bytes_le_lt_eq; [by trans b|done]. Qed.

Section transactions.
Context {T M : Type} `{!TreeOps T, !TreeLaws T, !MemtableOps M, !MemtableLaws M, !TreeReads T M, !TreeReadsLaws T M}.

(** Every item of a memtable is below the sequence number of its transaction. *)
Lemma merged_view (ks : Keyspace) (tx : BaseTransaction M) (t : T) key :
  tx_wf tx ->
  merged (ks_id ks) (tx_instant tx) ((fun km => (km.2, tx_seqno tx)) <$> memtables tx !! keyspace_key ks) t key = tx_view tx t ks key.
Proof.
  intros Hwf. unfold merged, tx_view, own_value, own_item.
  destruct (memtables tx !! keyspace_key ks) as [[h m]|] eqn:E; [|done]. cbn.
  destruct (wf_table _ Hwf _ _ _ E) as (_ & _ & Hi).
  assert (mt_get key (tx_seqno tx) m = mt_get key u64_max m) as ->.
  { rewrite !mt_get_first. f_equal. apply filter_elem_iff. intros i Hin. unfold mi_visible.
    destruct (Hi i Hin) as [Hs _]. pose proof (wf_seqno _ Hwf).
    rewrite !andb_true_iff, !bool_decide_eq_true. split; intros [? ?]; split; try done; lia. }
  by destruct (mt_get key u64_max m).
Qed.

Lemma tx_range_view (ks : Keyspace) r (tx : BaseTransaction M) (t : T) :
  tx_wf tx -> readable_from t (ks_id ks) <= tx_instant tx ->
  exists (m : gmap bytes bytes) l, (forall key, m !! key = tx_view tx t ks key) /\ lists_range m r l /\ delivers (tx_range ks r tx t) l.
Proof.
  intros Hwf Hr. unfold tx_range.
  destruct (tree_range_merged (ks_id ks) r (tx_instant tx) ((fun km => (km.2, tx_seqno tx)) <$> memtables tx !! keyspace_key ks) t Hr)
    as (m & l & Hm & Hl & Hd).
  exists m, l. split; [|done]. intros key. by rewrite Hm, merged_view.
Qed.

(** [WriteTransaction] of [tx/single_writer/write_tx.rs]: a base transaction and the
    guard of the writer lock, so that its reads change nothing. *)
#[export] Instance base_transaction : TransactionOps T (BaseTransaction M) := {|
  txo_get ks key t tx := (tx, tx_get ks key tx t);
  txo_range ks r t tx := (tx, tx_range ks r tx t);
  txo_insert := tx_insert;
  txo_remove := tx_remove
|}.

#[export] Program Instance base_transaction_laws : TransactionLaws T (BaseTransaction M) := {|
  txo_wf := tx_wf;
  txo_room tx := tx_seqno tx < u64_max;
  txo_ready ks t tx := readable_from t (ks_id ks) <= tx_instant tx;
  txo_leads ks tx := True;
  txo_view := tx_view
|}.
Next Obligation.
  intros ks key t x x' r Hwf [= <- <-]. split; [done|]. split; [done|]. intros Hr o. by apply tx_get_view.
Qed.
Next Obligation.
  intros ks r t x x' items _ Hwf [= <- <-]. split; [done|]. split; [done|]. by apply tx_range_view.
Qed.
Next Obligation.
  intros ks key value t x Hwf Hroom Hag.
  destruct (write_simulates ks key value Value x t ltac:(done) Hwf Hroom) as (Hwf' & _ & _ & Hv). done.
Qed.
Next Obligation.
  intros ks key t x Hwf Hroom Hag.
  destruct (write_simulates ks key [] Tombstone x t ltac:(done) Hwf Hroom) as (Hwf' & _ & _ & Hv). done.
Qed.

(** [WriteTransaction] of [tx/optimistic/write_tx.rs]: reads and writes are recorded. *)
#[export] Instance optimistic_transaction : TransactionOps T (WriteTransaction M) := {|
  txo_get := otx_get;
  txo_range := otx_range;
  txo_insert := otx_insert;
  txo_remove := otx_remove
|}.

(** A range with a key in it is one the conflict check accepts. *)
Lemma inhabited_valid r k : in_range r k = true -> valid_read (range_read r.1 r.2) = true.
Proof.
  destruct r as [lo hi]. unfold in_range. cbn [fst snd].
  destruct lo as [a|a|], hi as [b|b|]; cbn; rewrite ?andb_true_iff, ?bool_decide_eq_true; try done.
  all: intros [H1 H2]; apply negb_true_iff, bool_decide_eq_false; intros H3; apply (irreflexivity bytes_lt a).
  - apply (bytes_le_lt_trans _ b); [by trans k|done].
  - trans b; [by apply (bytes_le_lt_trans _ k)|done].
  - trans b; [by apply (bytes_lt_le_trans _ k)|done].
  - apply (bytes_lt_le_trans _ b); [by trans k|done].
Qed.

#[export] Program Instance optimistic_transaction_laws : TransactionLaws T (WriteTransaction M) := {|
  txo_wf := otx_wf;
  txo_room tx := tx_seqno (inner tx) < u64_max;
  txo_ready ks t tx := readable_from t (ks_id ks) <= tx_instant (inner tx);
  txo_leads ks tx := leads_to (inner tx) ks;
  txo_view tx := tx_view (inner tx)
|}.
Next Obligation.
  intros ks key t x x' r Hwf. cbn. unfold otx_get. destruct (tx_get ks key (inner x) t) as [o|e] eqn:E; intros [= <- <-]; [|done].
  split; [by apply mark_read_otx_wf|]. split; [done|]. intros Hr o' [= <-]. by apply tx_get_view.
Qed.
Next Obligation.
  intros ks r t x x' items [k Hk] Hwf [= <- <-].
  split; [apply mark_read_otx_wf; [by eapply inhabited_valid|done]|]. split; [done|]. intros Hr. by apply tx_range_view; [apply Hwf|].
Qed.
Next Obligation.
  intros ks key value t x Hwf Hroom Hag.
  destruct (write_simulates ks key value Value (inner x) t ltac:(done) (otx_inner _ Hwf) Hroom) as (_ & _ & _ & Hv).
  split; [by apply write_otx_wf; [| | | |apply Hwf|]|done].
Qed.
Next Obligation.
  intros ks key t x Hwf Hroom Hag.
  destruct (write_simulates ks key [] Tombstone (inner x) t ltac:(done) (otx_inner _ Hwf) Hroom) as (_ & _ & _ & Hv).
  split; [by apply write_otx_wf; [| | | |apply Hwf|]|done].
Qed.
End transactions.

(** ** In-memory range reads *)

Section in_memory.
Abbreviation Own := (option (list MItem * Z)).

(** The keys a merged read can find. *)
Definition merged_keys (own : Own) (t : history) : list bytes :=
  (v_key <$> t) ++ match own with Some (m, _) => mi_key <$> mt_iter m | None => [] end.

Definition merged_map (ks instant : Z) (own : Own) (t : history) : gmap bytes bytes :=
  list_to_map (omap (fun key => (key,.) <$> merged ks instant own t key) (merged_keys own t)).

Lemma merged_in_keys ks instant own (t : history) key v :
  merged ks instant own t key = Some v -> key ∈ merged_keys own t.
Proof.
  unfold merged, merged_keys. destruct own as [[m s]|]; cbn [mbind option_bind].
  - destruct (mt_get key s m) as [i|] eqn:E.
    + intros _. rewrite mt_get_first in E. apply elem_of_app. right.
      assert (i ∈ filter (fun i => mi_visible key s i = true) (mt_iter m)) as Hin.
      { destruct (filter _ _); simplify_eq/=; left. }
      apply list_elem_of_filter in Hin as [Hv Hin]. unfold mi_visible in Hv.
      apply andb_true_iff in Hv as [<-%bool_decide_eq_true _]. by apply list_elem_of_fmap_2.
    + unfold snapshot_get. destruct (newest _ _ _ _) as [w|] eqn:En; [|done]. intros _.
      apply newest_Some in En as (Hin & Hk & _). apply of_key_spec in Hk as [_ <-].
      apply elem_of_app. left. by apply list_elem_of_fmap_2.
  - unfold snapshot_get. destruct (newest _ _ _ _) as [w|] eqn:En; [|done]. intros _.
    apply newest_Some in En as (Hin & Hk & _). apply of_key_spec in Hk as [_ <-].
    apply elem_of_app. left. by apply list_elem_of_fmap_2.
Qed.

Lemma merged_map_lookup ks instant own t key : merged_map ks instant own t !! key = merged ks instant own t key.
Proof.
  assert (forall v, (key, v) ∈ omap (fun key => (key,.) <$> merged ks instant own t key) (merged_keys own t) <->
    merged ks instant own t key = Some v) as Hin.
  { intros v. rewrite list_elem_of_omap. split.
    - intros (k & _ & E). destruct (merged ks instant own t k) eqn:Em; simplify_eq/=. done.
    - intros E. exists key. split; [by eapply merged_in_keys|by rewrite E]. }
  destruct (merged ks instant own t key) as [v|] eqn:E.
  - apply elem_of_list_to_map_1'; [|by apply Hin]. intros y Hy. apply Hin in Hy. congruence.
  - apply not_elem_of_list_to_map_1. intros ([k v] & -> & Hv)%list_elem_of_fmap. apply Hin in Hv. congruence.
Qed.

#[export] Instance hist_tree_reads : TreeReads history (list MItem) := {|
  tree_contains_key ks key instant t := Ok (bool_decide (is_Some (snapshot_get t ks key instant)));
  tree_size_of ks key instant t := Ok ((fun v => Z.of_nat (length v)) <$> snapshot_get t ks key instant);
  tree_range ks r instant own t := Ok <$> range_entries (merged_map ks instant own t) r
|}.

#[export] Instance hist_tree_reads_laws : TreeReadsLaws history (list MItem).
Proof.
  constructor. intros ks r instant own t _. exists (merged_map ks instant own t), (range_entries (merged_map ks instant own t) r).
  split; [intros key; apply merged_map_lookup|]. split; [apply range_entries_spec|by left].
Qed.
End in_memory.

(** ** Samples *)

Lemma surjective_triple {A B C} (p : A * B * C) : p = (p.1.1, p.1.2, p.2).
Proof. by destruct p as [[]]. Qed.

Definition tx_providers : SecurityProviders (list (AuditEvent nat)) nat :=
  mkSecurityProviders (fun _ => Ok (Some 7%nat)) allow_all_system (fun _ _ p => bool_decide (p <> PDelete))
    (fun _ => Ok auths_empty) (Some (mkAuditConfig log_sink FailClosed)).

Definition tx_secure_keyspace : SecureTxKeyspace :=
  mkSecureTxKeyspace sample_keyspace (s2str "events") (Some sample_encryption).

(** The records of [both_store] as versions of the tree, written at 2. *)
Definition tx_trees : history := (fun kv => mkVersion (ks_id sample_keyspace) kv.1 2 Value kv.2) <$> map_to_list both_store.

Definition guest_tx : SecureWriteTransaction (list (AuditEvent nat)) nat (WriteTransaction (list MItem)) :=
  mkSecureWriteTransaction (mkWriteTransaction (tx_new 3) cm_default) guest_session tx_providers.

(** The guest's transaction after a write of its own. *)
Definition guest_tx_written := (Txn.run tx_trees (SInsert (labelled "" 9) [Byte.x63]) tx_secure_keyspace guest_tx []).1.1.

Lemma guest_tx_wf : otx_wf (stx_inner guest_tx).
Proof.
  constructor; [apply tx_new_wf|apply cm_default_wf|]. intros id h m i E. cbn in E. by rewrite lookup_empty in E.
Qed.

Lemma guest_tx_agrees : leads_to (inner (stx_inner guest_tx_written)) sample_keyspace.
Proof.
  assert (fst <$> memtables (inner (stx_inner guest_tx_written)) !! keyspace_key sample_keyspace = Some sample_keyspace) as E by (vm_compute; reflexivity).
  intros h m Hl. rewrite Hl in E. by injection E as ->.
Qed.

(** The guest sees its own write and the public record, not that of the administrators. *)
Lemma secure_tx_refines_witness :
  let p := Txn.run tx_trees (SScan row_prefix default_scan) tx_secure_keyspace guest_tx_written [] in
  let es := [mkVersionedEntry (labelled "" 9) [Byte.x63]; mkVersionedEntry (labelled "" 5) [Byte.x62]] in
  otx_wf (stx_inner guest_tx_written) /\ p.2 = Ok (REntries es) /\
  answers tx_secure_keyspace auths_empty (SScan row_prefix default_scan)
    (tx_view (inner (stx_inner guest_tx_written)) tx_trees) (tx_view (inner (stx_inner p.1.1)) tx_trees) (REntries es).
Proof.
  intros p es.
  assert (otx_wf (stx_inner guest_tx_written)) as Hwf.
  { exact (proj1 (proj2 (proj2 (secure_tx_refines tx_trees (SInsert (labelled "" 9) [Byte.x63]) tx_secure_keyspace guest_tx
      guest_tx_written [] _ _ guest_tx_wf ltac:(vm_compute; done) ltac:(vm_compute; done) ltac:(by apply leads_empty) (surjective_triple _))))). }
  assert (p.2 = Ok (REntries es)) as E by (vm_compute; reflexivity). split; [exact Hwf|]. split; [exact E|].
  pose proof (secure_tx_refines tx_trees (SScan row_prefix default_scan) tx_secure_keyspace guest_tx_written p.1.1 [] p.1.2 p.2
    Hwf ltac:(vm_compute; done) ltac:(vm_compute; done) guest_tx_agrees (surjective_triple _)) as (_ & _ & _ & H).
  rewrite E in H. exact (proj2 H).
Defined.
