(* ===== verification/KeyspaceConfig.v ===== *)
(** * Encoding of the keyspace policies

    Models [src/src/keyspace/config]: the per-level policies of a keyspace as they are
    stored in the meta keyspace, one length byte and then the entries. A policy is the
    list of its entries; an [f32] is its bit pattern, an integer below [2^32]. [None] is
    a panic of the decoder. *)

From stdpp Require Import base list.
From S2P Require Import Prelude Errors Store Panic JournalEntry.

#[local] Open Scope panic_scope.

(** ** The two traits *)

Class EncodeConfig (A : Type) := encode_config : A -> bytes.
Class DecodeConfig (A : Type) := decode_config : bytes -> PResult A.

(** ** The policies *)

Inductive BloomConstructionPolicy := BitsPerKey (bits : Z) | FalsePositiveRate (fpr : Z).
Inductive FilterPolicyEntry := FilterNone | Bloom (policy : BloomConstructionPolicy).

Record BlockSizePolicy := mkBlockSizePolicy { block_sizes : list Z }.
Record HashRatioPolicy := mkHashRatioPolicy { hash_ratios : list Z }.
Record RestartIntervalPolicy := mkRestartIntervalPolicy { restart_intervals : list byte }.
Record PinningPolicy := mkPinningPolicy { pinnings : list bool }.
Record CompressionPolicy := mkCompressionPolicy { compressions : list CompressionType }.
Record FilterPolicy := mkFilterPolicy { filters : list FilterPolicyEntry }.

(** [PartitioningPolicy] is decoded by [PinningPolicy::decode]. *)
Abbreviation PartitioningPolicy := PinningPolicy.

(** ** The shared shape of the loops *)

(** [write_u8(self.len() as u8)] and the entries. *)
Definition encode_entries {A} (item : A -> bytes) (l : list A) : bytes :=
  byte_of_Z (Z.of_nat (length l)) :: concat (item <$> l).

(** [for _ in 0..len]. *)
Fixpoint decode_loop {A} (item : bytes -> PResult (A * bytes)) (n : nat) (r : bytes) : PResult (list A) :=
  match n with
  | O => p_ret []
  | S n =>
      '(x, r) <-? item r ;;
      v <-? decode_loop item n r ;;
      p_ret (x :: v)
  end.

Definition decode_entries {A} (len : bytes -> PResult (byte * bytes)) (item : bytes -> PResult (A * bytes)) (r : bytes) :
    PResult (list A) :=
  '(n, r) <-? len r ;;
  decode_loop item (Z.to_nat (bval n)) r.

(** ** Block sizes, hash ratios, restart intervals *)

#[export] Instance encode_block_size : EncodeConfig BlockSizePolicy := fun p => encode_entries (le_bytes 4) (block_sizes p).
#[export] Instance decode_block_size : DecodeConfig BlockSizePolicy := fun r =>
  v <-? decode_entries (fun r => p_lift (read_u8 r)) (fun r => p_lift (read_le 4 r)) r ;;
  p_ret (mkBlockSizePolicy v).

#[export] Instance encode_hash_ratio : EncodeConfig HashRatioPolicy := fun p => encode_entries (le_bytes 4) (hash_ratios p).
#[export] Instance decode_hash_ratio : DecodeConfig HashRatioPolicy := fun r =>
  v <-? decode_entries (fun r => p_lift (read_u8 r)) (fun r => p_lift (read_le 4 r)) r ;;
  p_ret (mkHashRatioPolicy v).

#[export] Instance encode_restart_interval : EncodeConfig RestartIntervalPolicy := fun p =>
  encode_entries (fun b => [b]) (restart_intervals p).
#[export] Instance decode_restart_interval : DecodeConfig RestartIntervalPolicy := fun r =>
  v <-? decode_entries (fun r => p_lift (read_u8 r)) (fun r => p_lift (read_u8 r)) r ;;
  p_ret (mkRestartIntervalPolicy v).

(** ** Pinning: the decoder [expect]s its bytes *)

Definition bool_byte (b : bool) : byte := if b then Byte.x01 else Byte.x00.

Definition read_flag (r : bytes) : PResult (bool * bytes) :=
  '(b, r) <-? p_expect_ok (read_u8 r) ;;
  p_ret (bool_decide (b = Byte.x01), r).

#[export] Instance encode_pinning : EncodeConfig PinningPolicy := fun p => encode_entries (fun b => [bool_byte b]) (pinnings p).
#[export] Instance decode_pinning : DecodeConfig PinningPolicy := fun r =>
  v <-? decode_entries (fun r => p_expect_ok (read_u8 r)) read_flag r ;;
  p_ret (mkPinningPolicy v).

(** ** Compression *)

Section compression.
Context `{JournalCodec}.

#[export] Instance encode_compression : EncodeConfig CompressionPolicy := fun p => encode_entries compression_encode (compressions p).
#[export] Instance decode_compression : DecodeConfig CompressionPolicy := fun r =>
  v <-? decode_entries (fun r => p_lift (read_u8 r)) (fun r => p_lift (read_compression r)) r ;;
  p_ret (mkCompressionPolicy v).
End compression.

(** ** Filters: unknown tags panic *)

Definition encode_filter_entry (item : FilterPolicyEntry) : bytes :=
  match item with
  | FilterNone => [Byte.x00]
  | Bloom (BitsPerKey bits) => [Byte.x01; Byte.x00] ++ le_bytes 4 bits
  | Bloom (FalsePositiveRate fpr) => [Byte.x01; Byte.x01] ++ le_bytes 4 fpr
  end.

Definition decode_filter_entry (r : bytes) : PResult (FilterPolicyEntry * bytes) :=
  '(tag, r) <-? p_lift (read_u8 r) ;;
  match tag with
  | Byte.x00 => p_ret (FilterNone, r)
  | Byte.x01 =>
      '(policy_type, r) <-? p_lift (read_u8 r) ;;
      match policy_type with
      | Byte.x00 => '(bits, r) <-? p_lift (read_le 4 r) ;; p_ret (Bloom (BitsPerKey bits), r)
      | Byte.x01 => '(value, r) <-? p_lift (read_le 4 r) ;; p_ret (Bloom (FalsePositiveRate value), r)
      | _ => None
      end
  | _ => None
  end.

#[export] Instance encode_filter : EncodeConfig FilterPolicy := fun p => encode_entries encode_filter_entry (filters p).
#[export] Instance decode_filter : DecodeConfig FilterPolicy := fun r =>
  v <-? decode_entries (fun r => p_lift (read_u8 r)) decode_filter_entry r ;;
  p_ret (mkFilterPolicy v).

(** ** Round trips *)

(** What the decoder makes of the [n] encoded entries in front of [rest]. *)
Lemma decode_loop_entries {A} (enc : A -> bytes) (dec : bytes -> PResult (A * bytes)) (l : list A) n rest :
  (forall x r, x ∈ l -> dec (enc x ++ r) = Some (Ok (x, r))) -> (n <= length l)%nat ->
  decode_loop dec n (concat (enc <$> l) ++ rest) = Some (Ok (take n l)).
Proof.
  revert n rest. induction l as [|x l IH]; intros [|n] rest Hdec Hn; simpl in *; try done; [lia|].
  rewrite <- app_assoc, Hdec by left. cbn [p_bind]. rewrite IH; [done| |lia]. intros y r Hy. apply Hdec. by right.
Qed.

(** A policy survives up to the length its first byte can hold: of [n] entries the
    first [n mod 256] come back. *)
Lemma decode_encode_entries {A} (enc : A -> bytes) (dec : bytes -> PResult (A * bytes)) len (l : list A) :
  (forall b r, len (b :: r) = Some (Ok (b, r))) -> (forall x r, x ∈ l -> dec (enc x ++ r) = Some (Ok (x, r))) ->
  decode_entries len dec (encode_entries enc l) = Some (Ok (take (length l mod 256) l)).
Proof.
  intros Hlen Hdec. unfold decode_entries, encode_entries. rewrite Hlen. cbn [p_bind].
  rewrite bval_byte_of_Z. rewrite <- (app_nil_r (concat _)).
  rewrite <- (Nat2Z.inj_mod _ 256), Nat2Z.id. apply decode_loop_entries; [done|]. apply Nat.Div0.mod_le.
Qed.

(** A policy as the list of its entries. *)
Class Policy (A : Type) `{!EncodeConfig A, !DecodeConfig A} := {
  policy_entry : Type;
  entries : A -> list policy_entry;
  policy_of : list policy_entry -> A;
  policy_of_entries p : policy_of (entries p) = p;
  entries_policy_of l : entries (policy_of l) = l;
  (** The entries have the width of their encoding. *)
  entry_ok : policy_entry -> Prop;
  policy_decode_encode p :
    Forall entry_ok (entries p) ->
    decode_config (encode_config p) = Some (Ok (policy_of (take (length (entries p) mod 256) (entries p))))
}.

Lemma read_u32 x r : is_u32 x -> read_le 4 (le_bytes 4 x ++ r) = Ok (x, r).
Proof. intros Hx. apply read_le_app. unfold_ranges. change (256 ^ Z.of_nat 4) with (2 ^ 32). lia. Qed.

(** The instances differ in their entries only. *)
Ltac solve_policy :=
  intros [l] Hl; cbn [entries] in Hl; unfold decode_config, encode_config;
  unfold decode_block_size, encode_block_size, decode_hash_ratio, encode_hash_ratio, decode_restart_interval,
    encode_restart_interval, decode_pinning, encode_pinning, decode_compression, encode_compression, decode_filter, encode_filter;
  cbn [entries block_sizes hash_ratios restart_intervals pinnings compressions filters] in *;
  rewrite decode_encode_entries; [done|done|];
  let x := fresh "x" in let r := fresh "r" in let Hx := fresh "Hx" in
  intros x r Hx; rewrite Forall_forall in Hl; specialize (Hl x Hx).

#[export] Program Instance block_size_policy : Policy BlockSizePolicy :=
  {| entries := block_sizes; policy_of := mkBlockSizePolicy; entry_ok := is_u32 |}.
Next Obligation. by intros []. Qed.
Next Obligation. done. Qed.
Next Obligation. solve_policy. unfold p_lift. by rewrite read_u32. Qed.

#[export] Program Instance hash_ratio_policy : Policy HashRatioPolicy :=
  {| entries := hash_ratios; policy_of := mkHashRatioPolicy; entry_ok := is_u32 |}.
Next Obligation. by intros []. Qed.
Next Obligation. done. Qed.
Next Obligation. solve_policy. unfold p_lift. by rewrite read_u32. Qed.

#[export] Program Instance restart_interval_policy : Policy RestartIntervalPolicy :=
  {| entries := restart_intervals; policy_of := mkRestartIntervalPolicy; entry_ok _ := True |}.
Next Obligation. by intros []. Qed.
Next Obligation. done. Qed.
Next Obligation. solve_policy. done. Qed.

#[export] Program Instance pinning_policy : Policy PinningPolicy :=
  {| entries := pinnings; policy_of := mkPinningPolicy; entry_ok _ := True |}.
Next Obligation. by intros []. Qed.
Next Obligation. done. Qed.
Next Obligation. solve_policy. by destruct x. Qed.

#[export] Program Instance compression_policy `{JournalCodec} : Policy CompressionPolicy :=
  {| entries := compressions; policy_of := mkCompressionPolicy; entry_ok _ := True |}.
Next Obligation. by intros ? []. Qed.
Next Obligation. done. Qed.
Next Obligation. intros Hc. solve_policy. unfold read_compression. by rewrite compression_roundtrip. Qed.

Definition filter_entry_ok (e : FilterPolicyEntry) : Prop :=
  match e with FilterNone => True | Bloom (BitsPerKey v) | Bloom (FalsePositiveRate v) => is_u32 v end.

#[export] Program Instance filter_policy_policy : Policy FilterPolicy :=
  {| entries := filters; policy_of := mkFilterPolicy; entry_ok := filter_entry_ok |}.
Next Obligation. by intros []. Qed.
Next Obligation. done. Qed.
Next Obligation.
  solve_policy. destruct x as [|[v|v]]; [done|..]; unfold encode_filter_entry; rewrite <- app_assoc;
    cbn [app decode_filter_entry p_bind p_lift read_u8]; by rewrite read_u32.
Qed.

(** ** Properties *)

(** C29: Every policy of at most 255 entries is read back as it was stored, and no longer one
    is: the decoder then returns only the first [n mod 256] of its [n] entries. *)
Theorem policy_roundtrip {A} `{Policy A} (p : A) :
  Forall entry_ok (entries p) ->
  decode_config (encode_config p) = Some (Ok p) <-> (length (entries p) <= 255)%nat.
Proof.
  intros Hp. rewrite policy_decode_encode by done. split.
  - intros [= E]. apply (f_equal (length ∘ entries)) in E. simpl in E. rewrite entries_policy_of, length_take in E.
    pose proof (Nat.mod_upper_bound (length (entries p)) 256). lia.
  - intros Hl. rewrite Nat.mod_small by lia. by rewrite firstn_all, policy_of_entries.
Qed.

Lemma policy_roundtrip_witness :
  let p := mkBlockSizePolicy [4096; 16384] in
  decode_config (encode_config p) = Some (Ok p).
Proof.
  intros p. apply (policy_roundtrip p); [|vm_compute; lia].
  repeat constructor; vm_compute; done.
Defined.

(** Short input is an error of the decoder, except for pinning policies, whose decoder
    panics on it; a filter policy with an unknown tag panics too. *)
Theorem policy_decode_errors :
  decode_block_size [Byte.x02; Byte.x00] = Some (Err (Io UnexpectedEof)) /\
  decode_pinning [Byte.x02; Byte.x01] = None /\
  decode_filter [Byte.x01; Byte.x02] = None.
Proof. vm_compute. done. Qed.
