(* ===== verification/MetaKeyspace.v ===== *)
(** * The meta keyspace

    Models the storage side of [src/src/meta_keyspace.rs]: the keyspace (number 0) that
    maps keyspace ids to names and to configuration entries. The tree is [lsm_tree]'s
    and enters through [ReadableOps] and the bulk writes of [IngestOps]; it is read at
    the newest instant. The dictionary of open keyspaces is in [Catalog]. *)

From stdpp Require Import base gmap list sorting strings.
From S2P Require Import Prelude Errors Utf8 Composite Store Panic.

(** ** Keys *)

(** [encode_config_key]. *)
Definition encode_config_key (keyspace_id : Z) (name : bytes) : bytes := Byte.x63 :: be_bytes 8 keyspace_id ++ name.

(** The prefix of all configuration keys of a keyspace, and the key of its name. *)
Definition config_prefix (keyspace_id : Z) : bytes := Byte.x63 :: be_bytes 8 keyspace_id.
Definition name_key (keyspace_id : Z) : bytes := Byte.x6e :: be_bytes 8 keyspace_id.

(** ** Bulk writes *)

(** [ingestion()], the [write]s or [write_tombstone]s in order, [finish()]. *)
Class IngestOps (S : Type) := { ingest : list (bytes * option bytes) -> StateR S () }.

Definition apply_write (m : gmap bytes bytes) (w : bytes * option bytes) : gmap bytes bytes :=
  match w.2 with Some v => <[w.1 := v]> m | None => delete w.1 m end.

(** Keys must ascend, as the library documents; an ingestion that is not finished
    leaves the tree as it was. *)
Class IngestLaws (S : Type) `{!ReadableOps S, !ReadableLaws S, !IngestOps S} := {
  ingest_law ws s s' r :
    StronglySorted bytes_lt ws.*1 -> ingest ws s = (s', r) ->
    view s' = if is_ok r then foldl apply_write (view s) ws else view s
}.

#[export] Instance gmap_ingest_ops : IngestOps (gmap bytes bytes) := {| ingest ws m := (foldl apply_write m ws, Ok ()) |}.
#[export] Program Instance gmap_ingest_laws : IngestLaws (gmap bytes bytes).
Next Obligation. intros. simpl in *. by simplify_eq. Qed.

(** ** Operations on the tree *)

Section operations.
Context `{PrefixRange} {S : Type} `{!ReadableOps S, !IngestOps S}.

(** [get_kv_for_config]. *)
Definition get_kv_for_config (keyspace_id : Z) (name : string) (s : S) : Result (option bytes) :=
  rd_get (encode_config_key keyspace_id (str_bytes (s2str name))) s.

(** [resolve_id]; [None] is the panic on a name that is not UTF-8. *)
Definition resolve_id (id : Z) (s : S) : PResult (option str) :=
  match rd_get (name_key id) s with
  | Err e => Some (Err e)
  | Ok None => Some (Ok None)
  | Ok (Some v) => match from_utf8 v with Some name => Some (Ok (Some name)) | None => None end
  end.

(** The keys of a prefix scan ([config_kv.key()?]). *)
Fixpoint guard_keys (items : list (Result entry)) : Result (list bytes) :=
  match items with
  | [] => Ok []
  | guard :: items => kv ← guard; keys ← guard_keys items; Ok (kv.1 :: keys)
  end.

(** The writes of [create_keyspace]: the configuration and the name, sorted by key. *)
Fixpoint insert_sorted (kv : bytes * option bytes) (l : list (bytes * option bytes)) : list (bytes * option bytes) :=
  match l with
  | [] => [kv]
  | kv' :: l => if decide (bytes_le kv.1 kv'.1) then kv :: kv' :: l else kv' :: insert_sorted kv l
  end.

(** [kvs.sort_by(|(a, _), (b, _)| a.cmp(b))], a stable sort. *)
Definition sort_by_key (l : list (bytes * option bytes)) : list (bytes * option bytes) := foldr insert_sorted [] l.

Definition create_entries (keyspace_id : Z) (name : str) (kvs : list entry) : list (bytes * option bytes) :=
  sort_by_key (((fun kv => (kv.1, Some kv.2)) <$> kvs) ++ [(name_key keyspace_id, Some (str_bytes name))]).

Definition write_keyspace (keyspace_id : Z) (name : str) (kvs : list entry) : StateR S () :=
  ingest (create_entries keyspace_id name kvs).

(** The ingestion of [remove_keyspace]: tombstones for every configuration key and the
    name. An error of the scan drops the ingestion. *)
Definition erase_keyspace (keyspace_id : Z) : StateR S () := fun s =>
  match guard_keys (rd_range (prefix_to_range (config_prefix keyspace_id)) s) with
  | Err e => (s, Err e)
  | Ok keys => ingest (((.,None) <$> keys) ++ [(name_key keyspace_id, None)]) s
  end.
End operations.

(** ** Keys are distinct *)

Lemma be_bytes_inj n x y :
  0 <= x < 256 ^ Z.of_nat n -> 0 <= y < 256 ^ Z.of_nat n -> be_bytes n x = be_bytes n y -> x = y.
Proof. intros Hx Hy E. by rewrite <- (be_val_bytes n x), <- (be_val_bytes n y), E. Qed.

Lemma be8_inj x y : is_u64 x -> is_u64 y -> be_bytes 8 x = be_bytes 8 y -> x = y.
Proof. unfold_ranges. intros Hx Hy. apply be_bytes_inj; change (256 ^ Z.of_nat 8) with (2 ^ 64); lia. Qed.

Lemma encode_config_key_prefix id name : encode_config_key id name = config_prefix id ++ name.
Proof. done. Qed.

Lemma config_prefix_of id id' name :
  is_u64 id -> is_u64 id' -> config_prefix id `prefix_of` encode_config_key id' name <-> id = id'.
Proof.
  intros Hi Hi'. split; [|intros ->; by exists name].
  intros [k E]. apply (f_equal (take 8 ∘ tail)) in E. unfold encode_config_key, config_prefix, compose in E.
  cbn [tail app] in E. rewrite !take_app_length' in E by (by rewrite be_bytes_length). by apply be8_inj.
Qed.

Lemma encode_config_key_inj id name id' name' :
  is_u64 id -> is_u64 id' -> encode_config_key id name = encode_config_key id' name' -> id = id' /\ name = name'.
Proof.
  intros Hi Hi' E. assert (id = id') as <-.
  { apply (config_prefix_of id id' name' Hi Hi'). rewrite <- E. by exists name. }
  split; [done|]. rewrite !encode_config_key_prefix in E. by apply (inj (app _)) in E.
Qed.

Lemma name_key_inj id id' : is_u64 id -> is_u64 id' -> name_key id = name_key id' -> id = id'.
Proof. intros Hi Hi' E. apply (f_equal tail) in E. by apply be8_inj. Qed.

(** Configuration keys sort before name keys. *)
Lemma config_before_name id name id' : bytes_lt (encode_config_key id name) (name_key id').
Proof. done. Qed.

(** ** Sorting *)

Lemma insert_sorted_perm kv l : insert_sorted kv l ≡ₚ kv :: l.
Proof. induction l as [|x l IH]; simpl; [done|]. case_decide; [done|]. rewrite IH. apply perm_swap. Qed.

Lemma sort_by_key_perm l : sort_by_key l ≡ₚ l.
Proof. induction l as [|kv l IH]; simpl; [done|]. by rewrite insert_sorted_perm, IH. Qed.

Lemma insert_sorted_lt kv l :
  StronglySorted bytes_lt l.*1 -> kv.1 ∉ l.*1 -> StronglySorted bytes_lt (insert_sorted kv l).*1.
Proof.
  induction l as [|x l IH]; intros Hs Hn; [repeat constructor|]. csimpl in *.
  apply not_elem_of_cons in Hn as [Hne Hn]. apply StronglySorted_inv in Hs as [Hs Hx].
  destruct (decide (bytes_le kv.1 x.1)) as [Hle|Hgt]; csimpl.
  - apply bytes_le_lt_eq in Hle as [Hlt|?]; [|done]. constructor; [by constructor|]. constructor; [done|].
    apply (Forall_impl _ _ _ Hx). intros y Hy. by trans x.1.
  - apply bytes_not_le in Hgt. constructor; [by apply IH|]. rewrite insert_sorted_perm. by constructor.
Qed.

(** Distinct keys come out in strictly ascending order, as the ingestion needs. *)
Lemma sort_by_key_lt l : NoDup l.*1 -> StronglySorted bytes_lt (sort_by_key l).*1.
Proof.
  induction l as [|kv l IH]; intros Hnd; [constructor|]. csimpl in Hnd. apply NoDup_cons in Hnd as [Hn Hnd].
  simpl. apply insert_sorted_lt; [by apply IH|]. by rewrite sort_by_key_perm.
Qed.

(** ** What a sequence of writes leaves *)

Lemma foldl_apply_write ws m :
  NoDup ws.*1 -> forall k, foldl apply_write m ws !! k =
    match list_find (fun w => w.1 = k) ws with Some (_, w) => w.2 | None => m !! k end.
Proof.
  revert m. induction ws as [|[k' o] ws IH]; intros m Hnd k; [done|]. csimpl in *. apply NoDup_cons in Hnd as [Hn Hnd].
  rewrite IH by done. case_decide as E; simpl in E.
  - subst k'. rewrite (proj2 (list_find_None _ _)).
    + unfold apply_write. simpl. destruct o; by rewrite ?lookup_insert_eq, ?lookup_delete_eq.
    + apply Forall_forall. intros w Hw <-. apply Hn. by apply list_elem_of_fmap_2.
  - destruct (list_find _ ws) as [[i w]|] eqn:Ef; [done|]. simpl. unfold apply_write. simpl.
    destruct o; by rewrite ?lookup_insert_ne, ?lookup_delete_ne by done.
Qed.

Lemma nodup_keys_unique {A B} (l : list (A * B)) k x y : NoDup l.*1 -> (k, x) ∈ l -> (k, y) ∈ l -> x = y.
Proof.
  induction l as [|[k' z] l IH]; csimpl; [by intros _ ?%elem_of_nil|]. intros [Hn Hnd]%NoDup_cons.
  intros [?|Hx]%elem_of_cons [?|Hy]%elem_of_cons; simplify_eq; auto.
  - by destruct Hn; apply (list_elem_of_fmap_2 fst) in Hy.
  - by destruct Hn; apply (list_elem_of_fmap_2 fst) in Hx.
Qed.

(** In terms of membership: a written key has its write, another key is untouched. *)
Lemma apply_writes_lookup ws m k o :
  NoDup ws.*1 -> (k, o) ∈ ws -> foldl apply_write m ws !! k = o.
Proof.
  intros Hnd Hin. rewrite foldl_apply_write by done.
  destruct (list_find _ ws) as [[i w]|] eqn:Ef.
  - apply list_find_Some in Ef as (Hi & Hk & _). apply list_elem_of_lookup_2 in Hi.
    destruct w as [k' o']. simpl in *. subst k'. by apply (nodup_keys_unique ws k).
  - apply list_find_None in Ef. rewrite Forall_forall in Ef. by destruct (Ef _ Hin).
Qed.

Lemma apply_writes_other ws m k : NoDup ws.*1 -> k ∉ ws.*1 -> foldl apply_write m ws !! k = m !! k.
Proof.
  intros Hnd Hk. rewrite foldl_apply_write by done. destruct (list_find _ ws) as [[i w]|] eqn:Ef; [|done].
  apply list_find_Some in Ef as (Hi & <- & _). apply list_elem_of_lookup_2 in Hi. by destruct Hk; apply list_elem_of_fmap_2.
Qed.
