(* ===== verification/KeyspaceOptions.v ===== *)
(** * Keyspace options

    Models [src/src/keyspace/options.rs]: the options a keyspace is created with, their
    setters, and the configuration entries under which they are kept in the meta
    keyspace ([encode_kvs]) and read back at recovery ([from_kvs]). An [f32] is its bit
    pattern; a compaction filter factory is an opaque value of type [F]. *)

From stdpp Require Import base gmap list strings.
From S2P Require Import Prelude Errors Utf8 Composite Store Panic JournalEntry KeyspaceConfig MetaKeyspace.

#[local] Open Scope panic_scope.

(** ** Compaction strategies and key-value separation ([lsm_tree]) *)

Inductive CompactionStrategy :=
  | Leveled (l0_threshold : byte) (target_size : Z) (level_ratio_policy : list Z)
  | Fifo (limit : Z) (ttl_seconds : option Z)
  | OtherStrategy (name : string).

Record KvSeparationOptions := mkKvSeparationOptions {
  kv_compression : CompressionType;
  file_target_size : Z;
  separation_threshold : Z;
  staleness_threshold : Z;
  age_cutoff : Z
}.

Definition LEVELED_COMPACTION_NAME : string := "LeveledCompaction".
Definition FIFO_COMPACTION_NAME : string := "FifoCompaction".

(** [CompactionStrategy::get_name]. *)
Definition get_name (c : CompactionStrategy) : string :=
  match c with
  | Leveled _ _ _ => LEVELED_COMPACTION_NAME
  | Fifo _ _ => FIFO_COMPACTION_NAME
  | OtherStrategy name => name
  end.

(** [CompactionStrategy::get_config] is the library's; recovery relies on its entries. *)
Class StrategyConfig := {
  get_config : CompactionStrategy -> list (string * bytes);
  get_config_names c : NoDup (get_config c).*1;
  get_config_leveled l0 target ratios name value :
    (name, value) ∈ get_config (Leveled l0 target ratios) <->
    (name, value) ∈ [("leveled_l0_threshold"%string, [l0]); ("leveled_target_size"%string, le_bytes 8 target);
                     ("leveled_level_ratio_policy"%string, encode_entries (le_bytes 4) ratios)];
  get_config_fifo limit ttl name value :
    (name, value) ∈ get_config (Fifo limit ttl) <->
    (name, value) ∈ [("fifo_limit"%string, le_bytes 8 limit);
                     ("fifo_ttl"%string, [bool_byte (bool_decide (is_Some ttl))])] ++
                    match ttl with Some s => [("fifo_ttl_seconds"%string, le_bytes 8 s)] | None => [] end
}.

(** ** The options *)

Record CreateOptions (F : Type) := mkCreateOptions {
  level_count : byte;
  max_memtable_size : Z;
  data_block_hash_ratio_policy : HashRatioPolicy;
  data_block_size_policy : BlockSizePolicy;
  data_block_restart_interval_policy : RestartIntervalPolicy;
  index_block_restart_interval_policy : RestartIntervalPolicy;
  index_block_pinning_policy : PinningPolicy;
  filter_block_pinning_policy : PinningPolicy;
  filter_block_partitioning_policy : PartitioningPolicy;
  index_block_partitioning_policy : PartitioningPolicy;
  expect_point_read_hits : bool;
  filter_policy : FilterPolicy;
  data_block_compression_policy : CompressionPolicy;
  index_block_compression_policy : CompressionPolicy;
  manual_journal_persist : bool;
  compaction_strategy : CompactionStrategy;
  kv_separation_opts : option KvSeparationOptions;
  compaction_filter_factory : option F
}.
Arguments mkCreateOptions {F}.
Arguments level_count {F}.
Arguments max_memtable_size {F}.
Arguments data_block_hash_ratio_policy {F}.
Arguments data_block_size_policy {F}.
Arguments data_block_restart_interval_policy {F}.
Arguments index_block_restart_interval_policy {F}.
Arguments index_block_pinning_policy {F}.
Arguments filter_block_pinning_policy {F}.
Arguments filter_block_partitioning_policy {F}.
Arguments index_block_partitioning_policy {F}.
Arguments expect_point_read_hits {F}.
Arguments filter_policy {F}.
Arguments data_block_compression_policy {F}.
Arguments index_block_compression_policy {F}.
Arguments manual_journal_persist {F}.
Arguments compaction_strategy {F}.
Arguments kv_separation_opts {F}.
Arguments compaction_filter_factory {F}.

(** [Default], with the [lz4] feature; the level count and the strategy are
    [lsm_tree]'s, the floats [0.0001] and [10.0] are bit patterns. *)
Definition default_options {F} (tree_level_count : byte) (leveled_default : CompactionStrategy) : CreateOptions F := {|
  level_count := tree_level_count;
  max_memtable_size := 64 * 1024 * 1024;
  data_block_hash_ratio_policy := mkHashRatioPolicy [0];
  data_block_size_policy := mkBlockSizePolicy [4 * 1024];
  data_block_restart_interval_policy := mkRestartIntervalPolicy [Byte.x0a; Byte.x10];
  index_block_restart_interval_policy := mkRestartIntervalPolicy [Byte.x01];
  index_block_pinning_policy := mkPinningPolicy [true; true; false];
  filter_block_pinning_policy := mkPinningPolicy [true; false];
  filter_block_partitioning_policy := mkPinningPolicy [false; false; false; true];
  index_block_partitioning_policy := mkPinningPolicy [false; false; false; true];
  expect_point_read_hits := false;
  filter_policy := mkFilterPolicy [Bloom (FalsePositiveRate 0x38d1b717); Bloom (BitsPerKey 0x41200000)];
  data_block_compression_policy := mkCompressionPolicy [CompressionNone; CompressionNone; Lz4];
  index_block_compression_policy := mkCompressionPolicy [CompressionNone];
  manual_journal_persist := false;
  compaction_strategy := leveled_default;
  kv_separation_opts := None;
  compaction_filter_factory := None
|}.

(** ** Setters

    The methods of the builder; [set_f] is the method [f]. *)

Definition with_kv_separation {F} (opts : option KvSeparationOptions) (o : CreateOptions F) : CreateOptions F :=
  let '(mkCreateOptions lc ms hr bs dr ir ip fp fpt ipt hits fpol dc ic mjp cs _ ff) := o in
  mkCreateOptions lc ms hr bs dr ir ip fp fpt ipt hits fpol dc ic mjp cs opts ff.
Definition with_compaction_filter_factory {F} (factory : F) (o : CreateOptions F) : CreateOptions F :=
  let '(mkCreateOptions lc ms hr bs dr ir ip fp fpt ipt hits fpol dc ic mjp cs kv _) := o in
  mkCreateOptions lc ms hr bs dr ir ip fp fpt ipt hits fpol dc ic mjp cs kv (Some factory).
Definition set_data_block_restart_interval_policy {F} (x : RestartIntervalPolicy) (o : CreateOptions F) : CreateOptions F :=
  let '(mkCreateOptions lc ms hr bs _ ir ip fp fpt ipt hits fpol dc ic mjp cs kv ff) := o in
  mkCreateOptions lc ms hr bs x ir ip fp fpt ipt hits fpol dc ic mjp cs kv ff.
Definition set_filter_block_pinning_policy {F} (x : PinningPolicy) (o : CreateOptions F) : CreateOptions F :=
  let '(mkCreateOptions lc ms hr bs dr ir ip _ fpt ipt hits fpol dc ic mjp cs kv ff) := o in
  mkCreateOptions lc ms hr bs dr ir ip x fpt ipt hits fpol dc ic mjp cs kv ff.
Definition set_index_block_pinning_policy {F} (x : PinningPolicy) (o : CreateOptions F) : CreateOptions F :=
  let '(mkCreateOptions lc ms hr bs dr ir _ fp fpt ipt hits fpol dc ic mjp cs kv ff) := o in
  mkCreateOptions lc ms hr bs dr ir x fp fpt ipt hits fpol dc ic mjp cs kv ff.
Definition set_filter_block_partitioning_policy {F} (x : PartitioningPolicy) (o : CreateOptions F) : CreateOptions F :=
  let '(mkCreateOptions lc ms hr bs dr ir ip fp _ ipt hits fpol dc ic mjp cs kv ff) := o in
  mkCreateOptions lc ms hr bs dr ir ip fp x ipt hits fpol dc ic mjp cs kv ff.
Definition set_index_block_partitioning_policy {F} (x : PartitioningPolicy) (o : CreateOptions F) : CreateOptions F :=
  let '(mkCreateOptions lc ms hr bs dr ir ip fp fpt _ hits fpol dc ic mjp cs kv ff) := o in
  mkCreateOptions lc ms hr bs dr ir ip fp fpt x hits fpol dc ic mjp cs kv ff.
Definition set_data_block_hash_ratio_policy {F} (x : HashRatioPolicy) (o : CreateOptions F) : CreateOptions F :=
  let '(mkCreateOptions lc ms _ bs dr ir ip fp fpt ipt hits fpol dc ic mjp cs kv ff) := o in
  mkCreateOptions lc ms x bs dr ir ip fp fpt ipt hits fpol dc ic mjp cs kv ff.
Definition set_filter_policy {F} (x : FilterPolicy) (o : CreateOptions F) : CreateOptions F :=
  let '(mkCreateOptions lc ms hr bs dr ir ip fp fpt ipt hits _ dc ic mjp cs kv ff) := o in
  mkCreateOptions lc ms hr bs dr ir ip fp fpt ipt hits x dc ic mjp cs kv ff.
Definition set_expect_point_read_hits {F} (x : bool) (o : CreateOptions F) : CreateOptions F :=
  let '(mkCreateOptions lc ms hr bs dr ir ip fp fpt ipt _ fpol dc ic mjp cs kv ff) := o in
  mkCreateOptions lc ms hr bs dr ir ip fp fpt ipt x fpol dc ic mjp cs kv ff.
Definition set_data_block_compression_policy {F} (x : CompressionPolicy) (o : CreateOptions F) : CreateOptions F :=
  let '(mkCreateOptions lc ms hr bs dr ir ip fp fpt ipt hits fpol _ ic mjp cs kv ff) := o in
  mkCreateOptions lc ms hr bs dr ir ip fp fpt ipt hits fpol x ic mjp cs kv ff.
Definition set_index_block_compression_policy {F} (x : CompressionPolicy) (o : CreateOptions F) : CreateOptions F :=
  let '(mkCreateOptions lc ms hr bs dr ir ip fp fpt ipt hits fpol dc _ mjp cs kv ff) := o in
  mkCreateOptions lc ms hr bs dr ir ip fp fpt ipt hits fpol dc x mjp cs kv ff.
Definition set_compaction_strategy {F} (x : CompactionStrategy) (o : CreateOptions F) : CreateOptions F :=
  let '(mkCreateOptions lc ms hr bs dr ir ip fp fpt ipt hits fpol dc ic mjp _ kv ff) := o in
  mkCreateOptions lc ms hr bs dr ir ip fp fpt ipt hits fpol dc ic mjp x kv ff.
Definition set_manual_journal_persist {F} (x : bool) (o : CreateOptions F) : CreateOptions F :=
  let '(mkCreateOptions lc ms hr bs dr ir ip fp fpt ipt hits fpol dc ic _ cs kv ff) := o in
  mkCreateOptions lc ms hr bs dr ir ip fp fpt ipt hits fpol dc ic x cs kv ff.
Definition set_max_memtable_size {F} (x : Z) (o : CreateOptions F) : CreateOptions F :=
  let '(mkCreateOptions lc _ hr bs dr ir ip fp fpt ipt hits fpol dc ic mjp cs kv ff) := o in
  mkCreateOptions lc x hr bs dr ir ip fp fpt ipt hits fpol dc ic mjp cs kv ff.
Definition set_data_block_size_policy {F} (x : BlockSizePolicy) (o : CreateOptions F) : CreateOptions F :=
  let '(mkCreateOptions lc ms hr _ dr ir ip fp fpt ipt hits fpol dc ic mjp cs kv ff) := o in
  mkCreateOptions lc ms hr x dr ir ip fp fpt ipt hits fpol dc ic mjp cs kv ff.

Section kvs.
Context `{JournalCodec, StrategyConfig} {F : Type}.

(** ** Encoding *)

(** The entries every keyspace has ([encode_kvs], the initial vector). *)
Definition base_entries (o : CreateOptions F) : list (string * bytes) :=
  [("compaction_strategy", str_bytes (s2str (get_name (compaction_strategy o))));
   ("data_block_compression_policy", encode_config (data_block_compression_policy o));
   ("data_block_hash_ratio_policy", encode_config (data_block_hash_ratio_policy o));
   ("data_block_restart_interval_policy", encode_config (data_block_restart_interval_policy o));
   ("data_block_size_policy", encode_config (data_block_size_policy o));
   ("expect_point_read_hits", [bool_byte (expect_point_read_hits o)]);
   ("filter_block_partitioning_policy", encode_config (filter_block_partitioning_policy o));
   ("filter_block_pinning_policy", encode_config (filter_block_pinning_policy o));
   ("filter_policy", encode_config (filter_policy o));
   ("index_block_compression_policy", encode_config (index_block_compression_policy o));
   ("index_block_partitioning_policy", encode_config (index_block_partitioning_policy o));
   ("index_block_pinning_policy", encode_config (index_block_pinning_policy o));
   ("index_block_restart_interval_policy", encode_config (index_block_restart_interval_policy o));
   ("level_count", [level_count o]);
   ("manual_journal_persist", [bool_byte (manual_journal_persist o)]);
   ("max_memtable_size", le_bytes 8 (max_memtable_size o));
   ("version", [Byte.x03])]%string.

(** The entries of the strategy; other strategies panic. *)
Definition strategy_entries (c : CompactionStrategy) : option (list (string * bytes)) :=
  if bool_decide (get_name c = "LeveledCompaction"%string) || bool_decide (get_name c = "FifoCompaction"%string)
  then Some (get_config c) else None.

Definition blob_entries (blob : option KvSeparationOptions) : list (string * bytes) :=
  match blob with
  | None => []
  | Some b =>
      [("blob", [Byte.x01]);
       ("blob_age_cutoff", le_bytes 4 (age_cutoff b));
       ("blob_compression", compression_encode (kv_compression b));
       ("blob_file_target_size", le_bytes 8 (file_target_size b));
       ("blob_separation_threshold", le_bytes 4 (separation_threshold b));
       ("blob_staleness_threshold", le_bytes 4 (staleness_threshold b))]%string
  end.

Definition config_entries (o : CreateOptions F) : option (list (string * bytes)) :=
  strategy ← strategy_entries (compaction_strategy o);
  Some (base_entries o ++ strategy ++ blob_entries (kv_separation_opts o)).

(** [encode_kvs]. *)
Definition encode_kvs (keyspace_id : Z) (o : CreateOptions F) : option (list entry) :=
  option_map (map (fun kv => (encode_config_key keyspace_id (str_bytes (s2str kv.1)), kv.2))) (config_entries o).

(** ** Decoding *)

Section from_kvs.
Context {S : Type} `{!ReadableOps S} (keyspace_id : Z) (s : S).

(** [get_kv_for_config(..)?.expect(..)]. *)
Definition required_kv (name : string) : PResult bytes :=
  match get_kv_for_config keyspace_id name s with
  | Err e => Some (Err e)
  | Ok None => None
  | Ok (Some v) => Some (Ok v)
  end.

Definition required_policy {A} `{!DecodeConfig A} (name : string) : PResult A :=
  v <-? required_kv name ;;
  decode_config v.

(** A fixed-width integer or float at the start of the value. *)
Definition required_le (width : nat) (name : string) : PResult Z :=
  v <-? required_kv name ;;
  '(z, _) <-? p_lift (read_le width v) ;;
  p_ret z.

(** [== [1]]. *)
Definition required_flag (name : string) : PResult bool :=
  v <-? required_kv name ;;
  p_ret (bool_decide (v = [Byte.x01])).

(** The body of [blob.map(|_| ..)]. *)
Definition read_blob_opts : PResult KvSeparationOptions :=
  blob_age_cutoff <-? required_le 4 "blob_age_cutoff" ;;
  v <-? required_kv "blob_compression" ;;
  '(blob_compression, _) <-? p_lift (read_compression v) ;;
  file_target_size <-? required_le 8 "blob_file_target_size" ;;
  separation_threshold <-? required_le 4 "blob_separation_threshold" ;;
  staleness_threshold <-? required_le 4 "blob_staleness_threshold" ;;
  p_ret (mkKvSeparationOptions blob_compression file_target_size separation_threshold staleness_threshold blob_age_cutoff).

(** Its error is kept until [blob_opts.transpose()?]. *)
Definition read_blob (blob : option bytes) : option (option (Result KvSeparationOptions)) :=
  match blob with
  | None => Some None
  | Some _ => match read_blob_opts with Some r => Some (Some r) | None => None end
  end.

Definition transpose_blob (blob_opts : option (Result KvSeparationOptions)) : PResult (option KvSeparationOptions) :=
  match blob_opts with
  | None => p_ret None
  | Some (Ok b) => p_ret (Some b)
  | Some (Err e) => Some (Err e)
  end.

Definition read_leveled : PResult CompactionStrategy :=
  v <-? required_kv "leveled_l0_threshold" ;;
  '(l0_threshold, _) <-? p_lift (read_u8 v) ;;
  target_size <-? required_le 8 "leveled_target_size" ;;
  level_ratio_policy_bytes <-? required_kv "leveled_level_ratio_policy" ;;
  ratios <-? decode_entries (fun r => p_lift (read_u8 r)) (fun r => p_lift (read_le 4 r)) level_ratio_policy_bytes ;;
  p_ret (Leveled l0_threshold target_size ratios).

Definition read_fifo : PResult CompactionStrategy :=
  fifo_limit <-? required_le 8 "fifo_limit" ;;
  has_ttl <-? required_flag "fifo_ttl" ;;
  ttl_seconds <-? (if (has_ttl : bool) then (t <-? required_le 8 "fifo_ttl_seconds" ;; p_ret (Some t)) else p_ret None) ;;
  p_ret (Fifo fifo_limit ttl_seconds).

Definition read_strategy : PResult CompactionStrategy :=
  name <-? required_kv "compaction_strategy" ;;
  name <-? p_expect (from_utf8 name) ;;
  if decide (name = s2str LEVELED_COMPACTION_NAME) then read_leveled
  else if decide (name = s2str FIFO_COMPACTION_NAME) then read_fifo
  else None.

(** [from_kvs]. *)
Definition from_kvs : PResult (CreateOptions F) :=
  blob <-? p_lift (get_kv_for_config keyspace_id "blob" s) ;;
  data_block_compression <-? required_policy "data_block_compression_policy" ;;
  index_block_compression <-? required_policy "index_block_compression_policy" ;;
  data_block_size <-? required_policy "data_block_size_policy" ;;
  filter_block_partitioning <-? required_policy "filter_block_partitioning_policy" ;;
  index_block_partitioning <-? required_policy "index_block_partitioning_policy" ;;
  filter_block_pinning <-? required_policy "filter_block_pinning_policy" ;;
  index_block_pinning <-? required_policy "index_block_pinning_policy" ;;
  data_block_restart_interval <-? required_policy "data_block_restart_interval_policy" ;;
  index_block_restart_interval <-? required_policy "index_block_restart_interval_policy" ;;
  data_block_hash_ratio <-? required_policy "data_block_hash_ratio_policy" ;;
  point_read_hits <-? required_flag "expect_point_read_hits" ;;
  filters <-? required_policy "filter_policy" ;;
  blob_opts <-? p_expect (read_blob blob) ;;
  strategy <-? read_strategy ;;
  manual <-? required_flag "manual_journal_persist" ;;
  memtable_size <-? required_le 8 "max_memtable_size" ;;
  separation <-? transpose_blob blob_opts ;;
  p_ret {|
    level_count := Byte.x07;
    max_memtable_size := memtable_size;
    data_block_hash_ratio_policy := data_block_hash_ratio;
    data_block_size_policy := data_block_size;
    data_block_restart_interval_policy := data_block_restart_interval;
    index_block_restart_interval_policy := index_block_restart_interval;
    index_block_pinning_policy := index_block_pinning;
    filter_block_pinning_policy := filter_block_pinning;
    filter_block_partitioning_policy := filter_block_partitioning;
    index_block_partitioning_policy := index_block_partitioning;
    expect_point_read_hits := point_read_hits;
    filter_policy := filters;
    data_block_compression_policy := data_block_compression;
    index_block_compression_policy := index_block_compression;
    manual_journal_persist := manual;
    compaction_strategy := strategy;
    kv_separation_opts := separation;
    compaction_filter_factory := None
  |}.
End from_kvs.
End kvs.

(** ** Names of entries *)

Lemma s2str_is_str name : is_str (s2str name).
Proof.
  unfold is_str, s2str. apply Forall_fmap, Forall_forall. intros a _. unfold is_scalar. simpl.
  pose proof (Ascii.N_ascii_bounded a). apply orb_true_iff. left. rewrite andb_true_iff, Z.leb_le, Z.ltb_lt. lia.
Qed.

Lemma s2str_inj a b : s2str a = s2str b -> a = b.
Proof.
  unfold s2str. intros E. rewrite <- (String.string_of_list_ascii_of_string a), <- (String.string_of_list_ascii_of_string b).
  f_equal. revert E. generalize (String.list_ascii_of_string a) (String.list_ascii_of_string b). clear.
  induction l as [|x l IH]; intros [|y l'] E; csimpl in E; simplify_eq; [done|]. f_equal; [|by apply IH].
  by rewrite <- (Ascii.ascii_N_embedding x), <- (Ascii.ascii_N_embedding y), H.
Qed.

Definition entry_name (name : string) : bytes := str_bytes (s2str name).

Lemma entry_name_inj a b : entry_name a = entry_name b -> a = b.
Proof. intros E. apply s2str_inj, str_bytes_inj; [apply s2str_is_str..|done]. Qed.

(** ** Options that fit their encoding *)

Definition policy_ok {A} `{Policy A} (p : A) : Prop := (length (entries p) <= 255)%nat /\ Forall entry_ok (entries p).

Definition strategy_ok (c : CompactionStrategy) : Prop :=
  match c with
  | Leveled _ target ratios => is_u64 target /\ (length ratios <= 255)%nat /\ Forall is_u32 ratios
  | Fifo limit ttl => is_u64 limit /\ match ttl with Some t => is_u64 t | None => True end
  | OtherStrategy _ => False
  end.

Definition blob_ok (b : KvSeparationOptions) : Prop :=
  is_u64 (file_target_size b) /\ is_u32 (separation_threshold b) /\ is_u32 (staleness_threshold b) /\ is_u32 (age_cutoff b).

Record options_ok `{JournalCodec} {F} (o : CreateOptions F) : Prop := {
  ok_memtable : is_u64 (max_memtable_size o);
  ok_hash : policy_ok (data_block_hash_ratio_policy o);
  ok_size : policy_ok (data_block_size_policy o);
  ok_data_restart : policy_ok (data_block_restart_interval_policy o);
  ok_index_restart : policy_ok (index_block_restart_interval_policy o);
  ok_index_pinning : policy_ok (index_block_pinning_policy o);
  ok_filter_pinning : policy_ok (filter_block_pinning_policy o);
  ok_filter_part : policy_ok (filter_block_partitioning_policy o);
  ok_index_part : policy_ok (index_block_partitioning_policy o);
  ok_filter : policy_ok (filter_policy o);
  ok_data_compression : policy_ok (data_block_compression_policy o);
  ok_index_compression : policy_ok (index_block_compression_policy o);
  ok_strategy : strategy_ok (compaction_strategy o);
  ok_blob b : kv_separation_opts o = Some b -> blob_ok b
}.

(** What comes back: the number of levels is fixed at 7 and the filter factory is
    installed anew by the database. *)
Definition restored {F} (o : CreateOptions F) : CreateOptions F := {|
  level_count := Byte.x07;
  max_memtable_size := max_memtable_size o;
  data_block_hash_ratio_policy := data_block_hash_ratio_policy o;
  data_block_size_policy := data_block_size_policy o;
  data_block_restart_interval_policy := data_block_restart_interval_policy o;
  index_block_restart_interval_policy := index_block_restart_interval_policy o;
  index_block_pinning_policy := index_block_pinning_policy o;
  filter_block_pinning_policy := filter_block_pinning_policy o;
  filter_block_partitioning_policy := filter_block_partitioning_policy o;
  index_block_partitioning_policy := index_block_partitioning_policy o;
  expect_point_read_hits := expect_point_read_hits o;
  filter_policy := filter_policy o;
  data_block_compression_policy := data_block_compression_policy o;
  index_block_compression_policy := index_block_compression_policy o;
  manual_journal_persist := manual_journal_persist o;
  compaction_strategy := compaction_strategy o;
  kv_separation_opts := kv_separation_opts o;
  compaction_filter_factory := None
|}.

(** The three groups of entries. *)
Lemma config_entries_groups `{JournalCodec, StrategyConfig} {F} (o : CreateOptions F) kvs :
  config_entries o = Some kvs ->
  kvs = base_entries o ++ get_config (compaction_strategy o) ++ blob_entries (kv_separation_opts o).
Proof. unfold config_entries, strategy_entries. by destruct (_ || _); [intros [= <-]|]. Qed.

(** ** Reading back *)

Section roundtrip.
Context `{JournalCodec, StrategyConfig} {F S : Type} `{!ReadableOps S, !ReadableLaws S}.
Context (id : Z) (o : CreateOptions F) (kvs : list (string * bytes)) (s : S).
Hypothesis o_ok : options_ok o.
Hypothesis o_kvs : config_entries o = Some kvs.
(** The tree holds the entries and no other of this keyspace. *)
Hypothesis stored : forall name v, view s !! encode_config_key id (entry_name name) = Some v <-> (name, v) ∈ kvs.

(** A failing read is the only way not to get the value. *)
Definition fails {A} (p : PResult A) : Prop := exists e key, p = Some (Err e) /\ rd_get key s = Err e.
Definition reads {A} (p : PResult A) (a : A) : Prop := p = Some (Ok a) \/ fails p.

Lemma reads_bind {A B} (m : PResult A) (f : A -> PResult B) a b : reads m a -> reads (f a) b -> reads (p_bind m f) b.
Proof. intros [->|(e & k & -> & Hk)] Hf; [done|]. right. by exists e, k. Qed.

Lemma fails_bind {A B} (m : PResult A) (f : A -> PResult B) a : reads m a -> fails (f a) -> fails (p_bind m f).
Proof. intros [->|(e & k & -> & Hk)] Hf; [done|]. by exists e, k. Qed.

Lemma reads_ret {A} (a : A) : reads (p_ret a) a.
Proof. by left. Qed.

Lemma reads_kv name v : (name, v) ∈ kvs -> reads (required_kv id s name) v.
Proof.
  intros Hin. unfold required_kv, get_kv_for_config. destruct (rd_get _ s) as [ov|e] eqn:E.
  - apply get_law in E. apply stored in Hin. unfold entry_name in Hin. rewrite Hin in E. subst ov. by left.
  - right. eexists e, _. by split.
Qed.

Lemma reads_policy {A} `{Policy A} name (p : A) :
  policy_ok p -> (name, encode_config p) ∈ kvs -> reads (required_policy id s name) p.
Proof.
  intros [Hl Hp] Hin. eapply reads_bind; [by apply reads_kv|]. left.
  rewrite policy_decode_encode, Nat.mod_small by (done || lia). by rewrite firstn_all, policy_of_entries.
Qed.

Lemma reads_le width name z :
  0 <= z < 256 ^ Z.of_nat width -> (name, le_bytes width z) ∈ kvs -> reads (required_le id s width name) z.
Proof.
  intros Hz Hin. eapply reads_bind; [by apply reads_kv|]. left.
  rewrite <- (app_nil_r (le_bytes _ _)). unfold p_lift. by rewrite read_le_app.
Qed.

Lemma reads_flag name b : (name, [bool_byte b]) ∈ kvs -> reads (required_flag id s name) b.
Proof. intros Hin. eapply reads_bind; [by apply reads_kv|]. left. by destruct b. Qed.

Lemma in_base kv : kv ∈ base_entries o -> kv ∈ kvs.
Proof. intros Hin. rewrite (config_entries_groups o kvs o_kvs). apply elem_of_app. by left. Qed.
Lemma in_strategy kv : kv ∈ get_config (compaction_strategy o) -> kv ∈ kvs.
Proof. intros Hin. rewrite (config_entries_groups o kvs o_kvs), !elem_of_app. right. by left. Qed.
Lemma in_blob kv : kv ∈ blob_entries (kv_separation_opts o) -> kv ∈ kvs.
Proof. intros Hin. rewrite (config_entries_groups o kvs o_kvs), !elem_of_app. right. by right. Qed.

Lemma base_nth i kv : base_entries o !! i = Some kv -> kv ∈ kvs.
Proof. intros Hi. by apply in_base, list_elem_of_lookup_2 with i. Qed.

Lemma u64_le z : is_u64 z -> 0 <= z < 256 ^ Z.of_nat 8.
Proof. unfold_ranges. change (256 ^ Z.of_nat 8) with (2 ^ 64). lia. Qed.
Lemma u32_le z : is_u32 z -> 0 <= z < 256 ^ Z.of_nat 4.
Proof. unfold_ranges. change (256 ^ Z.of_nat 4) with (2 ^ 32). lia. Qed.

Lemma reads_leveled l0 target ratios :
  compaction_strategy o = Leveled l0 target ratios -> reads (read_leveled id s) (Leveled l0 target ratios).
Proof.
  intros Hc. pose proof (ok_strategy _ o_ok) as Hok. rewrite Hc in Hok. destruct Hok as (Ht & Hl & Hr).
  assert (forall kv, kv ∈ [("leveled_l0_threshold"%string, [l0]); ("leveled_target_size"%string, le_bytes 8 target);
    ("leveled_level_ratio_policy"%string, encode_entries (le_bytes 4) ratios)] -> kv ∈ kvs) as Hin.
  { intros [name v] Hkv. apply in_strategy. rewrite Hc. by apply get_config_leveled. }
  unfold read_leveled. eapply reads_bind; [apply reads_kv, Hin; left|]. cbn [p_lift read_u8 p_bind].
  eapply reads_bind; [eapply reads_le; [|apply Hin; right; left]; by apply u64_le|].
  eapply reads_bind; [apply reads_kv, Hin; right; right; left|].
  rewrite decode_encode_entries, Nat.mod_small, firstn_all; [by left|lia|done|].
  intros x r Hx. rewrite Forall_forall in Hr. unfold p_lift. by rewrite read_u32 by auto.
Qed.

Lemma reads_fifo limit ttl : compaction_strategy o = Fifo limit ttl -> reads (read_fifo id s) (Fifo limit ttl).
Proof.
  intros Hc. pose proof (ok_strategy _ o_ok) as Hok. rewrite Hc in Hok. destruct Hok as [Hl Ht].
  assert (forall name v, (name, v) ∈ [("fifo_limit"%string, le_bytes 8 limit);
      ("fifo_ttl"%string, [bool_byte (bool_decide (is_Some ttl))])] ++
      match ttl with Some s => [("fifo_ttl_seconds"%string, le_bytes 8 s)] | None => [] end -> (name, v) ∈ kvs) as Hin.
  { intros name v Hkv. apply in_strategy. rewrite Hc. by apply get_config_fifo. }
  unfold read_fifo. eapply reads_bind; [eapply reads_le; [|apply Hin; left]; by apply u64_le|].
  eapply reads_bind; [apply reads_flag, Hin; right; left|].
  destruct ttl as [t|].
  - rewrite bool_decide_eq_true_2 by done. eapply reads_bind; [|apply reads_ret].
    eapply reads_bind; [eapply reads_le; [|apply Hin; right; right; left]; by apply u64_le|apply reads_ret].
  - rewrite bool_decide_eq_false_2 by (apply is_Some_None). by left.
Qed.

Lemma reads_strategy : reads (read_strategy id s) (compaction_strategy o).
Proof.
  unfold read_strategy. eapply reads_bind; [by apply reads_kv, (base_nth 0)|].
  rewrite from_utf8_str_bytes by apply s2str_is_str. cbn [p_expect fmap option_fmap option_map p_bind].
  pose proof (ok_strategy _ o_ok) as Hok. destruct (compaction_strategy o) as [l0 target ratios|limit ttl|name] eqn:Hc.
  - by apply reads_leveled.
  - by apply reads_fifo.
  - done.
Qed.

Lemma reads_blob b : kv_separation_opts o = Some b -> reads (read_blob_opts id s) b.
Proof.
  intros Hb. destruct (ok_blob _ o_ok b Hb) as (Hf & Hsep & Hst & Ha).
  assert (forall kv, kv ∈ blob_entries (Some b) -> kv ∈ kvs) as Hin by (intros kv; rewrite <- Hb; apply in_blob).
  assert (forall i kv, blob_entries (Some b) !! i = Some kv -> kv ∈ kvs) as Hnth
    by (intros i kv Hi; by apply Hin, list_elem_of_lookup_2 with i).
  unfold read_blob_opts. eapply reads_bind; [eapply reads_le; [|by apply (Hnth 1%nat)]; by apply u32_le|].
  eapply reads_bind; [by apply reads_kv, (Hnth 2%nat)|].
  unfold read_compression. rewrite <- (app_nil_r (compression_encode _)), compression_roundtrip. cbn [p_lift p_bind].
  eapply reads_bind; [eapply reads_le; [|by apply (Hnth 3%nat)]; by apply u64_le|].
  eapply reads_bind; [eapply reads_le; [|by apply (Hnth 4%nat)]; by apply u32_le|].
  eapply reads_bind; [eapply reads_le; [|by apply (Hnth 5%nat)]; by apply u32_le|].
  left. by destruct b.
Qed.

(** Without separation there is no entry called [blob]. *)
Lemma blob_absent v : kv_separation_opts o = None -> ("blob"%string, v) ∈ kvs -> False.
Proof.
  assert (forall l : list (string * bytes), bool_decide ("blob"%string ∈ l.*1) = false -> ("blob"%string, v) ∈ l -> False) as Hno.
  { intros l Hl%bool_decide_eq_false Hin. apply Hl. by apply (list_elem_of_fmap_2 fst) in Hin. }
  intros Hb. rewrite (config_entries_groups o kvs o_kvs), Hb, app_nil_r, elem_of_app. intros [Hin|Hin]; [by apply Hno in Hin|].
  pose proof (ok_strategy _ o_ok) as Hok. destruct (compaction_strategy o) as [l0 target ratios|limit ttl|name]; [| |done].
  - apply get_config_leveled in Hin. by apply Hno in Hin.
  - apply get_config_fifo in Hin. destruct ttl; by apply Hno in Hin.
Qed.

Lemma base_policy i {A} `{Policy A} name (p : A) :
  base_entries o !! i = Some (name, encode_config p) -> policy_ok p -> reads (required_policy id s name) p.
Proof. intros Hi Hp. apply reads_policy; [done|]. by apply (base_nth i). Qed.

(** Recovery reads back what was stored, or fails because a read failed; it never
    panics. *)
Lemma reads_from_kvs : reads (from_kvs id s) (restored o).
Proof.
  destruct o_ok. unfold from_kvs, p_lift, get_kv_for_config. destruct (rd_get _ s) as [blob|e] eqn:Eb; [|right; by eexists e, _].
  apply get_law in Eb. cbn [p_bind].
  eapply reads_bind; [apply (base_policy 1); done|].
  eapply reads_bind; [apply (base_policy 9); done|].
  eapply reads_bind; [apply (base_policy 4); done|].
  eapply reads_bind; [apply (base_policy 6); done|].
  eapply reads_bind; [apply (base_policy 10); done|].
  eapply reads_bind; [apply (base_policy 7); done|].
  eapply reads_bind; [apply (base_policy 11); done|].
  eapply reads_bind; [apply (base_policy 3); done|].
  eapply reads_bind; [apply (base_policy 12); done|].
  eapply reads_bind; [apply (base_policy 2); done|].
  eapply reads_bind; [by apply reads_flag, (base_nth 5)|].
  eapply reads_bind; [apply (base_policy 8); done|].
  pose proof reads_strategy as Hst.
  assert (reads (required_flag id s "manual_journal_persist") (manual_journal_persist o)) as Hman by (by apply reads_flag, (base_nth 14)).
  assert (reads (required_le id s 8 "max_memtable_size") (max_memtable_size o)) as Hmem
    by (apply reads_le; [by apply u64_le|by apply (base_nth 15)]).
  assert (blob = None /\ kv_separation_opts o = None \/ exists v b, blob = Some v /\ kv_separation_opts o = Some b) as Hblob.
  { destruct (kv_separation_opts o) as [b|] eqn:Hb.
    - right. assert (("blob"%string, [Byte.x01]) ∈ kvs) as Hin by (apply in_blob; rewrite Hb; left).
      apply stored in Hin. exists [Byte.x01], b. unfold entry_name in Hin. by rewrite Hin in Eb.
    - left. split; [|done]. destruct blob as [v|]; [|done]. exfalso. apply (blob_absent v Hb), stored. by unfold entry_name. }
  destruct Hblob as [[-> Hb]|(v & b & -> & Hb)]; cbn [read_blob].
  - cbn [p_expect fmap option_fmap option_map p_bind].
    eapply reads_bind; [exact Hst|]. eapply reads_bind; [exact Hman|]. eapply reads_bind; [exact Hmem|].
    left. unfold restored. by rewrite Hb.
  - destruct (reads_blob b Hb) as [->|(e & key & -> & He)]; cbn [p_expect fmap option_fmap option_map p_bind].
    + eapply reads_bind; [exact Hst|]. eapply reads_bind; [exact Hman|]. eapply reads_bind; [exact Hmem|].
      left. unfold restored. by rewrite Hb.
    + right. eapply fails_bind; [exact Hst|]. eapply fails_bind; [exact Hman|]. eapply fails_bind; [exact Hmem|].
      by exists e, key.
Qed.
End roundtrip.

(** ** Storing *)

Section storing.
Context `{JournalCodec, StrategyConfig} {F : Type}.

Definition strategy_names (c : CompactionStrategy) : list string :=
  match c with
  | Leveled _ _ _ => ["leveled_l0_threshold"; "leveled_target_size"; "leveled_level_ratio_policy"]
  | _ => ["fifo_limit"; "fifo_ttl"; "fifo_ttl_seconds"]
  end%string.

Lemma get_config_name c name : strategy_ok c -> name ∈ (get_config c).*1 -> name ∈ strategy_names c.
Proof.
  intros Hc ([n v] & -> & Hin)%list_elem_of_fmap. destruct c as [l0 target ratios|limit ttl|other]; [| |done].
  - apply get_config_leveled in Hin. by apply (list_elem_of_fmap_2 fst) in Hin.
  - apply get_config_fifo in Hin. apply (list_elem_of_fmap_2 fst) in Hin. destruct ttl; [done|].
    cbn in Hin |- *. set_solver.
Qed.

(** No name occurs twice. *)
Lemma config_entries_nodup (o : CreateOptions F) kvs :
  strategy_ok (compaction_strategy o) -> config_entries o = Some kvs -> NoDup kvs.*1.
Proof.
  intros Hc Hk. rewrite (config_entries_groups o kvs Hk), !fmap_app.
  assert (forall l l' : list string, bool_decide (Forall (.∉ l') l) = true -> forall x, x ∈ l -> x ∉ l') as Hdis.
  { intros l l' Hl%bool_decide_eq_true. by apply Forall_forall. }
  apply NoDup_app. split; [apply (bool_decide_unpack _); by destruct o|]. split.
  - intros x Hx [Hs|Hb]%elem_of_app.
    + apply get_config_name in Hs; [|done]. revert x Hx Hs. destruct (compaction_strategy o); apply Hdis; reflexivity.
    + revert Hb. destruct (kv_separation_opts o) as [b|]; [|by apply not_elem_of_nil].
      by apply (Hdis (base_entries o).*1 (blob_entries (Some b)).*1).
  - apply NoDup_app. split; [apply get_config_names|]. split.
    + intros x Hs%get_config_name; [|done]. destruct (kv_separation_opts o) as [b|]; [|by apply not_elem_of_nil].
      revert Hs. destruct (compaction_strategy o); apply Hdis; reflexivity.
    + destruct (kv_separation_opts o) as [b|]; [|constructor]. by apply (bool_decide_unpack _).
Qed.

Lemma encode_kvs_Some id (o : CreateOptions F) l :
  encode_kvs id o = Some l -> exists kvs, config_entries o = Some kvs /\
    l = map (fun kv => (encode_config_key id (entry_name kv.1), kv.2)) kvs.
Proof. unfold encode_kvs. destruct (config_entries o) as [kvs|]; [|done]. intros [= <-]. by exists kvs. Qed.

Lemma encode_kvs_total id (o : CreateOptions F) : strategy_ok (compaction_strategy o) -> exists l, encode_kvs id o = Some l.
Proof.
  intros Hc. unfold encode_kvs, config_entries, strategy_entries. destruct (compaction_strategy o); [by eexists..|done].
Qed.

Lemma encode_kvs_keys id (o : CreateOptions F) l :
  strategy_ok (compaction_strategy o) -> encode_kvs id o = Some l -> NoDup l.*1.
Proof.
  intros Hc (kvs & Hk & ->)%encode_kvs_Some. pose proof (config_entries_nodup o kvs Hc Hk) as Hnd.
  change (map ?f kvs) with (f <$> kvs). rewrite <- list_fmap_compose.
  assert (Inj (=) (=) (encode_config_key id ∘ entry_name)) as Hinj.
  { intros a b E. apply entry_name_inj. unfold compose in E. rewrite !encode_config_key_prefix in E. by apply (inj (app _)) in E. }
  apply (NoDup_fmap_2 (encode_config_key id ∘ entry_name)) in Hnd. by rewrite <- list_fmap_compose in Hnd.
Qed.
End storing.
