(* ===== verification/Catalog.v ===== *)
(** * The catalogue of keyspaces

    Models how keyspaces come and go: [Database::keyspace], [raw_keyspace] and
    [delete_keyspace] ([src/src/db.rs]), [Keyspace::create_new], [from_database] and the
    removal of a deleted keyspace's folder ([src/src/keyspace/mod.rs]),
    [create_keyspace] and [remove_keyspace] ([src/src/meta_keyspace.rs]), the name check
    ([src/src/keyspace/name.rs]) and [recover_keyspaces] ([src/src/recovery.rs]).

    The state is the meta tree, the dictionary, the id counter, the keyspace folders on
    disk (with whether the tree's version marker is there) and the ids of the handles
    marked deleted. File-system calls and the opening of trees take their outcome from
    an environment, so that every pattern of failures is covered. [None] is a panic. *)

From stdpp Require Import base gmap list sorting strings.
From S2P Require Import Prelude Errors Utf8 Composite Store Panic JournalEntry KeyspaceConfig MetaKeyspace KeyspaceOptions.

#[local] Open Scope pstate_scope.

(** ** Names *)

(** [is_valid_keyspace_name]. *)
Definition is_valid_keyspace_name (s : str) : bool :=
  if decide (s = []) then false else bool_decide (Z.of_nat (length (str_bytes s)) <= u8_max).

(** [RAW_KEYSPACE_PREFIX], [is_reserved_raw_keyspace_name] and [physical_keyspace_name]
    of [secure]. *)
Definition RAW_KEYSPACE_PREFIX : str := s2str "$fjall.secure.".

Fixpoint starts_with (s prefix : str) : bool :=
  match prefix, s with
  | [], _ => true
  | p :: prefix, c :: s => bool_decide (p = c) && starts_with s prefix
  | _ :: _, [] => false
  end.

Definition is_reserved_raw_keyspace_name (name : str) : bool := starts_with name RAW_KEYSPACE_PREFIX.
Definition physical_keyspace_name (name : str) : str := RAW_KEYSPACE_PREFIX ++ name.

(** ** State *)

Record Handle (F : Type) := mkHandle { h_id : Z; h_name : str; h_config : CreateOptions F }.
Arguments mkHandle {F}.
Arguments h_id {F}.
Arguments h_name {F}.
Arguments h_config {F}.

Record Catalog (S F : Type) := mkCatalog {
  cat_tree : S;
  cat_keyspaces : gmap str (Handle F);
  keyspace_id_counter : Z;
  cat_folders : gmap Z bool;
  cat_deleted : gset Z;
  cat_seqno : Z;
  cat_visible_seqno : Z
}.
Arguments mkCatalog {S F}.
Arguments cat_tree {S F}.
Arguments cat_keyspaces {S F}.
Arguments keyspace_id_counter {S F}.
Arguments cat_folders {S F}.
Arguments cat_deleted {S F}.
Arguments cat_seqno {S F}.
Arguments cat_visible_seqno {S F}.

(** What the file system and the tree library answer. *)
Record CreateEnv := mkCreateEnv {
  env_mkdir : Result ();
  env_open : Result ();
  (** Whether a failed opening left the version marker. *)
  env_marker_on_error : bool
}.

Record RecoverEnv := mkRecoverEnv {
  env_remove_dir : Z -> Result ();
  env_probe : Z -> Result ();
  env_reopen : Z -> Result ()
}.

(** An entry of the keyspaces folder; [KeyspaceDir None] has a name that is no number. *)
Inductive DirEnt := StrayFile | KeyspaceDir (id : option Z).

#[export] Instance DirEnt_eq_dec : EqDecision DirEnt.
Proof. solve_decision. Defined.

Section operations.
Context `{JournalCodec, StrategyConfig, PrefixRange} {S F : Type} `{!ReadableOps S, !IngestOps S}.
(** [compaction_filter_factory_assigner]. *)
Context (assigner : option (str -> option F)).

Abbreviation Cat := (Catalog S F).

Definition set_tree (t : S) (c : Cat) : Cat :=
  mkCatalog t (cat_keyspaces c) (keyspace_id_counter c) (cat_folders c) (cat_deleted c) (cat_seqno c) (cat_visible_seqno c).
Definition set_keyspaces (m : gmap str (Handle F)) (c : Cat) : Cat :=
  mkCatalog (cat_tree c) m (keyspace_id_counter c) (cat_folders c) (cat_deleted c) (cat_seqno c) (cat_visible_seqno c).
Definition set_counter (n : Z) (c : Cat) : Cat :=
  mkCatalog (cat_tree c) (cat_keyspaces c) n (cat_folders c) (cat_deleted c) (cat_seqno c) (cat_visible_seqno c).
Definition set_folders (fs : gmap Z bool) (c : Cat) : Cat :=
  mkCatalog (cat_tree c) (cat_keyspaces c) (keyspace_id_counter c) fs (cat_deleted c) (cat_seqno c) (cat_visible_seqno c).
Definition set_deleted (d : gset Z) (c : Cat) : Cat :=
  mkCatalog (cat_tree c) (cat_keyspaces c) (keyspace_id_counter c) (cat_folders c) d (cat_seqno c) (cat_visible_seqno c).
Definition set_seqnos (seqno visible : Z) (c : Cat) : Cat :=
  mkCatalog (cat_tree c) (cat_keyspaces c) (keyspace_id_counter c) (cat_folders c) (cat_deleted c) seqno visible.

(** A computation on the meta tree. *)
Definition on_tree {A} (m : StateR S A) : PState Cat A := fun c =>
  let '(t, r) := m (cat_tree c) in Some (set_tree t c, r).

(** ** Creating *)

(** [MetaKeyspace::create_keyspace]; the maintenance at its end is best effort. *)
Definition create_keyspace (keyspace_id : Z) (name : str) (keyspace : Handle F) : PState Cat () :=
  kvs <-- ps_pure (p_expect (encode_kvs keyspace_id (h_config keyspace))) ;;
  on_tree (write_keyspace keyspace_id name kvs) ;;;;
  ps_modify (fun c => set_keyspaces (<[name := keyspace]> (cat_keyspaces c)) c).

(** [Keyspace::create_new]: the folder and the tree in it. *)
Definition keyspace_create_new (env : CreateEnv) (keyspace_id : Z) (name : str) (config : CreateOptions F) : PState Cat (Handle F) :=
  ps_pure (p_lift (env_mkdir env)) ;;;;
  ps_modify (fun c => set_folders (<[keyspace_id := default false (cat_folders c !! keyspace_id)]> (cat_folders c)) c) ;;;;
  (fun c =>
     match env_open env with
     | Ok () => Some (set_folders (<[keyspace_id := true]> (cat_folders c)) c, Ok ())
     | Err e => Some (set_folders (<[keyspace_id := env_marker_on_error env]> (cat_folders c)) c, Err e)
     end) ;;;;
  ps_ret (mkHandle keyspace_id name config).

Definition assign (name : str) (opts : CreateOptions F) : CreateOptions F :=
  match assigner ≫= (fun f => f name) with
  | Some f => with_compaction_filter_factory f opts
  | None => opts
  end.

(** [keyspace_id_counter.next()]. *)
Definition next_keyspace_id : PState Cat Z := fun c =>
  Some (set_counter (keyspace_id_counter c + 1) c, Ok (keyspace_id_counter c)).

Definition raw_keyspace (env : CreateEnv) (name : str) (create_options : CreateOptions F) : PState Cat (Handle F) :=
  ps_assert (is_valid_keyspace_name name) ;;;;
  (fun c =>
     match cat_keyspaces c !! name with
     | Some keyspace => Some (c, Ok keyspace)
     | None =>
         (keyspace_id <-- next_keyspace_id ;;
          handle <-- keyspace_create_new env keyspace_id name (assign name create_options) ;;
          create_keyspace keyspace_id name handle ;;;;
          ps_ret handle) c
     end).

(** [Database::keyspace] with the feature [secure-keyspaces]. *)
Definition db_keyspace (env : CreateEnv) (name : str) (create_options : CreateOptions F) : PState Cat (Handle F) :=
  ps_assert (is_valid_keyspace_name name) ;;;;
  if is_reserved_raw_keyspace_name name then ps_err ReservedKeyspaceName
  else raw_keyspace env name create_options.

(** ** Deleting *)

(** [MetaKeyspace::remove_keyspace]: the keyspace is looked up by name. *)
Definition remove_keyspace (name : str) : PState Cat () := fun c =>
  match cat_keyspaces c !! name with
  | None => Some (c, Ok ())
  | Some keyspace =>
      let seqno := cat_seqno c in
      (ps_modify (fun c => set_seqnos (seqno + 1) (cat_visible_seqno c) c) ;;;;
       on_tree (erase_keyspace (h_id keyspace)) ;;;;
       ps_modify (fun c => set_seqnos (cat_seqno c) (Z.max (cat_visible_seqno c) (seqno + 1)) c) ;;;;
       ps_modify (fun c => set_keyspaces (delete name (cat_keyspaces c)) c)) c
  end.

(** [Database::delete_keyspace]. *)
Definition delete_keyspace (handle : Handle F) : PState Cat () :=
  remove_keyspace (h_name handle) ;;;;
  ps_modify (fun c => set_deleted (cat_deleted c ∪ {[h_id handle]}) c).

(** [Drop for KeyspaceInner], when the last handle goes: the marker first, then the
    folder. Failures are logged. *)
Definition drop_keyspace (probe remove_manifest remove_dir : Result ()) (id : Z) (c : Cat) : Cat :=
  if bool_decide (id ∈ cat_deleted c) then
    match probe with
    | Err _ => c
    | Ok () =>
        if default false (cat_folders c !! id) then
          match remove_manifest with
          | Err _ => c
          | Ok () =>
              match remove_dir with
              | Err _ => set_folders (<[id := false]> (cat_folders c)) c
              | Ok () => set_folders (delete id (cat_folders c)) c
              end
          end
        else c
    end
  else c.

(** ** Recovery *)

Definition remove_folder (env : RecoverEnv) (id : Z) : PState Cat () := fun c =>
  match env_remove_dir env id with
  | Ok () => Some (set_folders (delete id (cat_folders c)) c, Ok ())
  | Err e => Some (c, Err e)
  end.

(** The body of the loop for keyspace [id]. *)
Definition recover_keyspace (env : RecoverEnv) (id : Z) : PState Cat () :=
  resolved <-- ps_read (fun c => resolve_id id (cat_tree c)) ;;
  match resolved with
  | None => remove_folder env id
  | Some name =>
      ps_pure (p_lift (env_probe env id)) ;;;;
      (fun c =>
         if default false (cat_folders c !! id) then
           (config <-- ps_read (fun c => from_kvs id (cat_tree c)) ;;
            ps_pure (p_lift (env_reopen env id)) ;;;;
            ps_modify (fun c => set_keyspaces (<[name := mkHandle id name (assign name config)]> (cat_keyspaces c)) c)) c
         else remove_folder env id c)
  end.

(** The loop over the folder, with the highest id seen. *)
Fixpoint recover_dirents (env : RecoverEnv) (highest : Z) (dirents : list (Result DirEnt)) : PState Cat Z :=
  match dirents with
  | [] => ps_ret highest
  | dirent :: dirents =>
      d <-- ps_pure (p_lift dirent) ;;
      match d with
      | StrayFile => recover_dirents env highest dirents
      | KeyspaceDir None => fun _ => None
      | KeyspaceDir (Some id) =>
          if decide (id = 0) then recover_dirents env highest dirents
          else recover_keyspace env id ;;;; recover_dirents env (Z.max highest id) dirents
      end
  end.

Definition recover_keyspaces (env : RecoverEnv) (dirents : Result (list (Result DirEnt))) : PState Cat () :=
  dirents <-- ps_pure (p_lift dirents) ;;
  highest <-- recover_dirents env 1 dirents ;;
  ps_modify (fun c => set_counter (highest + 1) c).

(** What is left of the catalogue when the process ends: the disk. *)
Definition crash (c : Cat) : Cat := mkCatalog (cat_tree c) ∅ 1 (cat_folders c) ∅ 0 0.
End operations.
