(* ===== verification/CatalogProps.v ===== *)
(** * The catalogue survives

    The invariant that ties the dictionary to the meta tree and the folders, that
    creating, deleting and dropping keyspaces keep it whatever fails, and that recovery
    rebuilds the dictionary from the disk. *)

From stdpp Require Import base gmap list sorting strings.
From S2P Require Import Prelude Errors Utf8 Composite Store Panic JournalEntry KeyspaceConfig MetaKeyspace KeyspaceOptions Catalog JournalReader.

(** ** What the meta tree holds after a write or an erasure *)

Section tree.
Context `{JournalCodec, StrategyConfig, PrefixRange} {S F : Type} `{!ReadableOps S, !ReadableLaws S, !IngestOps S, !IngestLaws S}.

(** The entries of a keyspace: its name and its configuration. *)
Definition holds (m : gmap bytes bytes) (id : Z) (name : str) (kvs : list (string * bytes)) : Prop :=
  m !! name_key id = Some (str_bytes name) /\
  forall n v, m !! encode_config_key id (entry_name n) = Some v <-> (n, v) ∈ kvs.

(** Two trees agree on the entries of a keyspace. *)
Definition same_entries (m m' : gmap bytes bytes) (id : Z) : Prop :=
  m' !! name_key id = m !! name_key id /\ forall n, m' !! encode_config_key id n = m !! encode_config_key id n.

Lemma same_entries_holds m m' id name kvs : same_entries m m' id -> holds m id name kvs -> holds m' id name kvs.
Proof. intros [E1 E2] [Hn Hc]. split; [by rewrite E1|]. intros n v. by rewrite E2. Qed.

Definition create_list (id : Z) (name : str) (kvs : list entry) : list (bytes * option bytes) :=
  ((fun kv => (kv.1, Some kv.2)) <$> kvs) ++ [(name_key id, Some (str_bytes name))].

Lemma create_list_keys id name kvs : (create_list id name kvs).*1 = kvs.*1 ++ [name_key id].
Proof. unfold create_list. rewrite fmap_app, <- list_fmap_compose. done. Qed.

Lemma encoded_before_name id (o : CreateOptions F) l k id' :
  encode_kvs id o = Some l -> k ∈ l.*1 -> k <> name_key id'.
Proof.
  intros (kvs & _ & ->)%encode_kvs_Some (kv & -> & (kv' & -> & _)%list_elem_of_fmap)%list_elem_of_fmap. done.
Qed.

Lemma create_list_nodup id name (o : CreateOptions F) l :
  strategy_ok (compaction_strategy o) -> encode_kvs id o = Some l -> NoDup (create_list id name l).*1.
Proof.
  intros Ho Hl. rewrite create_list_keys. apply NoDup_app. split; [by eapply encode_kvs_keys|]. split; [|apply NoDup_singleton].
  intros k Hk ->%list_elem_of_singleton. by apply (encoded_before_name id o l (name_key id) id).
Qed.

Lemma foldl_perm (ws ws' : list (bytes * option bytes)) (m : gmap bytes bytes) :
  NoDup ws.*1 -> ws ≡ₚ ws' -> foldl apply_write m ws = foldl apply_write m ws'.
Proof.
  intros Hnd Hp. assert (NoDup ws'.*1) as Hnd' by (by rewrite <- Hp).
  apply map_eq. intros k. destruct (decide (k ∈ ws.*1)) as [([k' x] & -> & Hin)%list_elem_of_fmap|Hk]; simpl.
  - rewrite (apply_writes_lookup ws m k' x Hnd Hin). symmetry. apply apply_writes_lookup; [done|]. by rewrite <- Hp.
  - rewrite !apply_writes_other; [done|done|by rewrite <- Hp|done|done].
Qed.

(** Writing a new keyspace adds its entries and touches no other's. *)
Lemma write_keyspace_view id name (o : CreateOptions F) kvs l (s s' : S) r :
  is_u64 id -> strategy_ok (compaction_strategy o) -> config_entries o = Some kvs -> encode_kvs id o = Some l ->
  (forall n, view s !! encode_config_key id n = None) ->
  write_keyspace id name l s = (s', r) ->
  if is_ok r then holds (view s') id name kvs /\ forall id', is_u64 id' -> id' <> id -> same_entries (view s) (view s') id'
  else view s' = view s.
Proof.
  intros Hid Ho Hkvs Hl Hfresh Hw. pose proof (create_list_nodup id name o l Ho Hl) as Hnd.
  apply ingest_law in Hw; [|by apply sort_by_key_lt]. destruct (is_ok r); [|done].
  unfold create_entries in Hw. fold (create_list id name l) in Hw.
  rewrite (foldl_perm _ (create_list id name l)) in Hw; [|by rewrite sort_by_key_perm|apply sort_by_key_perm].
  destruct (encode_kvs_Some _ _ _ Hl) as (kvs' & Hk & ->). assert (kvs' = kvs) as -> by congruence.
  assert (forall n v, (encode_config_key id (entry_name n), Some v) ∈ create_list id name
     (map (fun kv => (encode_config_key id (entry_name kv.1), kv.2)) kvs) <-> (n, v) ∈ kvs) as Hin.
  { intros n v. unfold create_list. rewrite elem_of_app, list_elem_of_singleton, list_elem_of_fmap. split.
    - intros [([k x] & E & ([n' x'] & E' & Hin)%list_elem_of_fmap)|E]; [|discriminate E].
      apply pair_eq in E as [E1 E2], E' as [E1' E2']. cbn [fst snd] in *. injection E2 as <-. subst x'.
      rewrite E1', !encode_config_key_prefix in E1. by apply (inj (app _)), entry_name_inj in E1 as ->.
    - intros Hin. left. exists (encode_config_key id (entry_name n), v). split; [done|].
      apply list_elem_of_fmap. by exists (n, v). }
  rewrite Hw. split; [split|].
  - apply apply_writes_lookup; [done|]. apply elem_of_app. right. by apply list_elem_of_singleton.
  - intros n v. split.
    + intros E. destruct (decide (encode_config_key id (entry_name n) ∈ (create_list id name
        (map (fun kv => (encode_config_key id (entry_name kv.1), kv.2)) kvs)).*1)) as [([k x] & Ek & Hx)%list_elem_of_fmap|Hn].
      * simpl in Ek. subst k. rewrite (apply_writes_lookup _ _ _ _ Hnd Hx) in E. subst x. by apply Hin.
      * rewrite apply_writes_other, Hfresh in E by done. done.
    + intros Hx. apply apply_writes_lookup; [done|]. by apply Hin.
  - intros id' Hid' Hne. split; [|intros n]; (apply apply_writes_other; [done|]); rewrite create_list_keys.
    all: intros [(kv & E & (kv' & -> & _)%list_elem_of_fmap)%list_elem_of_fmap|E%list_elem_of_singleton]%elem_of_app.
    + discriminate E.
    + by apply Hne, name_key_inj.
    + simpl in E. by apply encode_config_key_inj in E as [? _].
    + discriminate E.
Qed.

Lemma guard_keys_Ok items keys l : delivers items l -> guard_keys items = Ok keys -> keys = l.*1.
Proof.
  revert keys l. induction items as [|[kv|e] items IH]; intros keys l Hd Hg; simpl in Hg.
  - apply delivers_nil in Hd as ->. by inv_ok.
  - apply delivers_cons in Hd as (l' & -> & Hd). inv_ok. csimpl. f_equal. by apply IH.
  - done.
Qed.

(** Erasing a keyspace removes all its entries and touches no other's. *)
Lemma erase_keyspace_view id (s s' : S) r :
  is_u64 id -> erase_keyspace id s = (s', r) ->
  if is_ok r then
    view s' !! name_key id = None /\ (forall n, view s' !! encode_config_key id n = None) /\
    forall id', is_u64 id' -> id' <> id -> same_entries (view s) (view s') id'
  else view s' = view s.
Proof.
  intros Hid. unfold erase_keyspace. destruct (guard_keys _) as [keys|e] eqn:Eg; [|intros [= <- <-]; done].
  destruct (range_law (prefix_to_range (config_prefix id)) s) as (l & [Hs Hl] & Hd).
  apply (guard_keys_Ok _ _ _ Hd) in Eg as ->.
  assert (forall k, k ∈ l.*1 <-> is_Some (view s !! k) /\ config_prefix id `prefix_of` k) as Hkeys.
  { intros k. rewrite list_elem_of_fmap. rewrite <- prefix_to_range_spec. split.
    - intros ([k' v] & -> & [Hv Hr]%Hl). by split; [exists v|].
    - intros [[v Hv] Hr]. exists (k, v). split; [done|]. by apply Hl. }
  set (ws := ((.,None) <$> l.*1) ++ [(name_key id, None)]).
  assert (ws.*1 = l.*1 ++ [name_key id]) as Ews by (unfold ws; by rewrite fmap_app, <- list_fmap_compose, list_fmap_id).
  assert (forall k, k ∈ l.*1 -> bytes_lt k (name_key id)) as Hlt by (by intros k [_ [x ->]]%Hkeys).
  assert (StronglySorted bytes_lt ws.*1) as Hsort.
  { rewrite Ews. clear -Hs Hlt. induction Hs as [|x l Hs IH Hx]; csimpl; [repeat constructor|].
    constructor; [apply IH; intros k Hk; apply Hlt; by right|]. apply Forall_app. split; [|constructor; [apply Hlt; left|done]].
    apply Forall_fmap. apply (Forall_impl _ _ _ Hx). done. }
  intros Hw. apply ingest_law in Hw; [|done]. destruct (is_ok r); [|done].
  assert (NoDup ws.*1) as Hnd by (by apply (StronglySorted_NoDup bytes_lt)).
  rewrite Hw. split; [|split].
  - apply apply_writes_lookup; [done|]. apply elem_of_app. right. by apply list_elem_of_singleton.
  - intros n. destruct (decide (encode_config_key id n ∈ l.*1)) as [Hin|Hout].
    + apply apply_writes_lookup; [done|]. apply elem_of_app. left. apply list_elem_of_fmap. by exists (encode_config_key id n).
    + rewrite apply_writes_other; [|done|].
      * apply eq_None_not_Some. intros Hv. apply Hout, Hkeys. split; [done|]. by exists n.
      * rewrite Ews, elem_of_app, list_elem_of_singleton. by intros [?|?].
  - intros id' Hid' Hne. split; [|intros n]; (apply apply_writes_other; [done|]); rewrite Ews, elem_of_app, list_elem_of_singleton.
    + intros [[_ [x E]]%Hkeys|E%name_key_inj]; [discriminate E|congruence..].
    + intros [[_ Hp]%Hkeys|E]; [|discriminate E]. by apply config_prefix_of in Hp.
Qed.
(** C28: The options of a keyspace survive the meta tree: what [create_keyspace] writes for a
    new id, [from_kvs] reads back, every field but the level count and the filter
    factory, for leveled and FIFO compaction, with and without blob separation; only a
    failing read is reported instead, and no expectation of the reader is violated. *)
Theorem options_roundtrip id name (o : CreateOptions F) l (s s' : S) :
  is_u64 id -> options_ok o -> encode_kvs id o = Some l ->
  (forall n, view s !! encode_config_key id n = None) ->
  write_keyspace id name l s = (s', Ok ()) ->
  from_kvs id s' = Some (Ok (restored o)) \/ exists e key, from_kvs (F := F) id s' = Some (Err e) /\ rd_get key s' = Err e.
Proof.
  intros Hid Ho Hl Hfresh Hw. pose proof Hl as (kvs & Hk & _)%encode_kvs_Some.
  destruct (write_keyspace_view id name o kvs l s s' (Ok ()) Hid (ok_strategy _ Ho) Hk Hl Hfresh Hw) as [[_ Hst] _].
  exact (reads_from_kvs id o kvs s' Ho Hk Hst).
Qed.
End tree.

(** ** The invariant *)

Section invariant.
Context `{JournalCodec, StrategyConfig, PrefixRange} {S F : Type} `{!ReadableOps S, !ReadableLaws S, !IngestOps S, !IngestLaws S}.
Context (assigner : option (str -> option F)).

Abbreviation Cat := (Catalog S F).

(** A keyspace of the dictionary is initialised on disk, its name and configuration are
    in the meta tree; the configuration may differ from the handle's in what recovery
    does not restore. *)
Record listed (c : Cat) (name : str) (h : Handle F) : Prop := {
  li_name : h_name h = name;
  li_str : is_str name;
  li_id : is_u64 (h_id h) /\ 0 < h_id h < keyspace_id_counter c;
  li_folder : cat_folders c !! h_id h = Some true;
  li_stored : exists o kvs, options_ok o /\ restored o = restored (h_config h) /\
    config_entries o = Some kvs /\ holds (view (cat_tree c)) (h_id h) name kvs
}.

Definition known (c : Cat) (id : Z) : Prop := exists name h, cat_keyspaces c !! name = Some h /\ h_id h = id.

Record catalog_ok (c : Cat) : Prop := {
  co_listed name h : cat_keyspaces c !! name = Some h -> listed c name h;
  co_names id v : is_u64 id -> view (cat_tree c) !! name_key id = Some v -> known c id;
  co_configs id n v : is_u64 id -> view (cat_tree c) !! encode_config_key id n = Some v -> known c id;
  co_folders id b : cat_folders c !! id = Some b -> 0 < id < keyspace_id_counter c;
  co_deleted id : id ∈ cat_deleted c -> id < keyspace_id_counter c /\ ~ known c id;
  co_counter : 0 < keyspace_id_counter c
}.

(** Ids name keyspaces uniquely. *)
Lemma known_unique c name h name' h' :
  catalog_ok c -> cat_keyspaces c !! name = Some h -> cat_keyspaces c !! name' = Some h' -> h_id h = h_id h' -> name = name'.
Proof.
  intros Hok Hn Hn' E. destruct (co_listed _ Hok _ _ Hn) as [_ Hs _ _ (o & kvs & _ & _ & _ & Hh & _)].
  destruct (co_listed _ Hok _ _ Hn') as [_ Hs' _ _ (o' & kvs' & _ & _ & _ & Hh' & _)].
  rewrite E in Hh. apply str_bytes_inj; [done..|]. congruence.
Qed.

(** Folders and the counter may grow around the listed keyspaces. *)
Lemma catalog_ok_disk c fs n :
  catalog_ok c -> keyspace_id_counter c <= n -> (forall id b, fs !! id = Some b -> 0 < id < n) ->
  (forall name h, cat_keyspaces c !! name = Some h -> fs !! h_id h = Some true) ->
  catalog_ok (set_folders fs (set_counter n c)).
Proof.
  intros [C1 C2 C3 C4 C5 C6] Hn Hfs Hl. constructor; try done; [|intros id Hd; destruct (C5 id Hd); split; [simpl; lia|done]|simpl; lia].
  intros name h E. destruct (C1 name h E) as [L1 L2 [L3 L3'] L4 L5]. constructor; try done; [simpl; split; [done|lia]|].
  by apply (Hl name).
Qed.

Lemma assign_restored name (o : CreateOptions F) : restored (assign assigner name o) = restored o.
Proof. unfold assign. by destruct (assigner ≫= _); [destruct o|]. Qed.

Lemma assign_entries name (o : CreateOptions F) : config_entries (assign assigner name o) = config_entries o.
Proof. unfold assign. by destruct (assigner ≫= _); [destruct o|]. Qed.

Lemma assign_ok name (o : CreateOptions F) : options_ok o -> options_ok (assign assigner name o).
Proof. unfold assign. destruct (assigner ≫= _); [|done]. intros []. destruct o. by constructor. Qed.

(** ** Creating *)

(** The step that makes a keyspace known. *)
Lemma create_keyspace_ok c id name h c' r :
  catalog_ok c -> is_str name -> is_u64 id -> 0 < id < keyspace_id_counter c -> ~ known c id ->
  cat_folders c !! id = Some true -> cat_keyspaces c !! name = None -> h_id h = id -> h_name h = name ->
  id ∉ cat_deleted c -> options_ok (h_config h) -> create_keyspace id name h c = Some (c', r) ->
  catalog_ok c' /\ cat_keyspaces c' = if is_ok r then <[name := h]> (cat_keyspaces c) else cat_keyspaces c.
Proof.
  intros Hok Hs Hid Hlt Hnew Hf Hnone Hhid Hhn Hundel Ho. unfold create_keyspace, ps_bind, ps_pure, on_tree, ps_modify.
  pose proof (ok_strategy _ Ho) as Hst. destruct (encode_kvs_total id (h_config h) Hst) as [l Hl].
  destruct (encode_kvs_Some _ _ _ Hl) as (kvs & Hkvs & _). rewrite Hl. cbn [p_expect fmap option_fmap option_map].
  destruct (write_keyspace id name l (cat_tree c)) as [t r1] eqn:Ew.
  apply (write_keyspace_view id name (h_config h) kvs l) in Ew; [|done..|].
  2:{ intros n. apply eq_None_not_Some. intros [v Hv]. by apply Hnew, (co_configs _ Hok id n v). }
  destruct r1 as [[]|e]; cbn [is_ok] in Ew; intros [= <- <-]; cbn [is_ok]; (split; [|done]).
  - destruct Ew as [Hh Hother].
    assert (forall id', is_u64 id' -> known c id' -> id' <> id) as Hne by (intros id' _ Hk ->; done).
    assert (known (set_keyspaces (<[name := h]> (cat_keyspaces (set_tree t c))) (set_tree t c)) id) as Hknown
      by (exists name, h; split; [apply lookup_insert_eq|done]).
    assert (forall id', known c id' -> known (set_keyspaces (<[name := h]> (cat_keyspaces (set_tree t c))) (set_tree t c)) id') as Hmono.
    { intros id' (n' & h' & E' & Eid). exists n', h'. split; [|done]. cbn. rewrite lookup_insert_ne; congruence. }
    constructor; cbn.
    + intros n' h'. rewrite lookup_insert_Some. intros [[<- <-]|[Hnn E']].
      * constructor; cbn; [done|done|by rewrite Hhid|by rewrite Hhid|]. exists (h_config h), kvs. by rewrite Hhid.
      * destruct (co_listed _ Hok _ _ E') as [L1 L2 L3 L4 (o & kv & L5 & L6 & L7 & L8)]. constructor; cbn; try done.
        exists o, kv. split; [done|]. split; [done|]. split; [done|]. eapply same_entries_holds; [|done].
        apply Hother; [apply L3|]. apply (Hne _ (proj1 L3)). by exists n', h'.
    + intros id' v Hu E. destruct (decide (id' = id)) as [->|Hid']; [done|].
      apply Hmono, (co_names _ Hok id' v Hu). by rewrite (proj1 (Hother id' Hu Hid')) in E.
    + intros id' n v Hu E. destruct (decide (id' = id)) as [->|Hid']; [done|].
      apply Hmono, (co_configs _ Hok id' n v Hu). by rewrite (proj2 (Hother id' Hu Hid')) in E.
    + apply Hok.
    + intros id' Hd. destruct (co_deleted _ Hok id' Hd) as [Hl' Hk]. split; [done|].
      intros (n' & h' & E' & Eid). cbn in E'. apply lookup_insert_Some in E' as [[<- <-]|[_ E']]; [|by apply Hk; exists n', h'].
      apply Hundel. congruence.
    + exact (co_counter _ Hok).
  - destruct Hok as [C1 C2 C3 C4 C5 C6]. constructor; cbn; try rewrite Ew; try done.
    intros n' h' E'. destruct (C1 n' h' E') as [L1 L2 L3 L4 L5]. constructor; cbn; try rewrite Ew; done.
Qed.

(** Opening or creating a keyspace, whatever fails on the way. *)
Lemma raw_keyspace_ok env name opts c c' r :
  catalog_ok c -> is_str name -> options_ok opts -> keyspace_id_counter c <= u64_max ->
  raw_keyspace assigner env name opts c = Some (c', r) ->
  catalog_ok c' /\
  match r with
  | Ok h => cat_keyspaces c' = <[name := h]> (cat_keyspaces c) /\ forall h0, cat_keyspaces c !! name = Some h0 -> h = h0
  | Err _ => cat_keyspaces c' = cat_keyspaces c
  end.
Proof.
  intros Hok Hs Ho Hmax. unfold raw_keyspace, ps_bind at 1, ps_assert. destruct (is_valid_keyspace_name name); [|done].
  destruct (cat_keyspaces c !! name) as [h|] eqn:En.
  { intros [= <- <-]. split; [done|]. split; [|congruence]. symmetry. by apply insert_id. }
  set (id := keyspace_id_counter c) in *.
  pose proof (co_counter _ Hok) as Hpos.
  assert (forall b, cat_folders c !! id <> Some b) as Hnofolder by (intros b E; apply (co_folders _ Hok) in E; lia).
  assert (~ known c id) as Hnew.
  { intros (n & h & E & Eid). destruct (co_listed _ Hok _ _ E) as [_ _ [_ L3] _ _]. lia. }
  assert (forall b, catalog_ok (set_folders (<[id := b]> (cat_folders c)) (set_counter (id + 1) c))) as Hdisk.
  { intros b. apply catalog_ok_disk; [done|lia| |].
    - intros id' b' [[<- _]|[_ E]]%lookup_insert_Some; [lia|]. apply (co_folders _ Hok) in E. subst id. lia.
    - intros n h E. rewrite lookup_insert_ne; [by apply (li_folder _ _ _ (co_listed _ Hok _ _ E))|]. intros Eid. apply Hnew. by exists n, h. }
  unfold ps_bind at 1, next_keyspace_id. unfold ps_bind at 1, keyspace_create_new, ps_bind at 1, ps_pure, p_lift.
  destruct (env_mkdir env) as [[]|e].
  2:{ intros [= <- <-]. split; [|done]. change (catalog_ok (set_folders (cat_folders c) (set_counter (id + 1) c))).
      apply catalog_ok_disk; [done|lia| |].
      - intros id' b E. apply (co_folders _ Hok) in E. subst id. lia.
      - intros n h E. by apply (li_folder _ _ _ (co_listed _ Hok _ _ E)). }
  unfold ps_bind at 1, ps_modify. cbn [cat_folders set_counter]. unfold ps_bind at 1.
  destruct (env_open env) as [[]|e]; cbn [cat_folders set_counter set_folders]; rewrite insert_insert_eq.
  2:{ intros [= <- <-]. split; [apply Hdisk|done]. }
  unfold ps_ret at 1, ps_bind. set (c1 := set_folders _ _). change c1 with (set_folders (<[id := true]> (cat_folders c)) (set_counter (id + 1) c)).
  destruct (create_keyspace _ _ _ _) as [[c2 r2]|] eqn:Ec; [|done].
  apply create_keyspace_ok in Ec as [Hok2 Ek]; [|done|done|unfold_ranges; lia|cbn; lia|done|cbn; apply lookup_insert_eq|done|done|done| |by apply assign_ok].
  2:{ cbn. intros Hd. apply (co_deleted _ Hok) in Hd. lia. }
  destruct r2 as [[]|e]; cbn [is_ok] in Ek; intros [= <- <-]; (split; [done|]); [|done]. by split.
Qed.

(** It panics only on an invalid name. *)
Lemma raw_keyspace_total env name opts c :
  is_valid_keyspace_name name = true -> strategy_ok (compaction_strategy opts) ->
  exists p, raw_keyspace assigner env name opts c = Some p.
Proof.
  intros Hv Ho. unfold raw_keyspace, ps_bind at 1, ps_assert. rewrite Hv. destruct (cat_keyspaces c !! name); [by eexists|].
  unfold ps_bind at 1, next_keyspace_id. unfold ps_bind at 1, keyspace_create_new, ps_bind at 1, ps_pure, p_lift.
  destruct (env_mkdir env) as [[]|e]; [|by eexists]. unfold ps_bind at 1, ps_modify. unfold ps_bind at 1.
  destruct (env_open env) as [[]|e]; [|by eexists]. unfold ps_ret at 1, ps_bind at 1, create_keyspace, ps_bind at 1, ps_pure.
  cbn [h_config]. assert (strategy_ok (compaction_strategy (assign assigner name opts))) as Ho'
    by (unfold assign; by destruct (assigner ≫= _); [destruct opts|]).
  destruct (encode_kvs_total (keyspace_id_counter c) _ Ho') as [l ->]. cbn [p_expect fmap option_fmap option_map].
  unfold ps_bind, on_tree. destruct (write_keyspace _ _ _ _) as [t [[]|e]]; by eexists.
Qed.

(** ** Deleting *)

Lemma remove_keyspace_ok name c c' r :
  catalog_ok c -> remove_keyspace name c = Some (c', r) ->
  catalog_ok c' /\ keyspace_id_counter c' = keyspace_id_counter c /\ cat_deleted c' = cat_deleted c /\
  cat_keyspaces c' = if is_ok r then delete name (cat_keyspaces c) else cat_keyspaces c.
Proof.
  intros Hok. unfold remove_keyspace. destruct (cat_keyspaces c !! name) as [h|] eqn:En.
  2:{ intros [= <- <-]. split; [done|]. split; [done|]. split; [done|]. by rewrite delete_id. }
  unfold ps_bind at 1, ps_modify at 1. unfold ps_bind, on_tree, ps_modify. cbn [cat_tree set_seqnos].
  destruct (co_listed _ Hok _ _ En) as [_ _ [Hid _] _ _].
  destruct (erase_keyspace (h_id h) (cat_tree c)) as [t r1] eqn:Ee. apply erase_keyspace_view in Ee; [|done].
  destruct r1 as [[]|e]; cbn [is_ok] in Ee; intros [= <- <-]; cbn [is_ok]; (split; [|done]).
  - destruct Ee as (Hn & Hc & Hother). match goal with |- catalog_ok ?x => set (c1 := x) end.
    assert (forall id, known c id -> id <> h_id h -> known c1 id) as Hmono.
    { intros id (n & h' & E & <-) Hne. exists n, h'. split; [|done]. cbn. rewrite lookup_delete_ne; [done|]. intros <-. congruence. }
    constructor; cbn.
    + intros n h' [Hne E]%lookup_delete_Some. destruct (co_listed _ Hok _ _ E) as [L1 L2 L3 L4 (o & kv & L5 & L6 & L7 & L8)].
      constructor; cbn; try done. exists o, kv. split; [done|]. split; [done|]. split; [done|].
      eapply same_entries_holds; [|done]. apply Hother; [apply L3|]. intros Eid. by apply Hne, (known_unique c name h n h').
    + intros id v Hu E. destruct (decide (id = h_id h)) as [->|Hne]; [congruence|].
      rewrite (proj1 (Hother id Hu Hne)) in E. apply Hmono; [|done]. by apply (co_names _ Hok id v).
    + intros id n v Hu E. destruct (decide (id = h_id h)) as [->|Hne]; [rewrite Hc in E; done|].
      rewrite (proj2 (Hother id Hu Hne)) in E. apply Hmono; [|done]. by apply (co_configs _ Hok id n v).
    + apply Hok.
    + intros id Hd. destruct (co_deleted _ Hok id Hd) as [Hlt Hk]. split; [done|].
      intros (n & h' & E & Eid). apply Hk. cbn in E. apply lookup_delete_Some in E as [_ E]. by exists n, h'.
    + exact (co_counter _ Hok).
  - destruct Hok as [C1 C2 C3 C4 C5 C6]. constructor; cbn; try rewrite Ee; try done.
    intros n' h' E'. destruct (C1 n' h' E') as [L1 L2 L3 L4 L5]. constructor; cbn; try rewrite Ee; done.
Qed.

(** A handle the database gave out: as long as its keyspace is known, under its name. *)
Definition issued (c : Cat) (h : Handle F) : Prop :=
  h_id h < keyspace_id_counter c /\
  (known c (h_id h) -> exists h', cat_keyspaces c !! h_name h = Some h' /\ h_id h' = h_id h).

Lemma delete_keyspace_ok h c c' r :
  catalog_ok c -> issued c h -> delete_keyspace h c = Some (c', r) -> catalog_ok c'.
Proof.
  intros Hok [Hlt Hname]. unfold delete_keyspace, ps_bind, ps_modify.
  destruct (remove_keyspace (h_name h) c) as [[c1 r1]|] eqn:Er; [|done].
  apply remove_keyspace_ok in Er as (Hok1 & Hc1 & Hd1 & Hk1); [|done].
  destruct r1 as [[]|e]; intros [= <- <-]; [|done]. cbn [is_ok] in Hk1. destruct Hok1 as [C1 C2 C3 C4 C5 C6].
  constructor; try done.
  - intros n h' E. destruct (C1 n h' E). by constructor.
  - cbn. intros id [Hd| ->%elem_of_singleton]%elem_of_union; [by apply C5|]. split; [lia|].
    intros (n & h' & E & Eid). cbn in E. rewrite Hk1 in E. apply lookup_delete_Some in E as [Hne E].
    destruct Hname as (h2 & E2 & Eid2); [by exists n, h'|]. apply Hne. apply (known_unique c _ h2 _ h' Hok E2 E). congruence.
Qed.

Lemma drop_keyspace_ok probe rm rmdir id c : catalog_ok c -> catalog_ok (drop_keyspace probe rm rmdir id c).
Proof.
  intros Hok. unfold drop_keyspace. case_bool_decide as Hd; [|done]. destruct probe as [[]|]; [|done].
  destruct (cat_folders c !! id) as [[]|] eqn:Ef; simpl; [|exact Hok..]. destruct rm as [[]|]; [|done].
  destruct (co_deleted _ Hok id Hd) as [_ Hk].
  assert (forall fs, (forall id' b, fs !! id' = Some b -> is_Some (cat_folders c !! id')) ->
    (forall id', id' <> id -> fs !! id' = cat_folders c !! id') -> catalog_ok (set_folders fs c)) as Hset.
  { intros fs Hin Hother. change (catalog_ok (set_folders fs (set_counter (keyspace_id_counter c) c))).
    apply catalog_ok_disk; [done|lia| |].
    - intros id' b E. destruct (Hin id' b E) as [b' E']. by apply (co_folders _ Hok) in E'.
    - intros n h E. rewrite Hother; [apply (li_folder _ _ _ (co_listed _ Hok _ _ E))|]. intros Eid. apply Hk. by exists n, h. }
  destruct rmdir as [[]|]; apply Hset.
  - intros id' b [_ E]%lookup_delete_Some. by eexists.
  - intros id' Hne. by rewrite lookup_delete_ne.
  - intros id' b [[<- _]|[_ E]]%lookup_insert_Some; by eexists.
  - intros id' Hne. by rewrite lookup_insert_ne.
Qed.

(** ** All operations *)

Inductive CatOp :=
  | CCreate (env : CreateEnv) (name : str) (opts : CreateOptions F)
  | CDelete (h : Handle F)
  | CDrop (probe remove_manifest remove_dir : Result ()) (id : Z).

Definition cat_run (op : CatOp) (c : Cat) : option (Cat * Result ()) :=
  match op with
  | CCreate env name opts =>
      match raw_keyspace assigner env name opts c with
      | Some (c, Ok _) => Some (c, Ok ())
      | Some (c, Err e) => Some (c, Err e)
      | None => None
      end
  | CDelete h => delete_keyspace h c
  | CDrop probe rm rmdir id => Some (drop_keyspace probe rm rmdir id c, Ok ())
  end.

Definition cat_op_ok (op : CatOp) (c : Cat) : Prop :=
  match op with
  | CCreate _ name opts => is_str name /\ options_ok opts /\ keyspace_id_counter c <= u64_max
  | CDelete h => issued c h
  | CDrop _ _ _ _ => True
  end.

(** C27: Creating, deleting and dropping keyspaces keep the catalogue consistent, whatever
    file-system call, tree or read fails: every keyspace of the dictionary has an
    initialised folder and its name and configuration in the meta tree under its own
    id, the meta tree knows no other keyspace, and ids are never given out twice. *)
Theorem catalog_invariant op c c' r : catalog_ok c -> cat_op_ok op c -> cat_run op c = Some (c', r) -> catalog_ok c'.
Proof.
  intros Hok. destruct op as [env name opts|h|probe rm rmdir id]; cbn.
  - intros (Hs & Ho & Hmax). destruct (raw_keyspace _ _ _ _ _) as [[c1 [h|e]]|] eqn:E; intros [= <- <-];
      by apply raw_keyspace_ok in E as [? _].
  - apply delete_keyspace_ok, Hok.
  - intros _ [= <- <-]. by apply drop_keyspace_ok.
Qed.

(** ** Recovery *)

Definition rec_handle (h : Handle F) : Handle F := mkHandle (h_id h) (h_name h) (assign assigner (h_name h) (restored (h_config h))).

Definition dir_id (d : Result DirEnt) : option Z :=
  match d with Ok (KeyspaceDir (Some id)) => if decide (id = 0) then None else Some id | _ => None end.

(** The entries of the keyspaces folder: the folders, number 0 and stray files. *)
Definition lists_folders (dirents : list (Result DirEnt)) (fs : gmap Z bool) : Prop :=
  (Ok (KeyspaceDir None) ∉ dirents) /\ NoDup (omap dir_id dirents) /\ forall id, id ∈ omap dir_id dirents <-> is_Some (fs !! id).

(** File system and trees answer every request. *)
Definition disk_answers (env : RecoverEnv) (c : Cat) : Prop :=
  (forall id, env_remove_dir env id = Ok () /\ env_probe env id = Ok () /\ env_reopen env id = Ok ()) /\
  forall key, is_ok (rd_get key (cat_tree c)) = true.

(** One folder: its keyspace is restored if it is known and the folder removed if not. *)
Lemma recover_keyspace_spec env id c cc :
  catalog_ok c -> is_u64 id -> cat_tree cc = cat_tree c -> cat_folders cc !! id = cat_folders c !! id ->
  exists cc' r, recover_keyspace assigner env id cc = Some (cc', r) /\
    (r = Ok () ->
     (exists name h, cat_keyspaces c !! name = Some h /\ h_id h = id /\
        cc' = set_keyspaces (<[name := rec_handle h]> (cat_keyspaces cc)) cc) \/
     (~ known c id /\ cc' = set_folders (delete id (cat_folders cc)) cc)) /\
    (disk_answers env c -> r = Ok ()).
Proof.
  intros Hok Hu Ht Hf. unfold recover_keyspace, ps_bind at 1, ps_read at 1, resolve_id. rewrite Ht.
  assert (forall e key, disk_answers env c -> rd_get key (cat_tree c) = Err e -> False) as Herr.
  { intros e key [_ Hd] E. specialize (Hd key). by rewrite E in Hd. }
  assert (forall e f, disk_answers env c -> f id = Err e -> f = env_remove_dir env \/ f = env_probe env \/ f = env_reopen env -> False) as Henv.
  { intros e f [Hd _] E [->|[->| ->]]; destruct (Hd id) as (E1 & E2 & E3); congruence. }
  destruct (rd_get (name_key id) (cat_tree c)) as [o|e] eqn:Eg; [|exists cc, (Err e); split_and!; [done|done|by intros Hd; destruct (Herr _ _ Hd Eg)]].
  apply get_law in Eg. destruct o as [v|].
  - symmetry in Eg. destruct (co_names _ Hok id v Hu Eg) as (name & h & En & Eid).
    destruct (co_listed _ Hok _ _ En) as [L1 L2 L3 L4 (o & kvs & L5 & L6 & L7 & L8)]. rewrite Eid in *.
    assert (v = str_bytes name) as -> by (destruct L8; congruence). rewrite from_utf8_str_bytes by done.
    unfold ps_bind at 1, ps_pure at 1, p_lift.
    destruct (env_probe env id) as [[]|e] eqn:E1; [|exists cc, (Err e); split_and!; [done|done|intros Hd; destruct (Henv _ _ Hd E1); auto]].
    rewrite Hf, L4. cbn [default]. unfold ps_bind at 1, ps_read. rewrite Ht.
    destruct (reads_from_kvs id o kvs (cat_tree c) L5 L7 (proj2 L8)) as [->|(e & k & -> & Ek)];
      [|exists cc, (Err e); split_and!; [done|done|by intros Hd; destruct (Herr _ _ Hd Ek)]].
    unfold ps_bind, ps_pure, p_lift.
    destruct (env_reopen env id) as [[]|e] eqn:E2; [|exists cc, (Err e); split_and!; [done|done|intros Hd; destruct (Henv _ _ Hd E2); auto]].
    eexists _, _. split_and!; [done| |done]. intros _. left. exists name, h. split; [done|]. split; [done|].
    unfold rec_handle. by rewrite L1, Eid, L6.
  - unfold remove_folder. destruct (env_remove_dir env id) as [[]|e] eqn:E1; [|exists cc, (Err e); split_and!; [done|done|intros Hd; destruct (Henv _ _ Hd E1); auto]].
    eexists _, _. split_and!; [done| |done]. intros _. right. split; [|done]. intros (name & h & En & Eid).
    destruct (co_listed _ Hok _ _ En) as [_ _ _ _ (o & kvs & _ & _ & _ & L8)]. rewrite Eid in L8. destruct L8. congruence.
Qed.

(** What the loop leaves behind for the ids it has seen. *)
Record recovered (c cc cc' : Cat) (ids : list Z) (highest highest' : Z) : Prop := {
  re_tree : cat_tree cc' = cat_tree c;
  re_keyspaces name : cat_keyspaces cc' !! name =
    match cat_keyspaces c !! name with
    | Some h => if decide (h_id h ∈ ids) then Some (rec_handle h) else cat_keyspaces cc !! name
    | None => cat_keyspaces cc !! name
    end;
  re_kept id : (known c id \/ id ∉ ids) -> cat_folders cc' !! id = cat_folders cc !! id;
  re_gone id : id ∈ ids -> ~ known c id -> cat_folders cc' !! id = None;
  re_deleted : cat_deleted cc' = cat_deleted cc;
  re_highest : highest <= highest' /\ forall id, id ∈ ids -> id <= highest'
}.

Lemma recovered_nil c cc highest : cat_tree cc = cat_tree c -> recovered c cc cc [] highest highest.
Proof.
  intros Ht. constructor; try done.
  - intros name. by destruct (cat_keyspaces c !! name).
  - by intros id ?%elem_of_nil.
  - split; [lia|]. by intros id ?%elem_of_nil.
Qed.

Lemma recovered_known c cc cc' ids highest highest' id name h :
  catalog_ok c -> cat_keyspaces c !! name = Some h -> h_id h = id -> id ∉ ids ->
  recovered c (set_keyspaces (<[name := rec_handle h]> (cat_keyspaces cc)) cc) cc' ids (Z.max highest id) highest' ->
  recovered c cc cc' (id :: ids) highest highest'.
Proof.
  intros Hok En Eid Hn [R1 R2 R3 R4 R5 [R6 R7]]. constructor; try done.
  - intros n. rewrite R2. cbn. destruct (cat_keyspaces c !! n) as [h'|] eqn:E'.
    + destruct (decide (n = name)) as [->|Hne].
      * assert (h' = h) as -> by congruence. rewrite Eid. rewrite decide_False, decide_True, lookup_insert_eq by (done || left). done.
      * rewrite lookup_insert_ne by done. assert (h_id h' <> id) as Hid.
        { intros E. apply Hne. apply (known_unique c n h' name h); [done..|congruence]. }
        destruct (decide (h_id h' ∈ ids)); [rewrite decide_True by (by right)|rewrite decide_False by (by intros [?|?]%elem_of_cons)]; done.
    + apply lookup_insert_ne. intros <-. congruence.
  - intros id' [Hk|Hout]; apply R3; [by left|]. right. intros ?. apply Hout. by right.
  - intros id' [->|Hin]%elem_of_cons Hk; [destruct Hk; by exists name, h|by apply R4].
  - split; [lia|]. intros id' [->|Hin]%elem_of_cons; [lia|by apply R7].
Qed.

Lemma recovered_unknown c cc cc' ids highest highest' id :
  ~ known c id -> id ∉ ids ->
  recovered c (set_folders (delete id (cat_folders cc)) cc) cc' ids (Z.max highest id) highest' ->
  recovered c cc cc' (id :: ids) highest highest'.
Proof.
  intros Hk Hn [R1 R2 R3 R4 R5 [R6 R7]]. constructor; try done.
  - intros n. rewrite R2. cbn. destruct (cat_keyspaces c !! n) as [h'|] eqn:E'; [|done].
    assert (h_id h' <> id) as Hid by (intros E; apply Hk; by exists n, h').
    destruct (decide (h_id h' ∈ ids)); [rewrite decide_True by (by right)|rewrite decide_False by (by intros [?|?]%elem_of_cons)]; done.
  - intros id' Hid. rewrite R3.
    + cbn. apply lookup_delete_ne. intros <-. destruct Hid as [?|Hout]; [done|]. apply Hout. left.
    + destruct Hid as [?|Hout]; [by left|]. right. intros ?. apply Hout. by right.
  - intros id' [->|Hin]%elem_of_cons Hk'; [|by apply R4]. rewrite R3 by (by right). cbn. apply lookup_delete_eq.
  - split; [lia|]. intros id' [->|Hin]%elem_of_cons; [lia|by apply R7].
Qed.

Lemma recover_dirents_spec env c dirents cc highest :
  catalog_ok c -> Ok (KeyspaceDir None) ∉ dirents -> NoDup (omap dir_id dirents) ->
  (forall id, id ∈ omap dir_id dirents -> is_u64 id /\ cat_folders cc !! id = cat_folders c !! id) ->
  cat_tree cc = cat_tree c ->
  exists cc' r, recover_dirents assigner env highest dirents cc = Some (cc', r) /\
    (forall highest', r = Ok highest' -> recovered c cc cc' (omap dir_id dirents) highest highest') /\
    (disk_answers env c -> Forall (fun d => is_ok d = true) dirents -> is_ok r = true).
Proof.
  intros Hok. revert cc highest. induction dirents as [|d dirents IH]; intros cc highest Hnone Hnd Hids Ht.
  { exists cc, (Ok highest). split_and!; [done| |done]. intros ? [= <-]. by apply recovered_nil. }
  apply not_elem_of_cons in Hnone as [Hd Hnone].
  destruct d as [[|[id|]]|e]; [| |done|by exists cc, (Err e); split_and!; [| |intros _ [? _]%Forall_cons]].
  { destruct (IH cc highest) as (cc' & r & E & Hrec & Hans); [done..|]. exists cc', r. split_and!; [done|done|]. intros Hda [_ Hds]%Forall_cons. auto. }
  cbn [recover_dirents]. unfold ps_bind at 1, ps_pure, p_lift. cbn [omap list_omap dir_id] in *.
  destruct (decide (id = 0)) as [->|Hz].
  { destruct (IH cc highest) as (cc' & r & E & Hrec & Hans); [done..|]. exists cc', r. split_and!; [done|done|]. intros Hda [_ Hds]%Forall_cons. auto. }
  apply NoDup_cons in Hnd as [Hn Hnd]. destruct (Hids id) as [Hu Hf]; [left|].
  destruct (recover_keyspace_spec env id c cc Hok Hu Ht Hf) as (c1 & r1 & Er & Hr & Hans). unfold ps_bind. rewrite Er.
  destruct r1 as [[]|e]; [|exists c1, (Err e); split_and!; [done|done|intros Hda _; by discriminate (Hans Hda)]].
  destruct (Hr eq_refl) as [(name & h & En & Eid & ->)|[Hk ->]].
  - destruct (IH (set_keyspaces (<[name := rec_handle h]> (cat_keyspaces cc)) cc) (Z.max highest id)) as (c2 & r2 & E2 & Hr2 & Ha2); [done|done| |done|].
    { intros id' Hin. apply (Hids id'). by right. }
    exists c2, r2. split_and!; [done| |intros ? [_ ?]%Forall_cons; auto]. intros highest' E. by eapply recovered_known, Hr2.
  - destruct (IH (set_folders (delete id (cat_folders cc)) cc) (Z.max highest id)) as (c2 & r2 & E2 & Hr2 & Ha2); [done|done| |done|].
    { intros id' Hin. destruct (Hids id') as [Hu' Hf']; [by right|]. split; [done|]. cbn. rewrite lookup_delete_ne; [done|].
      by intros <-. }
    exists c2, r2. split_and!; [done| |intros ? [_ ?]%Forall_cons; auto]. intros highest' E. by eapply recovered_unknown, Hr2.
Qed.

(** Recovery of the dictionary, with the meta tree left as it is. *)
Lemma recover_keyspaces_spec env dirents c :
  catalog_ok c -> keyspace_id_counter c <= u64_max -> lists_folders dirents (cat_folders c) ->
  exists c' r, recover_keyspaces assigner env (Ok dirents) (crash c) = Some (c', r) /\
    (r = Ok () -> catalog_ok c' /\ cat_tree c' = cat_tree c /\ (forall name, cat_keyspaces c' !! name = rec_handle <$> cat_keyspaces c !! name) /\
      (forall id, is_Some (cat_folders c' !! id) <-> known c id)) /\
    (disk_answers env c -> Forall (fun d => is_ok d = true) dirents -> r = Ok ()).
Proof.
  intros Hok Hmax (Hnone & Hnd & Hids). unfold recover_keyspaces, ps_bind at 1, ps_pure, p_lift.
  destruct (recover_dirents_spec env c dirents (crash c) 1 Hok Hnone Hnd) as (c1 & r1 & E1 & Hr1 & Ha1); [|done|].
  { intros id Hin. split; [|done]. apply Hids in Hin as [b Hb]. apply (co_folders _ Hok) in Hb. unfold_ranges. lia. }
  unfold ps_bind. rewrite E1. destruct r1 as [highest|e];
    [|exists c1, (Err e); split_and!; [done|done|intros Hda Hds; by discriminate (Ha1 Hda Hds)]].
  destruct (Hr1 highest eq_refl) as [R1 R2 R3 R4 R5 [R6 R7]]. eexists _, _. split_and!; [done| |done]. intros _.
  assert (forall name h, cat_keyspaces c !! name = Some h -> h_id h ∈ omap dir_id dirents) as Hin.
  { intros name h E. apply Hids. rewrite (li_folder _ _ _ (co_listed _ Hok _ _ E)). by eexists. }
  assert (forall name, cat_keyspaces c1 !! name = rec_handle <$> cat_keyspaces c !! name) as Hks.
  { intros name. rewrite R2. destruct (cat_keyspaces c !! name) as [h|] eqn:E; [|cbn; by rewrite lookup_empty].
    by rewrite decide_True by (by apply (Hin name)). }
  assert (forall id, known (set_counter (highest + 1) c1) id <-> known c id) as Hknown.
  { intros id. split; intros (name & h & E & Eid); cbn in *.
    - rewrite Hks in E. apply fmap_Some in E as (h' & E & ->). by exists name, h'.
    - exists name, (rec_handle h). cbn. rewrite Hks, E. done. }
  assert (forall id, is_Some (cat_folders c1 !! id) <-> known c id) as Hfold.
  { intros id. split.
    - intros [b Hb]. destruct (decide (id ∈ omap dir_id dirents)) as [Hi|Hi].
      + apply dec_stable. intros Hk. rewrite (R4 id Hi Hk) in Hb. done.
      + rewrite (R3 id (or_intror Hi)) in Hb. cbn in Hb. destruct Hi. apply Hids. by eexists.
    - intros Hk. rewrite (R3 id (or_introl Hk)). cbn. destruct Hk as (name & h & E & <-).
      rewrite (li_folder _ _ _ (co_listed _ Hok _ _ E)). by eexists. }
  split_and!; [|cbn; congruence|done|done]. constructor.
  - intros name h E. cbn in E. rewrite Hks in E. apply fmap_Some in E as (h' & E & ->).
    destruct (co_listed _ Hok _ _ E) as [L1 L2 [L3 L3'] L4 (o & kvs & L5 & L6 & L7 & L8)].
    constructor; cbn; [done|done|split; [done|]| |].
    + pose proof (R7 _ (Hin _ _ E)). lia.
    + rewrite R3; [done|]. left. by exists name, h'.
    + exists o, kvs. rewrite assign_restored, R1. split; [done|]. split; [by destruct (h_config h')|done].
  - intros id v Hu Hv. cbn in Hv. rewrite R1 in Hv. apply Hknown. by apply (co_names _ Hok id v).
  - intros id n v Hu Hv. cbn in Hv. rewrite R1 in Hv. apply Hknown. by apply (co_configs _ Hok id n v).
  - cbn. intros id b Hb. destruct (proj1 (Hfold id)) as (name & h & E & <-); [by eexists|].
    destruct (co_listed _ Hok _ _ E) as [_ _ [_ L3'] _ _]. pose proof (R7 _ (Hin _ _ E)). lia.
  - cbn. intros id. rewrite R5. cbn. by intros ?%elem_of_empty.
  - cbn. lia.
Qed.

(** C26: Recovery never panics on what a database leaves on disk, succeeds when file system
    and trees answer, and when it succeeds the
    dictionary is the one before the crash (each handle with its stored options), the
    folders no keyspace refers to are gone, and the invariant holds again. *)
Theorem recover_restores env dirents c :
  catalog_ok c -> keyspace_id_counter c <= u64_max -> lists_folders dirents (cat_folders c) ->
  exists c' r, recover_keyspaces assigner env (Ok dirents) (crash c) = Some (c', r) /\
    (r = Ok () -> catalog_ok c' /\ (forall name, cat_keyspaces c' !! name = rec_handle <$> cat_keyspaces c !! name) /\
      (forall id, is_Some (cat_folders c' !! id) <-> known c id)) /\
    (disk_answers env c -> Forall (fun d => is_ok d = true) dirents -> r = Ok ()).
Proof.
  intros Hok Hmax Hl. destruct (recover_keyspaces_spec env dirents c Hok Hmax Hl) as (c' & r & E & Hr & Ha).
  exists c', r. split_and!; [done| |done]. intros Er. by destruct (Hr Er) as (? & _ & ? & ?).
Qed.
End invariant.

(** ** The namespace of secure keyspaces *)

Lemma starts_with_app p s : starts_with (p ++ s) p = true.
Proof. induction p as [|c p IH]; [by destruct s|]. simpl. by rewrite bool_decide_eq_true_2. Qed.

(** The raw interface never opens or creates the keyspace behind a secure one. *)
Theorem raw_access_reserved `{JournalCodec, StrategyConfig, PrefixRange} {S F : Type} `{!ReadableOps S, !IngestOps S}
    (assigner : option (str -> option F)) env name opts (c : Catalog S F) :
  is_valid_keyspace_name (physical_keyspace_name name) = true ->
  db_keyspace assigner env (physical_keyspace_name name) opts c = Some (c, Err ReservedKeyspaceName).
Proof.
  intros Hv. unfold db_keyspace, ps_bind, ps_assert. rewrite Hv.
  unfold is_reserved_raw_keyspace_name, physical_keyspace_name. by rewrite starts_with_app.
Qed.

(** ** Samples *)

Definition sample_get_config (c : CompactionStrategy) : list (string * bytes) :=
  match c with
  | Leveled l0 target ratios =>
      [("leveled_l0_threshold"%string, [l0]); ("leveled_target_size"%string, le_bytes 8 target);
       ("leveled_level_ratio_policy"%string, encode_entries (le_bytes 4) ratios)]
  | Fifo limit ttl =>
      [("fifo_limit"%string, le_bytes 8 limit); ("fifo_ttl"%string, [bool_byte (bool_decide (is_Some ttl))])] ++
      match ttl with Some s => [("fifo_ttl_seconds"%string, le_bytes 8 s)] | None => [] end
  | OtherStrategy _ => []
  end.

#[export] Instance sample_strategy_config : StrategyConfig.
Proof.
  refine {| get_config := sample_get_config |}; [|done|done].
  intros [l0 target ratios|limit [ttl|]|name]; cbn [sample_get_config fmap list_fmap fst app];
    apply (bool_decide_unpack _); reflexivity.
Defined.

Abbreviation SampleCatalog := (Catalog (gmap bytes bytes) ()).

Definition sample_options : CreateOptions () := default_options Byte.x07 (Leveled Byte.x04 (64 * 1024 * 1024) [0x41200000]).
Definition all_ok : CreateEnv := mkCreateEnv (Ok ()) (Ok ()) false.
Definition empty_catalog : SampleCatalog := mkCatalog ∅ ∅ 1 ∅ ∅ 0 0.

Lemma empty_catalog_ok : catalog_ok empty_catalog.
Proof. constructor; cbn; try done; try (intros *; by rewrite lookup_empty). Qed.

Lemma sample_options_ok : options_ok sample_options.
Proof.
  constructor; try done; cbn.
  all: repeat (split || constructor || (vm_compute; (done || lia))).
Qed.

Lemma options_roundtrip_witness :
  let o := set_compaction_strategy (Fifo 1024 (Some 60)) (sample_options) in
  exists l, encode_kvs 9 o = Some l /\
    from_kvs 9 (fst (write_keyspace 9 (s2str "n") l (∅ : gmap bytes bytes))) = Some (Ok (restored o)).
Proof.
  intros o. assert (options_ok o) as Ho by (constructor; try done; cbn; repeat (split || constructor || (vm_compute; (done || lia)))).
  destruct (encode_kvs_total 9 o (ok_strategy _ Ho)) as [l Hl]. exists l. split; [exact Hl|].
  destruct (options_roundtrip 9 (s2str "n") o l ∅ (fst (write_keyspace 9 (s2str "n") l (∅ : gmap bytes bytes)))
    ltac:(vm_compute; done) Ho Hl (fun n => lookup_empty (M := gmap bytes) _) eq_refl) as [E|(e & key & _ & E)]; [exact E|discriminate E].
Defined.

(** Two keyspaces. *)
Definition create_sample (name : string) (c : SampleCatalog) : SampleCatalog :=
  match raw_keyspace None all_ok (s2str name) sample_options c with Some (c, _) => c | None => c end.
Definition two_keyspaces : SampleCatalog := create_sample "b" (create_sample "a" empty_catalog).

Lemma create_sample_ok name c :
  is_valid_keyspace_name (s2str name) = true -> catalog_ok c -> keyspace_id_counter c <= u64_max -> catalog_ok (create_sample name c).
Proof.
  intros Hv Hok Hmax. unfold create_sample. destruct (raw_keyspace _ _ _ _ _) as [[c' r]|] eqn:E; [|done].
  by apply raw_keyspace_ok in E as [? _]; [|done|apply s2str_is_str|apply sample_options_ok|].
Qed.

Lemma two_keyspaces_ok : catalog_ok two_keyspaces.
Proof.
  apply create_sample_ok; [done|apply create_sample_ok; [done|apply empty_catalog_ok|done]|vm_compute; done].
Qed.

Lemma catalog_invariant_witness : catalog_ok (create_sample "c" two_keyspaces).
Proof.
  pose proof (raw_keyspace_total None all_ok (s2str "c") sample_options two_keyspaces eq_refl (ok_strategy _ sample_options_ok)) as [[c r] E].
  assert (create_sample "c" two_keyspaces = c) as -> by (unfold create_sample; by rewrite E).
  refine (catalog_invariant None (CCreate all_ok (s2str "c") sample_options) two_keyspaces c
    (match r with Ok _ => Ok () | Err e => Err e end) two_keyspaces_ok _ _).
  - split; [apply s2str_is_str|]. split; [apply sample_options_ok|]. vm_compute. done.
  - cbn [cat_run]. rewrite E. by destruct r.
Defined.

(** Recovery from the folders in some order, with a stray file. *)
Definition sample_dirents : list (Result DirEnt) :=
  [Ok (KeyspaceDir (Some 2)); Ok StrayFile; Ok (KeyspaceDir (Some 0)); Ok (KeyspaceDir (Some 1))].
Definition recover_env_ok : RecoverEnv := mkRecoverEnv (fun _ => Ok ()) (fun _ => Ok ()) (fun _ => Ok ()).

Lemma recover_restores_witness :
  exists c', recover_keyspaces None recover_env_ok (Ok sample_dirents) (crash two_keyspaces) = Some (c', Ok ()) /\
    h_id <$> cat_keyspaces c' !! s2str "b" = Some 2.
Proof.
  assert (lists_folders sample_dirents (cat_folders two_keyspaces)) as Hl.
  { split; [by apply (bool_decide_unpack _)|]. split; [by apply (bool_decide_unpack _)|].
    assert (cat_folders two_keyspaces = {[1 := true; 2 := true]}) as -> by (by apply (bool_decide_unpack _)).
    intros id. change (omap dir_id sample_dirents) with [2; 1]. rewrite !elem_of_cons, lookup_insert_is_Some', lookup_singleton_is_Some. set_solver. }
  destruct (recover_restores None recover_env_ok sample_dirents two_keyspaces two_keyspaces_ok ltac:(vm_compute; done) Hl)
    as (c' & r & E & Hr & _).
  assert (is_ok <$> (snd <$> recover_keyspaces None recover_env_ok (Ok sample_dirents) (crash two_keyspaces)) = Some true) as Hok
    by (vm_compute; reflexivity).
  rewrite E in Hok. destruct r as [[]|e]; [|discriminate Hok]. exists c'. split; [exact E|].
  destruct (Hr eq_refl) as (_ & Hks & _). rewrite Hks. vm_compute. reflexivity.
Defined.

Lemma raw_access_reserved_witness :
  db_keyspace None all_ok (physical_keyspace_name (s2str "events")) sample_options two_keyspaces = Some (two_keyspaces, Err ReservedKeyspaceName).
Proof. apply raw_access_reserved. vm_compute. reflexivity. Defined.

(** ** Departures *)

(** A secure keyspace name may be empty, though a keyspace name may not. *)
Theorem empty_secure_name :
  is_valid_keyspace_name [] = false /\ is_valid_keyspace_name (physical_keyspace_name []) = true.
Proof. vm_compute. done. Qed.

(** Deleting with a handle of a keyspace that was deleted and created again removes the
    new keyspace from the catalogue, but marks the old one: the new handle still counts
    as alive, and recovery will remove its folder. *)
Definition handle_of (name : string) (c : SampleCatalog) : Handle () :=
  default (mkHandle 0 [] sample_options) (cat_keyspaces c !! s2str name).
Definition delete_with (h : Handle ()) (c : SampleCatalog) : SampleCatalog :=
  match delete_keyspace h c with Some (c, _) => c | None => c end.

Theorem stale_delete_removes_new :
  let stale := handle_of "a" two_keyspaces in
  let recreated := create_sample "a" (delete_with stale two_keyspaces) in
  let fresh := handle_of "a" recreated in
  let c := delete_with stale recreated in
  (h_id stale, h_id fresh) = (1, 3) /\ cat_keyspaces c !! s2str "a" = None /\
  bool_decide (h_id fresh ∈ cat_deleted c) = false.
Proof. vm_compute. done. Qed.

(** Recovery restarts the ids above the highest folder that exists. When the youngest
    keyspace was deleted and its folder is gone, the next keyspace gets its id, though
    journals may still hold its writes under that id. *)
Theorem keyspace_id_reused :
  let old := handle_of "b" two_keyspaces in
  let deleted := drop_keyspace (Ok ()) (Ok ()) (Ok ()) (h_id old) (delete_with old two_keyspaces) in
  match recover_keyspaces None recover_env_ok (Ok [Ok (KeyspaceDir (Some 1))]) (crash deleted) with
  | Some (c, Ok ()) => h_id (handle_of "c" (create_sample "c" c)) = h_id old
  | _ => False
  end.
Proof. vm_compute. reflexivity. Qed.
