(* ===== verification/ReplayHistory.v ===== *)
(** * The history of one keyspace under replay

    Histories as seen by reads ([slot]), the history of a single keyspace while journal
    batches are replayed, and the pure counterpart of replaying and sealing a journal
    for one keyspace, with the invariant that relates the tables of a crash to the whole
    history. *)

From stdpp Require Import base gmap list sorting.
From S2P Require Import Prelude Errors Store JournalEntry JournalReader Mvcc DbProps.

Abbreviation batch := (Z * list Entry)%type.

(** ** Slots: the version written last for a key and a sequence number *)

Definition in_slot (ks : Z) (key : bytes) (s : Z) (v : Version) : Prop := of_key ks key v = true /\ v_seqno v = s.
#[local] Instance in_slot_dec ks key s v : Decision (in_slot ks key s v) := _.

Definition slot (h : history) (ks : Z) (key : bytes) (s : Z) : option Version := head (filter (in_slot ks key s) h).

Lemma slot_cons v h ks key s : slot (v :: h) ks key s = if decide (in_slot ks key s v) then Some v else slot h ks key s.
Proof. unfold slot. rewrite filter_cons. by case_decide. Qed.

Lemma slot_Some h ks key s v : slot h ks key s = Some v -> v ∈ h /\ in_slot ks key s v.
Proof.
  induction h as [|u h IH]; [done|]. rewrite slot_cons. case_decide as E; [intros [= <-]; by split; [left|]|].
  intros (? & ?)%IH. by split; [right|].
Qed.

Lemma slot_in h ks key s v : v ∈ h -> in_slot ks key s v -> is_Some (slot h ks key s).
Proof.
  induction h as [|u h IH]; intros Hin Hv; [by apply elem_of_nil in Hin|]. rewrite slot_cons.
  case_decide as E; [by eexists|]. apply elem_of_cons in Hin as [->|Hin]; [done|]. by apply IH.
Qed.

Lemma slot_app l h ks key s :
  slot (l ++ h) ks key s = match slot l ks key s with Some v => Some v | None => slot h ks key s end.
Proof. induction l as [|v l IH]; [done|]. simpl app. rewrite !slot_cons. by case_decide. Qed.

Lemma slot_filter (P : Version -> Prop) `{!forall v, Decision (P v)} h ks key s :
  (forall v, v ∈ h -> v_seqno v = s -> P v) -> slot (filter P h) ks key s = slot h ks key s.
Proof.
  induction h as [|u h IH]; intros HP; [done|]. rewrite filter_cons.
  assert (slot (filter P h) ks key s = slot h ks key s) as E by (apply IH; intros v Hv; apply HP; by right).
  case_decide as Hu; rewrite !slot_cons, E; [done|]. rewrite decide_False; [done|].
  intros [_ Hs]. by apply Hu, HP; [left|].
Qed.

Lemma newest_slot h ks key i v : newest h ks key i = Some v -> slot h ks key (v_seqno v) = Some v.
Proof.
  revert v. induction h as [|u h IH]; intros v; cbn [newest]; [done|]. rewrite slot_cons.
  destruct (of_key ks key u && bool_decide (v_seqno u < i)) eqn:Eu.
  - apply andb_true_iff in Eu as [Eu _]. destruct (newest h ks key i) as [w|] eqn:Ew.
    + case_decide as Hlt; intros [= <-].
      * rewrite decide_False by (intros [_ ?]; lia). by apply IH.
      * by rewrite decide_True by done.
    + intros [= <-]. by rewrite decide_True by done.
  - intros E. pose proof (newest_Some _ _ _ _ _ E) as (_ & Hk & Hi & _). rewrite decide_False; [by apply IH|].
    intros [Hu Hs]. rewrite Hu, bool_decide_eq_true_2 in Eu by lia. done.
Qed.

Lemma newest_None h ks key i : newest h ks key i = None -> forall v, v ∈ h -> of_key ks key v = true -> v_seqno v < i -> False.
Proof.
  induction h as [|u h IH]; intros E v Hin Hk Hi; [by apply elem_of_nil in Hin|]. cbn [newest] in E.
  destruct (newest h ks key i) as [w|] eqn:Ew.
  - destruct (of_key ks key u && _); [by case_decide|done].
  - destruct (of_key ks key u && bool_decide (v_seqno u < i)) eqn:Eu; [done|].
    apply elem_of_cons in Hin as [->|Hin]; [|by apply (IH eq_refl v)].
    rewrite Hk, bool_decide_eq_true_2 in Eu by done. done.
Qed.

(** Reads see the slots only. *)
Lemma newest_slots h h' ks key i :
  (forall s, slot h ks key s = slot h' ks key s) -> newest h ks key i = newest h' ks key i.
Proof.
  assert (forall h h', (forall s, slot h ks key s = slot h' ks key s) -> forall v,
    newest h ks key i = Some v -> newest h' ks key i = Some v) as Hone.
  { clear h h'. intros h h' Hs v E. pose proof (newest_Some _ _ _ _ _ E) as (_ & Hk & Hi & Hmax).
    pose proof (newest_slot _ _ _ _ _ E) as Hv. rewrite Hs in Hv.
    destruct (newest h' ks key i) as [u|] eqn:Eu.
    - pose proof (newest_Some _ _ _ _ _ Eu) as (_ & Hku & Hiu & Hmaxu). pose proof (newest_slot _ _ _ _ _ Eu) as Hu.
      apply slot_Some in Hv as Hv'. destruct Hv' as [Hv' _]. specialize (Hmaxu v Hv' Hk Hi).
      rewrite <- Hs in Hu. apply slot_Some in Hu as Hu'. destruct Hu' as [Hu' _]. specialize (Hmax u Hu' Hku Hiu).
      rewrite Hs in Hu. assert (v_seqno u = v_seqno v) as Eq by lia. rewrite Eq, Hv in Hu. congruence.
    - apply slot_Some in Hv as [Hv _]. destruct (newest_None _ _ _ _ Eu v Hv Hk Hi). }
  intros Hs. destruct (newest h ks key i) as [v|] eqn:E; [symmetry; by apply (Hone h)|].
  destruct (newest h' ks key i) as [v|] eqn:E'; [|done]. rewrite <- E. apply (Hone h' h) in E'; [|done]. congruence.
Qed.

(** The later of two versions, the left one among equals. *)
Definition later (a b : option Version) : option Version :=
  match a, b with
  | Some v, Some w => if decide (v_seqno v < v_seqno w) then Some w else Some v
  | Some v, None => Some v
  | None, b => b
  end.

Lemma newest_app l h ks key i : newest (l ++ h) ks key i = later (newest l ks key i) (newest h ks key i).
Proof.
  induction l as [|v l IH]; [done|]. simpl app. cbn [newest]. rewrite IH. destruct (_ && _); [|done].
  destruct (newest l ks key i) as [a|], (newest h ks key i) as [b|]; simpl; repeat (case_decide; simpl); try done; try lia.
Qed.

(** What a read of compacted data may find instead of the version [b]: it looks the same
    to readers and is not newer. Compactions drop shadowed versions and tombstones that
    hide nothing, and may lower sequence numbers. *)
Definition summary (a b : option Version) : Prop :=
  a ≫= visible_value = b ≫= visible_value /\
  forall v, a = Some v -> exists u, b = Some u /\ v_seqno v <= v_seqno u.

Lemma norm_visible (a b : option Version) : norm <$> a = norm <$> b -> a ≫= visible_value = b ≫= visible_value.
Proof.
  assert (forall v, visible_value (norm v) = visible_value v) as Hv by (intros [? ? ? [] ?]; done).
  intros E. apply (f_equal (fun o => o ≫= visible_value)) in E. destruct a, b; simpl in E; rewrite ?Hv in E; done.
Qed.

Lemma summary_norm (a b : option Version) : norm <$> a = norm <$> b -> summary a b.
Proof.
  intros E. split; [by apply norm_visible|]. intros v ->. destruct b as [u|]; [|done]. exists u. split; [done|].
  apply (f_equal (fmap v_seqno)) in E. injection E as ->. done.
Qed.

Lemma summary_trans a b c : summary a b -> summary b c -> summary a c.
Proof.
  intros [E1 H1] [E2 H2]. split; [congruence|]. intros v Hv. destruct (H1 v Hv) as (u & Hu & ?).
  destruct (H2 u Hu) as (x & Hx & ?). exists x. split; [done|lia].
Qed.

(** Newer data on top. *)
Lemma later_hides v a b :
  summary a b -> (forall u, b = Some u -> v_seqno u <= v_seqno v) -> later (Some v) a = Some v.
Proof.
  intros [_ Hs] Hv. destruct a as [y|]; [|done]. destruct (Hs y eq_refl) as (u & -> & ?). specialize (Hv u eq_refl).
  cbn. by rewrite decide_False by lia.
Qed.

Lemma summary_later x a b :
  (forall v u, x = Some v -> b = Some u -> v_seqno u <= v_seqno v) -> summary a b -> summary (later x a) (later x b).
Proof.
  intros Hx Hs. destruct x as [v|]; [|done].
  rewrite (later_hides v a b), (later_hides v b b); [by apply summary_norm|by apply summary_norm|auto|done|auto].
Qed.

(** Filters that agree, and filters that keep everything. *)
Lemma list_filter_iff' {A} (P Q : A -> Prop) `{!forall x, Decision (P x), !forall x, Decision (Q x)} (l : list A) :
  (forall x, x ∈ l -> P x <-> Q x) -> filter P l = filter Q l.
Proof.
  induction l as [|x l IH]; intros HPQ; [done|]. rewrite !filter_cons, IH by (intros y Hy; apply HPQ; by right).
  specialize (HPQ x ltac:(left)). do 2 case_decide; tauto.
Qed.

Lemma list_filter_all {A} (P : A -> Prop) `{!forall x, Decision (P x)} (l : list A) : (forall x, x ∈ l -> P x) -> filter P l = l.
Proof.
  induction l as [|x l IH]; intros HP; [done|]. rewrite filter_cons_True by (apply HP; left).
  f_equal. apply IH. intros y Hy. apply HP. by right.
Qed.

(** ** The history of one keyspace *)

Section keyspace.
Context (ks : Z).

Definition of_ks (h : history) : history := filter (fun v => v_keyspace v = ks) h.

Definition ks_entry (s : Z) (h : history) (e : Entry) : history :=
  match e with
  | Item ks' key value vt _ => if decide (ks' = ks) then item_version ks key value vt s h else h
  | Clear ks' => if decide (ks' = ks) then [] else h
  | _ => h
  end.
Definition ks_batch (h : history) (b : batch) : history := foldl (ks_entry b.1) h b.2.
Definition ks_replay (bs : list batch) (h : history) : history := foldl ks_batch h bs.

Lemma known_part_of_ks known h h' : known ks = true -> known_part known h = known_part known h' -> of_ks h = of_ks h'.
Proof.
  intros Hk E. apply (f_equal of_ks) in E.
  assert (forall h : history, of_ks (known_part known h) = of_ks h) as Eh; [|by rewrite !Eh in E].
  clear h h' E. intros h. unfold of_ks, known_part. rewrite list_filter_filter. apply list_filter_iff.
  intros v. split; [tauto|by intros ->].
Qed.

Lemma of_ks_entry s h e : of_ks (apply_entry s h e) = ks_entry s (of_ks h) e.
Proof.
  unfold of_ks. destruct e as [|ks' key value vt c| |ks']; simpl; try done.
  - destruct vt; simpl; rewrite ?filter_cons; simpl; case_decide; by subst.
  - unfold drop_keyspace. rewrite list_filter_filter. case_decide as E.
    + subst. apply elem_of_nil_inv. intros v [[? ?] _]%list_elem_of_filter. congruence.
    + apply list_filter_iff. intros v. split; [tauto|]. intros <-. by split.
Qed.

Lemma of_ks_foldl s es h : of_ks (foldl (apply_entry s) h es) = foldl (ks_entry s) (of_ks h) es.
Proof. revert h. induction es as [|e es IH]; intros h; [done|]. simpl. by rewrite IH, of_ks_entry. Qed.

Lemma of_ks_replay bs h : of_ks (replay bs h) = ks_replay bs (of_ks h).
Proof.
  revert h. induction bs as [|b bs IH]; intros h; [done|]. simpl. rewrite IH. f_equal. apply of_ks_foldl.
Qed.

Lemma newest_of_ks h key i : newest (of_ks h) ks key i = newest h ks key i.
Proof. apply newest_filter. by intros v _ [? _]%of_key_spec _. Qed.

Lemma ks_replay_app bs bs' h : ks_replay (bs ++ bs') h = ks_replay bs' (ks_replay bs h).
Proof. apply foldl_app. Qed.

(** Clearing *)
Definition clears (b : batch) : Prop := Clear ks ∈ b.2.
Definition touches (b : batch) : Prop := exists e, e ∈ b.2 /\ match e with Item ks' _ _ _ _ | Clear ks' => ks' = ks | _ => False end.

Lemma ks_foldl_app s es h : Clear ks ∉ es -> foldl (ks_entry s) h es = foldl (ks_entry s) [] es ++ h.
Proof.
  assert (forall es, Clear ks ∉ es -> forall l, foldl (ks_entry s) (l ++ h) es = foldl (ks_entry s) l es ++ h) as Happ.
  { clear es. intros es. induction es as [|e es IH]; intros Hc l; [done|]. cbn [foldl].
    apply not_elem_of_cons in Hc as [He Hc]. rewrite <- IH by done. f_equal.
    destruct e as [|ks' key value vt c| |ks']; simpl; try done; case_decide; try done; [by destruct vt|congruence]. }
  intros Hc. apply (Happ es Hc []).
Qed.

Lemma ks_batch_app b h : ~ clears b -> ks_batch h b = ks_batch [] b ++ h.
Proof. apply ks_foldl_app. Qed.

Lemma ks_replay_no_clear bs h : Forall (fun b => ~ clears b) bs -> ks_replay bs h = ks_replay bs [] ++ h.
Proof.
  intros Hbs. revert h. induction Hbs as [|b bs Hb _ IH]; intros h; [done|]. simpl.
  rewrite (ks_batch_app b h Hb), IH, (IH (ks_batch [] b)), app_assoc. done.
Qed.

Lemma ks_foldl_clear s es h h' : Clear ks ∈ es -> foldl (ks_entry s) h es = foldl (ks_entry s) h' es.
Proof.
  revert h h'. induction es as [|e es IH]; intros h h' Hc; [by apply elem_of_nil in Hc|]. cbn [foldl].
  destruct (decide (Clear ks ∈ es)); [by apply IH|]. apply elem_of_cons in Hc as [<-|?]; [|done].
  cbn [ks_entry]. by rewrite !decide_True.
Qed.

Lemma ks_replay_clear bs h h' : Exists clears bs -> ks_replay bs h = ks_replay bs h'.
Proof.
  intros Hb. revert h h'. induction Hb as [b bs Hb|b bs Hb IH]; intros h h'; [|apply IH]. simpl. f_equal.
  by apply ks_foldl_clear.
Qed.

#[local] Instance clears_dec b : Decision (clears b).
Proof. unfold clears. apply _. Defined.

Lemma clears_or_not bs : Forall (fun b => ~ clears b) bs \/ Exists clears bs.
Proof. destruct (decide (Exists clears bs)) as [E|E]; [by right|left]. by apply Forall_Exists_neg. Qed.

(** A batch writes at its own sequence number, and only if it touches the keyspace. *)
Lemma ks_foldl_from s es l v : v ∈ foldl (ks_entry s) l es -> v ∈ l \/
  v_keyspace v = ks /\ v_seqno v = s /\ exists e, e ∈ es /\ match e with Item ks' _ _ _ _ | Clear ks' => ks' = ks | _ => False end.
Proof.
  revert l. induction es as [|e es IH]; intros l; cbn [foldl]; [by left|].
  intros [Hl|(? & ? & e' & ? & ?)]%IH; [|right; split_and!; [done|done|]; exists e'; split; [by right|done]].
  destruct e as [|ks' key value vt c| |ks']; cbn [ks_entry] in Hl; try (by left);
    case_decide; [|by left|by apply elem_of_nil in Hl|by left].
  destruct vt; cbn [item_version] in Hl; try (by left); apply elem_of_cons in Hl as [->|?]; try (by left);
    (right; split_and!; [done|done|]; eexists; split; [left|done]).
Qed.

Lemma ks_foldl_in s es v : v ∈ foldl (ks_entry s) [] es ->
  v_keyspace v = ks /\ v_seqno v = s /\ exists e, e ∈ es /\ match e with Item ks' _ _ _ _ | Clear ks' => ks' = ks | _ => False end.
Proof. intros [Hnil|?]%ks_foldl_from; [by apply elem_of_nil in Hnil|done]. Qed.

Lemma ks_replay_touch bs h v : v ∈ ks_replay bs h -> v ∈ h \/ exists b, b ∈ bs /\ touches b /\ v_seqno v = b.1.
Proof.
  revert h. induction bs as [|b bs IH]; intros h; [by left|]. cbn [ks_replay foldl].
  intros [Hv|(b' & ? & ?)]%IH; [|right; exists b'; by split; [right|]].
  apply ks_foldl_from in Hv as [?|(_ & ? & ?)]; [by left|]. right. exists b. by split; [left|].
Qed.

Lemma ks_replay_from bs h v : v ∈ ks_replay bs h -> v ∈ h \/ exists b, b ∈ bs /\ v_seqno v = b.1.
Proof. intros [?|(b & ? & _ & ?)]%ks_replay_touch; [by left|right; by exists b]. Qed.

Lemma ks_batch_in b v : v ∈ ks_batch [] b -> v_keyspace v = ks /\ v_seqno v = b.1 /\ touches b.
Proof. apply ks_foldl_in. Qed.

Lemma ks_replay_in bs v : Forall (fun b => ~ clears b) bs -> v ∈ ks_replay bs [] ->
  v_keyspace v = ks /\ exists b, b ∈ bs /\ touches b /\ v_seqno v = b.1.
Proof.
  induction 1 as [|b bs Hb Hbs IH]; [by intros ?%elem_of_nil|]. simpl. rewrite ks_replay_no_clear by done.
  intros [(? & b' & ? & ?)%IH|(? & ? & ?)%ks_batch_in]%elem_of_app; (split; [done|]).
  - exists b'. split; [by right|done].
  - exists b. by split; [left|].
Qed.

(** The slots of a replay are those of its batches. *)
Lemma slot_replay bs b key :
  Forall (fun b => ~ clears b) bs -> NoDup bs.*1 -> b ∈ bs ->
  slot (ks_replay bs []) ks key b.1 = slot (ks_batch [] b) ks key b.1.
Proof.
  intros Hbs. induction Hbs as [|b' bs Hb' Hbs IH]; intros Hnd Hin; [by apply elem_of_nil in Hin|].
  rewrite fmap_cons in Hnd. apply NoDup_cons in Hnd as [Hb Hnd]. simpl. rewrite ks_replay_no_clear, slot_app by done.
  apply elem_of_cons in Hin as [->|Hin].
  - destruct (slot (ks_replay bs []) ks key b'.1) as [v|] eqn:E; [|done]. exfalso.
    apply slot_Some in E as [(_ & x & Hx & _ & Hs)%ks_replay_in [_ E]]; [|done]. apply Hb. rewrite <- E, Hs. by apply list_elem_of_fmap_2.
  - rewrite IH by done. destruct (slot (ks_batch [] b) ks key b.1) eqn:E; [done|].
    destruct (slot (ks_batch [] b') ks key b.1) as [v|] eqn:E'; [|done]. exfalso.
    apply slot_Some in E' as [(_ & Hs & _)%ks_batch_in [_ E']]. apply Hb. rewrite <- Hs, E'. by apply list_elem_of_fmap_2.
Qed.

(** A version of the replay with its batch. *)
Lemma slot_batch bs key v :
  Forall (fun b => ~ clears b) bs -> NoDup bs.*1 -> v ∈ ks_replay bs [] -> of_key ks key v = true ->
  exists b, b ∈ bs /\ touches b /\ v_seqno v = b.1 /\ is_Some (slot (ks_batch [] b) ks key b.1).
Proof.
  intros Hc Hnd Hv Hk. pose proof Hv as (_ & b & Hb & Ht & Hs)%ks_replay_in; [|done]. exists b. split_and!; [done|done|done|].
  rewrite <- (slot_replay bs) by done. by apply (slot_in _ _ _ _ v).
Qed.

(** A batch that touches the keyspace leaves a version in it. *)
Lemma ks_batch_touched b : storable b -> touches b -> ~ clears b -> exists v, v ∈ ks_batch [] b /\ v_seqno v = b.1.
Proof.
  intros [Hb|(ks' & Hb)] (e & He & Ht) Hc.
  - destruct b as [s es]. unfold ks_batch. cbn [fst snd] in *. clear Hc.
    assert (forall es, Forall item_of es -> e ∈ es -> forall h, exists v, v ∈ foldl (ks_entry s) h es /\ v_seqno v = s) as Hall; [|by apply Hall].
    clear es Hb He. intros es Hes. induction Hes as [|x es Hx Hes IH]; intros He h; [by apply elem_of_nil in He|]. cbn [foldl].
    assert (forall h v, v ∈ h -> v ∈ foldl (ks_entry s) h es) as Hkeep.
    { intros h' v Hv. rewrite (ks_foldl_app s es h'); [set_solver|]. intros Hcl. rewrite Forall_forall in Hes.
      by destruct (Hes _ Hcl) as (? & ? & ? & ? & ? & ? & _). }
    apply elem_of_cons in He as [<-|He]; [|by apply IH]. destruct Hx as (ks' & key & value & vt & c & -> & Hvt). subst ks'. cbn [ks_entry].
    rewrite decide_True by done. destruct vt; [| | |done]; cbn [item_version]; (eexists; split; [apply Hkeep; left|done]).
  - rewrite Hb in He. apply list_elem_of_singleton in He as ->. subst ks'. destruct Hc. unfold clears. rewrite Hb. left.
Qed.

Lemma ks_replay_batch_in bs b v : Forall (fun b => ~ clears b) bs -> b ∈ bs -> v ∈ ks_batch [] b -> v ∈ ks_replay bs [].
Proof.
  intros Hc. induction Hc as [|b' bs Hb' Hc IH]; [by intros ?%elem_of_nil|]. simpl. rewrite ks_replay_no_clear by done.
  intros [->|Hin]%elem_of_cons Hv; [set_solver|]. apply elem_of_app. left. by apply IH.
Qed.

(** The versions of some of the batches. *)
Lemma ks_replay_sublist bs bs' :
  sublist bs' bs -> NoDup bs.*1 -> Forall (fun b => ~ clears b) bs ->
  filter (fun v => v_seqno v ∈ bs'.*1) (ks_replay bs []) = ks_replay bs' [].
Proof.
  induction 1 as [|b bs' bs Hsl IH|b bs' bs Hsl IH]; rewrite ?fmap_cons; intros Hnd Hc; [done| |];
    apply NoDup_cons in Hnd as [Hb Hnd]; apply Forall_cons in Hc as [Hcb Hc]; simpl.
  - assert (Forall (fun b => ~ clears b) bs') as Hc' by (rewrite Forall_forall in Hc |- *; intros x Hx; eapply Hc, elem_of_sublist; done).
    rewrite (ks_replay_no_clear bs), (ks_replay_no_clear bs'), filter_app by done. f_equal.
    + rewrite <- IH by done. apply list_filter_iff'. intros v Hv. apply ks_replay_in in Hv as (_ & x & Hx & _ & ->); [|done].
      rewrite elem_of_cons. split; [|by right]. intros [E|]; [|done]. destruct Hb. rewrite <- E. by apply list_elem_of_fmap_2.
    + apply list_filter_all. intros v (_ & -> & _)%ks_batch_in. left.
  - rewrite (ks_replay_no_clear bs), filter_app, IH by done. rewrite <- (app_nil_r (ks_replay bs' [])) at 2. f_equal.
    apply elem_of_nil_inv. intros v [Hin (_ & E & _)%ks_batch_in]%list_elem_of_filter. apply Hb. rewrite E in Hin.
    apply list_elem_of_fmap in Hin as (x & -> & Hx). apply list_elem_of_fmap_2. by eapply elem_of_sublist.
Qed.

(** Tables that read like the history up to [P], and on top of them batches, among them
    all those the tables may lack and all later ones, read like the whole history. *)
Lemma newest_replay (P : Z -> Prop) `{!forall s, Decision (P s)} bs bs' (base tables : history) key i :
  Forall (fun b => ~ clears b) bs -> NoDup bs.*1 -> NoDup bs'.*1 -> bs' ⊆ bs ->
  (forall b, b ∈ bs -> touches b -> b ∈ bs' \/ P b.1) ->
  (forall b b2, b ∈ bs' -> touches b -> b2 ∈ bs -> touches b2 -> b.1 < b2.1 -> b2 ∈ bs') ->
  (forall v, v ∈ base -> P (v_seqno v) /\ forall b, b ∈ bs -> v_seqno v < b.1) ->
  summary (newest tables ks key i) (newest (filter (fun v => P (v_seqno v)) (ks_replay bs base)) ks key i) ->
  summary (newest (ks_replay bs' tables) ks key i) (newest (ks_replay bs base) ks key i).
Proof.
  intros Hc Hnd Hnd' Hsub Hkept Hclosed Hbase Ht.
  assert (Forall (fun b => ~ clears b) bs') as Hc' by (rewrite Forall_forall in Hc |- *; auto).
  assert (forall b, b ∈ bs' -> is_Some (slot (ks_batch [] b) ks key b.1) -> b.1 < i ->
    exists r, newest (ks_replay bs' []) ks key i = Some r /\ b.1 <= v_seqno r) as Hin'.
  { intros b Hb [u Hu] Hi. rewrite <- (slot_replay bs') in Hu by done. apply slot_Some in Hu as [Hu [Hk Hs]].
    destruct (newest (ks_replay bs' []) ks key i) as [r|] eqn:Er.
    - exists r. split; [done|]. apply newest_Some in Er as (_ & _ & _ & Hmax). rewrite <- Hs. apply Hmax; [done|done|lia].
    - exfalso. apply (newest_None _ _ _ _ Er u Hu Hk). lia. }
  rewrite (ks_replay_no_clear bs' tables) by done. rewrite newest_app.
  destruct (newest (ks_replay bs' []) ks key i) as [r|] eqn:Er.
  - pose proof (newest_slot _ _ _ _ _ Er) as Hr. pose proof (newest_Some _ _ _ _ _ Er) as (Hrin & Hrk & Hri & Hmax).
    destruct (slot_batch bs' key r Hc' Hnd' Hrin Hrk) as (b & Hb & Htb & Hs & _).
    assert (slot (ks_replay bs base) ks key (v_seqno r) = Some r) as HW.
    { rewrite Hs in Hr |- *. rewrite slot_replay in Hr by done. rewrite ks_replay_no_clear, slot_app, slot_replay, Hr by auto. done. }
    assert (newest (ks_replay bs base) ks key i = Some r) as EW.
    { apply slot_Some in HW as HW'. destruct HW' as [HWin _].
      destruct (newest (ks_replay bs base) ks key i) as [u|] eqn:Eu; [|by destruct (newest_None _ _ _ _ Eu r HWin Hrk Hri)].
      pose proof (newest_slot _ _ _ _ _ Eu) as Hus. pose proof (newest_Some _ _ _ _ _ Eu) as (Hu & Huk & Hui & Hmaxu).
      specialize (Hmaxu r HWin Hrk Hri). rewrite ks_replay_no_clear in Hu by done. apply elem_of_app in Hu as [Hu|Hu].
      - destruct (slot_batch bs key u Hc Hnd Hu Huk) as (b2 & Hb2 & Htb2 & Hs2 & Hslot).
        destruct (decide (v_seqno u = v_seqno r)) as [E|Hne]; [congruence|].
        destruct (Hin' b2) as (r' & [= <-] & ?); [apply (Hclosed b); [done..|lia]|done|lia|]. lia.
      - destruct (Hbase u Hu) as [_ Hlt]. specialize (Hlt b (Hsub b Hb)). lia. }
    rewrite EW, (later_hides r _ _ Ht); [by apply summary_norm|]. intros u Hu.
    apply newest_Some in Hu as ([_ Hu]%list_elem_of_filter & Hk & Hi & _).
    apply newest_Some in EW as (_ & _ & _ & HmaxW). by apply HmaxW.
  - rewrite <- (newest_filter (fun v => P (v_seqno v)) (ks_replay bs base)); [done|].
    intros v Hv Hk Hi. rewrite ks_replay_no_clear in Hv by done. apply elem_of_app in Hv as [Hv|Hv]; [|by apply Hbase].
    destruct (slot_batch bs key v Hc Hnd Hv Hk) as (b & Hb & Htb & Hs & Hslot). rewrite Hs.
    destruct (Hkept b Hb Htb) as [Hb'|]; [|done]. destruct (Hin' b Hb' Hslot) as (? & ? & _); [lia|congruence].
Qed.
End keyspace.

(** ** What replaying a sealed journal does to each keyspace *)

(** The memtable of a keyspace, its sealed memtables, its tables and how far they go. *)
Record Part := mkPart { pt_memtable : history; pt_sealed : history; pt_tables : history; pt_persisted : option Z }.

Definition part_entry (ks s : Z) (p : Part) (e : Entry) : Part :=
  match e with
  | Item ks' key value vt _ =>
      if decide (ks' = ks) then mkPart (item_version ks key value vt s (pt_memtable p)) (pt_sealed p) (pt_tables p) (pt_persisted p) else p
  | Clear ks' => if decide (ks' = ks) then mkPart [] [] [] None else p
  | _ => p
  end.
Definition part_batch (ks : Z) (p : Part) (b : batch) : Part := foldl (part_entry ks b.1) p b.2.

(** The watermark the journal leaves for a keyspace. *)
Definition raise (s : Z) (o : option Z) : option Z := Some (match o with Some prev => Z.max prev s | None => s end).
Definition mark_entry (ks s : Z) (o : option Z) (e : Entry) : option Z :=
  match e with
  | Item ks' _ _ _ _ | Clear ks' => if decide (ks' = ks) then raise s o else o
  | _ => o
  end.
Definition mark_batch (ks : Z) (o : option Z) (b : batch) : option Z := foldl (mark_entry ks b.1) o b.2.

Definition covers (persisted : option Z) (lsn : Z) : bool := match persisted with Some l => lsn <=? l | None => false end.

Definition seal_part (o : option Z) (p : Part) : Part :=
  match o with
  | Some lsn => mkPart [] (if covers (pt_persisted p) lsn then pt_sealed p else pt_memtable p ++ pt_sealed p) (pt_tables p) (pt_persisted p)
  | None => p
  end.

(** Everything a keyspace holds, newest first. *)
Definition pt_all (p : Part) : history := pt_memtable p ++ pt_sealed p ++ pt_tables p.

(** ** One keyspace through a sealed journal *)

Section sealing.
Context (ks : Z).

Lemma part_batch_no_clear b m sl tb p :
  ~ clears ks b -> part_batch ks (mkPart m sl tb p) b = mkPart (ks_batch ks m b) sl tb p.
Proof.
  unfold clears, part_batch, ks_batch. destruct b as [s es]. cbn [fst snd]. revert m.
  induction es as [|e es IH]; intros m Hc; [done|]. apply not_elem_of_cons in Hc as [He Hc]. cbn [foldl].
  assert (part_entry ks s (mkPart m sl tb p) e = mkPart (ks_entry ks s m e) sl tb p) as ->; [|by apply IH].
  destruct e as [|ks' key value vt c| |ks']; cbn; try done; case_decide; congruence.
Qed.

Lemma part_batch_clear b p : clears ks b -> part_batch ks p b = mkPart (ks_batch ks [] b) [] [] None.
Proof.
  unfold clears, part_batch, ks_batch. destruct b as [s es]. cbn [fst snd].
  assert (forall es, Clear ks ∈ es -> forall p h, foldl (part_entry ks s) p es = mkPart (foldl (ks_entry ks s) h es) [] [] None) as Hall;
    [|intros Hc; by apply Hall].
  clear. intros es. induction es as [|e es IH]; intros Hc p h; [by apply elem_of_nil in Hc|]. cbn [foldl].
  destruct (decide (Clear ks ∈ es)) as [Hin|Hout]; [by apply IH|]. apply elem_of_cons in Hc as [<-|?]; [|done].
  cbn [part_entry ks_entry]. rewrite !decide_True by done.
  apply (part_batch_no_clear (s, es) [] [] [] None Hout).
Qed.

Lemma part_batches_no_clear bs m sl tb p :
  Forall (fun b => ~ clears ks b) bs -> foldl (part_batch ks) (mkPart m sl tb p) bs = mkPart (ks_replay ks bs m) sl tb p.
Proof.
  intros Hbs. revert m. induction Hbs as [|b bs Hb _ IH]; intros m; [done|]. simpl. by rewrite part_batch_no_clear, IH.
Qed.

Lemma part_batches_clear bs p h :
  Exists (clears ks) bs -> foldl (part_batch ks) p bs = mkPart (ks_replay ks bs h) [] [] None.
Proof.
  intros Hbs. revert p h. induction bs as [|b bs IH]; intros p h; [by apply Exists_nil in Hbs|]. simpl.
  destruct (clears_or_not ks bs) as [Hno|Hyes]; [|by apply IH].
  apply Exists_cons in Hbs as [Hb|Hbs].
  - rewrite part_batch_clear, part_batches_no_clear by done. f_equal.
    replace (ks_batch ks h b) with (ks_batch ks [] b) by (by apply ks_foldl_clear). done.
  - by apply IH.
Qed.

Lemma part_batches_all bs p : pt_all (foldl (part_batch ks) p bs) = ks_replay ks bs (pt_all p).
Proof.
  destruct p as [m sl tb pp]. unfold pt_all. destruct (clears_or_not ks bs) as [Hno|Hyes].
  - rewrite part_batches_no_clear by done. cbn. by rewrite (ks_replay_no_clear ks bs m), (ks_replay_no_clear ks bs (m ++ _)), <- app_assoc by done.
  - rewrite (part_batches_clear _ _ [] Hyes). cbn. rewrite app_nil_r. by apply ks_replay_clear.
Qed.

(** Every batch that touches the keyspace is below its watermark. *)
Lemma mark_batch_ge o b :
  (forall l, o = Some l -> exists l', mark_batch ks o b = Some l' /\ l <= l') /\
  (touches ks b -> exists l, mark_batch ks o b = Some l /\ b.1 <= l).
Proof.
  unfold mark_batch, touches. destruct b as [s es]. cbn [fst snd]. revert o.
  induction es as [|e es IH]; intros o; cbn [foldl].
  { split; [intros l ->; by exists l|]. intros (e & He & _). by apply elem_of_nil in He. }
  destruct (IH (mark_entry ks s o e)) as [IH1 IH2].
  assert (forall l, o = Some l -> exists l', mark_entry ks s o e = Some l' /\ l <= l') as Hmono.
  { intros l ->. destruct e as [|ks' key value vt c| |ks']; cbn; try case_decide; eexists; (split; [done|]); lia. }
  split.
  - intros l Hl. destruct (Hmono l Hl) as (l1 & E1 & ?). destruct (IH1 l1 E1) as (l2 & -> & ?). exists l2. split; [done|lia].
  - intros (e' & [->|Hin]%elem_of_cons & He); [|apply IH2; by exists e'].
    assert (exists l, mark_entry ks s o e = Some l /\ s <= l) as (l & El & Hl).
    { destruct e as [|ks' key value vt c| |ks']; try done; cbn; rewrite decide_True by done; eexists; (split; [done|]);
        destruct o; lia. }
    destruct (IH1 l El) as (l' & -> & ?). exists l'. split; [done|lia].
Qed.

Lemma mark_batches_ge bs o :
  (forall l, o = Some l -> exists l', foldl (mark_batch ks) o bs = Some l' /\ l <= l') /\
  (forall b, b ∈ bs -> touches ks b -> exists l, foldl (mark_batch ks) o bs = Some l /\ b.1 <= l).
Proof.
  revert o. induction bs as [|b bs IH]; intros o; cbn [foldl].
  { split; [intros l ->; by exists l|]. intros b Hb. by apply elem_of_nil in Hb. }
  destruct (IH (mark_batch ks o b)) as [IH1 IH2]. destruct (mark_batch_ge o b) as [M1 M2]. split.
  - intros l Hl. destruct (M1 l Hl) as (l1 & E1 & ?). destruct (IH1 l1 E1) as (l2 & -> & ?). exists l2. split; [done|lia].
  - intros b' [->|Hin]%elem_of_cons Ht; [|by apply IH2].
    destruct (M2 Ht) as (l1 & E1 & ?). destruct (IH1 l1 E1) as (l2 & -> & ?). exists l2. split; [done|lia].
Qed.

(** The watermark is the sequence number of a batch. *)
Lemma mark_batches_in bs l :
  foldl (mark_batch ks) None bs = Some l -> StronglySorted Z.lt bs.*1 -> exists b, b ∈ bs /\ touches ks b /\ b.1 = l.
Proof.
  assert (forall s es o l, foldl (mark_entry ks s) o es = Some l -> o = Some l \/ touches ks (s, es) /\
    (l = s \/ exists l', o = Some l' /\ l = Z.max l' s)) as He.
  { intros s es. induction es as [|e es IH]; intros o l0; cbn [foldl]; [by left|].
    intros [E|[(x & Hx & Ht) E]]%IH.
    - destruct e as [|ks' key value vt c| |ks']; cbn [mark_entry] in E; try (by left); case_decide as Hk; try (by left);
        (right; split; [by eexists; split; [left|]|]; injection E as <-; destruct o as [l'|]; [right; by exists l'|by left]).
    - right. split; [exists x; by split; [right|]|]. destruct E as [->|(l' & E & ->)]; [by left|].
      destruct e as [|ks' key value vt c| |ks']; cbn [mark_entry] in E; try (right; by exists l'); case_decide; try (right; by exists l');
        (injection E as <-; destruct o as [l1|]; [right; exists l1; split; [done|lia]|left; lia]). }
  assert (forall bs o, foldl (mark_batch ks) o bs = Some l -> StronglySorted Z.lt bs.*1 ->
    (forall l', o = Some l' -> Forall (fun b => l' < b.1) bs) -> o = Some l \/ exists b, b ∈ bs /\ touches ks b /\ b.1 = l) as Hall.
  { clear bs. intros bs. induction bs as [|b bs IH]; intros o; cbn [foldl]; [by left|]. rewrite fmap_cons.
    intros E [Hs Hlt]%StronglySorted_inv Ho. rewrite Forall_fmap in Hlt.
    assert (forall l', mark_batch ks o b = Some l' -> o = Some l' \/ touches ks b /\ l' = b.1) as Hb.
    { intros l' [?|[Ht [->|(l1 & -> & ->)]]]%He; [by left|right; by destruct b|]. right. split; [by destruct b|].
      specialize (Ho l1 eq_refl). apply Forall_cons in Ho as [? _]. lia. }
    destruct (IH _ E Hs) as [El|(b' & ? & ?)].
    - intros l' [->|[_ ->]]%Hb; [|exact Hlt]. specialize (Ho l' eq_refl). by apply Forall_cons in Ho as [_ ?].
    - destruct (Hb _ El) as [?|[? ->]]; [by left|right]. exists b. by split; [left|].
    - right. exists b'. by split; [right|]. }
  intros E Hs. destruct (Hall bs None E Hs) as [?|?]; done.
Qed.

(** The batches [bs'] out of [bs] that a keyspace with tables up to [persisted] needs:
    all that the tables may lack, and with each batch all later ones. *)
Record needed (persisted : option Z) (bs bs' : list batch) : Prop := {
  nd_sublist : sublist bs' bs;
  nd_kept b : b ∈ bs -> touches ks b -> b ∈ bs' \/ covers persisted b.1 = true;
  nd_closed b b2 : b ∈ bs' -> touches ks b -> b2 ∈ bs -> touches ks b2 -> b.1 < b2.1 -> b2 ∈ bs'
}.

Lemma needed_subset persisted bs bs' : needed persisted bs bs' -> bs' ⊆ bs.
Proof. intros Hn. apply sublist_subseteq, nd_sublist with persisted, Hn. Qed.

Lemma needed_distinct persisted bs bs' : NoDup bs.*1 -> needed persisted bs bs' -> NoDup bs'.*1.
Proof.
  intros Hnd Hn. eapply sublist_NoDup; [exact Hnd|]. pose proof (nd_sublist _ _ _ Hn) as Hs. clear Hn Hnd.
  induction Hs; rewrite ?fmap_cons; by constructor.
Qed.

(** They start with a journal that the tables do not cover. *)
Definition justified (persisted : option Z) (bs' : list batch) : Prop :=
  forall b, b ∈ bs' -> touches ks b -> exists b0, b0 ∈ bs' /\ touches ks b0 /\ covers persisted b0.1 = false.

Lemma justified_app persisted bs' new' : justified persisted bs' -> justified persisted new' -> justified persisted (bs' ++ new').
Proof.
  intros H1 H2 b [Hb|Hb]%elem_of_app Ht; [destruct (H1 b Hb Ht) as (b0 & ? & ?)|destruct (H2 b Hb Ht) as (b0 & ? & ?)];
    (exists b0; split; [set_solver|done]).
Qed.

Lemma covers_le persisted s l : s <= l -> covers persisted l = true -> covers persisted s = true.
Proof. destruct persisted; cbn; [|done]. intros ? ?%Z.leb_le. apply Z.leb_le. lia. Qed.

Lemma sorted_app_lt (bs new : list batch) b b2 : StronglySorted Z.lt (bs ++ new).*1 -> b ∈ bs -> b2 ∈ new -> b.1 < b2.1.
Proof.
  rewrite fmap_app. intros Hs Hb Hb2. induction bs as [|x bs IH]; [by apply elem_of_nil in Hb|].
  rewrite fmap_cons in Hs. cbn [app] in Hs. apply StronglySorted_inv in Hs as [Hs Hlt]. apply elem_of_cons in Hb as [->|Hb]; [|by apply IH].
  rewrite list.Forall_forall in Hlt. apply Hlt, elem_of_app. right. by apply list_elem_of_fmap_2.
Qed.

(** A journal that the tables cover is skipped. *)
Lemma needed_skip persisted bs bs' new l :
  StronglySorted Z.lt (bs ++ new).*1 -> (forall b, b ∈ new -> touches ks b -> b.1 <= l) -> covers persisted l = true ->
  needed persisted bs bs' -> justified persisted bs' -> needed persisted (bs ++ new) bs'.
Proof.
  intros Hs Hl Hcov Hn Hr. pose proof (needed_subset _ _ _ Hn) as Hsub. destruct Hn as [Hsl Hkept Hcl]. split; [by apply sublist_inserts_r| |].
  - intros b [Hb|Hb]%elem_of_app Ht; [by apply Hkept|]. right. by apply (covers_le _ _ l); [apply Hl|].
  - intros b b2 Hb Ht [Hb2|Hb2]%elem_of_app Ht2 Hlt; [by apply (Hcl b)|]. exfalso.
    destruct (Hr b Hb Ht) as (b0 & Hb0%Hsub & _ & Hc0). pose proof (sorted_app_lt _ _ _ _ Hs Hb0 Hb2). specialize (Hl b2 Hb2 Ht2).
    rewrite (covers_le _ b0.1 l) in Hc0; [done|lia|done].
Qed.

(** Any other journal is kept whole. *)
Lemma needed_keep persisted bs bs' new :
  StronglySorted Z.lt (bs ++ new).*1 -> needed persisted bs bs' -> needed persisted (bs ++ new) (bs' ++ new).
Proof.
  intros Hs [Hsl Hkept Hcl]. split; [by apply sublist_app| |].
  - intros b [Hb|Hb]%elem_of_app Ht; [|left; set_solver]. destruct (Hkept b Hb Ht); [left; set_solver|by right].
  - intros b b2 Hb Ht [Hb2|Hb2]%elem_of_app Ht2 Hlt; [|set_solver]. apply elem_of_app in Hb as [Hb|Hb].
    + apply elem_of_app. left. by apply (Hcl b).
    + pose proof (sorted_app_lt _ _ _ _ Hs Hb2 Hb). lia.
Qed.

(** Replaying sealed journals with the batches [bs]: either the tables of the crash are
    still there below the batches they may lack, or the keyspace was cleared on the way. *)
Definition sealed_inv (tables : history) (persisted : option Z) (bs : list batch) (p : Part) : Prop :=
  pt_memtable p = [] /\
  ((Forall (fun b => ~ clears ks b) bs /\ pt_persisted p = persisted /\ pt_tables p = tables /\
    exists bs', needed persisted bs bs' /\ justified persisted bs' /\ pt_sealed p = ks_replay ks bs' []) \/
   (pt_persisted p = None /\ pt_tables p = [] /\ Exists (clears ks) bs /\ pt_sealed p = ks_replay ks bs [])).

Lemma sealed_inv_clear tables persisted bs new p :
  Exists (clears ks) new -> pt_memtable p = [] ->
  sealed_inv tables persisted (bs ++ new) (seal_part (foldl (mark_batch ks) None new) (foldl (part_batch ks) p new)).
Proof.
  intros Hc Hm. rewrite (part_batches_clear new p [] Hc).
  assert (exists l, foldl (mark_batch ks) None new = Some l) as [l ->].
  { apply Exists_exists in Hc as (b & Hb & Hc). destruct (proj2 (mark_batches_ge new None) b Hb) as (l & -> & _); [|by exists l].
    by exists (Clear ks). }
  split; [done|]. right. cbn. rewrite app_nil_r. split; [done|]. split; [done|]. split; [apply Exists_app; by right|].
  rewrite ks_replay_app. by apply ks_replay_clear.
Qed.

Lemma sealed_inv_step tables persisted bs new p :
  StronglySorted Z.lt (bs ++ new).*1 -> sealed_inv tables persisted bs p ->
  sealed_inv tables persisted (bs ++ new) (seal_part (foldl (mark_batch ks) None new) (foldl (part_batch ks) p new)).
Proof.
  intros Hs [Hm Hp]. destruct (clears_or_not ks new) as [Hno|Hyes]; [|by apply sealed_inv_clear].
  destruct p as [m sl tb pp]. cbn in Hm. subst m. rewrite part_batches_no_clear by done.
  pose proof (proj2 (mark_batches_ge new None)) as Hge.
  assert (foldl (mark_batch ks) None new = None -> ks_replay ks new [] = []) as Hnone.
  { intros E. apply elem_of_nil_inv. intros v Hv. apply ks_replay_in in Hv as (_ & b & Hb & Ht & _); [|done].
    destruct (Hge b Hb Ht) as (l & El & _). congruence. }
  split; [destruct (foldl (mark_batch ks) None new); [done|by apply Hnone]|].
  destruct Hp as [(Hc & Hpp & Htb & bs' & Hnd & Hj & Hb)|(Hpp & Htb & Hex & Hh)]; cbn in Hpp, Htb; subst pp tb.
  - left. assert (Forall (fun b => ~ clears ks b) bs') as Hc'.
    { rewrite Forall_forall in Hc |- *. intros b Hin. by apply Hc, (needed_subset _ _ _ Hnd). }
    split; [by apply Forall_app|]. cbn in Hb. subst sl.
    destruct (foldl (mark_batch ks) None new) as [l|] eqn:El; cbn [seal_part pt_persisted pt_sealed pt_tables pt_memtable]; (split; [done|]); (split; [done|]).
    + destruct (covers persisted l) eqn:Ec.
      * exists bs'. split_and!; [|done|done].
        apply (needed_skip _ _ _ _ l); [done| |done|done|done]. intros b Hb Ht. by destruct (Hge b Hb Ht) as (? & [= <-] & ?).
      * exists (bs' ++ new). split_and!; [by apply needed_keep| |by rewrite ks_replay_app, (ks_replay_no_clear ks new (ks_replay ks bs' []))].
        apply justified_app; [done|]. intros _ _ _. destruct (mark_batches_in new l El) as (b0 & ? & ? & <-); [|by exists b0].
        rewrite fmap_app in Hs. by apply StronglySorted_app_1_r in Hs.
    + exists (bs' ++ new). split_and!; [by apply needed_keep| |by rewrite ks_replay_app, (ks_replay_no_clear ks new (ks_replay ks bs' [])), Hnone].
      apply justified_app; [done|]. intros b Hb Ht. destruct (Hge b Hb Ht) as (? & ? & _). congruence.
  - right. cbn in Hh. subst sl. destruct (foldl (mark_batch ks) None new) as [l|] eqn:El; cbn [seal_part covers pt_persisted pt_sealed pt_tables pt_memtable];
      (split; [done|]); (split; [done|]); (split; [apply Exists_app; by left|]); rewrite ks_replay_app, (ks_replay_no_clear ks new (ks_replay ks bs [])) by done; [done|].
    by rewrite Hnone.
Qed.
End sealing.
