(* ===== verification/Recovery.v ===== *)
(** * Recovery of the sealed journals

    Models [recover_sealed_memtables] of [src/src/recovery.rs] and the rest of
    [Database::recover] of [src/src/db.rs], from the recovered keyspaces to the started
    database. A sealed journal is replayed into the active memtables; each keyspace it
    touches then either gets a sealed memtable or, if its tables already hold
    everything up to the journal, has its memtable thrown away. The memtables and
    tables of a keyspace are behind [LsmOps]. Reading a journal cuts off what follows its
    last complete batch ([JournalReader]); what the files hold afterwards is part of the
    result. *)

From stdpp Require Import base gmap list.
From S2P Require Import Prelude Errors Utf8 Store Panic JournalEntry JournalReader JournalWriter JournalFiles SnapshotTracker Mvcc Db.

#[local] Open Scope panic_scope.
#[local] Open Scope pstate_scope.

(** ** The parts of a tree *)

(** What the code reads of a memtable that [rotate_memtable] sealed. *)
Record SealedMemtable := mkSealedMemtable { sm_highest_seqno : option Z; sm_size : Z }.

Class LsmOps (T : Type) := {
  tree_rotate_memtable : Z -> T -> T * option SealedMemtable;
  tree_clear_active_memtable : Z -> T -> T;
  tree_highest_persisted_seqno : Z -> T -> option Z;
  (** [active_memtable().size()] and [sealed_memtable_count()]. *)
  tree_active_size : Z -> T -> Z;
  tree_sealed_memtable_count : Z -> T -> nat
}.

Class LsmLaws (T : Type) `{!TreeOps T, !TreeLaws T, !LsmOps T} := {
  (** The active memtable of a keyspace, its sealed memtables and its tables. *)
  memtable : Z -> T -> history;
  sealed : Z -> T -> history;
  tables : Z -> T -> history;
  parts ks t : filter (fun v => v_keyspace v = ks) (versions t) = memtable ks t ++ sealed ks t ++ tables ks t;
  (** Writes go to the active memtable. *)
  insert_lower ks' ks key value s t t' : t' = (tree_insert ks key value s t).1 ->
    sealed ks' t' = sealed ks' t /\ tables ks' t' = tables ks' t /\ tree_highest_persisted_seqno ks' t' = tree_highest_persisted_seqno ks' t;
  remove_lower ks' ks key s t t' : t' = (tree_remove ks key s t).1 ->
    sealed ks' t' = sealed ks' t /\ tables ks' t' = tables ks' t /\ tree_highest_persisted_seqno ks' t' = tree_highest_persisted_seqno ks' t;
  remove_weak_lower ks' ks key s t t' : t' = (tree_remove_weak ks key s t).1 ->
    sealed ks' t' = sealed ks' t /\ tables ks' t' = tables ks' t /\ tree_highest_persisted_seqno ks' t' = tree_highest_persisted_seqno ks' t;
  clear_lower ks' ks t t' : tree_clear ks t = (t', Ok ()) -> ks' <> ks ->
    sealed ks' t' = sealed ks' t /\ tables ks' t' = tables ks' t /\ tree_highest_persisted_seqno ks' t' = tree_highest_persisted_seqno ks' t;
  clear_persisted ks t t' : tree_clear ks t = (t', Ok ()) -> tree_highest_persisted_seqno ks t' = None;
  (** Rotating seals the memtable unless it is empty, and persists nothing. *)
  rotate_sealed ks t t' o : tree_rotate_memtable ks t = (t', o) ->
    sm_highest_seqno <$> o = match memtable ks t with [] => None | _ => Some (hist_highest ks (memtable ks t)) end;
  rotate_memtable_of ks' ks t : memtable ks' (tree_rotate_memtable ks t).1 = if decide (ks' = ks) then [] else memtable ks' t;
  rotate_sealed_of ks' ks t :
    sealed ks' (tree_rotate_memtable ks t).1 = if decide (ks' = ks) then memtable ks t ++ sealed ks t else sealed ks' t;
  rotate_tables ks' ks t : tables ks' (tree_rotate_memtable ks t).1 = tables ks' t;
  rotate_persisted ks' ks t :
    tree_highest_persisted_seqno ks' (tree_rotate_memtable ks t).1 = tree_highest_persisted_seqno ks' t;
  clear_active_memtable_of ks' ks t :
    memtable ks' (tree_clear_active_memtable ks t) = if decide (ks' = ks) then [] else memtable ks' t;
  clear_active_lower ks' ks t t' : t' = tree_clear_active_memtable ks t ->
    sealed ks' t' = sealed ks' t /\ tables ks' t' = tables ks' t /\ tree_highest_persisted_seqno ks' t' = tree_highest_persisted_seqno ks' t;
  active_size_empty ks t : tree_active_size ks t <= 0 <-> memtable ks t = []
}.

(** ** State *)

(** A sealed journal on disk: its path, the outcome of reading its length, and of
    opening it. *)
Record SealedFile := mkSealedFile { sf_path : str; sf_len : Result Z; sf_contents : Result bytes }.

(** The part of the database that this recovery builds; keyspaces are named by id. The
    last field has the contents of the journals read so far, as the reader left them. *)
Record Recovering (T : Type) := mkRecovering {
  rv_trees : T;
  rv_seqno : Z;
  rv_write_buffer_size : Z;
  rv_manager : JournalManager (K := Z);
  rv_files : list bytes
}.
Arguments mkRecovering {T}.
Arguments rv_trees {T}.
Arguments rv_seqno {T}.
Arguments rv_write_buffer_size {T}.
Arguments rv_manager {T}.
Arguments rv_files {T}.

Section operations.
Context `{JournalCodec} {T : Type} `{!TreeOps T, !LsmOps T}.

Abbreviation RecM := (PState (Recovering T)).

Definition set_trees (t : T) (s : Recovering T) : Recovering T :=
  mkRecovering t (rv_seqno s) (rv_write_buffer_size s) (rv_manager s) (rv_files s).
Definition leave_file (file : bytes) (s : Recovering T) : Recovering T :=
  mkRecovering (rv_trees s) (rv_seqno s) (rv_write_buffer_size s) (rv_manager s) (rv_files s ++ [file]).

(** [lookup] is the outcome of resolving a keyspace id to a recovered keyspace. *)
Context (lookup : Z -> PResult bool).
(** The iteration order of a hash map of watermarks. *)
Context (values : gmap Z Z -> list (Z * Z)).

(** ** Replaying one sealed journal *)

(** [watermarks.entry(id).and_modify(..).or_insert_with(..)]. *)
Definition raise_watermark (id seqno : Z) (wms : gmap Z Z) : gmap Z Z :=
  <[id := match wms !! id with Some prev => Z.max prev seqno | None => seqno end]> wms.

(** The match on the value type; a blob indirection is unreachable code. *)
Definition tree_apply (item : ReadBatchItem) (seqno : Z) (t : T) : option T :=
  match ri_value_type item with
  | Value => Some (tree_insert (ri_keyspace_id item) (ri_key item) (ri_value item) seqno t).1
  | Tombstone => Some (tree_remove (ri_keyspace_id item) (ri_key item) seqno t).1
  | WeakTombstone => Some (tree_remove_weak (ri_keyspace_id item) (ri_key item) seqno t).1
  | Indirection => None
  end.

Fixpoint sealed_items (seqno : Z) (items : list ReadBatchItem) (wms : gmap Z Z) (t : T) : PResult (gmap Z Z * T) :=
  match items with
  | [] => p_ret (wms, t)
  | item :: items =>
      found <-? lookup (ri_keyspace_id item) ;;
      if (found : bool) then
        t <-? p_expect (tree_apply item seqno t) ;;
        sealed_items seqno items (raise_watermark (ri_keyspace_id item) seqno wms) t
      else sealed_items seqno items wms t
  end.

(** The outcome of [tree.clear()] is ignored. *)
Fixpoint sealed_clears (seqno : Z) (cleared : list Z) (wms : gmap Z Z) (t : T) : PResult (gmap Z Z * T) :=
  match cleared with
  | [] => p_ret (wms, t)
  | ks :: cleared =>
      found <-? lookup ks ;;
      if (found : bool) then sealed_clears seqno cleared (raise_watermark ks seqno wms) (tree_clear ks t).1
      else sealed_clears seqno cleared wms t
  end.

Fixpoint sealed_batches (bs : list Batch) (wms : gmap Z Z) (t : T) : PResult (gmap Z Z * T) :=
  match bs with
  | [] => p_ret (wms, t)
  | b :: bs =>
      '(wms, t) <-? sealed_items (b_seqno b) (b_items b) wms t ;;
      '(wms, t) <-? sealed_clears (b_seqno b) (b_cleared_keyspaces b) wms t ;;
      sealed_batches bs wms t
  end.

(** ** Sealing the memtables *)

Definition next_of (highest : option Z) : Z := match highest with Some x => x + 1 | None => 0 end.

(** The body of the loop over the watermarks. *)
Definition seal_keyspace (wm : Z * Z) : RecM () := fun s =>
  let '(ks, lsn) := wm in
  let keyspace_lsn := tree_highest_persisted_seqno ks (rv_trees s) in
  if match keyspace_lsn with Some l => lsn <=? l | None => false end then
    Some (set_trees (tree_clear_active_memtable ks (rv_trees s)) s, Ok ())
  else
    let '(t, sealed) := tree_rotate_memtable ks (rv_trees s) in
    match sealed with
    | None => Some (set_trees t s, Ok ())
    | Some sealed_memtable =>
        if decide (Some lsn = sm_highest_seqno sealed_memtable) then
          Some (mkRecovering t (Z.max (rv_seqno s) (next_of (tree_get_highest_seqno ks t)))
                  (allocate (sm_size sealed_memtable) (rv_write_buffer_size s)) (rv_manager s) (rv_files s), Ok ())
        else None
    end.

Fixpoint seal_keyspaces (wms : list (Z * Z)) : RecM () :=
  match wms with
  | [] => ps_ret ()
  | wm :: wms => seal_keyspace wm ;;;; seal_keyspaces wms
  end.

(** One journal, requeued with its watermarks at the end. The reader cuts the file when
    it reaches the end of the batches, or fails. *)
Definition recover_sealed_journal (f : SealedFile) : RecM () :=
  journal_size <-- ps_pure (p_lift (sf_len f)) ;;
  contents <-- ps_pure (p_lift (sf_contents f)) ;;
  read <-- ps_pure (p_expect (read_journal contents)) ;;
  (fun s =>
     match read with
     | (Err e, file) => Some (leave_file file s, Err e)
     | (Ok bs, file) =>
         match sealed_batches bs ∅ (rv_trees s) with
         | None => None
         | Some (Err e) => Some (s, Err e)
         | Some (Ok (wms, t)) =>
             (seal_keyspaces (values wms) ;;;;
              ps_modify (fun s => mkRecovering (rv_trees s) (rv_seqno s) (rv_write_buffer_size s)
                (enqueue (rv_manager s)
                   (mkManagerItem (sf_path f) journal_size ((fun wm => mkEvictionWatermark wm.1 wm.2) <$> values wms)))
                (rv_files s))) (leave_file file (set_trees t s))
         end
     end).

Fixpoint recover_sealed_memtables (files : list SealedFile) : RecM () :=
  match files with
  | [] => ps_ret ()
  | f :: files => recover_sealed_journal f ;;;; recover_sealed_memtables files
  end.

(** ** The rest of [Database::recover]

    [keyspaces] lists the ids of the recovered keyspaces in iteration order; [active]
    is the content of the active journal, [None] if it was just created. *)

(** Every active memtable must have been sealed or cleared. *)
Definition check_memtables (keyspaces : list Z) : RecM () := fun s =>
  if forallb (fun ks => tree_active_size ks (rv_trees s) <=? 0) keyspaces then Some (s, Ok ())
  else Some (s, Err Unrecoverable).

(** The active memtables count to the write buffer and set the sequence number. *)
Definition account_active (keyspaces : list Z) : RecM () := ps_modify (fun s =>
  foldl (fun s ks => mkRecovering (rv_trees s) (Z.max (rv_seqno s) (next_of (tree_get_highest_seqno ks (rv_trees s))))
                       (allocate (tree_active_size ks (rv_trees s)) (rv_write_buffer_size s)) (rv_manager s) (rv_files s)) s keyspaces).

Definition recover_active_journal (keyspaces : list Z) (active : option bytes) : RecM () :=
  match active with
  | None => ps_ret ()
  | Some contents =>
      (fun s =>
         match read_journal contents with
         | None => None
         | Some (Err e, file) => Some (leave_file file s, Err e)
         | Some (Ok bs, file) =>
             match recover_batches lookup bs (rv_trees s) with
             | None => None
             | Some (Err e) => Some (s, Err e)
             | Some (Ok t) => Some (leave_file file (set_trees t s), Ok ())
             end
         end) ;;;;
      account_active keyspaces
  end.

(** The recovered parts, the snapshot tracker and the keyspaces queued for a flush. *)
Definition recover_database (sealed : list SealedFile) (keyspaces : list Z) (active : option bytes) :
    RecM (SnapshotTracker * list Z) :=
  recover_sealed_memtables sealed ;;;;
  check_memtables keyspaces ;;;;
  recover_active_journal keyspaces active ;;;;
  (fun s => Some (s, Ok (gc [] (tracker_set (rv_seqno s) (tracker_new 0)),
                         filter (fun ks => 0 < tree_sealed_memtable_count ks (rv_trees s))%nat keyspaces))).

Definition recovering_new (t : T) : Recovering T := mkRecovering t 0 0 manager_new [].
End operations.
