(* ===== verification/RecoveryProps.v ===== *)
(** * Recovery loses and invents nothing

    What the trees hold after the sealed journals and the active one are replayed on
    top of the tables a crash left: exactly the history the journals describe, although
    journals that are already in the tables are skipped, and without running into the
    assertions of the code as long as clearing a tree succeeds ([clears_succeed]); what
    happens when it does not is shown at the end. *)

From stdpp Require Import base gmap list sorting.
From S2P Require Import Prelude Errors Utf8 Store Panic JournalEntry JournalReader JournalWriter JournalFiles SnapshotTracker Mvcc Db DbProps ReplayHistory Recovery.

Section lsm.
Context {T : Type} `{!TreeOps T, !TreeLaws T, !LsmOps T, !LsmLaws T}.
Context (tree_clear_ok : clears_succeed T).

Definition part (ks : Z) (t : T) : Part := mkPart (memtable ks t) (sealed ks t) (tables ks t) (tree_highest_persisted_seqno ks t).

Lemma of_ks_parts ks (t : T) : of_ks ks (versions t) = pt_all (part ks t).
Proof. apply parts. Qed.

(** What is below the active memtable of a keyspace stays. *)
Definition lower_same (ks : Z) (t t' : T) : Prop :=
  sealed ks t' = sealed ks t /\ tables ks t' = tables ks t /\ tree_highest_persisted_seqno ks t' = tree_highest_persisted_seqno ks t.

Lemma part_write ks t t' v :
  versions t' = v :: versions t -> lower_same ks t t' ->
  part ks t' = if decide (v_keyspace v = ks) then mkPart (v :: memtable ks t) (sealed ks t) (tables ks t) (tree_highest_persisted_seqno ks t) else part ks t.
Proof.
  intros Hv (Hs & Ht & Hp). unfold part. rewrite Hs, Ht, Hp. pose proof (parts ks t') as E. rewrite Hv, filter_cons, Hs, Ht, parts in E.
  case_decide; f_equal.
  - apply (app_inv_tail (sealed ks t ++ tables ks t)). by rewrite <- E.
  - by apply (app_inv_tail (sealed ks t ++ tables ks t)).
Qed.

Lemma tree_apply_part ks key value vt c s (t : T) item :
  read_item (Item ks key value vt c) = Some item -> vt <> Indirection ->
  exists t', tree_apply item s t = Some t' /\ forall ks', part ks' t' = part_entry ks' s (part ks' t) (Item ks key value vt c).
Proof.
  intros [= <-] Hvt. unfold tree_apply. cbn [ri_value_type ri_keyspace_id ri_key ri_value]. destruct vt; [| | |done];
    (eexists; split; [done|]; intros ks'; erewrite part_write;
      [|first [apply insert_versions|apply remove_versions|apply remove_weak_versions]
       |first [by eapply insert_lower|by eapply remove_lower|by eapply remove_weak_lower]]);
    cbn [v_keyspace part_entry item_version]; case_decide; by subst.
Qed.

Lemma tree_clear_part ks (t : T) ks' :
  part ks' (tree_clear ks t).1 = part_entry ks' 0 (part ks' t) (Clear ks).
Proof.
  pose proof (tree_clear_ok ks t) as Hok. destruct (tree_clear ks t) as [t' [[]|]] eqn:E; [|done]. cbn [fst part_entry].
  pose proof (parts ks' t') as Hp. change (of_ks ks' (versions t') = memtable ks' t' ++ sealed ks' t' ++ tables ks' t') in Hp.
  rewrite (clear_versions _ _ _ _ E) in Hp. cbn [is_ok] in Hp.
  change (filter _ (versions t)) with (apply_entry 0 (versions t) (Clear ks)) in Hp. rewrite of_ks_entry in Hp. cbn [ks_entry] in Hp.
  unfold part. destruct (decide (ks = ks')) as [->|Hk].
  - rewrite (clear_persisted _ _ _ E). symmetry in Hp. by apply app_nil in Hp as [-> [-> ->]%app_nil].
  - destruct (clear_lower ks' _ _ _ E) as (Hs & Ht & ->); [congruence|]. rewrite Hs, Ht in Hp |- *. f_equal.
    unfold of_ks in Hp. rewrite parts in Hp. symmetry. by apply (app_inv_tail (sealed ks' t ++ tables ks' t)).
Qed.

Section known.
Context (known : Z -> bool) (lookup : Z -> PResult bool) (lookup_known : forall ks, lookup ks = Some (Ok (known ks))).

Lemma sealed_items_part s es wms (t : T) :
  Forall item_of es ->
  exists wms' t', sealed_items lookup s (omap read_item es) wms t = Some (Ok (wms', t')) /\
    (forall ks, known ks = true -> part ks t' = foldl (part_entry ks s) (part ks t) es) /\
    forall ks, wms' !! ks = if known ks then foldl (mark_entry ks s) (wms !! ks) es else wms !! ks.
Proof.
  intros Hes. revert wms t. induction Hes as [|e es (ks & key & value & vt & c & -> & Hvt) _ IH]; intros wms t.
  { exists wms, t. split_and!; [done|done|]. intros ks. by destruct (known ks). }
  cbn [omap list_omap read_item sealed_items ri_keyspace_id]. rewrite lookup_known. cbn [p_lift p_bind foldl].
  destruct (known ks) eqn:Hk.
  - destruct (tree_apply_part ks key value vt c s t _ eq_refl Hvt) as (t1 & -> & Ht1). cbn [p_expect fmap option_fmap option_map p_bind].
    destruct (IH (raise_watermark ks s wms) t1) as (wms' & t' & -> & Hp & Hw). exists wms', t'. split; [done|]. split.
    + intros ks' Hk'. by rewrite Hp, Ht1 by done.
    + intros ks'. rewrite Hw. unfold raise_watermark. destruct (known ks') eqn:Hk'; cbn [mark_entry].
      * case_decide; [subst; by rewrite lookup_insert_eq|by rewrite lookup_insert_ne].
      * rewrite lookup_insert_ne; congruence.
  - destruct (IH wms t) as (wms' & t' & -> & Hp & Hw). exists wms', t'. split; [done|]. split.
    + intros ks' Hk'. rewrite Hp by done. cbn [part_entry]. by rewrite decide_False by congruence.
    + intros ks'. rewrite Hw. destruct (known ks') eqn:Hk'; [|done]. cbn [mark_entry]. by rewrite decide_False by congruence.
Qed.

Lemma sealed_batch_part b wms (t : T) bs :
  storable b ->
  exists wms' t', sealed_batches lookup (batch_of b :: bs) wms t = sealed_batches lookup bs wms' t' /\
    (forall ks, known ks = true -> part ks t' = part_batch ks (part ks t) b) /\
    forall ks, wms' !! ks = if known ks then mark_batch ks (wms !! ks) b else wms !! ks.
Proof.
  destruct b as [s es]. unfold part_batch, mark_batch. cbn [sealed_batches batch_of b_seqno b_items b_cleared_keyspaces fst snd].
  intros [Hes|(ks & Hes)]; cbn [fst snd] in Hes.
  - destruct (sealed_items_part s es wms t Hes) as (wms' & t' & -> & Hp & Hw). exists wms', t'. cbn [p_bind].
    by rewrite omap_items_clear.
  - subst es. cbn. rewrite lookup_known. destruct (known ks) eqn:Hk; cbn.
    + eexists _, _. split; [done|]. split.
      * intros ks' _. by rewrite tree_clear_part.
      * intros ks'. unfold raise_watermark. destruct (known ks') eqn:Hk'.
        -- case_decide; [subst; by rewrite lookup_insert_eq|by rewrite lookup_insert_ne].
        -- rewrite lookup_insert_ne; congruence.
    + eexists _, _. split; [done|]. split.
      * intros ks' Hk'. by rewrite decide_False by congruence.
      * intros ks'. destruct (known ks') eqn:Hk'; [|done]. by rewrite decide_False by congruence.
Qed.

Lemma sealed_batches_part bs wms (t : T) :
  Forall storable bs ->
  exists wms' t', sealed_batches lookup (batch_of <$> bs) wms t = Some (Ok (wms', t')) /\
    (forall ks, known ks = true -> part ks t' = foldl (part_batch ks) (part ks t) bs) /\
    forall ks, wms' !! ks = if known ks then foldl (mark_batch ks) (wms !! ks) bs else wms !! ks.
Proof.
  intros Hbs. revert wms t. induction Hbs as [|b bs Hb _ IH]; intros wms t.
  { exists wms, t. split_and!; [done|done|]. intros ks. by destruct (known ks). }
  rewrite fmap_cons. destruct (sealed_batch_part b wms t (batch_of <$> bs) Hb) as (wms1 & t1 & -> & Hp1 & Hw1).
  destruct (IH wms1 t1) as (wms' & t' & -> & Hp & Hw). exists wms', t'. split; [done|]. split.
  - intros ks Hk. by rewrite Hp, Hp1.
  - intros ks. rewrite Hw, Hw1. by destruct (known ks).
Qed.

(** ** Sealing *)

(** The watermark of a keyspace is the highest sequence number of its memtable. *)
Definition marked (ks lsn : Z) (mem : history) : Prop := mem = [] \/ hist_highest ks mem = Some lsn.

Lemma seal_keyspace_part ks lsn (s : Recovering T) :
  marked ks lsn (memtable ks (rv_trees s)) ->
  exists s', seal_keyspace (ks, lsn) s = Some (s', Ok ()) /\ rv_manager s' = rv_manager s /\ rv_files s' = rv_files s /\
    forall ks', part ks' (rv_trees s') = seal_part (if decide (ks' = ks) then Some lsn else None) (part ks' (rv_trees s)).
Proof.
  intros Hm. unfold seal_keyspace. change (match tree_highest_persisted_seqno ks (rv_trees s) with Some l => lsn <=? l | None => false end)
    with (covers (tree_highest_persisted_seqno ks (rv_trees s)) lsn). destruct (covers _ lsn) eqn:Ec.
  - eexists. split_and!; [done|done|done|]. intros ks'. unfold part. cbn [rv_trees set_trees].
    destruct (clear_active_lower ks' ks (rv_trees s) _ eq_refl) as (-> & -> & ->). rewrite clear_active_memtable_of.
    case_decide; [subst; cbn; by rewrite Ec|done].
  - assert (forall ks' (s' : Recovering T), rv_trees s' = (tree_rotate_memtable ks (rv_trees s)).1 ->
      part ks' (rv_trees s') = seal_part (if decide (ks' = ks) then Some lsn else None) (part ks' (rv_trees s))) as Hp.
    { intros ks' s' ->. unfold part. rewrite rotate_memtable_of, rotate_sealed_of, rotate_tables, rotate_persisted.
      case_decide; [subst; cbn; by rewrite Ec|done]. }
    destruct (tree_rotate_memtable ks (rv_trees s)) as [t [sm|]] eqn:Er.
    + pose proof (rotate_sealed _ _ _ _ Er) as Es. cbn [fmap option_fmap option_map] in Es.
      destruct Hm as [Hm|Hm]; [by rewrite Hm in Es|].
      assert (sm_highest_seqno sm = Some lsn) as Hs by (destruct (memtable ks (rv_trees s)); [done|]; by injection Es as ->).
      rewrite decide_True by done. eexists. split_and!; [done|done|done|]. intros ks'. by apply Hp.
    + eexists. split_and!; [done|done|done|]. intros ks'. by apply Hp.
Qed.

Lemma seal_keyspaces_part (l : list (Z * Z)) (s : Recovering T) :
  NoDup l.*1 -> (forall wm, wm ∈ l -> marked wm.1 wm.2 (memtable wm.1 (rv_trees s))) ->
  exists s', seal_keyspaces l s = Some (s', Ok ()) /\ rv_manager s' = rv_manager s /\ rv_files s' = rv_files s /\
    forall ks, part ks (rv_trees s') = seal_part ((list_to_map l : gmap Z Z) !! ks) (part ks (rv_trees s)).
Proof.
  revert s. induction l as [|[ks lsn] l IH]; intros s Hnd Hm; [by exists s|].
  cbn [fmap list_fmap fst] in Hnd. apply NoDup_cons in Hnd as [Hks Hnd].
  destruct (seal_keyspace_part ks lsn s) as (s1 & E1 & Em1 & Ef1 & Hp1); [apply (Hm (ks, lsn)); left|].
  destruct (IH s1 Hnd) as (s' & E' & Em & Ef & Hp).
  { intros [ks' lsn'] Hin. cbn [fst snd]. assert (ks' <> ks) as Hne.
    { intros ->. apply Hks. by apply (list_elem_of_fmap_2 fst _ (ks, lsn')). }
    specialize (Hp1 ks'). rewrite decide_False in Hp1 by done. apply (f_equal pt_memtable) in Hp1. cbn in Hp1. rewrite Hp1.
    apply (Hm (ks', lsn')). by right. }
  exists s'. cbn [seal_keyspaces]. unfold ps_bind. rewrite E1. split_and!; [done|congruence|congruence|]. intros ks'. rewrite Hp, Hp1. cbn [list_to_map foldr uncurry].
  destruct (decide (ks' = ks)) as [->|Hne].
  - rewrite lookup_insert_eq. assert ((list_to_map l : gmap Z Z) !! ks = None) as -> by (by apply not_elem_of_list_to_map_1). done.
  - by rewrite lookup_insert_ne.
Qed.

(** The invariant of the watermarks while a journal is replayed. *)
Definition mark_inv (ks s : Z) (o : option Z) (mem : history) : Prop :=
  match o with
  | None => mem = []
  | Some l => l <= s /\ Forall (fun v => v_keyspace v = ks /\ v_seqno v <= l) mem /\ (mem = [] \/ Exists (fun v => v_seqno v = l) mem)
  end.

Lemma mark_inv_le ks s s' o mem : s <= s' -> mark_inv ks s o mem -> mark_inv ks s' o mem.
Proof. destruct o; cbn; [|done]. intros Hs (? & ? & ?). split; [lia|done]. Qed.

Lemma mark_inv_top ks s o mem v :
  mark_inv ks s o mem -> v_keyspace v = ks -> v_seqno v = s -> mark_inv ks s (raise s o) (v :: mem).
Proof.
  intros Hi Hk Hs. unfold raise. cbn. assert (match o with Some prev => Z.max prev s | None => s end = s) as ->.
  { destruct o as [l|]; [|done]. destruct Hi. lia. }
  split; [lia|]. split; [|right; by left]. constructor; [split; [done|lia]|]. destruct o as [l|]; cbn in Hi; [|by subst].
  destruct Hi as (? & Hf & _). eapply Forall_impl; [exact Hf|]. intros w []. split; [done|lia].
Qed.

Lemma mark_inv_entry ks s o p e :
  item_of e \/ (exists ks', e = Clear ks') -> mark_inv ks s o (pt_memtable p) ->
  mark_inv ks s (mark_entry ks s o e) (pt_memtable (part_entry ks s p e)).
Proof.
  intros [(ks' & key & value & vt & c & -> & Hvt)|(ks' & ->)] Hi; cbn [mark_entry part_entry]; case_decide; try done; cbn [pt_memtable].
  - destruct vt; [| | |done]; cbn [item_version]; by apply mark_inv_top.
  - unfold raise. cbn. split; [destruct o; cbn in Hi; lia|]. split; [done|by left].
Qed.

Lemma mark_inv_batch ks b o p :
  storable b -> mark_inv ks b.1 o (pt_memtable p) -> mark_inv ks b.1 (mark_batch ks o b) (pt_memtable (part_batch ks p b)).
Proof.
  intros Hb. assert (Forall (fun e => item_of e \/ exists ks', e = Clear ks') b.2) as Hes.
  { destruct Hb as [Hb|(ks' & ->)]; [|constructor; [right; by exists ks'|done]].
    eapply Forall_impl; [exact Hb|]. by left. }
  unfold mark_batch, part_batch. destruct b as [s es]. cbn [fst snd] in *. clear Hb. revert o p.
  induction Hes as [|e es He _ IH]; intros o p Hi; [done|]. cbn [foldl]. by apply IH, mark_inv_entry.
Qed.

Lemma mark_inv_batches ks bs s o p :
  Forall storable bs -> StronglySorted Z.lt bs.*1 -> Forall (fun b => s <= b.1) bs -> mark_inv ks s o (pt_memtable p) ->
  exists s', mark_inv ks s' (foldl (mark_batch ks) o bs) (pt_memtable (foldl (part_batch ks) p bs)).
Proof.
  intros Hbs. revert s o p. induction Hbs as [|b bs Hb _ IH]; intros s o p Hs Hge Hi; [by exists s|].
  rewrite fmap_cons in Hs. apply StronglySorted_inv in Hs as [Hs Hlt]. apply Forall_cons in Hge as [Hge _]. cbn [foldl].
  apply (IH b.1); [done| |].
  - rewrite Forall_fmap in Hlt. eapply Forall_impl; [exact Hlt|]. cbn. lia.
  - by apply mark_inv_batch; [|eapply mark_inv_le].
Qed.

Lemma mark_inv_marked ks s lsn mem : mark_inv ks s (Some lsn) mem -> marked ks lsn mem.
Proof.
  intros (_ & Hf & [->|He]); [by left|right]. apply Exists_exists in He as (v & Hv & Hs). rewrite Forall_forall in Hf.
  destruct (hist_highest_above ks mem v Hv) as (m & Hm & Hle); [by apply Hf|].
  apply hist_highest_in in Hm as Hm'. destruct Hm' as (w & Hw & _ & Hws). destruct (Hf w Hw) as [_ ?].
  rewrite Hm. f_equal. lia.
Qed.

(** ** Whole journals *)

Section journals.
Context `{JournalCodec} (values : gmap Z Z -> list (Z * Z)) (values_perm : forall wms, values wms ≡ₚ map_to_list wms).

(** A sealed journal that can be read and holds the batches [bs]. *)
Definition journal_of (f : SealedFile) (bs : list batch) : Prop :=
  is_ok (sf_len f) = true /\
  exists contents file, sf_contents f = Ok contents /\ read_journal contents = Some (Ok (batch_of <$> bs), file).

(** What reading a journal leaves in its file. *)
Definition left_file (f : SealedFile) : option bytes :=
  match sf_contents f with Ok contents => snd <$> read_journal contents | Err _ => None end.

(** A queued journal carries a watermark for every keyspace it touches. *)
Definition marks (item : ManagerItem) (bs : list batch) : Prop := forall ks b,
  known ks = true -> b ∈ bs -> touches ks b -> exists wm, wm ∈ watermarks item /\ wm_keyspace wm = ks /\ b.1 <= lsn wm.

Lemma recover_sealed_journal_part f bs (s : Recovering T) :
  journal_of f bs -> Forall storable bs -> StronglySorted Z.lt bs.*1 ->
  (forall ks, known ks = true -> memtable ks (rv_trees s) = []) ->
  exists s', recover_sealed_journal lookup values f s = Some (s', Ok ()) /\ rv_files s' = rv_files s ++ option_list (left_file f) /\
    (exists item, mgr_items (rv_manager s') = mgr_items (rv_manager s) ++ [item] /\ item_path item = sf_path f /\ marks item bs) /\
    forall ks, known ks = true ->
      part ks (rv_trees s') = seal_part (foldl (mark_batch ks) None bs) (foldl (part_batch ks) (part ks (rv_trees s)) bs).
Proof.
  intros (Hlen & contents & file & Hc & Hr) Hbs Hs Hm. unfold recover_sealed_journal, ps_bind at 1, ps_pure, p_lift.
  destruct (sf_len f) as [len|]; [|done]. unfold ps_bind at 1. rewrite Hc. unfold ps_bind at 1. rewrite Hr.
  cbn [p_expect fmap option_fmap option_map].
  destruct (sealed_batches_part bs ∅ (rv_trees s) Hbs) as (wms & t & -> & Hp & Hw).
  assert ((list_to_map (values wms) : gmap Z Z) = wms) as Hmap.
  { rewrite <- (list_to_map_to_list wms). symmetry. apply list_to_map_proper; [apply NoDup_fst_map_to_list|].
    symmetry. rewrite list_to_map_to_list. apply values_perm. }
  destruct (seal_keyspaces_part (values wms) (leave_file file (set_trees t s))) as (s1 & E1 & Em1 & Ef1 & Hp1).
  { rewrite values_perm. apply NoDup_fst_map_to_list. }
  { intros [ks lsn] Hin. rewrite values_perm in Hin. apply elem_of_map_to_list in Hin. cbn [fst snd rv_trees set_trees leave_file].
    rewrite Hw, lookup_empty in Hin. destruct (known ks) eqn:Hk; [|done].
    specialize (Hp ks Hk). apply (f_equal pt_memtable) in Hp. cbn in Hp. rewrite Hp.
    destruct bs as [|b bs]; [done|].
    destruct (mark_inv_batches ks (b :: bs) b.1 None (part ks (rv_trees s)) Hbs Hs) as (m & Hi).
    - rewrite fmap_cons in Hs. apply StronglySorted_inv in Hs as [_ Hlt]. constructor; [lia|]. rewrite Forall_fmap in Hlt.
      eapply Forall_impl; [exact Hlt|]. cbn. lia.
    - cbn. by apply Hm.
    - rewrite Hin in Hi. by apply mark_inv_marked in Hi. }
  unfold ps_bind. rewrite E1. eexists. split; [done|]. split; [cbn [rv_files]; unfold left_file; by rewrite Ef1, Hc, Hr|].
  split; [cbn; rewrite Em1; eexists; split_and!; [done|done|]|].
  { intros ks b Hk Hb Ht. cbn [watermarks]. destruct (proj2 (mark_batches_ge ks bs None) b Hb Ht) as (l & El & Hle).
    exists (mkEvictionWatermark ks l). split_and!; [|done|done]. apply (list_elem_of_fmap_2 (fun wm => mkEvictionWatermark wm.1 wm.2) _ (ks, l)).
    rewrite values_perm. apply elem_of_map_to_list. by rewrite Hw, lookup_empty, Hk. }
  intros ks Hk. cbn [rv_trees]. rewrite Hp1, Hmap. cbn [rv_trees set_trees leave_file].
  rewrite Hp, Hw, lookup_empty, Hk by done. done.
Qed.

Lemma recover_sealed_part files js (s : Recovering T) t0 bs :
  Forall2 journal_of files js -> Forall (Forall storable) js -> StronglySorted Z.lt (bs ++ concat js).*1 ->
  (forall ks, known ks = true -> sealed_inv ks (tables ks t0) (tree_highest_persisted_seqno ks t0) bs (part ks (rv_trees s))) ->
  exists s' items, recover_sealed_memtables lookup values files s = Some (s', Ok ()) /\
    rv_files s' = rv_files s ++ omap left_file files /\
    mgr_items (rv_manager s') = mgr_items (rv_manager s) ++ items /\ item_path <$> items = sf_path <$> files /\ Forall2 marks items js /\
    forall ks, known ks = true ->
      sealed_inv ks (tables ks t0) (tree_highest_persisted_seqno ks t0) (bs ++ concat js) (part ks (rv_trees s')).
Proof.
  intros Hf. revert s bs. induction Hf as [|f j files js Hf _ IH]; intros s bs Hst Hs Hi.
  { exists s, []. cbn [concat]. rewrite !app_nil_r. done. }
  apply Forall_cons in Hst as [Hj Hst]. cbn [concat] in Hs |- *. rewrite app_assoc in Hs |- *.
  assert (StronglySorted Z.lt (bs ++ j).*1) as Hs'.
  { rewrite fmap_app in Hs. by apply StronglySorted_app_1_l in Hs. }
  destruct (recover_sealed_journal_part f j s Hf Hj) as (s1 & E1 & Ef1 & (item & Em1 & Ep1 & Hm1) & Hp1).
  { rewrite fmap_app in Hs'. by apply StronglySorted_app_1_r in Hs'. }
  { intros ks Hk. by destruct (Hi ks Hk). }
  destruct (IH s1 (bs ++ j) Hst Hs) as (s' & items & E' & Ef' & Em' & Ep' & Hm' & Hp').
  { intros ks Hk. rewrite Hp1 by done. apply sealed_inv_step; [|by apply Hi].
    done. }
  exists s', (item :: items). cbn [recover_sealed_memtables]. unfold ps_bind. rewrite E1.
  split; [done|]. split_and!; [rewrite Ef', Ef1, <- app_assoc; cbn [omap list_omap]; by destruct (left_file f)|by rewrite Em', Em1, <- app_assoc|by rewrite !fmap_cons, Ep1, Ep'|by constructor|done].
Qed.

(** ** The active journal *)

Lemma recover_items_part s es (t : T) :
  Forall item_of es ->
  exists t', recover_items lookup s (omap read_item es) t = Some (Ok t') /\
    forall ks, known ks = true -> part ks t' = foldl (part_entry ks s) (part ks t) es.
Proof.
  intros Hes. revert t. induction Hes as [|e es (ks & key & value & vt & c & -> & Hvt) _ IH]; intros t; [by exists t|].
  cbn [omap list_omap read_item recover_items foldl]. unfold recover_item. cbn [ri_keyspace_id]. rewrite lookup_known. cbn [p_bind].
  destruct (known ks) eqn:Hk.
  - destruct (tree_apply_part ks key value vt c s t _ eq_refl Hvt) as (t1 & E1 & Ht1). unfold tree_apply in E1. cbn [ri_value_type ri_keyspace_id ri_key ri_value] in E1 |- *.
    destruct (IH t1) as (t' & E' & Hp). exists t'.
    split; [destruct vt; [| | |done]; injection E1 as ->; exact E'|]. intros ks' Hk'. by rewrite Hp, Ht1.
  - destruct (IH t) as (t' & E' & Hp). exists t'. split; [exact E'|]. intros ks' Hk'. rewrite Hp by done. cbn [part_entry]. by rewrite decide_False by congruence.
Qed.

Lemma recover_batches_part bs (t : T) :
  Forall storable bs ->
  exists t', recover_batches lookup (batch_of <$> bs) t = Some (Ok t') /\
    forall ks, known ks = true -> part ks t' = foldl (part_batch ks) (part ks t) bs.
Proof.
  intros Hbs. revert t. induction Hbs as [|[s es] bs Hb _ IH]; intros t; [by exists t|]. rewrite fmap_cons.
  assert (exists t1, recover_batch lookup (batch_of (s, es)) t = Some (Ok t1) /\
    forall ks, known ks = true -> part ks t1 = part_batch ks (part ks t) (s, es)) as (t1 & E1 & Hp1).
  { unfold recover_batch, part_batch. cbn [batch_of b_seqno b_items b_cleared_keyspaces fst snd].
    destruct Hb as [Hes|(ks & Hes)]; cbn [fst snd] in Hes.
    - destruct (recover_items_part s es t Hes) as (t1 & -> & Hp1). cbn [p_bind]. rewrite omap_items_clear by done. by exists t1.
    - subst es. cbn. rewrite lookup_known. cbn. destruct (known ks) eqn:Hk; (eexists; split; [done|]); intros ks' Hk'.
      + by rewrite tree_clear_part.
      + by rewrite decide_False by congruence. }
  cbn [recover_batches]. rewrite E1. cbn [p_bind]. destruct (IH t1) as (t' & -> & Hp). exists t'. split; [done|]. intros ks Hk. by rewrite Hp, Hp1.
Qed.

(** ** The whole recovery *)

(** Tables that read, for each key, like the history up to some point at or above
    [solid], from an instant on. *)
Definition solid_like (solid : option Z) (from ks : Z) (tb h : history) : Prop := forall key i, from <= i ->
  exists u, (forall s, covers solid s = true -> covers u s = true) /\
    summary (newest tb ks key i) (newest (filter (fun v => covers u (v_seqno v) = true) h) ks key i).

(** The trees a crash leaves, when the journals hold the batches [bs] on top of [base]:
    no memtables, and unless a journal clears the keyspace, tables that hold the older
    [base] and everything else up to [solid], from the instants on that compactions left
    readable. The tables may report less than they hold. *)
Record crashed (base : history) (bs : list batch) (from : Z -> Z) (solid : Z -> option Z) (t : T) (ks : Z) : Prop := {
  cr_memtables : memtable ks t = [] /\ sealed ks t = [];
  cr_persisted : Forall (fun b => ~ clears ks b) bs -> forall s, covers (tree_highest_persisted_seqno ks t) s = true -> covers (solid ks) s = true;
  cr_base v : Forall (fun b => ~ clears ks b) bs -> v ∈ base -> v_keyspace v = ks ->
    covers (solid ks) (v_seqno v) = true /\ forall b, b ∈ bs -> v_seqno v < b.1;
  cr_tables : Forall (fun b => ~ clears ks b) bs -> solid_like (solid ks) (from ks) ks (tables ks t) (ks_replay ks bs (of_ks ks base))
}.

Lemma check_memtables_ok keyspaces (s : Recovering T) :
  (forall ks, ks ∈ keyspaces -> memtable ks (rv_trees s) = []) -> check_memtables keyspaces s = Some (s, Ok ()).
Proof.
  intros Hm. unfold check_memtables. assert (forallb (fun ks => tree_active_size ks (rv_trees s) <=? 0) keyspaces = true) as ->; [|done].
  apply forallb_forall. intros ks Hin. apply Z.leb_le, active_size_empty, Hm. by apply list_elem_of_In.
Qed.

Lemma account_active_seqno keyspaces (s : Recovering T) :
  exists s', account_active keyspaces s = Some (s', Ok ()) /\ rv_trees s' = rv_trees s /\ rv_manager s' = rv_manager s /\ rv_files s' = rv_files s /\
    forall ks h, ks ∈ keyspaces -> tree_get_highest_seqno ks (rv_trees s) = Some h -> h < rv_seqno s'.
Proof.
  unfold account_active, ps_modify. eexists. split; [done|].
  assert (forall s : Recovering T, let s' := foldl (fun s ks => mkRecovering (rv_trees s)
    (Z.max (rv_seqno s) (next_of (tree_get_highest_seqno ks (rv_trees s))))
    (allocate (tree_active_size ks (rv_trees s)) (rv_write_buffer_size s)) (rv_manager s) (rv_files s)) s keyspaces in
    rv_trees s' = rv_trees s /\ rv_manager s' = rv_manager s /\ rv_files s' = rv_files s /\ rv_seqno s <= rv_seqno s' /\
    forall ks h, ks ∈ keyspaces -> tree_get_highest_seqno ks (rv_trees s) = Some h -> h < rv_seqno s') as Hall.
  { clear s. induction keyspaces as [|ks keyspaces IH]; intros s; cbn [foldl].
    { split_and!; [done|done|done|done|]. by intros ks h ?%elem_of_nil. }
    destruct (IH (mkRecovering (rv_trees s) (Z.max (rv_seqno s) (next_of (tree_get_highest_seqno ks (rv_trees s))))
      (allocate (tree_active_size ks (rv_trees s)) (rv_write_buffer_size s)) (rv_manager s) (rv_files s))) as (-> & -> & -> & Hs & Hh).
    cbn [rv_trees rv_manager rv_files rv_seqno] in *. split_and!; [done|done|done|lia|].
    intros ks' h [->|Hin]%elem_of_cons Hk; [|by apply (Hh ks')]. assert (next_of (tree_get_highest_seqno ks (rv_trees s)) = h + 1) by (by rewrite Hk). lia. }
  destruct (Hall s) as (? & ? & ? & _ & ?). done.
Qed.

(** The history of a keyspace after everything was replayed. *)
Lemma recovered_reads base js active from solid (t0 : T) ks key i p :
  StronglySorted Z.lt (concat js ++ active).*1 ->
  crashed base (concat js ++ active) from solid t0 ks -> from ks <= i ->
  sealed_inv ks (tables ks t0) (tree_highest_persisted_seqno ks t0) (concat js) p ->
  summary (newest (ks_replay ks active (pt_all p)) ks key i) (newest (ks_replay ks (concat js ++ active) (of_ks ks base)) ks key i).
Proof.
  intros Hs [_ Hper Hbase Hfl] Hi [Hm Hp]. unfold pt_all. rewrite Hm. cbn [app].
  destruct Hp as [(Hc & _ & -> & bs' & Hn & _ & ->)|(_ & -> & Hex & ->)].
  - assert (Forall (fun b => ~ clears ks b) bs') as Hc'.
    { rewrite Forall_forall in Hc |- *. intros b Hb. by apply Hc, (needed_subset _ _ _ _ Hn). }
    rewrite <- (ks_replay_no_clear ks bs' (tables ks t0)), <- ks_replay_app by done. destruct (clears_or_not ks active) as [Hno|Hyes].
    + assert (Forall (fun b => ~ clears ks b) (concat js ++ active)) as Hnc by (by apply Forall_app).
      assert (NoDup (concat js ++ active).*1) as Hnd by (by apply (StronglySorted_NoDup Z.lt)).
      pose proof (needed_keep ks _ _ _ active Hs Hn) as Hn'. pose proof (needed_distinct _ _ _ _ Hnd Hn') as Hnd'.
      pose proof (needed_subset _ _ _ _ Hn') as Hsub. destruct Hn' as [_ Hkept Hcl].
      destruct (Hfl Hnc key i Hi) as (u & Hu & Hsum).
      apply (newest_replay ks (fun s => covers u s = true)); [done|done|done|done| |done| |done].
      * intros b Hb Ht. destruct (Hkept b Hb Ht); [by left|right; by apply Hu, (Hper Hnc)].
      * intros v [? ?]%list_elem_of_filter. destruct (Hbase v Hnc) as [? ?]; [done|done|]. split; [by apply Hu|done].
    + apply summary_norm. rewrite !ks_replay_app. do 2 f_equal. by apply ks_replay_clear.
  - apply summary_norm. rewrite app_nil_r, !ks_replay_app. do 3 f_equal. by apply ks_replay_clear.
Qed.

(** What the recovered database holds, keyspace by keyspace. *)
Lemma recover_database_parts keyspaces files js contents active file t0 :
  (forall ks, known ks = true <-> ks ∈ keyspaces) ->
  Forall2 journal_of files js -> read_journal contents = Some (Ok (batch_of <$> active), file) ->
  Forall storable (concat js ++ active) -> StronglySorted Z.lt (concat js ++ active).*1 ->
  (forall ks, known ks = true -> memtable ks t0 = [] /\ sealed ks t0 = []) ->
  exists s tracker flush,
    recover_database lookup values files keyspaces (Some contents) (recovering_new t0) = Some (s, Ok (tracker, flush)) /\
    (forall ks, known ks = true -> exists p, part ks (rv_trees s) = foldl (part_batch ks) p active /\
      sealed_inv ks (tables ks t0) (tree_highest_persisted_seqno ks t0) (concat js) p) /\
    (forall v, v ∈ versions (rv_trees s) -> known (v_keyspace v) = true -> v_seqno v < rv_seqno s) /\
    tracker_get tracker = Z.max 0 (rv_seqno s) /\
    item_path <$> mgr_items (rv_manager s) = sf_path <$> files /\ Forall2 marks (mgr_items (rv_manager s)) js /\
    rv_files s = omap left_file files ++ [file].
Proof.
  intros Hks Hf Ha Hst Hs Hempty. pose proof Hst as Hst'. apply Forall_app in Hst' as [Hst1 Hst2].
  destruct (recover_sealed_part files js (recovering_new t0) t0 []) as (s1 & items & E1 & Ef1 & Em1 & Ep1 & Hm1 & Hp1); [done| | | |].
  { by apply Forall_concat. }
  { rewrite fmap_app in Hs. by apply StronglySorted_app_1_l in Hs. }
  { intros ks Hk. destruct (Hempty ks Hk) as [Hm Hse]. split; [done|]. left. split; [done|]. split; [done|]. split; [done|].
    exists []. split_and!; [|by intros b ?%elem_of_nil|done]. split; [constructor|set_solver|set_solver]. }
  destruct (recover_batches_part active (rv_trees s1) Hst2) as (t2 & E2 & Hp2).
  destruct (account_active_seqno keyspaces (leave_file file (set_trees t2 s1))) as (s3 & E3 & Et3 & Em3 & Ef3 & Hseq).
  cbn [rv_trees set_trees leave_file rv_manager rv_files] in Et3, Em3, Ef3, Hseq.
  assert (mgr_items (rv_manager s3) = items) as Em by (by rewrite Em3, Em1).
  eexists s3, _, _. split.
  { unfold recover_database, ps_bind. rewrite E1, check_memtables_ok.
    - unfold recover_active_journal, ps_bind. rewrite Ha, E2, E3. done.
    - intros ks Hin. by destruct (Hp1 ks (proj2 (Hks ks) Hin)) as [Hm _]. }
  split_and!.
  - intros ks Hk. exists (part ks (rv_trees s1)). rewrite Et3, Hp2 by done. split; [done|]. by apply Hp1.
  - rewrite Et3. intros v Hv Hk. destruct (highest_seqno_above (v_keyspace v) t2 v Hv eq_refl) as (h & Eh & Hle).
    pose proof (Hseq (v_keyspace v) h (proj1 (Hks _) Hk) Eh). lia.
  - done.
  - by rewrite Em.
  - by rewrite Em.
  - by rewrite Ef3, Ef1.
Qed.

Lemma recover_database_reads keyspaces files js contents active file t0 :
  (forall ks, known ks = true <-> ks ∈ keyspaces) ->
  Forall2 journal_of files js -> read_journal contents = Some (Ok (batch_of <$> active), file) ->
  Forall storable (concat js ++ active) -> StronglySorted Z.lt (concat js ++ active).*1 ->
  (forall ks, known ks = true -> memtable ks t0 = [] /\ sealed ks t0 = []) ->
  exists s tracker flush,
    recover_database lookup values files keyspaces (Some contents) (recovering_new t0) = Some (s, Ok (tracker, flush)) /\
    (forall base from solid ks key i, known ks = true -> crashed base (concat js ++ active) from solid t0 ks -> from ks <= i ->
      snapshot_get (versions (rv_trees s)) ks key i = snapshot_get (replay (concat js ++ active) base) ks key i) /\
    (forall v, v ∈ versions (rv_trees s) -> known (v_keyspace v) = true -> v_seqno v < rv_seqno s) /\
    tracker_get tracker = Z.max 0 (rv_seqno s) /\
    item_path <$> mgr_items (rv_manager s) = sf_path <$> files /\
    rv_files s = omap left_file files ++ [file].
Proof.
  intros Hks Hf Ha Hst Hs Hempty.
  destruct (recover_database_parts keyspaces files js contents active file t0 Hks Hf Ha Hst Hs Hempty) as (s & tracker & flush & E & Hp & Hv & Ht & Hi & _ & Hfi).
  exists s, tracker, flush. split_and!; [done| |done|done|done|done]. intros base from solid ks key i Hk Hcr Hi'. destruct (Hp ks Hk) as (p & Ep & Hinv).
  unfold snapshot_get. rewrite <- (newest_of_ks ks), <- (newest_of_ks ks (replay _ base)), of_ks_replay, of_ks_parts, Ep, part_batches_all.
  by eapply proj1, (recovered_reads base js active from solid t0).
Qed.
End journals.
End known.
End lsm.

(** C2: Recovery after a crash is complete and does not trip over its own assertions: if
    clearing a tree succeeds, the journals can be read and their sequence numbers ascend,
    replaying the sealed ones on top of the tables, skipping for each keyspace those its
    tables already cover, and then the active one, gives every recovered keyspace whose
    tables are as a crash leaves them exactly the history of base and journals, at all
    instants that were readable; every sealed journal is queued again, the tails behind
    the last complete batches are cut off the files, and the sequence number is above all
    versions left in the recovered keyspaces. ([failed_clear_panics] and
    [clear_resets_seqno] show what is lost without the conditions: a failing clear trips
    the assertion, and numbers of versions that a replayed clear dropped come again.) *)
Theorem recovery_complete {T} `{!TreeOps T, !TreeLaws T, !LsmOps T, !LsmLaws T} `{JournalCodec}
    known lookup values keyspaces files js contents active file (t0 : T) :
  clears_succeed T ->
  (forall ks, lookup ks = Some (Ok (known ks))) -> (forall wms, values wms ≡ₚ map_to_list wms) ->
  (forall ks, known ks = true <-> ks ∈ keyspaces) ->
  Forall2 journal_of files js -> read_journal contents = Some (Ok (batch_of <$> active), file) ->
  Forall storable (concat js ++ active) -> StronglySorted Z.lt (concat js ++ active).*1 ->
  (forall ks, known ks = true -> memtable ks t0 = [] /\ sealed ks t0 = []) ->
  exists s tracker flush,
    recover_database lookup values files keyspaces (Some contents) (recovering_new t0) = Some (s, Ok (tracker, flush)) /\
    (forall base from solid ks key i, known ks = true -> crashed base (concat js ++ active) from solid t0 ks -> from ks <= i ->
      snapshot_get (versions (rv_trees s)) ks key i = snapshot_get (replay (concat js ++ active) base) ks key i) /\
    (forall v, v ∈ versions (rv_trees s) -> known (v_keyspace v) = true -> v_seqno v < rv_seqno s) /\
    tracker_get tracker = Z.max 0 (rv_seqno s) /\
    item_path <$> mgr_items (rv_manager s) = sf_path <$> files /\
    rv_files s = omap left_file files ++ [file].
Proof. intros Hc Hl Hv. by apply (recover_database_reads Hc known lookup Hl values Hv). Qed.

(** ** An in-memory instance

    Memtables, sealed memtables and tables as histories; [clear_works] tells whether
    [tree.clear()] succeeds. *)

Record LsmHist (clear_works : bool) := mkLsmHist { lh_mem : history; lh_sealed : history; lh_tables : history; lh_persisted : gmap Z Z }.
Arguments mkLsmHist {_}.
Arguments lh_mem {_}.
Arguments lh_sealed {_}.
Arguments lh_tables {_}.
Arguments lh_persisted {_}.

Section instance.
Context (clear_works : bool).
Abbreviation L := (LsmHist clear_works).

Definition lh_write (v : Version) (t : L) : L * (Z * Z) := (mkLsmHist (v :: lh_mem t) (lh_sealed t) (lh_tables t) (lh_persisted t), (1, 1)).
Definition lh_versions (t : L) : history := lh_mem t ++ lh_sealed t ++ lh_tables t.

#[export] Instance lh_tree_ops : TreeOps L := {
  tree_insert ks key value seqno := lh_write (mkVersion ks key seqno Value value);
  tree_remove ks key seqno := lh_write (mkVersion ks key seqno Tombstone []);
  tree_remove_weak ks key seqno := lh_write (mkVersion ks key seqno WeakTombstone []);
  tree_clear ks t :=
    if decide (clear_works = true) then (mkLsmHist (drop_keyspace ks (lh_mem t)) (drop_keyspace ks (lh_sealed t)) (drop_keyspace ks (lh_tables t)) (delete ks (lh_persisted t)), Ok ())
    else (t, Err (Io IoErrorOther));
  tree_get ks key instant t := Ok (snapshot_get (lh_versions t) ks key instant);
  tree_get_highest_seqno ks t := hist_highest ks (lh_versions t)
}.

#[export] Instance lh_tree_laws : TreeLaws L.
Proof.
  refine {| versions := lh_versions; readable_from := fun _ _ => 0 |}; try done.
  - intros ks t t' r. cbn. case_decide; intros [= <- <-]; [|done]. unfold lh_versions. cbn. unfold drop_keyspace.
    by rewrite <- !filter_app.
  - by intros ks key i t o _ [= <-].
  - intros ks t v. apply hist_highest_above.
  - intros ks t s. apply hist_highest_in.
Defined.

#[export] Instance lh_lsm_ops : LsmOps L := {
  tree_rotate_memtable ks t :=
    (mkLsmHist (drop_keyspace ks (lh_mem t)) (of_ks ks (lh_mem t) ++ lh_sealed t) (lh_tables t) (lh_persisted t),
     match of_ks ks (lh_mem t) with
     | [] => None
     | mem => Some (mkSealedMemtable (hist_highest ks mem) (Z.of_nat (length mem)))
     end);
  tree_clear_active_memtable ks t := mkLsmHist (drop_keyspace ks (lh_mem t)) (lh_sealed t) (lh_tables t) (lh_persisted t);
  tree_highest_persisted_seqno ks t := lh_persisted t !! ks;
  tree_active_size ks t := Z.of_nat (length (of_ks ks (lh_mem t)));
  tree_sealed_memtable_count ks t := length (of_ks ks (lh_sealed t))
}.

Lemma of_ks_drop ks ks' h : of_ks ks' (drop_keyspace ks h) = if decide (ks' = ks) then [] else of_ks ks' h.
Proof.
  change (drop_keyspace ks h) with (apply_entry 0 h (Clear ks)). rewrite of_ks_entry. cbn [ks_entry].
  destruct (decide (ks = ks')), (decide (ks' = ks)); congruence.
Qed.

Lemma of_ks_app ks h h' : of_ks ks (h ++ h') = of_ks ks h ++ of_ks ks h'.
Proof. apply filter_app. Qed.

Lemma of_ks_of_ks ks ks' h : of_ks ks' (of_ks ks h) = if decide (ks' = ks) then of_ks ks h else [].
Proof.
  unfold of_ks. rewrite list_filter_filter. case_decide as E.
  - subst. apply list_filter_iff. tauto.
  - apply elem_of_nil_inv. intros v [[? ?] _]%list_elem_of_filter. congruence.
Qed.

#[export] Instance lh_lsm_laws : LsmLaws L.
Proof.
  refine {| memtable := fun ks t => of_ks ks (lh_mem t); sealed := fun ks t => of_ks ks (lh_sealed t); tables := fun ks t => of_ks ks (lh_tables t) |};
    try (by intros; subst).
  - intros ks t. cbn. unfold lh_versions. by rewrite <- !of_ks_app.
  - intros ks' ks t t'. cbn [tree_clear lh_tree_ops]. case_decide; intros [= <-] Hne. cbn [lh_sealed lh_tables tree_highest_persisted_seqno lh_lsm_ops lh_persisted].
    rewrite !of_ks_drop, !decide_False by done. by rewrite lookup_delete_ne.
  - intros ks t t'. cbn [tree_clear lh_tree_ops]. case_decide; intros [= <-]. apply lookup_delete_eq.
  - intros ks t t' o [= <- <-]. by destruct (of_ks ks (lh_mem t)).
  - intros ks' ks t. cbn. apply of_ks_drop.
  - intros ks' ks t. cbn [tree_rotate_memtable lh_lsm_ops fst lh_sealed]. rewrite of_ks_app, of_ks_of_ks. by case_decide; subst.
  - intros ks' ks t. cbn. apply of_ks_drop.
  - intros ks t. cbn. split; [intros ?; apply length_zero_iff_nil; lia|by intros ->].
Defined.
End instance.

(** ** Samples *)

Definition put (s : Z) (key value : bytes) : batch := (s, [Item 1 key value Value CompressionNone]).
Definition sealed_file (n : Z) (bs : list batch) : SealedFile :=
  mkSealedFile (journal_name n) (Ok (Z.of_nat (length (journal_bytes bs)))) (Ok (journal_bytes bs)).
Definition only_one (ks : Z) : bool := bool_decide (ks = 1).

(** The tables hold everything up to 2, so that the first journal is skipped. *)
Definition flushed_to_2 : LsmHist true :=
  mkLsmHist [] [] [mkVersion 1 key_b 2 Value [Byte.x02]; mkVersion 1 key_a 1 Value [Byte.x01]] {[1 := 2]}.
Definition sample_journals : list (list batch) := [[put 2 key_b [Byte.x02]]; [put 3 key_a [Byte.x03]]].
Definition sample_active : list batch := [put 4 key_b [Byte.x04]].
Definition sample_base : history := [mkVersion 1 key_a 1 Value [Byte.x01]].

Lemma lh_clear_ok : clears_succeed (LsmHist true).
Proof. intros ks t. cbn [tree_clear lh_tree_ops]. by rewrite decide_True. Qed.

Lemma recovery_complete_witness :
  exists s tracker flush,
    recover_database (fun ks => Some (Ok (only_one ks))) map_to_list [sealed_file 0 (nth 0 sample_journals []); sealed_file 1 (nth 1 sample_journals [])]
      [1] (Some (journal_bytes sample_active)) (recovering_new flushed_to_2) = Some (s, Ok (tracker, flush)) /\
    snapshot_get (versions (rv_trees s)) 1 key_a 4 = Some [Byte.x03].
Proof.
  destruct (recovery_complete (T := LsmHist true) only_one (fun ks => Some (Ok (only_one ks))) map_to_list [1]
    [sealed_file 0 (nth 0 sample_journals []); sealed_file 1 (nth 1 sample_journals [])] sample_journals
    (journal_bytes sample_active) sample_active (journal_bytes sample_active) flushed_to_2 lh_clear_ok (fun ks => eq_refl) (fun wms => Permutation_refl _))
    as (s & tracker & flush & E & Hv & _).
  - intros ks. unfold only_one. rewrite bool_decide_eq_true. set_solver.
  - repeat constructor; try done; (eexists _, _; split; [reflexivity|vm_compute; reflexivity]).
  - vm_compute. reflexivity.
  - assert (forall s key value, storable (put s key value)) as Hput.
    { intros s key value. left. constructor; [by eexists _, _, _, _, _|done]. }
    repeat (constructor; [apply Hput|]). done.
  - apply (bool_decide_unpack _). vm_compute. reflexivity.
  - done.
  - exists s, tracker, flush. split; [exact E|]. rewrite (Hv sample_base (fun _ => 0) (fun _ => Some 2) 1 key_a 4 eq_refl); [vm_compute; reflexivity| |done].
    clear E. constructor.
    + done.
    + done.
    + intros v _ ->%list_elem_of_singleton _. split; [done|]. apply list.Forall_forall. repeat constructor.
    + intros _ key i _. exists (Some 2). split; [done|]. by apply summary_norm.
Defined.

(** ** Departures *)

(** An ingestion goes into the tables without being journaled. If the journal holds an
    older clear of the keyspace, recovery repeats the clear on the tables and the
    ingested data is gone. *)
Theorem clear_replay_drops_ingestion :
  let ingested : LsmHist true := mkLsmHist [] [] [mkVersion 1 key_a 3 Value [Byte.x01]] {[1 := 3]} in
  let journal := [(2, [Clear 1])] : list batch in
  snapshot_get (versions ingested) 1 key_a 10 = Some [Byte.x01] /\
  match recover_database (fun ks => Some (Ok (only_one ks))) map_to_list [] [1] (Some (journal_bytes journal)) (recovering_new ingested) with
  | Some (s, Ok _) => snapshot_get (versions (rv_trees s)) 1 key_a 10 = None
  | _ => False
  end.
Proof. vm_compute. done. Qed.

(** Recovery ignores a failing [clear], but then the watermark of the journal is not the
    highest sequence number of the memtable and the assertion about it fails. *)
Theorem failed_clear_panics :
  recover_sealed_memtables (fun ks => Some (Ok (only_one ks))) map_to_list
    [sealed_file 0 [put 1 key_a [Byte.x01]; (2, [Clear 1])]] (recovering_new (mkLsmHist [] [] [] ∅ : LsmHist false)) = None.
Proof. vm_compute. reflexivity. Qed.

(** Recovery takes the sequence numbers up from the highest ones in the trees, which a
    replayed clear has emptied: the number of the clear and those before it are given
    out again. When the journal that holds the clear and such a write is sealed and
    replayed, its watermark is not the highest number of the memtable and the assertion
    about it fails: the database can not be opened any more. *)
Theorem clear_resets_seqno :
  let journal := [put 0 key_a [Byte.x01]; (1, [Clear 1])] : list batch in
  let lookup ks := Some (Ok (only_one ks)) : PResult bool in
  match recover_database lookup map_to_list [] [1] (Some (journal_bytes journal)) (recovering_new (mkLsmHist [] [] [] ∅ : LsmHist true)) with
  | Some (s, Ok _) =>
      rv_seqno s = 0 /\
      recover_sealed_memtables lookup map_to_list [sealed_file 0 (journal ++ [put (rv_seqno s) key_b [Byte.x02]])]
        (recovering_new (mkLsmHist [] [] [] ∅ : LsmHist true)) = None
  | _ => False
  end.
Proof. vm_compute. done. Qed.
