(* ===== verification/RecoveryFrame.v ===== *)
(** * What recovery leaves alone

    Recovery changes the trees of the recovered keyspaces only, and the sequence number
    it builds up never falls; both whether it succeeds or not. *)

From stdpp Require Import base gmap list.
From S2P Require Import Prelude Errors Utf8 Store Panic JournalEntry JournalReader JournalWriter JournalFiles SnapshotTracker Mvcc Db DbProps ReplayHistory Recovery RecoveryProps.

Section frame.
Context `{JournalCodec} {T : Type} `{!TreeOps T, !TreeLaws T, !LsmOps T, !LsmLaws T}.
Context (tree_clear_ok : clears_succeed T).
Context (known : Z -> bool) (lookup : Z -> PResult bool) (lookup_known : forall ks, lookup ks = Some (Ok (known ks))).
Context (values : gmap Z Z -> list (Z * Z)) (values_perm : forall wms, values wms ≡ₚ map_to_list wms).

(** The trees of unknown keyspaces are the same. *)
Definition elsewhere (t t' : T) : Prop := forall ks, known ks = false -> part ks t' = part ks t.

#[local] Instance elsewhere_preorder : PreOrder elsewhere.
Proof. split; [by intros t ks _|]. intros t1 t2 t3 H1 H2 ks Hk. by rewrite H2, H1. Qed.

(** ** Replaying *)

Lemma write_elsewhere ks t t' v :
  known ks = true -> versions t' = v :: versions t -> v_keyspace v = ks -> (forall ks', lower_same ks' t t') -> elsewhere t t'.
Proof. intros Hk Hv <- Hl ks' Hk'. rewrite (part_write ks' t t' v Hv (Hl ks')), decide_False; congruence. Qed.

Lemma tree_apply_elsewhere item s (t t' : T) : known (ri_keyspace_id item) = true -> tree_apply item s t = Some t' -> elsewhere t t'.
Proof.
  intros Hk. unfold tree_apply. destruct (ri_value_type item); [..|done]; intros [= <-]; (eapply write_elsewhere; [exact Hk| | |]);
    [apply insert_versions|done|intros ks'; by eapply insert_lower|apply remove_versions|done|intros ks'; by eapply remove_lower
    |apply remove_weak_versions|done|intros ks'; by eapply remove_weak_lower].
Qed.

Lemma tree_clear_elsewhere ks (t : T) : known ks = true -> elsewhere t (tree_clear ks t).1.
Proof. intros Hk ks' Hk'. rewrite (tree_clear_part tree_clear_ok). cbn [part_entry]. by rewrite decide_False by congruence. Qed.

(** The watermarks are those of known keyspaces. *)
Definition known_marks (wms : gmap Z Z) : Prop := forall ks, is_Some (wms !! ks) -> known ks = true.

Lemma raise_known ks s wms : known ks = true -> known_marks wms -> known_marks (raise_watermark ks s wms).
Proof. unfold raise_watermark. intros Hk Hw ks' [x [[<- _]|[_ Hx]]%lookup_insert_Some]; [done|]. apply Hw. by exists x. Qed.

Lemma sealed_items_elsewhere s items : forall wms t wms' t', known_marks wms ->
  sealed_items lookup s items wms t = Some (Ok (wms', t')) -> known_marks wms' /\ elsewhere t t'.
Proof.
  induction items as [|item items IH]; intros wms t wms' t' Hw; cbn [sealed_items].
  { intros [= <- <-]. by split. }
  rewrite lookup_known. cbn [p_bind]. destruct (known (ri_keyspace_id item)) eqn:Hk; [|by apply IH].
  intros (t1 & E1 & E)%p_bind_Ok. destruct (tree_apply item s t) as [t2|] eqn:Et; [|done]. injection E1 as ->.
  apply IH in E as [Hw' He]; [|by apply raise_known]. split; [done|]. etrans; [by eapply tree_apply_elsewhere|done].
Qed.

Lemma sealed_clears_elsewhere s cleared : forall wms t wms' t', known_marks wms ->
  sealed_clears lookup s cleared wms t = Some (Ok (wms', t')) -> known_marks wms' /\ elsewhere t t'.
Proof.
  induction cleared as [|ks cleared IH]; intros wms t wms' t' Hw; cbn [sealed_clears].
  { intros [= <- <-]. by split. }
  rewrite lookup_known. cbn [p_bind]. destruct (known ks) eqn:Hk; [|by apply IH].
  intros E. apply IH in E as [Hw' He]; [|by apply raise_known]. split; [done|]. etrans; [by eapply tree_clear_elsewhere|done].
Qed.

Lemma sealed_batches_elsewhere bs : forall wms t wms' t', known_marks wms ->
  sealed_batches lookup bs wms t = Some (Ok (wms', t')) -> known_marks wms' /\ elsewhere t t'.
Proof.
  induction bs as [|b bs IH]; intros wms t wms' t' Hw; cbn [sealed_batches].
  { intros [= <- <-]. by split. }
  intros ([wms1 t1] & E1 & ([wms2 t2] & E2 & E)%p_bind_Ok)%p_bind_Ok. apply sealed_items_elsewhere in E1 as [H1 He1]; [|done].
  apply sealed_clears_elsewhere in E2 as [H2 He2]; [|done]. apply IH in E as [H3 He3]; [|done]. split; [done|]. etrans; [done|by etrans].
Qed.

Lemma recover_batches_elsewhere bs : forall t t', recover_batches lookup bs t = Some (Ok t') -> elsewhere t t'.
Proof.
  assert (forall s items t t', recover_items lookup s items t = Some (Ok t') -> elsewhere t t') as Hitems.
  { intros s items. induction items as [|item items IH]; intros t t'; cbn [recover_items]; [by intros [= <-]|].
    intros (t1 & E1 & E)%p_bind_Ok. apply IH in E. etrans; [|exact E]. unfold recover_item in E1. rewrite lookup_known in E1. cbn [p_bind] in E1.
    destruct (known (ri_keyspace_id item)) eqn:Hk; [|by injection E1 as <-]. apply (tree_apply_elsewhere item s); [done|].
    unfold tree_apply. destruct (ri_value_type item); try done; by injection E1 as <-. }
  assert (forall cleared t t', recover_clears lookup cleared t = Some (Ok t') -> elsewhere t t') as Hclears.
  { intros cleared. induction cleared as [|ks cleared IH]; intros t t'; cbn [recover_clears]; [by intros [= <-]|].
    rewrite lookup_known. cbn [p_bind]. intros E. apply IH in E. etrans; [|exact E]. destruct (known ks) eqn:Hk; [by apply tree_clear_elsewhere|done]. }
  induction bs as [|b bs IH]; intros t t'; cbn [recover_batches]; [by intros [= <-]|].
  intros (t1 & (t2 & E2 & E1)%p_bind_Ok & E)%p_bind_Ok. apply Hitems in E2. apply Hclears in E1. apply IH in E. etrans; [done|by etrans].
Qed.

(** ** Computations that touch known keyspaces only *)

Definition stays (s s' : Recovering T) : Prop := elsewhere (rv_trees s) (rv_trees s') /\ rv_seqno s <= rv_seqno s'.

#[local] Instance stays_preorder : PreOrder stays.
Proof. split; [intros s; by split|]. intros s1 s2 s3 [H1 L1] [H2 L2]. split; [by etrans|lia]. Qed.

Definition frames {A} (m : PState (Recovering T) A) : Prop := forall s s' r, m s = Some (s', r) -> stays s s'.

Lemma frames_bind {A B} (m : PState (Recovering T) A) (f : A -> PState (Recovering T) B) :
  frames m -> (forall a, frames (f a)) -> frames (ps_bind m f).
Proof. intros Hm Hf s s' r [(s1 & a & E1 & E2)|(e & _ & E1)]%ps_bind_Some; [|by apply Hm in E1]. etrans; [by eapply Hm|by eapply Hf]. Qed.

Lemma frames_pure {A} (m : PResult A) : frames (ps_pure m).
Proof. intros s s' r. unfold ps_pure. destruct m; [|done]. by intros [= <- _]. Qed.

Lemma frames_seal ks lsn : known ks = true -> frames (seal_keyspace (T := T) (ks, lsn)).
Proof.
  intros Hk s s' r. unfold seal_keyspace.
  assert (elsewhere (rv_trees s) (tree_clear_active_memtable ks (rv_trees s))) as Hc.
  { intros ks' Hk'. unfold part. destruct (clear_active_lower ks' ks (rv_trees s) _ eq_refl) as (-> & -> & ->).
    by rewrite clear_active_memtable_of, decide_False by congruence. }
  assert (elsewhere (rv_trees s) (tree_rotate_memtable ks (rv_trees s)).1) as Hr.
  { intros ks' Hk'. unfold part. rewrite rotate_memtable_of, rotate_sealed_of, rotate_tables, rotate_persisted. by rewrite !decide_False by congruence. }
  destruct (match tree_highest_persisted_seqno ks (rv_trees s) with Some l => lsn <=? l | None => false end); [intros [= <- _]; by split|].
  destruct (tree_rotate_memtable ks (rv_trees s)) as [t [sm|]]; cbn [fst] in Hr; [case_decide; [|done]|]; intros [= <- _]; (split; [done|cbn; lia]).
Qed.

Lemma frames_seal_all l : (forall wm, wm ∈ l -> known wm.1 = true) -> frames (seal_keyspaces (T := T) l).
Proof.
  induction l as [|[ks lsn] l IH]; intros Hl; cbn [seal_keyspaces]; [by intros s s' r [= <- _]|].
  apply frames_bind; [apply frames_seal, (Hl (ks, lsn)); left|]. intros _. apply IH. intros wm Hwm. apply Hl. by right.
Qed.

Lemma frames_sealed_journal f : frames (recover_sealed_journal lookup values f).
Proof.
  do 3 (apply frames_bind; [apply frames_pure|intros ?]). intros s s' r. destruct a1 as [[bs|e] file]; [|by intros [= <- _]].
  destruct (sealed_batches lookup bs ∅ (rv_trees s)) as [[[wms t]|e]|] eqn:E; [|by intros [= <- _]|done].
  apply sealed_batches_elsewhere in E as [Hw He]; [|by intros ks [x ?%lookup_empty_Some]]. intros Er. transitivity (leave_file file (set_trees t s)); [split; [done|cbn; lia]|].
  revert Er. apply frames_bind.
  - apply frames_seal_all. intros [ks lsn] Hin. apply Hw. rewrite values_perm in Hin. apply elem_of_map_to_list in Hin. by exists lsn.
  - intros _ s1 s2 r2 [= <- _]. by split.
Qed.

Lemma frames_account keyspaces : frames (account_active (T := T) keyspaces).
Proof.
  intros s s' r [= <- _]. revert s. induction keyspaces as [|ks keyspaces IH]; intros s; cbn [foldl]; [done|].
  etrans; [|apply IH]. split; [done|cbn; lia].
Qed.

Lemma frames_recover files keyspaces active : frames (recover_database lookup values files keyspaces active).
Proof.
  apply frames_bind; [|intros _]; [|apply frames_bind; [|intros _]; [|apply frames_bind; [|intros _]]].
  - induction files as [|f files IH]; cbn [recover_sealed_memtables]; [by intros s s' r [= <- _]|].
    apply frames_bind; [apply frames_sealed_journal|by intros _].
  - intros s s' r. unfold check_memtables. by destruct (forallb _ _); intros [= <- _].
  - destruct active as [contents|]; [|by intros s s' r [= <- _]]. apply frames_bind; [|intros _; apply frames_account]. intros s s' r.
    destruct (read_journal contents) as [[[bs|e] file]|]; [|by intros [= <- _]|done].
    destruct (recover_batches lookup bs (rv_trees s)) as [[t|e]|] eqn:E; [|by intros [= <- _]|done].
    intros [= <- _]. apply recover_batches_elsewhere in E. split; [done|cbn; lia].
  - by intros s s' r [= <- _].
Qed.

(** The versions of unknown keyspaces are those from before. *)
Lemma recovered_elsewhere files keyspaces active s s' r v :
  recover_database lookup values files keyspaces active s = Some (s', r) -> known (v_keyspace v) = false ->
  v ∈ versions (rv_trees s') -> v ∈ versions (rv_trees s).
Proof.
  intros E Hk Hv. apply frames_recover in E as [He _]. specialize (He (v_keyspace v) Hk).
  assert (v ∈ of_ks (v_keyspace v) (versions (rv_trees s'))) as Hin by (by apply list_elem_of_filter).
  rewrite of_ks_parts, He, <- of_ks_parts in Hin. by apply list_elem_of_filter in Hin as [_ ?].
Qed.
End frame.
