(* ===== verification/TxHandles.v ===== *)
(** * Transactional keyspace handles

    Models the keyspace handles of [src/src/tx/single_writer/keyspace.rs] and
    [src/src/tx/optimistic/keyspace.rs], with [TxDatabase::write_tx] of
    [src/src/tx/single_writer/mod.rs] and [WriteTransaction] of
    [src/src/tx/single_writer/write_tx.rs]: every write of a handle is a transaction of
    its own.

    A single-writer transaction holds the writer lock from its opening to its end, so
    that it is one atomic step. An optimistic transaction holds the oracle's lock only
    while it is opened and while it commits: what other threads do in between is the
    parameter [others] of the retry loops. *)

From stdpp Require Import base gmap list sorting.
From S2P Require Import Prelude Errors Utf8 Composite Store JournalEntry JournalReader JournalWriter SnapshotTracker BTree ConflictManager Mvcc Db WriteTx Optimistic.

(** ** Single-writer handles *)

Section single_writer.
Context `{JournalCodec} {T M : Type} `{!TreeOps T, !MemtableOps M}.
(** The order in which a collection visits the snapshots, and a commit the memtables. *)
Context (order : SnapshotTracker -> list (Z * nat)) (tables : BaseTransaction M -> list (str * (Keyspace * M))).
(** [config.manual_journal_persist] of the database. *)
Context (manual : bool).

(** [TxDatabase::write_tx], once the lock is held. *)
Definition sw_write_tx (db : Database T) : Database T * BaseTransaction M :=
  let '(tracker, instant) := tracker_open (db_tracker db) in
  let tx := tx_new instant in
  (with_tracker (fun _ => tracker) db, if manual then tx else tx_with_durability (Some Buffer) tx).

(** [WriteTransaction::commit] and [rollback]: the transaction ends with the call, which
    closes its snapshot. [None] is a panic. *)
Definition sw_commit (tx : BaseTransaction M) (db : Database T) : option (Database T * Result ()) :=
  inner_commit order (tables tx) tx db.
Definition sw_rollback (tx : BaseTransaction M) (db : Database T) : Database T := drop_nonce order (tx_instant tx) db.

(** [let mut tx = self.db.write_tx(); let a = tx.body()?; tx.commit()?; Ok(a)]. *)
Definition sw_with_tx {A} (body : BaseTransaction M -> T -> BaseTransaction M * Result A) (db : Database T) :
    option (Database T * Result A) :=
  let '(db, tx) := sw_write_tx db in
  match body tx (db_trees db) with
  | (tx, Err e) => Some (sw_rollback tx db, Err e)
  | (tx, Ok a) =>
      '(db, r) ← sw_commit tx db;
      Some (db, match r with Ok () => Ok a | Err e => Err e end)
  end.

Definition sw_fetch_update (ks : Keyspace) (key : bytes) (f : option bytes -> option bytes) :
    Database T -> option (Database T * Result (option bytes)) :=
  sw_with_tx (fun tx t => tx_fetch_update ks key f tx t).
Definition sw_update_fetch (ks : Keyspace) (key : bytes) (f : option bytes -> option bytes) :
    Database T -> option (Database T * Result (option bytes)) :=
  sw_with_tx (fun tx t => tx_update_fetch ks key f tx t).
Definition sw_take (ks : Keyspace) (key : bytes) : Database T -> option (Database T * Result (option bytes)) :=
  sw_fetch_update ks key (fun _ => None).
Definition sw_insert (ks : Keyspace) (key value : bytes) : Database T -> option (Database T * Result ()) :=
  sw_with_tx (fun tx _ => (tx_insert ks key value tx, Ok ())).
Definition sw_remove (ks : Keyspace) (key : bytes) : Database T -> option (Database T * Result ()) :=
  sw_with_tx (fun tx _ => (tx_remove ks key tx, Ok ())).
Definition sw_remove_weak (ks : Keyspace) (key : bytes) : Database T -> option (Database T * Result ()) :=
  sw_with_tx (fun tx _ => (tx_remove_weak ks key tx, Ok ())).
End single_writer.

(** ** Optimistic handles *)

(** How a retry loop ends; [Retrying] is running out of the given number of attempts. *)
Inductive LoopResult (S A : Type) := Returned (s : S) (r : Result A) | Retrying (s : S) | Panicked.
Arguments Returned {S A}.
Arguments Retrying {S A}.
Arguments Panicked {S A}.

Section optimistic_handles.
Context `{JournalCodec} {T M : Type} `{!TreeOps T, !MemtableOps M}.
Context (order : SnapshotTracker -> list (Z * nat)) (tables : WriteTransaction M -> list (str * (Keyspace * M))).
Context (manual : bool).

Abbreviation Tx := (WriteTransaction M).
Abbreviation ODb := (OptimisticDb T).

(** One round of the loop: the transaction is opened, [others] act, the body reads and
    writes, [others] act again, the transaction commits. *)
Definition attempt {A} (before after : ODb -> ODb) (body : T -> Tx -> Tx * Result A) (s : ODb) :
    option (ODb * Result (A * CommitResult)) :=
  let '(s, tx) := write_tx manual s in
  let s := before s in
  match body (db_trees (inner_db s)) tx with
  | (tx, Err e) => Some (otx_rollback order tx s, Err e)
  | (tx, Ok a) =>
      '(s, r) ← otx_commit order (tables tx) tx (after s);
      Some (s, match r with Ok c => Ok (a, c) | Err e => Err e end)
  end.

Fixpoint retry {A} (fuel : nat) (others : nat -> ODb -> ODb) (body : T -> Tx -> Tx * Result A) (s : ODb) : LoopResult ODb A :=
  match fuel with
  | O => Retrying s
  | S fuel =>
      match attempt (others (2 * fuel + 1)%nat) (others (2 * fuel)%nat) body s with
      | None => Panicked
      | Some (s, Err e) => Returned s (Err e)
      | Some (s, Ok (a, Committed)) => Returned s (Ok a)
      | Some (s, Ok (_, Conflict)) => retry fuel others body s
      end
  end.

(** [OptimisticTxKeyspace::fetch_update], [update_fetch] and [take]. *)
Definition oks_fetch_update (fuel : nat) (others : nat -> ODb -> ODb) (ks : Keyspace) (key : bytes)
    (f : option bytes -> option bytes) : ODb -> LoopResult ODb (option bytes) :=
  retry fuel others (otx_fetch_update ks key f).
Definition oks_update_fetch (fuel : nat) (others : nat -> ODb -> ODb) (ks : Keyspace) (key : bytes)
    (f : option bytes -> option bytes) : ODb -> LoopResult ODb (option bytes) :=
  retry fuel others (otx_update_fetch ks key f).
Definition oks_take (fuel : nat) (others : nat -> ODb -> ODb) (ks : Keyspace) (key : bytes) : ODb -> LoopResult ODb (option bytes) :=
  oks_fetch_update fuel others ks key (fun _ => None).

(** The blind writes: one attempt, a conflict is a panic ([expect]). *)
Definition blind (others : nat -> ODb -> ODb) (body : Tx -> Tx) (s : ODb) : option (ODb * Result ()) :=
  match attempt (others 1%nat) (others 0%nat) (fun _ tx => (body tx, Ok ())) s with
  | None | Some (_, Ok ((), Conflict)) => None
  | Some (s, Ok ((), Committed)) => Some (s, Ok ())
  | Some (s, Err e) => Some (s, Err e)
  end.
Definition oks_insert (others : nat -> ODb -> ODb) (ks : Keyspace) (key value : bytes) : ODb -> option (ODb * Result ()) :=
  blind others (otx_insert ks key value).
Definition oks_remove (others : nat -> ODb -> ODb) (ks : Keyspace) (key : bytes) : ODb -> option (ODb * Result ()) :=
  blind others (otx_remove ks key).
Definition oks_remove_weak (others : nat -> ODb -> ODb) (ks : Keyspace) (key : bytes) : ODb -> option (ODb * Result ()) :=
  blind others (otx_remove_weak ks key).
End optimistic_handles.
