(* ===== verification/TxHandlesProps.v ===== *)
(** * The writes of transactional handles are atomic

    Single-writer handles and transactions act on the contents of the database in one
    step; blind writes of optimistic handles never conflict; the retry loops of
    optimistic handles are linearizable, and need no second attempt when nobody
    interferes. *)

From stdpp Require Import base gmap list sorting.
From S2P Require Import Prelude Errors Utf8 Composite Store JournalEntry JournalReader JournalWriter SnapshotTracker BTree ConflictManager Mvcc Db DbProps.
From S2P Require Import WriteTx WriteTxProps KeyspaceMap Optimistic OptimisticProps TxHandles.

Section theory.
Context `{JournalCodec} {T M : Type} `{!TreeOps T, !TreeLaws T, !MemtableOps M, !MemtableLaws M}.

Abbreviation Base := (BaseTransaction M).

(** ** Items that fit into a journal entry *)

Definition fits (key value : bytes) : Prop :=
  key <> [] /\ Z.of_nat (length key) <= u16_max /\ Z.of_nat (length value) <= u32_max.

Definition tx_fits (tx : Base) : Prop :=
  forall id h m i, memtables tx !! id = Some (h, m) -> i ∈ mt_iter m -> fits (mi_key i) (mi_value i).

Lemma tx_new_fits instant : tx_fits (tx_new instant).
Proof. intros id h m i E. cbn in E. by rewrite lookup_empty in E. Qed.

Lemma tx_write_fits ks key value vt (tx : Base) : tx_wf tx -> fits key value -> tx_fits tx -> tx_fits (tx_write ks key value vt tx).
Proof.
  intros Hwf Hkv Hf id h m i. rewrite tx_write_tables. cbn [memtables]. destruct (default_table_wf ks tx Hwf) as [_ Hi].
  destruct (decide (id = keyspace_key ks)) as [->|Hne].
  - rewrite lookup_insert_eq. intros [= <- <-].
    rewrite mt_iter_insert by (intros j Hj _; destruct (Hi j Hj); simpl; lia).
    intros [->|Hin]%elem_of_cons; [done|]. unfold default_table in Hin.
    destruct (memtables tx !! keyspace_key ks) as [[h' m']|] eqn:E; simpl in Hin; [by eapply Hf|].
    rewrite mt_iter_new in Hin. by apply elem_of_nil in Hin.
  - rewrite lookup_insert_ne by done. apply Hf.
Qed.

Lemma to_batch_item_fits ks i : fits (mi_key i) (mi_value i) -> is_Some (to_batch_item ks i).
Proof.
  intros (Hk & Hl & Hv). unfold to_batch_item, item_new. rewrite decide_False by done.
  rewrite decide_False by lia. rewrite decide_False by lia. by eexists.
Qed.

Lemma tx_items_total (tables : list (str * (Keyspace * M))) :
  (forall id h m i, (id, (h, m)) ∈ tables -> i ∈ mt_iter m -> fits (mi_key i) (mi_value i)) -> is_Some (tx_items tables).
Proof.
  induction tables as [|[id [h m]] tables IH]; intros Hf; [by eexists|]. cbn [tx_items].
  assert (is_Some (mapM (to_batch_item h) (newest_items None (mt_iter m)))) as [its ->].
  { apply mapM_is_Some_2, Forall_forall. intros i Hi%newest_items_elem. apply to_batch_item_fits, (Hf id h m i); [by left|done]. }
  destruct IH as [rest ->]; [|by eexists]. intros id' h' m' i Hin. apply (Hf id' h' m' i). by right.
Qed.

Lemma tx_commit_total tables (tx : Base) (db : Database T) :
  tx_fits tx -> tables ≡ₚ map_to_list (memtables tx) -> exists db' r, tx_commit tables tx db = Some (db', r).
Proof.
  intros Hf Hp. unfold tx_commit. case_decide; [by eexists _, _|]. destruct (tx_items_total tables) as [its ->].
  { intros id h m i Hin. rewrite Hp in Hin. apply elem_of_map_to_list in Hin. by apply (Hf id h m). }
  cbn. destruct (batch_commit _ db) as [db' r]. by eexists _, _.
Qed.

(** ** What a commit does to the contents *)

Definition cur_view (db : Database T) : View := fun ks key => current db (ks_id ks) key.

Lemma cur_view_id (db : Database T) k k' : ks_id k = ks_id k' -> cur_view db k = cur_view db k'.
Proof. unfold cur_view. by intros ->. Qed.

(** Reads at the visible instant see the current contents. *)
Lemma visible_current (db : Database T) ks key :
  db_ok db -> seqno (db_tracker db) <= u64_max ->
  snapshot_get (versions (db_trees db)) ks key (seqno (db_tracker db)) = current db ks key.
Proof.
  intros [Hv _] Hle. unfold current, snapshot_get. f_equal. apply newest_instants; [done|]. intros v Hin _ _. by apply Hv.
Qed.

Lemma commit_contents tables (tx : Base) (db db' : Database T) r :
  tx_wf tx -> distinct_handles tx -> tables ≡ₚ map_to_list (memtables tx) -> db_ok db -> db_seqno db < u64_max ->
  tx_commit tables tx db = Some (db', r) ->
  db_ok db' /\ forall ks key, cur_view db' ks key =
    if is_ok r then match committed (ks_id ks) key tx with Some o => o | None => cur_view db ks key end else cur_view db ks key.
Proof.
  intros Hwf Hd Hp Hok Hmax Hc. destruct r as [[]|e]; cbn [is_ok].
  - split.
    + unfold tx_commit in Hc. case_decide; [by injection Hc as <-|]. destruct (tx_items tables) as [its|]; [|done].
      injection Hc as Hc. by destruct (refines_commit _ _ _ _ Hok Hmax Hc).
    + intros ks key. unfold cur_view, current. rewrite (tx_commit_leaves tables tx db db' Hwf Hd Hp) by (done || (intros v Hv; destruct Hok as [Ho ?]; specialize (Ho v Hv); lia)).
      by rewrite decide_False by lia.
  - unfold tx_commit in Hc. case_decide; [done|]. destruct (tx_items tables) as [its|]; [|done].
    injection Hc as Hc. destruct (refines_commit _ _ _ _ Hok Hmax Hc) as [? Hcur]. split; [done|]. intros ks key. apply Hcur.
Qed.

(** Opening, closing and collecting snapshots does not touch the contents. *)
Lemma with_tracker_ok f (db : Database T) :
  seqno (f (db_tracker db)) = seqno (db_tracker db) -> db_ok db -> db_ok (with_tracker f db).
Proof. intros E [H1 H2]. unfold db_ok, with_tracker. cbn. by rewrite E. Qed.

Lemma drop_nonce_ok order i (db : Database T) : db_ok db -> db_ok (drop_nonce order i db).
Proof. apply with_tracker_ok, close_raw_mono. Qed.

(** ** Bodies of transactions *)

(** A body with at most [n] writes, through the given handles, and its specification on
    views. *)
Definition body_sim {A} (handles : Keyspace -> Prop) (n : Z) (spec : View -> View * A) (body : Base -> T -> Base * Result A) : Prop :=
  forall tx t tx' r view, tx_wf tx -> uses handles tx -> tx_seqno tx + n <= u64_max -> (forall ks, readable_from t ks <= tx_instant tx) ->
    (forall ks key, tx_view tx t ks key = view ks key) -> body tx t = (tx', r) ->
    tx_instant tx' = tx_instant tx /\
    match r with
    | Ok a => a = (spec view).2 /\ tx_wf tx' /\ uses handles tx' /\ tx_seqno tx' <= tx_seqno tx + n /\
        forall ks key, tx_view tx' t ks key = (spec view).1 ks key
    | Err _ => True
    end.

Definition body_fits {A} (n : Z) (body : Base -> T -> Base * Result A) : Prop :=
  forall tx t tx' r, tx_wf tx -> tx_seqno tx + n <= u64_max -> (forall ks, readable_from t ks <= tx_instant tx) ->
    tx_fits tx -> body tx t = (tx', r) -> tx_fits tx'.

(** The cells an operation writes fit into journal entries. *)
Definition op_fits (op : TxOp) : Prop :=
  match op with
  | TInsert _ key value => fits key value
  | TRemove _ key | TRemoveWeak _ key | TTake _ key => fits key []
  | TGet _ _ => True
  | TUpdateFetch _ key f | TFetchUpdate _ key f => fits key [] /\ forall o v, f o = Some v -> fits key v
  end.

(** Operations write through their own handle, if at all. *)
Lemma run_tx_uses handles op (tx tx' : Base) (t : T) r :
  handles (tx_keyspace op) -> uses handles tx -> run_tx op tx t = (tx', r) -> uses handles tx'.
Proof.
  intros Hk Hu.
  assert (forall ks key f b r1, handles ks -> tx_update ks key f tx t = (b, r1) -> uses handles b) as Hupd.
  { intros ks key f b r1 Hk' [->|(value & vt & _ & ->)]%tx_update_cases; [done|by apply uses_write]. }
  destruct op as [ks key value|ks key|ks key|ks key|ks key f|ks key f|ks key]; cbn [run_tx tx_keyspace] in *.
  1-3: intros [= <- <-]; by apply uses_write.
  - by intros [= <- <-].
  - unfold tx_update_fetch. destruct (tx_update ks key f tx t) as [tx1 r1] eqn:E. intros [= <- <-]. by eapply Hupd.
  - unfold tx_fetch_update. destruct (tx_update ks key f tx t) as [tx1 r1] eqn:E. intros [= <- <-]. by eapply Hupd.
  - unfold tx_take, tx_fetch_update. destruct (tx_update ks key _ tx t) as [tx1 r1] eqn:E. intros [= <- <-]. by eapply Hupd.
Qed.

(** Specifications only look at the values. *)
Lemma spec_tx_ext op (v v0 : View) :
  (forall ks key, v ks key = v0 ks key) ->
  (spec_tx keyspace_key op v).2 = (spec_tx keyspace_key op v0).2 /\
  forall ks key, (spec_tx keyspace_key op v).1 ks key = (spec_tx keyspace_key op v0).1 ks key.
Proof.
  intros E.
  assert (forall k b o ks key, view_set keyspace_key v k b o ks key = view_set keyspace_key v0 k b o ks key) as Hset.
  { intros k b o ks key. unfold view_set. by case_decide. }
  assert (forall k b o ks key, view_update keyspace_key v k b o ks key = view_update keyspace_key v0 k b o ks key) as Hupd.
  { intros k b o ks key. unfold view_update. rewrite (E k b). by case_decide. }
  destruct op; cbn [spec_tx fst snd]; rewrite ?E; auto.
Qed.

Lemma run_tx_sim handles op : handles (tx_keyspace op) -> body_sim handles 1 (spec_tx keyspace_key op) (run_tx op).
Proof.
  intros Hk tx t tx' r view Hwf Hu Hs Hr Hview Hrun. pose proof (run_tx_simulates op tx t tx' r Hwf ltac:(lia) (Hr _) Hrun) as Hsim.
  destruct r as [o|e]; [|by subst tx']. destruct Hsim as (-> & Hwf' & Hi & Hq & Hv). split; [done|].
  destruct (spec_tx_ext op _ _ Hview) as [E2 E1]. split; [done|]. split; [done|]. split; [by eapply run_tx_uses|]. split; [done|].
  intros ks key. by rewrite Hv.
Qed.

Lemma tx_update_fits ks key f : fits key [] -> (forall o v, f o = Some v -> fits key v) ->
  forall (tx : Base) (t : T) tx' r, tx_wf tx -> tx_fits tx -> tx_update ks key f tx t = (tx', r) -> tx_fits tx'.
Proof.
  intros Hk Hf tx t tx' r Hwf Hfit. unfold tx_update. destruct (tx_get ks key tx t) as [prev|e]; intros [= <- <-]; [|done].
  destruct (f prev) as [v|] eqn:E; [case_decide; [done|apply tx_write_fits; [done|by apply (Hf prev)|done]]|].
  destruct prev; [by apply tx_write_fits|done].
Qed.

Lemma run_tx_fits op : op_fits op -> body_fits 1 (run_tx op).
Proof.
  intros Hop tx t tx' r Hwf _ _ Hfit.
  destruct op as [ks key value|ks key|ks key|ks key|ks key f|ks key f|ks key]; cbn [run_tx op_fits] in *.
  1-3: intros [= <- <-]; by apply tx_write_fits.
  - by intros [= <- <-].
  - destruct Hop as [Hk Hf]. unfold tx_update_fetch. destruct (tx_update ks key f tx t) as [tx1 r1] eqn:E. intros [= <- <-].
    by eapply tx_update_fits; [..|exact E].
  - destruct Hop as [Hk Hf]. unfold tx_fetch_update. destruct (tx_update ks key f tx t) as [tx1 r1] eqn:E. intros [= <- <-].
    by eapply tx_update_fits; [..|exact E].
  - unfold tx_take, tx_fetch_update. destruct (tx_update ks key _ tx t) as [tx1 r1] eqn:E. intros [= <- <-].
    by eapply tx_update_fits; [..|exact E].
Qed.

(** ** Single-writer transactions *)

Section single_writer.
Context (order : SnapshotTracker -> list (Z * nat)) (tables : Base -> list (str * (Keyspace * M))) (manual : bool).
Context (tables_perm : forall tx, tables tx ≡ₚ map_to_list (memtables tx)).

(** Every keyspace can be read at the visible instant. *)
Definition readable (db : Database T) : Prop := forall ks, readable_from (db_trees db) ks <= seqno (db_tracker db).

Lemma sw_write_tx_view (db : Database T) :
  db_ok db -> seqno (db_tracker db) <= u64_max ->
  let '(db1, tx) := sw_write_tx (M := M) manual db in
  db_ok db1 /\ db_trees db1 = db_trees db /\ db_seqno db1 = db_seqno db /\ tx_wf tx /\ memtables tx = ∅ /\ tx_fits tx /\ tx_seqno tx = 2 ^ 63 /\
  tx_instant tx = seqno (db_tracker db) /\ forall ks key, tx_view tx (db_trees db) ks key = cur_view db ks key.
Proof.
  intros Hok Hle. unfold sw_write_tx. cbn [tracker_open].
  assert (forall tx : Base, memtables tx = ∅ -> tx_instant tx = seqno (db_tracker db) ->
    forall ks key, tx_view tx (db_trees db) ks key = cur_view db ks key) as Hview.
  { intros tx Hm Hi ks key. unfold tx_view, own_value, own_item. rewrite Hm, lookup_empty, Hi. cbn. by apply visible_current. }
  pose proof (tx_new_wf (M := M) (seqno (db_tracker db))) as Hwf.
  split; [by apply with_tracker_ok|]. split; [done|]. split; [done|].
  destruct manual; (split; [|split; [done|split; [apply tx_new_fits|split; [done|split; [done|by apply Hview]]]]]); [done|].
  destruct Hwf. by constructor.
Qed.

Lemma sw_with_tx_refines {A} handles n (spec : View -> View * A) body (db : Database T) :
  consistent handles -> body_sim handles n spec body -> body_fits n body -> 2 ^ 63 + n <= u64_max ->
  db_ok db -> db_seqno db < u64_max -> readable db ->
  exists db' r, sw_with_tx order tables manual body db = Some (db', r) /\ db_ok db' /\
    (forall a, r = Ok a -> a = (spec (cur_view db)).2) /\
    (forall ks key, handles ks -> cur_view db' ks key = if is_ok r then (spec (cur_view db)).1 ks key else cur_view db ks key) /\
    forall ks key, (forall h, handles h -> ks_id h <> ks_id ks) -> cur_view db' ks key = cur_view db ks key.
Proof.
  intros Hcon Hsim Hfits Hn Hok Hmax Hread. assert (seqno (db_tracker db) <= u64_max) as Hle by (destruct Hok; lia).
  pose proof (sw_write_tx_view db Hok Hle) as Hopen. unfold sw_with_tx. destruct (sw_write_tx manual db) as [db1 tx].
  destruct Hopen as (Hok1 & Ht1 & Hq1 & Hwf & Hm & Hfit & Hseq & Hinst & Hview). rewrite Ht1.
  destruct (body tx (db_trees db)) as [tx' r] eqn:Eb.
  destruct (Hsim tx (db_trees db) tx' r (cur_view db) Hwf (uses_empty _ tx Hm) ltac:(lia) ltac:(by rewrite Hinst) Hview Eb) as [Hi' Hr].
  destruct r as [a|e].
  - destruct Hr as (-> & Hwf' & Hu' & _ & Hv'). unfold sw_commit, inner_commit.
    destruct (tx_commit_total (tables tx') tx' db1 (Hfits _ _ _ _ Hwf ltac:(lia) ltac:(by rewrite Hinst) Hfit Eb) (tables_perm tx')) as (db2 & r2 & Ec). rewrite Ec. cbn [mbind option_bind].
    destruct (commit_contents _ _ _ _ _ Hwf' (uses_distinct _ Hcon _ Hwf' Hu') (tables_perm tx') Hok1 ltac:(lia) Ec) as [Hok2 Hcur].
    eexists _, _. split; [done|]. split; [by apply drop_nonce_ok|].
    assert (forall ks key, cur_view db1 ks key = cur_view db ks key) as Hdb1 by (intros ks key; unfold cur_view, current; by rewrite Ht1).
    assert (forall ks key, cur_view (drop_nonce order (tx_instant tx') db2) ks key = cur_view db2 ks key) as Hdrop by done.
    split; [by destruct r2 as [[]|]; intros a [= <-]|].
    split; intros ks key Hks; rewrite Hdrop, Hcur, Hdb1; [|rewrite (committed_other handles Hcon) by done; by destruct r2].
    destruct r2 as [[]|e2]; cbn [is_ok]; [|done]. rewrite <- Hv', (committed_uses handles Hcon) by done. unfold tx_view. destruct (own_value ks key tx'); [done|].
    rewrite Hi', Hinst. symmetry. by apply visible_current.
  - eexists _, _. split; [done|]. split; [by apply drop_nonce_ok|]. split; [done|]. cbn [is_ok].
    unfold cur_view, current, sw_rollback, drop_nonce, with_tracker. cbn [db_trees]. by rewrite Ht1.
Qed.

(** *** The handle *)

Definition run_sw (op : TxOp) (db : Database T) : option (Database T * Result (option bytes)) :=
  let unit (o : option (Database T * Result ())) :=
    '(db, r) ← o; Some (db, match r with Ok () => Ok None | Err e => Err e end) in
  match op with
  | TInsert ks key value => unit (sw_insert order tables manual ks key value db)
  | TRemove ks key => unit (sw_remove order tables manual ks key db)
  | TRemoveWeak ks key => unit (sw_remove_weak order tables manual ks key db)
  | TGet ks key => Some (db, keyspace_get ks key db)
  | TUpdateFetch ks key f => sw_update_fetch order tables manual ks key f db
  | TFetchUpdate ks key f => sw_fetch_update order tables manual ks key f db
  | TTake ks key => sw_take order tables manual ks key db
  end.

(** Every write of a handle is the transaction of one operation. *)
Lemma run_sw_tx op db : match op with TGet _ _ => True | _ => run_sw op db = sw_with_tx order tables manual (run_tx op) db end.
Proof.
  destruct op as [ks key value|ks key|ks key|ks key|ks key f|ks key f|ks key]; try done; unfold run_sw, sw_insert, sw_remove, sw_remove_weak, sw_with_tx;
    destruct (sw_write_tx manual db) as [db1 tx]; cbn [run_tx];
    match goal with |- context [sw_commit order tables ?x ?d] => destruct (sw_commit order tables x d) as [[db2 [[]|e]]|] end; done.
Qed.

(** C32: The single-writer handle is an atomic map: inserts, removals, takes and
    read-modify-writes of a key that fits into a journal entry never panic, return what
    the map operation returns on the contents at that moment, change the contents like
    it when they return [Ok] and not at all when they fail. *)
Theorem single_writer_refines op (db : Database T) :
  op_fits op -> db_ok db -> db_seqno db < u64_max -> readable db ->
  exists db' r, run_sw op db = Some (db', r) /\ db_ok db' /\
    (forall o, r = Ok o -> o = (spec_tx ks_id op (cur_view db)).2) /\
    forall ks key, cur_view db' ks key = if is_ok r then (spec_tx ks_id op (cur_view db)).1 ks key else cur_view db ks key.
Proof.
  intros Hf Hok Hmax Hread.
  destruct (sw_with_tx_refines (eq (tx_keyspace op)) 1 (spec_tx keyspace_key op) (run_tx op) db (consistent_one _)
    (run_tx_sim _ op eq_refl) (run_tx_fits op Hf) ltac:(vm_compute; done) Hok Hmax Hread) as (db' & r & E & Hok' & Ho & Hin & Hout).
  assert ((forall o, r = Ok o -> o = (spec_tx ks_id op (cur_view db)).2) /\
    forall ks key, cur_view db' ks key = if is_ok r then (spec_tx ks_id op (cur_view db)).1 ks key else cur_view db ks key) as Hrest.
  { split; [intros o Er; rewrite (Ho o Er); by destruct op|]. intros ks key. rewrite spec_tx_id by apply cur_view_id. case_decide as Ek.
    - rewrite (cur_view_id db' _ _ Ek), Hin, (cur_view_id db _ _ Ek) by done. by destruct (is_ok r).
    - rewrite Hout by (by intros h <- ?). by destruct (is_ok r). }
  pose proof (run_sw_tx op db) as Hrun. destruct op; try (exists db', r; rewrite Hrun; by split).
  clear E Hrest Hok' Ho Hin Hout db' r. eexists db, _. split; [done|]. split; [done|]. split.
  - intros o Ho. cbn [spec_tx snd]. unfold cur_view, current. eapply get_versions; [apply readable_max|exact Ho].
  - intros ks' key'. cbn [spec_tx fst]. by destruct (is_ok _).
Qed.

(** *** Transactions of several operations *)

Fixpoint run_txs (ops : list TxOp) (tx : Base) (t : T) : Base * Result (list (option bytes)) :=
  match ops with
  | [] => (tx, Ok [])
  | op :: ops =>
      match run_tx op tx t with
      | (tx, Err e) => (tx, Err e)
      | (tx, Ok o) => let '(tx, r) := run_txs ops tx t in (tx, os ← r; Ok (o :: os))
      end
  end.

Fixpoint spec_txs (ops : list TxOp) (view : View) : View * list (option bytes) :=
  match ops with
  | [] => (view, [])
  | op :: ops => let '(view, o) := spec_tx keyspace_key op view in let '(view, os) := spec_txs ops view in (view, o :: os)
  end.

Lemma run_txs_sim handles ops :
  Forall (fun op => handles (tx_keyspace op)) ops -> body_sim handles (Z.of_nat (length ops)) (spec_txs ops) (run_txs ops).
Proof.
  induction 1 as [|op ops Hop _ IH]; intros tx t tx' r view Hwf Hu Hs Hr Hview.
  { intros [= <- <-]. by split_and!; [| | | |lia|]. }
  cbn [run_txs spec_txs length] in *. destruct (run_tx op tx t) as [tx1 r1] eqn:E1.
  destruct (run_tx_sim handles op Hop tx t tx1 r1 view Hwf Hu ltac:(lia) Hr Hview E1) as [Hi1 Hr1].
  destruct r1 as [o|e]; [|by intros [= <- <-]]. destruct Hr1 as (Ho & Hwf1 & Hu1 & Hq1 & Hv1).
  destruct (run_txs ops tx1 t) as [tx2 r2] eqn:E2. intros [= <- <-].
  destruct (IH tx1 t tx2 r2 (spec_tx keyspace_key op view).1 Hwf1 Hu1 ltac:(lia) ltac:(by rewrite Hi1) Hv1 E2) as [Hi2 Hr2].
  split; [congruence|]. destruct r2 as [os|e]; cbn [mbind Result_bind]; [|done]. destruct Hr2 as (Hos & Hwf2 & Hu2 & Hq2 & Hv2).
  destruct (spec_tx keyspace_key op view) as [v1 o1]. cbn [fst snd] in *. destruct (spec_txs ops v1) as [v2 os2]. cbn [fst snd] in *.
  subst. split_and!; [done|done|done|lia|done].
Qed.

Lemma run_txs_fits ops : Forall op_fits ops -> body_fits (Z.of_nat (length ops)) (run_txs ops).
Proof.
  induction 1 as [|op ops Hop _ IH]; intros tx t tx' r Hwf Hs Hr Hf; cbn [run_txs length] in *; [by intros [= <- <-]|].
  destruct (run_tx op tx t) as [tx1 r1] eqn:E1. pose proof (run_tx_fits op Hop tx t tx1 r1 Hwf ltac:(lia) Hr Hf E1) as Hf1.
  destruct (run_tx_sim (fun _ => True) op I tx t tx1 r1 (tx_view tx t) Hwf ltac:(by intros ? ? ?) ltac:(lia) Hr ltac:(done) E1) as [Hi1 Hr1].
  destruct r1 as [o|e]; [|by intros [= <- <-]]. destruct Hr1 as (_ & Hwf1 & _ & Hq1 & _).
  destruct (run_txs ops tx1 t) as [tx2 r2] eqn:E2. intros [= <- <-].
  apply (IH tx1 t tx2 r2 Hwf1 ltac:(lia) ltac:(by rewrite Hi1) Hf1 E2).
Qed.

(** Single-writer transactions are serial: a transaction of any operations that all
    succeed and is committed acts like those map operations, one after the other, on
    the contents at the time it was opened, with the same results; if an operation or
    the commit fails, the contents stay as they are. The handles of a transaction do not
    mix up keyspaces that had the same name. *)
Theorem single_writer_serial handles ops (db : Database T) :
  consistent handles -> Forall (fun op => handles (tx_keyspace op)) ops -> Forall op_fits ops -> 2 ^ 63 + Z.of_nat (length ops) <= u64_max -> db_ok db -> db_seqno db < u64_max -> readable db ->
  exists db' r, sw_with_tx order tables manual (run_txs ops) db = Some (db', r) /\ db_ok db' /\
    (forall os, r = Ok os -> os = (spec_txs ops (cur_view db)).2) /\
    (forall ks key, handles ks -> cur_view db' ks key = if is_ok r then (spec_txs ops (cur_view db)).1 ks key else cur_view db ks key) /\
    forall ks key, (forall h, handles h -> ks_id h <> ks_id ks) -> cur_view db' ks key = cur_view db ks key.
Proof.
  intros Hcon Hh Hf Hn Hok Hmax Hread.
  apply (sw_with_tx_refines handles (Z.of_nat (length ops))); [done|by apply run_txs_sim|by apply run_txs_fits|done..].
Qed.
End single_writer.

(** ** Optimistic handles *)

Section optimistic.
Context `{!TreeReads T M, !PrefixRange}.
Context (order : SnapshotTracker -> list (Z * nat)) (tables : WriteTransaction M -> list (str * (Keyspace * M))) (manual : bool).
Context (tables_perm : forall tx, tables tx ≡ₚ map_to_list (memtables (inner tx))).

Abbreviation Tx := (WriteTransaction M).
Abbreviation ODb := (OptimisticDb T).

Definition contents (s : ODb) : View := cur_view (inner_db s).

Lemma opt_db_ok start (s : ODb) : opt_inv start s -> db_ok (inner_db s).
Proof. intros [_ _ H3 H4 _]. by split. Qed.

Lemma own_value_write ks key value vt (tx : Base) ks' key' :
  tx_wf tx -> tx_seqno tx < u64_max ->
  own_value ks' key' (tx_write ks key value vt tx) =
  if decide (same_cell keyspace_key ks ks' key key') then Some (if is_tombstone vt then None else Some value) else own_value ks' key' tx.
Proof.
  intros Hwf Hs. unfold own_value. rewrite own_item_write by done. unfold same_cell.
  case_decide; [unfold ignore_tombstone_value; simpl; by destruct vt|done].
Qed.

Lemma own_value_empty ks key (tx : Base) : memtables tx = ∅ -> own_value ks key tx = None.
Proof. intros Hm. unfold own_value, own_item. by rewrite Hm, lookup_empty. Qed.

Lemma committed_empty id key (tx : Base) : memtables tx = ∅ -> committed id key tx = None.
Proof. intros Hm. unfold committed. by rewrite Hm, map_to_list_empty. Qed.

Lemma distinct_one ks (tx : Base) : tx_wf tx -> uses (eq ks) tx -> distinct_handles tx.
Proof. apply uses_distinct, consistent_one. Qed.

(** *** Commits *)

Lemma any_conflict_total c entries : cm_wf c -> is_Some (any_conflict c entries).
Proof.
  intros Hc. induction entries as [|[ts other] entries IH]; [by eexists|]. cbn [any_conflict].
  destruct (has_conflict_iff c other Hc) as ([] & -> & _); [by eexists|done].
Qed.

Lemma otx_commit_total (tx : Tx) (s : ODb) :
  cm_wf (cm tx) -> tx_fits (inner tx) -> exists s' r, otx_commit order (tables tx) tx s = Some (s', r).
Proof.
  intros Hc Hf. unfold otx_commit. case_decide; [by eexists _, _|]. unfold with_commit.
  destruct (any_conflict_total (cm tx) (bt_range_from (tx_instant (inner tx) + 1) (committed_txns s)) Hc) as [b ->]. cbn [mbind option_bind].
  destruct b; [by eexists _, _|]. unfold inner_commit.
  match goal with |- context [tx_commit _ _ ?d] => destruct (tx_commit_total (tables tx) (inner tx) d Hf (tables_perm tx)) as (db' & r & ->) end.
  cbn. by destruct r as [[]|e]; eexists _, _.
Qed.

(** Only a successful commit changes the contents, by the transaction's own writes. *)
Lemma otx_commit_contents (tx : Tx) (s s' : ODb) r :
  db_ok (inner_db s) -> db_seqno (inner_db s) < u64_max -> tx_wf (inner tx) -> distinct_handles (inner tx) ->
  otx_commit order (tables tx) tx s = Some (s', r) ->
  forall ks key, contents s' ks key =
    match r with
    | Ok Committed => match committed (ks_id ks) key (inner tx) with Some o => o | None => contents s ks key end
    | _ => contents s ks key
    end.
Proof.
  intros Hok Hmax Hwf Hd. unfold otx_commit. case_decide as Hm.
  { intros [= <- <-] ks key. by rewrite committed_empty. }
  unfold with_commit. destruct (any_conflict _ _) as [[]|]; [|  |done]; cbn [mbind option_bind]; [by intros [= <- <-]|].
  unfold inner_commit. match goal with |- context [tx_commit _ _ ?d] => set (db1 := d) end.
  assert (db_ok db1) as Hok1 by (by apply with_tracker_ok; [apply close_raw_mono|]).
  destruct (tx_commit (tables tx) (inner tx) db1) as [[db2 r2]|] eqn:Ec; [|done]. cbn [mbind option_bind].
  destruct (commit_contents _ _ _ _ _ Hwf Hd (tables_perm tx) Hok1 Hmax Ec) as [_ Hcur].
  destruct r2 as [[]|e]; intros [= <- <-] ks key; apply Hcur.
Qed.

(** *** Read-modify-writes *)

(** The operations of the retry loops: cell, function, and which value they return. *)
Definition update_of (op : OtxOp) : option (Keyspace * bytes * (option bytes -> option bytes) * bool) :=
  match op with
  | OUpdateFetch ks key f => Some (ks, key, f, true)
  | OFetchUpdate ks key f => Some (ks, key, f, false)
  | _ => None
  end.

(** A transaction of one write. *)
Lemma write_committed ks key value vt (tx : Base) :
  vt <> Indirection -> tx_wf tx -> tx_seqno tx < u64_max -> memtables tx = ∅ ->
  tx_instant (tx_write ks key value vt tx) = tx_instant tx /\ memtables (tx_write ks key value vt tx) <> ∅ /\
  forall id key', committed id key' (tx_write ks key value vt tx) =
    if decide (id = ks_id ks /\ key' = key) then Some (if is_tombstone vt then None else Some value) else None.
Proof.
  intros Hvt Hwf Hs Hm. split; [by rewrite tx_write_tables|]. split; [rewrite tx_write_tables; apply insert_non_empty|].
  intros id key'. rewrite (committed_one ks) by (by apply tx_write_wf || by apply uses_write, uses_empty).
  rewrite own_value_write, (own_value_empty ks key' tx) by done. unfold same_cell. repeat case_decide; naive_solver.
Qed.

Lemma update_run op ks key f new (t : T) (tx tx' : Tx) a :
  update_of op = Some (ks, key, f, new) -> otx_wf tx -> tx_seqno (inner tx) < u64_max -> memtables (inner tx) = ∅ ->
  readable_from t (ks_id ks) <= tx_instant (inner tx) -> run_otx op t tx = (tx', Ok a) ->
  let prev := snapshot_get (versions t) (ks_id ks) key (tx_instant (inner tx)) in
  a = (if new then f prev else prev) /\ otx_wf tx' /\ recorded tx' (ks_id ks) key /\ tx_instant (inner tx') = tx_instant (inner tx) /\
  uses (eq ks) (inner tx') /\
  (memtables (inner tx') = ∅ /\ f prev = prev \/
   memtables (inner tx') <> ∅ /\ forall id key', committed id key' (inner tx') = if decide (id = ks_id ks /\ key' = key) then Some (f prev) else None).
Proof.
  intros Hop Hwf Hs Hm Hr Hrun prev.
  destruct (run_otx_records op t tx tx' (Ok a) Hwf ltac:(by apply leads_empty) Hs Hrun) as (Hbase & Hwf' & Hrec).
  assert (uses (eq ks) (inner tx')) as Hu.
  { eapply run_tx_uses; [|by apply uses_empty|exact Hbase]. by destruct op; simplify_eq/=. }
  assert (exists b p u, tx_update ks key f (inner tx) t = (b, Ok (p, u)) /\ inner tx' = b /\ a = if new then u else p) as (b & p & u & Eu & Eb & Ea).
  { destruct op as [| | | |ks0 key0 f0|ks0 key0 f0]; simplify_eq/=; unfold tx_update_fetch, tx_fetch_update in Hbase;
      destruct (tx_update ks key f (inner tx) t) as [b [[p u]|e]]; simplify_eq/=; by eexists _, _, _. }
  assert (reads_cell op = Some (ks, key)) as Hcell by (by destruct op; simplify_eq/=). rewrite Hcell in Hrec.
  unfold tx_update in Eu. destruct (tx_get ks key (inner tx) t) as [p'|e] eqn:Eg; [|done]. injection Eu as Eb' <- <-.
  apply tx_get_view in Eg as Hp; [|done]. unfold tx_view in Hp. rewrite own_value_empty in Hp by done. fold prev in Hp. subst p'.
  split; [done|]. split; [by apply Hwf'|]. split; [by apply Hrec|]. rewrite Eb in *.
  pose proof (write_committed ks key) as Hwrite.
  destruct (f prev) as [value|] eqn:Ef.
  - destruct (decide (prev = Some value)) as [E|E]; subst b.
    + split; [done|]. split; [done|]. left. by split.
    + destruct (Hwrite value Value (inner tx) ltac:(done) (otx_inner _ Hwf) Hs Hm) as (? & ? & ?). split; [done|]. split; [done|]. by right.
  - destruct prev as [v|]; subst b.
    + destruct (Hwrite [] Tombstone (inner tx) ltac:(done) (otx_inner _ Hwf) Hs Hm) as (? & ? & ?). split; [done|]. split; [done|]. by right.
    + split; [done|]. split; [done|]. by left.
Qed.

Lemma update_fits op ks key f new (t : T) (tx tx' : Tx) r :
  update_of op = Some (ks, key, f, new) -> op_fits (base_op op) -> otx_wf tx -> leads_to (inner tx) (tx_keyspace (base_op op)) -> tx_seqno (inner tx) < u64_max ->
  tx_fits (inner tx) -> run_otx op t tx = (tx', r) -> tx_fits (inner tx').
Proof.
  intros Hop Hf Hwf Hag Hs Hfit Hrun. destruct (run_otx_records op t tx tx' r Hwf Hag Hs Hrun) as (Hbase & _).
  destruct op as [| | | |ks0 key0 f0|ks0 key0 f0]; simplify_eq/=; destruct Hf as [Hk Hf]; unfold tx_update_fetch, tx_fetch_update in Hbase;
    destruct (tx_update ks key f (inner tx) t) as [b r1] eqn:Eu; injection Hbase as <- _;
    (eapply tx_update_fits; [exact Hk|exact Hf|apply Hwf|exact Hfit|exact Eu]).
Qed.

(** What [spec_tx] says of them. *)
Lemma update_spec op ks key f new (s : ODb) :
  update_of op = Some (ks, key, f, new) ->
  (spec_tx ks_id (base_op op) (contents s)).2 = (if new then f (contents s ks key) else contents s ks key) /\
  forall ks' key', (spec_tx ks_id (base_op op) (contents s)).1 ks' key' =
    if decide (ks_id ks' = ks_id ks /\ key' = key) then f (contents s ks key) else contents s ks' key'.
Proof.
  intros Hop. assert (forall ks' key', view_update ks_id (contents s) ks key (f (contents s ks key)) ks' key' =
    if decide (ks_id ks' = ks_id ks /\ key' = key) then f (contents s ks key) else contents s ks' key') as Hv.
  { intros ks' key'. rewrite view_update_set by apply cur_view_id. done. }
  by destruct op; simplify_eq/=.
Qed.

(** *** Opening *)

Lemma write_tx_fresh (s s1 : ODb) (tx : Tx) :
  write_tx manual s = (s1, tx) ->
  otx_wf tx /\ memtables (inner tx) = ∅ /\ tx_seqno (inner tx) = 2 ^ 63 /\ cm tx = cm_default /\
  tx_instant (inner tx) = seqno (db_tracker (inner_db s)) /\ db_trees (inner_db s1) = db_trees (inner_db s) /\
  committed_txns s1 = committed_txns s /\ db_seqno (inner_db s1) = db_seqno (inner_db s) /\
  seqno (db_tracker (inner_db s1)) = seqno (db_tracker (inner_db s)).
Proof.
  intros E. pose proof (write_tx_wf (M := M) manual s) as Hwf. rewrite E in Hwf. cbn [snd] in Hwf.
  unfold write_tx in E. cbn [tracker_open] in E. injection E as <- <-. by destruct manual.
Qed.

(** *** Blind writes *)

Definition run_blind (others : nat -> ODb -> ODb) (op : OtxOp) (s : ODb) : option (ODb * Result ()) :=
  match op with
  | OInsert ks key value => oks_insert order tables manual others ks key value s
  | ORemove ks key => oks_remove order tables manual others ks key s
  | ORemoveWeak ks key => oks_remove_weak order tables manual others ks key s
  | _ => Some (s, Ok ())
  end.

Definition is_blind (op : OtxOp) : bool := match op with OInsert _ _ _ | ORemove _ _ | ORemoveWeak _ _ => true | _ => false end.

Lemma no_reads_no_conflict c entries : reads c = [] -> any_conflict c entries = Some false.
Proof.
  intros Hr. induction entries as [|[ts other] entries IH]; [done|]. cbn [any_conflict]. unfold has_conflict. by rewrite Hr.
Qed.

Lemma blind_tx_write others ks key value vt (s : ODb) :
  vt <> Indirection -> fits key value ->
  let body tx := with_cm (mark_conflict (ks_id ks) key) (with_inner (tx_write ks key value vt (inner tx)) tx) in
  let at_commit := others 0%nat (others 1%nat (write_tx (M := M) manual s).1) in
  exists s' r, blind order tables manual others body s = Some (s', r) /\
    (db_ok (inner_db at_commit) -> db_seqno (inner_db at_commit) < u64_max -> forall ks' key',
      contents s' ks' key' =
      if is_ok r then view_set ks_id (contents at_commit) ks key (if is_tombstone vt then None else Some value) ks' key'
      else contents at_commit ks' key').
Proof.
  intros Hvt Hfit body at_commit. unfold at_commit, blind, attempt. destruct (write_tx manual s) as [s1 tx] eqn:Ew. cbn [fst].
  destruct (write_tx_fresh s s1 tx Ew) as (Hwf & Hm & Hq & Hcm & _). set (sc := others 0%nat (others 1%nat s1)).
  assert (otx_wf (body tx)) as Hwf' by (apply write_otx_wf; [done|done|by apply leads_empty|rewrite Hq; vm_compute; done|apply Hwf|done]).
  assert (tx_fits (inner (body tx))) as Hfit'.
  { apply tx_write_fits; [apply Hwf|done|]. intros id h m i. by rewrite Hm, lookup_empty. }
  destruct (otx_commit_total (body tx) sc (otx_cm _ Hwf') Hfit') as (s' & r & Ec). rewrite Ec. cbn [mbind option_bind].
  assert (r <> Ok Conflict) as Hnc.
  { intros ->. unfold otx_commit in Ec. case_decide; [done|]. unfold with_commit in Ec.
    rewrite no_reads_no_conflict in Ec by (by cbn; rewrite Hcm). cbn [mbind option_bind] in Ec.
    destruct (inner_commit _ _ _ _) as [[db2 [[]|e]]|]; done. }
  destruct (write_committed ks key value vt (inner tx) Hvt (otx_inner _ Hwf) ltac:(rewrite Hq; vm_compute; done) Hm) as (_ & _ & Hcom).
  assert (uses (eq ks) (inner (body tx))) as Hu by (by apply uses_write, uses_empty).
  destruct r as [[]|e]; [|done|]; (eexists _, _; split; [done|]); intros Hok Hmax ks' key';
    rewrite (otx_commit_contents _ _ _ _ Hok Hmax (otx_inner _ Hwf') (distinct_one ks _ (otx_inner _ Hwf') Hu) Ec); cbn [is_ok]; [|done].
  cbn [body with_cm with_inner inner]. rewrite Hcom. unfold view_set, same_cell. by repeat case_decide.
Qed.

(** Blind writes of optimistic handles never conflict: whatever other threads do between
    opening and commit, an insert or a removal of a key that fits returns, without the
    panic its [expect] would raise on a conflict, and it changes the contents at its
    commit point like the map operation when it returns [Ok], and not at all otherwise. *)
Theorem blind_never_conflicts others op (s : ODb) :
  is_blind op = true -> op_fits (base_op op) ->
  let at_commit := others 0%nat (others 1%nat (write_tx (M := M) manual s).1) in
  exists s' r, run_blind others op s = Some (s', r) /\
    (db_ok (inner_db at_commit) -> db_seqno (inner_db at_commit) < u64_max -> forall ks key,
      contents s' ks key = if is_ok r then (spec_tx ks_id (base_op op) (contents at_commit)).1 ks key else contents at_commit ks key).
Proof.
  intros Hb Hf. destruct op as [|ks key value|ks key|ks key| |]; try done; cbn [base_op op_fits run_blind spec_tx fst] in *.
  - by apply (blind_tx_write others ks key value Value s).
  - by apply (blind_tx_write others ks key [] Tombstone s).
  - by apply (blind_tx_write others ks key [] WeakTombstone s).
Qed.

(** *** The retry loops *)

(** What the rest of the system may do to the database between two steps of a round. *)
Definition grows (s s' : ODb) : Prop :=
  exists l, versions (db_trees (inner_db s')) = l ++ versions (db_trees (inner_db s)) /\
    forall v, v ∈ l -> seqno (db_tracker (inner_db s)) <= v_seqno v.

Lemma grows_get (s s' : ODb) ks key :
  grows s s' ->
  snapshot_get (versions (db_trees (inner_db s'))) ks key (seqno (db_tracker (inner_db s))) =
  snapshot_get (versions (db_trees (inner_db s))) ks key (seqno (db_tracker (inner_db s))).
Proof.
  intros (l & -> & Hl). unfold snapshot_get. rewrite newest_app_skip; [done|]. intros v Hv _ Hlt. specialize (Hl v Hv). lia.
Qed.

(** A round opened at [sa], in which the others leave [sb] before the body and [sc] before
    the commit: they only add versions above the snapshot, keep the oracle's log, and the
    snapshot is not collected. *)
Record undisturbed (start : Z) (ks : Keyspace) (sa sb sc : ODb) : Prop := {
  ud_ok : db_ok (inner_db sa);
  ud_bound : start <= seqno (db_tracker (inner_db sa)) <= u64_max;
  ud_before : grows sa sb;
  ud_after : grows sa sc;
  ud_readable : readable_from (db_trees (inner_db sb)) (ks_id ks) <= seqno (db_tracker (inner_db sa));
  ud_log : opt_inv start sc;
  ud_room : db_seqno (inner_db sc) < u64_max;
  ud_kept : get_seqno_safe_to_gc (db_tracker (inner_db sc)) <= seqno (db_tracker (inner_db sa))
}.

(** The operation happened at the commit, or it changed nothing and happened at the
    opening. *)
Definition linearized (op : OtxOp) (sa sc s' : ODb) (a : option bytes) : Prop :=
  (a = (spec_tx ks_id (base_op op) (contents sc)).2 /\
   forall ks' key', contents s' ks' key' = (spec_tx ks_id (base_op op) (contents sc)).1 ks' key') \/
  (a = (spec_tx ks_id (base_op op) (contents sa)).2 /\
   forall ks' key', (spec_tx ks_id (base_op op) (contents sa)).1 ks' key' = contents sa ks' key' /\ contents s' ks' key' = contents sc ks' key').

Lemma attempt_linearizes start op ks key f new before after (sa s' : ODb) a :
  let sb := before (write_tx (M := M) manual sa).1 in
  let sc := after sb in
  update_of op = Some (ks, key, f, new) -> undisturbed start ks sa sb sc ->
  attempt order tables manual before after (run_otx op) sa = Some (s', Ok (a, Committed)) -> linearized op sa sc s' a.
Proof.
  intros sb sc Hop [Hoka [Hst Hle] Hb Hc Hr Hinv Hmax Hw]. unfold attempt, sc, sb in *. clear sb sc.
  destruct (write_tx manual sa) as [s1 tx] eqn:Ew. cbn [fst] in *. set (sb := before s1) in *. set (sc := after sb) in *.
  destruct (write_tx_fresh sa s1 tx Ew) as (Hwf & Hm & Hq & Hcm & Hi & _).
  destruct (run_otx op (db_trees (inner_db sb)) tx) as [tx' [a'|e]] eqn:Eb; [|done].
  destruct (otx_commit order (tables tx') tx' sc) as [[s2 [[]|]]|] eqn:Ec; try done. cbn [mbind option_bind]. intros [= <- <-].
  destruct (update_run op ks key f new _ tx tx' a' Hop Hwf ltac:(rewrite Hq; vm_compute; done) Hm ltac:(by rewrite Hi) Eb)
    as (Ha & Hwf' & (r & Hrin & Hcov) & Hi' & Hu & Hcase).
  rewrite Hi, (grows_get sa sb) in Ha, Hcase by done.
  pose proof (visible_current (inner_db sa) (ks_id ks) key Hoka Hle) as Hcur. rewrite Hcur in Ha, Hcase.
  pose proof (otx_commit_contents tx' sc s2 _ (opt_db_ok start sc Hinv) Hmax (otx_inner _ Hwf') (distinct_one ks _ (otx_inner _ Hwf') Hu) Ec) as Hcont.
  unfold linearized. destruct (update_spec op ks key f new sc Hop) as [E2 E1]. destruct (update_spec op ks key f new sa Hop) as [F2 F1].
  destruct Hcase as [[Hm' Hf]|[Hm' Hown]].
  - right. split; [by rewrite F2|]. intros ks' key'. rewrite F1. split; [|by rewrite Hcont, committed_empty].
    case_decide as E; [|done]. destruct E as [E ->]. unfold contents, cur_view. by rewrite E, Hf.
  - left. assert (contents sc ks key = current (inner_db sa) (ks_id ks) key) as Hsame.
    { unfold contents, cur_view. rewrite <- Hcur, <- (grows_get sa sc) by done.
      unfold current, snapshot_get. f_equal. symmetry. rewrite <- Hi, <- Hi'.
      unfold otx_commit in Ec. rewrite decide_False in Ec by done. unfold with_commit in Ec.
      destruct (any_conflict _ _) as [[]|] eqn:Ea; [done| |done].
      apply (validated_reads start sc tx' Hinv Hwf' ltac:(by rewrite Hi', Hi) ltac:(by rewrite Hi', Hi) Ea (ks_id ks) r key u64_max Hrin Hcov).
      by rewrite Hi', Hi. }
    rewrite E2, Hsame. split; [exact Ha|]. intros ks' key'. rewrite E1, Hcont, Hown, Hsame. by repeat case_decide.
Qed.

Definition run_update (fuel : nat) (others : nat -> ODb -> ODb) (op : OtxOp) (s : ODb) : LoopResult ODb (option bytes) :=
  match op with
  | OUpdateFetch ks key f => oks_update_fetch order tables manual fuel others ks key f s
  | OFetchUpdate ks key f => oks_fetch_update order tables manual fuel others ks key f s
  | _ => Retrying s
  end.

Lemma run_update_retry fuel others op ks key f new (s : ODb) :
  update_of op = Some (ks, key, f, new) -> run_update fuel others op s = retry order tables manual fuel others (run_otx op) s.
Proof. by destruct op. Qed.

(** The rounds of a loop, the last one first: their number and the state they open the
    transaction in. *)
Fixpoint rounds {A} (fuel : nat) (others : nat -> ODb -> ODb) (body : T -> Tx -> Tx * Result A) (s : ODb) : list (nat * ODb) :=
  match fuel with
  | O => []
  | S fuel =>
      match attempt order tables manual (others (2 * fuel + 1)%nat) (others (2 * fuel)%nat) body s with
      | Some (s1, Ok (_, Conflict)) => rounds fuel others body s1 ++ [(fuel, s)]
      | _ => [(fuel, s)]
      end
  end.

Lemma retry_last_round {A} fuel others (body : T -> Tx -> Tx * Result A) (s s' : ODb) a :
  retry order tables manual fuel others body s = Returned s' (Ok a) ->
  exists k sa, head (rounds fuel others body s) = Some (k, sa) /\
    attempt order tables manual (others (2 * k + 1)%nat) (others (2 * k)%nat) body sa = Some (s', Ok (a, Committed)).
Proof.
  revert s. induction fuel as [|fuel IH]; intros s; cbn [retry rounds]; [done|].
  destruct (attempt _ _ _ _ _ _ s) as [[s1 [[a1 []]|e]]|] eqn:E; try done.
  - intros [= -> ->]. by exists fuel, s.
  - intros Hr. destruct (IH s1 Hr) as (k & sa & Hl & Ha). exists k, sa. split; [|done].
    by destruct (rounds fuel others body s1).
Qed.

(** C31: The retry loops of optimistic handles are linearizable. In the round that commits,
    the other threads may add versions above the snapshot and commit, as long as the oracle
    keeps its log and the watermark does not pass the snapshot; what they do in the other
    rounds does not matter. When the loop returns [Ok], result and new contents are those of
    the map operation on the contents at the commit of that round, or, when the operation
    found nothing to change, on the contents at its opening, which it leaves as they are. *)
Theorem update_linearizable start fuel others op ks key f new (s s' : ODb) a :
  update_of op = Some (ks, key, f, new) ->
  (forall k sa, head (rounds fuel others (run_otx op) s) = Some (k, sa) ->
     let sb := others (2 * k + 1)%nat (write_tx (M := M) manual sa).1 in
     undisturbed start ks sa sb (others (2 * k)%nat sb)) ->
  run_update fuel others op s = Returned s' (Ok a) ->
  exists k sa, head (rounds fuel others (run_otx op) s) = Some (k, sa) /\
    linearized op sa (others (2 * k)%nat (others (2 * k + 1)%nat (write_tx (M := M) manual sa).1)) s' a.
Proof.
  intros Hop Hud Hrun. rewrite (run_update_retry _ _ op ks key f new s Hop) in Hrun.
  destruct (retry_last_round _ _ _ _ _ _ Hrun) as (k & sa & Hl & E). exists k, sa. split; [exact Hl|].
  eapply attempt_linearizes; [exact Hop|by apply Hud|exact E].
Qed.

(** Without interference the first round is the last: a read-modify-write of a key that
    fits returns at once, with the result and the effect of the map operation on the
    contents, or with an error and no effect. *)
Theorem update_uncontended start fuel op ks key f new (s : ODb) :
  update_of op = Some (ks, key, f, new) -> op_fits (base_op op) -> opt_inv start s -> db_seqno (inner_db s) < u64_max ->
  readable_from (db_trees (inner_db s)) (ks_id ks) <= seqno (db_tracker (inner_db s)) ->
  exists s' r, run_update (S fuel) (fun _ s => s) op s = Returned s' r /\
    (forall a, r = Ok a -> a = (spec_tx ks_id (base_op op) (contents s)).2) /\
    forall ks' key', contents s' ks' key' = if is_ok r then (spec_tx ks_id (base_op op) (contents s)).1 ks' key' else contents s ks' key'.
Proof.
  intros Hop Hfit Hinv Hmax Hr. rewrite (run_update_retry _ _ op ks key f new s Hop). cbn [retry]. unfold attempt.
  destruct (write_tx manual s) as [s1 tx] eqn:Ew.
  destruct (write_tx_fresh s s1 tx Ew) as (Hwf & Hm & Hq & Hcm & Hi & Ht & Hlog & Hseq & Hvis). rewrite Ht.
  pose proof (opt_db_ok start s Hinv) as Hok. assert (db_ok (inner_db s1)) as Hok1.
  { destruct Hok as [O1 O2]. split; rewrite ?Ht, ?Hvis, ?Hseq; done. }
  assert (forall ks' key', contents s1 ks' key' = contents s ks' key') as Hc1 by (intros; unfold contents, cur_view, current; by rewrite Ht).
  destruct (run_otx op (db_trees (inner_db s)) tx) as [tx' [a|e]] eqn:Eb.
  2:{ eexists _, _. split; [done|]. split; [done|]. intros ks' key'. apply Hc1. }
  destruct (update_run op ks key f new _ tx tx' a Hop Hwf ltac:(rewrite Hq; vm_compute; done) Hm ltac:(by rewrite Hi) Eb)
    as (Ha & Hwf' & _ & Hi' & Hu & Hcase).
  rewrite Hi, (visible_current (inner_db s) (ks_id ks) key Hok) in Ha, Hcase by (destruct Hok; lia).
  assert (tx_fits (inner tx')) as Hfit'.
  { apply (update_fits op ks key f new (db_trees (inner_db s)) tx tx' (Ok a)); try done; [by apply leads_empty|rewrite Hq; vm_compute; done|].
    intros id h m i. by rewrite Hm, lookup_empty. }
  destruct (otx_commit_total tx' s1 (otx_cm _ Hwf') Hfit') as (s2 & r & Ec). rewrite Ec. cbn [mbind option_bind].
  assert (r <> Ok Conflict) as Hnc.
  { intros ->. unfold otx_commit in Ec. case_decide; [done|]. unfold with_commit in Ec.
    assert (bt_range_from (tx_instant (inner tx') + 1) (committed_txns s1) = []) as E.
    { rewrite Hlog, Hi', Hi. apply elem_of_nil_inv. intros [ts c] [Hts Hin]%list_elem_of_filter. cbn in Hts.
      pose proof (oi_below start s Hinv ts c Hin). lia. }
    rewrite E in Ec. cbn [any_conflict mbind option_bind] in Ec. destruct (inner_commit _ _ _ _) as [[db2 [[]|e]]|]; done. }
  pose proof (otx_commit_contents tx' s1 s2 _ Hok1 ltac:(lia) (otx_inner _ Hwf') (distinct_one ks _ (otx_inner _ Hwf') Hu) Ec) as Hcont.
  destruct (update_spec op ks key f new s Hop) as [E2 E1].
  destruct r as [[]|e]; [|done|]; (eexists _, _; split; [done|]); (split; [by rewrite E2; intros ? [= <-]|]); intros ks' key'; rewrite Hcont; cbn [is_ok]; [|apply Hc1].
  rewrite E1. destruct Hcase as [[Hm' Hf]|[_ Hown]].
  - rewrite committed_empty by done. case_decide as E; [|apply Hc1]. destruct E as [E ->]. unfold contents, cur_view in *. by rewrite Hf, <- Hc1, E.
  - rewrite Hown. repeat case_decide; [done..|apply Hc1].
Qed.
End optimistic.
End theory.

(** ** Samples *)

Abbreviation SampleBase := (BaseTransaction (list MItem)).
Definition sw_tables (tx : SampleBase) : list (str * (Keyspace * list MItem)) := map_to_list (memtables tx).
Definition otx_tables (tx : SampleTx) : list (str * (Keyspace * list MItem)) := map_to_list (memtables (inner tx)).

(** Appending to a value, up to a length. *)
Definition append_x (o : option bytes) : option bytes := Some (take 10 (Byte.x78 :: default [] o)).

Lemma fits_key_a v : (length v <= 10)%nat -> fits key_a v.
Proof. intros Hv. split_and!; [done|vm_compute; done|]. unfold u32_max. lia. Qed.

Lemma append_x_fits : op_fits (TFetchUpdate sample_keyspace key_a append_x).
Proof.
  split; [apply fits_key_a; simpl; lia|]. intros o v Hv. unfold append_x in Hv.
  assert (v = take 10 (Byte.x78 :: default [] o)) as -> by congruence. apply fits_key_a. rewrite length_take. lia.
Qed.

Lemma readable_hist (db : Database history) : 0 <= seqno (db_tracker db) -> readable db.
Proof. by intros ? ks. Qed.

Lemma single_writer_refines_witness :
  exists db r, run_sw no_order sw_tables false (TFetchUpdate sample_keyspace key_a append_x) (sample_db []) = Some (db, r) /\
    (is_ok r = true -> cur_view db sample_keyspace key_a = Some [Byte.x78]).
Proof.
  destruct (single_writer_refines no_order sw_tables false (fun tx => Permutation_refl _) (TFetchUpdate sample_keyspace key_a append_x)
    (sample_db []) append_x_fits (sample_db_ok []) ltac:(vm_compute; done) ltac:(apply readable_hist; vm_compute; done)) as (db & r & E & _ & _ & Hv).
  exists db, r. split; [exact E|]. intros Hr. rewrite Hv, Hr. vm_compute. reflexivity.
Defined.

Lemma single_writer_serial_witness :
  exists db r, sw_with_tx no_order sw_tables false
      (run_txs [TInsert sample_keyspace key_a [Byte.x31]; TFetchUpdate sample_keyspace key_a append_x]) (sample_db []) = Some (db, r) /\
    (forall os, r = Ok os -> os = [None; Some [Byte.x31]]).
Proof.
  destruct (single_writer_serial no_order sw_tables false (fun tx => Permutation_refl _)
    (eq sample_keyspace) [TInsert sample_keyspace key_a [Byte.x31]; TFetchUpdate sample_keyspace key_a append_x] (sample_db [])
    (consistent_one _) ltac:(repeat constructor) ltac:(constructor; [apply fits_key_a; simpl; lia|constructor; [apply append_x_fits|constructor]]) ltac:(vm_compute; done) (sample_db_ok [])
    ltac:(vm_compute; done) ltac:(apply readable_hist; vm_compute; done)) as (db & r & E & _ & Hr & _).
  exists db, r. split; [exact E|exact Hr].
Defined.

(** Another thread inserts the same key between opening and commit. *)
Definition busy (n : nat) (s : OptimisticDb history) : OptimisticDb history :=
  match blind_write key_a s with Some (s, _) => s | None => s end.

Lemma blind_never_conflicts_witness :
  exists s' r, run_blind no_order otx_tables true busy (OInsert sample_keyspace key_a [Byte.x31]) sample_opt = Some (s', r).
Proof.
  destruct (blind_never_conflicts no_order otx_tables true (fun tx => Permutation_refl _) busy (OInsert sample_keyspace key_a [Byte.x31])
    sample_opt eq_refl ltac:(apply fits_key_a; simpl; lia)) as (s' & r & E & _).
  exists s', r. exact E.
Defined.

Lemma update_uncontended_witness :
  exists s' r, run_update no_order otx_tables true 1 (fun _ s => s) (OFetchUpdate sample_keyspace key_a append_x) sample_opt = Returned s' r /\
    (forall a, r = Ok a -> a = None).
Proof.
  destruct (update_uncontended no_order otx_tables true (fun tx => Permutation_refl _) 1 0 (OFetchUpdate sample_keyspace key_a append_x)
    sample_keyspace key_a append_x false sample_opt eq_refl append_x_fits sample_opt_inv ltac:(vm_compute; done) ltac:(vm_compute; done))
    as (s' & r & E & Ha & _).
  exists s', r. split; [exact E|exact Ha].
Defined.

(** The other thread interferes with the first of two rounds. *)
Definition busy_once (n : nat) (s : OptimisticDb history) : OptimisticDb history := if decide (n = 2%nat) then busy n s else s.
Definition contended : LoopResult (OptimisticDb history) (option bytes) :=
  run_update no_order otx_tables true 2 busy_once (OFetchUpdate sample_keyspace key_a append_x) sample_opt.

(** The round that commits opens its transaction behind the commit of the other thread. *)
Definition contended_rounds := rounds no_order otx_tables true 2 busy_once (run_otx (OFetchUpdate sample_keyspace key_a append_x)) sample_opt.

Lemma contended_undisturbed k sa :
  head contended_rounds = Some (k, sa) ->
  let sb := busy_once (2 * k + 1) (write_tx (M := list MItem) true sa).1 in undisturbed 1 sample_keyspace sa sb (busy_once (2 * k) sb).
Proof.
  intros E.
  assert ((fun p : nat * OptimisticDb history => (p.1, db_trees (inner_db p.2), db_seqno (inner_db p.2), seqno (db_tracker (inner_db p.2)),
      get_seqno_safe_to_gc (db_tracker (inner_db p.2)))) <$> head contended_rounds = Some (0%nat, [mkVersion 1 key_a 1 Value [Byte.x31]], 2, 2, 0)) as Hs
    by (vm_compute; reflexivity).
  assert ((fun p : nat * OptimisticDb history => (fun e => (e.1, bool_decide (key_a ∈ writes_of e.2 1))) <$> committed_txns p.2) <$> head contended_rounds
      = Some [(2, true)]) as Hl by (vm_compute; reflexivity).
  rewrite E in Hs, Hl. clear E. injection Hs as -> Ht Hq Hv Hw. injection Hl as Hl. change (busy_once (2 * 0 + 1)) with (fun s : OptimisticDb history => s).
  change (busy_once (2 * 0)) with (fun s : OptimisticDb history => s). cbv beta zeta. destruct sa as [db log]. cbn [inner_db committed_txns] in *.
  destruct log as [|[ts c] [|]]; [done| |done]. injection Hl as -> Hc%bool_decide_eq_true.
  assert (forall v, v ∈ versions (db_trees db) -> v = mkVersion 1 key_a 1 Value [Byte.x31]) as Hin by (rewrite Ht; intros v ->%list_elem_of_singleton; done).
  unfold write_tx. cbn [tracker_open inner_db]. constructor; cbn [inner_db fst with_tracker db_trees db_tracker db_seqno] in *.
  - split; [intros v ->%Hin; rewrite Hv; done|by rewrite Hv, Hq].
  - rewrite Hv. by split; vm_compute.
  - exists []. split; [done|]. by intros v ?%elem_of_nil.
  - exists []. split; [done|]. by intros v ?%elem_of_nil.
  - rewrite Hv. vm_compute. done.
  - constructor; cbn [committed_txns inner_db with_tracker db_tracker db_trees db_seqno]; change (seqno (open_at ?i ?t)) with (seqno t).
    + repeat constructor.
    + intros ts' c' [= -> ->]%list_elem_of_singleton. lia.
    + lia.
    + intros v ->%Hin. cbn. lia.
    + intros v ->%Hin _ _. exists 2, c. split; [left|]. split; [done|exact Hc].
  - rewrite Hq. done.
  - rewrite Hv. unfold get_seqno_safe_to_gc in *. cbn in *. lia.
Qed.

(** The value the loop returns, and the contents, are those at the commit of the second
    round: the other thread's value, with one byte in front of it. *)
Lemma update_linearizable_witness :
  exists s' a, contended = Returned s' (Ok a) /\ a = Some [Byte.x31] /\
    exists k sa, head contended_rounds = Some (k, sa) /\
      linearized (OFetchUpdate sample_keyspace key_a append_x) sa
        (busy_once (2 * k) (busy_once (2 * k + 1) (write_tx (M := list MItem) true sa).1)) s' a.
Proof.
  assert (match contended with Returned _ (Ok a) => a | _ => None end = Some [Byte.x31]) as Hc by (vm_compute; reflexivity).
  destruct contended as [s' r|s'|] eqn:E; [|done|done]. destruct r as [a|e]; [|done]. exists s', a. split; [done|]. split; [exact Hc|].
  exact (update_linearizable no_order otx_tables true (fun tx => Permutation_refl _) 1 2 busy_once (OFetchUpdate sample_keyspace key_a append_x)
    sample_keyspace key_a append_x false sample_opt s' a eq_refl contended_undisturbed E).
Defined.
