(* ===== verification/Readers.v ===== *)
(** * Readers: guards, iterators, snapshots and the reads of keyspaces

    Models [src/src/guard.rs], [src/src/iter.rs], [src/src/snapshot.rs],
    [src/src/snapshot_nonce.rs], the trait of [src/src/readable.rs] with its
    implementations for snapshots and transactions, and the reads of
    [src/src/keyspace/mod.rs].

    Iterators over a tree belong to [lsm_tree]: here they are the list of the guards
    they still have to deliver, from both ends ([ScanOps]). What a guard gives when it
    is opened belongs to the library too ([GuardOps]). *)

From stdpp Require Import base gmap list sorting.
From S2P Require Import Prelude Errors Utf8 Composite Store JournalEntry JournalReader JournalWriter SnapshotTracker BTree ConflictManager Mvcc Db WriteTx Optimistic.

(** ** The library interfaces *)

(** The trait [lsm_tree::Guard] of [IterGuardImpl]: loading a value can fail where
    reading its key does not. *)
Class GuardOps (G : Type) := {
  inner_into_inner_if : (bytes -> bool) -> G -> Result (bytes * option bytes);
  inner_into_inner : G -> Result entry;
  inner_key : G -> Result bytes;
  inner_size : G -> Result Z;
  inner_value : G -> Result bytes
}.

(** Ordered reads of a tree at an instant, merged with an ephemeral memtable. *)
Class ScanOps (T M G : Type) := {
  tree_iter : Z -> Z -> option (M * Z) -> T -> list G;
  tree_scan : Z -> key_range -> Z -> option (M * Z) -> T -> list G;
  tree_prefix : Z -> bytes -> Z -> option (M * Z) -> T -> list G;
  tree_first_key_value : Z -> Z -> option (M * Z) -> T -> option G;
  tree_last_key_value : Z -> Z -> option (M * Z) -> T -> option G;
  tree_is_empty : Z -> Z -> option (M * Z) -> T -> Result bool
}.

(** ** Guards *)

Record Guard (G : Type) := mkGuard { guard_inner : G }.
Arguments mkGuard {G}.
Arguments guard_inner {G}.

Section guards.
Context {G : Type} `{!GuardOps G}.

Definition into_inner_if (pred : bytes -> bool) (g : Guard G) : Result (bytes * option bytes) := inner_into_inner_if pred (guard_inner g).
Definition into_inner (g : Guard G) : Result entry := inner_into_inner (guard_inner g).
Definition guard_key (g : Guard G) : Result bytes := inner_key (guard_inner g).
Definition guard_size (g : Guard G) : Result Z := inner_size (guard_inner g).
Definition guard_value (g : Guard G) : Result bytes := inner_value (guard_inner g).
End guards.

(** ** Iterators *)

(** The nonce is the instant whose snapshot the iterator keeps open. *)
Record Iter (G : Type) := mkIter { iter_items : list G; iter_nonce : Z }.
Arguments mkIter {G}.
Arguments iter_items {G}.
Arguments iter_nonce {G}.

Definition iter_new {G} (nonce : Z) (items : list G) : Iter G := mkIter items nonce.

Definition iter_next {G} (it : Iter G) : Iter G * option (Guard G) :=
  (mkIter (tail (iter_items it)) (iter_nonce it), mkGuard <$> head (iter_items it)).

Definition iter_next_back {G} (it : Iter G) : Iter G * option (Guard G) :=
  (mkIter (take (length (iter_items it) - 1) (iter_items it)) (iter_nonce it), mkGuard <$> last (iter_items it)).

(** [for guard in iter { let _ = guard.key()?; count += 1; }]. *)
Fixpoint count_keys {G} `{!GuardOps G} (items : list G) (count : nat) : Result nat :=
  match items with
  | [] => Ok count
  | g :: items =>
      match guard_key (mkGuard g) with
      | Ok _ => count_keys items (S count)
      | Err e => Err e
      end
  end.

Section readers.
Context `{JournalCodec} {T M G : Type} `{!TreeOps T, !MemtableOps M, !TreeReads T M, !PrefixRange, !GuardOps G, !ScanOps T M G}.
(** The order in which a collection visits the snapshots. *)
Context (order : SnapshotTracker -> list (Z * nat)).

Abbreviation Db := (Database T).

(** ** Nonces *)

(** [SnapshotTracker::open], [clone] and [drop] of a nonce, on the tracker of the
    database. *)
Definition nonce_open (db : Db) : Db * Z :=
  let '(tracker, instant) := tracker_open (db_tracker db) in (with_tracker (fun _ => tracker) db, instant).
Definition nonce_clone (instant : Z) (db : Db) : Db * Z :=
  let '(tracker, instant) := clone_snapshot instant (db_tracker db) in (with_tracker (fun _ => tracker) db, instant).
Definition nonce_drop (instant : Z) (db : Db) : Db := drop_nonce order instant db.

Definition iter_drop (it : Iter G) (db : Db) : Db := nonce_drop (iter_nonce it) db.

(** [iter.next()] and [iter.next_back()] of an iterator that is dropped right after. *)
Definition first_of (p : Db * Iter G) : Db * option (Guard G) :=
  let '(db, it) := p in let '(it, g) := iter_next it in (iter_drop it db, g).
Definition last_of (p : Db * Iter G) : Db * option (Guard G) :=
  let '(db, it) := p in let '(it, g) := iter_next_back it in (iter_drop it db, g).
Definition len_of (p : Db * Iter G) : Db * Result nat :=
  let '(db, it) := p in (iter_drop it db, count_keys (iter_items it) 0).

(** ** The trait [Readable]

    A reader may record what is read ([X] is threaded); an iterator holds a snapshot of
    its own, so making one changes the tracker of the database. *)

Class Readable (X : Type) := {
  reader_get : Keyspace -> bytes -> X -> Db -> X * Result (option bytes);
  reader_contains_key : Keyspace -> bytes -> X -> Db -> X * Result bool;
  reader_size_of : Keyspace -> bytes -> X -> Db -> X * Result (option Z);
  reader_first_key_value : Keyspace -> X -> Db -> X * (Db * option (Guard G));
  reader_last_key_value : Keyspace -> X -> Db -> X * (Db * option (Guard G));
  reader_iter : Keyspace -> X -> Db -> X * (Db * Iter G);
  reader_range : Keyspace -> key_range -> X -> Db -> X * (Db * Iter G);
  reader_prefix : Keyspace -> bytes -> X -> Db -> X * (Db * Iter G)
}.

(** The provided methods. *)
Definition reader_is_empty `{!Readable X} (ks : Keyspace) (x : X) (db : Db) : X * (Db * Result bool) :=
  let '(x, (db, g)) := reader_first_key_value ks x db in
  (x, (db, match guard_key <$> g with
           | None => Ok true
           | Some (Ok _) => Ok false
           | Some (Err e) => Err e
           end)).

Definition reader_len `{!Readable X} (ks : Keyspace) (x : X) (db : Db) : X * (Db * Result nat) :=
  let '(x, p) := reader_iter ks x db in (x, len_of p).

(** ** Snapshots *)

Record Snapshot := mkSnapshot { snap_nonce : Z }.

(** [Database::snapshot], and [read_tx] of the transactional databases. *)
Definition db_snapshot (db : Db) : Db * Snapshot := let '(db, nonce) := nonce_open db in (db, mkSnapshot nonce).

Definition snap_get (ks : Keyspace) (key : bytes) (s : Snapshot) (db : Db) : Result (option bytes) :=
  tree_get (ks_id ks) key (snap_nonce s) (db_trees db).
Definition snap_contains_key (ks : Keyspace) (key : bytes) (s : Snapshot) (db : Db) : Result bool :=
  tree_contains_key (ks_id ks) key (snap_nonce s) (db_trees db).
Definition snap_size_of (ks : Keyspace) (key : bytes) (s : Snapshot) (db : Db) : Result (option Z) :=
  tree_size_of (ks_id ks) key (snap_nonce s) (db_trees db).

(** [Iter::new(self.nonce.clone(), iter)]. *)
Definition held_iter (instant : Z) (items : list G) (db : Db) : Db * Iter G :=
  let '(db, nonce) := nonce_clone instant db in (db, iter_new nonce items).

Definition snap_iter (ks : Keyspace) (s : Snapshot) (db : Db) : Db * Iter G :=
  held_iter (snap_nonce s) (tree_iter (M := M) (ks_id ks) (snap_nonce s) None (db_trees db)) db.
Definition snap_range (ks : Keyspace) (r : key_range) (s : Snapshot) (db : Db) : Db * Iter G :=
  held_iter (snap_nonce s) (tree_scan (M := M) (ks_id ks) r (snap_nonce s) None (db_trees db)) db.
Definition snap_prefix (ks : Keyspace) (prefix : bytes) (s : Snapshot) (db : Db) : Db * Iter G :=
  held_iter (snap_nonce s) (tree_prefix (M := M) (ks_id ks) prefix (snap_nonce s) None (db_trees db)) db.

#[global] Instance snapshot_readable : Readable Snapshot := {|
  reader_get ks key s db := (s, snap_get ks key s db);
  reader_contains_key ks key s db := (s, snap_contains_key ks key s db);
  reader_size_of ks key s db := (s, snap_size_of ks key s db);
  reader_first_key_value ks s db := (s, first_of (snap_iter ks s db));
  reader_last_key_value ks s db := (s, last_of (snap_iter ks s db));
  reader_iter ks s db := (s, snap_iter ks s db);
  reader_range ks r s db := (s, snap_range ks r s db);
  reader_prefix ks prefix s db := (s, snap_prefix ks prefix s db)
|}.

(** ** Transactions *)

Abbreviation Base := (BaseTransaction M).

(** The memtable of a keyspace and the sequence number of the transaction. *)
Definition own_memtable (ks : Keyspace) (tx : Base) : option (M * Z) :=
  (fun km => (km.2, tx_seqno tx)) <$> memtables tx !! keyspace_key ks.

Definition base_iter (ks : Keyspace) (tx : Base) (db : Db) : Db * Iter G :=
  held_iter (tx_instant tx) (tree_iter (ks_id ks) (tx_instant tx) (own_memtable ks tx) (db_trees db)) db.
Definition base_range (ks : Keyspace) (r : key_range) (tx : Base) (db : Db) : Db * Iter G :=
  held_iter (tx_instant tx) (tree_scan (ks_id ks) r (tx_instant tx) (own_memtable ks tx) (db_trees db)) db.
Definition base_prefix (ks : Keyspace) (prefix : bytes) (tx : Base) (db : Db) : Db * Iter G :=
  held_iter (tx_instant tx) (tree_prefix (ks_id ks) prefix (tx_instant tx) (own_memtable ks tx) (db_trees db)) db.

#[global] Instance base_readable : Readable Base := {|
  reader_get ks key tx db := (tx, tx_get ks key tx (db_trees db));
  reader_contains_key ks key tx db := (tx, tx_contains_key ks key tx (db_trees db));
  reader_size_of ks key tx db := (tx, tx_size_of ks key tx (db_trees db));
  reader_first_key_value ks tx db := (tx, first_of (base_iter ks tx db));
  reader_last_key_value ks tx db := (tx, last_of (base_iter ks tx db));
  reader_iter ks tx db := (tx, base_iter ks tx db);
  reader_range ks r tx db := (tx, base_range ks r tx db);
  reader_prefix ks prefix tx db := (tx, base_prefix ks prefix tx db)
|}.

(** [WriteTransaction] of the single-writer database: the base transaction under the
    guard of the writer lock. *)
Record SwTransaction := mkSwTransaction { sw_inner : Base }.

Definition sw_forward {A} (f : Base -> Db -> Base * A) (tx : SwTransaction) (db : Db) : SwTransaction * A :=
  let '(b, a) := f (sw_inner tx) db in (mkSwTransaction b, a).

#[global] Instance single_writer_readable : Readable SwTransaction := {|
  reader_get ks key := sw_forward (reader_get ks key);
  reader_contains_key ks key := sw_forward (reader_contains_key ks key);
  reader_size_of ks key := sw_forward (reader_size_of ks key);
  reader_first_key_value ks := sw_forward (reader_first_key_value ks);
  reader_last_key_value ks := sw_forward (reader_last_key_value ks);
  reader_iter ks := sw_forward (reader_iter ks);
  reader_range ks r := sw_forward (reader_range ks r);
  reader_prefix ks prefix := sw_forward (reader_prefix ks prefix)
|}.

(** Its other methods go to the base transaction too. *)
Definition swt_new (nonce : Z) : SwTransaction := mkSwTransaction (tx_new nonce).
Definition swt_durability (mode : option PersistMode) (tx : SwTransaction) : SwTransaction :=
  mkSwTransaction (tx_with_durability mode (sw_inner tx)).
Definition swt_take (ks : Keyspace) (key : bytes) (tx : SwTransaction) (t : T) : SwTransaction * Result (option bytes) :=
  let '(b, r) := tx_take ks key (sw_inner tx) t in (mkSwTransaction b, r).
Definition swt_update_fetch (ks : Keyspace) (key : bytes) (f : option bytes -> option bytes) (tx : SwTransaction) (t : T) :
    SwTransaction * Result (option bytes) :=
  let '(b, r) := tx_update_fetch ks key f (sw_inner tx) t in (mkSwTransaction b, r).
Definition swt_fetch_update (ks : Keyspace) (key : bytes) (f : option bytes -> option bytes) (tx : SwTransaction) (t : T) :
    SwTransaction * Result (option bytes) :=
  let '(b, r) := tx_fetch_update ks key f (sw_inner tx) t in (mkSwTransaction b, r).
Definition swt_insert (ks : Keyspace) (key value : bytes) (tx : SwTransaction) : SwTransaction := mkSwTransaction (tx_insert ks key value (sw_inner tx)).
Definition swt_remove (ks : Keyspace) (key : bytes) (tx : SwTransaction) : SwTransaction := mkSwTransaction (tx_remove ks key (sw_inner tx)).
Definition swt_remove_weak (ks : Keyspace) (key : bytes) (tx : SwTransaction) : SwTransaction := mkSwTransaction (tx_remove_weak ks key (sw_inner tx)).

(** [WriteTransaction] of the optimistic database: what is read is recorded. *)
Abbreviation Otx := (WriteTransaction M).

Definition optimistic_iter (ks : Keyspace) (tx : Otx) (db : Db) : Otx * (Db * Iter G) :=
  let tx := with_cm (mark_range (ks_id ks) Unbounded Unbounded) tx in (tx, base_iter ks (inner tx) db).
Definition optimistic_range (ks : Keyspace) (r : key_range) (tx : Otx) (db : Db) : Otx * (Db * Iter G) :=
  let tx := with_cm (mark_range (ks_id ks) r.1 r.2) tx in (tx, base_range ks r (inner tx) db).

#[global] Instance optimistic_readable : Readable Otx := {|
  reader_get ks key tx db := otx_get ks key (db_trees db) tx;
  reader_contains_key ks key tx db := otx_contains_key ks key (db_trees db) tx;
  reader_size_of ks key tx db := otx_size_of ks key (db_trees db) tx;
  reader_first_key_value ks tx db := let '(tx, p) := optimistic_iter ks tx db in (tx, first_of p);
  reader_last_key_value ks tx db := let '(tx, p) := optimistic_iter ks tx db in (tx, last_of p);
  reader_iter := optimistic_iter;
  reader_range := optimistic_range;
  reader_prefix ks prefix := optimistic_range ks (prefix_to_range prefix)
|}.

(** ** Reads of a keyspace

    Only [iter], and [len] with it, reads at the instant of the snapshot it opens; all
    the others read at the newest instant. *)

Definition keyspace_contains_key (ks : Keyspace) (key : bytes) (db : Db) : Result bool :=
  tree_contains_key (ks_id ks) key u64_max (db_trees db).
Definition keyspace_size_of (ks : Keyspace) (key : bytes) (db : Db) : Result (option Z) :=
  tree_size_of (ks_id ks) key u64_max (db_trees db).

Definition keyspace_iter (ks : Keyspace) (db : Db) : Db * Iter G :=
  let '(db, nonce) := nonce_open db in
  (db, iter_new nonce (tree_iter (M := M) (ks_id ks) nonce None (db_trees db))).
Definition keyspace_range (ks : Keyspace) (r : key_range) (db : Db) : Db * Iter G :=
  let '(db, nonce) := nonce_open db in
  (db, iter_new nonce (tree_scan (M := M) (ks_id ks) r u64_max None (db_trees db))).
Definition keyspace_prefix (ks : Keyspace) (prefix : bytes) (db : Db) : Db * Iter G :=
  let '(db, nonce) := nonce_open db in
  (db, iter_new nonce (tree_prefix (M := M) (ks_id ks) prefix u64_max None (db_trees db))).

Definition keyspace_len (ks : Keyspace) (db : Db) : Db * Result nat := len_of (keyspace_iter ks db).
Definition keyspace_is_empty (ks : Keyspace) (db : Db) : Result bool :=
  tree_is_empty (M := M) (G := G) (ks_id ks) u64_max None (db_trees db).
Definition keyspace_first_key_value (ks : Keyspace) (db : Db) : option (Guard G) :=
  mkGuard <$> tree_first_key_value (M := M) (ks_id ks) u64_max None (db_trees db).
Definition keyspace_last_key_value (ks : Keyspace) (db : Db) : option (Guard G) :=
  mkGuard <$> tree_last_key_value (M := M) (ks_id ks) u64_max None (db_trees db).

(** ** Reads of transactional handles

    Lookups go to the keyspace; the first and the last entry are read in a transaction of
    their own, which ends with the call. *)

Definition read_once {A} (read : Snapshot -> Db -> Snapshot * (Db * A)) (db : Db) : Db * A :=
  let '(db, read_tx) := db_snapshot db in
  let '(read_tx, (db, a)) := read read_tx db in
  (nonce_drop (snap_nonce read_tx) db, a).

(** [SingleWriterTxKeyspace]. *)
Definition sw_get (ks : Keyspace) (key : bytes) (db : Db) : Result (option bytes) := keyspace_get ks key db.
Definition sw_size_of (ks : Keyspace) (key : bytes) (db : Db) : Result (option Z) := keyspace_size_of ks key db.
Definition sw_contains_key (ks : Keyspace) (key : bytes) (db : Db) : Result bool := keyspace_contains_key ks key db.
Definition sw_first_key_value (ks : Keyspace) : Db -> Db * option (Guard G) := read_once (reader_first_key_value ks).
Definition sw_last_key_value (ks : Keyspace) : Db -> Db * option (Guard G) := read_once (reader_last_key_value ks).

(** [OptimisticTxKeyspace]. *)
Definition oks_get (ks : Keyspace) (key : bytes) (db : Db) : Result (option bytes) := keyspace_get ks key db.
Definition oks_size_of (ks : Keyspace) (key : bytes) (db : Db) : Result (option Z) := keyspace_size_of ks key db.
Definition oks_contains_key (ks : Keyspace) (key : bytes) (db : Db) : Result bool := keyspace_contains_key ks key db.
Definition oks_first_key_value (ks : Keyspace) : Db -> Db * option (Guard G) := read_once (reader_first_key_value ks).
Definition oks_last_key_value (ks : Keyspace) : Db -> Db * option (Guard G) := read_once (reader_last_key_value ks).

End readers.
