(* ===== verification/ReadersProps.v ===== *)
(** * Readers show one consistent listing

    Every way to read through a reader (snapshot or transaction) agrees with one ordered
    listing of its view; iterators deliver each entry once from whichever end; readers
    give back the snapshots they hold; a batch is never seen in parts by readers with an
    instant. *)

From stdpp Require Import base gmap list sorting.
From S2P Require Import Prelude Errors Utf8 Composite Store JournalEntry JournalReader JournalWriter SnapshotTracker BTree ConflictManager Mvcc.
From S2P Require Import Db DbProps WriteTx WriteTxProps KeyspaceMap Optimistic OptimisticProps SecureTx TxHandles TxHandlesProps Readers.

(** ** What the library promises *)

(** The entries of a view whose keys satisfy [P], in key order. *)
Definition lists_view (view : bytes -> option bytes) (P : bytes -> bool) (l : list entry) : Prop :=
  StronglySorted key_lt l /\ forall k v, (k, v) ∈ l <-> view k = Some v /\ P k = true.

(** An iteration over [l] that may run into errors: what lies before the first and after
    the last of them is right. *)
Definition both_ends (items : list (option entry)) (l : list entry) : Prop :=
  items = Some <$> l \/
  exists pre mid suf bad, l = pre ++ mid ++ suf /\ items = (Some <$> pre) ++ bad ++ (Some <$> suf) /\
    head bad = Some None /\ last bad = Some None.

Definition all_keys (_ : bytes) : bool := true.
Definition with_prefix (prefix key : bytes) : bool := bool_decide (prefix `prefix_of` key).

Class ScanLaws (T M G : Type) `{!TreeOps T, !TreeLaws T, !MemtableOps M, !TreeReads T M, !GuardOps G, !ScanOps T M G} := {
  (** The entry a guard stands for; none if reading it failed. *)
  guard_of : G -> option entry;
  into_inner_if_law pred g k o : inner_into_inner_if pred g = Ok (k, o) ->
    exists v, guard_of g = Some (k, v) /\ (pred k = true -> o = Some v) /\ forall w, o = Some w -> w = v;
  into_inner_law g e : inner_into_inner g = Ok e -> guard_of g = Some e;
  key_law g k : inner_key g = Ok k -> exists v, guard_of g = Some (k, v);
  size_law g n : inner_size g = Ok n -> exists k v, guard_of g = Some (k, v) /\ n = Z.of_nat (length v);
  value_law g v : inner_value g = Ok v -> exists k, guard_of g = Some (k, v);
  contains_key_law ks key i t b : readable_from t ks <= i -> tree_contains_key ks key i t = Ok b ->
    b = bool_decide (is_Some (snapshot_get (versions t) ks key i));
  size_of_law ks key i t o : readable_from t ks <= i -> tree_size_of ks key i t = Ok o ->
    o = (fun v => Z.of_nat (length v)) <$> snapshot_get (versions t) ks key i;
  iter_law ks i own t : readable_from t ks <= i ->
    exists l, lists_view (merged ks i own t) all_keys l /\ both_ends (guard_of <$> tree_iter ks i own t) l;
  scan_law ks r i own t : readable_from t ks <= i ->
    exists l, lists_view (merged ks i own t) (in_range r) l /\ both_ends (guard_of <$> tree_scan ks r i own t) l;
  prefix_law ks prefix i own t : readable_from t ks <= i ->
    exists l, lists_view (merged ks i own t) (with_prefix prefix) l /\ both_ends (guard_of <$> tree_prefix ks prefix i own t) l;
  first_law ks i own t l : readable_from t ks <= i -> lists_view (merged ks i own t) all_keys l ->
    match tree_first_key_value ks i own t with
    | Some g => guard_of g = None \/ guard_of g = head l
    | None => l = []
    end;
  last_law ks i own t l : readable_from t ks <= i -> lists_view (merged ks i own t) all_keys l ->
    match tree_last_key_value ks i own t with
    | Some g => guard_of g = None \/ guard_of g = last l
    | None => l = []
    end;
  is_empty_law ks i own t l b : readable_from t ks <= i -> lists_view (merged ks i own t) all_keys l ->
    tree_is_empty (G := G) ks i own t = Ok b -> b = bool_decide (l = []);
  (** The results transactions go through are those of opening each guard. *)
  range_results ks r i own t : tree_range ks r i own t = inner_into_inner <$> tree_scan ks r i own t
}.

(** ** Listings *)

Lemma lists_view_unique view P l l' : lists_view view P l -> lists_view view P l' -> l = l'.
Proof. intros [H1 E1] [H2 E2]. apply sorted_elements_unique; [done..|]. intros [k v]. by rewrite E1, E2. Qed.

Lemma lists_view_ext view view' P P' l :
  (forall k, view k = view' k) -> (forall k, P k = P' k) -> lists_view view P l -> lists_view view' P' l.
Proof. intros Hv HP [Hs He]. split; [done|]. intros k v. by rewrite He, Hv, HP. Qed.

Lemma listed_get view l k : lists_view view all_keys l -> forall v, view k = Some v <-> (k, v) ∈ l.
Proof. intros [_ He] v. rewrite He. tauto. Qed.

(** An error at neither end means the ends are right. *)
Lemma both_ends_head items l o : both_ends items l -> head items = Some (Some o) -> head l = Some o.
Proof.
  intros [-> |(pre & mid & suf & bad & -> & -> & Hb & _)].
  - destruct l; [done|]. by intros [= ->].
  - destruct pre; [|by intros [= ->]]. destruct bad as [|b bad]; [done|]. cbn in *. intros [= ->]. congruence.
Qed.

Lemma last_Some_fmap {A} (l : list A) : last (Some <$> l) = Some <$> last l.
Proof. apply fmap_last. Qed.

Lemma both_ends_last items l o : both_ends items l -> last items = Some (Some o) -> last l = Some o.
Proof.
  intros [-> |(pre & mid & suf & bad & -> & -> & _ & Hb)].
  - rewrite last_Some_fmap. destruct (last l); [|done]. by intros [= ->].
  - rewrite !last_app, last_Some_fmap. destruct (last suf); [by intros [= ->]|]. cbn. rewrite Hb. by intros.
Qed.

Lemma both_ends_nil l : both_ends [] l -> l = [].
Proof.
  intros [E|(pre & mid & suf & bad & _ & E & Hb & _)]; [by destruct l|].
  symmetry in E. apply app_nil in E as [_ [-> _]%app_nil]. done.
Qed.

Lemma both_ends_complete items l : both_ends items l -> Forall is_Some items -> items = Some <$> l.
Proof.
  intros [?|(pre & mid & suf & bad & -> & -> & Hb & _)]; [done|]. intros [_ [Hf _]%Forall_app]%Forall_app.
  destruct bad as [|b bad]; [done|]. cbn in Hb. injection Hb as ->. by apply Forall_cons in Hf as [[? ?] _].
Qed.

(** ** Iterators *)

(** A mixture of [next] ([true]) and [next_back]: what came from the front and from the
    back. *)
Fixpoint drain {G} (dirs : list bool) (it : Iter G) : Iter G * list (Guard G) * list (Guard G) :=
  match dirs with
  | [] => (it, [], [])
  | front :: dirs =>
      let '(it, g) := if front : bool then iter_next it else iter_next_back it in
      let '(it, fs, bs) := drain dirs it in
      (it, if front then option_list g ++ fs else fs, if front then bs else option_list g ++ bs)
  end.

Lemma take_last {A} (l : list A) x : last l = Some x -> take (length l - 1) l ++ [x] = l.
Proof.
  intros [l' ->]%last_Some. rewrite length_app, take_app_le by (simpl; lia). simpl. by rewrite take_ge by lia.
Qed.

(** From whichever ends an iterator is drained, nothing is skipped and nothing comes
    twice. *)
Lemma drain_each_once {G} dirs (it : Iter G) it' fs bs :
  drain dirs it = (it', fs, bs) ->
  iter_nonce it' = iter_nonce it /\ fs ++ (mkGuard <$> iter_items it') ++ reverse bs = mkGuard <$> iter_items it.
Proof.
  revert it it' fs bs. induction dirs as [|d dirs IH]; intros [items nonce] it' fs bs; cbn [drain].
  - intros [= <- <- <-]. cbn. by rewrite app_nil_r.
  - destruct d; cbn [iter_next iter_next_back fst snd].
    + destruct (drain dirs _) as [[it1 fs1] bs1] eqn:E. intros [= <- <- <-]. apply IH in E as [Hn E]. split; [done|].
      rewrite <- app_assoc, E. by destruct items.
    + destruct (drain dirs _) as [[it1 fs1] bs1] eqn:E. intros [= <- <- <-]. apply IH in E as [Hn E]. split; [done|].
      cbn [iter_items] in E. rewrite reverse_app. cbn [iter_items]. destruct (last items) as [x|] eqn:El; cbn [option_list fmap option_fmap option_map].
      * change (option_list (Some (mkGuard x))) with [mkGuard x]. rewrite reverse_singleton, !app_assoc, <- (app_assoc fs1), E. change [mkGuard x] with (mkGuard <$> [x]).
        by rewrite <- fmap_app, take_last.
      * change (option_list None) with (@nil (Guard G)). rewrite reverse_nil, app_nil_r, E. apply last_None in El as ->. done.
Qed.

Lemma drain_all {G} dirs (it : Iter G) it' fs bs :
  drain dirs it = (it', fs, bs) -> (length (iter_items it) <= length dirs)%nat -> iter_items it' = [].
Proof.
  revert it it' fs bs. induction dirs as [|d dirs IH]; intros [items nonce] it' fs bs; cbn [drain].
  - intros [= <- <- <-] Hl. destruct items; [done|]. cbn in Hl. lia.
  - destruct (if d then _ else _) as [it0 g] eqn:E0. destruct (drain dirs it0) as [[it1 fs1] bs1] eqn:E. intros [= <- _ _] Hl.
    eapply IH; [exact E|]. destruct d; injection E0 as <- _; cbn [iter_items length] in *; [destruct items; cbn in *; lia|rewrite length_take; lia].
Qed.

(** ** The snapshots readers hold *)

(** How many snapshots are open at an instant. *)
Definition holds (t : SnapshotTracker) (i : Z) : nat := default 0%nat (data t !! i).

Lemma holds_gc order t i : holds (gc order t) i = holds t i.
Proof.
  unfold holds, gc. destruct (foldl _ _ _) as [lo none]. cbn [data].
  rewrite map_lookup_filter. destruct (data t !! i) as [n|] eqn:E; cbn; [|done].
  case_guard as Hg; [done|]. cbn. unfold should_be_retained in Hg. destruct n; [done|]. by rewrite bool_decide_eq_true_2 in Hg by lia.
Qed.

Lemma holds_open t i j : holds (open_at i t) j = ((if decide (i = j) then 1 else 0) + holds t j)%nat.
Proof.
  unfold holds, open_at, count_up. cbn. case_decide as E; [subst|by rewrite lookup_insert_ne]. by rewrite lookup_insert_eq.
Qed.

Lemma holds_close order t i j : holds (close_raw order i t) j = (holds t j - if decide (i = j) then 1 else 0)%nat.
Proof.
  assert (holds (close_count i t).1 j = (holds t j - if decide (i = j) then 1 else 0)%nat) as Hc.
  { unfold holds, close_count. cbn. case_decide as E; [subst; rewrite lookup_alter_eq|rewrite lookup_alter_ne by done; lia].
    destruct (data t !! j); cbn; lia. }
  unfold close_raw. destruct (close_count i t) as [t' [|]]; [|done]. by rewrite holds_gc.
Qed.

(** The same data and journal, and the same snapshots open. *)
Record gives_back {T} (db db' : Database T) : Prop := {
  gb_trees : db_trees db' = db_trees db;
  gb_seqno : db_seqno db' = db_seqno db;
  gb_journal : db_journal db' = db_journal db;
  gb_visible : seqno (db_tracker db') = seqno (db_tracker db);
  gb_holds i : holds (db_tracker db') i = holds (db_tracker db) i
}.

Lemma clone_drop_gives_back {T} order i (db : Database T) : gives_back db (nonce_drop order i (nonce_clone i db).1).
Proof.
  assert (db_tracker (nonce_drop order i (nonce_clone i db).1) = close_raw order i (open_at i (db_tracker db))) as E by done.
  split; rewrite ?E; try done.
  - by rewrite (proj1 (close_raw_mono order i _)).
  - intros j. rewrite holds_close, holds_open. case_decide; lia.
Qed.

Section readers.
Context `{JournalCodec} {T M G : Type} `{!TreeOps T, !TreeLaws T, !MemtableOps M, !MemtableLaws M, !TreeReads T M, !PrefixRange}.
Context `{!GuardOps G, !ScanOps T M G, !ScanLaws T M G}.
Context (order : SnapshotTracker -> list (Z * nat)).

Abbreviation Db := (Database T).

(** ** The contract of readers *)

(** An iterator over the keys [P] of a view that holds a snapshot of its own. *)
Definition shows (view : bytes -> option bytes) (P : bytes -> bool) (instant : Z) (ready : Prop) (db : Db) (p : Db * Iter G) : Prop :=
  (p.1, iter_nonce p.2) = nonce_clone instant db /\
  (ready -> exists l, lists_view view P l /\ both_ends (guard_of <$> iter_items p.2) l).

(** What a reader sees, at the instant it reads at. *)
Class ReadableSpec (X : Type) (R : Readable (T := T) (G := G) X) := {
  reader_wf : X -> Prop;
  reader_instant : X -> Z;
  reader_view : X -> T -> Keyspace -> bytes -> option bytes;
  (** Reading leaves what is seen as it is. *)
  reader_keeps (x x' : X) : Prop :=
    reader_wf x' /\ reader_instant x' = reader_instant x /\ forall t ks key, reader_view x' t ks key = reader_view x t ks key;
  reader_ready (x : X) (db : Db) (ks : Keyspace) : Prop := readable_from (db_trees db) (ks_id ks) <= reader_instant x;
  get_reads ks key x db x' r : reader_wf x -> reader_get ks key x db = (x', r) ->
    reader_keeps x x' /\ (reader_ready x db ks -> forall o, r = Ok o -> o = reader_view x (db_trees db) ks key);
  contains_key_reads ks key x db x' r : reader_wf x -> reader_contains_key ks key x db = (x', r) ->
    reader_keeps x x' /\ (reader_ready x db ks -> forall b, r = Ok b -> b = bool_decide (is_Some (reader_view x (db_trees db) ks key)));
  size_of_reads ks key x db x' r : reader_wf x -> reader_size_of ks key x db = (x', r) ->
    reader_keeps x x' /\ (reader_ready x db ks -> forall o, r = Ok o ->
      (fun n => n mod 2 ^ 32) <$> o = (fun v => Z.of_nat (length v) mod 2 ^ 32) <$> reader_view x (db_trees db) ks key);
  iter_reads ks x db x' p : reader_wf x -> reader_iter ks x db = (x', p) ->
    reader_keeps x x' /\ shows (reader_view x (db_trees db) ks) all_keys (reader_instant x) (reader_ready x db ks) db p;
  (** A range with no key in it makes an optimistic commit panic. *)
  range_reads ks r x db x' p : reader_wf x -> (exists k, in_range r k = true) -> reader_range ks r x db = (x', p) ->
    reader_keeps x x' /\ shows (reader_view x (db_trees db) ks) (in_range r) (reader_instant x) (reader_ready x db ks) db p;
  prefix_reads ks prefix x db x' p : reader_wf x -> reader_prefix ks prefix x db = (x', p) ->
    reader_keeps x x' /\ shows (reader_view x (db_trees db) ks) (with_prefix prefix) (reader_instant x) (reader_ready x db ks) db p;
  first_iter ks x db : reader_first_key_value ks x db = prod_map id (first_of order) (reader_iter ks x db);
  last_iter ks x db : reader_last_key_value ks x db = prod_map id (last_of order) (reader_iter ks x db)
}.

Lemma count_keys_Ok (items : list G) n m :
  count_keys items n = Ok m -> m = (n + length items)%nat /\ Forall is_Some (guard_of <$> items).
Proof.
  revert n. induction items as [|g items IH]; intros n; cbn [count_keys]; [intros [= <-]; cbn; split; [lia|constructor]|].
  destruct (guard_key (mkGuard g)) as [k|] eqn:E; [|done]. intros [-> Hf]%IH. cbn. split; [lia|].
  constructor; [|done]. apply key_law in E as [v Hv]. by exists (k, v).
Qed.

(** All ways to read agree with one listing of the view. *)
Record agrees (l : list entry) (len : Result nat) (is_empty : Result bool) (first last : option (Guard G))
    (get : bytes -> Result (option bytes)) (contains_key : bytes -> Result bool) (size_of : bytes -> Result (option Z)) : Prop := {
  ag_len n : len = Ok n -> n = length l;
  ag_is_empty b : is_empty = Ok b -> b = bool_decide (l = []);
  ag_first : match first with Some g => forall e, into_inner g = Ok e -> head l = Some e | None => l = [] end;
  ag_last : match last with Some g => forall e, into_inner g = Ok e -> list.last l = Some e | None => l = [] end;
  ag_get key o v : get key = Ok o -> o = Some v <-> (key, v) ∈ l;
  ag_contains_key key b : contains_key key = Ok b -> b = true <-> exists v, (key, v) ∈ l;
  ag_size_of key o : size_of key = Ok o -> match o with
    | Some n => exists v, (key, v) ∈ l /\ n mod 2 ^ 32 = Z.of_nat (length v) mod 2 ^ 32
    | None => forall v, (key, v) ∉ l
    end
}.

Section one_reader.
Context {X : Type} {R : Readable (T := T) (G := G) X} `{!ReadableSpec X R}.

Lemma iter_gives_back ks (x : X) (db : Db) p :
  reader_wf x -> (reader_iter ks x db).2 = p -> gives_back db (iter_drop order p.2 p.1).
Proof.
  intros Hwf <-. destruct (reader_iter ks x db) as [x' [db' it]] eqn:E. apply iter_reads in E as [_ [Hn _]]; [|done].
  cbn in *. injection Hn as -> Hi. unfold iter_drop. rewrite Hi. apply clone_drop_gives_back.
Qed.

Lemma reader_agrees ks (x : X) (db : Db) l :
  reader_wf x -> reader_ready x db ks -> lists_view (reader_view x (db_trees db) ks) all_keys l ->
  agrees l (reader_len order ks x db).2.2 (reader_is_empty ks x db).2.2
    (reader_first_key_value ks x db).2.2 (reader_last_key_value ks x db).2.2
    (fun key => (reader_get ks key x db).2) (fun key => (reader_contains_key ks key x db).2) (fun key => (reader_size_of ks key x db).2).
Proof.
  intros Hwf Hr Hl.
  assert (exists x' db' items nonce, reader_iter ks x db = (x', (db', mkIter items nonce)) /\ both_ends (guard_of <$> items) l)
    as (x' & db' & items & nonce & E & Hb).
  { destruct (reader_iter ks x db) as [x' [db' [items nonce]]] eqn:E. exists x', db', items, nonce. split; [done|].
    apply iter_reads in E as [_ [_ Hs]]; [|done]. destruct (Hs Hr) as (l' & Hl' & Hb). by rewrite (lists_view_unique _ _ _ _ Hl Hl'). }
  assert (forall g, head items = Some g -> forall e, guard_of g = Some e -> head l = Some e) as Hhead.
  { intros g Hg e He. apply (both_ends_head _ _ _ Hb). destruct items; [done|]. injection Hg as ->. cbn. by rewrite He. }
  split.
  - intros n. unfold reader_len. rewrite E. cbn. intros [-> Hf]%count_keys_Ok. apply (both_ends_complete _ _ Hb) in Hf.
    apply (f_equal length) in Hf. rewrite !length_fmap in Hf. done.
  - intros b. unfold reader_is_empty. rewrite first_iter, E. cbn. destruct items as [|g items]; cbn.
    + intros [= <-]. rewrite (both_ends_nil _ Hb). done.
    + destruct (guard_key (mkGuard g)) as [k|] eqn:Ek; intros [= <-]. apply key_law in Ek as [v Hv].
      specialize (Hhead g eq_refl _ Hv). by destruct l.
  - rewrite first_iter, E. cbn. destruct items as [|g items]; cbn; [by apply both_ends_nil|].
    intros e He%into_inner_law. by apply (Hhead g).
  - rewrite last_iter, E. cbn. destruct (last items) as [g|] eqn:El; cbn.
    + intros e He%into_inner_law. apply (both_ends_last _ _ _ Hb). by rewrite fmap_last, El, <- He.
    + apply last_None in El as ->. by apply both_ends_nil.
  - intros key o v Eg. destruct (reader_get ks key x db) as [x1 r] eqn:E1. cbn in Eg. subst r.
    apply get_reads in E1 as [_ Ho]; [|done]. rewrite (Ho Hr o eq_refl). by apply listed_get.
  - intros key b Eg. destruct (reader_contains_key ks key x db) as [x1 r] eqn:E1. cbn in Eg. subst r.
    apply contains_key_reads in E1 as [_ Ho]; [|done]. rewrite (Ho Hr b eq_refl), bool_decide_eq_true.
    split; intros [v Hv]; exists v; by apply (listed_get _ _ _ Hl).
  - intros key o Eg. destruct (reader_size_of ks key x db) as [x1 r] eqn:E1. cbn in Eg. subst r.
    apply size_of_reads in E1 as [_ Ho]; [|done]. specialize (Ho Hr o eq_refl).
    destruct (reader_view x (db_trees db) ks key) as [v|] eqn:Ev, o as [n|]; try discriminate Ho.
    + injection Ho as Ho. exists v. split; [by apply (listed_get _ _ _ Hl)|done].
    + intros v Hv. apply (listed_get _ _ _ Hl) in Hv. congruence.
Qed.

(** C19: Whatever reader is used, a snapshot or a transaction of either kind: its lookups,
    its first and last entry, its emptiness check, its length and its iterators all
    agree, as far as no I/O error occurs, with one listing of what it sees in key order;
    and the reads that make an iterator give back the snapshot it holds. *)
Theorem readers_agree ks (x : X) (db : Db) :
  reader_wf x -> reader_ready x db ks ->
  (exists l, lists_view (reader_view x (db_trees db) ks) all_keys l /\
    both_ends (guard_of <$> iter_items (reader_iter ks x db).2.2) l /\
    agrees l (reader_len order ks x db).2.2 (reader_is_empty ks x db).2.2
      (reader_first_key_value ks x db).2.2 (reader_last_key_value ks x db).2.2
      (fun key => (reader_get ks key x db).2) (fun key => (reader_contains_key ks key x db).2) (fun key => (reader_size_of ks key x db).2)) /\
  gives_back db (reader_len order ks x db).2.1 /\ gives_back db (reader_is_empty ks x db).2.1 /\
  gives_back db (reader_first_key_value ks x db).2.1 /\ gives_back db (reader_last_key_value ks x db).2.1.
Proof.
  intros Hwf Hr. split.
  - destruct (reader_iter ks x db) as [x' p] eqn:E. pose proof (iter_reads _ _ _ _ _ Hwf E) as [_ [_ Hs]].
    destruct (Hs Hr) as (l & Hl & Hb). exists l. split_and!; [done|done|]. by apply reader_agrees.
  - unfold reader_len, reader_is_empty. rewrite first_iter, last_iter.
    pose proof (iter_gives_back ks x db _ Hwf eq_refl) as Hg. destruct (reader_iter ks x db) as [x' [db' [items nonce]]]. cbn in *. done.
Qed.
End one_reader.

(** ** Snapshots and transactions are readers *)

Lemma held_shows (view view' : bytes -> option bytes) P i (ready : Prop) items (db : Db) :
  (forall key, view' key = view key) ->
  (ready -> exists l, lists_view view' P l /\ both_ends (guard_of <$> items) l) ->
  shows view P i ready db (held_iter i items db).
Proof.
  intros Hv Hi. split; [done|]. intros Hr. destruct (Hi Hr) as (l & Hl & Hb). exists l. split; [|done].
  by eapply lists_view_ext.
Qed.

Definition snapshot_view (s : Snapshot) (t : T) (ks : Keyspace) (key : bytes) : option bytes :=
  snapshot_get (versions t) (ks_id ks) key (snap_nonce s).

#[export] Program Instance snapshot_spec : ReadableSpec Snapshot (snapshot_readable (M := M) order) := {|
  reader_wf _ := True;
  reader_instant := snap_nonce;
  reader_view := snapshot_view
|}.
Next Obligation. intros ks key x db x' r _ [= <- <-]. split; [done|]. intros Hr o. by apply get_versions. Qed.
Next Obligation. intros ks key x db x' r _ [= <- <-]. split; [done|]. intros Hr b. by apply contains_key_law. Qed.
Next Obligation.
  intros ks key x db x' r _ [= <- <-]. split; [done|]. intros Hr o Ho. apply size_of_law in Ho; [|done]. rewrite Ho.
  unfold snapshot_view. by destruct (snapshot_get _ _ _ _).
Qed.
Next Obligation. intros ks x db x' p _ [= <- <-]. split; [done|]. eapply held_shows; [|by apply iter_law]. done. Qed.
Next Obligation. intros ks r x db x' p _ _ [= <- <-]. split; [done|]. eapply held_shows; [|by apply scan_law]. done. Qed.
Next Obligation. intros ks prefix x db x' p _ [= <- <-]. split; [done|]. eapply held_shows; [|by apply prefix_law]. done. Qed.
Next Obligation. done. Qed.
Next Obligation. done. Qed.

Lemma tx_contains_key_view ks key (tx : BaseTransaction M) (t : T) b :
  readable_from t (ks_id ks) <= tx_instant tx -> tx_contains_key ks key tx t = Ok b -> b = bool_decide (is_Some (tx_view tx t ks key)).
Proof.
  intros Hr. unfold tx_contains_key, tx_view, own_value. destruct (own_item ks key tx) as [i|]; cbn; [|by apply contains_key_law].
  intros [= <-]. unfold ignore_tombstone_value. by destruct (is_tombstone (mi_type i)).
Qed.

Lemma tx_size_of_view ks key (tx : BaseTransaction M) (t : T) o :
  readable_from t (ks_id ks) <= tx_instant tx -> tx_size_of ks key tx t = Ok o ->
  (fun n => n mod 2 ^ 32) <$> o = (fun v => Z.of_nat (length v) mod 2 ^ 32) <$> tx_view tx t ks key.
Proof.
  intros Hr. unfold tx_size_of, tx_view, own_value. destruct (own_item ks key tx) as [i|]; cbn.
  - intros [= <-]. destruct (ignore_tombstone_value i); cbn; [|done]. by rewrite Z.mod_mod.
  - intros ->%size_of_law; [|done]. by destruct (snapshot_get _ _ _ _).
Qed.

Lemma base_iter_shows ks (tx : BaseTransaction M) (db : Db) :
  tx_wf tx -> shows (tx_view tx (db_trees db) ks) all_keys (tx_instant tx) (readable_from (db_trees db) (ks_id ks) <= tx_instant tx) db (base_iter ks tx db).
Proof. intros Hwf. eapply held_shows; [|by apply iter_law]. intros key. by apply merged_view. Qed.
Lemma base_range_shows ks r (tx : BaseTransaction M) (db : Db) :
  tx_wf tx -> shows (tx_view tx (db_trees db) ks) (in_range r) (tx_instant tx) (readable_from (db_trees db) (ks_id ks) <= tx_instant tx) db (base_range ks r tx db).
Proof. intros Hwf. eapply held_shows; [|by apply scan_law]. intros key. by apply merged_view. Qed.
Lemma base_prefix_shows ks prefix (tx : BaseTransaction M) (db : Db) :
  tx_wf tx -> shows (tx_view tx (db_trees db) ks) (with_prefix prefix) (tx_instant tx) (readable_from (db_trees db) (ks_id ks) <= tx_instant tx) db (base_prefix ks prefix tx db).
Proof. intros Hwf. eapply held_shows; [|by apply prefix_law]. intros key. by apply merged_view. Qed.

#[export] Program Instance base_spec : ReadableSpec (BaseTransaction M) (base_readable order) := {|
  reader_wf := tx_wf;
  reader_instant := tx_instant;
  reader_view := tx_view
|}.
Next Obligation. intros ks key x db x' r Hwf [= <- <-]. split; [done|]. intros Hr o. by apply tx_get_view. Qed.
Next Obligation. intros ks key x db x' r Hwf [= <- <-]. split; [done|]. intros Hr b. by apply tx_contains_key_view. Qed.
Next Obligation. intros ks key x db x' r Hwf [= <- <-]. split; [done|]. intros Hr o. by apply tx_size_of_view. Qed.
Next Obligation. intros ks x db x' p Hwf [= <- <-]. split; [done|by apply base_iter_shows]. Qed.
Next Obligation. intros ks r x db x' p Hwf _ [= <- <-]. split; [done|by apply base_range_shows]. Qed.
Next Obligation. intros ks prefix x db x' p Hwf [= <- <-]. split; [done|by apply base_prefix_shows]. Qed.
Next Obligation. done. Qed.
Next Obligation. done. Qed.

#[export] Program Instance single_writer_spec : ReadableSpec (SwTransaction (M := M)) (single_writer_readable order) := {|
  reader_wf tx := tx_wf (sw_inner tx);
  reader_instant tx := tx_instant (sw_inner tx);
  reader_view tx := tx_view (sw_inner tx)
|}.
Next Obligation. intros ks key x db x' r Hwf [= <- <-]. split; [done|]. intros Hr o. by apply tx_get_view. Qed.
Next Obligation. intros ks key x db x' r Hwf [= <- <-]. split; [done|]. intros Hr b. by apply tx_contains_key_view. Qed.
Next Obligation. intros ks key x db x' r Hwf [= <- <-]. split; [done|]. intros Hr o. by apply tx_size_of_view. Qed.
Next Obligation. intros ks x db x' p Hwf [= <- <-]. split; [done|by apply base_iter_shows]. Qed.
Next Obligation. intros ks r x db x' p Hwf Hk [= <- <-]. split; [done|by apply base_range_shows]. Qed.
Next Obligation. intros ks prefix x db x' p Hwf [= <- <-]. split; [done|by apply base_prefix_shows]. Qed.
Next Obligation. done. Qed.
Next Obligation. done. Qed.

(** The methods of a single-writer transaction. *)
Definition run_swt (op : TxOp) (tx : SwTransaction (M := M)) (t : T) : SwTransaction (M := M) * Result (option bytes) :=
  match op with
  | TInsert ks key value => (swt_insert ks key value tx, Ok None)
  | TRemove ks key => (swt_remove ks key tx, Ok None)
  | TRemoveWeak ks key => (swt_remove_weak ks key tx, Ok None)
  | TGet ks key => (tx, tx_get ks key (sw_inner tx) t)
  | TUpdateFetch ks key f => swt_update_fetch ks key f tx t
  | TFetchUpdate ks key f => swt_fetch_update ks key f tx t
  | TTake ks key => swt_take ks key tx t
  end.

(** What its readers see afterwards is the updated map. *)
Lemma swt_refines op (tx tx' : SwTransaction (M := M)) (t : T) r :
  reader_wf (ReadableSpec := single_writer_spec) tx -> tx_seqno (sw_inner tx) < u64_max ->
  readable_from t (ks_id (tx_keyspace op)) <= tx_instant (sw_inner tx) -> run_swt op tx t = (tx', r) ->
  match r with
  | Ok o => let view := reader_view (ReadableSpec := single_writer_spec) tx t in
      o = (spec_tx keyspace_key op view).2 /\ forall ks key, reader_view (ReadableSpec := single_writer_spec) tx' t ks key = (spec_tx keyspace_key op view).1 ks key
  | Err _ => tx' = tx
  end.
Proof.
  intros Hwf Hs Hr Hrun. cbn [reader_wf reader_view single_writer_spec] in *.
  assert (run_tx op (sw_inner tx) t = (sw_inner tx', r)) as E.
  { destruct op; cbn [run_swt run_tx] in *; unfold swt_update_fetch, swt_fetch_update, swt_take in Hrun;
      repeat match type of Hrun with context [let '(_, _) := ?p in _] => destruct p end; by injection Hrun as <- <-. }
  pose proof (run_tx_simulates op (sw_inner tx) t _ r Hwf Hs Hr E) as Hsim.
  destruct r as [o|e].
  - destruct Hsim as (Ho & _ & _ & _ & Hv). done.
  - destruct tx, tx'. cbn in *. by subst.
Qed.

(** Every prefix has a key: itself. *)
Lemma prefix_inhabited prefix : exists k, in_range (prefix_to_range prefix) k = true.
Proof. exists prefix. by apply prefix_to_range_spec. Qed.

Lemma prefix_in_range prefix k : in_range (prefix_to_range prefix) k = with_prefix prefix k.
Proof. apply eq_bool_prop_intro. unfold with_prefix. rewrite bool_decide_spec, Is_true_true. apply prefix_to_range_spec. Qed.

Lemma optimistic_range_shows ks r (x : WriteTransaction M) (db : Db) :
  otx_wf x -> (exists k, in_range r k = true) ->
  otx_wf (optimistic_range (G := G) ks r x db).1 /\
  shows (tx_view (inner x) (db_trees db) ks) (in_range r) (tx_instant (inner x))
    (readable_from (db_trees db) (ks_id ks) <= tx_instant (inner x)) db (optimistic_range ks r x db).2.
Proof.
  intros Hwf [k Hk]. split; [apply mark_read_otx_wf; [by eapply inhabited_valid|done]|].
  by apply base_range_shows, Hwf.
Qed.

#[export] Program Instance optimistic_spec : ReadableSpec (WriteTransaction M) (optimistic_readable order) := {|
  reader_wf := otx_wf;
  reader_instant tx := tx_instant (inner tx);
  reader_view tx := tx_view (inner tx)
|}.
Next Obligation.
  intros ks key x db x' r Hwf. cbn. unfold otx_get. destruct (tx_get ks key (inner x) (db_trees db)) as [o|e] eqn:E; intros [= <- <-]; [|done].
  split; [split; [by apply mark_read_otx_wf|done]|]. intros Hr o' [= <-]. by apply tx_get_view.
Qed.
Next Obligation.
  intros ks key x db x' r Hwf. cbn. unfold otx_contains_key. destruct (tx_contains_key ks key (inner x) (db_trees db)) as [b|e] eqn:E; intros [= <- <-]; [|done].
  split; [split; [by apply mark_read_otx_wf|done]|]. intros Hr b' [= <-]. by apply tx_contains_key_view.
Qed.
Next Obligation. intros ks key x db x' r Hwf [= <- <-]. split; [done|]. intros Hr o. by apply tx_size_of_view. Qed.
Next Obligation.
  intros ks x db x' p Hwf [= <- <-]. split; [split; [by apply mark_read_otx_wf|done]|].
  by apply base_iter_shows, Hwf.
Qed.
Next Obligation.
  intros ks r x db x' p Hwf Hk Hp. destruct (optimistic_range_shows ks r x db Hwf Hk) as [Hw Hs]. cbn in Hp. rewrite Hp in Hw, Hs.
  injection Hp as <- <-. done.
Qed.
Next Obligation.
  intros ks prefix x db x' p Hwf Hp. destruct (optimistic_range_shows ks _ x db Hwf (prefix_inhabited prefix)) as [Hw [Hn Hs]]. cbn in Hp. rewrite Hp in Hw, Hn, Hs.
  injection Hp as <- <-. split; [done|]. split; [done|]. intros Hr. destruct (Hs Hr) as (l & Hl & Hb). exists l. split; [|done].
  eapply lists_view_ext; [| |exact Hl]; [done|]. intros k. apply prefix_in_range.
Qed.
Next Obligation. done. Qed.
Next Obligation. done. Qed.

(** ** Reads of a keyspace *)

Lemma merged_none ks i (t : T) key : merged (M := M) ks i None t key = snapshot_get (versions t) ks key i.
Proof. done. Qed.

Lemma open_drop_gives_back (db : Db) : gives_back db (nonce_drop order (nonce_open db).2 (nonce_open db).1).
Proof. apply (clone_drop_gives_back order (seqno (db_tracker db))). Qed.

Lemma current_ready (db : Db) ks l :
  lists_view (current db (ks_id ks)) all_keys l ->
  lists_view (merged (M := M) (ks_id ks) u64_max None (db_trees db)) all_keys l.
Proof. by apply lists_view_ext. Qed.

(** While no write is under way, all reads of a keyspace agree with one listing of its
    current contents, although some of them read at the visible instant and others at
    the newest one. *)
Lemma keyspace_agrees ks (db : Db) l :
  db_ok db -> seqno (db_tracker db) <= u64_max -> readable_from (db_trees db) (ks_id ks) <= seqno (db_tracker db) ->
  lists_view (current db (ks_id ks)) all_keys l ->
  agrees l (keyspace_len (M := M) order ks db).2 (keyspace_is_empty (M := M) (G := G) ks db)
    (keyspace_first_key_value (M := M) ks db) (keyspace_last_key_value (M := M) ks db)
    (fun key => keyspace_get ks key db) (fun key => keyspace_contains_key (M := M) ks key db) (fun key => keyspace_size_of (M := M) ks key db).
Proof.
  intros Hok Hmax Hr Hl. pose proof (readable_max (db_trees db) (ks_id ks)) as Hrm.
  pose proof (current_ready db ks l Hl) as Hm. split.
  - intros n. unfold keyspace_len. cbn. intros [-> Hf]%count_keys_Ok.
    destruct (iter_law (M := M) (G := G) (ks_id ks) (seqno (db_tracker db)) None (db_trees db) Hr) as (l' & Hl' & Hb).
    assert (l' = l) as ->.
    { eapply lists_view_unique; [exact Hl'|]. eapply lists_view_ext; [| |exact Hl]; [|done]. intros k. symmetry. by apply visible_current. }
    apply (both_ends_complete _ _ Hb) in Hf. apply (f_equal length) in Hf. rewrite !length_fmap in Hf. done.
  - intros b. by apply (is_empty_law (M := M)).
  - pose proof (first_law (M := M) (G := G) (ks_id ks) u64_max None (db_trees db) l Hrm Hm) as Hf.
    unfold keyspace_first_key_value. destruct (tree_first_key_value _ _ _ _) as [g|]; cbn; [|done].
    intros e He%into_inner_law. cbn in He. destruct Hf as [?|?]; congruence.
  - pose proof (last_law (M := M) (G := G) (ks_id ks) u64_max None (db_trees db) l Hrm Hm) as Hf.
    unfold keyspace_last_key_value. destruct (tree_last_key_value _ _ _ _) as [g|]; cbn; [|done].
    intros e He%into_inner_law. cbn in He. destruct Hf as [?|?]; congruence.
  - intros key o v Ho. apply get_versions in Ho; [|done]. rewrite Ho. by apply (listed_get _ _ key Hl).
  - intros key b Hb. apply contains_key_law in Hb; [|done]. rewrite Hb, bool_decide_eq_true.
    split; intros [v Hv]; exists v; by apply (listed_get _ _ _ Hl).
  - intros key o Ho. apply size_of_law in Ho; [|done]. rewrite Ho.
    destruct (snapshot_get _ _ _ _) as [v|] eqn:Ev; cbn; [exists v; split; [by apply (listed_get _ _ _ Hl)|done]|].
    intros v Hv. apply (listed_get _ _ _ Hl) in Hv. unfold current in Hv. congruence.
Qed.

(** So do the reads of transactional handles, which leave no snapshot behind. *)
Lemma handle_agrees ks (db : Db) l :
  db_ok db -> seqno (db_tracker db) <= u64_max -> readable_from (db_trees db) (ks_id ks) <= seqno (db_tracker db) ->
  lists_view (current db (ks_id ks)) all_keys l ->
  agrees l (keyspace_len (M := M) order ks db).2 (keyspace_is_empty (M := M) (G := G) ks db)
    (oks_first_key_value (M := M) order ks db).2 (oks_last_key_value (M := M) order ks db).2
    (fun key => oks_get ks key db) (fun key => oks_contains_key (M := M) ks key db) (fun key => oks_size_of (M := M) ks key db).
Proof.
  intros Hok Hmax Hr Hl. destruct (keyspace_agrees ks db l Hok Hmax Hr Hl) as [Hlen He _ _ Hg Hc Hs].
  set (s := (db_snapshot db).2). set (db1 := (db_snapshot db).1).
  assert (lists_view (snapshot_view s (db_trees db1) ks) all_keys l) as Hl1.
  { eapply lists_view_ext; [| |exact Hl]; [|done]. intros k. symmetry. exact (visible_current db (ks_id ks) k Hok Hmax). }
  destruct (reader_agrees (ReadableSpec0 := snapshot_spec) ks s db1 l I Hr Hl1) as [_ _ Hf Hla _ _ _]. split; [done|done|exact Hf|exact Hla|done|done|done].
Qed.

(** ** Batches are seen as a whole *)

(** What other threads find while a batch is committed: its items reach the trees one
    by one and are published behind the last one. *)
Record unpublished (db d : Db) : Prop := {
  un_versions : exists l, versions (db_trees d) = l ++ versions (db_trees db) /\ forall v, v ∈ l -> v_seqno v = db_seqno db;
  un_tracker : db_tracker d = db_tracker db
}.

Record published (b : WriteBatch) (db d : Db) : Prop := {
  pu_versions : versions (db_trees d) = reverse (omap (item_ver (db_seqno db)) (batch_data b)) ++ versions (db_trees db);
  pu_tracker : db_tracker d = publish (db_seqno db) (db_tracker db)
}.

Lemma item_ver_seqno s it v : item_ver s it = Some v -> v_seqno v = s.
Proof. unfold item_ver. by destruct (it_type it); intros [= <-]. Qed.

Lemma apply_steps_unpublished items (db d : Db) size :
  unpublished db d -> Forall (unpublished db) (states (apply_items_steps (db_seqno db) items size) d).
Proof.
  revert d size. induction items as [|it items IH]; intros d size Hd; [constructor|]. cbn [apply_items_steps]. rewrite states_bind.
  assert (unpublished db (with_trees (apply_item (db_seqno db) it) d).1) as H1.
  { destruct Hd as [(l & El & Hl) Ht]. pose proof (apply_item_versions (db_seqno db) it (db_trees d)) as E. unfold with_trees.
    destruct (apply_item (db_seqno db) it (db_trees d)) as [t n]. constructor; [|exact Ht]. exists (option_list (item_ver (db_seqno db) it) ++ l).
    cbn [db_trees fst] in *. split; [by rewrite E, El, app_assoc|]. intros v [Hv|Hv]%elem_of_app; [|by apply Hl].
    destruct (item_ver (db_seqno db) it) as [w|] eqn:Ew; [|by apply elem_of_nil in Hv]. apply list_elem_of_singleton in Hv as ->. by apply item_ver_seqno in Ew. }
  unfold with_trees in *. unfold outcome, states, atomic. cbn [fst snd]. unfold with_trees. destruct (apply_item _ _ _) as [t n].
  cbn [fst snd app]. constructor; [done|]. by apply IH.
Qed.

Lemma commit_steps_states b (db : Db) : Forall (fun d => unpublished db d \/ published b db d) (states (batch_commit_steps b) db).
Proof.
  unfold batch_commit_steps. case_decide; [constructor|].
  assert (forall d, db_trees d = db_trees db -> db_tracker d = db_tracker db -> unpublished db d) as Hsame.
  { intros d E1 E2. constructor; [|done]. exists []. rewrite E1. split; [done|]. by intros v ?%elem_of_nil. }
  rewrite states_bind. unfold states at 1, outcome, atomic at 1 2, check_poisoned. cbn [fst snd].
  destruct (is_poisoned db); cbn [fst snd app]; (constructor; [left; by apply Hsame|]); [constructor|].
  rewrite states_bind. unfold states at 1, outcome, atomic at 1 2, next_seqno. cbn [fst snd app]. constructor; [left; by apply Hsame|].
  set (d1 := mkDatabase _ _ _ _ _ _). assert (db_trees d1 = db_trees db /\ db_tracker d1 = db_tracker db) as [T1 K1] by done. clearbody d1.
  rewrite states_bind. unfold states at 1, outcome, atomic at 1 2, ignore_error, with_journal. cbn [fst snd].
  destruct (write_batch _ _ _ _) as [w1 r1]. cbn [fst snd app]. constructor; [left; by apply Hsame|].
  set (d2 := mkDatabase _ _ _ _ _ _). assert (db_trees d2 = db_trees db /\ db_tracker d2 = db_tracker db) as [T2 K2] by done. clearbody d2.
  rewrite states_bind. apply Forall_app. split.
  { destruct (durability b); [|constructor]. unfold states, atomic, persist_or_poison, with_journal. cbn [fst snd].
    destruct (persist _ _) as [w2 [[]|e]]; cbn; (constructor; [left; by apply Hsame|constructor]). }
  assert (forall m : Traced (Database T) (), m = (match durability b with Some mode => atomic (persist_or_poison mode (fun _ => Poisoned)) | None => tr_ret () end) ->
    db_trees (outcome m d2).1 = db_trees db /\ db_tracker (outcome m d2).1 = db_tracker db) as Hp.
  { intros m ->. destruct (durability b); [|done]. unfold outcome, atomic, persist_or_poison, with_journal. cbn [fst snd]. by destruct (persist _ _) as [w2 [[]|e]]. }
  destruct (Hp _ eq_refl) as [T3 K3]. clear Hp. destruct (outcome _ d2) as [d3 [[]|e]]; [|constructor]. cbn [fst] in T3, K3.
  rewrite states_bind. apply Forall_app. split; [eapply Forall_impl; [apply apply_steps_unpublished; by apply Hsame|by left]|].
  rewrite apply_items_outcome. unfold with_trees. pose proof (apply_items_versions (db_seqno db) (batch_data b) 0 (db_trees d3)) as Hv.
  destruct (apply_items _ _ _ _) as [t size]. cbn [fst] in Hv. rewrite T3 in Hv.
  rewrite states_bind. unfold states, outcome, atomic, db_publish, db_allocate. cbn [fst snd app].
  repeat (constructor; [right; by constructor; cbn [db_trees db_tracker]; rewrite ?K3|]). constructor.
Qed.

(** What a snapshot opened at or before the one of [db] finds in such a state. *)
Lemma commit_state_reads b (db d : Db) i ks key :
  db_ok db -> i <= seqno (db_tracker db) -> d ∈ states (batch_commit_steps b) db ->
  snapshot_get (versions (db_trees d)) ks key i = snapshot_get (versions (db_trees db)) ks key i.
Proof.
  intros [_ Hs] Hi Hd. pose proof (commit_steps_states b db) as Hst. rewrite Forall_forall in Hst.
  assert (exists l, versions (db_trees d) = l ++ versions (db_trees db) /\ forall v, v ∈ l -> v_seqno v = db_seqno db) as (l & -> & Hl).
  { destruct (Hst d Hd) as [[Hl _]|[-> _]]; [exact Hl|]. eexists. split; [done|]. intros v (it & _ & Hv)%elem_of_reverse%list_elem_of_omap. by eapply item_ver_seqno. }
  unfold snapshot_get. f_equal. apply newest_app_skip. intros v Hv _ Hlt. specialize (Hl v Hv). lia.
Qed.

(** A snapshot taken in such a state. *)
Lemma commit_state_view b (db d : Db) :
  db_ok db -> db_seqno db < u64_max -> d ∈ states (batch_commit_steps b) db ->
  (forall ks key, snapshot_get (versions (db_trees d)) ks key (seqno (db_tracker d)) = current db ks key) \/
  (forall ks key, snapshot_get (versions (db_trees d)) ks key (seqno (db_tracker d)) = foldl put_item (current db) (batch_data b) ks key).
Proof.
  intros Hok Hmax Hd. pose proof (commit_steps_states b db) as Hst. rewrite Forall_forall in Hst. destruct (Hst d Hd) as [[_ Ht]|[Hv Ht]].
  - left. intros ks key. rewrite Ht, (commit_state_reads b db) by done. apply visible_current; [done|]. destruct Hok; lia.
  - right. intros ks key. unfold snapshot_get, current. rewrite Hv. rewrite Ht. cbn [publish tracker_set seqno].
    destruct Hok as [Ho Hs]. rewrite (newest_batch _ _ (db_seqno db)); [|intros v (it & _ & Hw)%elem_of_reverse%list_elem_of_omap; by eapply item_ver_seqno|].
    2:{ intros v Hin. specialize (Ho v Hin). lia. }
    rewrite decide_True by lia. rewrite (put_items_head _ (db_seqno db)).
    destruct (head _) as [v|]; [done|]. unfold current, snapshot_get. f_equal.
    apply newest_instants; [lia|]. intros v Hin _ _. specialize (Ho v Hin). lia.
Qed.

End readers.

(** ** In-memory iterators *)

#[export] Instance entry_guards : GuardOps entry := {|
  inner_into_inner_if pred e := Ok (e.1, if pred e.1 then Some e.2 else None);
  inner_into_inner e := Ok e;
  inner_key e := Ok e.1;
  inner_size e := Ok (Z.of_nat (length e.2));
  inner_value e := Ok e.2
|}.

Definition hist_scan (P : bytes -> bool) (ks i : Z) (own : option (list MItem * Z)) (t : history) : list entry :=
  filter (fun e => P e.1 = true) (sorted_entries (merged_map ks i own t)).

#[export] Instance hist_scans : ScanOps history (list MItem) entry := {|
  tree_iter := hist_scan all_keys;
  tree_scan ks r := hist_scan (in_range r) ks;
  tree_prefix ks prefix := hist_scan (with_prefix prefix) ks;
  tree_first_key_value ks i own t := head (hist_scan all_keys ks i own t);
  tree_last_key_value ks i own t := last (hist_scan all_keys ks i own t);
  tree_is_empty ks i own t := Ok (bool_decide (hist_scan all_keys ks i own t = []))
|}.

Lemma hist_scan_lists P ks i own (t : history) : lists_view (merged ks i own t) P (hist_scan P ks i own t).
Proof.
  split; [apply StronglySorted_filter, sorted_entries_sorted|]. intros k v. unfold hist_scan.
  rewrite list_elem_of_filter, sorted_entries_perm, elem_of_map_to_list, merged_map_lookup. simpl. tauto.
Qed.

#[export] Program Instance hist_scan_laws : ScanLaws history (list MItem) entry := {| guard_of := Some |}.
Next Obligation. intros pred [k' v] k o [= <- <-]. exists v. split; [done|]. destruct (pred k'); naive_solver. Qed.
Next Obligation. by intros g e [= <-]. Qed.
Next Obligation. intros [k v] k' [= <-]. by exists v. Qed.
Next Obligation. intros [k v] n [= <-]. by exists k, v. Qed.
Next Obligation. intros [k v] v' [= <-]. by exists k. Qed.
Next Obligation. by intros ks key i t b _ [= <-]. Qed.
Next Obligation. by intros ks key i t o _ [= <-]. Qed.
Next Obligation. intros ks i own t _. eexists. split; [apply hist_scan_lists|by left]. Qed.
Next Obligation. intros ks r i own t _. eexists. split; [apply hist_scan_lists|by left]. Qed.
Next Obligation. intros ks prefix i own t _. eexists. split; [apply hist_scan_lists|by left]. Qed.
Next Obligation.
  intros ks i own t l _ Hl. cbn. rewrite <- (lists_view_unique _ _ _ _ Hl (hist_scan_lists _ ks i own t)). destruct l; [done|by right].
Qed.
Next Obligation.
  intros ks i own t l _ Hl. cbn. rewrite <- (lists_view_unique _ _ _ _ Hl (hist_scan_lists _ ks i own t)).
  destruct (last l) eqn:E; [by right|]. by apply last_None.
Qed.
Next Obligation.
  intros ks i own t l b _ Hl [= <-]. by rewrite <- (lists_view_unique _ _ _ _ Hl (hist_scan_lists _ ks i own t)).
Qed.
Next Obligation. done. Qed.

(** ** Samples *)

Definition some_db : Database history := (keyspace_insert sample_keyspace key_a [Byte.x31] (sample_db [])).1.

(** An optimistic transaction with a write of its own. *)
Definition some_tx : WriteTransaction (list MItem) := otx_insert sample_keyspace key_b [Byte.x39] (write_tx true (mkOptimisticDb some_db [])).2.

Lemma some_tx_wf : otx_wf some_tx.
Proof.
  unfold some_tx, otx_insert. pose proof (write_tx_wf (M := list MItem) true (mkOptimisticDb some_db [])) as Hwf.
  by apply (write_otx_wf sample_keyspace key_b [Byte.x39] Value); [|done|by apply leads_empty| |apply Hwf|].
Qed.

(** The transaction lists the committed entry and its own. *)
Lemma readers_agree_witness :
  otx_wf some_tx /\ (reader_len (Readable0 := optimistic_readable (G := entry) no_order) no_order sample_keyspace some_tx some_db).2.2 = Ok 2%nat /\
  exists l, lists_view (tx_view (inner some_tx) (db_trees some_db) sample_keyspace) all_keys l /\ length l = 2%nat.
Proof.
  split; [exact some_tx_wf|]. split; [vm_compute; reflexivity|].
  destruct (readers_agree no_order (R := optimistic_readable (G := entry) no_order) (ReadableSpec0 := optimistic_spec no_order) sample_keyspace some_tx some_db some_tx_wf) as [(l & Hl & _ & Ha) _].
  { vm_compute. done. }
  exists l. split; [exact Hl|]. symmetry. apply (ag_len _ _ _ _ _ _ _ _ Ha). vm_compute. reflexivity.
Defined.

Definition two_puts : WriteBatch :=
  mkWriteBatch [mkBItem sample_keyspace key_a [Byte.x32] Value; mkBItem sample_keyspace key_b [Byte.x32] Value] None.

Lemma some_db_ok : db_ok some_db.
Proof. split; [|vm_compute; done]. intros v Hv. vm_compute in Hv. apply list_elem_of_singleton in Hv as ->. vm_compute. done. Qed.

(** The fourth state of the commit: one of the two items is in its tree. *)
Definition during_commit : Database history := default some_db (states (batch_commit_steps two_puts) some_db !! 3%nat).


(** ** Departures *)

(** [range] and [prefix] of a keyspace open a snapshot like [iter], but read at the
    newest instant: while a batch is being applied they deliver a part of it. *)
Theorem range_sees_torn_batch :
  let all : key_range := (Unbounded, Unbounded) in
  let before := iter_items (keyspace_range (M := list MItem) (G := entry) sample_keyspace all some_db).2 in
  let during := iter_items (keyspace_range (M := list MItem) (G := entry) sample_keyspace all during_commit).2 in
  let after := iter_items (keyspace_range (M := list MItem) (G := entry) sample_keyspace all (batch_commit two_puts some_db).1).2 in
  before = [(key_a, [Byte.x31])] /\ during = [(key_a, [Byte.x32])] /\ after = [(key_a, [Byte.x32]); (key_b, [Byte.x32])] /\
  iter_items (keyspace_iter (M := list MItem) (G := entry) sample_keyspace during_commit).2 = before.
Proof. vm_compute. done. Qed.
