(* ===== verification/OptimisticSerial.v ===== *)
(** * Optimistic transactions are serializable

    A transaction runs operations at changing states of the trees, which still hold its
    snapshot, and is validated when it commits. What its operations returned is what they
    would have returned one after the other on the contents at the commit point: every
    read that the conflict check relies on is recorded by the operation that made it.
    [size_of] records nothing and is not among them.

    The handles of a transaction must not mix up keyspaces that had the same name, since
    the memtables of a transaction are filed under names ([consistent]). *)

From stdpp Require Import base gmap list sorting.
From S2P Require Import Prelude Errors Utf8 Composite Store JournalEntry JournalReader JournalWriter SnapshotTracker BTree ConflictManager Mvcc Db DbProps.
From S2P Require Import WriteTx WriteTxProps KeyspaceMap Optimistic OptimisticProps SecureTx TxHandles TxHandlesProps Readers ReadersProps.

(** ** Operations and their answers *)

Inductive OtxCall :=
  | CPoint (op : OtxOp)
  | CContains (ks : Keyspace) (key : bytes)
  | CRange (ks : Keyspace) (r : key_range)
  | CIter (ks : Keyspace)
  | CPrefix (ks : Keyspace) (prefix : bytes)
  | CFirst (ks : Keyspace)
  | CLast (ks : Keyspace).

Inductive OtxAnswer :=
  | AValue (o : option bytes)
  | ABool (b : bool)
  | AItems (items : list (Result entry))
  | AEntry (o : option (Result entry)).

Definition call_keyspace (call : OtxCall) : Keyspace :=
  match call with
  | CPoint op => tx_keyspace (base_op op)
  | CContains ks _ | CRange ks _ | CIter ks | CPrefix ks _ | CFirst ks | CLast ks => ks
  end.

(** Ranges with the bounds in order; the others make a range scan panic. *)
Definition call_ok (call : OtxCall) : Prop :=
  match call with CRange _ r => valid_read (range_read r.1 r.2) = true | _ => True end.

Section theory.
Context `{JournalCodec, PrefixRange} {T M G : Type}.
Context `{!TreeOps T, !TreeLaws T, !MemtableOps M, !MemtableLaws M, !TreeReads T M, !TreeReadsLaws T M}.
Context `{!GuardOps G, !ScanOps T M G, !ScanLaws T M G}.

Abbreviation Tx := (WriteTransaction M).
Abbreviation Trace := (list (OtxCall * Result OtxAnswer)).

Definition run_call (call : OtxCall) (t : T) (tx : Tx) : Tx * Result OtxAnswer :=
  match call with
  | CPoint op => let '(tx, r) := run_otx op t tx in (tx, AValue <$> r)
  | CContains ks key => let '(tx, r) := otx_contains_key ks key t tx in (tx, ABool <$> r)
  | CRange ks r => let '(tx, items) := otx_range ks r t tx in (tx, Ok (AItems items))
  | CIter ks => let '(tx, items) := otx_iter ks t tx in (tx, Ok (AItems items))
  | CPrefix ks prefix => let '(tx, items) := otx_prefix ks prefix t tx in (tx, Ok (AItems items))
  | CFirst ks => let '(tx, o) := otx_first_key_value ks t tx in (tx, Ok (AEntry o))
  | CLast ks => let '(tx, o) := otx_last_key_value ks t tx in (tx, Ok (AEntry o))
  end.

(** An iteration over the keys of a view in a range; it may end with an error. *)
Definition scans (v : View) (ks : Keyspace) (r : key_range) (items : list (Result entry)) : Prop :=
  exists (m : gmap bytes bytes) l, (forall key, m !! key = v ks key) /\ lists_range m r l /\ delivers items l.

(** What an operation may answer, and leave, on some contents. *)
Definition call_answers (call : OtxCall) (v v' : View) (a : OtxAnswer) : Prop :=
  match call with
  | CPoint op => a = AValue (spec_tx keyspace_key (base_op op) v).2 /\ same_view (spec_tx keyspace_key (base_op op) v).1 v'
  | CContains ks key => a = ABool (bool_decide (is_Some (v ks key))) /\ same_view v v'
  | CRange ks r => (exists items, a = AItems items /\ scans v ks r items) /\ same_view v v'
  | CIter ks => (exists items, a = AItems items /\ scans v ks (Unbounded, Unbounded) items) /\ same_view v v'
  | CPrefix ks prefix => (exists items, a = AItems items /\ scans v ks (prefix_to_range prefix) items) /\ same_view v v'
  | CFirst ks => (exists items, a = AEntry (head items) /\ scans v ks (Unbounded, Unbounded) items) /\ same_view v v'
  | CLast ks => (exists items, a = AEntry (last items) /\ scans v ks (Unbounded, Unbounded) items) /\ same_view v v'
  end.

(** ** Own writes over some contents *)

Definition overlay (base : View) (tx : Tx) : View := fun ks key =>
  match own_value ks key (inner tx) with Some o => o | None => base ks key end.

Definition snap_view (t : T) (instant : Z) : View := fun ks key => snapshot_get (versions t) (ks_id ks) key instant.

Lemma tx_view_overlay (x : Tx) (t : T) ks key : tx_view (inner x) t ks key = overlay (snap_view t (tx_instant (inner x))) x ks key.
Proof. done. Qed.

Definition reads_grow (x x' : Tx) : Prop := forall ks r, r ∈ reads_of (cm x) ks -> r ∈ reads_of (cm x') ks.

Lemma recorded_grow x x' ks key : reads_grow x x' -> recorded x ks key -> recorded x' ks key.
Proof. intros Hg (r & Hr & Hc). exists r. split; [by apply Hg|done]. Qed.

Section handles.
Context (handles : Keyspace -> Prop) (handles_ok : consistent handles).

(** Where contents agree with the snapshot on everything recorded by the end of the
    operation, it does there what it does on the snapshot. *)
Definition serves {B} (snap : View) (x x' : Tx) (r : Result B) (good : B -> View -> View -> Prop) : Prop :=
  otx_wf x' /\ uses handles (inner x') /\ reads_grow x x' /\ tx_instant (inner x') = tx_instant (inner x) /\
  forall base : View, (forall ks : Keyspace, exists m : gmap bytes bytes, forall key, m !! key = overlay base x' ks key) ->
    (forall (ks : Keyspace) key, recorded x' (ks_id ks) key -> snap ks key = base ks key) ->
    match r with Ok b => good b (overlay base x) (overlay base x') | Err _ => same_view (overlay base x) (overlay base x') end.

Lemma serves_err {B} snap x e (good : B -> View -> View -> Prop) : otx_wf x -> uses handles (inner x) -> serves snap x x (Err e) good.
Proof. intros Hx Hu. split; [done|]. split; [done|]. split; [by intros ? ? ?|]. done. Qed.

(** Marking reads changes no contents. *)
Lemma serves_marked {B} snap (x : Tx) ks rd (r : Result B) (good : B -> View -> View -> Prop) :
  otx_wf x -> uses handles (inner x) -> valid_read rd = true ->
  (forall base b, r = Ok b ->
    (forall ks : Keyspace, exists m : gmap bytes bytes, forall key, m !! key = overlay base x ks key) ->
    (forall (k : Keyspace) key, ks_id k = ks -> covers rd key = true -> snap k key = base k key) ->
    good b (overlay base x) (overlay base x)) ->
  serves snap x (with_cm (push_read ks rd) x) r good.
Proof.
  intros Hx Hu Hv Hg. split; [by apply mark_read_otx_wf|]. split; [done|]. split.
  { intros ks' rd' Hr. cbn [with_cm cm]. rewrite reads_of_push by apply Hx. apply elem_of_app. by left. }
  split; [done|]. intros base Hfin Hagree. destruct r as [b|]; [|done]. apply Hg; [done|done|].
  intros k key Hk Hc. apply Hagree. rewrite Hk. by apply push_recorded.
Qed.

Lemma write_overlay base ks key value vt (x : Tx) c :
  vt <> Indirection -> otx_wf x -> tx_seqno (inner x) < u64_max ->
  same_view (view_set keyspace_key (overlay base x) ks key (if is_tombstone vt then None else Some value))
    (overlay base (mkWriteTransaction (tx_write ks key value vt (inner x)) c)).
Proof.
  intros Hvt Hx Hs ks' key'. unfold overlay, view_set. cbn [inner]. rewrite own_value_write by (done || apply Hx).
  by case_decide.
Qed.

Lemma serves_write {B} snap (x : Tx) ks key value vt (b : B) (good : B -> View -> View -> Prop) :
  vt <> Indirection -> otx_wf x -> uses handles (inner x) -> handles ks -> tx_seqno (inner x) < u64_max ->
  (forall base v', same_view (view_set keyspace_key (overlay base x) ks key (if is_tombstone vt then None else Some value)) v' -> good b (overlay base x) v') ->
  serves snap x (mkWriteTransaction (tx_write ks key value vt (inner x)) (mark_conflict (ks_id ks) key (cm x))) (Ok b) good.
Proof.
  intros Hvt Hx Hu Hk Hs Hg. assert (leads_to (inner x) ks) as Hl by (eapply leads_uses; [exact handles_ok|apply Hx|done|done]).
  split; [by apply write_otx_wf; [| | | |apply Hx|]|]. split; [by apply uses_write|]. split; [by intros ? ? ?|].
  split; [rewrite tx_write_tables; done|]. intros base _ _. by apply Hg, write_overlay.
Qed.

Lemma serves_fmap {B C} snap x x' (r : Result B) (f : B -> C) (good : B -> View -> View -> Prop) (good' : C -> View -> View -> Prop) :
  (forall b v v', good b v v' -> good' (f b) v v') -> serves snap x x' r good -> serves snap x x' (f <$> r) good'.
Proof.
  intros Hf (P1 & P2 & P3 & P4 & Hr). split_and!; [done|done|done|done|]. intros base Hfin Hagree. specialize (Hr base Hfin Hagree).
  destruct r; cbn; auto.
Qed.

Lemma serves_ext {B} snap snap' x x' (r : Result B) good :
  (forall ks key, snap ks key = snap' ks key) -> serves snap x x' r good -> serves snap' x x' r good.
Proof.
  intros E (P1 & P2 & P3 & P4 & Hr). split_and!; [done|done|done|done|]. intros base Hfin Hagree. apply Hr; [done|].
  intros ks key Hrec. rewrite E. by apply Hagree.
Qed.

(** ** One operation *)

Section operation.
Context (t : T) (x : Tx) (Hx : otx_wf x) (Hu : uses handles (inner x)).

Abbreviation snap := (snap_view t (tx_instant (inner x))).

Lemma overlay_agree base ks key : snap ks key = base ks key -> overlay snap x ks key = overlay base x ks key.
Proof. intros E. unfold overlay. by destruct (own_value _ _ _). Qed.

(** A range read delivers the contents it covers. *)
Lemma scans_overlay base ks r :
  readable_from t (ks_id ks) <= tx_instant (inner x) -> (exists m : gmap bytes bytes, forall key, m !! key = overlay base x ks key) ->
  (forall key, covers (range_read r.1 r.2) key = true -> snap ks key = base ks key) ->
  scans (overlay base x) ks r (tx_range ks r (inner x) t).
Proof.
  intros Hr [m' Hm'] Hagree. destruct (tx_range_view ks r (inner x) t (otx_inner _ Hx) Hr) as (m & l & Hm & [Hsort Hin] & Hd).
  exists m', l. split; [done|]. split; [|done]. split; [done|]. intros k v. rewrite Hin.
  assert (in_range r k = true -> m !! k = m' !! k) as Heq; [|split; intros [Hk Hk']; rewrite ?Heq, <- ?Heq in * by done; done].
  intros Hk. rewrite Hm, Hm'. apply overlay_agree, Hagree. rewrite range_read_covers. by destruct r.
Qed.

Lemma range_serves ks r (f : list (Result entry) -> OtxAnswer) (good : OtxAnswer -> View -> View -> Prop) :
  readable_from t (ks_id ks) <= tx_instant (inner x) -> valid_read (range_read r.1 r.2) = true ->
  (forall items v, scans v ks r items -> good (f items) v v) ->
  serves snap x (with_cm (mark_range (ks_id ks) r.1 r.2) x) (Ok (f (tx_range ks r (inner x) t))) good.
Proof.
  intros Hr Hv Hg. unfold mark_range. apply serves_marked; [done|done|done|]. intros base b [= <-] Hfin Hagree.
  apply Hg, scans_overlay; [done|done|]. intros key. by apply Hagree.
Qed.

(** A point read. *)
Lemma point_serves {B} ks key (b : B) (good : B -> View -> View -> Prop) :
  (forall v, overlay snap x ks key = v ks key -> good b v v) ->
  serves snap x (with_cm (mark_read (ks_id ks) key) x) (Ok b) good.
Proof.
  intros Hg. unfold mark_read. apply serves_marked; [done|done|done|]. intros base b' [= <-] _ Hagree.
  apply Hg, overlay_agree, Hagree; [done|by apply bool_decide_eq_true].
Qed.

Lemma update_serves ks key f b p u :
  handles ks -> tx_seqno (inner x) < u64_max -> readable_from t (ks_id ks) <= tx_instant (inner x) ->
  tx_update ks key f (inner x) t = (b, Ok (p, u)) ->
  serves snap x (with_cm (mark_both ks key) (with_inner b x)) (Ok (p, u))
    (fun pu v v' => pu = (v ks key, f (v ks key)) /\ same_view (view_update keyspace_key v ks key (f (v ks key))) v').
Proof.
  intros Hk Hs Hr Hup. assert (leads_to (inner x) ks) as Hl by (eapply leads_uses; [exact handles_ok|apply Hx|done|done]).
  destruct (update_otx ks key f t x b _ Hx Hl Hs Hup) as [Hwf Hrec]. split; [done|]. split.
  { destruct (tx_update_cases _ _ _ _ _ _ _ Hup) as [->|(value & vt & _ & ->)]; [done|by apply uses_write]. }
  split.
  { intros ks' rd Hin. unfold with_cm, mark_both. cbn [cm with_inner]. change (reads_of (mark_conflict (ks_id ks) key ?c)) with (reads_of c).
    unfold mark_read. rewrite reads_of_push by apply Hx. apply elem_of_app. by left. }
  split; [destruct (tx_update_cases _ _ _ _ _ _ _ Hup) as [->|(value & vt & _ & ->)]; [done|by rewrite tx_write_tables]|].
  intros base _ Hagree. specialize (Hagree ks key Hrec). pose proof (overlay_agree base ks key Hagree) as Ho.
  unfold tx_update in Hup. destruct (tx_get ks key (inner x) t) as [p'|e] eqn:Eg; [|done]. injection Hup as Eb -> <-.
  apply tx_get_view in Eg; [|done]. rewrite tx_view_overlay, Ho in Eg. rewrite <- Eg. split; [done|]. unfold view_update. rewrite <- Eg.
  assert (forall c, same_view (overlay base x) (overlay base (mkWriteTransaction (inner x) c))) as Hid by done.
  destruct (f p) as [value|] eqn:Ef.
  - destruct (decide (p = Some value)); subst b; [apply Hid|]. by apply (write_overlay base ks key value Value).
  - destruct p as [p|]; subst b; [|rewrite decide_True by done; apply Hid]. rewrite decide_False by done. by apply (write_overlay base ks key [] Tombstone).
Qed.
End operation.

Lemma run_call_serves call (t : T) (x x' : Tx) r :
  otx_wf x -> uses handles (inner x) -> handles (call_keyspace call) -> call_ok call -> tx_seqno (inner x) < u64_max ->
  readable_from t (ks_id (call_keyspace call)) <= tx_instant (inner x) -> run_call call t x = (x', r) ->
  serves (snap_view t (tx_instant (inner x))) x x' r (fun a v v' => call_answers call v v' a).
Proof.
  intros Hx Hu Hk Hok Hs Hr. destruct call as [op|ks key|ks rg|ks|ks prefix|ks|ks]; cbn [run_call call_answers call_keyspace call_ok] in *.
  - assert (forall ks key f r1 (b : BaseTransaction M), tx_update ks key f (inner x) t = (b, r1) -> handles ks -> readable_from t (ks_id ks) <= tx_instant (inner x) ->
      match r1 with
      | Ok pu => serves (snap_view t (tx_instant (inner x))) x (with_cm (mark_both ks key) (with_inner b x)) (Ok pu)
          (fun pu v v' => pu = (v ks key, f (v ks key)) /\ same_view (view_update keyspace_key v ks key (f (v ks key))) v')
      | Err e => b = inner x
      end) as Hupd.
    { intros ks key f r1 b Hup Hks Hrd. destruct r1 as [[p u]|e]; [by apply update_serves|].
      unfold tx_update in Hup. destruct (tx_get ks key (inner x) t); by simplify_eq. }
    assert (mkWriteTransaction (inner x) (cm x) = x) as Eta by (by destruct x).
    destruct op as [ks key|ks key value|ks key|ks key|ks key f|ks key f]; cbn [run_otx base_op tx_keyspace spec_tx fst snd] in *.
    + unfold otx_get. destruct (tx_get ks key (inner x) t) as [o|e] eqn:Eg; intros [= <- <-]; [|by apply serves_err].
      apply tx_get_view in Eg; [|done]. apply point_serves; [done|done|]. intros v Hv. rewrite <- Hv, <- tx_view_overlay, <- Eg. by split.
    + intros [= <- <-]. by apply (serves_write _ x ks key value Value).
    + intros [= <- <-]. by apply (serves_write _ x ks key [] Tombstone).
    + intros [= <- <-]. by apply (serves_write _ x ks key [] WeakTombstone).
    + unfold otx_update_fetch, tx_update_fetch. destruct (tx_update ks key f (inner x) t) as [b r1] eqn:Eu. specialize (Hupd _ _ _ _ _ Eu Hk Hr).
      destruct r1 as [[p u]|e]; cbn; intros [= <- <-]; [|subst b; unfold with_inner; rewrite Eta; by apply serves_err].
      apply (serves_fmap _ _ _ (Ok (p, u)) (fun pu => AValue pu.2)) with (2 := Hupd). intros pu v v' [-> Hv]. by split.
    + unfold otx_fetch_update, tx_fetch_update. destruct (tx_update ks key f (inner x) t) as [b r1] eqn:Eu. specialize (Hupd _ _ _ _ _ Eu Hk Hr).
      destruct r1 as [[p u]|e]; cbn; intros [= <- <-]; [|subst b; unfold with_inner; rewrite Eta; by apply serves_err].
      apply (serves_fmap _ _ _ (Ok (p, u)) (fun pu => AValue pu.1)) with (2 := Hupd). intros pu v v' [-> Hv]. by split.
  - unfold otx_contains_key. destruct (tx_contains_key ks key (inner x) t) as [b|e] eqn:Eg; intros [= <- <-]; [|by apply serves_err].
    apply (tx_contains_key_view (G := G)) in Eg; [|done]. apply point_serves; [done|done|]. intros v Hv. rewrite <- Hv, <- tx_view_overlay, <- Eg. by split.
  - intros [= <- <-]. apply (range_serves t x Hx Hu ks rg AItems); [done|done|]. intros items v Hsc. split; [by exists items|done].
  - intros [= <- <-]. apply (range_serves t x Hx Hu ks (Unbounded, Unbounded) AItems); [done|done|]. intros items v Hsc. split; [by exists items|done].
  - intros [= <- <-]. destruct (prefix_inhabited prefix) as [k Hkey].
    apply (range_serves t x Hx Hu ks (prefix_to_range prefix) AItems); [done|by eapply inhabited_valid|]. intros items v Hsc. split; [by exists items|done].
  - intros [= <- <-]. apply (range_serves t x Hx Hu ks (Unbounded, Unbounded) (fun items => AEntry (head items))); [done|done|].
    intros items v Hsc. split; [by exists items|done].
  - intros [= <- <-]. apply (range_serves t x Hx Hu ks (Unbounded, Unbounded) (fun items => AEntry (last items))); [done|done|].
    intros items v Hsc. split; [by exists items|done].
Qed.

(** ** Whole transactions *)

(** The operations of a transaction, each at some state of the trees, which still hold
    the snapshot [snap] of the transaction. *)
Inductive otx_run (snap : View) : Tx -> Trace -> Tx -> Prop :=
  | or_nil x : otx_run snap x [] x
  | or_step t call r x x1 x' trace :
      (forall k key, snap_view t (tx_instant (inner x)) k key = snap k key) ->
      readable_from t (ks_id (call_keyspace call)) <= tx_instant (inner x) -> tx_seqno (inner x) < u64_max ->
      handles (call_keyspace call) -> call_ok call ->
      run_call call t x = (x1, r) -> otx_run snap x1 trace x' -> otx_run snap x ((call, r) :: trace) x'.

(** The same operations one after the other on some contents; those that failed do
    nothing. *)
Inductive serial_calls : View -> Trace -> View -> Prop :=
  | sc_nil v v' : same_view v v' -> serial_calls v [] v'
  | sc_ok v v1 v' call a trace : call_answers call v v1 a -> serial_calls v1 trace v' -> serial_calls v ((call, Ok a) :: trace) v'
  | sc_err v v1 v' call e trace : same_view v v1 -> serial_calls v1 trace v' -> serial_calls v ((call, Err e) :: trace) v'.

Lemma spec_tx_same op (v v0 v' : View) :
  same_view v v0 -> same_view (spec_tx keyspace_key op v).1 v' -> same_view (spec_tx keyspace_key op v0).1 v'.
Proof. intros E Hs ks key. rewrite (Hs ks key). apply (spec_tx_ext op). intros k b. symmetry. apply E. Qed.

Lemma call_answers_ext call (v v0 v' : View) a : same_view v v0 -> call_answers call v v' a -> call_answers call v0 v' a.
Proof.
  intros E. assert (same_view v v' -> same_view v0 v') as Hsv by (intros Hs k key; by rewrite (Hs k key), (E k key)).
  assert (forall ks r items, scans v ks r items -> scans v0 ks r items) as Hsc.
  { intros ks r items (m & l & Hm & Hl). exists m, l. split; [|done]. intros key. by rewrite (E ks key). }
  destruct call as [op|ks key|ks r|ks|ks prefix|ks|ks]; cbn [call_answers]; [| |naive_solver..].
  - intros [-> Hv]. split; [|by eapply spec_tx_same]. f_equal. apply (spec_tx_ext (base_op op)). intros k b. symmetry. apply E.
  - rewrite (E ks key). naive_solver.
Qed.

Lemma serial_calls_ext (v v0 v' : View) trace : same_view v v0 -> serial_calls v trace v' -> serial_calls v0 trace v'.
Proof.
  intros E Hr. destruct Hr as [v v' Hv|v v1 v' call a trace Ha Hr|v v1 v' call e trace Hv Hr].
  - constructor. intros k key. by rewrite (Hv k key), (E k key).
  - econstructor; [|exact Hr]. by eapply call_answers_ext.
  - econstructor; [|exact Hr]. intros k key. by rewrite (Hv k key), (E k key).
Qed.

Lemma run_serial snap (x x' : Tx) trace :
  otx_run snap x trace x' -> otx_wf x -> uses handles (inner x) ->
  otx_wf x' /\ uses handles (inner x') /\ reads_grow x x' /\ tx_instant (inner x') = tx_instant (inner x) /\
  forall base : View, (forall x (ks : Keyspace), otx_wf x -> exists m : gmap bytes bytes, forall key, m !! key = overlay base x ks key) ->
    (forall (ks : Keyspace) key, recorded x' (ks_id ks) key -> snap ks key = base ks key) ->
    serial_calls (overlay base x) trace (overlay base x').
Proof.
  induction 1 as [x|t call r x x1 x' trace Hsnap Hready Hs Hk Hok Hrun _ IH]; intros Hx Hu.
  { split_and!; [done|done|by intros ? ? ?|done|]. intros base _ _. by constructor. }
  pose proof (run_call_serves call t x x1 r Hx Hu Hk Hok Hs Hready Hrun) as Hserve.
  apply (serves_ext _ snap) in Hserve; [|done]. destruct Hserve as (Hx1 & Hu1 & Hg1 & Hi1 & Hr).
  destruct (IH Hx1 Hu1) as (Hx' & Hu' & Hg & Hi & Hrest). split_and!; [done|done|intros k rd Hin; by apply Hg, Hg1|congruence|].
  intros base Hfin Hagree.
  assert (forall (k : Keyspace) key, recorded x1 (ks_id k) key -> snap k key = base k key) as Hagree1.
  { intros k key Hrec. apply Hagree. by eapply recorded_grow. }
  specialize (Hr base (fun k => Hfin _ k Hx1) Hagree1). specialize (Hrest base Hfin Hagree).
  destruct r as [a|e]; by econstructor.
Qed.
End handles.

(** ** Commits *)

(** Contents with own writes on top are those of a tree read. *)
Lemma overlay_finite (s : OptimisticDb T) (x : Tx) (ks : Keyspace) :
  otx_wf x -> exists m : gmap bytes bytes, forall key, m !! key = overlay (contents s) x ks key.
Proof.
  intros Hx. set (b := inner x). set (b' := mkBaseTransaction (memtables b) u64_max (tx_durability b) (tx_seqno b)).
  assert (tx_wf b') as Hwf by (destruct (otx_inner _ Hx); by constructor).
  destruct (tx_range_view ks (Unbounded, Unbounded) b' (db_trees (inner_db s)) Hwf) as (m & _ & Hm & _); [apply readable_max|].
  exists m. intros key. rewrite Hm. done.
Qed.

Lemma overlay_empty (base : View) (x : Tx) : memtables (inner x) = ∅ -> same_view (overlay base x) base.
Proof. intros E ks key. unfold overlay. by rewrite own_value_empty. Qed.

(** What a commit leaves: the view of the transaction for its own handles, and other
    keyspaces as they were. *)
Record leaves (handles : Keyspace -> Prop) (v : View) (s s' : OptimisticDb T) : Prop := {
  lv_own ks key : handles ks -> contents s' ks key = v ks key;
  lv_other ks key : (forall h, handles h -> ks_id h <> ks_id ks) -> contents s' ks key = contents s ks key
}.

Section commit.
Context (order : SnapshotTracker -> list (Z * nat)) (tables : Tx -> list (str * (Keyspace * M))) (manual : bool).
Context (tables_perm : forall tx, tables tx ≡ₚ map_to_list (memtables (inner tx))).

(** Nothing the transaction recorded has changed since its snapshot. *)
Lemma committed_reads start (sa sc s' : OptimisticDb T) (x : Tx) r :
  opt_inv start sc -> otx_wf x -> tx_instant (inner x) = seqno (db_tracker (inner_db sa)) ->
  db_ok (inner_db sa) -> grows sa sc -> start <= seqno (db_tracker (inner_db sa)) <= u64_max ->
  get_seqno_safe_to_gc (db_tracker (inner_db sc)) <= seqno (db_tracker (inner_db sa)) ->
  memtables (inner x) <> ∅ -> otx_commit order (tables x) x sc = Some (s', Ok r) -> r = Committed ->
  forall (ks : Keyspace) key, recorded x (ks_id ks) key -> contents sa ks key = contents sc ks key.
Proof.
  intros Hinv Hx Hi Hok Hg [Hst Hle] Hw Hne Hc -> ks key (rd & Hrd & Hcov). unfold contents, cur_view.
  rewrite <- (visible_current (inner_db sa)), <- (grows_get sa sc) by done. unfold current, snapshot_get. f_equal.
  unfold otx_commit in Hc. rewrite decide_False in Hc by done. unfold with_commit in Hc.
  destruct (any_conflict _ _) as [[]|] eqn:Ea; [done| |done]. rewrite <- Hi.
  apply (validated_reads start sc x Hinv Hx ltac:(lia) ltac:(lia) Ea (ks_id ks) rd key u64_max Hrd Hcov). lia.
Qed.

(** What a commit leaves of the view of a transaction. *)
Lemma commit_leaves handles start (x : Tx) (s s' : OptimisticDb T) :
  consistent handles -> opt_inv start s -> db_seqno (inner_db s) < u64_max -> otx_wf x -> uses handles (inner x) ->
  otx_commit order (tables x) x s = Some (s', Ok Committed) -> leaves handles (overlay (contents s) x) s s'.
Proof.
  intros Hcon Hinv Hmax Hx Hu Hc.
  pose proof (otx_commit_contents order tables tables_perm x s s' _ (opt_db_ok start s Hinv) Hmax (otx_inner _ Hx)
    (uses_distinct handles Hcon _ (otx_inner _ Hx) Hu) Hc) as Hcont.
  constructor; intros ks key Hks; rewrite Hcont.
  - by rewrite (committed_uses handles Hcon) by (done || apply Hx).
  - by rewrite (committed_other handles Hcon) by (done || apply Hx).
Qed.

Lemma failed_leaves handles start (x : Tx) (s s' : OptimisticDb T) r :
  consistent handles -> opt_inv start s -> db_seqno (inner_db s) < u64_max -> otx_wf x -> uses handles (inner x) ->
  otx_commit order (tables x) x s = Some (s', r) -> r <> Ok Committed \/ memtables (inner x) = ∅ -> same_view (contents s) (contents s').
Proof.
  intros Hcon Hinv Hmax Hx Hu Hc Hr ks key.
  rewrite (otx_commit_contents order tables tables_perm x s s' _ (opt_db_ok start s Hinv) Hmax (otx_inner _ Hx)
    (uses_distinct handles Hcon _ (otx_inner _ Hx) Hu) Hc).
  destruct r as [[]|]; [|done..]. destruct Hr as [?|E]; [done|]. by rewrite committed_empty.
Qed.

Lemma commit_serial handles start (sa s1 sc s' : OptimisticDb T) (tx0 tx : Tx) trace r :
  consistent handles -> write_tx manual sa = (s1, tx0) -> db_ok (inner_db sa) -> otx_run handles (contents sa) tx0 trace tx ->
  grows sa sc -> opt_inv start sc -> db_seqno (inner_db sc) < u64_max ->
  start <= seqno (db_tracker (inner_db sa)) <= u64_max ->
  get_seqno_safe_to_gc (db_tracker (inner_db sc)) <= seqno (db_tracker (inner_db sa)) ->
  otx_commit order (tables tx) tx sc = Some (s', r) ->
  match r with
  | Ok Committed =>
      (memtables (inner tx) <> ∅ /\ exists v, serial_calls (contents sc) trace v /\ leaves handles v sc s') \/
      (memtables (inner tx) = ∅ /\ exists v, serial_calls (contents sa) trace v /\ same_view (contents sa) v /\ same_view (contents sc) (contents s'))
  | _ => same_view (contents sc) (contents s')
  end.
Proof.
  intros Hcon Hb Hok Hrun Hg Hinv Hmax Hst Hw Hc. destruct (write_tx_fresh manual sa s1 tx0 Hb) as (Hwf & Hm & _ & _ & Hi & _).
  destruct (run_serial handles Hcon _ _ _ _ Hrun Hwf (uses_empty _ _ Hm)) as (Hwf' & Hu & _ & Hi' & Hser).
  pose proof (failed_leaves handles start tx sc s' r Hcon Hinv Hmax Hwf' Hu Hc) as Hfail.
  destruct r as [[]|e]; [|by apply Hfail; left..].
  destruct (decide (memtables (inner tx) = ∅)) as [Hempty|Hne].
  - right. split; [done|]. exists (overlay (contents sa) tx). split_and!; [|intros ks key; symmetry; by apply overlay_empty|by apply Hfail; right].
    eapply serial_calls_ext; [by apply (overlay_empty _ tx0)|]. apply Hser; [intros x ks; apply overlay_finite|done].
  - left. split; [done|]. exists (overlay (contents sc) tx). split; [|by eapply commit_leaves].
    eapply serial_calls_ext; [by apply (overlay_empty _ tx0)|]. apply Hser; [intros x ks; apply overlay_finite|].
    by apply (committed_reads start sa sc s' tx Committed); [| |congruence| | | | | | |].
Qed.

End commit.
End theory.

(** ** Samples *)

(** A transaction lists the keyspace, looks for [key_b] and writes [key_a]. *)
Definition serial_open := write_tx (M := list MItem) (T := history) true sample_opt.
Definition serial_list := run_call (CIter sample_keyspace) ([] : history) serial_open.2.
Definition serial_look := run_call (CContains sample_keyspace key_b) ([] : history) serial_list.1.
Definition serial_put := run_call (CPoint (OInsert sample_keyspace key_a [Byte.x31])) ([] : history) serial_look.1.
Definition serial_trace : list (OtxCall * Result OtxAnswer) :=
  [(CIter sample_keyspace, serial_list.2); (CContains sample_keyspace key_b, serial_look.2);
   (CPoint (OInsert sample_keyspace key_a [Byte.x31]), serial_put.2)].
Definition serial_commit := otx_commit no_order (otx_tables serial_put.1) serial_put.1 sample_opt.

Lemma serial_sample_run : otx_run (eq sample_keyspace) (contents sample_opt) serial_open.2 serial_trace serial_put.1.
Proof.
  eapply (or_step _ _ []); [by intros| | |done|done|apply surjective_pairing|]; [vm_compute; done|vm_compute; done|].
  eapply (or_step _ _ []); [by intros| | |done|done|apply surjective_pairing|]; [vm_compute; done|vm_compute; done|].
  eapply (or_step _ _ []); [by intros| | |done|done|apply surjective_pairing|apply or_nil]; vm_compute; done.
Qed.


(** ** What is not validated *)

(** A transaction asks for the size of [key_a], another one writes the key and commits,
    then the first one writes [key_b] and commits. *)
Definition size_race : option (Result (option Z) * Result CommitResult * Result (option Z)) :=
  let '(s, tx) := write_tx (M := list MItem) true sample_opt in
  let '(tx, size) := otx_size_of sample_keyspace key_a (db_trees (inner_db s)) tx in
  '(s, _) ← blind_write key_a s;
  let tx := otx_insert sample_keyspace key_b [Byte.x32] tx in
  '(s', r) ← otx_commit no_order (otx_tables tx) tx s;
  Some (size, r, tree_size_of 1 key_a u64_max (db_trees (inner_db s'))).

(** [size_of] records no read: the transaction commits although the key it found missing
    has been written before its commit point. *)
Theorem size_of_not_validated : size_race = Some (Ok None, Ok Committed, Ok (Some 1)).
Proof. vm_compute. reflexivity. Qed.
