(* ===== verification/Engine.v ===== *)
(** * Rotation, flushing and journal eviction

    Models what the background workers do: [worker_tick] of [src/src/worker_pool.rs],
    the flush and compaction workers ([src/src/flush], [src/src/compaction/worker.rs]),
    and the rotation of memtables in [src/src/keyspace/mod.rs]. Journals are lists of
    batches here ([JournalWriter] relates them to bytes); the trees are behind
    [FlushOps].

    [None] means that the thread cannot go on: it waits for room in a channel. *)

From stdpp Require Import base gmap list.
From S2P Require Import Prelude Errors Utf8 Store Panic JournalEntry JournalReader JournalWriter JournalFiles SnapshotTracker Mvcc Db.
From S2P Require Import DbProps ReplayHistory Recovery.

#[local] Open Scope pstate_scope.

(** ** Trees with sealed memtables and tables *)

Class FlushOps (T : Type) := {
  (** Both take the sequence number up to which old versions may be dropped. *)
  tree_flush : Z -> Z -> T -> T * Result (option Z);
  tree_compact : Z -> Z -> T -> T * Result ();
  tree_highest_memtable_seqno : Z -> T -> option Z;
  (** [active_memtable().id()]. *)
  tree_active_memtable_id : Z -> T -> Z
}.


(** A history that reads like another from an instant on. *)
Definition reads_like (from ks : Z) (h h' : history) : Prop :=
  forall key i, from <= i -> summary (newest h ks key i) (newest h' ks key i).

(** No weak tombstones: when a compaction meets one it may drop it together with the
    version below and so bring back older ones, which the documentation of
    [remove_weak] warns of. *)
Definition weak_free (h : history) : Prop := forall v, v ∈ h -> v_type v <> WeakTombstone.

Class FlushLaws (T : Type) `{!TreeOps T, !TreeLaws T, !LsmOps T, !LsmLaws T, !FlushOps T} := {
  (** The keyspaces that are compacted without losing data: the strategy is not [Fifo],
      which drops the oldest tables, and there is no compaction filter, which drops what
      it likes. Nothing is assumed about what flushes and compactions do to the data of
      the others, or to weak tombstones. *)
  exact : Z -> Prop;
  (** A flush writes the sealed memtables into tables; other keyspaces and the active
      memtable stay, and a failed flush changes nothing. *)
  flush_parts ks' ks w t t' r : tree_flush ks w t = (t', r) ->
    memtable ks' t' = memtable ks' t /\
    if decide (ks' = ks /\ is_ok r = true) then
      sealed ks' t' = [] /\
      (exact ks' -> weak_free (sealed ks' t ++ tables ks' t) ->
        reads_like w ks' (tables ks' t') (sealed ks' t ++ tables ks' t) /\ weak_free (tables ks' t')) /\
      (forall s, covers (tree_highest_persisted_seqno ks' t') s = true ->
        covers (tree_highest_persisted_seqno ks' t) s = true \/ exists v, v ∈ sealed ks' t /\ s <= v_seqno v)
    else sealed ks' t' = sealed ks' t /\ tables ks' t' = tables ks' t /\
      tree_highest_persisted_seqno ks' t' = tree_highest_persisted_seqno ks' t;
  (** A compaction rewrites the tables; it never makes them report newer data. *)
  compact_parts ks' ks w t t' r : tree_compact ks w t = (t', r) ->
    memtable ks' t' = memtable ks' t /\ sealed ks' t' = sealed ks' t /\
    if decide (ks' = ks /\ is_ok r = true) then
      (exact ks' -> weak_free (tables ks' t) -> reads_like w ks' (tables ks' t') (tables ks' t) /\ weak_free (tables ks' t')) /\
      (forall s, covers (tree_highest_persisted_seqno ks' t') s = true -> covers (tree_highest_persisted_seqno ks' t) s = true)
    else tables ks' t' = tables ks' t /\ tree_highest_persisted_seqno ks' t' = tree_highest_persisted_seqno ks' t;
  (** The tables report the sequence number of something in them. *)
  persisted_version ks t s : tree_highest_persisted_seqno ks t = Some s -> exists v, v ∈ tables ks t /\ s <= v_seqno v;
  highest_memtable_seqno ks t : tree_highest_memtable_seqno ks t = hist_highest ks (memtable ks t ++ sealed ks t);
  (** The tree as it is opened again after the process ended: memtables are gone. *)
  reopened : T -> T;
  reopened_memtable ks t : memtable ks (reopened t) = [];
  reopened_sealed ks t : sealed ks (reopened t) = [];
  reopened_tables ks t : tables ks (reopened t) = tables ks t;
  reopened_persisted ks t : tree_highest_persisted_seqno ks (reopened t) = tree_highest_persisted_seqno ks t
}.

(** ** State *)

(** [WorkerMessage]. *)
Inductive WorkerMessage := MFlush | MCompact (ks : Z) | MClose | MRotateMemtable (ks memtable_id : Z).

Record Engine (T : Type) := mkEngine {
  en_trees : T;
  (** The batches of the active journal, and of the sealed ones in the order of the
      manager's queue. *)
  en_journal : list batch;
  en_contents : list (list batch);
  en_manager : JournalManager (K := Z);
  (** The dictionary of keyspaces in iteration order, and the deleted ones. *)
  en_keyspaces : list Z;
  en_deleted : gset Z;
  (** The shared counter of sequence numbers. *)
  en_seqno : Z;
  en_tracker : SnapshotTracker;
  en_write_buffer_size : Z;
  (** The channel of the workers, and the tasks of the flush manager. *)
  en_messages : list WorkerMessage;
  en_tasks : list Z;
  (** [Stats]: active and completed compactions. *)
  active_compaction_count : Z;
  compactions_completed : Z
}.
Arguments mkEngine {T}.
Arguments en_trees {T}.
Arguments en_journal {T}.
Arguments en_contents {T}.
Arguments en_manager {T}.
Arguments en_keyspaces {T}.
Arguments en_deleted {T}.
Arguments en_seqno {T}.
Arguments en_tracker {T}.
Arguments en_write_buffer_size {T}.
Arguments en_messages {T}.
Arguments en_tasks {T}.
Arguments active_compaction_count {T}.
Arguments compactions_completed {T}.

(** The outcome of [Writer::rotate]. The writer of the new journal replaces that of the old
    one before the folder is synced: if that fails, the new journal stays. *)
Inductive Rotation :=
  | RotateFailed (e : Error)
  | RotatedUnsynced (e : Error)
  | Rotated (sealed_path : str).

(** What the file system answers while a message is handled. *)
Record TickEnv := mkTickEnv {
  te_pos : Result ();
  te_len : Result Z;
  te_rotate : Rotation;
  te_remove_file : str -> Result ()
}.

(** The bound of both channels, and the size from which on the journal is rotated. *)
Definition CHANNEL_SIZE : nat := 1000.
Definition JOURNAL_LIMIT : Z := 64000000.

Section operations.
Context `{JournalCodec} {T : Type} `{!TreeOps T, !LsmOps T, !FlushOps T}.

Abbreviation Eng := (Engine T).
Abbreviation EM := (PState (Engine T)).

Definition en_set_trees (t : T) (e : Eng) : Eng :=
  mkEngine t (en_journal e) (en_contents e) (en_manager e) (en_keyspaces e) (en_deleted e) (en_seqno e) (en_tracker e) (en_write_buffer_size e)
    (en_messages e) (en_tasks e) (active_compaction_count e) (compactions_completed e).
Definition en_set_journals (j : list batch) (c : list (list batch)) (m : JournalManager) (e : Eng) : Eng :=
  mkEngine (en_trees e) j c m (en_keyspaces e) (en_deleted e) (en_seqno e) (en_tracker e) (en_write_buffer_size e)
    (en_messages e) (en_tasks e) (active_compaction_count e) (compactions_completed e).
Definition en_set_tracker (tr : SnapshotTracker) (e : Eng) : Eng :=
  mkEngine (en_trees e) (en_journal e) (en_contents e) (en_manager e) (en_keyspaces e) (en_deleted e) (en_seqno e) tr (en_write_buffer_size e)
    (en_messages e) (en_tasks e) (active_compaction_count e) (compactions_completed e).
Definition en_set_buffer (n : Z) (e : Eng) : Eng :=
  mkEngine (en_trees e) (en_journal e) (en_contents e) (en_manager e) (en_keyspaces e) (en_deleted e) (en_seqno e) (en_tracker e) n
    (en_messages e) (en_tasks e) (active_compaction_count e) (compactions_completed e).
Definition en_set_channels (msgs : list WorkerMessage) (tasks : list Z) (e : Eng) : Eng :=
  mkEngine (en_trees e) (en_journal e) (en_contents e) (en_manager e) (en_keyspaces e) (en_deleted e) (en_seqno e) (en_tracker e)
    (en_write_buffer_size e) msgs tasks (active_compaction_count e) (compactions_completed e).
Definition en_set_stats (active completed : Z) (e : Eng) : Eng :=
  mkEngine (en_trees e) (en_journal e) (en_contents e) (en_manager e) (en_keyspaces e) (en_deleted e) (en_seqno e) (en_tracker e)
    (en_write_buffer_size e) (en_messages e) (en_tasks e) active completed.

(** ** Channels *)

(** [try_send(..).ok()] drops the message when the channel is full, [send] waits. *)
Definition try_send (msg : WorkerMessage) : EM () := ps_modify (fun e =>
  if decide (length (en_messages e) < CHANNEL_SIZE)%nat then en_set_channels (en_messages e ++ [msg]) (en_tasks e) e else e).
Definition send (msg : WorkerMessage) : EM () := fun e =>
  if decide (length (en_messages e) < CHANNEL_SIZE)%nat
  then Some (en_set_channels (en_messages e ++ [msg]) (en_tasks e) e, Ok ()) else None.

(** [FlushManager::enqueue] and [dequeue]. *)
Definition enqueue_task (ks : Z) : EM () := fun e =>
  if decide (length (en_tasks e) < CHANNEL_SIZE)%nat
  then Some (en_set_channels (en_messages e) (en_tasks e ++ [ks]) e, Ok ()) else None.
Definition dequeue_task : EM (option Z) := fun e =>
  match en_tasks e with
  | [] => Some (e, Ok None)
  | ks :: tasks => Some (en_set_channels (en_messages e) tasks e, Ok (Some ks))
  end.

(** ** Rotating memtables *)

Definition request_rotation (ks : Z) : EM () := fun e =>
  try_send (MRotateMemtable ks (tree_active_memtable_id ks (en_trees e))) e.

(** [check_memtable_rotate]; [max_memtable_size] is that of the keyspace. *)
Definition check_memtable_rotate (max_memtable_size size ks : Z) : EM () :=
  if decide (max_memtable_size < size) then request_rotation ks else ps_ret ().

Definition highest_persisted (e : Eng) (ks : Z) : option Z := tree_highest_persisted_seqno ks (en_trees e).
Definition keyspace_deleted (e : Eng) (ks : Z) : bool := bool_decide (ks ∈ en_deleted e).

(** [journal_manager.write().maintenance()]. *)
Definition journal_maintenance (env : TickEnv) : EM () := fun e =>
  let '(m, removed, r) := maintenance (highest_persisted e) (keyspace_deleted e) (te_remove_file env) (en_manager e) in
  Some (en_set_journals (en_journal e) (drop (length removed) (en_contents e)) m e, r).

(** [snapshot_tracker.pullup(); snapshot_tracker.gc()]; [order] is the map order. *)
Definition collect_snapshots (order : SnapshotTracker -> list (Z * nat)) : EM () := ps_modify (fun e =>
  let t := pullup (en_tracker e) in en_set_tracker (gc (order t) t) e).

(** The rotation proper: whether the memtable was sealed. *)
Definition seal_memtable (ks memtable_id : Z) : EM bool := fun e =>
  if decide (tree_active_memtable_id ks (en_trees e) = memtable_id) then
    let '(t, o) := tree_rotate_memtable ks (en_trees e) in
    Some (en_set_trees t e, Ok (match o with Some _ => true | None => false end))
  else Some (e, Ok false).

(** [inner_rotate_memtable]; the maintenance of the version histories is best effort. *)
Definition inner_rotate_memtable (env : TickEnv) (order : SnapshotTracker -> list (Z * nat)) (ks memtable_id : Z) : EM bool :=
  rotated <-- seal_memtable ks memtable_id ;;
  if (rotated : bool) then
    enqueue_task ks ;;;;
    send MFlush ;;;;
    collect_snapshots order ;;;;
    journal_maintenance env ;;;;
    ps_ret true
  else ps_ret false.

(** [Keyspace::rotate_memtable]. *)
Definition rotate_memtable (env : TickEnv) (order : SnapshotTracker -> list (Z * nat)) (ks : Z) : EM bool := fun e =>
  inner_rotate_memtable env order ks (tree_active_memtable_id ks (en_trees e)) e.

(** ** Flushing and compacting *)

(** [flush::worker::run]. *)
Definition run_flush (ks : Z) : EM () := fun e =>
  match tree_flush ks (get_seqno_safe_to_gc (en_tracker e)) (en_trees e) with
  | (t, Ok (Some flushed_bytes)) => Some (en_set_buffer (free flushed_bytes (en_write_buffer_size e)) (en_set_trees t e), Ok ())
  | (t, Ok None) => Some (en_set_trees t e, Ok ())
  | (t, Err x) => Some (en_set_trees t e, Err x)
  end.

(** [compaction::worker::run]; the time it takes is not modelled. *)
Definition run_compaction (ks : Z) : EM () := fun e =>
  if keyspace_deleted e ks then Some (e, Ok ())
  else
    match tree_compact ks (get_seqno_safe_to_gc (en_tracker e)) (en_trees e) with
    | (t, Err x) => Some (en_set_trees t e, Err x)
    | (t, Ok ()) => Some (en_set_stats (active_compaction_count e) (compactions_completed e + 1) (en_set_trees t e), Ok ())
    end.

(** ** Rotating the journal *)

(** The watermarks: the highest sequence number in memtables of each keyspace. *)
Definition seqno_map (e : Eng) : list EvictionWatermark :=
  omap (fun ks => mkEvictionWatermark ks <$> tree_highest_memtable_seqno ks (en_trees e)) (en_keyspaces e).

(** [rotate_journal]. A rotation that fails early leaves the active journal in place; one
    that fails late leaves the new one active, and the old one is not queued. *)
Definition seal_journal (env : TickEnv) : EM () := fun e =>
  match te_len env with
  | Err x => Some (e, Err x)
  | Ok journal_size =>
      match te_rotate env with
      | RotateFailed x => Some (e, Err x)
      | RotatedUnsynced x => Some (en_set_journals [] (en_contents e) (en_manager e) e, Err x)
      | Rotated sealed_path =>
          Some (en_set_journals [] (en_contents e ++ [en_journal e])
                  (JournalFiles.enqueue (en_manager e) (mkManagerItem sealed_path journal_size (seqno_map e))) e, Ok ())
      end
  end.

Fixpoint request_rotations (keyspaces : list Z) : EM () :=
  match keyspaces with
  | [] => ps_ret ()
  | ks :: keyspaces => request_rotation ks ;;;; request_rotations keyspaces
  end.

(** The part of a flush under the journal lock. *)
Definition maybe_rotate_journal (env : TickEnv) (max_journaling_size : Z) : EM () := fun e =>
  match te_pos env with
  | Err x => Some (e, Err x)
  | Ok () =>
      if decide (JOURNAL_LIMIT < Z.of_nat (length (journal_bytes (en_journal e)))) then
        (seal_journal env ;;;;
         (fun e =>
            if decide (max_journaling_size <= disk_space_in_bytes (en_manager e))
            then request_rotations (keyspaces_to_flush (highest_persisted e) (en_manager e)) e
            else Some (e, Ok ()))) e
      else Some (e, Ok ())
  end.

(** ** The workers *)

Fixpoint send_compactions (n : nat) (ks : Z) : EM () :=
  match n with
  | O => ps_ret ()
  | S n => try_send (MCompact ks) ;;;; send_compactions n ks
  end.

(** [worker_tick]: [true] stops the worker; an empty channel makes it wait. *)
Definition worker_tick (env : TickEnv) (order : SnapshotTracker -> list (Z * nat)) (pool_size worker_id : nat)
    (max_journaling_size : Z) : EM bool := fun e =>
  match en_messages e with
  | [] => None
  | item :: messages =>
      (match item with
       | MClose => ps_ret true
       | MRotateMemtable ks memtable_id => inner_rotate_memtable env order ks memtable_id ;;;; ps_ret false
       | MFlush =>
           task <-- dequeue_task ;;
           match task with
           | None => ps_ret false
           | Some ks =>
               maybe_rotate_journal env max_journaling_size ;;;;
               run_flush ks ;;;;
               send_compactions pool_size ks ;;;;
               journal_maintenance env ;;;;
               ps_ret false
           end
       | MCompact ks =>
           if decide (1 < pool_size /\ worker_id = 0)%nat then send (MCompact ks) ;;;; ps_ret false
           else run_compaction ks ;;;; ps_ret false
       end) (en_set_channels messages (en_tasks e) e)
  end.
End operations.
