(* ===== verification/EngineProps.v ===== *)
(** * The engine can lose its memory at any time

    Rotating, flushing, compacting and evicting journals, in any interleaving with
    writes, keep everything recoverable: what the tables lack is in a journal that is
    still there. What readers see is only known of keyspaces that are [exact] and never
    weakly removed from; the steps keep weak removals to the others. *)

From stdpp Require Import base gmap list sorting relations.
From S2P Require Import Prelude Errors Utf8 Store Panic JournalEntry JournalReader JournalWriter JournalFiles SnapshotTracker Mvcc Db.
From S2P Require Import DbProps ReplayHistory Recovery RecoveryProps Engine.

(** ** Lists of versions up to the kind of tombstone *)

Lemma norm_filter upto b (h : history) :
  norm <$> filter (fun v => covers upto (v_seqno v) = b) h = filter (fun v => covers upto (v_seqno v) = b) (norm <$> h).
Proof.
  induction h as [|v h IH]; [done|]. rewrite fmap_cons, !filter_cons. cbn [norm v_seqno].
  case_decide; [by rewrite fmap_cons, IH|done].
Qed.

Lemma norm_seqno (h h' : history) v :
  norm <$> h = norm <$> h' -> v ∈ h -> exists v', v' ∈ h' /\ v_seqno v' = v_seqno v /\ v_keyspace v' = v_keyspace v.
Proof.
  intros E Hv. assert (norm v ∈ norm <$> h') as Hin by (rewrite <- E; by apply list_elem_of_fmap_2).
  apply list_elem_of_fmap in Hin as (v' & Ev & Hin). exists v'. split; [done|]. unfold norm in Ev. by injection Ev.
Qed.

Lemma norm_seqno_eq v v' : norm v = norm v' -> v_seqno v = v_seqno v'.
Proof. intros E. exact (f_equal v_seqno E). Qed.

(** ** Histories split at a sequence number *)

Lemma filter_nothing {A} (P : A -> Prop) `{!forall x, Decision (P x)} (l : list A) : (forall x, x ∈ l -> ~ P x) -> filter P l = [].
Proof. intros HP. apply elem_of_nil_inv. intros x [? ?]%list_elem_of_filter. by apply (HP x). Qed.

Abbreviation flushed_part upto := (filter (fun v => covers upto (v_seqno v) = true)).
Abbreviation unflushed_part upto := (filter (fun v => covers upto (v_seqno v) = false)).

Lemma newest_split upto (h : history) ks key i :
  newest h ks key i = later (newest (unflushed_part upto h) ks key i) (newest (flushed_part upto h) ks key i).
Proof.
  rewrite <- newest_app. apply newest_slots. intros s. rewrite slot_app. destruct (covers upto s) eqn:Es.
  - rewrite (slot_filter (fun v => covers upto (v_seqno v) = true)) by (by intros v _ ->).
    destruct (slot (unflushed_part upto h) ks key s) as [v|] eqn:Ev; [|done].
    apply slot_Some in Ev as [[Hv _]%list_elem_of_filter [_ <-]]. congruence.
  - rewrite slot_filter by (by intros v _ ->). destruct (slot h ks key s) as [v|] eqn:Ev; [done|].
    symmetry. apply eq_None_not_Some. intros [v E]. apply slot_Some in E as [[Hv _]%list_elem_of_filter [_ <-]]. congruence.
Qed.

Lemma covers_lt upto s s' : covers upto s = true -> covers upto s' = false -> s < s'.
Proof. intros Hs Hs'. destruct (decide (s' <= s)); [|lia]. by rewrite (covers_le _ s' s) in Hs'. Qed.

(** Data the tables may lack, on top of them: what was kept in memory may overlap with
    what the tables hold. *)
Lemma newest_kept kept (top h : history) ks key i :
  norm <$> top = norm <$> unflushed_part kept h ->
  match newest top ks key i with
  | Some v => exists v', newest h ks key i = Some v' /\ norm v = norm v' /\ covers kept (v_seqno v) = false
  | None => forall v, v ∈ h -> of_key ks key v = true -> v_seqno v < i -> covers kept (v_seqno v) = true
  end.
Proof.
  intros Ht. assert (norm <$> newest top ks key i = norm <$> newest (unflushed_part kept h) ks key i) as En by (by rewrite <- !newest_norm, Ht).
  rewrite (newest_split kept h). destruct (newest top ks key i) as [v|].
  - destruct (newest (unflushed_part kept h) ks key i) as [v'|] eqn:E; [|done]. apply (inj Some) in En. exists v'.
    apply newest_Some in E as ([Hv _]%list_elem_of_filter & _). split; [|split; [done|by rewrite (norm_seqno_eq v v')]].
    destruct (newest (flushed_part kept h) ks key i) as [u|] eqn:Eu; [|done]. apply newest_Some in Eu as ([Hu _]%list_elem_of_filter & _).
    cbn. rewrite decide_False; [done|]. pose proof (covers_lt _ _ _ Hu Hv). lia.
  - destruct (newest (unflushed_part kept h) ks key i) as [v'|] eqn:E; [done|]. intros v Hv Hk Hi.
    destruct (covers kept (v_seqno v)) eqn:Ec; [done|]. destruct (newest_None _ _ _ _ E v); [by apply list_elem_of_filter|done|done].
Qed.

Lemma parts_read from kept solid (top tables h : history) ks :
  (forall s, covers kept s = true -> covers solid s = true) ->
  norm <$> top = norm <$> unflushed_part kept h -> solid_like solid from ks tables h -> reads_like from ks (top ++ tables) h.
Proof.
  intros Hle Ht Hr key i Hi. destruct (Hr key i Hi) as (u & Hu & Hs). pose proof (newest_kept kept top h ks key i Ht) as Hn.
  rewrite newest_app. destruct (newest top ks key i) as [v|].
  - destruct Hn as (v' & E & Ev & _). rewrite E, (later_hides v _ _ Hs); [apply summary_norm; cbn; by rewrite Ev|].
    intros x Hx. apply newest_Some in Hx as ([_ Hx]%list_elem_of_filter & Hk & Hlt & _).
    apply newest_Some in E as (_ & _ & _ & Hmax). rewrite (norm_seqno_eq v v') by done. by apply Hmax.
  - cbn. rewrite (newest_filter (fun v => covers u (v_seqno v) = true) h) in Hs; [done|]. intros v Hv Hk Hlt. by apply Hu, Hle, Hn.
Qed.

(** Flushing the memtables up to [m], which go further than the tables are solid. *)
Lemma flush_solid from kept solid m (top tables h : history) ks :
  (forall s, covers kept s = true -> covers solid s = true) -> (forall s, covers solid s = true -> s <= m) ->
  norm <$> top = norm <$> unflushed_part kept (flushed_part (Some m) h) -> solid_like solid from ks tables h ->
  solid_like (Some m) from ks (top ++ tables) h.
Proof.
  intros Hle Hm Ht Hr key i Hi. destruct (Hr key i Hi) as (u & Hu & Hs). pose proof (newest_kept kept top _ ks key i Ht) as Hn.
  assert (forall s, covers u m = true -> covers (Some m) s = true -> covers u s = true) as Hmu.
  { intros s Hum Hsm%Z.leb_le. by apply (covers_le _ _ m). }
  rewrite newest_app. destruct (newest top ks key i) as [v|].
  - destruct Hn as (v' & E & Ev & _). destruct (decide (later (Some v) (newest tables ks key i) = Some v)) as [->|Hnew].
    { exists (Some m). split; [done|]. rewrite E. apply summary_norm. cbn. by rewrite Ev. }
    destruct (newest tables ks key i) as [y|] eqn:Ey; [|done]. cbn [later] in Hnew |- *. case_decide as Hlt; [|done].
    exists u. split; [|done]. intros s. apply Hmu. destruct (covers u m) eqn:Ec; [done|exfalso].
    destruct (proj2 Hs y eq_refl) as (x & Ex & Hxy). apply newest_Some in Ex as ([Hcx Hx]%list_elem_of_filter & Hk & Hxi & _).
    pose proof (covers_lt _ _ _ Hcx Ec). apply newest_Some in E as (_ & _ & _ & Hmax).
    assert (v_seqno x <= v_seqno v'); [apply Hmax; [apply list_elem_of_filter; split; [apply Z.leb_le; lia|done]|done|done]|].
    rewrite <- (norm_seqno_eq v v') in * by done. lia.
  - cbn. destruct (covers u m) eqn:Ec; [exists u; split; [auto|done]|]. exists (Some m). split; [done|].
    rewrite <- (newest_filter (fun v => covers u (v_seqno v) = true) (flushed_part (Some m) h)); [|intros v Hv Hk Hlt; by apply Hu, Hle, Hn].
    rewrite list_filter_filter. erewrite list_filter_iff; [exact Hs|]. intros v. cbn beta. split; [tauto|]. intros Hv. split; [done|].
    apply Z.leb_le. pose proof (covers_lt _ _ _ Hv Ec). lia.
Qed.

Lemma solid_like_trans solid from ks tb tb' h : reads_like from ks tb tb' -> solid_like solid from ks tb' h -> solid_like solid from ks tb h.
Proof. intros Hr Hs key i Hi. destruct (Hs key i Hi) as (u & ? & ?). exists u. split; [done|]. by eapply summary_trans; [apply Hr|]. Qed.

Lemma solid_like_from solid from from' ks tb h : from <= from' -> solid_like solid from ks tb h -> solid_like solid from' ks tb h.
Proof. intros Hle Hr key i Hi. apply Hr. lia. Qed.

(** Versions above everything so far do not matter. *)
Lemma solid_like_above solid from ks tb (new h : history) c :
  (forall s, covers solid s = true -> s < c) -> (forall v, v ∈ h -> v_seqno v < c) -> (forall v, v ∈ new -> c <= v_seqno v) ->
  solid_like solid from ks tb h -> solid_like solid from ks tb (new ++ h).
Proof.
  intros Hc Hh Hnew Hs key i Hi. destruct (Hs key i Hi) as (u & Hu & Hsum).
  exists (match u with Some x => Some (Z.min x (c - 1)) | None => None end). split.
  - intros s Hcov. specialize (Hu s Hcov). specialize (Hc s Hcov). destruct u as [x|]; [|done]. cbn in *. apply Z.leb_le in Hu. apply Z.leb_le. lia.
  - rewrite filter_app, filter_nothing; [|intros v Hv; specialize (Hnew v Hv); destruct u as [x|]; cbn; [rewrite Z.leb_le; lia|done]].
    cbn [app]. rewrite (list_filter_iff' _ (fun v => covers u (v_seqno v) = true)); [done|]. intros v Hv. specialize (Hh v Hv).
    destruct u as [x|]; cbn; [|done]. rewrite !Z.leb_le. lia.
Qed.

Lemma reads_like_from from from' ks h h' : from <= from' -> reads_like from ks h h' -> reads_like from' ks h h'.
Proof. intros Hle Hr key i Hi. apply Hr. lia. Qed.

Lemma reads_like_trans from ks h1 h2 h3 : reads_like from ks h1 h2 -> reads_like from ks h2 h3 -> reads_like from ks h1 h3.
Proof. intros H1 H2 key i Hi. by eapply summary_trans; [apply H1|apply H2]. Qed.

(** Flushing the data up to [upto']. *)
Lemma flush_split upto upto' (mem sealed h : history) :
  (forall s, covers upto s = true -> covers upto' s = true) ->
  (forall v, v ∈ mem -> covers upto' (v_seqno v) = false) -> (forall v, v ∈ sealed -> covers upto' (v_seqno v) = true) ->
  norm <$> (mem ++ sealed) = norm <$> unflushed_part upto h ->
  norm <$> mem = norm <$> unflushed_part upto' h /\
  norm <$> sealed = norm <$> unflushed_part upto (flushed_part upto' h) /\
  flushed_part upto (flushed_part upto' h) = flushed_part upto h.
Proof.
  intros Hle Hm Hs E.
  assert (forall b, norm <$> filter (fun v => covers upto' (v_seqno v) = b) (mem ++ sealed) =
    norm <$> filter (fun v => covers upto' (v_seqno v) = b) (unflushed_part upto h)) as Ef.
  { intros b. by rewrite (norm_filter upto' b (mem ++ sealed)), (norm_filter upto' b (unflushed_part upto h)), E. }
  assert (forall b, filter (fun v => covers upto' (v_seqno v) = b) mem = if b then [] else mem) as Emem.
  { intros []; [apply filter_nothing|apply list_filter_all]; intros v Hv; by rewrite Hm. }
  assert (forall b, filter (fun v => covers upto' (v_seqno v) = b) sealed = if b then sealed else []) as Esealed.
  { intros []; [apply list_filter_all|apply filter_nothing]; intros v Hv; by rewrite Hs. }
  split_and!.
  - specialize (Ef false). rewrite filter_app, Emem, Esealed, app_nil_r in Ef. rewrite Ef. f_equal.
    rewrite list_filter_filter. apply list_filter_iff. intros v. split; [tauto|]. intros Hv. split; [done|].
    destruct (covers upto (v_seqno v)) eqn:Ev; [|done]. by rewrite Hle in Hv.
  - specialize (Ef true). rewrite filter_app, Emem, Esealed in Ef. cbn [app] in Ef. rewrite Ef. f_equal.
    rewrite !list_filter_filter. apply list_filter_iff. tauto.
  - rewrite list_filter_filter. apply list_filter_iff. intros v. split; [tauto|]. intros Hv. by split; [|apply Hle].
Qed.

Section engine.
Context `{JournalCodec} {T : Type} `{!TreeOps T, !TreeLaws T, !LsmOps T, !LsmLaws T, !FlushOps T, !FlushLaws T}.
Context (tree_clear_ok : clears_succeed T).

Abbreviation Eng := (Engine T).

(** ** Writes *)

(** A batch as the write path applies it: a single weak removal writes a plain tombstone
    ([plain]), one in a batch a weak one. *)
Definition live_entry (plain : bool) (s : Z) (t : T) (e : Entry) : T :=
  match e with
  | Item ks key value Value _ => (tree_insert ks key value s t).1
  | Item ks key _ Tombstone _ => (tree_remove ks key s t).1
  | Item ks key _ WeakTombstone _ => if plain then (tree_remove ks key s t).1 else (tree_remove_weak ks key s t).1
  | Clear ks => (tree_clear ks t).1
  | _ => t
  end.

Definition live_batch (plain : bool) (b : batch) (t : T) : T := foldl (live_entry plain b.1) t b.2.

(** A write draws the next sequence number. *)
Definition en_write (plain : bool) (entries : list Entry) (e : Eng) : Eng :=
  let b := (en_seqno e, entries) in
  mkEngine (live_batch plain b (en_trees e)) (en_journal e ++ [b]) (en_contents e) (en_manager e) (en_keyspaces e) (en_deleted e)
    (en_seqno e + 1) (en_tracker e) (en_write_buffer_size e) (en_messages e) (en_tasks e)
    (active_compaction_count e) (compactions_completed e).

Definition all_batches (e : Eng) : list batch := concat (en_contents e) ++ en_journal e.

(** A keyspace that recovery will find. *)
Definition live (e : Eng) (ks : Z) : Prop := ks ∈ en_keyspaces e /\ ks ∉ en_deleted e.

(** ** Steps

    [w] bounds the sequence numbers up to which flushes and compactions drop versions. *)

(** Everything but the data, the journals and the set of keyspaces that are live may
    change at any time: channels, counters, snapshots, sequence numbers drawn by
    others, keyspaces deleted. *)
Record idle_step (e e' : Eng) : Prop := {
  id_trees : en_trees e' = en_trees e;
  id_journal : en_journal e' = en_journal e;
  id_contents : en_contents e' = en_contents e;
  id_items : mgr_items (en_manager e') = mgr_items (en_manager e);
  id_seqno : en_seqno e <= en_seqno e';
  id_live ks : live e' ks -> live e ks
}.

(** A keyspace that was created: its tree is empty and no journal knows it. *)
Definition en_create (ks : Z) (e : Eng) : Eng :=
  mkEngine (en_trees e) (en_journal e) (en_contents e) (en_manager e) (en_keyspaces e ++ [ks]) (en_deleted e)
    (en_seqno e) (en_tracker e) (en_write_buffer_size e) (en_messages e) (en_tasks e)
    (active_compaction_count e) (compactions_completed e).

Record unused (e : Eng) (ks : Z) : Prop := {
  un_not_live : ~ live e ks;
  un_versions : memtable ks (en_trees e) = [] /\ sealed ks (en_trees e) = [] /\ tables ks (en_trees e) = [];
  un_persisted : highest_persisted e ks = None;
  un_journals : Forall (fun b => ~ touches ks b) (all_batches e)
}.

(** What goes on whether or not a write is under way: these do not take the lock of the
    journal. *)
Inductive free_step (w : Z) : Eng -> Eng -> Prop :=
  | es_flush e ks e' r : get_seqno_safe_to_gc (en_tracker e) <= w -> run_flush ks e = Some (e', r) -> free_step w e e'
  | es_compact e ks e' r : get_seqno_safe_to_gc (en_tracker e) <= w -> run_compaction ks e = Some (e', r) -> free_step w e e'
  | es_maintenance e env e' r : journal_maintenance env e = Some (e', r) -> free_step w e e'
  | es_create e ks : unused e ks -> free_step w e (en_create ks e)
  | es_idle e e' : idle_step e e' -> free_step w e e'.

(** Rotations take it. One of the journal whose folder can not be synced is not a step:
    the old journal is then out of sight until the database is opened again, and the
    worker that did it poisons the database. *)
Inductive locked_step : Eng -> Eng -> Prop :=
  | es_seal_memtable e ks id e' r : seal_memtable ks id e = Some (e', r) -> locked_step e e'
  | es_seal_journal e env e' r : (forall x, te_rotate env <> RotatedUnsynced x) -> seal_journal env e = Some (e', r) -> locked_step e e'.

(** An entry that is not a weak removal from a keyspace. *)
Definition strong_entry (ks : Z) (e : Entry) : Prop := forall key value c, e <> Item ks key value WeakTombstone c.
Definition strong_entries (es : list Entry) : Prop := forall ks e, exact ks -> e ∈ es -> strong_entry ks e.

(** Steps with each write as a whole. *)
Inductive engine_step (w : Z) : Eng -> Eng -> Prop :=
  | es_write e plain entries : storable (en_seqno e, entries) -> strong_entries entries -> engine_step w e (en_write plain entries e)
  | es_locked e e' : locked_step e e' -> engine_step w e e'
  | es_free e e' : free_step w e e' -> engine_step w e e'.

(** ** Writes under way *)

(** A write that is in the journal; [fl_rest] has yet to reach the trees. *)
Record Flight := mkFlight { fl_plain : bool; fl_seqno : Z; fl_rest : list Entry }.

(** Under the lock of the journal: the batch is journaled, its entries go to the trees one
    by one, the lock is released. *)
Definition en_begin (entries : list Entry) (e : Eng) : Eng :=
  mkEngine (en_trees e) (en_journal e ++ [(en_seqno e, entries)]) (en_contents e) (en_manager e) (en_keyspaces e) (en_deleted e)
    (en_seqno e + 1) (en_tracker e) (en_write_buffer_size e) (en_messages e) (en_tasks e)
    (active_compaction_count e) (compactions_completed e).

Inductive fine_step (w : Z) : Eng * option Flight -> Eng * option Flight -> Prop :=
  | fs_begin e plain entries : storable (en_seqno e, entries) -> strong_entries entries ->
      fine_step w (e, None) (en_begin entries e, Some (mkFlight plain (en_seqno e) entries))
  | fs_apply e plain s entry rest :
      fine_step w (e, Some (mkFlight plain s (entry :: rest))) (en_set_trees (live_entry plain s (en_trees e) entry) e, Some (mkFlight plain s rest))
  | fs_end e plain s : fine_step w (e, Some (mkFlight plain s [])) (e, None)
  | fs_locked e e' : locked_step e e' -> fine_step w (e, None) (e', None)
  | fs_free e e' fl : free_step w e e' -> fine_step w (e, fl) (e', fl).

Lemma free_step_seqno w e e' : free_step w e e' -> en_seqno e <= en_seqno e'.
Proof.
  destruct 1 as [e ks e' r Hw E|e ks e' r Hw E|e env e' r E|e ks Hun|e e' E].
  - unfold run_flush in E. destruct (tree_flush _ _ _) as [t [[n|]|x]]; by injection E as <- _.
  - unfold run_compaction in E. destruct (keyspace_deleted e ks); [by injection E as <- _|]. destruct (tree_compact _ _ _) as [t [[]|x]]; by injection E as <- _.
  - unfold journal_maintenance in E. destruct (maintenance _ _ _ _) as [[m removed] r']. by injection E as <- _.
  - done.
  - apply E.
Qed.

Lemma locked_step_seqno e e' : locked_step e e' -> en_seqno e' = en_seqno e.
Proof.
  destruct 1 as [e ks id e' r E|e env e' r _ E].
  - unfold seal_memtable in E. case_decide; [|by injection E as <- _]. destruct (tree_rotate_memtable _ _). by injection E as <- _.
  - unfold seal_journal in E. destruct (te_len env); [|by injection E as <- _]. destruct (te_rotate env); by injection E as <- _.
Qed.

Lemma fine_step_seqno w c c' : fine_step w c c' -> en_seqno c.1 <= en_seqno c'.1.
Proof.
  destruct 1 as [e plain entries Hst Hse|e plain s x rest|e plain s|e e' Hs|e e' fl Hs]; cbn; [lia|done|done| |by apply free_step_seqno in Hs].
  by rewrite (locked_step_seqno _ _ Hs).
Qed.

(** The write under way, done. *)
Definition finish (fl : option Flight) (t : T) : T :=
  match fl with Some f => foldl (live_entry (fl_plain f) (fl_seqno f)) t (fl_rest f) | None => t end.

Lemma fine_finish w e plain s rest :
  rtc (fine_step w) (e, Some (mkFlight plain s rest)) (en_set_trees (finish (Some (mkFlight plain s rest)) (en_trees e)) e, None).
Proof.
  revert e. induction rest as [|x rest IH]; intros e.
  - eapply rtc_l; [apply fs_end|]. by destruct e.
  - eapply rtc_l; [apply fs_apply|]. exact (IH (en_set_trees (live_entry plain s (en_trees e) x) e)).
Qed.

(** A whole write is such a sequence. *)
Lemma engine_step_fine w e e' : engine_step w e e' -> rtc (fine_step w) (e, None) (e', None).
Proof.
  destruct 1 as [e plain entries Hst Hse|e e' Hs|e e' Hs].
  - eapply rtc_l; [by apply (fs_begin w e plain)|]. exact (fine_finish w (en_begin entries e) plain (en_seqno e) entries).
  - by apply rtc_once, fs_locked.
  - by apply rtc_once, fs_free.
Qed.

(** An entry as it reaches the trees. *)
Definition plain_entry (plain : bool) (e : Entry) : Entry :=
  match e with
  | Item ks key value WeakTombstone c => if plain then Item ks key value Tombstone c else e
  | _ => e
  end.

Definition stored_entry (e : Entry) : Prop := item_of e \/ exists ks, e = Clear ks.

Lemma live_entry_part plain s (t : T) e ks :
  stored_entry e -> part ks (live_entry plain s t e) = part_entry ks s (part ks t) (plain_entry plain e).
Proof.
  intros [(ks' & key & value & vt & c & -> & Hvt)|(ks' & ->)].
  - destruct (tree_apply_part ks' key value (if plain then match vt with WeakTombstone => Tombstone | _ => vt end else vt) c s t _ eq_refl) as (t' & E & Hp).
    { destruct plain, vt; done. }
    cbn [tree_apply ri_value_type ri_keyspace_id ri_key ri_value read_item] in E.
    unfold tree_apply in E. cbn [ri_value_type ri_keyspace_id ri_key ri_value] in E.
    destruct plain, vt; try done; cbn [live_entry plain_entry]; injection E as <-; apply Hp.
  - apply (tree_clear_part tree_clear_ok).
Qed.

(** What a keyspace will look like when the write under way is done. *)
Definition view (fl : option Flight) (t : T) (ks : Z) : Part :=
  match fl with
  | Some f => part_batch ks (part ks t) (fl_seqno f, plain_entry (fl_plain f) <$> fl_rest f)
  | None => part ks t
  end.

Definition flight_ok (fl : option Flight) (e : Eng) : Prop :=
  match fl with
  | Some f => Forall stored_entry (fl_rest f) /\ exists bs entries, en_journal e = bs ++ [(fl_seqno f, entries)] /\ fl_rest f ⊆ entries
  | None => True
  end.

Lemma view_finish fl e ks : flight_ok fl e -> part ks (finish fl (en_trees e)) = view fl (en_trees e) ks.
Proof.
  destruct fl as [[plain s rest]|]; [|done]. cbn [finish view fl_plain fl_seqno fl_rest flight_ok]. intros [Hst _]. unfold part_batch. cbn [fst snd].
  generalize (en_trees e). induction Hst as [|x rest Hx _ IH]; intros t; [done|]. rewrite fmap_cons. cbn [foldl].
  rewrite <- (live_entry_part plain s t x ks Hx). apply IH.
Qed.

(** Unless it is going to be cleared, only the memtable will change. *)
Lemma view_lower fl e ks :
  flight_ok fl e -> Exists (clears ks) (en_journal e) \/
  exists mem, forall t, view fl t ks = mkPart (mem (memtable ks t)) (sealed ks t) (tables ks t) (tree_highest_persisted_seqno ks t).
Proof.
  destruct fl as [[plain s rest]|]; [|intros _; right; by exists (fun mem => mem)]. intros [Hst (bs & entries & -> & Hsub)]. cbn [fl_rest fl_seqno] in *.
  destruct (decide (Clear ks ∈ rest)) as [Hc|Hc].
  - left. apply Exists_app. right. apply Exists_cons. left. by apply Hsub.
  - right. exists (fun mem => ks_batch ks mem (s, plain_entry plain <$> rest)). intros t. cbn [view fl_plain fl_seqno fl_rest]. apply part_batch_no_clear.
    unfold clears. cbn [snd]. intros (x & Hx & Hin)%list_elem_of_fmap. assert (x = Clear ks) as ->; [|done].
    destruct x as [|ks' key value vt c| |ks']; cbn [plain_entry] in Hx; [done|by destruct vt, plain|done|congruence].
Qed.

(** ** The invariant *)

(** What the history of a keyspace is: everything journaled on top of [base]. *)
Definition whole (base : history) (e : Eng) (ks : Z) : history := ks_replay ks (all_batches e) (of_ks ks base).

(** How far the tables of a keyspace go: the memtables hold everything above [kept], the
    tables everything up to [solid]. *)
Record Level := mkLevel { kept : option Z; solid : option Z }.
Definition level_none : Level := mkLevel None None.

Record ks_inv (base : history) (w : Z) (lv : Level) (p : Part) (e : Eng) (ks : Z) : Prop := {
  ki_persisted s : covers (pt_persisted p) s = true -> covers (solid lv) s = true;
  ki_kept s : covers (kept lv) s = true -> covers (solid lv) s = true;
  ki_solid s : covers (solid lv) s = true -> exists v, v ∈ whole base e ks /\ s <= v_seqno v;
  ki_memtables : norm <$> (pt_memtable p ++ pt_sealed p) = norm <$> unflushed_part (kept lv) (whole base e ks);
  ki_order v v' : v ∈ pt_memtable p -> v' ∈ pt_sealed p -> v_seqno v' < v_seqno v;
  (** Flushing the sealed memtables takes the tables further. *)
  ki_sealed s v : v ∈ pt_sealed p -> covers (solid lv) s = true -> exists v', v' ∈ pt_sealed p /\ s <= v_seqno v';
  ki_tables : exact ks -> solid_like (solid lv) w ks (pt_tables p) (whole base e ks);
  (** What would be left of the journals without the oldest [n]: unless a later batch
      clears the keyspace, the rest is in the tables or below a watermark of these. *)
  ki_evict n v : Forall (fun b => ~ clears ks b) (concat (drop n (en_contents e)) ++ en_journal e) ->
    v ∈ ks_replay ks (concat (take n (en_contents e))) (of_ks ks base) ->
    covers (solid lv) (v_seqno v) = true \/
    exists item wm, item ∈ take n (mgr_items (en_manager e)) /\ wm ∈ watermarks item /\ wm_keyspace wm = ks /\ v_seqno v <= lsn wm
}.

Record flight_inv (base : history) (w : Z) (lv : Z -> Level) (fl : option Flight) (e : Eng) : Prop := {
  ei_sorted : StronglySorted Z.lt (all_batches e).*1;
  ei_storable : Forall storable (all_batches e);
  ei_strong : Forall (fun b => strong_entries b.2) (all_batches e);
  ei_fresh b : b ∈ all_batches e -> b.1 < en_seqno e;
  ei_base v : v ∈ base -> v_seqno v < en_seqno e /\ forall b, b ∈ all_batches e -> v_seqno v < b.1;
  ei_parallel : length (en_contents e) = length (mgr_items (en_manager e));
  ei_flight : flight_ok fl e;
  ei_weak_free ks : live e ks -> exact ks -> weak_free (pt_all (part ks (en_trees e)));
  ei_keyspaces ks : live e ks -> ks_inv base w (lv ks) (view fl (en_trees e) ks) e ks
}.

Abbreviation engine_inv base w lv e := (flight_inv base w lv None e).

(** ** Steps that leave a keyspace alone *)

(** What the journals and their watermarks are. *)
Record same_journals (e e' : Eng) : Prop := {
  sj_journal : en_journal e' = en_journal e;
  sj_contents : en_contents e' = en_contents e;
  sj_items : mgr_items (en_manager e') = mgr_items (en_manager e);
  sj_seqno : en_seqno e <= en_seqno e'
}.

Lemma same_journals_batches e e' : same_journals e e' -> all_batches e' = all_batches e.
Proof. intros [Hj Hc _ _]. unfold all_batches. by rewrite Hj, Hc. Qed.

Lemma ks_inv_same base w lv p e e' ks : same_journals e e' -> ks_inv base w lv p e ks -> ks_inv base w lv p e' ks.
Proof.
  intros Hsj [Kp Kk Kf Km Ko Kse Kt Ke]. pose proof (same_journals_batches _ _ Hsj) as Hb. destruct Hsj as [Hj Hc Hi Hq].
  split; unfold whole in *; rewrite ?Hb, ?Hj, ?Hc, ?Hi; done.
Qed.

(** A step that leaves the journals alone, seen from each keyspace. *)
Lemma flight_inv_trees base w lv lv' fl fl' e e' :
  same_journals e e' -> (forall ks, live e' ks -> live e ks) -> (flight_ok fl e -> flight_ok fl' e) ->
  (forall ks, live e ks -> (exact ks -> weak_free (pt_all (part ks (en_trees e)))) ->
    ks_inv base w (lv ks) (view fl (en_trees e) ks) e ks -> ks_inv base w (lv' ks) (view fl' (en_trees e') ks) e ks) ->
  (forall ks, live e ks -> exact ks -> weak_free (pt_all (part ks (en_trees e))) -> weak_free (pt_all (part ks (en_trees e')))) ->
  flight_inv base w lv fl e -> flight_inv base w lv' fl' e'.
Proof.
  intros Hsj Hlive Hok Hks Hwf [Es Et Est Ef Eb Ep Efl Ew Ek]. pose proof (same_journals_batches _ _ Hsj) as Hb. pose proof Hsj as [Hj Hc Hi Hq].
  split; rewrite ?Hb, ?Hc, ?Hi; try done.
  - intros b ?%Ef. lia.
  - intros v [? ?]%Eb. split; [lia|done].
  - destruct fl' as [f|]; [|done]. unfold flight_ok in *. rewrite Hj. auto.
  - intros ks Hl Hx. apply Hwf; auto.
  - intros ks Hl. apply (ks_inv_same _ _ _ _ e); [done|]. auto.
Qed.

Lemma idle_inv base w lv fl e e' : idle_step e e' -> flight_inv base w lv fl e -> flight_inv base w lv fl e'.
Proof. intros [Ht Hj Hc Hi Hq Hl]. apply flight_inv_trees; [done|done|done| |]; intros ks _; by rewrite Ht. Qed.

(** ** Sealing a memtable *)

(** Everything that is not in the memtables was kept out because it is in the tables. *)
Lemma unkept_covers base w lv p e ks v :
  ks_inv base w lv p e ks -> v ∈ pt_memtable p ++ pt_sealed p -> covers (kept lv) (v_seqno v) = false.
Proof. intros Hk Hv. apply (norm_seqno _ _ _ (ki_memtables _ _ _ _ _ _ Hk)) in Hv as (v' & [Hv _]%list_elem_of_filter & <- & _). done. Qed.

Lemma memtables_whole base w lv p e ks v :
  ks_inv base w lv p e ks -> v ∈ pt_memtable p ++ pt_sealed p ->
  exists v', v' ∈ whole base e ks /\ v_seqno v' = v_seqno v /\ v_keyspace v' = v_keyspace v.
Proof. intros Hk Hv. apply (norm_seqno _ _ _ (ki_memtables _ _ _ _ _ _ Hk)) in Hv as (v' & [_ Hv]%list_elem_of_filter & ? & ?). by exists v'. Qed.

Lemma whole_keyspace base e ks v : v ∈ whole base e ks -> v_keyspace v = ks.
Proof.
  unfold whole. generalize (all_batches e). intros bs. assert (forall h, (forall v, v ∈ h -> v_keyspace v = ks) -> v ∈ ks_replay ks bs h -> v_keyspace v = ks) as Hall.
  { induction bs as [|b bs IH]; intros h Hh; [apply Hh|]. apply IH. intros u [Hu|(? & _)]%ks_foldl_from; [by apply Hh|done]. }
  apply Hall. by intros u [? _]%list_elem_of_filter.
Qed.

Lemma memtables_keyspace base w lv p e ks v : ks_inv base w lv p e ks -> v ∈ pt_memtable p ++ pt_sealed p -> v_keyspace v = ks.
Proof. intros Hk (v' & Hv' & _ & <-)%(memtables_whole _ _ _ _ _ _ _ Hk). by apply whole_keyspace in Hv'. Qed.

(** The memtables, if there is anything in them, go as far as the history. *)
Lemma memtables_top base w lv p e ks s v :
  ks_inv base w lv p e ks -> v ∈ pt_memtable p ++ pt_sealed p -> covers (solid lv) s = true ->
  exists v', v' ∈ pt_memtable p ++ pt_sealed p /\ s <= v_seqno v'.
Proof.
  intros Hk Hv (x & Hx & Hs)%(ki_solid _ _ _ _ _ _ Hk). destruct (covers (kept lv) (v_seqno x)) eqn:Ec.
  - exists v. split; [done|]. pose proof (covers_lt _ _ _ Ec (unkept_covers _ _ _ _ _ _ _ Hk Hv)). lia.
  - destruct (norm_seqno _ _ x (eq_sym (ki_memtables _ _ _ _ _ _ Hk))) as (v' & Hv' & E & _); [by apply list_elem_of_filter|].
    exists v'. split; [done|lia].
Qed.

Lemma rotate_ks_inv base w lv p e ks :
  ks_inv base w lv p e ks -> ks_inv base w lv (mkPart [] (pt_memtable p ++ pt_sealed p) (pt_tables p) (pt_persisted p)) e ks.
Proof.
  intros Hk. pose proof (fun s v => memtables_top _ _ _ _ _ _ s v Hk) as Htop. destruct Hk as [Kp Kk Kf Km Ko Kse Kt Ke].
  split; cbn [pt_memtable pt_sealed pt_tables pt_persisted]; try done. intros v v' Hv. by apply elem_of_nil in Hv.
Qed.

Lemma seal_memtable_inv base w lv e ks id e' r :
  seal_memtable ks id e = Some (e', r) -> engine_inv base w lv e -> engine_inv base w lv e'.
Proof.
  unfold seal_memtable. case_decide; [|by intros [= <- _]]. destruct (tree_rotate_memtable ks (en_trees e)) as [t o] eqn:E.
  intros [= <- _]. assert (t = (tree_rotate_memtable ks (en_trees e)).1) as -> by (by rewrite E).
  apply flight_inv_trees; [done|done|done| |].
  - intros ks' _ _ Hk. cbn [view en_trees en_set_trees] in *.
    unfold part in *. rewrite rotate_persisted, rotate_memtable_of, rotate_sealed_of, rotate_tables. case_decide; [subst|done].
    by apply rotate_ks_inv in Hk.
  - intros ks' _ _. unfold part, pt_all. cbn [en_trees en_set_trees pt_memtable pt_sealed pt_tables].
    rewrite rotate_memtable_of, rotate_sealed_of, rotate_tables. case_decide; [subst|done]. cbn [app]. by rewrite app_assoc.
Qed.

(** ** Flushing and compacting *)

(** A flush takes the tables up to the highest sealed version. *)
Definition flushed_level (lv : Level) (ks : Z) (h : history) : Level :=
  match hist_highest ks h with Some m => mkLevel (Some m) (Some m) | None => lv end.

Lemma whole_below base w lv fl e ks v : flight_inv base w lv fl e -> v ∈ whole base e ks -> v_seqno v < en_seqno e.
Proof.
  intros [_ _ _ Ef Eb _ _ _ _] [[_ Hv]%list_elem_of_filter|(b & Hb & ->)]%ks_replay_from; [by apply Eb|by apply Ef].
Qed.

Lemma solid_fresh base w lv fl l p e ks s : flight_inv base w lv fl e -> ks_inv base w l p e ks -> covers (solid l) s = true -> s < en_seqno e.
Proof. intros Hinv Hk (v & Hv & ?)%(ki_solid _ _ _ _ _ _ Hk). pose proof (whole_below _ _ _ _ _ _ _ Hinv Hv). lia. Qed.

(** What a flush up to [m] does. *)
Lemma flush_level base w lv p e ks m :
  ks_inv base w lv p e ks -> hist_highest ks (pt_sealed p) = Some m ->
  (exists v, v ∈ pt_sealed p /\ v_seqno v = m) /\ (forall v, v ∈ pt_sealed p -> v_seqno v <= m) /\
  (forall s, covers (solid lv) s = true -> s <= m) /\
  norm <$> pt_memtable p = norm <$> unflushed_part (Some m) (whole base e ks) /\
  (exact ks -> solid_like (Some m) w ks (pt_sealed p ++ pt_tables p) (whole base e ks)).
Proof.
  intros Hk Em. pose proof Em as (x & Hx & _ & Hxm)%hist_highest_in.
  assert (forall v, v ∈ pt_sealed p -> v_seqno v <= m) as Hle.
  { intros v Hv. destruct (hist_highest_above ks (pt_sealed p) v Hv) as (m' & E & ?); [apply (memtables_keyspace _ _ _ _ _ _ _ Hk); set_solver|]. rewrite Em in E. injection E as <-. done. }
  assert (forall s, covers (solid lv) s = true -> s <= m) as Hsolid.
  { intros s (v & Hv & ?)%(ki_sealed _ _ _ _ _ _ Hk s x Hx). specialize (Hle v Hv). lia. }
  destruct (flush_split (kept lv) (Some m) (pt_memtable p) (pt_sealed p) (whole base e ks)) as (Emem & Esl & _).
  { intros s Hs%(ki_kept _ _ _ _ _ _ Hk). apply Z.leb_le. by apply Hsolid. }
  { intros v Hv. apply Z.leb_gt. rewrite <- Hxm. by apply (ki_order _ _ _ _ _ _ Hk). }
  { intros v Hv. apply Z.leb_le. by apply Hle. }
  { apply (ki_memtables _ _ _ _ _ _ Hk). }
  split_and!; [by exists x|done|done|done|]. intros Hx'. apply (flush_solid _ (kept lv) (solid lv)); [apply (ki_kept _ _ _ _ _ _ Hk)|done|done|by apply (ki_tables _ _ _ _ _ _ Hk)].
Qed.

(** What [tree_flush] and [tree_compact] make of a keyspace. *)
Record flush_part (w ks : Z) (p p' : Part) : Prop := {
  fp_memtable : pt_memtable p' = pt_memtable p;
  fp_sealed : pt_sealed p' = [];
  fp_tables : exact ks -> reads_like w ks (pt_tables p') (pt_sealed p ++ pt_tables p) /\ weak_free (pt_tables p');
  fp_persisted s : covers (pt_persisted p') s = true -> covers (pt_persisted p) s = true \/ exists v, v ∈ pt_sealed p /\ s <= v_seqno v
}.
Record compact_part (w ks : Z) (p p' : Part) : Prop := {
  cp_memtable : pt_memtable p' = pt_memtable p;
  cp_sealed : pt_sealed p' = pt_sealed p;
  cp_tables : exact ks -> reads_like w ks (pt_tables p') (pt_tables p) /\ weak_free (pt_tables p');
  cp_persisted s : covers (pt_persisted p') s = true -> covers (pt_persisted p) s = true
}.

Lemma flush_ks_inv base w lv p p' e ks :
  flush_part w ks p p' -> ks_inv base w lv p e ks -> ks_inv base w (flushed_level lv ks (pt_sealed p)) p' e ks.
Proof.
  intros [Hm Hs Hr Hper] Hk. unfold flushed_level. destruct (hist_highest ks (pt_sealed p)) as [m|] eqn:Em.
  - destruct (flush_level _ _ _ _ _ _ _ Hk Em) as ((x & Hx & Hxm) & Hle & Hsolid & Emem & Etab).
    destruct (memtables_whole _ _ _ _ _ _ x Hk) as (y & Hy & Hyx & _); [set_solver|].
    split; rewrite ?Hm, ?Hs; cbn [kept solid].
    + intros s [Hcov|(v & Hv & ?)]%Hper; apply Z.leb_le; [by apply Hsolid, (ki_persisted _ _ _ _ _ _ Hk)|]. specialize (Hle v Hv). lia.
    + done.
    + intros s ?%Z.leb_le. exists y. split; [done|lia].
    + by rewrite app_nil_r.
    + intros v v' _ Hv. by apply elem_of_nil in Hv.
    + intros s v Hv. by apply elem_of_nil in Hv.
    + intros Hx'. by apply (solid_like_trans _ _ _ _ _ _ (proj1 (Hr Hx'))), Etab.
    + intros n v Hcl Hv. destruct (ki_evict _ _ _ _ _ _ Hk n v Hcl Hv) as [?|?]; [left; apply Z.leb_le; by apply Hsolid|by right].
  - assert (pt_sealed p = []) as Hno.
    { apply elem_of_nil_inv. intros v Hv. destruct (hist_highest_above ks (pt_sealed p) v Hv) as (m & E & ?); [apply (memtables_keyspace _ _ _ _ _ _ _ Hk); set_solver|]. congruence. }
    rewrite Hno in Hr, Hper. destruct Hk as [Kp Kk Kf Km Ko Kse Kt Ke]. split; rewrite ?Hm, ?Hs; try done.
    + intros s [?|(v & Hv & _)]%Hper; [by apply Kp|by apply elem_of_nil in Hv].
    + by rewrite Hno in Km.
    + intros v v' _ Hv. by apply elem_of_nil in Hv.
    + intros s v Hv. by apply elem_of_nil in Hv.
    + intros Hx'. by apply (solid_like_trans _ _ _ _ _ _ (proj1 (Hr Hx'))), Kt.
Qed.

Lemma compact_ks_inv base w lv p p' e ks : compact_part w ks p p' -> ks_inv base w lv p e ks -> ks_inv base w lv p' e ks.
Proof.
  intros [Hm Hs Hr Hper] [Kp Kk Kf Km Ko Kse Kt Ke]. split; rewrite ?Hm, ?Hs; try done.
  - intros s ?%Hper. by apply Kp.
  - intros Hx. by apply (solid_like_trans _ _ _ _ _ _ (proj1 (Hr Hx))), Kt.
Qed.

Lemma tree_flush_part ks ks' w w' (t t' : T) r :
  tree_flush ks w t = (t', r) -> w <= w' -> (exact ks' -> weak_free (pt_all (part ks' t))) ->
  if decide (ks' = ks /\ is_ok r = true) then flush_part w' ks' (part ks' t) (part ks' t') else part ks' t' = part ks' t.
Proof.
  intros Hf Hw Hfree. destruct (flush_parts ks' _ _ _ _ _ Hf) as [Hm Hparts]. case_decide.
  - destruct Hparts as (Hs & Hr & Hper). split; cbn [part pt_memtable pt_sealed pt_tables pt_persisted]; try done.
    intros Hx. destruct (Hr Hx) as [Hr' ?]; [intros v Hv; apply (Hfree Hx v), elem_of_app; by right|]. split; [by apply (reads_like_from w)|done].
  - destruct Hparts as (Hs & Ht & Hp). unfold part. by rewrite Hm, Hs, Ht, Hp.
Qed.

Lemma tree_compact_part ks ks' w w' (t t' : T) r :
  tree_compact ks w t = (t', r) -> w <= w' -> (exact ks' -> weak_free (pt_all (part ks' t))) ->
  compact_part w' ks' (part ks' t) (part ks' t') \/ part ks' t' = part ks' t.
Proof.
  intros Hf Hw Hfree. destruct (compact_parts ks' _ _ _ _ _ Hf) as (Hm & Hs & Hparts). case_decide.
  - left. destruct Hparts as (Hr & Hper). split; cbn [part pt_memtable pt_sealed pt_tables pt_persisted]; try done.
    intros Hx. destruct (Hr Hx) as [Hr' ?]; [intros v Hv; apply (Hfree Hx v); cbn [part pt_all pt_memtable pt_sealed pt_tables]; set_solver|].
    split; [by apply (reads_like_from w)|done].
  - right. destruct Hparts as (Ht & Hp). unfold part. by rewrite Hm, Hs, Ht, Hp.
Qed.

Lemma flush_weak_free w ks p p' : flush_part w ks p p' -> exact ks -> weak_free (pt_all p) -> weak_free (pt_all p').
Proof.
  intros [Hm Hs Ht _] Hx Hp v. unfold pt_all. rewrite Hm, Hs. cbn [app]. intros [Hv|Hv]%elem_of_app; [apply Hp; unfold pt_all; set_solver|by apply (proj2 (Ht Hx))].
Qed.

Lemma compact_weak_free w ks p p' : compact_part w ks p p' -> exact ks -> weak_free (pt_all p) -> weak_free (pt_all p').
Proof.
  intros [Hm Hs Ht _] Hx Hp v. unfold pt_all. rewrite Hm, Hs, app_assoc. intros [Hv|Hv]%elem_of_app; [apply Hp; unfold pt_all; set_solver|by apply (proj2 (Ht Hx))].
Qed.

(** The same while a write is under way: if it clears the keyspace, nothing changes. *)
Lemma view_cases fl (t t' : T) ks :
  view fl t' ks = view fl t ks /\ pt_sealed (view fl t ks) = [] \/
  exists mem, forall t, view fl t ks = mkPart (mem (memtable ks t)) (sealed ks t) (tables ks t) (tree_highest_persisted_seqno ks t).
Proof.
  destruct fl as [[plain s rest]|]; [|right; by exists (fun mem => mem)]. cbn [view fl_plain fl_seqno fl_rest].
  destruct (decide (Clear ks ∈ plain_entry plain <$> rest)) as [Hc|Hc].
  - left. by rewrite !(part_batch_clear ks (s, _)).
  - right. exists (fun mem => ks_batch ks mem (s, plain_entry plain <$> rest)). intros t0. by apply part_batch_no_clear.
Qed.

Lemma flush_inv base w lv fl e ks e' r :
  get_seqno_safe_to_gc (en_tracker e) <= w -> run_flush ks e = Some (e', r) -> flight_inv base w lv fl e ->
  exists lv', flight_inv base w lv' fl e'.
Proof.
  intros Hw Hrun Hinv. unfold run_flush in Hrun. destruct (tree_flush ks _ (en_trees e)) as [t r0] eqn:Ef.
  assert (en_trees e' = t /\ same_journals e e' /\ (forall ks, live e' ks -> live e ks)) as (Ht & Hsj & Hl).
  { destruct r0 as [[n|]|x]; injection Hrun as <- _; done. }
  exists (fun ks' => if decide (ks' = ks /\ is_ok r0 = true) then flushed_level (lv ks') ks' (pt_sealed (view fl (en_trees e) ks')) else lv ks').
  apply (flight_inv_trees base w lv _ fl _ e); [done|done|done| | |done]; intros ks' _; rewrite Ht.
  2: { intros Hx Hfree. pose proof (tree_flush_part ks ks' _ w _ _ _ Ef Hw (fun _ => Hfree)) as Hp.
       case_decide; [by apply (flush_weak_free _ _ _ _ Hp)|by rewrite Hp]. }
  intros Hfree Hk. pose proof (tree_flush_part ks ks' _ w _ _ _ Ef Hw Hfree) as Hp. destruct (view_cases fl (en_trees e) t ks') as [[-> Hnil]|(mem & Hv)].
  - rewrite Hnil. by case_decide.
  - rewrite !(Hv (en_trees e)) in Hk |- *. rewrite (Hv t). case_decide.
    + refine (flush_ks_inv _ _ _ _ _ _ _ _ Hk). destruct Hp as [Hm Hs Htb Hper]. cbn in Hm, Hs, Htb, Hper. split; cbn; [by rewrite Hm|done|done|done].
    + unfold part in Hp. by injection Hp as -> -> -> ->.
Qed.

Lemma compact_inv base w lv fl e ks e' r :
  get_seqno_safe_to_gc (en_tracker e) <= w -> run_compaction ks e = Some (e', r) -> flight_inv base w lv fl e ->
  flight_inv base w lv fl e'.
Proof.
  intros Hw Hrun. unfold run_compaction in Hrun. destruct (keyspace_deleted e ks); [by injection Hrun as <- _|].
  destruct (tree_compact ks _ (en_trees e)) as [t r0] eqn:Ec.
  assert (en_trees e' = t /\ same_journals e e' /\ (forall ks, live e' ks -> live e ks)) as (Ht & Hsj & Hl).
  { destruct r0 as [[]|x]; injection Hrun as <- _; done. }
  apply flight_inv_trees; [done|done|done| |]; intros ks' _; rewrite Ht.
  2: { intros Hx Hfree. destruct (tree_compact_part ks ks' _ w _ _ _ Ec Hw (fun _ => Hfree)) as [Hp| ->]; [by apply (compact_weak_free _ _ _ _ Hp)|done]. }
  intros Hfree Hk. pose proof (tree_compact_part ks ks' _ w _ _ _ Ec Hw Hfree) as Hp. destruct (view_cases fl (en_trees e) t ks') as [[-> _]|(mem & Hv)]; [done|].
  rewrite (Hv (en_trees e)) in Hk. rewrite (Hv t). destruct Hp as [[Hm Hs Htb Hper]|Hp].
  - refine (compact_ks_inv _ _ _ _ _ _ _ _ Hk). cbn in Hm, Hs, Htb, Hper. split; cbn; [by rewrite Hm|done|done|done].
  - unfold part in Hp. by injection Hp as -> -> -> ->.
Qed.

(** ** Sealing the journal *)

Lemma seal_journal_evict base w lv e ks path size n v :
  ks_inv base w lv (part ks (en_trees e)) e ks -> ks ∈ en_keyspaces e -> length (en_contents e) = length (mgr_items (en_manager e)) ->
  Forall (fun b => ~ clears ks b) (concat (drop n (en_contents e ++ [en_journal e]))) ->
  v ∈ ks_replay ks (concat (take n (en_contents e ++ [en_journal e]))) (of_ks ks base) ->
  covers (solid lv) (v_seqno v) = true \/
  exists item wm, item ∈ take n (mgr_items (en_manager e) ++ [mkManagerItem path size (seqno_map e)]) /\
    wm ∈ watermarks item /\ wm_keyspace wm = ks /\ v_seqno v <= lsn wm.
Proof.
  intros Hk Hks Hlen. destruct (decide (n <= length (en_contents e))%nat) as [Hn|Hn].
  - rewrite drop_app_le, take_app_le, concat_app by lia. simpl concat. rewrite app_nil_r.
    intros Hcl Hv. rewrite take_app_le by lia. by apply (ki_evict _ _ _ _ _ _ Hk).
  - intros _. rewrite take_ge by (rewrite length_app; simpl; lia). rewrite concat_app. simpl concat. rewrite app_nil_r. intros Hv.
    destruct (covers (solid lv) (v_seqno v)) eqn:Ev; [by left|right].
    assert (v ∈ unflushed_part (kept lv) (whole base e ks)) as Hu.
    { apply list_elem_of_filter. split; [|done]. destruct (covers (kept lv) (v_seqno v)) eqn:Eu; [|done]. apply (ki_kept _ _ _ _ _ _ Hk) in Eu. congruence. }
    destruct (norm_seqno _ _ v (eq_sym (ki_memtables _ _ _ _ _ _ Hk)) Hu) as (v' & Hv' & Hs & _).
    destruct (hist_highest_above ks _ v' Hv' (memtables_keyspace _ _ _ _ _ _ _ Hk Hv')) as (m & Em & Hm).
    exists (mkManagerItem path size (seqno_map e)), (mkEvictionWatermark ks m). split_and!; [| |done|simpl; lia].
    + rewrite take_ge by (rewrite length_app; simpl; lia). set_solver.
    + cbn [watermarks]. unfold seqno_map. apply list_elem_of_omap. exists ks. split; [done|].
      rewrite highest_memtable_seqno. cbn [part pt_memtable pt_sealed] in Em. by rewrite Em.
Qed.

Lemma seal_journal_inv base w lv e env e' r :
  (forall x, te_rotate env <> RotatedUnsynced x) ->
  seal_journal env e = Some (e', r) -> engine_inv base w lv e -> engine_inv base w lv e'.
Proof.
  intros Hsync. unfold seal_journal. destruct (te_len env) as [size|]; [|by intros [= <- _]].
  destruct (te_rotate env) as [x|x|path]; [by intros [= <- _]|by destruct (Hsync x)|]. intros [= <- _] [Es Et Est Ef Eb Ep Efl Ew Ek].
  match goal with |- flight_inv _ _ _ _ ?e' => assert (all_batches e' = all_batches e) as Hb end.
  { unfold all_batches. cbn. rewrite concat_app. cbn. by rewrite !app_nil_r. }
  split; rewrite ?Hb; try done.
  - cbn. rewrite !length_app, Ep. done.
  - intros ks Hl. pose proof (Ek ks Hl) as Hk. pose proof Hk as [Kp Kk Kf Km Ko Kse Kt Ke].
    split; unfold whole in *; rewrite ?Hb; try done.
    intros n v. cbn [en_contents en_journal en_set_journals en_manager mgr_items JournalFiles.enqueue]. rewrite app_nil_r.
    apply (seal_journal_evict base w); [done|by destruct Hl|done].
Qed.

(** ** Evicting journals *)

(** The oldest batches move from the journals to what lies below them. *)
Definition shifts (base base' : history) (bs bs' : list batch) (ks : Z) : Prop :=
  exists evicted, bs = evicted ++ bs' /\ of_ks ks base' = ks_replay ks evicted (of_ks ks base).

Lemma shifts_whole base base' e e' bs ks :
  shifts base base' (all_batches e ++ bs) (all_batches e') ks -> whole base' e' ks = ks_replay ks bs (whole base e ks).
Proof. intros (ev & E & Hb). unfold whole. by rewrite Hb, <- !ks_replay_app, <- E. Qed.

Lemma shifts_same base base' bs ks : of_ks ks base' = of_ks ks base -> shifts base base' bs bs ks.
Proof. intros E. by exists []. Qed.

Lemma evicted_batches e n m :
  all_batches e = concat (take n (en_contents e)) ++ all_batches (en_set_journals (en_journal e) (drop n (en_contents e)) m e).
Proof. unfold all_batches. cbn [en_contents en_journal en_set_journals]. by rewrite app_assoc, <- concat_app, take_drop. Qed.

Lemma evicted_shifts base e ks n m :
  shifts base (replay (concat (take n (en_contents e))) base) (all_batches e) (all_batches (en_set_journals (en_journal e) (drop n (en_contents e)) m e)) ks.
Proof. exists (concat (take n (en_contents e))). split; [apply evicted_batches|apply of_ks_replay]. Qed.

Lemma evicted_whole base e ks n m :
  whole (replay (concat (take n (en_contents e))) base) (en_set_journals (en_journal e) (drop n (en_contents e)) m e) ks = whole base e ks.
Proof. apply (shifts_whole _ _ _ _ []). rewrite app_nil_r. apply evicted_shifts. Qed.

Lemma maintenance_ks_inv base w lv fl e ks evicted m :
  ks_inv base w lv (view fl (en_trees e) ks) e ks -> flight_ok fl e -> mgr_items (en_manager e) = evicted ++ mgr_items m ->
  Forall (fully_flushed (highest_persisted e) (keyspace_deleted e)) evicted -> ks ∉ en_deleted e ->
  ks_inv (replay (concat (take (length evicted) (en_contents e))) base) w lv (view fl (en_trees e) ks)
    (en_set_journals (en_journal e) (drop (length evicted) (en_contents e)) m e) ks.
Proof.
  intros [Kp Kk Kf Km Ko Kse Kt Ke] Hfl Hi Hff Hdel. set (n := length evicted) in *.
  match goal with |- ks_inv ?base' _ _ _ ?e' _ => assert (whole base' e' ks = whole base e ks) as Hw end.
  { apply evicted_whole. }
  split; rewrite ?Hw; try done.
  intros n' v. cbn [en_contents en_journal en_set_journals en_manager]. rewrite drop_drop, of_ks_replay, <- ks_replay_app, <- concat_app.
  rewrite take_take_drop. intros Hcl Hv. destruct (Ke _ v Hcl Hv) as [?|(item & wm & Hin & Hwm & Hks & Hle)]; [by left|].
  rewrite Hi, take_app_ge in Hin by lia. replace (n + n' - length evicted)%nat with n' in Hin by lia.
  apply elem_of_app in Hin as [Hin|Hin]; [left|right; by exists item, wm].
  rewrite Forall_forall in Hff. destruct (Hff item Hin wm Hwm) as (s & Hs & ?).
  { rewrite Hks. by apply bool_decide_eq_false. }
  destruct (view_lower fl e ks Hfl) as [Hex|(mem & Hview)].
  - apply Forall_app in Hcl as [_ Hcl]. exfalso. by apply (Forall_Exists_neg _ _) in Hcl.
  - apply Kp. rewrite Hview. cbn [pt_persisted]. unfold highest_persisted in Hs. rewrite <- Hks, Hs. apply Z.leb_le. lia.
Qed.

Lemma maintenance_inv base w lv fl e env e' r :
  journal_maintenance env e = Some (e', r) -> flight_inv base w lv fl e ->
  exists base', flight_inv base' w lv fl e' /\ forall ks, shifts base base' (all_batches e) (all_batches e') ks.
Proof.
  unfold journal_maintenance. destruct (maintenance _ _ _ _) as [[m removed] r'] eqn:Em. intros [= <- _] [Es Et Est Ef Eb Ep Efl Ew Ek].
  apply maintenance_evicts in Em as (evicted & Hi & -> & Hff & _). rewrite length_fmap.
  exists (replay (concat (take (length evicted) (en_contents e))) base). split; [|intros ks; apply evicted_shifts].
  pose proof (evicted_batches e (length evicted) m) as Hb.
  split.
  - rewrite Hb, fmap_app in Es. by apply StronglySorted_app_1_r in Es.
  - rewrite Hb in Et. by apply Forall_app in Et as [_ ?].
  - rewrite Hb in Est. by apply Forall_app in Est as [_ ?].
  - intros b Hin. apply Ef. rewrite Hb. set_solver.
  - intros v Hv. cbn [en_seqno en_set_journals].
    assert (v ∈ of_ks (v_keyspace v) (replay (concat (take (length evicted) (en_contents e))) base)) as Hv' by (by apply list_elem_of_filter).
    rewrite of_ks_replay in Hv'. apply ks_replay_from in Hv' as [[_ Hin]%list_elem_of_filter|(b & Hin & ->)].
    + destruct (Eb v Hin) as [? Hlt]. split; [done|]. intros b Hbin. apply Hlt. rewrite Hb. set_solver.
    + split; [apply Ef; rewrite Hb; set_solver|]. intros b2 Hb2. rewrite Hb in Es. by apply (sorted_app_lt _ _ _ _ Es).
  - cbn. rewrite length_drop, Ep, Hi, length_app. lia.
  - done.
  - done.
  - intros ks Hl. cbn [en_trees en_set_journals]. apply maintenance_ks_inv; [by apply Ek|done|done|done|by destruct Hl].
Qed.

(** ** Writing *)

Lemma plain_norm plain ks s es (h h' : history) :
  norm <$> h = norm <$> h' -> norm <$> ks_batch ks h (s, plain_entry plain <$> es) = norm <$> ks_batch ks h' (s, es).
Proof.
  unfold ks_batch. cbn [fst snd]. revert h h'. induction es as [|e es IH]; intros h h' E; [done|]. rewrite fmap_cons. cbn [foldl]. apply IH.
  destruct e as [|ks0 key value vt c| |ks0]; cbn [plain_entry ks_entry]; try done; [|by case_decide].
  destruct vt, plain; cbn [ks_entry]; case_decide; cbn [item_version]; rewrite ?fmap_cons, ?E; done.
Qed.

Lemma plain_clears plain ks s es : clears ks (s, plain_entry plain <$> es) <-> Clear ks ∈ es.
Proof.
  unfold clears. cbn [snd]. rewrite list_elem_of_fmap. split.
  - intros (x & Hx & Hin). assert (x = Clear ks) as ->; [|done].
    destruct x as [|ks' key value vt c| |ks']; cbn [plain_entry] in Hx; [done|by destruct vt, plain|done|congruence].
  - intros Hin. by exists (Clear ks).
Qed.

Lemma items_no_clear ks b : Forall item_of b.2 -> ~ clears ks b.
Proof. intros Hb Hc. rewrite Forall_forall in Hb. by destruct (Hb _ Hc) as (? & ? & ? & ? & ? & ? & _). Qed.

Lemma begin_batches entries e : all_batches (en_begin entries e) = all_batches e ++ [(en_seqno e, entries)].
Proof. unfold all_batches. cbn. by rewrite app_assoc. Qed.

Lemma begin_whole base entries e ks : whole base (en_begin entries e) ks = ks_batch ks (whole base e ks) (en_seqno e, entries).
Proof. unfold whole. rewrite begin_batches, ks_replay_app. done. Qed.

(** Writing items puts them on top of the memtable. *)
Lemma write_items_inv base w lv e plain entries ks p :
  engine_inv base w lv e -> Forall item_of entries -> ks_inv base w (lv ks) p e ks ->
  ks_inv base w (lv ks) (part_batch ks p (en_seqno e, plain_entry plain <$> entries)) (en_begin entries e) ks.
Proof.
  intros Hinv Hes Hk. pose proof Hk as [Kp Kk Kf Km Ko Kse Kt Ke]. destruct p as [m sl tb pe]. cbn [pt_memtable pt_sealed pt_tables pt_persisted] in *.
  set (b := (en_seqno e, entries)). assert (~ clears ks b) as Hc by (by apply items_no_clear).
  rewrite part_batch_no_clear by (by rewrite plain_clears).
  pose proof (plain_norm plain ks (en_seqno e) entries m m eq_refl) as Em. fold b in Em. rewrite (ks_batch_app ks b) in Em by done.
  assert (forall v, v ∈ ks_batch ks [] b -> v_seqno v = en_seqno e) as Hnew by (by intros v (_ & ? & _)%ks_batch_in).
  assert (forall s, covers (solid (lv ks)) s = true -> s < en_seqno e) as Hfresh by (intros s; by eapply (solid_fresh base w)).
  assert (forall v, v ∈ ks_batch ks [] b -> covers (kept (lv ks)) (v_seqno v) = false) as Hcov.
  { intros v Hv. rewrite (Hnew v Hv). destruct (covers (kept (lv ks)) (en_seqno e)) eqn:E; [|done]. apply Kk, Hfresh in E. lia. }
  split; cbn [pt_memtable pt_sealed pt_tables pt_persisted]; try done.
  - intros s (v & Hv & ?)%Kf. exists v. rewrite begin_whole, (ks_batch_app ks b) by done. split; [set_solver|done].
  - rewrite begin_whole, (ks_batch_app ks b) by done. rewrite filter_app, (list_filter_all _ (ks_batch ks [] b)) by done.
    rewrite !fmap_app, Em, fmap_app, <- app_assoc. f_equal. by rewrite <- fmap_app.
  - intros v v' Hv Hv'. apply (norm_seqno _ _ _ Em) in Hv as (u & Hu & Hus & _). rewrite <- Hus.
    apply elem_of_app in Hu as [Hu|Hu]; [|by apply Ko]. rewrite (Hnew u Hu).
    destruct (norm_seqno _ _ v' Km) as (x & [_ Hx]%list_elem_of_filter & <- & _); [set_solver|]. by apply (whole_below base w lv None e ks x Hinv).
  - rewrite begin_whole, (ks_batch_app ks b) by done. intros Hx. apply (solid_like_above _ _ _ _ _ _ (en_seqno e)); [done| | |by apply Kt].
    + intros v. by apply (whole_below base w lv None).
    + intros v Hv. rewrite (Hnew v Hv). lia.
  - intros n v Hcl Hv. apply Ke; [|done]. cbn in Hcl. rewrite app_assoc in Hcl. by apply Forall_app in Hcl as [? _].
Qed.

(** A clear empties the keyspace, and from then on nothing older is needed. *)
Lemma write_clear_inv base w lv e plain ks0 ks p :
  ks_inv base w (lv ks) p e ks ->
  ks_inv base w (if decide (ks = ks0) then level_none else lv ks) (part_batch ks p (en_seqno e, plain_entry plain <$> [Clear ks0])) (en_begin [Clear ks0] e) ks.
Proof.
  intros Hk. pose proof Hk as [Kp Kk Kf Km Ko Kse Kt Ke]. cbn [fmap list_fmap plain_entry]. unfold part_batch. cbn [fst snd foldl part_entry].
  destruct (decide (ks0 = ks)) as [->|Hne].
  - rewrite decide_True by done. split; cbn [pt_memtable pt_sealed pt_tables pt_persisted];
      rewrite ?begin_whole; cbn [ks_batch foldl ks_entry fst snd]; rewrite ?decide_True by done; try done.
    + intros v v' Hv. by apply elem_of_nil in Hv.
    + intros _ key i _. exists None. split; [done|]. by apply summary_norm.
    + intros n v Hcl. apply Forall_app in Hcl as [_ Hcl]. cbn in Hcl. apply Forall_app in Hcl as [_ Hcl]. rewrite Forall_singleton in Hcl.
      exfalso. apply Hcl. apply list_elem_of_singleton. done.
  - rewrite decide_False by congruence.
    split; rewrite ?begin_whole; cbn [ks_batch foldl ks_entry fst snd]; rewrite ?decide_False by done; try done.
    intros n v Hcl Hv. apply Ke; [|done]. cbn in Hcl. rewrite app_assoc in Hcl. by apply Forall_app in Hcl as [? _].
Qed.

Lemma storable_entries b : storable b -> Forall stored_entry b.2.
Proof.
  intros [Hb|(ks & ->)]; [|constructor; [right; by exists ks|done]]. eapply Forall_impl; [exact Hb|]. by left.
Qed.

Lemma begin_inv base w lv e plain entries :
  storable (en_seqno e, entries) -> strong_entries entries -> engine_inv base w lv e ->
  exists lv', flight_inv base w lv' (Some (mkFlight plain (en_seqno e) entries)) (en_begin entries e).
Proof.
  intros Hst Hse Hinv. pose proof Hinv as [Es Et Est Ef Eb Ep Efl Ew Ek].
  assert (forall lv', (forall ks, live e ks -> ks_inv base w (lv' ks) (part_batch ks (part ks (en_trees e)) (en_seqno e, plain_entry plain <$> entries)) (en_begin entries e) ks) ->
    flight_inv base w lv' (Some (mkFlight plain (en_seqno e) entries)) (en_begin entries e)) as Hall.
  { intros lv' Hks. split; rewrite ?begin_batches; try done.
    - rewrite fmap_app. apply StronglySorted_app_2; [|done|repeat constructor].
      intros s s' Hs Hs'. apply list_elem_of_fmap in Hs as (b & -> & Hb). apply list_elem_of_singleton in Hs' as ->. by apply Ef.
    - apply Forall_app. split; [done|]. by apply Forall_singleton.
    - apply Forall_app. split; [done|]. by apply Forall_singleton.
    - intros b [?%Ef| ->%list_elem_of_singleton]%elem_of_app; cbn; lia.
    - intros v [? Hlt]%Eb. cbn. split; [lia|]. intros b [?| ->%list_elem_of_singleton]%elem_of_app; [by apply Hlt|done].
    - split; [apply (storable_entries _ Hst)|]. by exists (en_journal e), entries. }
  pose proof Hst as [Hit|(ks0 & Hcl)]; cbn in *.
  - exists lv. apply Hall. intros ks Hl. apply write_items_inv; auto.
  - subst entries. exists (fun ks => if decide (ks = ks0) then level_none else lv ks). apply Hall. intros ks Hl. apply (write_clear_inv base w lv e plain ks0 ks), Ek, Hl.
Qed.

Lemma plain_weak_free plain s ks p x : strong_entry ks x -> weak_free (pt_all p) -> weak_free (pt_all (part_entry ks s p (plain_entry plain x))).
Proof.
  intros Hx Hp. destruct x as [|ks' key value vt c| |ks']; cbn [plain_entry]; try done; cbn [part_entry]; [|case_decide; [by intros v ?%elem_of_nil|done]].
  assert (forall vt', vt' <> WeakTombstone -> weak_free (pt_all (part_entry ks s p (Item ks' key value vt' c)))) as Hitem.
  { intros vt' Hvt. cbn [part_entry]. case_decide; [|done]. unfold pt_all. cbn [pt_memtable pt_sealed pt_tables].
    destruct vt'; cbn [item_version app]; try done; (intros v [->|Hv]%elem_of_cons; [done|by apply Hp]). }
  destruct vt; cbn [plain_entry]; [by apply Hitem|by apply Hitem| |by apply Hitem].
  destruct plain; [by apply Hitem|]. cbn [part_entry]. case_decide; [subst; by destruct (Hx key value c)|done].
Qed.

Lemma apply_inv base w lv e plain s x rest :
  flight_inv base w lv (Some (mkFlight plain s (x :: rest))) e ->
  flight_inv base w lv (Some (mkFlight plain s rest)) (en_set_trees (live_entry plain s (en_trees e) x) e).
Proof.
  intros Hinv. pose proof (ei_flight _ _ _ _ _ Hinv) as [[Hx Hst]%Forall_cons (bs & entries & E & Hsub)].
  assert (strong_entries (x :: rest)) as Hse.
  { pose proof (ei_strong _ _ _ _ _ Hinv) as Hall. unfold all_batches in Hall. rewrite E in Hall. rewrite list.Forall_forall in Hall.
    specialize (Hall (s, entries) ltac:(set_solver)). intros ks y Hk Hy%Hsub. by apply Hall. }
  clear E Hsub. revert Hinv. apply flight_inv_trees; [done|done| | |].
  - intros [_ (bs' & entries' & E & Hsub)]. split; [done|]. exists bs', entries'. split; [done|]. cbn [fl_rest] in *. set_solver.
  - intros ks _ _ Hk. cbn [view fl_plain fl_seqno fl_rest en_trees en_set_trees] in *. rewrite (live_entry_part plain s _ x ks Hx).
    rewrite fmap_cons in Hk. exact Hk.
  - intros ks _ Hk. cbn [en_trees en_set_trees]. rewrite (live_entry_part plain s _ x ks Hx). apply plain_weak_free, Hse; [done|left].
Qed.

Lemma end_inv base w lv e plain s : flight_inv base w lv (Some (mkFlight plain s [])) e -> engine_inv base w lv e.
Proof. by apply flight_inv_trees. Qed.

(** ** Creating a keyspace *)

Lemma ks_replay_untouched ks bs : Forall (fun b => ~ touches ks b) bs -> ks_replay ks bs [] = [].
Proof.
  intros Hbs. apply elem_of_nil_inv. intros v Hv. apply ks_replay_in in Hv as (_ & b & Hb & Ht & _).
  - rewrite Forall_forall in Hbs. by apply (Hbs b).
  - eapply Forall_impl; [exact Hbs|]. intros b Hb Hc. apply Hb. by exists (Clear ks).
Qed.

(** A write under way does not touch a keyspace that is new. *)
Lemma view_untouched fl e ks : flight_ok fl e -> Forall (fun b => ~ touches ks b) (all_batches e) -> view fl (en_trees e) ks = part ks (en_trees e).
Proof.
  destruct fl as [[plain s rest]|]; [|done]. intros [_ (bs & entries & Ej & Hsub)] Hun. cbn [view fl_plain fl_seqno fl_rest] in *.
  assert (forall x, x ∈ rest -> match x with Item ks' _ _ _ _ | Clear ks' => ks' <> ks | _ => True end) as Hno.
  { intros x Hx%Hsub. rewrite Forall_forall in Hun. specialize (Hun (s, entries)). unfold all_batches in Hun. rewrite Ej in Hun.
    assert (~ touches ks (s, entries)) as Ht by (apply Hun; set_solver). destruct x as [|ks' key value vt c| |ks']; try done; intros ->; apply Ht; by eexists. }
  unfold part_batch. cbn [fst snd]. clear Hsub. induction rest as [|x rest IH]; [done|]. rewrite fmap_cons. cbn [foldl].
  assert (part_entry ks s (part ks (en_trees e)) (plain_entry plain x) = part ks (en_trees e)) as ->; [|apply IH; intros y Hy; apply Hno; by right].
  specialize (Hno x ltac:(left)). destruct x as [|ks' key value vt c| |ks']; cbn [plain_entry]; try done; [|cbn; by rewrite decide_False].
  destruct vt, plain; cbn; by rewrite decide_False.
Qed.

Lemma created_inv w e ks base : unused e ks -> of_ks ks base = [] -> ks_inv base w level_none (part ks (en_trees e)) (en_create ks e) ks.
Proof.
  intros [_ (Hm & Hs & Ht) Hp Hj] Hbase.
  assert (whole base (en_create ks e) ks = []) as Hw.
  { unfold whole. rewrite Hbase. by apply ks_replay_untouched. }
  unfold part. rewrite Hm, Hs, Ht. split; cbn [pt_memtable pt_sealed pt_tables pt_persisted]; rewrite ?Hw; try done.
  - unfold highest_persisted in Hp. by rewrite Hp.
  - intros v v' Hv. by apply elem_of_nil in Hv.
  - intros _ key i _. exists None. split; [done|]. by apply summary_norm.
  - intros n v _. rewrite Hbase. intros Hv. cbn [en_contents en_create] in Hv.
    rewrite ks_replay_untouched in Hv; [by apply elem_of_nil in Hv|].
    assert (all_batches e = concat (take n (en_contents e)) ++ concat (drop n (en_contents e)) ++ en_journal e) as E.
    { unfold all_batches. by rewrite app_assoc, <- concat_app, take_drop. }
    rewrite E in Hj. by apply Forall_app in Hj as [? _].
Qed.

Lemma ks_inv_base base base' w lv p e ks : of_ks ks base = of_ks ks base' -> ks_inv base w lv p e ks -> ks_inv base' w lv p e ks.
Proof. intros E [Kp Kk Kf Km Ko Kse Kt Ke]. split; unfold whole in *; rewrite <- ?E; done. Qed.

Lemma create_inv base w lv fl e ks :
  unused e ks -> flight_inv base w lv fl e ->
  exists base' lv', flight_inv base' w lv' fl (en_create ks e) /\ of_ks ks base' = [] /\ forall ks', live e ks' -> shifts base base' (all_batches e) (all_batches (en_create ks e)) ks'.
Proof.
  intros Hun [Es Et Est Ef Eb Ep Efl Ew Ek]. exists (drop_keyspace ks base), (fun ks' => if decide (ks' = ks) then level_none else lv ks').
  split; [|split; [by rewrite of_ks_drop, decide_True|]; intros ks' Hl; apply shifts_same; rewrite of_ks_drop, decide_False; [done|intros ->; by apply (un_not_live _ _ Hun)]].
  split; try done.
  - intros v [_ Hv]%list_elem_of_filter. by apply Eb.
  - intros ks' [[Hin|Heq%list_elem_of_singleton]%elem_of_app Hd] Hx; [by apply Ew|]. subst. destruct (un_versions _ _ Hun) as (Hm & Hs & Ht).
    cbn [en_trees en_create]. unfold pt_all, part. cbn [pt_memtable pt_sealed pt_tables]. rewrite Hm, Hs, Ht. by intros v ?%elem_of_nil.
  - intros ks' Hl. case_decide as Hd.
    + subst. cbn [en_trees en_create]. rewrite (view_untouched fl e ks Efl (un_journals _ _ Hun)). apply created_inv; [done|]. by rewrite of_ks_drop, decide_True.
    + apply (ks_inv_base base); [by rewrite of_ks_drop, decide_False|]. apply (ks_inv_same _ _ _ _ e); [done|]. apply Ek.
      destruct Hl as [[?|?%list_elem_of_singleton]%elem_of_app ?]; done.
Qed.

(** ** Every step *)

(** Maintenance keeps the histories. *)
Lemma free_step_inv base w lv fl e e' :
  free_step w e e' -> flight_inv base w lv fl e ->
  exists base' lv', flight_inv base' w lv' fl e' /\ forall ks, live e ks -> shifts base base' (all_batches e) (all_batches e') ks.
Proof.
  destruct 1 as [e ks e' r Hw E|e ks e' r Hw E|e env e' r E|e ks Hun|e e' E]; intros Hinv.
  - destruct (flush_inv base w lv fl e ks e' r Hw E Hinv) as [lv' ?]. exists base, lv'. split; [done|]. intros ks' _.
    unfold run_flush in E. destruct (tree_flush _ _ _) as [t [[n|]|x]]; injection E as <- _; by apply shifts_same.
  - exists base, lv. split; [by apply (compact_inv _ _ _ _ e ks e' r)|]. intros ks' _.
    unfold run_compaction in E. destruct (keyspace_deleted e ks); [injection E as <- _; by apply shifts_same|].
    destruct (tree_compact _ _ _) as [t [[]|x]]; injection E as <- _; by apply shifts_same.
  - destruct (maintenance_inv base w lv fl e env e' r E Hinv) as (base' & ? & Hw). exists base', lv. split; [done|]. intros ks' _. apply Hw.
  - destruct (create_inv base w lv fl e ks Hun Hinv) as (base' & lv' & ? & _ & Hw). by exists base', lv'.
  - exists base, lv. split; [by apply (idle_inv _ _ _ _ e)|]. intros ks' _. destruct E as [_ Hj Hc _ _ _]. unfold all_batches. rewrite Hj, Hc. by apply shifts_same.
Qed.

Lemma locked_step_inv base w lv e e' :
  locked_step e e' -> engine_inv base w lv e -> engine_inv base w lv e' /\ all_batches e' = all_batches e.
Proof.
  destruct 1 as [e ks id e' r E|e env e' r Hsync E]; intros Hinv.
  - split; [by apply (seal_memtable_inv _ _ _ e ks id e' r)|].
    unfold seal_memtable in E. case_decide; [|by injection E as <- _]. destruct (tree_rotate_memtable _ _). by injection E as <- _.
  - split; [by apply (seal_journal_inv _ _ _ e env e' r)|].
    unfold seal_journal in E. destruct (te_len env); [|by injection E as <- _]. destruct (te_rotate env) as [x|x|path]; [by injection E as <- _|by destruct (Hsync x)|].
    injection E as <- _.
    unfold all_batches. cbn. by rewrite concat_app, app_nil_r; cbn; rewrite app_nil_r.
Qed.

(** The batch a step begins. *)
Definition begun (c c' : Eng * option Flight) : list batch :=
  match c.2, c'.2 with None, Some f => [(fl_seqno f, fl_rest f)] | _, _ => [] end.

Lemma fine_step_log base w lv c c' :
  fine_step w c c' -> flight_inv base w lv c.2 c.1 ->
  exists base' lv', flight_inv base' w lv' c'.2 c'.1 /\
    forall ks, live c.1 ks -> shifts base base' (all_batches c.1 ++ begun c c') (all_batches c'.1) ks.
Proof.
  destruct 1 as [e plain entries Hst Hse|e plain s x rest|e plain s|e e' Hs|e e' fl Hs]; cbn [fst snd]; intros Hinv.
  - destruct (begin_inv base w lv e plain entries Hst Hse Hinv) as [lv' Hinv']. exists base, lv'. split; [done|]. intros ks _.
    rewrite begin_batches. by apply shifts_same.
  - exists base, lv. split; [by apply apply_inv|]. intros ks _. cbn [begun snd]. rewrite app_nil_r. by apply shifts_same.
  - exists base, lv. split; [by apply (end_inv _ _ _ _ plain s)|]. intros ks _. cbn [begun snd]. rewrite app_nil_r. by apply shifts_same.
  - destruct (locked_step_inv _ _ _ _ _ Hs Hinv) as [? Hw]. exists base, lv. split; [done|]. intros ks _. cbn [begun snd]. rewrite app_nil_r, Hw. by apply shifts_same.
  - destruct (free_step_inv _ _ _ _ _ _ Hs Hinv) as (base' & lv' & ? & Hw). exists base', lv'. split; [done|]. intros ks Hl.
    assert (begun (e, fl) (e', fl) = []) as -> by (by destruct fl). rewrite app_nil_r. by apply Hw.
Qed.

(** A step keeps the history of a keyspace or begins a batch on top of it. *)
Definition extends (c c' : Eng * option Flight) (ks : Z) (h h' : history) : Prop :=
  h' = h \/ exists plain entries, c'.2 = Some (mkFlight plain (en_seqno c.1) entries) /\ h' = ks_batch ks h (en_seqno c.1, entries).

Lemma fine_step_whole base w lv c c' :
  fine_step w c c' -> flight_inv base w lv c.2 c.1 ->
  exists base' lv', flight_inv base' w lv' c'.2 c'.1 /\ forall ks, live c.1 ks -> extends c c' ks (whole base c.1 ks) (whole base' c'.1 ks).
Proof.
  intros Hs Hinv. destruct (fine_step_log base w lv c c' Hs Hinv) as (base' & lv' & Hinv' & Hsh). exists base', lv'. split; [done|].
  intros ks Hl. specialize (shifts_whole _ _ _ _ _ _ (Hsh ks Hl)) as Hw. clear - Hs Hw.
  destruct Hs as [e plain entries Hst Hse|e plain s x rest|e plain s|e e' Hs|e e' fl Hs]; [right; by exists plain, entries|by left..|].
  left. by destruct fl.
Qed.

(** ** What readers see, and what a crash leaves *)

(** Readers see the history, with the write under way if it were done. *)
Lemma flight_reads base w lv fl e ks key i :
  flight_inv base w lv fl e -> live e ks -> exact ks -> w <= i ->
  snapshot_get (versions (finish fl (en_trees e))) ks key i = snapshot_get (replay (all_batches e) base) ks key i.
Proof.
  intros Hinv Hl Hx Hi. destruct (ei_keyspaces _ _ _ _ _ Hinv ks Hl) as [Kp Kk Kf Km Ko Kse Kt Ke].
  unfold snapshot_get. rewrite <- (newest_of_ks ks), <- (newest_of_ks ks (replay _ _)), of_ks_replay.
  rewrite of_ks_parts, (view_finish fl e ks (ei_flight _ _ _ _ _ Hinv)). unfold pt_all. rewrite app_assoc.
  apply (parts_read w (kept (lv ks)) (solid (lv ks))); [done|done|by apply Kt|done].
Qed.

(** The sequence numbers up to which everything is in the trees. *)
Definition unseen (fl : option Flight) (e : Eng) : Z :=
  match fl with Some (mkFlight _ s (_ :: _)) => s | _ => en_seqno e end.

(** A write under way that does not clear the keyspace. *)
Definition calm (ks : Z) (fl : option Flight) : Prop := match fl with Some f => Clear ks ∉ fl_rest f | None => True end.

(** The entries of a write under way are above. *)
Lemma finish_above fl e ks key i :
  flight_ok fl e -> calm ks fl -> i <= unseen fl e ->
  newest (versions (finish fl (en_trees e))) ks key i = newest (versions (en_trees e)) ks key i.
Proof.
  intros Hfl Hcalm Hi. rewrite <- (newest_of_ks ks), <- (newest_of_ks ks (versions (en_trees e))), !of_ks_parts, (view_finish fl e ks Hfl).
  destruct fl as [[plain s [|x rest]]|]; [done| |done]. cbn [calm view unseen fl_plain fl_seqno fl_rest] in *.
  assert (~ clears ks (s, plain_entry plain <$> x :: rest)) as Hnc by (by rewrite plain_clears).
  unfold part. rewrite part_batch_no_clear, (ks_batch_app ks (s, _)) by done. unfold pt_all. cbn [pt_memtable pt_sealed pt_tables].
  rewrite <- app_assoc. apply newest_app_skip. intros v Hv _ Hlt. apply ks_batch_in in Hv as (_ & Hv & _). cbn [fst] in Hv. lia.
Qed.

(** Unless a journal clears it, a write under way leaves the tables as they are. *)
Lemma view_no_clear base w lv fl e ks :
  flight_inv base w lv fl e -> Forall (fun b => ~ clears ks b) (all_batches e) ->
  exists mem, view fl (en_trees e) ks = mkPart mem (sealed ks (en_trees e)) (tables ks (en_trees e)) (highest_persisted e ks).
Proof.
  intros Hinv Hnc. apply Forall_app in Hnc as [_ Hnc]. destruct (view_lower fl e ks (ei_flight _ _ _ _ _ Hinv)) as [Hex|(mem & Hv)].
  - exfalso. by apply (Forall_Exists_neg _ _) in Hnc.
  - eexists. apply Hv.
Qed.

Lemma crash_leaves base w lv fl e ks :
  flight_inv base w lv fl e -> live e ks -> exact ks -> crashed base (all_batches e) (fun _ => w) (solid ∘ lv) (reopened (en_trees e)) ks.
Proof.
  intros Hinv Hl Hx. destruct (ei_keyspaces _ _ _ _ _ Hinv ks Hl) as [Kp Kk Kf Km Ko Kse Kt Ke].
  pose proof (view_no_clear base w lv fl e ks Hinv) as Hview.
  split.
  - split; [apply reopened_memtable|apply reopened_sealed].
  - intros Hnc s. rewrite reopened_persisted. destruct (Hview Hnc) as (mem & Ev). rewrite Ev in Kp. apply Kp.
  - intros v Hc Hv Hks. split; [|by apply (ei_base _ _ _ _ _ Hinv)]. destruct (Ke 0%nat v) as [?|(item & wm & Hin & _)]; [| |done|].
    + unfold all_batches in Hc. by rewrite drop_0.
    + by apply list_elem_of_filter.
    + by apply elem_of_nil in Hin.
  - intros Hnc. rewrite reopened_tables. destruct (Hview Hnc) as (mem & Ev). rewrite Ev in Kt. by apply Kt.
Qed.
End engine.

Abbreviation engine_inv base w lv e := (flight_inv base w lv None e).
