(* ===== verification/EngineRestart.v ===== *)
(** * Starting again

    What recovery makes of the tables and journals of an engine that was killed is an
    engine whose tables and journals hold everything again. So a database can live
    through any number of crashes: [lives] are the engines that a new database can
    become, by working and by being killed and recovered. *)

From stdpp Require Import base gmap list sorting relations.
From S2P Require Import Prelude Errors Utf8 Store Panic JournalEntry JournalReader JournalWriter JournalFiles SnapshotTracker Mvcc Db.
From S2P Require Import DbProps ReplayHistory Recovery RecoveryProps Engine EngineProps.

(** ** Bounds *)

Definition lub (a b : option Z) : option Z :=
  match a, b with
  | Some x, Some y => Some (Z.max x y)
  | Some x, None => Some x
  | None, b => b
  end.

Lemma covers_lub a b s : covers (lub a b) s = true <-> covers a s = true \/ covers b s = true.
Proof. destruct a as [x|], b as [y|]; cbn; rewrite ?Z.leb_le; intuition (try lia; try done). Qed.

Lemma covers_highest ks (h : history) s :
  (forall v, v ∈ h -> v_keyspace v = ks) -> covers (hist_highest ks h) s = true <-> exists v, v ∈ h /\ s <= v_seqno v.
Proof.
  intros Hks. destruct (hist_highest ks h) as [m|] eqn:E; cbn [covers].
  - rewrite Z.leb_le. split.
    + intros ?. apply hist_highest_in in E as (v & Hv & _ & <-). by exists v.
    + intros (v & Hv & ?). destruct (hist_highest_above ks h v Hv (Hks v Hv)) as (m' & E' & ?). rewrite E in E'. injection E' as <-. lia.
  - split; [done|]. intros (v & Hv & _). destruct (hist_highest_above ks h v Hv (Hks v Hv)) as (m' & E' & ?). congruence.
Qed.

(** Choosing for each member of a list. *)
Lemma list_choice {A B} `{EqDecision A} (d : B) (P : A -> B -> Prop) (l : list A) :
  (forall x, x ∈ l -> exists y, P x y) -> exists f, forall x, x ∈ l -> P x (f x).
Proof.
  induction l as [|a l IH]; intros Hl; [exists (fun _ => d); by intros x ?%elem_of_nil|].
  destruct IH as (f & Hf); [intros x Hx; apply Hl; by right|]. destruct (Hl a) as (y & Hy); [left|].
  exists (fun x => if decide (x = a) then y else f x). intros x [->|Hx]%elem_of_cons; [by rewrite decide_True|]. case_decide; [by subst|by apply Hf].
Qed.

(** A sequence number belongs to one batch. *)
Lemma sorted_same (bs : list batch) b b' : StronglySorted Z.lt bs.*1 -> b ∈ bs -> b' ∈ bs -> b.1 = b'.1 -> b = b'.
Proof.
  induction bs as [|x bs IH]; [by intros _ ?%elem_of_nil|]. rewrite fmap_cons. intros [Hs Hlt]%StronglySorted_inv.
  assert (forall y, y ∈ bs -> x.1 < y.1) as Hx by (intros y Hy; rewrite list.Forall_forall in Hlt; by apply Hlt, list_elem_of_fmap_2).
  intros [->|Hb]%elem_of_cons [->|Hb']%elem_of_cons E; [done|specialize (Hx _ Hb'); lia|specialize (Hx _ Hb); lia|by apply IH].
Qed.

(** ** The part of a history that some of its batches make up *)

Section kept.
Context (ks : Z) (base : history) (bs bs' : list batch) (persisted : option Z).
Context (Hnc : Forall (fun b => ~ clears ks b) bs) (Hsort : StronglySorted Z.lt bs.*1) (Hn : needed ks persisted bs bs').
Context (Hbase : forall v, v ∈ of_ks ks base -> forall b, b ∈ bs -> v_seqno v < b.1).

Abbreviation W := (ks_replay ks bs (of_ks ks base)).

(** What is left out, and the level up to which everything is left out. *)
Definition left_out : history := filter (fun v => v_seqno v ∉ bs'.*1) W.
Definition kept_level : option Z := hist_highest ks left_out.

Lemma whole_origin v : v ∈ W -> v ∈ of_ks ks base \/ exists b, b ∈ bs /\ touches ks b /\ v_seqno v = b.1.
Proof. apply ks_replay_touch. Qed.

Lemma whole_of_ks v : v ∈ W -> v_keyspace v = ks.
Proof. rewrite ks_replay_no_clear by done. intros [(? & _)%ks_replay_in|[? _]%list_elem_of_filter]%elem_of_app; done. Qed.

Lemma kept_level_spec s : covers kept_level s = true <-> exists v, v ∈ left_out /\ s <= v_seqno v.
Proof. apply covers_highest. intros v [_ Hv]%list_elem_of_filter. by apply whole_of_ks. Qed.

(** It is a level: everything above it is there. *)
Lemma kept_level_split v : v ∈ W -> covers kept_level (v_seqno v) = false <-> v_seqno v ∈ bs'.*1.
Proof.
  intros Hv. destruct (decide (v_seqno v ∈ bs'.*1)) as [Hin|Hout].
  - split; [done|intros _]. destruct (covers kept_level (v_seqno v)) eqn:Ec; [|done]. exfalso.
    apply kept_level_spec in Ec as (x & [Hx Hxw]%list_elem_of_filter & Hle).
    apply list_elem_of_fmap in Hin as (b & Eb & Hb'). assert (b ∈ bs) as Hb by (by apply (needed_subset _ _ _ _ Hn)).
    assert (touches ks b) as Ht.
    { apply whole_origin in Hv as [Hv|(b1 & Hb1 & Ht1 & E1)]; [specialize (Hbase v Hv b Hb); lia|].
      assert (b1 = b) as <-; [|done]. apply (sorted_same bs); [done|done|done|congruence]. }
    apply whole_origin in Hxw as [Hxb|(b2 & Hb2 & Ht2 & E2)]; [specialize (Hbase x Hxb b Hb); lia|].
    apply Hx. rewrite E2. apply list_elem_of_fmap_2. destruct (decide (b2.1 = b.1)) as [E|Hne].
    + assert (b2 = b) as ->; [|done]. by apply (sorted_same bs).
    + apply (nd_closed _ _ _ _ Hn b); [done|done|done|done|lia].
  - split; [|done]. intros Hc. assert (covers kept_level (v_seqno v) = true); [|congruence].
    apply kept_level_spec. exists v. split; [by apply list_elem_of_filter|lia].
Qed.

Lemma kept_part : filter (fun v => covers kept_level (v_seqno v) = false) W = ks_replay ks bs' [].
Proof.
  rewrite (list_filter_iff' _ (fun v => v_seqno v ∈ bs'.*1)) by (intros v; apply kept_level_split).
  rewrite ks_replay_no_clear, filter_app, (ks_replay_sublist ks bs bs'), filter_nothing, app_nil_r;
    [done| |by apply (nd_sublist _ _ _ _ Hn)|by apply (StronglySorted_NoDup Z.lt)|done|done].
  intros v Hv (b & E & Hb)%list_elem_of_fmap. specialize (Hbase v Hv b (needed_subset _ _ _ _ Hn b Hb)). lia.
Qed.

(** The base and the batches that are left out are in the tables. *)
Lemma kept_level_solid solid s :
  (forall v, v ∈ of_ks ks base -> covers solid (v_seqno v) = true) -> (forall s, covers persisted s = true -> covers solid s = true) ->
  covers kept_level s = true -> covers solid s = true.
Proof.
  intros Hb Hp (v & [Hv Hvw]%list_elem_of_filter & Hle)%kept_level_spec. apply (covers_le _ _ (v_seqno v)); [done|].
  apply whole_origin in Hvw as [?|(b & Hin & Ht & E)]; [by apply Hb|]. destruct (nd_kept _ _ _ _ Hn b Hin Ht) as [Hb'|Hc].
  - destruct Hv. rewrite E. by apply list_elem_of_fmap_2.
  - rewrite E. by apply Hp.
Qed.

Lemma base_left_out v : v ∈ of_ks ks base -> covers kept_level (v_seqno v) = true.
Proof.
  intros Hv. apply kept_level_spec. exists v. split; [|lia]. apply list_elem_of_filter. split.
  - intros (b & E & Hb)%list_elem_of_fmap. specialize (Hbase v Hv b (needed_subset _ _ _ _ Hn b Hb)). lia.
  - rewrite ks_replay_no_clear by done. set_solver.
Qed.
End kept.

(** ** One keyspace after recovery *)

Lemma recovered_part ks tb pe (js active : list batch) p :
  sealed_inv ks tb pe js p -> StronglySorted Z.lt (js ++ active).*1 ->
  let q := foldl (part_batch ks) p active in
  (forall v v', v ∈ pt_memtable q -> v' ∈ pt_sealed q -> v_seqno v' < v_seqno v) /\
  ((Exists (clears ks) (js ++ active) /\ pt_persisted q = None /\ pt_tables q = [] /\
    pt_memtable q ++ pt_sealed q = ks_replay ks (js ++ active) []) \/
   (Forall (fun b => ~ clears ks b) (js ++ active) /\ pt_persisted q = pe /\ pt_tables q = tb /\
    exists bs', needed ks pe js bs' /\ justified ks pe bs' /\ pt_memtable q = ks_replay ks active [] /\ pt_sealed q = ks_replay ks bs' [])).
Proof.
  intros [Hm Hp] Hs. destruct p as [m sl tb' pe']. cbn [pt_memtable pt_sealed pt_tables pt_persisted] in Hm, Hp. subst m. cbv zeta.
  assert (forall bs', bs' ⊆ js -> Forall (fun b => ~ clears ks b) active -> forall v v', v ∈ ks_replay ks active [] -> v' ∈ ks_replay ks bs' [] -> v_seqno v' < v_seqno v) as Hlt.
  { intros bs' Hsub Hno v v' Hv Hv'. apply ks_replay_in in Hv as (_ & b & Hb & _ & ->); [|done].
    apply ks_replay_from in Hv' as [?%elem_of_nil|(b' & Hb' & ->)]; [done|]. by apply (sorted_app_lt _ _ _ _ Hs); [apply Hsub|]. }
  destruct (clears_or_not ks active) as [Hno|Hyes].
  - rewrite part_batches_no_clear by done. cbn [pt_memtable pt_sealed pt_tables pt_persisted].
    destruct Hp as [(Hc & -> & -> & bs' & Hn & Hj & ->)|(-> & -> & Hex & ->)].
    + split; [apply Hlt; [by apply (needed_subset _ _ _ _ Hn)|done]|]. right. split; [by apply Forall_app|]. split; [done|]. split; [done|]. by exists bs'.
    + split; [by apply Hlt|]. left. split; [apply Exists_app; by left|]. split; [done|]. split; [done|].
      by rewrite ks_replay_app, (ks_replay_no_clear ks active (ks_replay ks js [])).
  - rewrite (part_batches_clear ks active _ (ks_replay ks js []) Hyes). cbn [pt_memtable pt_sealed pt_tables pt_persisted].
    split; [by intros v v' _ ?%elem_of_nil|]. left. split; [apply Exists_app; by right|]. rewrite app_nil_r, ks_replay_app. done.
Qed.

(** What a version of the oldest journals is below. *)
Lemma marked_journals known items js n ks (h : history) v :
  Forall2 (marks known) items js -> known ks = true -> v ∈ ks_replay ks (concat (take n js)) h ->
  v ∈ h \/ exists item wm, item ∈ take n items /\ wm ∈ watermarks item /\ wm_keyspace wm = ks /\ v_seqno v <= lsn wm.
Proof.
  intros Hm Hk [?|(b & Hb & Ht & ->)]%ks_replay_touch; [by left|right]. apply list_elem_of_In, in_concat in Hb as (j & Hj & Hb).
  apply list_elem_of_In in Hj, Hb. apply (Forall2_take _ _ _ n) in Hm. apply list_elem_of_lookup in Hj as (i & Hi).
  destruct (Forall2_lookup_r _ _ _ _ _ Hm Hi) as (item & Hitem & Hmark). destruct (Hmark ks b Hk Hb Ht) as (wm & ? & ? & ?).
  exists item, wm. split_and!; [|done|done|done]. apply list_elem_of_lookup. by exists i.
Qed.

Section restart.
Context `{JournalCodec} {T : Type} `{!TreeOps T, !TreeLaws T, !LsmOps T, !LsmLaws T, !FlushOps T, !FlushLaws T}.
Context (tree_clear_ok : clears_succeed T).

Abbreviation Eng := (Engine T).

(** The journals an engine queues, with the watermarks recovery gives them. *)
Lemma cleared_ks_inv base w (e : Eng) ks known :
  Forall2 (marks known) (mgr_items (en_manager e)) (en_contents e) -> known ks = true -> Exists (clears ks) (all_batches e) ->
  highest_persisted e ks = None -> tables ks (en_trees e) = [] ->
  memtable ks (en_trees e) ++ sealed ks (en_trees e) = ks_replay ks (all_batches e) [] ->
  (forall v v', v ∈ memtable ks (en_trees e) -> v' ∈ sealed ks (en_trees e) -> v_seqno v' < v_seqno v) ->
  ks_inv base w level_none (part ks (en_trees e)) e ks.
Proof.
  intros Hm Hk Hex Hp Ht Hmem Ho. unfold highest_persisted in Hp.
  split; cbn [part pt_memtable pt_sealed pt_tables pt_persisted]; rewrite ?Hp, ?Ht; try done.
  - rewrite Hmem, list_filter_all by done. f_equal. unfold whole. by apply ks_replay_clear.
  - intros _ key i _. exists None. split; [done|]. rewrite filter_nothing by done. by apply summary_norm.
  - intros n v Hnc Hv. right. assert (Exists (clears ks) (concat (take n (en_contents e)))) as Hex'.
    { unfold all_batches in Hex. rewrite <- (take_drop n (en_contents e)), concat_app, <- app_assoc in Hex. apply Exists_app in Hex as [?|Hex]; [done|].
      exfalso. by apply (Forall_Exists_neg _ _) in Hnc. }
    rewrite (ks_replay_clear ks _ _ [] Hex') in Hv. destruct (marked_journals known _ _ n ks [] v Hm Hk Hv) as [?%elem_of_nil|?]; done.
Qed.

(** A keyspace whose tables were left as they were, under the batches they may lack. *)
Lemma kept_ks_inv base w lv fl (e e' : Eng) ks known bs' :
  flight_inv base w lv fl e -> live e ks -> en_contents e' = en_contents e -> en_journal e' = en_journal e ->
  Forall2 (marks known) (mgr_items (en_manager e')) (en_contents e') -> known ks = true ->
  Forall (fun b => ~ clears ks b) (all_batches e) -> highest_persisted e' ks = highest_persisted e ks ->
  tables ks (en_trees e') = tables ks (en_trees e) ->
  needed ks (highest_persisted e ks) (concat (en_contents e)) bs' -> justified ks (highest_persisted e ks) bs' ->
  memtable ks (en_trees e') = ks_replay ks (en_journal e) [] -> sealed ks (en_trees e') = ks_replay ks bs' [] ->
  (forall v v', v ∈ memtable ks (en_trees e') -> v' ∈ sealed ks (en_trees e') -> v_seqno v' < v_seqno v) ->
  exists lv', ks_inv base w lv' (part ks (en_trees e')) e' ks.
Proof.
  intros Hinv Hl Ec Ej Hm Hkn Hnc Hp Ht Hn Hj Hmem Hsl Ho.
  pose proof (ei_keyspaces _ _ _ _ _ Hinv ks Hl) as Hk. destruct (view_no_clear base w lv fl e ks Hinv Hnc) as (mem & Ev). rewrite Ev in Hk.
  pose proof (ei_sorted _ _ _ _ _ Hinv) as Hs. assert (all_batches e' = all_batches e) as Hb by (unfold all_batches; by rewrite Ec, Ej).
  pose proof (needed_keep ks _ _ _ (en_journal e) Hs Hn) as Hn'. fold (all_batches e) in Hn'.
  assert (forall v, v ∈ of_ks ks base -> forall b, b ∈ all_batches e -> v_seqno v < b.1) as Hbase.
  { intros v [_ Hv]%list_elem_of_filter. by apply (ei_base _ _ _ _ _ Hinv). }
  assert (Forall (fun b => ~ clears ks b) bs') as Hc'.
  { unfold all_batches in Hnc. apply Forall_app in Hnc as [Hnc _]. rewrite Forall_forall in Hnc |- *. intros b Hin. by apply Hnc, (needed_subset _ _ _ _ Hn). }
  set (k := kept_level ks base (all_batches e) (bs' ++ en_journal e)).
  assert (memtable ks (en_trees e') ++ sealed ks (en_trees e') = unflushed_part k (whole base e ks)) as Hkept.
  { unfold whole, k. rewrite (kept_part ks base _ _ _ Hnc Hs Hn' Hbase), Hmem, Hsl, ks_replay_app. unfold all_batches in Hnc.
    apply Forall_app in Hnc as [_ Hnc]. by rewrite (ks_replay_no_clear ks (en_journal e) (ks_replay ks bs' [])). }
  assert (forall s, covers k s = true -> covers (solid (lv ks)) s = true) as Hsolid.
  { intros s. apply (kept_level_solid ks base _ _ _ Hnc Hn'); [|apply (ki_persisted _ _ _ _ _ _ Hk)].
    intros v Hv. destruct (ki_evict _ _ _ _ _ _ Hk 0%nat v) as [?|(item & wm & Hin & _)]; [|done|done|by apply elem_of_nil in Hin].
    rewrite drop_0. done. }
  exists (mkLevel k (lub (highest_persisted e ks) k)).
  unfold part. fold (highest_persisted e' ks).
  split; cbn [kept solid pt_memtable pt_sealed pt_tables pt_persisted]; unfold whole in *; rewrite ?Hb, ?Hp, ?Ht; try done.
  - intros s ?. apply covers_lub. by left.
  - intros s ?. apply covers_lub. by right.
  - intros s [Hc|Hc]%covers_lub; [apply (ki_persisted _ _ _ _ _ _ Hk) in Hc|apply Hsolid in Hc]; by apply (ki_solid _ _ _ _ _ _ Hk).
  - by rewrite Hkept.
  - intros s v Hv [Hc|Hc]%covers_lub.
    + rewrite Hsl in Hv |- *. apply ks_replay_in in Hv as (_ & b & Hin & Htb & _); [|done]. destruct (Hj b Hin Htb) as (b0 & Hb0 & Ht0 & Hc0).
      destruct (ks_batch_touched ks b0) as (x & Hx & Hxs); [|done|rewrite Forall_forall in Hc'; by apply Hc'|].
      { pose proof (ei_storable _ _ _ _ _ Hinv) as Hst. rewrite Forall_forall in Hst. apply Hst. unfold all_batches. apply elem_of_app. left. by apply (needed_subset _ _ _ _ Hn). }
      exists x. split; [by apply (ks_replay_batch_in ks bs' b0)|]. pose proof (covers_lt _ _ _ Hc Hc0). lia.
    + exists v. split; [done|]. assert (v ∈ unflushed_part k (ks_replay ks (all_batches e) (of_ks ks base))) as [Hv' _]%list_elem_of_filter.
      { rewrite <- Hkept. set_solver. }
      pose proof (covers_lt _ _ _ Hc Hv'). lia.
  - intros Hx key i Hi. destruct (ki_tables _ _ _ _ _ _ Hk Hx key i Hi) as (u & Hu & ?). exists u. split; [|done].
    intros s [Hc|Hc]%covers_lub; apply Hu; [by apply (ki_persisted _ _ _ _ _ _ Hk)|by apply Hsolid].
  - intros n v _ Hv. destruct (marked_journals known _ _ n ks _ v Hm Hkn Hv) as [Hv'|?]; [left|by right].
    apply covers_lub. right. by apply (base_left_out ks base _ _ _ Hnc Hs Hn' Hbase).
Qed.

(** Without journals the tables are all there is. *)
Lemma tables_ks_inv base w (e : Eng) ks :
  all_batches e = [] -> memtable ks (en_trees e) = [] -> sealed ks (en_trees e) = [] -> of_ks ks base = tables ks (en_trees e) ->
  exists lv, ks_inv base w lv (part ks (en_trees e)) e ks.
Proof.
  intros Hb Hm Hs Hbase. assert (whole base e ks = tables ks (en_trees e)) as Hw by (unfold whole; by rewrite Hb).
  assert (forall v, v ∈ tables ks (en_trees e) -> v_keyspace v = ks) as Hks by (rewrite <- Hbase; by intros v [? _]%list_elem_of_filter).
  pose proof (fun s => covers_highest ks (tables ks (en_trees e)) s Hks) as Hcov. set (top := hist_highest ks (tables ks (en_trees e))) in *.
  assert (forall v, v ∈ tables ks (en_trees e) -> covers top (v_seqno v) = true) as Htop by (intros v Hv; apply Hcov; exists v; split; [done|lia]).
  assert (concat (en_contents e) = []) as Hc by (by apply app_nil in Hb as [? _]).
  exists (mkLevel top top). unfold part. split; cbn [kept solid pt_memtable pt_sealed pt_tables pt_persisted]; rewrite ?Hw, ?Hm, ?Hs; try done.
  - intros s Hp. destruct (tree_highest_persisted_seqno ks (en_trees e)) as [m|] eqn:E; [|done]. apply persisted_version in E as (v & Hv & ?). apply Z.leb_le in Hp.
    apply Hcov. exists v. split; [done|lia].
  - intros s. apply Hcov.
  - rewrite filter_nothing; [done|]. intros v Hv. by rewrite Htop.
  - intros v v' Hv. by apply elem_of_nil in Hv.
  - intros s v Hv. by apply elem_of_nil in Hv.
  - intros _ key i _. exists top. split; [done|]. rewrite list_filter_all by done. by apply summary_norm.
  - intros n v _ Hv. left. assert (concat (take n (en_contents e)) = []) as Hn.
    { rewrite <- (take_drop n (en_contents e)), concat_app in Hc. by apply app_nil in Hc as [? _]. }
    rewrite Hn, Hbase in Hv. by apply Htop.
Qed.

(** ** Crash and recovery *)

(** What a killed engine leaves, as recovery finds it: the keyspaces that are known, the
    order of hash maps, the sealed journals and the active one. *)
Record Image := mkImage {
  im_known : Z -> bool;
  im_lookup : Z -> PResult bool;
  im_values : gmap Z Z -> list (Z * Z);
  im_keyspaces : list Z;
  im_files : list SealedFile;
  im_contents : bytes;
  im_truncated : bytes
}.

Record crash_image (e : Eng) (im : Image) : Prop := {
  ci_lookup ks : im_lookup im ks = Some (Ok (im_known im ks));
  ci_values wms : im_values im wms ≡ₚ map_to_list wms;
  ci_keyspaces ks : im_known im ks = true <-> ks ∈ im_keyspaces im;
  ci_live ks : im_known im ks = true -> live e ks;
  ci_sealed : Forall2 journal_of (im_files im) (en_contents e);
  ci_active : read_journal (im_contents im) = Some (Ok (batch_of <$> en_journal e), im_truncated im)
}.

Definition recover_image (im : Image) (e : Eng) : option (Recovering T * Result (SnapshotTracker * list Z)) :=
  recover_database (im_lookup im) (im_values im) (im_files im) (im_keyspaces im) (Some (im_contents im)) (recovering_new (reopened (en_trees e))).

(** The engine that is started with what was recovered. *)
Definition restarted (e : Eng) (im : Image) (s : Recovering T) (tracker : SnapshotTracker) (queue : list Z) : Eng :=
  mkEngine (rv_trees s) (en_journal e) (en_contents e) (rv_manager s) (im_keyspaces im) ∅ (rv_seqno s) tracker
    (rv_write_buffer_size s) (replicate (length queue) MFlush) queue 0 0.

Lemma image_parts e im :
  Forall storable (all_batches e) -> StronglySorted Z.lt (all_batches e).*1 -> crash_image e im ->
  exists s tracker queue, recover_image im e = Some (s, Ok (tracker, queue)) /\
    (forall ks, im_known im ks = true -> exists p, part ks (rv_trees s) = foldl (part_batch ks) p (en_journal e) /\
      sealed_inv ks (tables ks (en_trees e)) (highest_persisted e ks) (concat (en_contents e)) p) /\
    (forall v, v ∈ versions (rv_trees s) -> im_known im (v_keyspace v) = true -> v_seqno v < rv_seqno s) /\
    tracker_get tracker = Z.max 0 (rv_seqno s) /\ Forall2 (marks (im_known im)) (mgr_items (rv_manager s)) (en_contents e) /\
    rv_files s = omap left_file (im_files im) ++ [im_truncated im].
Proof.
  intros Hst Hso [Hl Hv Hks Hlive Hf Ha].
  destruct (recover_database_parts tree_clear_ok (im_known im) (im_lookup im) Hl (im_values im) Hv (im_keyspaces im) (im_files im) (en_contents e)
    (im_contents im) (en_journal e) (im_truncated im) (reopened (en_trees e)) Hks Hf Ha) as (s & tracker & queue & E & Hp & Hn & Ht & _ & Hm & Hfi).
  - done.
  - done.
  - intros ks _. split; [apply reopened_memtable|apply reopened_sealed].
  - exists s, tracker, queue. split_and!; [done| |done|done|done|done]. intros ks Hk. destruct (Hp ks Hk) as (p & Ep & Hi). exists p.
    rewrite reopened_tables, reopened_persisted in Hi. done.
Qed.

(** What the recovered journals lie on: the same as before, or without journals what the
    trees hold. *)
Definition rebased (base base' : history) (e : Eng) (im : Image) (t : T) : Prop :=
  base' = base \/ all_batches e = [] /\ forall ks, im_known im ks = true -> of_ks ks base' = of_ks ks (versions t).

(** The journals bring no weak tombstones to keyspaces they are kept from. *)
Lemma replay_weak_free ks bs h :
  exact ks -> Forall (fun b => strong_entries b.2) bs -> weak_free h -> weak_free (ks_replay ks bs h).
Proof.
  intros Hx Hbs. revert h. induction Hbs as [|[s es] bs Hb _ IH]; intros h Hh; [done|]. cbn [ks_replay foldl]. apply IH. clear IH.
  unfold ks_batch. cbn [fst snd] in *. revert h Hh. induction es as [|x es IH]; intros h Hh; [done|]. cbn [foldl].
  apply IH; [intros ks' y Hk Hy; apply Hb; [done|by right]|]. pose proof (Hb ks x Hx ltac:(left)) as Hs. clear IH Hb.
  destruct x as [|ks' key value vt c| |ks']; cbn [ks_entry]; try done; (case_decide; [subst|done]); [|by intros v ?%elem_of_nil].
  destruct vt; cbn [item_version]; [| |by destruct (Hs key value c)|done]; (intros v [->|Hv]%elem_of_cons; [done|by apply Hh]).
Qed.

Lemma recovered_weak_free ks (p : Part) (js active : list batch) pe (tb : history) :
  exact ks -> Forall (fun b => strong_entries b.2) (js ++ active) -> weak_free tb -> StronglySorted Z.lt (js ++ active).*1 ->
  sealed_inv ks tb pe js p -> weak_free (pt_all (foldl (part_batch ks) p active)).
Proof.
  intros Hx Hst Htb Hs Hi. destruct (recovered_part _ _ _ _ _ _ Hi Hs) as [_ Hq]. cbv zeta in Hq. unfold pt_all. rewrite app_assoc.
  apply Forall_app in Hst as Hst'. destruct Hst' as [Hj Ha]. assert (weak_free []) as Hnil by (by intros v ?%elem_of_nil).
  destruct Hq as [(_ & _ & -> & Em)|(_ & _ & -> & bs' & Hn & _ & -> & ->)]; intros v Hv.
  - rewrite app_nil_r, Em in Hv. by apply (replay_weak_free ks (js ++ active) []) in Hv.
  - apply elem_of_app in Hv as [[Hv|Hv]%elem_of_app|Hv]; [by apply (replay_weak_free ks active []) in Hv| |by apply Htb].
    apply (replay_weak_free ks bs' []) in Hv; [done|done| |done]. rewrite list.Forall_forall in Hj |- *. intros b Hb. by apply Hj, (needed_subset _ _ _ _ Hn).
Qed.

(** Every recovered keyspace is again covered by its tables and the journals. *)
Lemma restart_keyspaces base w lv fl e im s tracker queue :
  flight_inv base w lv fl e -> crash_image e im -> recover_image im e = Some (s, Ok (tracker, queue)) ->
  (forall b, b ∈ all_batches e -> b.1 < rv_seqno s) -> let e' := restarted e im s tracker queue in
  Forall2 (marks (im_known im)) (mgr_items (en_manager e')) (en_contents e') /\
  exists base', rebased base base' e im (rv_trees s) /\ (forall v, v ∈ base' -> v_seqno v < rv_seqno s /\ forall b, b ∈ all_batches e -> v_seqno v < b.1) /\
    forall ks, im_known im ks = true -> exists lv', ks_inv base' w lv' (part ks (en_trees e')) e' ks.
Proof.
  intros Hinv Hci Hrec Hseq e'. pose proof (ei_sorted _ _ _ _ _ Hinv) as Hsort.
  destruct (image_parts e im (ei_storable _ _ _ _ _ Hinv) (ei_sorted _ _ _ _ _ Hinv) Hci) as (s0 & tracker0 & queue0 & Hrec0 & Hp & Hnum & _ & Hm & _).
  rewrite Hrec in Hrec0. injection Hrec0 as <- <- <-. split; [done|]. destruct (all_batches e) as [|b0 bs0] eqn:Eb.
  - exists (filter (fun v => im_known im (v_keyspace v) = true) (versions (rv_trees s))).
    assert (forall ks, im_known im ks = true ->
      of_ks ks (filter (fun v => im_known im (v_keyspace v) = true) (versions (rv_trees s))) = of_ks ks (versions (rv_trees s))) as Hof.
    { intros ks Hk. unfold of_ks. rewrite list_filter_filter. apply list_filter_iff. intros v. split; [tauto|by intros ->]. }
    split; [right; by split|]. split.
    + intros v [Hk Hv]%list_elem_of_filter. split; [by apply Hnum|]. by intros b ?%elem_of_nil.
    + intros ks Hk. destruct (Hp ks Hk) as (p & Ep & Hi).
      destruct (recovered_part _ _ _ _ (en_journal e) p Hi) as [_ Hq]; [by fold (all_batches e); rewrite Eb; constructor|]. rewrite <- Ep in Hq.
      apply app_nil in Eb as [Ec Ej]. rewrite Ec, Ej in Hq. destruct Hq as [(Hex & _)|(_ & _ & _ & bs' & Hn & _ & Hmem & Hsl)]; [by apply Exists_nil in Hex|].
      assert (bs' = []) as -> by (apply sublist_nil_r; apply (nd_sublist _ _ _ _ Hn)). cbn in Hmem, Hsl.
      apply tables_ks_inv; [unfold all_batches; cbn; by rewrite Ec, Ej|done|done|]. cbn [en_trees restarted e'].
      rewrite Hof by done. unfold of_ks. by rewrite parts, Hmem, Hsl.
  - rewrite <- Eb in *. exists base. split; [by left|]. split.
    + intros v Hv. destruct (ei_base _ _ _ _ _ Hinv v Hv) as [_ Hlt]. split; [|done].
      assert (b0 ∈ all_batches e) as Hin by (rewrite Eb; left). specialize (Hlt b0 Hin). specialize (Hseq b0 Hin). lia.
    + intros ks Hk. destruct (Hp ks Hk) as (p & Ep & Hi). destruct (recovered_part _ _ _ _ (en_journal e) p Hi Hsort) as [Ho Hq]. rewrite <- Ep in Ho, Hq.
      cbn [part pt_memtable pt_sealed pt_tables pt_persisted] in Ho, Hq.
      destruct Hq as [(Hex & Hpe & Htb & Hmem)|(Hnc & Hpe & Htb & bs' & Hn & Hj & Hmem & Hsl)].
      * exists level_none. by apply (cleared_ks_inv _ _ e' ks (im_known im)).
      * apply (kept_ks_inv base w lv fl e e' ks (im_known im) bs'); try done. by apply (ci_live _ _ Hci).
Qed.

(** The recovered engine is as good as the one that was killed, provided that the
    sequence numbers go on above those of the journals. *)
Lemma restart_inv base w lv fl e im s tracker queue :
  flight_inv base w lv fl e -> crash_image e im -> recover_image im e = Some (s, Ok (tracker, queue)) ->
  (forall b, b ∈ all_batches e -> b.1 < rv_seqno s) ->
  exists base' lv', engine_inv base' w lv' (restarted e im s tracker queue) /\ rebased base base' e im (rv_trees s).
Proof.
  intros Hinv Hci Hrec Hseq. destruct (restart_keyspaces _ _ _ _ _ _ _ _ _ Hinv Hci Hrec Hseq) as (Hm & base' & Hre & Hbase & Hks).
  destruct (list_choice level_none (fun ks lv' => ks_inv base' w lv' (part ks (rv_trees s)) (restarted e im s tracker queue) ks) (im_keyspaces im)) as (lv' & Hlv).
  { intros ks Hin. by apply Hks, (ci_keyspaces _ _ Hci). }
  exists base', lv'. split; [|done]. split.
  - apply (ei_sorted _ _ _ _ _ Hinv).
  - apply (ei_storable _ _ _ _ _ Hinv).
  - apply (ei_strong _ _ _ _ _ Hinv).
  - done.
  - done.
  - symmetry. apply (Forall2_length _ _ _ Hm).
  - done.
  - intros ks [Hl%(ci_keyspaces _ _ Hci) _] Hx.
    destruct (image_parts e im (ei_storable _ _ _ _ _ Hinv) (ei_sorted _ _ _ _ _ Hinv) Hci) as (s0 & tracker0 & queue0 & Hrec0 & Hp & _).
    rewrite Hrec in Hrec0. injection Hrec0 as <- <- <-. destruct (Hp ks Hl) as (p & Ep & Hi). cbn [en_trees restarted]. rewrite Ep.
    refine (recovered_weak_free ks p _ _ _ _ Hx (ei_strong _ _ _ _ _ Hinv) _ (ei_sorted _ _ _ _ _ Hinv) Hi).
    intros v Hv. apply (ei_weak_free _ _ _ _ _ Hinv ks (ci_live _ _ Hci ks Hl) Hx v). unfold pt_all. cbn [part pt_tables]. set_solver.
  - intros ks [Hl _]. by apply Hlv.
Qed.

(** ** Lives *)

(** A database that was just created: nothing in the trees of its keyspaces. *)
Record fresh (e : Eng) : Prop := {
  fr_journal : en_journal e = [];
  fr_contents : en_contents e = [];
  fr_items : mgr_items (en_manager e) = [];
  fr_keyspaces ks : live e ks ->
    memtable ks (en_trees e) = [] /\ sealed ks (en_trees e) = [] /\ tables ks (en_trees e) = [] /\ highest_persisted e ks = None
}.

Lemma fresh_inv w e : fresh e -> engine_inv [] w (fun _ => level_none) e.
Proof.
  intros [Hj Hc Hi Hks]. assert (all_batches e = []) as Hb by (unfold all_batches; by rewrite Hj, Hc).
  split; rewrite ?Hb, ?Hc, ?Hi; try done; [constructor|by intros b ?%elem_of_nil|by intros v ?%elem_of_nil| |].
  { intros ks Hl _. destruct (Hks ks Hl) as (Hm & Hs & Ht & _). unfold pt_all, part. cbn [pt_memtable pt_sealed pt_tables]. rewrite Hm, Hs, Ht. by intros v ?%elem_of_nil. }
  intros ks Hl. destruct (Hks ks Hl) as (Hm & Hs & Ht & Hp).
  unfold highest_persisted in Hp. cbn [view]. unfold part.
  split; cbn [pt_memtable pt_sealed pt_tables pt_persisted]; unfold whole; rewrite ?Hb, ?Hm, ?Hs, ?Ht, ?Hp; try done.
  - intros v v' Hv. by apply elem_of_nil in Hv.
  - intros _ key i _. exists None. split; [done|]. by apply summary_norm.
  - intros n v _. rewrite Hc, take_nil. cbn. by intros ?%elem_of_nil.
Qed.

(** Everything a database can become, with the write under way if there is one. The
    sequence numbers must not go back, which a replayed clear can make them do
    ([RecoveryProps.clear_resets_seqno]). *)
Inductive lives (w : Z) : Eng * option Flight -> Prop :=
  | lives_fresh e : fresh e -> lives w (e, None)
  | lives_step c c' : lives w c -> fine_step w c c' -> lives w c'
  | lives_restart e fl im s tracker queue : lives w (e, fl) -> crash_image e im ->
      recover_image im e = Some (s, Ok (tracker, queue)) -> (forall b, b ∈ all_batches e -> b.1 < rv_seqno s) ->
      lives w (restarted e im s tracker queue, None).

Lemma lives_inv w c : lives w c -> exists base lv, flight_inv base w lv c.2 c.1.
Proof.
  induction 1 as [e Hf|c c' _ (base & lv & Hinv) Hs|e fl im s tracker queue _ (base & lv & Hinv) Hci Hrec Hseq]; cbn [fst snd] in *.
  - by eexists _, _; apply fresh_inv.
  - destruct (fine_step_log tree_clear_ok base w lv c c' Hs Hinv) as (base' & lv' & ? & _). by exists base', lv'.
  - destruct (restart_inv base w lv fl e im s tracker queue Hinv Hci Hrec Hseq) as (base' & lv' & ? & _). by exists base', lv'.
Qed.

Lemma lives_fine w c c' : lives w c -> rtc (fine_step w) c c' -> lives w c'.
Proof. intros Hl Hr. induction Hr as [|c c1 c' Hs _ IH]; [done|]. by apply IH, (lives_step _ c). Qed.

Lemma lives_run w e e' : lives w (e, None) -> rtc (engine_step w) e e' -> lives w (e', None).
Proof. intros Hl Hr. induction Hr as [|e e1 e' Hs _ IH]; [done|]. by apply IH, (lives_fine _ (e, None)), engine_step_fine. Qed.

(** Recovery from what an engine leaves behind completes the write under way. *)
Lemma image_recovers w e fl im :
  lives w (e, fl) -> crash_image e im ->
  exists s tracker queue, recover_image im e = Some (s, Ok (tracker, queue)) /\
    (forall ks key i, im_known im ks = true -> exact ks -> w <= i ->
      snapshot_get (versions (rv_trees s)) ks key i = snapshot_get (versions (finish fl (en_trees e))) ks key i) /\
    (forall v, v ∈ versions (rv_trees s) -> im_known im (v_keyspace v) = true -> v_seqno v < rv_seqno s) /\
    tracker_get tracker = Z.max 0 (rv_seqno s) /\ rv_files s = omap left_file (im_files im) ++ [im_truncated im].
Proof.
  intros (base & lv & Hinv)%lives_inv Hci. cbn [fst snd] in Hinv. destruct Hci as [Hl Hv Hks Hlive Hf Ha].
  destruct (recover_database_reads tree_clear_ok (im_known im) (im_lookup im) Hl (im_values im) Hv (im_keyspaces im) (im_files im) (en_contents e)
    (im_contents im) (en_journal e) (im_truncated im) (reopened (en_trees e)) Hks Hf Ha)
    as (s & tracker & queue & Hrec & Hreads & Hseq & Htr & _ & Hfi).
  - apply (ei_storable _ _ _ _ _ Hinv).
  - apply (ei_sorted _ _ _ _ _ Hinv).
  - intros ks _. split; [apply reopened_memtable|apply reopened_sealed].
  - exists s, tracker, queue. split; [done|]. split; [|done]. intros ks key i Hk Hx Hi.
    rewrite (Hreads base (fun _ => w) (solid ∘ lv) ks key i Hk); [|by apply (crash_leaves base w lv fl); [|apply Hlive|]|done]. symmetry.
    apply (flight_reads tree_clear_ok base w lv); [done|by apply Hlive|done|done].
Qed.
End restart.
