(* ===== verification/EngineDurable.v ===== *)
(** * Durability of the engine

    Worker ticks and database operations as runs of engine steps, and the end-to-end
    theorem: at every point of every interleaving, what a crash leaves is recovered to
    exactly what readers saw, in keyspaces whose compactions lose no data. [FlushHist] is an in-memory instance of the trees. *)

From stdpp Require Import base gmap list sorting relations.
From S2P Require Import Prelude Errors Utf8 Store Panic JournalEntry JournalReader JournalWriter JournalFiles SnapshotTracker Mvcc Db.
From S2P Require Import DbProps ReplayHistory Recovery RecoveryProps Engine EngineProps EngineRestart.

Section engine.
Context `{JournalCodec} {T : Type} `{!TreeOps T, !TreeLaws T, !LsmOps T, !LsmLaws T, !FlushOps T, !FlushLaws T}.

Abbreviation Eng := (Engine T).

(** ** The operations of the database are writes *)

Lemma auto_persist_trees ks (db db' : Database T) : auto_persist ks db = (db', Ok ()) -> db_trees db' = db_trees db /\ db_seqno db' = db_seqno db.
Proof.
  unfold auto_persist, persist_or_poison, with_journal. destruct (manual_journal_persist ks); [by intros [= <-]|].
  destruct (persist Buffer (db_journal db)) as [w [[]|]]; by intros [= <-].
Qed.

Lemma logged_write_trees ks key value vt f (db db' : Database T) :
  logged_write ks key value vt f db = (db', Ok ()) ->
  db_trees db' = (f (db_seqno db) (db_trees db)).1 /\ db_seqno db' = db_seqno db + 1.
Proof.
  unfold logged_write. destruct (is_deleted ks); [done|]. unfold st_bind at 1, check_poisoned. destruct (is_poisoned db); [done|].
  unfold st_bind, next_seqno, with_journal. destruct (write_raw _ _ _ _ _ _) as [w [n|]]; [|done].
  destruct (auto_persist ks _) as [db1 [[]|]] eqn:Ea; [|done]. apply auto_persist_trees in Ea as [Ht Hs]. cbn in Ht, Hs.
  unfold with_trees. rewrite Ht. destruct (f (db_seqno db) (db_trees db)) as [t sizes]. by intros [= <-].
Qed.

Lemma clear_trees ks (db db' : Database T) :
  keyspace_clear ks db = (db', Ok ()) -> db_trees db' = (tree_clear (ks_id ks) (db_trees db)).1 /\ db_seqno db' = db_seqno db + 1.
Proof.
  unfold keyspace_clear. unfold st_bind at 1, check_poisoned. destruct (is_poisoned db); [done|].
  unfold st_bind, next_seqno, with_journal. destruct (write_clear _ _ _) as [w [n|]]; [|done].
  destruct (auto_persist ks _) as [db1 [[]|]] eqn:Ea; [|done]. apply auto_persist_trees in Ea as [Ht Hs]. cbn in Ht, Hs.
  unfold with_trees, st_lift. rewrite Ht. destruct (tree_clear (ks_id ks) (db_trees db)) as [t [[]|]]; [|done]. by intros [= <-].
Qed.

Lemma batch_trees b (db db' : Database T) :
  batch_data b <> [] -> batch_commit b db = (db', Ok ()) ->
  db_trees db' = (apply_items (db_seqno db) (batch_data b) 0 (db_trees db)).1 /\ db_seqno db' = db_seqno db + 1.
Proof.
  intros Hne. rewrite batch_commit_whole, decide_False by done. unfold st_bind at 1, check_poisoned. destruct (is_poisoned db); [done|].
  unfold st_bind, next_seqno, ignore_error, with_journal. destruct (write_batch _ _ _ _) as [w r]. cbn [fst].
  destruct (durability b) as [mode|].
  - unfold persist_or_poison, with_journal. cbn [db_journal]. destruct (persist mode w) as [w2 [[]|]]; [|done].
    unfold with_trees. cbn. destruct (apply_items _ _ _ _) as [t n]. by intros [= <-].
  - unfold with_trees. cbn. destruct (apply_items _ _ _ _) as [t n]. by intros [= <-].
Qed.

Lemma live_items_apply w s its size (t : T) :
  foldl (live_entry false s) t (batch_entry w <$> (journal_item <$> its)) = (apply_items s its size t).1.
Proof.
  revert size t. induction its as [|i its IH]; intros size t; [done|]. cbn [apply_items fmap list_fmap foldl].
  destruct (apply_item s i t) as [t1 n] eqn:E. rewrite <- (IH (size + n) t1). f_equal.
  unfold apply_item in E. unfold batch_entry, raw_entry, journal_item. cbn. destruct (it_type i); cbn;
    [destruct (tree_insert _ _ _ _ _)|destruct (tree_remove _ _ _ _)|destruct (tree_remove_weak _ _ _ _)|]; by injection E.
Qed.

(** A successful operation applies exactly the batch it journals. *)
Lemma op_is_write op (db db' : Database T) b :
  op_log op db = [b] -> run_op op db = (db', Ok ()) ->
  exists plain, b.1 = db_seqno db /\ db_seqno db' = db_seqno db + 1 /\ db_trees db' = live_batch plain b (db_trees db).
Proof.
  unfold op_log. destruct op as [ks key value|ks key|ks key|ks|wb|mode]; cbn [op_write mbind option_bind]; [| | | | |done].
  1-3: cbn [op_batch]; intros [= <-] [Ht Hs]%logged_write_trees; exists true; by rewrite Ht.
  - cbn [op_batch]. intros [= <-] [Ht Hs]%clear_trees. exists true. by rewrite Ht.
  - destruct (decide (batch_data wb = [])) as [->|Hne]; [done|].
    assert (op_batch (db_journal db) (WBatch (journal_item <$> batch_data wb) (db_seqno db)) =
      Some (db_seqno db, batch_entry (db_journal db) <$> (journal_item <$> batch_data wb))) as -> by (by destruct (batch_data wb)).
    intros [= <-] [Ht Hs]%batch_trees; [|done]. exists false. split_and!; [done|done|].
    unfold live_batch. cbn [fst snd]. by rewrite (live_items_apply _ _ _ 0).
Qed.

(** ** Worker ticks are runs of steps *)

Section ticks.
Context (w : Z).

(** Computations that are runs of steps: always, or while the watermark of the tracker,
    which they leave alone, is below [w]. *)
Definition free_run {A} (m : PState Eng A) : Prop := forall e e' r, m e = Some (e', r) -> rtc (engine_step w) e e'.
Definition bounded_run {A} (m : PState Eng A) : Prop := forall e e' r,
  get_seqno_safe_to_gc (en_tracker e) <= w -> m e = Some (e', r) -> rtc (engine_step w) e e' /\ en_tracker e' = en_tracker e.

Lemma free_bind {A B} (m : PState Eng A) (f : A -> PState Eng B) : free_run m -> (forall a, free_run (f a)) -> free_run (ps_bind m f).
Proof.
  intros Hm Hf e e' r [(e1 & a & E1 & E2)|(x & _ & E1)]%ps_bind_Some; [|by apply Hm in E1].
  etrans; [by eapply Hm|by eapply Hf].
Qed.

Lemma bounded_bind {A B} (m : PState Eng A) (f : A -> PState Eng B) :
  bounded_run m -> (forall a, bounded_run (f a)) -> bounded_run (ps_bind m f).
Proof.
  intros Hm Hf e e' r Hw [(e1 & a & E1 & E2)|(x & _ & E1)]%ps_bind_Some; [|by apply (Hm _ _ _ Hw) in E1].
  destruct (Hm _ _ _ Hw E1) as [H1 Et]. destruct (Hf a e1 e' r) as [H2 Et2]; [by rewrite Et|done|].
  split; [by etrans|congruence].
Qed.

Lemma step_run e e' : engine_step w e e' -> rtc (engine_step w) e e'.
Proof. apply rtc_once. Qed.

Lemma free_ret {A} (a : A) : free_run (ps_ret a).
Proof. intros e e' r [= <- _]. done. Qed.
Lemma bounded_ret {A} (a : A) : bounded_run (ps_ret a).
Proof. intros e e' r _ [= <- _]. done. Qed.

Lemma idle_set_channels msgs tasks (e : Eng) : idle_step e (en_set_channels msgs tasks e).
Proof. done. Qed.

Ltac idle_run := apply step_run, es_free, es_idle; done.

Lemma free_try_send msg : free_run (try_send msg).
Proof. intros e e' r [= <- _]. case_decide; [idle_run|done]. Qed.
Lemma free_send msg : free_run (send msg).
Proof. intros e e' r. unfold send. case_decide; [|done]. intros [= <- _]. idle_run. Qed.
Lemma free_enqueue ks : free_run (enqueue_task ks).
Proof. intros e e' r. unfold enqueue_task. case_decide; [|done]. intros [= <- _]. idle_run. Qed.
Lemma free_collect order : free_run (collect_snapshots order).
Proof. intros e e' r [= <- _]. idle_run. Qed.
Lemma free_maintenance env : free_run (journal_maintenance env).
Proof. intros e e' r E. by eapply step_run, es_free, es_maintenance. Qed.
Lemma free_seal_memtable ks id : free_run (seal_memtable ks id).
Proof. intros e e' r E. by eapply step_run, es_locked, es_seal_memtable. Qed.

Lemma free_rotate env order ks id : free_run (inner_rotate_memtable env order ks id).
Proof.
  apply free_bind; [apply free_seal_memtable|]. intros []; [|apply free_ret].
  apply free_bind; [apply free_enqueue|intros _]. apply free_bind; [apply free_send|intros _].
  apply free_bind; [apply free_collect|intros _]. apply free_bind; [apply free_maintenance|intros _]. apply free_ret.
Qed.

(** What leaves the tracker alone. *)
Lemma bounded_free {A} (m : PState Eng A) :
  free_run m -> (forall e e' r, m e = Some (e', r) -> en_tracker e' = en_tracker e) -> bounded_run m.
Proof. intros Hm Ht e e' r _ E. split; [by apply Hm in E|by apply Ht in E]. Qed.

Lemma bounded_request ks : bounded_run (request_rotation ks).
Proof.
  apply bounded_free; [intros e e' r; apply free_try_send|]. intros e e' r [= <- _]. by case_decide.
Qed.

Lemma bounded_requests kss : bounded_run (request_rotations kss).
Proof. induction kss as [|ks kss IH]; [apply bounded_ret|]. apply bounded_bind; [apply bounded_request|done]. Qed.

Lemma bounded_compactions n ks : bounded_run (send_compactions n ks).
Proof.
  induction n as [|n IH]; [apply bounded_ret|]. apply bounded_bind; [|done].
  apply bounded_free; [apply free_try_send|]. intros e e' r [= <- _]. by case_decide.
Qed.

Lemma bounded_maintenance env : bounded_run (journal_maintenance env).
Proof.
  apply bounded_free; [apply free_maintenance|]. intros e e' r. unfold journal_maintenance.
  destruct (maintenance _ _ _ _) as [[m removed] r']. by intros [= <- _].
Qed.

(** The folder is synced when the journal is rotated. *)
Definition synced (env : TickEnv) : Prop := forall x, te_rotate env <> RotatedUnsynced x.

Lemma bounded_seal_journal env : synced env -> bounded_run (seal_journal env).
Proof.
  intros Hsync. apply bounded_free; [intros e e' r E; by eapply step_run, es_locked, es_seal_journal|]. intros e e' r. unfold seal_journal.
  destruct (te_len env); [|by intros [= <- _]]. destruct (te_rotate env); by intros [= <- _].
Qed.

Lemma bounded_maybe_rotate env max : synced env -> bounded_run (maybe_rotate_journal env max).
Proof.
  intros Hsync e e' r Hw. unfold maybe_rotate_journal. destruct (te_pos env) as [[]|]; [|by intros [= <- _]].
  case_decide; [|by intros [= <- _]]. apply bounded_bind; [by apply bounded_seal_journal| |done]. intros _ e1 e2 r2 Hw1.
  case_decide; [by apply bounded_requests|by intros [= <- _]].
Qed.

Lemma bounded_flush ks : bounded_run (run_flush ks).
Proof.
  intros e e' r Hw E. split; [by eapply step_run, es_free, es_flush|]. unfold run_flush in E.
  destruct (tree_flush _ _ _) as [t [[n|]|x]]; by injection E as <- _.
Qed.

Lemma bounded_compaction ks : bounded_run (run_compaction ks).
Proof.
  intros e e' r Hw E. split; [by eapply step_run, es_free, es_compact|]. unfold run_compaction in E.
  destruct (keyspace_deleted e ks); [by injection E as <- _|].
  destruct (tree_compact _ _ _) as [t [[]|x]]; by injection E as <- _.
Qed.

Lemma bounded_dequeue : bounded_run dequeue_task.
Proof.
  intros e e' r _. unfold dequeue_task. destruct (en_tasks e); intros [= <- _]; [done|]. split; [idle_run|done].
Qed.

(** Whatever message a worker handles, what it does is a sequence of steps: so any number
    of workers keeps the database recoverable. *)
Lemma tick_runs env order pool_size worker_id max e e' r :
  get_seqno_safe_to_gc (en_tracker e) <= w -> synced env ->
  worker_tick env order pool_size worker_id max e = Some (e', r) -> rtc (engine_step w) e e'.
Proof.
  intros Hw Hsync. unfold worker_tick. destruct (en_messages e) as [|item messages]; [done|]. intros E.
  eapply rtc_l; [apply es_free, es_idle, (idle_set_channels messages (en_tasks e))|].
  destruct item as [|ks| |ks id].
  - eapply (bounded_bind dequeue_task); [apply bounded_dequeue| |exact Hw|exact E]. intros [ks|]; [|apply bounded_ret].
    apply bounded_bind; [by apply bounded_maybe_rotate|intros _]. apply bounded_bind; [apply bounded_flush|intros _].
    apply bounded_bind; [apply bounded_compactions|intros _]. apply bounded_bind; [apply bounded_maintenance|intros _]. apply bounded_ret.
  - case_decide.
    + exact (free_bind _ _ (free_send (MCompact ks)) (fun _ => free_ret _) _ _ _ E).
    + exact (proj1 (bounded_bind _ _ (bounded_compaction ks) (fun _ => bounded_ret _) (en_set_channels messages (en_tasks e) e) _ _ Hw E)).
  - by apply free_ret in E.
  - exact (free_bind _ _ (free_rotate env order ks id) (fun _ => free_ret _) _ _ _ E).
Qed.

End ticks.

Context (tree_clear_ok : clears_succeed T).

(** The engine can be killed at any point, any number of times, in the middle of a write
    too. Whatever writes, memtable rotations, flushes, compactions, journal rotations and
    evictions of journals happened, in any interleaving, whichever of them failed, and
    however often the database was killed and recovered before: recovery from the tables
    and journals left behind succeeds, and every live [exact] keyspace reads exactly as it did
    before, with the write under way done, at all instants compactions have not passed. *)
Theorem engine_durable w e fl im :
  lives w (e, fl) -> crash_image e im ->
  exists s tracker queue, recover_image im e = Some (s, Ok (tracker, queue)) /\
    (forall ks key i, im_known im ks = true -> exact ks -> w <= i ->
      snapshot_get (versions (rv_trees s)) ks key i = snapshot_get (versions (finish fl (en_trees e))) ks key i) /\
    (forall v, v ∈ versions (rv_trees s) -> im_known im (v_keyspace v) = true -> v_seqno v < rv_seqno s).
Proof.
  intros Hl Hci. destruct (image_recovers tree_clear_ok w e fl im Hl Hci) as (s & tracker & queue & ? & ? & ? & _). by exists s, tracker, queue.
Qed.
End engine.

(** ** An in-memory tree *)

Record FlushHist := mkFlushHist { fh_mem : history; fh_sealed : history; fh_tables : history; fh_ids : Z }.

Definition fh_write (v : Version) (t : FlushHist) : FlushHist * (Z * Z) :=
  (mkFlushHist (v :: fh_mem t) (fh_sealed t) (fh_tables t) (fh_ids t), (1, 1)).
Definition fh_below (t : FlushHist) : history := fh_sealed t ++ fh_tables t.

#[export] Instance fh_tree_ops : TreeOps FlushHist := {
  tree_insert ks key value seqno := fh_write (mkVersion ks key seqno Value value);
  tree_remove ks key seqno := fh_write (mkVersion ks key seqno Tombstone []);
  tree_remove_weak ks key seqno := fh_write (mkVersion ks key seqno WeakTombstone []);
  tree_clear ks t :=
    (mkFlushHist (drop_keyspace ks (fh_mem t)) (drop_keyspace ks (fh_sealed t)) (drop_keyspace ks (fh_tables t)) (fh_ids t), Ok ());
  tree_get ks key instant t := Ok (snapshot_get (fh_mem t ++ fh_below t) ks key instant);
  tree_get_highest_seqno ks t := hist_highest ks (fh_mem t ++ fh_below t)
}.

#[export] Instance fh_tree_laws : TreeLaws FlushHist.
Proof.
  refine {| versions := fun t => fh_mem t ++ fh_below t; readable_from := fun _ _ => 0 |}; try done.
  - intros ks t t' r [= <- <-]. unfold fh_below. cbn [fh_mem fh_sealed fh_tables is_ok]. unfold drop_keyspace. by rewrite <- !filter_app.
  - by intros ks key i t o _ [= <-].
  - intros ks t v. apply hist_highest_above.
  - intros ks t s. apply hist_highest_in.
Defined.

#[export] Instance fh_lsm_ops : LsmOps FlushHist := {
  tree_rotate_memtable ks t :=
    match of_ks ks (fh_mem t) with
    | [] => (t, None)
    | mem => (mkFlushHist (drop_keyspace ks (fh_mem t)) (mem ++ fh_sealed t) (fh_tables t) (fh_ids t + 1),
              Some (mkSealedMemtable (hist_highest ks mem) (Z.of_nat (length mem))))
    end;
  tree_clear_active_memtable ks t := mkFlushHist (drop_keyspace ks (fh_mem t)) (fh_sealed t) (fh_tables t) (fh_ids t);
  tree_highest_persisted_seqno ks t := hist_highest ks (of_ks ks (fh_tables t));
  tree_active_size ks t := Z.of_nat (length (of_ks ks (fh_mem t)));
  tree_sealed_memtable_count ks t := length (of_ks ks (fh_sealed t))
}.

Lemma rotate_parts ks' ks t :
  of_ks ks' (fh_mem (tree_rotate_memtable ks t).1) = (if decide (ks' = ks) then [] else of_ks ks' (fh_mem t)) /\
  of_ks ks' (fh_sealed (tree_rotate_memtable ks t).1) =
    (if decide (ks' = ks) then of_ks ks (fh_mem t) ++ of_ks ks (fh_sealed t) else of_ks ks' (fh_sealed t)) /\
  fh_tables (tree_rotate_memtable ks t).1 = fh_tables t.
Proof.
  cbn [tree_rotate_memtable fh_lsm_ops]. destruct (of_ks ks (fh_mem t)) as [|v mem] eqn:E; cbn [fst fh_mem fh_sealed fh_tables].
  - destruct (decide (ks' = ks)) as [->|]; [|done]. rewrite E. split_and!; done.
  - rewrite of_ks_drop, of_ks_app, <- E, of_ks_of_ks. by case_decide; subst.
Qed.

#[export] Instance fh_lsm_laws : LsmLaws FlushHist.
Proof.
  refine {| memtable := fun ks t => of_ks ks (fh_mem t); sealed := fun ks t => of_ks ks (fh_sealed t); tables := fun ks t => of_ks ks (fh_tables t) |};
    try (by intros; subst).
  - intros ks t. cbn. unfold fh_below. by rewrite <- !of_ks_app.
  - intros ks' ks t t' [= <-] Hne. cbn [fh_sealed fh_tables tree_highest_persisted_seqno fh_lsm_ops]. by rewrite !of_ks_drop, !decide_False.
  - intros ks t t' [= <-]. cbn [tree_highest_persisted_seqno fh_lsm_ops fh_tables]. by rewrite of_ks_drop, decide_True.
  - intros ks t t' o. cbn [tree_rotate_memtable fh_lsm_ops]. by destruct (of_ks ks (fh_mem t)); intros [= <- <-].
  - intros ks' ks t. apply rotate_parts.
  - intros ks' ks t. apply rotate_parts.
  - intros ks' ks t. by rewrite (proj2 (proj2 (rotate_parts ks' ks t))).
  - intros ks' ks t. unfold tree_highest_persisted_seqno, fh_lsm_ops at 1 3. by rewrite (proj2 (proj2 (rotate_parts ks' ks t))).
  - intros ks' ks t. cbn. apply of_ks_drop.
  - intros ks t. cbn. split; [intros ?; apply length_zero_iff_nil; lia|by intros ->].
Defined.

(** A flush moves the sealed memtables of a keyspace; a compaction finds nothing to do. *)
#[export] Instance fh_flush_ops : FlushOps FlushHist := {
  tree_flush ks _ t :=
    (mkFlushHist (fh_mem t) (drop_keyspace ks (fh_sealed t)) (of_ks ks (fh_sealed t) ++ fh_tables t) (fh_ids t),
     Ok (Some (Z.of_nat (length (of_ks ks (fh_sealed t))))));
  tree_compact ks _ t := (t, Ok ());
  tree_highest_memtable_seqno ks t := hist_highest ks (of_ks ks (fh_mem t) ++ of_ks ks (fh_sealed t));
  tree_active_memtable_id ks t := fh_ids t
}.

Lemma hist_highest_of ks h s : covers (hist_highest ks (of_ks ks h)) s = true <-> exists v, v ∈ of_ks ks h /\ s <= v_seqno v.
Proof.
  destruct (hist_highest ks (of_ks ks h)) as [m|] eqn:E; cbn [covers].
  - rewrite Z.leb_le. split.
    + intros ?. apply hist_highest_in in E as (v & Hv & _ & <-). by exists v.
    + intros (v & Hv & ?). destruct (hist_highest_above ks _ v Hv) as (m' & E' & ?); [by apply list_elem_of_filter in Hv as [? _]|].
      rewrite E in E'. injection E' as <-. lia.
  - split; [done|]. intros (v & Hv & _). destruct (hist_highest_above ks _ v Hv) as (m' & E' & ?); [by apply list_elem_of_filter in Hv as [? _]|].
    congruence.
Qed.

Lemma reads_like_refl from ks h : reads_like from ks h h.
Proof. intros key i _. by apply summary_norm. Qed.

#[export] Instance fh_flush_laws : FlushLaws FlushHist.
Proof.
  refine {| exact := fun _ => True; reopened := fun t => mkFlushHist [] [] (fh_tables t) (fh_ids t) |}; try done.
  - intros ks' ks w t t' r [= <- <-]. split; [done|]. cbn [is_ok sealed tables fh_lsm_laws fh_sealed fh_tables tree_highest_persisted_seqno fh_lsm_ops].
    rewrite of_ks_drop, of_ks_app, of_ks_of_ks. destruct (decide (ks' = ks)) as [->|Hne].
    + rewrite decide_True by done. split_and!; [done|intros _ Hf; split; [apply reads_like_refl|exact Hf]|].
      intros s. assert (of_ks ks (fh_sealed t) ++ of_ks ks (fh_tables t) = of_ks ks (fh_sealed t ++ fh_tables t)) as -> by (by rewrite of_ks_app).
        rewrite !hist_highest_of, of_ks_app. intros (v & [Hv|Hv]%elem_of_app & ?); [right; by exists v|left; by exists v].
    + by rewrite decide_False by (by intros [? _]).
  - intros ks' ks w t t' r [= <- <-]. split; [done|]. split; [done|]. case_decide; [|done]. split; [|done]. intros _ Hf. split; [apply reads_like_refl|exact Hf].
  - intros ks t s Hs. cbn [tree_highest_persisted_seqno fh_lsm_ops] in Hs. apply hist_highest_in in Hs as (v & Hv & _ & <-). by exists v.
Defined.

(** ** A sample run: two writes are flushed and their journal is evicted, two more are
    only in journals when the process dies. After the recovery the sealed journal is
    flushed and evicted, and of a batch that is only in the journal at the second crash
    one of two entries has reached the trees. *)

Definition sample_engine : Engine FlushHist :=
  mkEngine (mkFlushHist [] [] [] 0) [] [] (mkJournalManager [] 0) [1] ∅ 1 (tracker_new 0) 0 [] [] 0 0.
Definition sample_env (n : Z) : TickEnv := mkTickEnv (Ok ()) (Ok 10) (Rotated (journal_name n)) (fun _ => Ok ()).
Definition after {A} (m : PState (Engine FlushHist) A) (e : Engine FlushHist) : Engine FlushHist :=
  match m e with Some (e', _) => e' | None => e end.
Definition sample_put (key value : bytes) : Engine FlushHist -> Engine FlushHist :=
  en_write true [Item 1 key value Value CompressionNone].

Definition sample_flushed : Engine FlushHist :=
  after (run_flush 1) (after (seal_journal (sample_env 0)) (after (seal_memtable 1 0)
    (sample_put key_b [Byte.x02] (sample_put key_a [Byte.x01] sample_engine)))).
Definition sample_end : Engine FlushHist :=
  sample_put key_b [Byte.x04] (after (seal_journal (sample_env 1))
    (after (journal_maintenance (sample_env 0)) (sample_put key_a [Byte.x03] sample_flushed))).

(** Insertions only. *)
Definition is_put (e : Entry) : Prop := match e with Item _ _ _ Value _ => True | _ => False end.

Lemma puts_strong es : Forall is_put es -> strong_entries (T := FlushHist) es.
Proof. intros Hes ks e _ He key value c ->. rewrite list.Forall_forall in Hes. by apply Hes in He. Qed.

Lemma sample_env_synced n : synced (sample_env n).
Proof. done. Qed.

Lemma sample_put_step w key value e : engine_step w e (sample_put key value e).
Proof.
  apply es_write; [left; constructor; [by eexists _, _, _, _, _|done]|]. apply puts_strong. repeat constructor.
Qed.

Lemma sample_run : rtc (engine_step 4) sample_engine sample_end.
Proof.
  eapply rtc_l; [apply (sample_put_step _ key_a [Byte.x01])|]. eapply rtc_l; [apply (sample_put_step _ key_b [Byte.x02])|].
  eapply rtc_l; [eapply es_locked, (es_seal_memtable _ 1 0); vm_compute; reflexivity|].
  eapply rtc_l; [eapply es_locked, (es_seal_journal _ (sample_env 0)); [done|vm_compute; reflexivity]|].
  eapply rtc_l; [eapply es_free, (es_flush _ _ 1); [vm_compute; discriminate|vm_compute; reflexivity]|].
  eapply rtc_l; [apply (sample_put_step _ key_a [Byte.x03])|].
  eapply rtc_l; [eapply es_free, (es_maintenance _ _ (sample_env 0)); vm_compute; reflexivity|].
  eapply rtc_l; [eapply es_locked, (es_seal_journal _ (sample_env 1)); [done|vm_compute; reflexivity]|].
  eapply rtc_l; [apply (sample_put_step _ key_b [Byte.x04])|]. apply rtc_refl.
Qed.

Lemma fh_clear_ok : clears_succeed FlushHist.
Proof. done. Qed.
Lemma fh_exact ks : exact (T := FlushHist) ks.
Proof. done. Qed.

(** The engine dies, is recovered, goes on and dies again. *)
Definition sample_image (sealed_files : list SealedFile) (e : Engine FlushHist) : Image :=
  mkImage only_one (fun ks => Some (Ok (only_one ks))) map_to_list [1] sealed_files (journal_bytes (en_journal e)) (journal_bytes (en_journal e)).
Definition first_image : Image := sample_image [sealed_file 1 (nth 0 (en_contents sample_end) [])] sample_end.
Definition sample_restarted : Engine FlushHist :=
  match recover_image first_image sample_end with
  | Some (s, Ok (tracker, queue)) => restarted sample_end first_image s tracker queue
  | _ => sample_end
  end.
Definition second_flushed : Engine FlushHist := after (journal_maintenance (sample_env 0)) (after (run_flush 1) sample_restarted).
Definition second_entries : list Entry := [Item 1 key_b [Byte.x05] Value CompressionNone; Item 1 key_a [Byte.x06] Value CompressionNone].
Definition half_flight (e : Engine FlushHist) : option Flight := Some (mkFlight false (en_seqno e) (drop 1 second_entries)).
Definition half_written (e : Engine FlushHist) : Engine FlushHist :=
  let e' := en_begin second_entries e in
  en_set_trees (live_entry false (en_seqno e) (en_trees e') (Item 1 key_b [Byte.x05] Value CompressionNone)) e'.
Definition second_end : Engine FlushHist := half_written second_flushed.
Definition second_image : Image := sample_image [] second_end.

Lemma sample_lives : lives 4 (sample_end, None).
Proof. eapply lives_run; [apply lives_fresh|apply sample_run]. by split. Qed.

Lemma only_one_spec ks : only_one ks = true <-> ks ∈ [1].
Proof. unfold only_one. rewrite bool_decide_eq_true. set_solver. Qed.

Lemma half_written_lives w e : lives w (e, None) -> lives w (half_written e, half_flight e).
Proof.
  intros Hl. eapply lives_step; [eapply lives_step; [exact Hl|apply (fs_begin _ _ false second_entries)]|apply fs_apply];
    [left; repeat constructor; by eexists _, _, _, _, _|apply puts_strong; repeat constructor].
Qed.

Lemma second_lives : lives 4 (second_end, half_flight second_flushed).
Proof.
  assert (lives 4 (sample_restarted, None)) as Hl.
  { unfold sample_restarted. destruct (recover_image first_image sample_end) as [[s [[tracker queue]|]]|] eqn:E; [|vm_compute in E; discriminate..].
    apply (lives_restart _ _ None); [apply sample_lives| |done|].
    - split; [done|done|apply only_one_spec| | |vm_compute; reflexivity].
      + intros ks ->%bool_decide_eq_true. split; [by vm_compute; left|]. apply not_elem_of_empty.
      + constructor; [|constructor]. split; [done|]. eexists _, _. split; [reflexivity|vm_compute; reflexivity].
    - vm_compute in E. injection E as <- _ _. apply list.Forall_forall. vm_compute. repeat constructor. }
  apply half_written_lives. apply (lives_run _ sample_restarted); [done|].
  eapply rtc_l; [eapply es_free, (es_flush _ _ 1); [vm_compute; discriminate|vm_compute; reflexivity]|].
  eapply rtc_l; [eapply es_free, (es_maintenance _ _ (sample_env 0)); vm_compute; reflexivity|]. apply rtc_refl.
Qed.

Lemma engine_durable_witness :
  en_contents second_end = [] /\ snapshot_get (versions (en_trees second_end)) 1 key_a 6 = Some [Byte.x03] /\
  exists s tracker queue, recover_image second_image second_end = Some (s, Ok (tracker, queue)) /\
    snapshot_get (versions (rv_trees s)) 1 key_a 6 = Some [Byte.x06] /\ snapshot_get (versions (rv_trees s)) 1 key_b 6 = Some [Byte.x05].
Proof.
  split; [vm_compute; reflexivity|]. split; [vm_compute; reflexivity|].
  destruct (engine_durable (T := FlushHist) fh_clear_ok 4 second_end (half_flight second_flushed) second_image) as (s & tracker & queue & E & Hv & _).
  - apply second_lives.
  - split; [done|done|apply only_one_spec| |constructor|vm_compute; reflexivity].
    intros ks ->%bool_decide_eq_true. split; [by vm_compute; left|]. apply not_elem_of_empty.
  - exists s, tracker, queue. split; [exact E|]. rewrite !(Hv 1 _ 6 eq_refl (fh_exact 1) ltac:(done)). split; vm_compute; reflexivity.
Defined.

(** A tick. *)
Lemma sample_tick :
  let e := en_set_channels [MRotateMemtable 1 0] [] (sample_put key_a [Byte.x01] sample_engine) in
  match worker_tick (sample_env 0) (fun _ => []) 2 0 0 e with
  | Some (e', _) => rtc (engine_step 0) e e' /\ en_messages e' = [MFlush] /\ en_tasks e' = [1]
  | None => False
  end.
Proof.
  intros e. destruct (worker_tick (sample_env 0) (fun _ => []) 2 0 0 e) as [[e' r]|] eqn:E; [|vm_compute in E; discriminate].
  split; [apply (tick_runs 0 (sample_env 0) (fun _ => []) 2 0 0 e e' r); [vm_compute; discriminate|apply sample_env_synced|exact E]|].
  vm_compute in E. injection E as <- _. done.
Qed.

(** ** Flushing ahead of the journal *)

(** A flush makes a keyspace durable without syncing the journal. If the process or the
    machine dies before the journal gets to disk, a batch over two keyspaces is there in
    the one that was flushed and gone from the other. *)
Definition two_entries : list Entry := [Item 1 key_a [Byte.x01] Value CompressionNone; Item 2 key_b [Byte.x02] Value CompressionNone].
Definition two_engine : Engine FlushHist :=
  mkEngine (mkFlushHist [] [] [] 0) [] [] (mkJournalManager [] 0) [1; 2] ∅ 1 (tracker_new 0) 0 [] [] 0 0.
Definition two_flushed : Engine FlushHist := after (run_flush 1) (after (seal_memtable 1 0) (en_write false two_entries two_engine)).
Definition one_or_two (ks : Z) : bool := bool_decide (ks ∈ [1; 2]).
Definition unsynced_image : Image := mkImage one_or_two (fun ks => Some (Ok (one_or_two ks))) map_to_list [1; 2] [] [] [].

Theorem flush_before_sync_tears :
  rtc (engine_step 0) two_engine two_flushed /\ en_journal two_flushed = [(1, two_entries)] /\
  exists s tracker queue, recover_image unsynced_image two_flushed = Some (s, Ok (tracker, queue)) /\
    snapshot_get (versions (rv_trees s)) 1 key_a 2 = Some [Byte.x01] /\ snapshot_get (versions (rv_trees s)) 2 key_b 2 = None.
Proof.
  split; [|split; [vm_compute; reflexivity|]].
  - eapply rtc_l; [apply (es_write _ _ false two_entries); [left; repeat constructor; by eexists _, _, _, _, _|apply puts_strong; repeat constructor]|].
    eapply rtc_l; [eapply es_locked, (es_seal_memtable _ 1 0); vm_compute; reflexivity|].
    eapply rtc_l; [eapply es_free, (es_flush _ _ 1); [vm_compute; discriminate|vm_compute; reflexivity]|]. apply rtc_refl.
  - destruct (recover_image unsynced_image two_flushed) as [[s [[tracker queue]|]]|] eqn:E; [|vm_compute in E; discriminate..].
    exists s, tracker, queue. split; [done|]. vm_compute in E. injection E as <- _ _. split; vm_compute; reflexivity.
Qed.
