(* ===== verification/EngineLog.v ===== *)
(** * A keyspace is the map its log gives

    The log of a keyspace is the list of batches written since it was created, through
    all crashes and recoveries. Whatever rotations, flushes, compactions and evictions
    were in between, readers see the map that replaying this log into an empty map gives,
    and recovery gives it back, as long as the compactions of the keyspace lose no data
    and nothing is weakly removed from it. If the journal loses its end, as in a power failure, each
    key still has the value some prefix of the log gives it, no shorter than what was
    left. *)

From stdpp Require Import base gmap list sorting relations.
From S2P Require Import Prelude Errors Utf8 Store Panic JournalEntry JournalReader JournalWriter JournalFiles SnapshotTracker Mvcc Db.
From S2P Require Import DbProps ReplayHistory Recovery RecoveryProps Engine EngineProps EngineRestart EngineDurable.

(** ** The map of a log *)

Section map.
Context (ks : Z).

Definition kv_entry (m : gmap bytes bytes) (e : Entry) : gmap bytes bytes :=
  match e with
  | Item ks' key value vt _ =>
      if decide (ks' = ks) then
        match vt with
        | Value => <[key := value]> m
        | Tombstone | WeakTombstone => delete key m
        | Indirection => m
        end
      else m
  | Clear ks' => if decide (ks' = ks) then ∅ else m
  | _ => m
  end.
Definition kv_batch (m : gmap bytes bytes) (b : batch) : gmap bytes bytes := foldl kv_entry m b.2.
Definition kv_after (log : list batch) : gmap bytes bytes := foldl kv_batch ∅ log.

(** A history whose newest versions at [i] are the entries of [m]. *)
Definition reads_map (i : Z) (h : history) (m : gmap bytes bytes) : Prop :=
  forall key, newest h ks key i ≫= visible_value = m !! key.

Lemma newest_other v h key i : v_key v <> key -> newest (v :: h) ks key i = newest h ks key i.
Proof.
  intros Hne. cbn [newest]. destruct (of_key ks key v) eqn:E; [|done]. by apply of_key_spec in E as [_ ?].
Qed.

Lemma kv_top i s vt key value h m (o : option bytes) :
  (forall v, v ∈ h -> v_seqno v <= s) -> s < i -> reads_map i h m -> visible_value (mkVersion ks key s vt value) = o ->
  reads_map i (mkVersion ks key s vt value :: h) (partial_alter (fun _ => o) key m).
Proof.
  intros Hh Hi Hm <- key'. destruct (decide (key = key')) as [->|Hne].
  - rewrite lookup_partial_alter_eq, newest_top; [done|by apply of_key_spec|done|done].
  - rewrite lookup_partial_alter_ne by done. rewrite newest_other by done. apply Hm.
Qed.

Lemma kv_entry_reads i s h m e :
  (forall v, v ∈ h -> v_seqno v <= s) -> s < i -> reads_map i h m ->
  (forall v, v ∈ ks_entry ks s h e -> v_seqno v <= s) /\ reads_map i (ks_entry ks s h e) (kv_entry m e).
Proof.
  intros Hh Hi Hm. destruct e as [|ks' key value vt c| |ks']; cbn [ks_entry kv_entry]; try done; case_decide; try done.
  - destruct vt; cbn [item_version]; (split; [try (by intros v [->|?]%elem_of_cons; cbn; [lia|apply Hh]); done|]);
      [by apply kv_top|by apply (kv_top i s Tombstone key [] h m None)|by apply (kv_top i s WeakTombstone key [] h m None)|done].
  - split; [by intros v ?%elem_of_nil|]. intros key. by rewrite lookup_empty.
Qed.

Lemma kv_batch_reads i h m b :
  (forall v, v ∈ h -> v_seqno v <= b.1) -> b.1 < i -> reads_map i h m -> reads_map i (ks_batch ks h b) (kv_batch m b).
Proof.
  unfold ks_batch, kv_batch. intros Hh Hi. revert h m Hh. induction b.2 as [|e es IH]; intros h m Hh Hm; [done|]. cbn [foldl].
  destruct (kv_entry_reads i b.1 h m e Hh Hi Hm). by apply IH.
Qed.

Lemma kv_after_snoc log b : kv_after (log ++ [b]) = kv_batch (kv_after log) b.
Proof. unfold kv_after. by rewrite foldl_app. Qed.

Lemma reads_map_instants i j h m : i <= j -> (forall v, v ∈ h -> v_seqno v < i) -> reads_map j h m -> reads_map i h m.
Proof. intros Hij Hh Hm key. rewrite (newest_instants h ks key i j); [apply Hm|done|]. intros v Hv _ _. by apply Hh. Qed.
End map.

Section log.
Context `{JournalCodec} {T : Type} `{!TreeOps T, !TreeLaws T, !LsmOps T, !LsmLaws T, !FlushOps T, !FlushLaws T}.
Context (tree_clear_ok : clears_succeed T).

Abbreviation Eng := (Engine T).

(** ** Logs *)

Inductive log (w ks : Z) : Eng * option Flight -> list batch -> Prop :=
  | log_fresh e : fresh e -> live e ks -> log w ks (e, None) []
  | log_created e fl : lives w (e, fl) -> unused e ks -> ks ∉ en_deleted e -> log w ks (en_create ks e, fl) []
  | log_step c c' l : log w ks c l -> fine_step w c c' -> live c'.1 ks -> log w ks c' (l ++ begun c c')
  | log_restart e fl l im s tracker queue : log w ks (e, fl) l -> crash_image e im ->
      recover_image im e = Some (s, Ok (tracker, queue)) -> (forall b, b ∈ all_batches e -> b.1 < rv_seqno s) ->
      im_known im ks = true -> log w ks (restarted e im s tracker queue, None) l.

Lemma log_lives w ks c l : log w ks c l -> lives w c.
Proof.
  induction 1 as [e Hf _|e fl Hl Hun _|c c' l _ IH Hs _|e fl l im s tracker queue _ IH Hci Hrec Hseq _].
  - by apply lives_fresh.
  - eapply lives_step; [exact Hl|]. by apply fs_free, es_create.
  - by eapply lives_step.
  - by eapply lives_restart.
Qed.

Lemma log_live w ks c l : log w ks c l -> live c.1 ks.
Proof.
  induction 1 as [e _ Hl|e fl _ _ Hd|c c' l _ _ _ Hl|e fl l im s tracker queue _ _ Hci _ _ Hk]; cbn [fst]; [done| |done|].
  - split; [cbn; set_solver|done].
  - split; [by apply (ci_keyspaces _ _ Hci)|]. apply not_elem_of_empty.
Qed.

(** Every prefix of the journals, on what lies below them, is a prefix of the log. *)
Definition log_prefixes (w ks : Z) (base : history) (e : Eng) (l : list batch) : Prop :=
  forall P R, all_batches e = P ++ R -> forall i, w <= i -> en_seqno e <= i ->
    reads_map ks i (ks_replay ks P (of_ks ks base)) (kv_after ks (take (length l - length R) l)).

Definition log_inv (w ks : Z) (c : Eng * option Flight) (l : list batch) : Prop :=
  exists base lv, flight_inv base w lv c.2 c.1 /\ log_prefixes w ks base c.1 l.

Lemma log_prefixes_step base base' w lv ks (c c' : Eng * option Flight) l :
  fine_step w c c' -> flight_inv base w lv c.2 c.1 -> log_prefixes w ks base c.1 l ->
  shifts base base' (all_batches c.1 ++ begun c c') (all_batches c'.1) ks -> log_prefixes w ks base' c'.1 (l ++ begun c c').
Proof.
  intros Hs Hinv Hp (ev & Eb & Ebase) P R E i Hw Hi. pose proof (fine_step_seqno _ _ _ Hs) as Hle.
  rewrite Ebase, <- ks_replay_app. rewrite E, app_assoc in Eb. generalize dependent (ev ++ P). clear ev P Ebase E. intros P Eb.
  destruct Hs as [e plain entries Hst Hse|e plain s x rest|e plain s|e e' Hs|e e' fl Hs]; cbn [begun fst snd fl_seqno fl_rest] in *.
  2-4: rewrite app_nil_r in *; apply Hp; [done|done|lia].
  2: { assert (begun (e, fl) (e', fl) = []) as Enil by (by destruct fl). unfold begun in Enil. cbn [snd] in Enil.
       destruct fl; rewrite app_nil_r in *; apply Hp; [done|done|lia|done|done|lia]. }
  destruct R as [|b R _] using rev_ind.
  - rewrite app_nil_r in Eb. subst P. rewrite Nat.sub_0_r, firstn_all, kv_after_snoc, ks_replay_app. cbn [ks_replay foldl].
    cbn [en_seqno en_begin] in Hi. apply kv_batch_reads; [|cbn; lia|].
    + intros v Hv. apply (whole_below _ _ _ _ _ ks v Hinv) in Hv. cbn. lia.
    + specialize (Hp (all_batches e) []). rewrite app_nil_r, Nat.sub_0_r, firstn_all in Hp. apply Hp; [done|done|lia].
  - rewrite app_assoc in Eb. apply app_inj_tail in Eb as [Eb <-]. rewrite !length_app. cbn [length].
    replace (length l + 1 - (length R + 1))%nat with (length l - length R)%nat by lia. rewrite take_app_le by lia. apply Hp; [done|done|cbn in *; lia].
Qed.

(** What readers see. *)
Lemma log_reads w ks base lv e fl l key i :
  flight_inv base w lv fl e -> log_prefixes w ks base e l -> live e ks -> exact ks -> w <= i -> en_seqno e <= i ->
  snapshot_get (versions (finish fl (en_trees e))) ks key i = kv_after ks l !! key.
Proof.
  intros Hinv Hp Hl Hx Hw Hi. rewrite (flight_reads tree_clear_ok base w lv) by done. unfold snapshot_get.
  rewrite <- (newest_of_ks ks), of_ks_replay. specialize (Hp (all_batches e) []). rewrite app_nil_r, Nat.sub_0_r, firstn_all in Hp. by apply Hp.
Qed.

Lemma log_prefixes_restart base base' w lv lv' ks fl (e : Eng) l im s tracker queue :
  lives w (e, fl) -> flight_inv base w lv fl e -> log_prefixes w ks base e l -> crash_image e im -> recover_image im e = Some (s, Ok (tracker, queue)) ->
  im_known im ks = true -> exact ks -> flight_inv base' w lv' None (restarted e im s tracker queue) -> rebased base base' e im (rv_trees s) ->
  log_prefixes w ks base' (restarted e im s tracker queue) l.
Proof.
  intros Hlives Hinv Hp Hci Hrec Hk Hx Hinv' Hre P R E i Hw Hi. change (all_batches (restarted e im s tracker queue)) with (all_batches e) in E.
  apply (reads_map_instants ks i (Z.max i (en_seqno e))); [lia| |].
  { intros v Hv. cbn [en_seqno restarted] in Hi. apply Z.lt_le_trans with (rv_seqno s); [|done].
    apply ks_replay_from in Hv as [[_ Hv]%list_elem_of_filter|(b & Hb & ->)].
    - by apply (ei_base _ _ _ _ _ Hinv').
    - apply (ei_fresh _ _ _ _ _ Hinv' b). change (b ∈ all_batches e). rewrite E. set_solver. }
  destruct Hre as [->|[Hnil Hof]]; [apply Hp; [done|lia|lia]|].
  rewrite Hnil in E. symmetry in E. apply app_nil in E as [-> ->]. rewrite Nat.sub_0_r, firstn_all. cbn [ks_replay foldl].
  rewrite Hof by done. intros key. rewrite newest_of_ks.
  destruct (image_recovers tree_clear_ok w e fl im Hlives Hci) as (s' & tracker' & queue' & Hrec' & Hr & _). rewrite Hrec in Hrec'. injection Hrec' as <- <- <-.
  change (snapshot_get (versions (rv_trees s)) ks key (Z.max i (en_seqno e)) = kv_after ks l !! key). rewrite Hr by (done || lia).
  apply (log_reads w ks base lv); [done|done|by apply (ci_live _ _ Hci)|done|lia|lia].
Qed.

Lemma log_holds w ks c l : exact ks -> log w ks c l -> log_inv w ks c l.
Proof.
  intros Hx. induction 1 as [e Hf Hl|e fl Hl Hun Hd|c c' l Hlog (base & lv & Hinv & Hp) Hs Hl|e fl l im s tracker queue Hlog (base & lv & Hinv & Hp) Hci Hrec Hseq Hk].
  - exists [], (fun _ => level_none). split; [by apply fresh_inv|]. intros P R E i _ _. cbn [fst] in E.
    assert (all_batches e = []) as Hb by (unfold all_batches; by rewrite (fr_journal _ Hf), (fr_contents _ Hf)).
    rewrite Hb in E. symmetry in E. apply app_nil in E as [-> ->]. intros key. exact (eq_sym (lookup_empty key)).
  - destruct (lives_inv tree_clear_ok _ _ Hl) as (base & lv & Hinv). cbn [fst snd] in Hinv.
    destruct (create_inv tree_clear_ok base w lv fl e ks Hun Hinv) as (base' & lv' & Hinv' & Hb & _). exists base', lv'. split; [done|].
    intros P R E i _ _. rewrite take_nil, Hb, ks_replay_untouched; [intros key; exact (eq_sym (lookup_empty key))|].
    pose proof (un_journals _ _ Hun) as Hu. change (all_batches e = P ++ R) in E. rewrite E in Hu. by apply Forall_app in Hu as [? _].
  - destruct (fine_step_log tree_clear_ok base w lv c c' Hs Hinv) as (base' & lv' & Hinv' & Hsh). exists base', lv'. split; [done|].
    apply (log_prefixes_step base base' w lv ks c c' l Hs Hinv Hp), Hsh. by apply log_live in Hlog.
  - destruct (restart_inv tree_clear_ok base w lv fl e im s tracker queue Hinv Hci Hrec Hseq) as (base' & lv' & Hinv' & Hre). exists base', lv'.
    split; [done|]. by apply (log_prefixes_restart base base' w lv lv' ks fl); [apply log_lives in Hlog|..].
Qed.

(** ** Losing the end of the journal *)

(** The engine with a journal that ends earlier. *)
Definition cut_journal (kept : list batch) (e : Eng) : Eng := en_set_journals kept (en_contents e) (en_manager e) e.

Lemma sorted_filter_take u (bs : list batch) :
  StronglySorted Z.lt bs.*1 -> filter (fun b => covers u b.1 = true) bs = take (length (filter (fun b => covers u b.1 = true) bs)) bs.
Proof.
  induction bs as [|b bs IH]; [done|]. rewrite fmap_cons. intros [Hs Hlt]%StronglySorted_inv. rewrite filter_cons.
  destruct (decide (covers u b.1 = true)) as [Hc|Hc]; [cbn [length take]; f_equal; by apply IH|].
  rewrite filter_nothing; [done|]. intros b' Hb' Hc'. apply Hc. rewrite list.Forall_forall in Hlt.
  apply (covers_le _ _ b'.1); [|done]. apply Z.lt_le_incl, Hlt. by apply list_elem_of_fmap_2.
Qed.

(** A history cut at [u], above everything the older part has for a key. *)
Lemma cut_history ks u (bs : list batch) (h : history) key i :
  StronglySorted Z.lt bs.*1 -> Forall (fun b => ~ clears ks b) bs ->
  (forall v, v ∈ h -> of_key ks key v = true -> v_seqno v < i -> covers u (v_seqno v) = true) ->
  exists j, newest (flushed_part u (ks_replay ks bs h)) ks key i = newest (ks_replay ks (take j bs) h) ks key i.
Proof.
  intros Hs Hnc Hh. exists (length (filter (fun b => covers u b.1 = true) bs)). rewrite <- sorted_filter_take by done.
  set (bs' := filter (fun b : batch => covers u b.1 = true) bs). assert (sublist bs' bs) as Hsub by apply sublist_filter.
  assert (Forall (fun b => ~ clears ks b) bs') as Hnc'.
  { rewrite list.Forall_forall in Hnc |- *. intros b [_ Hb]%list_elem_of_filter. by apply Hnc. }
  rewrite (ks_replay_no_clear ks bs h), (ks_replay_no_clear ks bs' h) by done. rewrite filter_app, !newest_app. f_equal.
  - rewrite <- (ks_replay_sublist ks bs bs'); [|done|by apply (StronglySorted_NoDup Z.lt)|done]. f_equal. apply list_filter_iff'.
    intros v Hv. apply ks_replay_in in Hv as (_ & b & Hb & _ & Hvb); [|done]. rewrite Hvb. split.
    + intros Hc. apply list_elem_of_fmap_2. by apply list_elem_of_filter.
    + intros (b' & -> & [? _]%list_elem_of_filter)%list_elem_of_fmap. done.
  - by apply newest_filter.
Qed.

(** The tables of a keyspace, which may have got ahead of the journal, under what is
    replayed: for each key the history up to some point. *)
Lemma ahead_reads w ks base lv fl e kept lost bs' key i :
  flight_inv base w lv fl e -> live e ks -> exact ks -> en_journal e = kept ++ lost -> Forall (fun b => ~ clears ks b) (all_batches e) ->
  needed ks (highest_persisted e ks) (concat (en_contents e)) bs' -> w <= i ->
  exists j, newest ((ks_replay ks kept [] ++ ks_replay ks bs' []) ++ tables ks (en_trees e)) ks key i ≫= visible_value =
    newest (ks_replay ks (concat (en_contents e) ++ kept ++ take j lost) (of_ks ks base)) ks key i ≫= visible_value.
Proof.
  intros Hinv Hl Hexact Ej Hnc Hn Hw. pose proof (ei_keyspaces _ _ _ _ _ Hinv ks Hl) as Hk.
  destruct (view_no_clear base w lv fl e ks Hinv Hnc) as (mem & Ev). rewrite Ev in Hk. cbn [pt_persisted] in Hk.
  set (old := concat (en_contents e) ++ kept). assert (all_batches e = old ++ lost) as Eb by (unfold all_batches, old; by rewrite Ej, app_assoc).
  assert (StronglySorted Z.lt (old ++ lost).*1) as Hs by (rewrite <- Eb; apply (ei_sorted _ _ _ _ _ Hinv)).
  rewrite Eb in Hnc. apply Forall_app in Hnc as [Hnco Hncl]. pose proof Hs as Hs'. rewrite fmap_app in Hs'.
  apply StronglySorted_app in Hs' as (Hsx & Hso & Hsl).
  pose proof (needed_keep ks _ _ _ kept Hso Hn) as Hn'. fold old in Hn'.
  assert (forall v, v ∈ of_ks ks base -> forall b, b ∈ old -> v_seqno v < b.1) as Hbase.
  { intros v [_ Hv]%list_elem_of_filter b Hb. apply (ei_base _ _ _ _ _ Hinv v Hv). rewrite Eb. set_solver. }
  set (H0 := ks_replay ks old (of_ks ks base)). set (k := kept_level ks base old (bs' ++ kept)).
  assert (ks_replay ks kept [] ++ ks_replay ks bs' [] = unflushed_part k H0) as Htop.
  { unfold H0, k. rewrite (kept_part ks base _ _ _ Hnco Hso Hn' Hbase), ks_replay_app. unfold old in Hnco. apply Forall_app in Hnco as [_ Hnck].
    by rewrite (ks_replay_no_clear ks kept (ks_replay ks bs' [])). }
  assert (forall s, covers k s = true -> covers (solid (lv ks)) s = true) as Hsolid.
  { intros s. apply (kept_level_solid ks base _ _ _ Hnco Hn'); [|apply (ki_persisted _ _ _ _ _ _ Hk)].
    intros v Hv. destruct (ki_evict _ _ _ _ _ _ Hk 0%nat v) as [?|(item & wm & Hin & _)]; [|done|done|by apply elem_of_nil in Hin].
    rewrite drop_0. fold (all_batches e). rewrite Eb. by apply Forall_app. }
  destruct (ki_tables _ _ _ _ _ _ Hk Hexact key i Hw) as (u & Hu & Hsum). cbn [pt_tables] in Hsum. unfold whole in Hsum. rewrite Eb, ks_replay_app in Hsum. fold H0 in Hsum.
  assert (forall j, ks_replay ks (concat (en_contents e) ++ kept ++ take j lost) (of_ks ks base) = ks_replay ks (take j lost) H0) as Ej'.
  { intros j. rewrite app_assoc. fold old. by rewrite ks_replay_app. }
  setoid_rewrite Ej'. pose proof (newest_kept k _ H0 ks key i (f_equal (fmap norm) Htop)) as Hnk. rewrite newest_app.
  destruct (newest (ks_replay ks kept [] ++ ks_replay ks bs' []) ks key i) as [v|] eqn:Etop.
  - destruct Hnk as (v' & E0 & Evv & _).
    destruct (decide (later (Some v) (newest (tables ks (en_trees e)) ks key i) = Some v)) as [->|Hnew].
    { exists 0%nat. change (ks_replay ks (take 0 lost) H0) with H0. rewrite E0. apply norm_visible. cbn. by rewrite Evv. }
    destruct (newest (tables ks (en_trees e)) ks key i) as [y|] eqn:Ey; [|done]. cbn [later] in Hnew |- *. case_decide as Hlt; [|done].
    destruct Hsum as [Hvis Hx]. destruct (Hx y eq_refl) as (x & Ex & Hyx). destruct (cut_history ks u lost H0 key i Hsl Hncl) as (j & Ecut).
    + intros h Hh Hk' Hi'. apply newest_Some in E0 as (_ & _ & _ & Hmax). specialize (Hmax h Hh Hk' Hi').
      apply newest_Some in Ex as ([Hcx _]%list_elem_of_filter & _). apply (covers_le _ _ (v_seqno x)); [|done].
      rewrite <- (norm_seqno_eq v v' Evv) in Hmax. lia.
    + exists j. by rewrite <- Ecut, <- Hvis.
  - destruct (cut_history ks u lost H0 key i Hsl Hncl) as (j & Ecut); [intros h Hh Hk' Hi'; by apply Hu, Hsolid, Hnk|].
    exists j. cbn [later]. rewrite <- Ecut. by destruct Hsum as [-> _].
Qed.

(** What recovery makes of a keyspace whose journal lost its end. *)
Lemma cut_recovers w ks base lv fl e l kept lost im :
  flight_inv base w lv fl e -> log_prefixes w ks base e l -> en_journal e = kept ++ lost -> Forall (fun b => ~ clears ks b) lost ->
  crash_image (cut_journal kept e) im -> im_known im ks = true -> exact ks ->
  exists s tracker queue, recover_image im (cut_journal kept e) = Some (s, Ok (tracker, queue)) /\
    forall key i, w <= i -> en_seqno e <= i -> exists j, (length l - length lost <= j <= length l)%nat /\
      snapshot_get (versions (rv_trees s)) ks key i = kv_after ks (take j l) !! key.
Proof.
  intros Hinv Hp Ej Hncl Hci Hk Hx. set (js := concat (en_contents e)).
  assert (all_batches e = (js ++ kept) ++ lost) as Eb by (unfold all_batches; by rewrite Ej, app_assoc).
  pose proof (ei_sorted _ _ _ _ _ Hinv) as Hs. pose proof (ei_storable _ _ _ _ _ Hinv) as Hst. rewrite Eb in Hs, Hst.
  apply Forall_app in Hst as [Hst _]. rewrite fmap_app in Hs. apply StronglySorted_app in Hs as (_ & Hs & _).
  destruct (image_parts tree_clear_ok (cut_journal kept e) im Hst Hs Hci) as (s & tracker & queue & Hrec & Hparts & _).
  exists s, tracker, queue. split; [done|]. intros key i Hw Hi. destruct (Hparts ks Hk) as (p & Epart & Hsealed).
  change (en_journal (cut_journal kept e)) with kept in Epart.
  destruct (recovered_part _ _ _ _ _ _ Hsealed Hs) as [_ Hq]. rewrite <- Epart in Hq. cbn [part pt_memtable pt_sealed pt_tables pt_persisted] in Hq.
  unfold snapshot_get. rewrite <- newest_of_ks. unfold of_ks. rewrite parts.
  destruct Hq as [(Hex & _ & Htb & Hmem)|(Hnc & _ & Htb & bs' & Hn & _ & Hmem & Hsl)]; rewrite Htb.
  - exists (length l - length lost)%nat. split; [lia|]. rewrite app_nil_r. rewrite Hmem.
    rewrite (ks_replay_clear ks _ [] (of_ks ks base) Hex). by apply (Hp (js ++ kept) lost).
  - rewrite Hmem, Hsl, app_assoc. destruct (ahead_reads w ks base lv fl e kept lost bs' key i Hinv) as (j & Hj); [|done|done| |done|done|].
    + by apply (ci_live _ _ Hci).
    + rewrite Eb. by apply Forall_app.
    + exists (length l - length (drop j lost))%nat. split; [rewrite length_drop; lia|].
      etrans; [exact Hj|]. apply (Hp (js ++ kept ++ take j lost)); [|done|done]. rewrite Eb, <- !app_assoc. by rewrite take_drop.
Qed.

(** ** Whole writes *)

Lemma log_finish w ks rest : forall e plain s l, log w ks (e, Some (mkFlight plain s rest)) l ->
  log w ks (en_set_trees (foldl (live_entry plain s) (en_trees e) rest) e, None) l.
Proof.
  induction rest as [|x rest IH]; intros e plain s l Hl; pose proof (log_live _ _ _ _ Hl) as Hlive.
  - rewrite <- (app_nil_r l). destruct e. by apply (log_step w ks _ (_, None) l Hl); [apply fs_end|].
  - cbn [foldl]. apply (IH (en_set_trees (live_entry plain s (en_trees e) x) e)). rewrite <- (app_nil_r l).
    by apply (log_step w ks _ (_, Some (mkFlight plain s rest)) l Hl); [apply fs_apply|].
Qed.

Lemma log_write w ks e plain entries l :
  log w ks (e, None) l -> storable (en_seqno e, entries) -> strong_entries entries -> log w ks (en_write plain entries e, None) (l ++ [(en_seqno e, entries)]).
Proof.
  intros Hl Hst Hse. apply (log_finish w ks entries (en_begin entries e)). 
  apply (log_step w ks _ (_, Some (mkFlight plain (en_seqno e) entries)) l Hl); [by apply fs_begin|]. by apply log_live in Hl.
Qed.

Lemma log_other w ks e e' l : log w ks (e, None) l -> locked_step e e' \/ free_step w e e' -> live e' ks -> log w ks (e', None) l.
Proof.
  intros Hl Hs Hlive. rewrite <- (app_nil_r l). apply (log_step w ks _ (e', None) l Hl); [|exact Hlive].
  destruct Hs; [by apply fs_locked|by apply fs_free].
Qed.

End log.

(** ** The keyspace as a map *)

(** C4: A keyspace is the map that its log gives, if its compactions lose nothing (neither
    [Fifo] nor a filter, see [FlushLaws]), nothing is weakly removed from it and clearing
    a tree succeeds: at every point of every interleaving of writes, rotations, flushes,
    compactions and evictions of journals, and after any number of crashes of the
    process, a reader at the current sequence number or later, no older than the
    watermark of the compactions, sees for each key what replaying all batches written
    since the keyspace was created into an empty map leaves there; and so does a reader
    of the database that is recovered when the process dies at this point with the
    batches of the journal written to its file. *)
Theorem keyspace_log `{JournalCodec} {T : Type} `{!TreeOps T, !TreeLaws T, !LsmOps T, !LsmLaws T, !FlushOps T, !FlushLaws T}
    (w ks : Z) (e : Engine T) (fl : option Flight) (l : list batch) :
  clears_succeed T -> exact ks -> log w ks (e, fl) l ->
  (forall key i, w <= i -> en_seqno e <= i -> snapshot_get (versions (finish fl (en_trees e))) ks key i = kv_after ks l !! key) /\
  (forall im, crash_image e im -> im_known im ks = true ->
    exists s tracker queue, recover_image im e = Some (s, Ok (tracker, queue)) /\
      forall key i, w <= i -> en_seqno e <= i -> snapshot_get (versions (rv_trees s)) ks key i = kv_after ks l !! key).
Proof.
  intros Hc Hx Hl. pose proof (log_live Hc _ _ _ _ Hl) as Hlive. destruct (log_holds Hc _ _ _ _ Hx Hl) as (base & lv & Hinv & Hp).
  split; [intros; by apply (log_reads Hc w ks base lv)|]. intros im Hci Hk.
  destruct (image_recovers Hc w e fl im (log_lives _ _ _ _ Hl) Hci) as (s & tracker & queue & Hrec & Hr & _).
  exists s, tracker, queue. split; [done|]. intros key i Hw Hi. rewrite Hr by done. by apply (log_reads Hc w ks base lv).
Qed.

(** C5: A power failure keeps a prefix of each key's history, for the keyspaces C4 is about
    and if clearing a tree succeeds. If the journal lost its last batches, which were
    never synced, and none of them clears the keyspace, recovery succeeds, and each key
    of the keyspace has the value that some prefix of the log gives it, one that has
    every batch the journal kept: nothing that was synced is lost and no value is made
    up. (Which prefix it is can differ between keys and keyspaces, because tables may be
    flushed ahead of the journal.) *)
Theorem power_loss `{JournalCodec} {T : Type} `{!TreeOps T, !TreeLaws T, !LsmOps T, !LsmLaws T, !FlushOps T, !FlushLaws T}
    (w ks : Z) (e : Engine T) (fl : option Flight) (l kept lost : list batch) (im : Image) :
  clears_succeed T -> exact ks ->
  log w ks (e, fl) l -> en_journal e = kept ++ lost -> Forall (fun b => ~ clears ks b) lost ->
  crash_image (cut_journal kept e) im -> im_known im ks = true ->
  exists s tracker queue, recover_image im (cut_journal kept e) = Some (s, Ok (tracker, queue)) /\
    forall key i, w <= i -> en_seqno e <= i -> exists j, (length l - length lost <= j <= length l)%nat /\
      snapshot_get (versions (rv_trees s)) ks key i = kv_after ks (take j l) !! key.
Proof. intros Hc Hx Hl. destruct (log_holds Hc _ _ _ _ Hx Hl) as (base & lv & Hinv & Hp). intros. by apply (cut_recovers Hc w ks base lv fl). Qed.

(** ** Sample runs *)

Lemma sample_log_put w ks key value e l :
  log w ks (e, None) l -> log w ks (sample_put key value e, None) (l ++ [(en_seqno e, [Item 1 key value Value CompressionNone])]).
Proof.
  intros Hl. apply (log_write fh_clear_ok); [done|left; constructor; [by eexists _, _, _, _, _|done]|]. apply puts_strong. repeat constructor.
Qed.

Definition put_batch (seqno : Z) (key value : bytes) : batch := (seqno, [Item 1 key value Value CompressionNone]).
Definition first_log : list batch :=
  [put_batch 1 key_a [Byte.x01]; put_batch 2 key_b [Byte.x02]; put_batch 3 key_a [Byte.x03]; put_batch 4 key_b [Byte.x04]].

Ltac live_one := split; [vm_compute; left|apply not_elem_of_empty].

(** The work between the writes. *)
Lemma log_after {A} w ks (m : PState (Engine FlushHist) A) e l :
  log w ks (e, None) l -> (forall e' r, m e = Some (e', r) -> (locked_step e e' \/ free_step w e e') /\ live e' ks) -> log w ks (after m e, None) l.
Proof.
  intros Hl Hm. unfold after. destruct (m e) as [[e' r]|] eqn:E; [|done]. destruct (Hm e' r eq_refl). by apply (log_other w ks e).
Qed.

Ltac log_work Hl m step :=
  apply (log_after _ _ m) in Hl; [|intros e' r E; split; [step E|vm_compute in E; injection E as <- _; live_one]].
Ltac memtable_sealed E := left; exact (es_seal_memtable _ _ _ _ _ E).
Ltac journal_sealed E := left; exact (es_seal_journal _ _ _ _ (sample_env_synced _) E).
Ltac flush_done E := right; apply (fun Hw => es_flush _ _ _ _ _ Hw E); vm_compute; discriminate.
Ltac maintained E := right; exact (es_maintenance _ _ _ _ _ E).

Lemma sample_end_log : log 4 1 (sample_end, None) first_log.
Proof.
  assert (log 4 1 (sample_engine, None) []) as Hl by (apply log_fresh; [by split|live_one]).
  apply (sample_log_put 4 1 key_a [Byte.x01]), (sample_log_put 4 1 key_b [Byte.x02]) in Hl.
  log_work Hl (seal_memtable (T := FlushHist) 1 0) memtable_sealed. log_work Hl (seal_journal (T := FlushHist) (sample_env 0)) journal_sealed. log_work Hl (run_flush (T := FlushHist) 1) flush_done.
  apply (sample_log_put 4 1 key_a [Byte.x03]) in Hl.
  log_work Hl (journal_maintenance (T := FlushHist) (sample_env 0)) maintained. log_work Hl (seal_journal (T := FlushHist) (sample_env 1)) journal_sealed.
  apply (sample_log_put 4 1 key_b [Byte.x04]) in Hl. exact Hl.
Qed.

Lemma half_written_log w ks e l : log w ks (e, None) l -> log w ks (half_written e, half_flight e) (l ++ [(en_seqno e, second_entries)]).
Proof.
  intros Hl. pose proof (log_live fh_clear_ok _ _ _ _ Hl) as Hlive. rewrite <- (app_nil_r (l ++ _)).
  refine (log_step w ks (en_begin second_entries e, Some (mkFlight false (en_seqno e) second_entries)) _ _ _ (fs_apply _ _ _ _ _ _) _); [|exact Hlive].
  refine (log_step w ks (e, None) (en_begin second_entries e, Some (mkFlight false (en_seqno e) second_entries)) l Hl (fs_begin _ _ false second_entries _ _) Hlive);
    [left; repeat constructor; by eexists _, _, _, _, _|apply puts_strong; repeat constructor].
Qed.

Lemma first_crash : crash_image sample_end first_image.
Proof.
  split; [done|done|apply only_one_spec| | |vm_compute; reflexivity].
  - intros ks ->%bool_decide_eq_true. live_one.
  - constructor; [|constructor]. split; [done|]. eexists _, _. split; [reflexivity|vm_compute; reflexivity].
Qed.

Lemma second_end_log : log 4 1 (second_end, half_flight second_flushed) (first_log ++ [(5, second_entries)]).
Proof.
  assert (log 4 1 (sample_restarted, None) first_log) as Hl.
  { unfold sample_restarted. destruct (recover_image first_image sample_end) as [[s [[tracker queue]|]]|] eqn:E; [|vm_compute in E; discriminate..].
    apply (log_restart _ _ _ None); [apply sample_end_log|apply first_crash|done| |done].
    vm_compute in E. injection E as <- _ _. apply list.Forall_forall. vm_compute. repeat constructor. }
  log_work Hl (run_flush (T := FlushHist) 1) flush_done. log_work Hl (journal_maintenance (T := FlushHist) (sample_env 0)) maintained.
  apply half_written_log in Hl. assert (en_seqno second_flushed = 5) as <- by (vm_compute; reflexivity). exact Hl.
Qed.

Lemma keyspace_log_witness :
  en_contents second_end = [] /\ kv_after 1 (first_log ++ [(5, second_entries)]) !! key_a = Some [Byte.x06] /\
  snapshot_get (versions (finish (half_flight second_flushed) (en_trees second_end))) 1 key_a 6 = Some [Byte.x06].
Proof.
  split; [vm_compute; reflexivity|]. split; [vm_compute; reflexivity|].
  destruct (keyspace_log (T := FlushHist) 4 1 second_end (half_flight second_flushed) (first_log ++ [(5, second_entries)]) fh_clear_ok (fh_exact 1)) as [Hr _].
  - apply second_end_log.
  - rewrite (Hr key_a 6); [vm_compute; reflexivity|done|vm_compute; discriminate].
Defined.

Lemma two_flushed_log ks : ks ∈ [1; 2] -> log 0 ks (two_flushed, None) [(1, two_entries)].
Proof.
  intros Hks. assert (forall e : Engine FlushHist, en_keyspaces e = [1; 2] -> en_deleted e = ∅ -> live e ks) as Hlive.
  { intros e E1 E2. split; [by rewrite E1|]. rewrite E2. apply not_elem_of_empty. }
  assert (log 0 ks (two_engine, None) []) as Hl by (apply log_fresh; [by split|by apply Hlive]).
  apply (log_write fh_clear_ok _ _ _ false two_entries) in Hl; [|left; repeat constructor; by eexists _, _, _, _, _|apply puts_strong; repeat constructor].
  apply (log_after _ _ (seal_memtable 1 0)) in Hl;
    [|intros e' r E; split; [memtable_sealed E|vm_compute in E; injection E as <- _; by apply Hlive]].
  apply (log_after _ _ (run_flush 1)) in Hl; [|intros e' r E; split; [flush_done E|vm_compute in E; injection E as <- _; by apply Hlive]].
  exact Hl.
Qed.

Lemma two_cut_image : crash_image (cut_journal [] two_flushed) unsynced_image.
Proof.
  assert (en_contents two_flushed = []) as E by (vm_compute; reflexivity).
  split; [done|done| | |change (Forall2 journal_of [] (en_contents two_flushed)); rewrite E; constructor|vm_compute; reflexivity].
  - intros ks. cbn. unfold one_or_two. by rewrite bool_decide_eq_true.
  - intros ks Hk%bool_decide_eq_true. split; [|apply not_elem_of_empty].
    assert (en_keyspaces (cut_journal [] two_flushed) = [1; 2]) as -> by (vm_compute; reflexivity). done.
Qed.

(** The keyspace that was flushed keeps the batch, the other one loses it. *)
Lemma power_loss_witness :
  exists s tracker queue, recover_image unsynced_image (cut_journal [] two_flushed) = Some (s, Ok (tracker, queue)) /\
    (exists j, (j <= 1)%nat /\ snapshot_get (versions (rv_trees s)) 1 key_a 2 = kv_after 1 (take j [(1, two_entries)]) !! key_a) /\
    kv_after 1 [(1, two_entries)] !! key_a = Some [Byte.x01] /\ kv_after 1 [] !! key_a = None.
Proof.
  destruct (power_loss (T := FlushHist) 0 1 two_flushed None [(1, two_entries)] [] [(1, two_entries)] unsynced_image fh_clear_ok (fh_exact 1))
    as (s & tracker & queue & E & Hr).
  - apply two_flushed_log. left.
  - vm_compute. reflexivity.
  - constructor; [|constructor]. unfold clears. cbn. by intros [?|[?|?%elem_of_nil]%elem_of_cons]%elem_of_cons.
  - apply two_cut_image.
  - done.
  - exists s, tracker, queue. split; [exact E|]. destruct (Hr key_a 2) as (j & Hj & Ej); [done|vm_compute; discriminate|].
    split; [exists j; split; [cbn in Hj; lia|exact Ej]|]. split; vm_compute; reflexivity.
Defined.
