(* ===== verification/Ingestion.v ===== *)
(** * Bulk ingestion

    Models [src/src/ingestion.rs] and [Keyspace::start_ingestion]: sorted writes that go
    into tables of their own and are registered in one step, under the lock of the
    journal. Building the tables is [lsm_tree] code, the class [BulkOps]. *)

From stdpp Require Import base gmap list sorting relations.
From S2P Require Import Prelude Errors Utf8 Store Panic JournalEntry JournalReader JournalWriter JournalFiles SnapshotTracker Mvcc Db.
From S2P Require Import DbProps ReplayHistory Recovery RecoveryProps Engine EngineProps EngineRestart EngineDurable.

#[local] Open Scope pstate_scope.

(** ** The ingestion of a tree *)

(** [AnyTree::ingestion] and [AnyIngestion]. Finishing draws from the counter of sequence
    numbers, which the tree shares with the database. A write whose key is not above the
    last one panics. *)
Class BulkOps (T I : Type) := {
  tree_ingestion : Z -> T -> Result I;
  bulk_write : bytes -> bytes -> PState I ();
  bulk_tombstone : bytes -> PState I ();
  bulk_weak_tombstone : bytes -> PState I ();
  bulk_finish : I -> StateR (T * Z) ()
}.

Definition bulk_entry : Type := bytes * ValueType * bytes.
Definition bulk_version (ks s : Z) (x : bulk_entry) : Version := mkVersion ks x.1.1 s x.1.2 x.2.

Class BulkContents (I : Type) := { bulk_keyspace : I -> Z; bulk_entries : I -> list bulk_entry }.

Record pushed {I} `{!BulkContents I} (i i' : I) (x : bulk_entry) : Prop := {
  pu_keyspace : bulk_keyspace i' = bulk_keyspace i;
  pu_entries : bulk_entries i' = bulk_entries i ++ [x];
  pu_above : Forall (fun y : bulk_entry => bytes_lt y.1.1 x.1.1) (bulk_entries i)
}.

Class BulkLaws (T I : Type) `{!TreeOps T, !TreeLaws T, !BulkOps T I, !BulkContents I} := {
  ingestion_law ks t i : tree_ingestion (T := T) ks t = Ok i -> bulk_keyspace i = ks /\ bulk_entries i = [];
  (** A write that returns had a key above all before it. *)
  write_law i i' key value : bulk_write (T := T) key value i = Some (i', Ok ()) -> pushed i i' (key, Value, value);
  tombstone_law i i' key : bulk_tombstone (T := T) key i = Some (i', Ok ()) -> pushed i i' (key, Tombstone, []);
  weak_tombstone_law i i' key : bulk_weak_tombstone (T := T) key i = Some (i', Ok ()) -> pushed i i' (key, WeakTombstone, []);
  (** All entries get the same number; a failing [finish] registers nothing. *)
  finish_law i t s t' s' r : bulk_finish i (t, s) = ((t', s'), r) -> (forall v, v ∈ versions t -> v_seqno v < s) ->
    s <= s' /\ if is_ok r then exists n, s <= n < s' /\ forall ks key at_,
        snapshot_get (versions t') ks key at_ = snapshot_get ((bulk_version (bulk_keyspace i) n <$> bulk_entries i) ++ versions t) ks key at_
      else forall ks key at_, snapshot_get (versions t') ks key at_ = snapshot_get (versions t) ks key at_
}.

Section ingestion.
Context {T I : Type} `{!TreeOps T, !TreeLaws T, !LsmOps T, !FlushOps T, !BulkOps T I}.

Abbreviation Eng := (Engine T).

(** ** Operations *)

Record Ingestion := mkIngestion { ig_keyspace : Z; ig_inner : I }.

(** [Keyspace::start_ingestion], [Ingestion::new]. *)
Definition start_ingestion (ks : Z) : PState Eng Ingestion := fun e =>
  match tree_ingestion ks (en_trees e) with
  | Ok i => Some (e, Ok (mkIngestion ks i))
  | Err x => Some (e, Err x)
  end.

Definition on_inner (m : PState I ()) (ig : Ingestion) : option (Ingestion * Result ()) :=
  match m (ig_inner ig) with
  | Some (i, r) => Some (mkIngestion (ig_keyspace ig) i, r)
  | None => None
  end.

Definition ingestion_write (key value : bytes) : Ingestion -> option (Ingestion * Result ()) := on_inner (bulk_write (T := T) key value).
Definition ingestion_write_tombstone (key : bytes) : Ingestion -> option (Ingestion * Result ()) := on_inner (bulk_tombstone (T := T) key).
Definition ingestion_write_weak_tombstone (key : bytes) : Ingestion -> option (Ingestion * Result ()) :=
  on_inner (bulk_weak_tombstone (T := T) key).

Definition en_ingested (t : T) (s : Z) (e : Eng) : Eng :=
  mkEngine t (en_journal e) (en_contents e) (en_manager e) (en_keyspaces e) (en_deleted e) s (en_tracker e) (en_write_buffer_size e)
    (en_messages e) (en_tasks e) (active_compaction_count e) (compactions_completed e).

(** [Ingestion::finish]; the lock of the journal is held, so it is a step between writes. *)
Definition ingestion_finish (order : SnapshotTracker -> list (Z * nat)) (ig : Ingestion) : PState Eng () := fun e =>
  match bulk_finish (ig_inner ig) (en_trees e, en_seqno e) with
  | ((t, s), Ok ()) =>
      (try_send (MCompact (ig_keyspace ig)) ;;;;
       ps_modify (fun e => en_set_tracker (gc (order (en_tracker e)) (en_tracker e)) e)) (en_ingested t s e)
  | ((t, s), Err x) => Some (en_ingested t s e, Err x)
  end.

(** ** Runs *)

(** One call. *)
Definition ingestion_call (x : bulk_entry) : Ingestion -> option (Ingestion * Result ()) :=
  match x.1.2 with
  | Value => ingestion_write x.1.1 x.2
  | Tombstone => ingestion_write_tombstone x.1.1
  | WeakTombstone => ingestion_write_weak_tombstone x.1.1
  | Indirection => fun _ => None
  end.

Definition plain_bulk (x : bulk_entry) : Prop := x.1.2 = Value \/ ((x.1.2 = Tombstone \/ x.1.2 = WeakTombstone) /\ x.2 = []).

Fixpoint ingestion_calls (xs : list bulk_entry) (ig : Ingestion) : option (Ingestion * Result ()) :=
  match xs with
  | [] => Some (ig, Ok ())
  | x :: xs => match ingestion_call x ig with Some (ig, Ok ()) => ingestion_calls xs ig | r => r end
  end.

Context `{!BulkContents I, !BulkLaws T I}.

Lemma ingestion_call_pushed x ig ig' :
  plain_bulk x -> ingestion_call x ig = Some (ig', Ok ()) -> ig_keyspace ig' = ig_keyspace ig /\ pushed (ig_inner ig) (ig_inner ig') x.
Proof.
  destruct x as [[key vt] value]. unfold ingestion_call, ingestion_write, ingestion_write_tombstone, ingestion_write_weak_tombstone, on_inner.
  unfold plain_bulk. cbn [fst snd]. intros [->|([->| ->] & ->)] E.
  - destruct (bulk_write _ _ _) as [[i r]|] eqn:Ew; [|done]. injection E as <- ->. by apply write_law in Ew.
  - destruct (bulk_tombstone _ _) as [[i r]|] eqn:Ew; [|done]. injection E as <- ->. by apply tombstone_law in Ew.
  - destruct (bulk_weak_tombstone _ _) as [[i r]|] eqn:Ew; [|done]. injection E as <- ->. by apply weak_tombstone_law in Ew.
Qed.

Lemma ingestion_calls_entries xs ig ig' :
  Forall plain_bulk xs -> ingestion_calls xs ig = Some (ig', Ok ()) ->
  bulk_keyspace (ig_inner ig') = bulk_keyspace (ig_inner ig) /\ bulk_entries (ig_inner ig') = bulk_entries (ig_inner ig) ++ xs /\
  (StronglySorted bytes_lt (bulk_entries (ig_inner ig)).*1.*1 -> StronglySorted bytes_lt (bulk_entries (ig_inner ig')).*1.*1).
Proof.
  intros Hxs. revert ig. induction Hxs as [|x xs Hx _ IH]; intros ig E.
  { injection E as <-. by rewrite app_nil_r. }
  cbn [ingestion_calls] in E. destruct (ingestion_call x ig) as [[ig1 [[]|]]|] eqn:E1; [|done|done].
  destruct (ingestion_call_pushed x ig ig1 Hx E1) as [_ [Hk He Ha]]. destruct (IH ig1 E) as (Ek & Ee & Es).
  rewrite He in Ee, Es. split_and!; [by rewrite Ek|by rewrite Ee, <- app_assoc|]. intros Hs. apply Es. rewrite !fmap_app.
  apply StronglySorted_app_2; [|done|repeat constructor]. intros k k' Hin ->%list_elem_of_singleton.
  apply list_elem_of_fmap in Hin as (p & -> & Hin). apply list_elem_of_fmap in Hin as (y & -> & Hin). rewrite list.Forall_forall in Ha. by apply Ha.
Qed.

(** What an ingestion holds for a key. *)
Definition bulk_lookup (xs : list bulk_entry) (key : bytes) : option bulk_entry := head (filter (fun x => x.1.1 = key) xs).

Lemma bulk_head ks s xs ks' key :
  head (filter (fun v => of_key ks' key v = true) (bulk_version ks s <$> xs)) =
  if decide (ks' = ks) then bulk_version ks s <$> bulk_lookup xs key else None.
Proof.
  unfold bulk_lookup. case_decide as Hd.
  - subst ks'. induction xs as [|x xs IH]; [done|]. rewrite fmap_cons, !filter_cons.
    destruct (decide (x.1.1 = key)) as [Hk|Hk]; [rewrite decide_True by (by apply of_key_spec)|rewrite decide_False by (by intros [_ ?]%of_key_spec)]; done.
  - rewrite filter_nothing; [done|]. intros v (x & -> & _)%list_elem_of_fmap [Hks _]%of_key_spec. by cbn in Hks.
Qed.

Lemma finish_reads ig (t t' : T) s s' r :
  bulk_finish ig (t, s) = ((t', s'), r) -> (forall v, v ∈ versions t -> v_seqno v < s) -> is_ok r = true ->
  exists n, s <= n < s' /\ forall ks key at_,
    snapshot_get (versions t') ks key at_ =
    match (if decide (ks = bulk_keyspace ig /\ n < at_) then bulk_lookup (bulk_entries ig) key else None) with
    | Some x => if is_tombstone x.1.2 then None else Some x.2
    | None => snapshot_get (versions t) ks key at_
    end.
Proof.
  intros E Hlt Hr. apply finish_law in E as [_ E]; [|done]. rewrite Hr in E. destruct E as (n & Hn & Hv). exists n. split; [done|]. intros ks key at_.
  rewrite Hv. unfold snapshot_get. rewrite (newest_batch _ _ n);
    [|by intros v (x & -> & _)%list_elem_of_fmap|intros v Hin; specialize (Hlt v Hin); lia].
  rewrite bulk_head. destruct (decide (n < at_)) as [Hat|Hat], (decide (ks = bulk_keyspace ig)) as [Hks|Hks].
  2-4: by rewrite decide_False by tauto.
  rewrite decide_True by done. by destruct (bulk_lookup (bulk_entries ig) key).
Qed.

(** An ingestion is one write of all its entries: nothing changes before [finish], which
    registers them under a new sequence number, above those of all earlier writes and
    below those of all later ones, or fails and changes nothing that is read. The journal
    knows nothing of it. *)
Theorem ingestion_atomic order ks (e0 e0' e e' : Eng) ig ig' xs r :
  start_ingestion ks e0 = Some (e0', Ok ig) -> Forall plain_bulk xs -> ingestion_calls xs ig = Some (ig', Ok ()) ->
  (forall v, v ∈ versions (en_trees e) -> v_seqno v < en_seqno e) -> ingestion_finish order ig' e = Some (e', r) ->
  e0' = e0 /\ all_batches e' = all_batches e /\ StronglySorted bytes_lt xs.*1.*1 /\
  if is_ok r then exists n, en_seqno e <= n < en_seqno e' /\ forall ks' key at_,
    snapshot_get (versions (en_trees e')) ks' key at_ =
    match (if decide (ks' = ks /\ n < at_) then bulk_lookup xs key else None) with
    | Some x => if is_tombstone x.1.2 then None else Some x.2
    | None => snapshot_get (versions (en_trees e)) ks' key at_
    end
  else forall ks' key at_, snapshot_get (versions (en_trees e')) ks' key at_ = snapshot_get (versions (en_trees e)) ks' key at_.
Proof.
  intros Hs Hxs Hc Hlt Hf. unfold start_ingestion in Hs. destruct (tree_ingestion ks (en_trees e0)) as [i|] eqn:Ei; [|done]. injection Hs as <- <-.
  apply ingestion_law in Ei as [Hks Hnil]. destruct (ingestion_calls_entries _ _ _ Hxs Hc) as (Ek & Ee & Es). cbn [ig_inner] in Ek, Ee, Es.
  rewrite Hks in Ek. rewrite Hnil in Ee, Es. cbn [app] in Ee. rewrite Ee in Es. split; [done|].
  unfold ingestion_finish in Hf. destruct (bulk_finish (ig_inner ig') (en_trees e, en_seqno e)) as [[t s] r0] eqn:Eb.
  assert (en_trees e' = t /\ en_seqno e' = s /\ all_batches e' = all_batches e /\ is_ok r = is_ok r0) as (-> & -> & -> & Er).
  { destruct r0 as [[]|x]; [|by injection Hf as <- <-]. unfold ps_bind, try_send, ps_modify in Hf. injection Hf as <- <-. by case_decide. }
  split; [done|]. split; [apply Es; constructor|]. rewrite Er. destruct (is_ok r0) eqn:Er0.
  - destruct (finish_reads _ _ _ _ _ _ Eb Hlt Er0) as (n & Hn & Hv). exists n. split; [done|]. intros ks' key at_. by rewrite Hv, Ek, Ee.
  - apply finish_law in Eb as [_ Eb]; [|done]. by rewrite Er0 in Eb.
Qed.
End ingestion.

(** ** An in-memory instance *)

Definition HistBulk : Type := Z * list bulk_entry.

Definition bulk_push (x : bulk_entry) : PState HistBulk () := fun i =>
  if decide (Forall (fun y : bulk_entry => bytes_cmp y.1.1 x.1.1 = Lt) i.2) then Some ((i.1, i.2 ++ [x]), Ok ()) else None.

#[export] Instance fh_bulk_ops : BulkOps FlushHist HistBulk := {
  tree_ingestion ks t := Ok (ks, []);
  bulk_write key value := bulk_push (key, Value, value);
  bulk_tombstone key := bulk_push (key, Tombstone, []);
  bulk_weak_tombstone key := bulk_push (key, WeakTombstone, []);
  bulk_finish i p :=
    ((mkFlushHist (fh_mem p.1) (fh_sealed p.1) ((bulk_version i.1 p.2 <$> i.2) ++ fh_tables p.1) (fh_ids p.1), p.2 + 1), Ok ())
}.
#[export] Instance fh_bulk_contents : BulkContents HistBulk := {| bulk_keyspace := fst; bulk_entries := snd |}.

(** Versions above some of the others may as well be in front of them. *)
Lemma newest_between (A N B : history) s ks key i :
  (forall v, v ∈ N -> v_seqno v = s) -> (forall v, v ∈ A -> v_seqno v < s) -> newest (A ++ N ++ B) ks key i = newest (N ++ A ++ B) ks key i.
Proof.
  intros HN HA. rewrite !newest_app. destruct (newest A ks key i) as [a|] eqn:Ea, (newest N ks key i) as [n|] eqn:En; try done.
  apply newest_Some in Ea as (Ha%HA & _). apply newest_Some in En as (Hn%HN & _).
  destruct (newest B ks key i) as [b|]; cbn; repeat case_decide; try done; cbn in *; repeat case_decide; try done; lia.
Qed.

Lemma bulk_push_pushed x (i i' : HistBulk) : bulk_push x i = Some (i', Ok ()) -> pushed i i' x.
Proof. unfold bulk_push. case_decide; [|done]. by intros [= <-]. Qed.

#[export] Instance fh_bulk_laws : BulkLaws FlushHist HistBulk.
Proof.
  split.
  - by intros ks t i [= <-].
  - intros i i' key value. apply bulk_push_pushed.
  - intros i i' key. apply bulk_push_pushed.
  - intros i i' key. apply bulk_push_pushed.
  - intros [ks xs] t s t' s' r [= <- <- <-] Hlt. cbn [is_ok fst snd]. split; [lia|]. exists s. split; [lia|]. intros ks' key at_.
    unfold snapshot_get. f_equal. cbn [versions fh_tree_laws fh_mem fh_sealed fh_tables] in *. unfold fh_below in *. cbn [fh_sealed fh_tables bulk_keyspace bulk_entries fh_bulk_contents fst snd].
    rewrite !(app_assoc (fh_mem t)) in *. apply (newest_between _ _ _ s); [by intros v (x & -> & _)%list_elem_of_fmap|].
    intros v Hv. apply Hlt. set_solver.
Defined.

(** ** A sample: a value is replaced and a key removed *)

Definition bulk_sample : list bulk_entry := [(key_a, Value, [Byte.x09]); (key_b, Tombstone, [])].
Definition ingested_engine : option (Engine FlushHist * Result ()) :=
  match start_ingestion (I := HistBulk) 1 sample_end with
  | Some (e, Ok ig) =>
      match ingestion_calls bulk_sample ig with
      | Some (ig, Ok ()) => ingestion_finish (fun _ => []) ig e
      | _ => None
      end
  | _ => None
  end.

Lemma bulk_sample_runs :
  match ingested_engine with
  | Some (e, Ok ()) => snapshot_get (versions (en_trees e)) 1 key_a 6 = Some [Byte.x09] /\ snapshot_get (versions (en_trees e)) 1 key_b 6 = None /\
      snapshot_get (versions (en_trees e)) 1 key_b 5 = Some [Byte.x04] /\ en_messages e = [MCompact 1]
  | _ => False
  end.
Proof. vm_compute. done. Qed.
