(* ===== verification/SnapshotIsolation.v ===== *)
(** * Snapshots are stable while the engine works

    The engine of [Engine] and the snapshot tracker run together: the versions flushes
    and compactions may drop are bounded by the watermark of the tracker, and the tracker
    counts the snapshots in use. As long as a snapshot is open, everything that is
    written, flushed, compacted, rotated and evicted leaves what it sees as it was, in
    keyspaces whose compactions lose no data and that are not weakly removed from. *)

From stdpp Require Import base gmap list sorting relations.
From S2P Require Import Prelude Errors Utf8 Store Panic JournalEntry JournalReader JournalWriter JournalFiles SnapshotTracker Mvcc Db.
From S2P Require Import DbProps ReplayHistory Recovery RecoveryProps Engine EngineProps EngineRestart EngineDurable.

(** ** The tracker *)

(** The watermark never goes back. *)
Lemma tracker_step_watermark s s' :
  tracker_inv s -> tracker_step s s' -> get_seqno_safe_to_gc (tracker s) <= get_seqno_safe_to_gc (tracker s').
Proof.
  unfold get_seqno_safe_to_gc. intros Hs. pose proof (inv_watermark s Hs). destruct 1 as [s|s i rest Hp|s i Hi|s i rest Hp|s b|s v|s Ho|s order Ho Hp]; cbn; try lia.
  - unfold pullup, with_watermark. case_decide; cbn; [unfold_ranges; lia|lia].
  - destruct (gc_watermark s order Hs Hp) as (lo & -> & _). lia.
Qed.

Lemma live_visible s i : tracker_inv s -> i ∈ SnapshotTracker.live s -> get_seqno_safe_to_gc (tracker s) < i <= seqno (tracker s).
Proof.
  intros Hs Hi. split; [by apply (inv_live s Hs)|]. destruct (live_counted s i Hs Hi) as (n & E & _). apply (inv_keys s Hs) in E. lia.
Qed.

Section joint.
Context `{JournalCodec} {T : Type} `{!TreeOps T, !TreeLaws T, !LsmOps T, !LsmLaws T, !FlushOps T, !FlushLaws T}.
Context (tree_clear_ok : clears_succeed T).

Abbreviation Eng := (Engine T).
Abbreviation Joint := ((Engine T * option Flight) * TrackerState)%type.

(** A step of the engine, which uses the watermark as it is, or one of the tracker: the
    sequence number of a write is published when all of it is in the trees. *)
Inductive joint_step : Joint -> Joint -> Prop :=
  | js_engine c c' s : fine_step (get_seqno_safe_to_gc (tracker s)) c c' -> en_tracker c'.1 = tracker s -> joint_step (c, s) (c', s)
  | js_tracker e fl s s' : tracker_step s s' -> seqno (tracker s') <= Z.max (seqno (tracker s)) (unseen fl e) ->
      joint_step ((e, fl), s) ((en_set_tracker (tracker s') e, fl), s').

Record joint_inv (base : history) (lv : Z -> Level) (p : Joint) : Prop := {
  ji_engine : flight_inv base (get_seqno_safe_to_gc (tracker p.2)) lv p.1.2 p.1.1;
  ji_snapshots : tracker_inv p.2;
  ji_tracker : en_tracker p.1.1 = tracker p.2;
  ji_published : seqno (tracker p.2) <= unseen p.1.2 p.1.1
}.

Lemma flight_inv_mono base w w' lv fl (e : Eng) : w <= w' -> flight_inv base w lv fl e -> flight_inv base w' lv fl e.
Proof.
  intros Hw [Es Et Est Ef Eb Ep Efl Ew Ek]. split; try done. intros ks [Kp Kk Kf Km Ko Kse Kt Ke]%Ek. split; try done.
  intros Hx. by eapply solid_like_from; [|apply Kt].
Qed.

(** What is in the trees only grows. *)
Lemma unseen_le base w lv fl (e : Eng) : flight_inv base w lv fl e -> unseen fl e <= en_seqno e.
Proof.
  intros Hinv. pose proof (ei_flight _ _ _ _ _ Hinv) as Hfl. destruct fl as [[plain s [|x rest]]|]; [done| |done].
  destruct Hfl as [_ (bs & entries & Ej & _)]. cbn [unseen]. apply Z.lt_le_incl, (ei_fresh _ _ _ _ _ Hinv (s, entries)).
  unfold all_batches. rewrite Ej. set_solver.
Qed.

Lemma fine_step_unseen base w w' lv (c c' : Eng * option Flight) :
  fine_step w' c c' -> flight_inv base w lv c.2 c.1 -> unseen c.2 c.1 <= unseen c'.2 c'.1.
Proof.
  destruct 1 as [e plain entries Hst Hse|e plain s x rest|e plain s|e e' Hs|e e' fl Hs]; cbn [fst snd]; intros Hinv.
  - destruct entries; cbn; lia.
  - destruct rest; [|done]. apply (unseen_le _ _ _ _ _ Hinv).
  - done.
  - cbn. by rewrite (locked_step_seqno _ _ Hs).
  - apply free_step_seqno in Hs. by destruct fl as [[plain s [|]]|].
Qed.

(** A joint step keeps the invariant and extends the histories. *)
Lemma joint_step_inv base lv p p' :
  joint_step p p' -> joint_inv base lv p ->
  exists base' lv', joint_inv base' lv' p' /\
    forall ks, live p.1.1 ks -> extends p.1 p'.1 ks (whole base p.1.1 ks) (whole base' p'.1.1 ks).
Proof.
  destruct 1 as [c c' s Hs Ht|e fl s s' Hs Hle]; intros [Je Js Jt Jp]; cbn [fst snd] in *.
  - destruct (fine_step_whole tree_clear_ok _ _ _ _ _ Hs Je) as (base' & lv' & Hinv & Hw). exists base', lv'. split; [|done].
    split; [done|done|done|]. pose proof (fine_step_unseen _ _ _ _ _ _ Hs Je). cbn [fst snd]. lia.
  - exists base, lv. split; [|intros ks _; by left]. split; cbn [fst snd]; [|by eapply step_inv|done|rewrite Z.max_r in Hle by done; by destruct fl as [[plain s0 [|]]|]].
    apply (flight_inv_mono _ (get_seqno_safe_to_gc (tracker s))); [by apply tracker_step_watermark|].
    apply (idle_inv _ _ _ _ e); [by split|done].
Qed.

Lemma joint_run_inv base lv p p' : rtc joint_step p p' -> joint_inv base lv p -> exists base' lv', joint_inv base' lv' p'.
Proof.
  intros Hr. revert base lv. induction Hr as [p|p p1 p' Hs _ IH]; intros base lv Hinv; [by exists base, lv|].
  destruct (joint_step_inv _ _ _ _ Hs Hinv) as (base1 & lv1 & Hinv1 & _). by apply (IH base1 lv1).
Qed.

(** ** Stability *)

(** The snapshot at [i] is open and the keyspace is neither deleted nor being cleared; it
    is one whose compactions lose nothing. *)
Record held (i ks : Z) (p : Joint) : Prop := {
  he_open : i ∈ SnapshotTracker.live p.2;
  he_live : live p.1.1 ks;
  he_exact : exact ks;
  he_calm : calm ks p.1.2
}.
Definition holding (i ks : Z) (p p' : Joint) : Prop := joint_step p p' /\ held i ks p'.

Lemma extends_reads (c c' : Eng * option Flight) ks h h' key i :
  extends c c' ks h h' -> i <= en_seqno c.1 -> calm ks c'.2 -> newest h' ks key i = newest h ks key i.
Proof.
  intros [-> |(plain & entries & Hfl & ->)] Hi Hc; [done|]. rewrite Hfl in Hc. rewrite ks_batch_app by done. apply newest_app_skip.
  intros v Hv _ Hlt. apply ks_batch_in in Hv as (_ & Hv & _). cbn [fst] in Hv. lia.
Qed.

(** What a snapshot sees is the part of the history below it, of whole batches. *)
Lemma held_whole base lv (p : Joint) ks key i :
  joint_inv base lv p -> held i ks p ->
  snapshot_get (versions (en_trees p.1.1)) ks key i = newest (whole base p.1.1 ks) ks key i ≫= visible_value.
Proof.
  intros [Je Js _ Jp] [Hi Hl Hx Hc]. pose proof (live_visible _ _ Js Hi). unfold snapshot_get.
  rewrite <- (finish_above tree_clear_ok p.1.2 p.1.1 ks key i (ei_flight _ _ _ _ _ Je) Hc) by lia.
  change (snapshot_get (versions (finish p.1.2 (en_trees p.1.1))) ks key i = newest (whole base p.1.1 ks) ks key i ≫= visible_value).
  rewrite (flight_reads tree_clear_ok base _ lv _ _ _ _ _ Je Hl Hx) by lia. unfold snapshot_get. by rewrite <- (newest_of_ks ks), of_ks_replay.
Qed.

Lemma held_stable base lv (p p' : Joint) i ks :
  joint_inv base lv p -> held i ks p -> rtc (holding i ks) p p' ->
  forall key, snapshot_get (versions (en_trees p'.1.1)) ks key i = snapshot_get (versions (en_trees p.1.1)) ks key i.
Proof.
  intros Hinv Hh Hr. revert base lv Hinv Hh. induction Hr as [p|p p1 p' (Hs & Hh1) _ IH]; intros base lv Hinv Hh key; [done|].
  destruct (joint_step_inv _ _ _ _ Hs Hinv) as (base1 & lv1 & Hinv1 & Hw). rewrite (IH base1 lv1) by done.
  rewrite (held_whole base1 lv1), (held_whole base lv) by done. f_equal.
  apply (extends_reads p.1 p1.1); [by apply Hw, (he_live _ _ _ Hh)| |by apply (he_calm _ _ _ Hh1)].
  pose proof (live_visible _ _ (ji_snapshots _ _ _ Hinv) (he_open _ _ _ Hh)). pose proof (ji_published _ _ _ Hinv).
  pose proof (unseen_le _ _ _ _ _ (ji_engine _ _ _ Hinv)). lia.
Qed.

(** ** The start of a life *)

(** A database that was just created, or recovered with sequence numbers above those of
    its journals and the instants compactions have passed. *)
Inductive started : Eng -> Prop :=
  | started_new e n : fresh e -> en_tracker e = tracker_new n -> 0 < n <= en_seqno e -> started e
  | started_again w e fl im s tracker queue : lives w (e, fl) -> crash_image e im -> recover_image im e = Some (s, Ok (tracker, queue)) ->
      (forall b, b ∈ all_batches e -> b.1 < rv_seqno s) -> 0 < rv_seqno s -> w < rv_seqno s -> started (restarted e im s tracker queue).

(** No snapshot is open then. *)
Definition no_snapshots (e : Eng) : TrackerState := mkTrackerState (en_tracker e) [] [].

Lemma recover_tracker im (e : Eng) s tr queue :
  recover_image im e = Some (s, Ok (tr, queue)) -> tr = gc [] (tracker_set (rv_seqno s) (tracker_new 0)).
Proof.
  unfold recover_image, recover_database. intros [(s1 & [] & _ & E1)|(x & Hx & _)]%ps_bind_Some; [|done].
  apply ps_bind_Some in E1 as [(s2 & [] & _ & E2)|(x & Hx & _)]; [|done].
  apply ps_bind_Some in E2 as [(s3 & [] & _ & E3)|(x & Hx & _)]; [|done]. by injection E3 as <- <- _.
Qed.

Lemma started_joint (e : Eng) : started e -> exists base lv, joint_inv base lv ((e, None), no_snapshots e).
Proof.
  destruct 1 as [e n Hf Ht Hn|w e fl im s tr queue Hl Hci Hrec Hseq Hpos Hw].
  - exists [], (fun _ => level_none). split; [by apply fresh_inv| |done|cbn; rewrite Ht; apply Hn].
    unfold no_snapshots. rewrite Ht. apply init_inv. lia.
  - destruct (lives_inv tree_clear_ok _ _ Hl) as (base & lv & Hinv).
    destruct (restart_inv tree_clear_ok _ _ _ _ _ _ _ _ _ Hinv Hci Hrec Hseq) as (base' & lv' & Hinv' & _). exists base', lv'.
    apply recover_tracker in Hrec as ->. unfold no_snapshots, get_seqno_safe_to_gc. cbn [restarted en_tracker].
    assert (gc [] (tracker_set (rv_seqno s) (tracker_new 0)) = mkTracker (rv_seqno s) ∅ 0 (rv_seqno s - 1)) as Etr.
    { unfold gc, tracker_set, tracker_new. cbn. unfold u64_sat_sub. by rewrite map_filter_empty, !Z.max_r by lia. }
    rewrite Etr in Hinv' |- *. split; cbn [fst snd tracker lowest_freed_instant seqno en_seqno restarted unseen]; [|split; cbn; [done| | | |]|done|lia].
    + apply (flight_inv_mono _ w); [cbn; lia|done].
    + intros i n E. by rewrite lookup_empty in E.
    + by intros i ?%elem_of_nil.
    + by intros i ?%elem_of_nil.
    + lia.
Qed.

(** ** Removing a keyspace *)

(** [MetaKeyspace::remove_keyspace] draws a sequence number and publishes it without the
    lock of the journal, whatever write is under way. *)
Definition removal_publishes (p : Joint) : Joint :=
  let '((e, fl), s) := p in
  let s' := mkTrackerState (publish (en_seqno e) (tracker s)) (opening s) (SnapshotTracker.live s) in
  ((mkEngine (en_trees e) (en_journal e) (en_contents e) (en_manager e) (en_keyspaces e) (en_deleted e) (en_seqno e + 1) (tracker s')
    (en_write_buffer_size e) (en_messages e) (en_tasks e) (active_compaction_count e) (compactions_completed e), fl), s').
End joint.

(** C17: Reads of a snapshot are repeatable. From the start of a database on, new or after
    any number of crashes, whatever writes, memtable rotations, flushes, compactions,
    journal rotations and evictions, and whatever other snapshots are opened, cloned,
    closed and collected: while a snapshot is open, it sees the same contents in every
    keyspace that is not deleted or cleared, that is compacted without [Fifo] or a filter
    and never weakly removed from. Both ends can be in the middle of a write, so it never
    sees a part of one. Clearing a tree is taken to succeed, sequence numbers to be
    published by writers that are done, and each snapshot to be closed once: the removal
    of a keyspace does not keep to the second ([removal_tears]), a conflicting optimistic
    commit not to the third. *)
Theorem snapshot_repeatable `{JournalCodec} {T : Type} `{!TreeOps T, !TreeLaws T, !LsmOps T, !LsmLaws T, !FlushOps T, !FlushLaws T}
    (e : Engine T) (p p' : (Engine T * option Flight) * TrackerState) i ks key :
  clears_succeed T ->
  started e -> rtc joint_step ((e, None), no_snapshots e) p -> held i ks p -> rtc (holding i ks) p p' ->
  snapshot_get (versions (en_trees p'.1.1)) ks key i = snapshot_get (versions (en_trees p.1.1)) ks key i.
Proof.
  intros Hc (base0 & lv0 & Hinv0)%(started_joint Hc) Hr Hh Hs. destruct (joint_run_inv Hc _ _ _ _ Hr Hinv0) as (base & lv & Hinv).
  by apply (held_stable Hc base lv).
Qed.

(** ** A sample run: the value a snapshot sees is overwritten and everything is flushed *)

Definition one_engine : Engine FlushHist := en_set_tracker (tracker_new 1) sample_engine.

Abbreviation SampleJoint := ((Engine FlushHist * option Flight) * TrackerState)%type.

Definition put_a : Entry := Item 1 key_a [Byte.x01] Value CompressionNone.
Definition apply_one (c : Engine FlushHist * option Flight) : Engine FlushHist * option Flight :=
  match c with
  | (e, Some (mkFlight plain s (x :: rest))) => (en_set_trees (live_entry plain s (en_trees e) x) e, Some (mkFlight plain s rest))
  | c => c
  end.
Definition begin_batch (entries : list Entry) (c : Engine FlushHist * option Flight) : Engine FlushHist * option Flight :=
  (en_begin entries c.1, Some (mkFlight false (en_seqno c.1) entries)).
Definition at_tracker (t : SnapshotTracker) (live : list Z) (c : Engine FlushHist * option Flight) : SampleJoint :=
  ((en_set_tracker t c.1, c.2), mkTrackerState t [] live).

(** One write, published, and a snapshot taken; then another one, half way. *)
Definition one_write : SampleJoint := at_tracker (open_at 2 (tracker_new 2)) [2] ((apply_one (begin_batch [put_a] (one_engine, None))).1, None).
Definition half_over : SampleJoint := (apply_one (begin_batch second_entries one_write.1), one_write.2).
Definition flushed_over : SampleJoint :=
  ((after (run_flush 1) (after (seal_memtable 1 0) (apply_one half_over.1).1), None), one_write.2).

Lemma sample_begin (c : Engine FlushHist * option Flight) s entries :
  c.2 = None -> Forall item_of entries -> Forall is_put entries -> en_tracker c.1 = tracker s -> joint_step (c, s) (begin_batch entries c, s).
Proof. destruct c as [e fl]. cbn. intros -> He Hp Ht. apply js_engine; [|done]. apply fs_begin; [by left|by apply puts_strong]. Qed.

Lemma sample_apply (c : Engine FlushHist * option Flight) s x rest plain n :
  c.2 = Some (mkFlight plain n (x :: rest)) -> en_tracker c.1 = tracker s -> joint_step (c, s) (apply_one c, s).
Proof. destruct c as [e fl]. cbn. intros -> Ht. apply js_engine; [|done]. apply fs_apply. Qed.

Lemma second_items : Forall item_of second_entries.
Proof. repeat constructor; by eexists _, _, _, _, _. Qed.

Lemma half_over_runs : rtc joint_step ((one_engine, None), no_snapshots one_engine) half_over.
Proof.
  eapply rtc_l; [apply (sample_begin _ _ [put_a]); [done|repeat constructor; by eexists _, _, _, _, _|repeat constructor|done]|].
  eapply rtc_l; [by eapply sample_apply|]. eapply rtc_l; [apply js_tracker; [apply (StepPublish _ 1)|vm_compute; discriminate]|].
  eapply rtc_l; [apply js_engine; [apply fs_end|done]|]. eapply rtc_l; [apply js_tracker; [apply StepOpenRead|vm_compute; discriminate]|].
  eapply rtc_l; [apply js_tracker; [apply (StepOpenCount _ 2 []); reflexivity|vm_compute; discriminate]|].
  eapply rtc_l; [apply (sample_begin _ _ second_entries); [done|apply second_items|repeat constructor|done]|]. eapply rtc_l; [by eapply sample_apply|]. apply rtc_refl.
Qed.

Lemma sample_held i (p : SampleJoint) :
  en_keyspaces p.1.1 = [1] -> en_deleted p.1.1 = ∅ -> i ∈ SnapshotTracker.live p.2 -> calm 1 p.1.2 -> held i 1 p.
Proof. intros Hk Hd Hi Hc. split; [done| |done|done]. split; [rewrite Hk; left|rewrite Hd; set_solver]. Qed.

Lemma flushed_over_runs : rtc (holding 2 1) half_over flushed_over.
Proof.
  eapply (rtc_l _ _ (apply_one half_over.1, one_write.2)); [split; [by eapply sample_apply|apply sample_held; [done|done|left|apply not_elem_of_nil]]|].
  eapply (rtc_l _ _ (((apply_one half_over.1).1, None), one_write.2)); [split; [apply js_engine; [apply fs_end|done]|apply sample_held; [done|done|left|done]]|].
  eapply (rtc_l _ _ ((after (seal_memtable 1 0) (apply_one half_over.1).1, None), one_write.2)).
  { split; [|apply sample_held; [done|done|left|done]]. apply js_engine; [|done]. eapply fs_locked, (es_seal_memtable _ 1 0). vm_compute. reflexivity. }
  eapply (rtc_l _ _ flushed_over); [|apply rtc_refl]. split; [|apply sample_held; [done|done|left|done]].
  apply js_engine; [|done]. eapply fs_free, (es_flush _ _ 1); [vm_compute; discriminate|vm_compute; reflexivity].
Qed.

Lemma snapshot_repeatable_witness :
  rtc (holding 2 1) half_over flushed_over /\
  snapshot_get (versions (en_trees flushed_over.1.1)) 1 key_a u64_max = Some [Byte.x06] /\
  snapshot_get (versions (en_trees flushed_over.1.1)) 1 key_a 2 = Some [Byte.x01].
Proof.
  split; [exact flushed_over_runs|]. split; [vm_compute; reflexivity|].
  rewrite (snapshot_repeatable one_engine half_over flushed_over 2 1 key_a fh_clear_ok).
  - vm_compute. reflexivity.
  - apply (started_new _ 1); [done|done|]. vm_compute. split; [done|discriminate].
  - exact half_over_runs.
  - apply sample_held; [done|done|left|]. cbn. intros E%list_elem_of_singleton. discriminate.
  - exact flushed_over_runs.
Defined.

(** A snapshot that is taken after the removal of a keyspace has published its number sees
    the half of a batch that is in the trees, and later the other half too. *)
Definition half_first : SampleJoint := (apply_one (begin_batch second_entries (one_engine, None)), no_snapshots one_engine).
Definition removed_over : SampleJoint :=
  let p := removal_publishes half_first in ((en_set_tracker (open_at 3 (tracker p.2)) p.1.1, p.1.2), mkTrackerState (open_at 3 (tracker p.2)) [] [3]).

Theorem removal_tears :
  rtc joint_step ((one_engine, None), no_snapshots one_engine) half_first /\ rtc joint_step (removal_publishes half_first) removed_over /\
  exists p, holding 3 1 removed_over p /\ held 3 1 removed_over /\
    snapshot_get (versions (en_trees removed_over.1.1)) 1 key_b 3 = Some [Byte.x05] /\
    snapshot_get (versions (en_trees removed_over.1.1)) 1 key_a 3 = None /\
    snapshot_get (versions (en_trees p.1.1)) 1 key_a 3 = Some [Byte.x06].
Proof.
  split_and!.
  - eapply rtc_l; [apply (sample_begin _ _ second_entries); [done|apply second_items|repeat constructor|done]|]. eapply rtc_l; [by eapply sample_apply|]. apply rtc_refl.
  - eapply rtc_l; [apply js_tracker; [apply StepOpenRead|vm_compute; discriminate]|].
    eapply rtc_l; [apply js_tracker; [apply (StepOpenCount _ 3 []); reflexivity|vm_compute; discriminate]|]. apply rtc_refl.
  - exists (apply_one removed_over.1, removed_over.2). split_and!; [|apply sample_held; [done|done|left|]|vm_compute; reflexivity..].
    + split; [by eapply sample_apply|apply sample_held; [done|done|left|apply not_elem_of_nil]].
    + cbn. intros E%list_elem_of_singleton. discriminate.
Qed.
