(* ===== verification/WorkerPool.v ===== *)
(** * The worker pool: progress and shutdown

    [WorkerPool] of [src/src/worker_pool.rs] and the [Drop] of [DatabaseInner] in
    [src/src/db.rs], and the write stalls of [src/src/keyspace/mod.rs]. First the
    channels: a worker that has them for itself never waits for room. Then the writers
    that wait for the workers to catch up. Then the threads: who decrements the counter
    that the destructor waits for. *)

From stdpp Require Import base gmap list relations.
From S2P Require Import Prelude Errors Utf8 Store Panic JournalEntry JournalReader JournalWriter JournalFiles SnapshotTracker Mvcc Db.
From S2P Require Import DbProps ReplayHistory Recovery RecoveryProps Engine EngineProps EngineDurable.

#[local] Open Scope pstate_scope.

(** ** Room in the channels *)

Section channels.
Context `{JournalCodec} {T : Type} `{!TreeOps T, !LsmOps T, !FlushOps T}.

Abbreviation Eng := (Engine T).

Definition is_flush (msg : WorkerMessage) : Prop := msg = MFlush.
#[local] Instance is_flush_dec msg : Decision (is_flush msg).
Proof. destruct msg; [by left|by right|by right|by right]. Defined.

(** Every flush task has its message, and both channels are within bounds; [slack]
    counts messages just taken. *)
Record channels_ok (slack : nat) (e : Eng) : Prop := {
  ch_messages : (length (en_messages e) + slack <= CHANNEL_SIZE)%nat;
  ch_tasks : (length (en_tasks e) <= length (filter is_flush (en_messages e)))%nat
}.

(** A computation that returns and keeps the channels in order. *)
Definition returns (slack : nat) {A} (m : PState Eng A) : Prop :=
  forall e, channels_ok slack e -> exists e' r, m e = Some (e', r) /\ channels_ok slack e'.

Lemma returns_bind slack {A B} (m : PState Eng A) (f : A -> PState Eng B) :
  returns slack m -> (forall a, returns slack (f a)) -> returns slack (ps_bind m f).
Proof.
  intros Hm Hf e He. destruct (Hm e He) as (e1 & [a|x] & E1 & H1); unfold ps_bind; rewrite E1; [by apply Hf|by eexists _, _].
Qed.

Lemma returns_ret slack {A} (a : A) : returns slack (ps_ret a).
Proof. intros e He. by eexists _, _. Qed.

(** What does not use the channels. *)
Lemma returns_other slack {A} (m : PState Eng A) :
  (forall e, exists e' r, m e = Some (e', r) /\ en_messages e' = en_messages e /\ en_tasks e' = en_tasks e) -> returns slack m.
Proof.
  intros Hm e [Hl Ht]. destruct (Hm e) as (e' & r & E & Em & Et). exists e', r. split; [done|]. by split; rewrite ?Et, ?Em.
Qed.

Lemma returns_try_send msg : returns 0 (try_send msg).
Proof.
  intros e [Hl Ht]. eexists _, _. split; [done|]. case_decide; [|done]. split; cbn [en_messages en_tasks en_set_channels].
  - rewrite length_app. cbn. lia.
  - rewrite filter_app, length_app. lia.
Qed.

Lemma returns_request ks : returns 0 (request_rotation ks).
Proof. intros e. apply returns_try_send. Qed.

Lemma returns_requests kss : returns 0 (request_rotations kss).
Proof. induction kss as [|ks kss IH]; [apply returns_ret|]. apply returns_bind; [apply returns_request|done]. Qed.

Lemma returns_compactions n ks : returns 0 (send_compactions n ks).
Proof. induction n as [|n IH]; [apply returns_ret|]. apply returns_bind; [apply returns_try_send|done]. Qed.

Lemma returns_maintenance slack env : returns slack (journal_maintenance env).
Proof.
  apply returns_other. intros e. unfold journal_maintenance. destruct (maintenance _ _ _ _) as [[m removed] r]. by eexists _, _.
Qed.

Lemma returns_seal_journal slack env : returns slack (seal_journal env).
Proof.
  apply returns_other. intros e. unfold seal_journal. destruct (te_len env); [|by eexists _, _].
  destruct (te_rotate env); by eexists _, _.
Qed.

Lemma returns_maybe_rotate env max : returns 0 (maybe_rotate_journal env max).
Proof.
  intros e He. unfold maybe_rotate_journal. destruct (te_pos env) as [[]|]; [|by eexists _, _].
  case_decide; [|by eexists _, _]. apply returns_bind; [apply returns_seal_journal| |done]. intros _ e1 He1.
  case_decide; [by apply returns_requests|by eexists _, _].
Qed.

Lemma returns_flush slack ks : returns slack (run_flush ks).
Proof.
  apply returns_other. intros e. unfold run_flush. destruct (tree_flush _ _ _) as [t [[n|]|x]]; by eexists _, _.
Qed.

Lemma returns_compaction slack ks : returns slack (run_compaction ks).
Proof.
  apply returns_other. intros e. unfold run_compaction. destruct (keyspace_deleted e ks); [by eexists _, _|].
  destruct (tree_compact _ _ _) as [t [[]|x]]; by eexists _, _.
Qed.

Lemma slack_weaken e : channels_ok 1 e -> channels_ok 0 e.
Proof. intros [? ?]. split; [lia|done]. Qed.

(** A rotation puts a task and a message. *)
Lemma enqueue_send_returns ks (e : Eng) :
  channels_ok 1 e -> exists e' r, (enqueue_task ks ;;;; send MFlush) e = Some (e', r) /\ channels_ok 0 e' /\ r = Ok ().
Proof.
  intros [Hl Ht]. unfold ps_bind, enqueue_task. pose proof (length_filter is_flush (en_messages e)).
  rewrite decide_True by lia. unfold send. cbn [en_messages en_set_channels]. rewrite decide_True by lia.
  eexists _, _. split; [done|]. split; [|done]. split; cbn [en_messages en_tasks en_set_channels].
  - rewrite length_app. cbn. lia.
  - rewrite filter_app, filter_cons_True, !length_app by done. cbn [length]. lia.
Qed.

Lemma rotate_returns env order ks id (e : Eng) :
  channels_ok 1 e -> exists e' r, inner_rotate_memtable env order ks id e = Some (e', r) /\ channels_ok 0 e'.
Proof.
  intros He. assert (returns 1 (seal_memtable ks id)) as Hseal.
  { apply returns_other. intros e1. unfold seal_memtable. case_decide; [|by eexists _, _].
    destruct (tree_rotate_memtable ks (en_trees e1)). by eexists _, _. }
  destruct (Hseal e He) as (e1 & [rotated|x] & E1 & H1); unfold inner_rotate_memtable, ps_bind at 1; rewrite E1;
    [|eexists _, _; split; [done|by apply slack_weaken]].
  destruct rotated; [|eexists _, _; split; [done|by apply slack_weaken]].
  destruct (enqueue_send_returns ks e1 H1) as (e2 & r2 & E2 & H2 & ->). unfold ps_bind in E2 |- *.
  destruct (enqueue_task ks e1) as [[e1' [[]|]]|]; [|done|done]. rewrite E2.
  cbn [collect_snapshots ps_modify]. destruct (returns_maintenance 0 env (en_set_tracker (gc (order (pullup (en_tracker e2))) (pullup (en_tracker e2))) e2)) as (e3 & [[]|x] & E3 & H3);
    [by destruct H2; split| |]; rewrite E3; by eexists _, _.
Qed.

(** C24: A worker never waits: if no other thread uses the channels, whatever message it
    takes, and whether handling it succeeds or fails, it returns without having found a
    channel full, and every flush task keeps its message. *)
Theorem worker_progress env order pool_size worker_id max (e : Eng) :
  channels_ok 0 e -> en_messages e <> [] ->
  exists e' r, worker_tick env order pool_size worker_id max e = Some (e', r) /\ channels_ok 0 e'.
Proof.
  intros [Hl Ht] Hne. unfold worker_tick. destruct (en_messages e) as [|item messages] eqn:Em; [done|].
  assert (forall msg, msg <> MFlush -> item = msg -> channels_ok 1 (en_set_channels messages (en_tasks e) e)) as Htaken.
  { intros msg Hmsg ->. rewrite filter_cons_False in Ht by done. cbn in Hl. split; [cbn; lia|done]. }
  destruct item as [|ks| |ks id].
  - unfold ps_bind at 1, dequeue_task. cbn [en_tasks en_set_channels en_messages]. rewrite filter_cons_True in Ht by done. cbn in Hl, Ht.
    destruct (en_tasks e) as [|ks tasks] eqn:Et.
    { eexists _, _. split; [done|]. split; cbn; lia. }
    assert (channels_ok 0 (en_set_channels messages tasks (en_set_channels messages (ks :: tasks) e))) as H0 by (split; cbn in *; lia).
    revert H0. generalize (en_set_channels messages tasks (en_set_channels messages (ks :: tasks) e)).
    repeat (apply returns_bind; [first [apply returns_maybe_rotate|apply returns_flush|apply returns_compactions|apply returns_maintenance]|intros _]).
    apply returns_ret.
  - specialize (Htaken (MCompact ks) ltac:(done) eq_refl). case_decide.
    + unfold ps_bind, send. cbn [en_messages en_set_channels]. cbn in Hl. rewrite decide_True by lia. eexists _, _. split; [done|].
      split; cbn [en_messages en_set_channels en_tasks]; [rewrite length_app; cbn; lia|].
      destruct Htaken as [_ Ht']. cbn [en_messages en_set_channels en_tasks] in Ht'. rewrite filter_app, length_app. lia.
    + destruct (returns_bind 1 (run_compaction ks) (fun _ => ps_ret false) (returns_compaction 1 ks) (fun _ => returns_ret 1 false) _ Htaken)
        as (e' & r & E & He'). exists e', r. split; [done|]. by apply slack_weaken.
  - eexists _, _. split; [done|]. by apply slack_weaken, (Htaken MClose).
  - destruct (rotate_returns env order ks id _ (Htaken (MRotateMemtable ks id) ltac:(done) eq_refl)) as (e' & r & E & He').
    unfold ps_bind. rewrite E. destruct r; by eexists _, _.
Qed.

(** But writers use the channel too: if one of them fills the place of the message just
    taken, the worker that rotates a memtable waits for room. In a pool of one thread
    nobody else takes messages, and it waits forever. *)
Lemma refilled_channel_blocks env order ks ks' id (e : Eng) t m :
  length (en_messages e) = (CHANNEL_SIZE - 1)%nat -> tree_active_memtable_id ks (en_trees e) = id ->
  tree_rotate_memtable ks (en_trees e) = (t, Some m) ->
  (request_rotation ks' ;;;; inner_rotate_memtable env order ks id) e = None.
Proof.
  intros Hl Hid Hr. unfold ps_bind at 1, request_rotation, try_send, ps_modify. rewrite decide_True by (rewrite Hl; unfold CHANNEL_SIZE; lia).
  unfold inner_rotate_memtable, ps_bind at 1, seal_memtable. cbn [en_trees en_set_channels]. rewrite decide_True by done. rewrite Hr.
  unfold ps_bind, enqueue_task. case_decide; [|done]. unfold send. cbn [en_messages en_set_channels en_set_trees].
  rewrite decide_False; [done|]. rewrite length_app, Hl. unfold CHANNEL_SIZE. cbn. lia.
Qed.
End channels.

Lemma worker_progress_witness :
  let e := en_set_channels [MRotateMemtable 1 0; MClose] [] (sample_put key_a [Byte.x01] sample_engine) in
  exists e' r, worker_tick (sample_env 0) (fun _ => []) 1 0 0 e = Some (e', r) /\ channels_ok 0 e'.
Proof.
  intros e. apply (worker_progress (sample_env 0) (fun _ => []) 1 0 0 e); [split; cbn; unfold CHANNEL_SIZE; lia|done].
Defined.

(** ** Write stalls

    After each write the writer looks at the tree: [runs] and [sealed] are what the coming
    calls of [l0_run_count] and [sealed_memtable_count] answer. [None] means that the
    writer still waits when the answers end. *)

Fixpoint check_write_halt (runs : list Z) : option (list Z) :=
  match runs with
  | [] => None
  | n :: runs => if decide (30 <= n) then check_write_halt runs else Some runs
  end.

(** [perform_write_stall]: the number of idle turns. *)
Definition perform_write_stall (l0_runs : Z) : Z :=
  if decide (20 <= l0_runs < 30) then (l0_runs - 20) * 10000 else 0.

Fixpoint await_flushes (throttled : bool) (sealed : list Z) : option bool :=
  match sealed with
  | [] => None
  | n :: sealed => if decide (4 <= n) then await_flushes true sealed else Some throttled
  end.

(** [local_backpressure]: whether the writer was held up. *)
Definition local_backpressure (runs sealed : list Z) : option bool :=
  match runs with
  | [] => None
  | l0_run_count :: runs =>
      if decide (20 <= l0_run_count) then check_write_halt runs ≫= (fun _ => await_flushes true sealed) else await_flushes false sealed
  end.

Lemma check_write_halt_returns runs : is_Some (check_write_halt runs) <-> Exists (fun n => n < 30) runs.
Proof.
  induction runs as [|n runs IH]; cbn [check_write_halt]; [split; [by intros []|by intros ?%Exists_nil]|]. rewrite Exists_cons.
  case_decide; [rewrite IH; split; [by right|intros [?|?]; [lia|done]]|split; [left; lia|by eexists]].
Qed.

Lemma await_flushes_returns throttled sealed : is_Some (await_flushes throttled sealed) <-> Exists (fun n => n < 4) sealed.
Proof.
  revert throttled. induction sealed as [|n sealed IH]; intros throttled; cbn [await_flushes]; [split; [by intros []|by intros ?%Exists_nil]|].
  rewrite Exists_cons. case_decide; [rewrite IH; split; [by right|intros [?|?]; [lia|done]]|split; [left; lia|by eexists]].
Qed.

(** A writer goes on once the flushes have caught up and, if it found twenty runs or more,
    the compactions too: as long as they do not, it waits. *)
Lemma local_backpressure_returns n runs sealed :
  is_Some (local_backpressure (n :: runs) sealed) <->
  (n < 20 \/ Exists (fun n => n < 30) runs) /\ Exists (fun n => n < 4) sealed.
Proof.
  cbn [local_backpressure]. case_decide.
  - rewrite <- check_write_halt_returns, <- (await_flushes_returns true). destruct (check_write_halt runs) as [l|]; cbn.
    + split; [intros ?; split; [right; by eexists|done]|by intros [_ ?]].
    + split; [by intros []|intros [[?|[]] _]; [lia|done]].
  - rewrite <- (await_flushes_returns false). split; [intros ?; split; [left; lia|done]|by intros [_ ?]].
Qed.

(** ** Threads *)

Inductive Worker := Running | Closed | Crashed.
#[export] Instance Worker_eq_dec : EqDecision Worker.
Proof. solve_decision. Defined.

(** The threads that were spawned, [active_thread_counter] and the flag [is_poisoned],
    which writers whose journal can not be persisted set too. *)
Record Pool := mkPool { workers : list Worker; thread_counter : Z; pool_poisoned : bool }.

(** The iterator over the threads stops at the first failure, which takes back one
    count; [spawn] are the outcomes of the spawns. *)
Fixpoint spawn_threads (spawn : list (Result ())) (p : Pool) : Pool * Result () :=
  match spawn with
  | [] => (p, Ok ())
  | Ok () :: spawn => spawn_threads spawn (mkPool (workers p ++ [Running]) (thread_counter p) (pool_poisoned p))
  | Err e :: _ => (mkPool (workers p) (thread_counter p - 1) (pool_poisoned p), Err e)
  end.

(** [WorkerPool::start]; the pool size is the number of outcomes. *)
Definition start (spawn : list (Result ())) (p : Pool) : Pool * Result () :=
  spawn_threads spawn (mkPool (workers p) (thread_counter p + Z.of_nat (length spawn)) (pool_poisoned p)).

(** [PoisonDart::poison], and its destructor, which poisons when a panic unwinds. *)
Definition poison (p : Pool) : Pool := mkPool (workers p) (thread_counter p) true.
Definition poison_dart_drop (panicking : bool) (p : Pool) : Pool := if panicking then poison p else p.

(** The loop of thread [i] after one more [worker_tick], which panics for [None]. *)
Definition worker_loop (i : nat) (tick : PResult bool) (p : Pool) : Pool :=
  match tick with
  | Some (Ok true) => poison_dart_drop false (mkPool (<[i := Closed]> (workers p)) (thread_counter p - 1) (pool_poisoned p))
  | Some (Ok false) => p
  | Some (Err _) => poison (mkPool (<[i := Crashed]> (workers p)) (thread_counter p) (pool_poisoned p))
  | None => poison_dart_drop true (mkPool (<[i := Crashed]> (workers p)) (thread_counter p) (pool_poisoned p))
  end.

Inductive pool_step (p : Pool) : Pool -> Prop :=
  | ps_tick i tick : workers p !! i = Some Running -> pool_step p (worker_loop i tick p)
  | ps_persist_failed : pool_step p (poison p).

(** The destructor waits as long as this holds, sending [Close] messages. *)
Definition drop_waits (p : Pool) : bool := bool_decide (0 < thread_counter p).

Definition count (s : Worker) (p : Pool) : Z := Z.of_nat (length (filter (eq s) (workers p))).

(** Threads that are counted but were never spawned. *)
Definition lost (spawn : list (Result ())) : Z :=
  match list_find (fun r => is_ok r = false) spawn with
  | Some (i, _) => Z.of_nat (length spawn) - Z.of_nat i - 1
  | None => 0
  end.

Lemma count_insert s s' (ws : list Worker) i :
  ws !! i = Some Running ->
  Z.of_nat (length (filter (eq s) (<[i := s']> ws))) =
  Z.of_nat (length (filter (eq s) ws)) + (if decide (s = s') then 1 else 0) - (if decide (s = Running) then 1 else 0).
Proof.
  revert i. induction ws as [|x ws IH]; intros [|i]; cbn [lookup list_lookup]; try done.
  - intros [= ->]. cbn [insert list_insert]. rewrite !filter_cons. repeat case_decide; cbn [length]; lia.
  - intros Hi. change (<[S i := s']> (x :: ws)) with (x :: <[i := s']> ws). rewrite !filter_cons. specialize (IH i Hi). revert IH. repeat case_decide; cbn [length]; lia.
Qed.

(** What is counted: running threads, crashed ones, and those never spawned. *)
Definition counted (n : Z) (p : Pool) : Prop := thread_counter p = count Running p + count Crashed p + n.

Lemma spawn_counted spawn p n :
  counted (n + Z.of_nat (length spawn)) p -> counted (n + lost spawn) (spawn_threads spawn p).1.
Proof.
  revert p. induction spawn as [|[[]|e] spawn IH]; intros p Hp; cbn [spawn_threads fst].
  - by replace (lost []) with (Z.of_nat (length (@nil (Result ())))).
  - assert (lost (Ok () :: spawn) = lost spawn) as ->.
    { unfold lost. cbn [list_find is_ok]. rewrite decide_False by done.
      destruct (list_find _ spawn) as [[i r]|]; simpl; lia. }
    apply IH. unfold counted, count in *. cbn [thread_counter workers length] in *. rewrite !filter_app, !length_app.
    change (length (filter (eq Running) [Running])) with 1%nat. change (length (filter (eq Crashed) [Running])) with 0%nat. lia.
  - assert (lost (Err e :: spawn) = Z.of_nat (length spawn)) as ->.
    { unfold lost. cbn [list_find is_ok]. rewrite decide_True by done. cbn [length]. lia. }
    unfold counted, count in *. cbn [thread_counter workers length] in *. lia.
Qed.

Lemma step_counted n p p' : pool_step p p' -> counted n p -> counted n p'.
Proof.
  intros [i tick Hi|]; [|done]. unfold counted, count, worker_loop. destruct tick as [[[]|x]|]; cbn [workers thread_counter poison_dart_drop poison]; try done;
    rewrite !(count_insert _ _ _ i Hi); repeat case_decide; try done; lia.
Qed.

Lemma run_counted n p p' : rtc pool_step p p' -> counted n p -> counted n p'.
Proof. induction 1 as [|p p1 p' Hs _ IH]; [done|]. intros ?. by eapply IH, step_counted. Qed.

Lemma crashed_stays p p' : rtc pool_step p p' -> (exists i, workers p !! i = Some Crashed) -> exists i, workers p' !! i = Some Crashed.
Proof.
  induction 1 as [|p p1 p' [j tick Hj|] _ IH]; [done| |done]. intros (i & Hi). apply IH. exists i.
  destruct tick as [[[]|x]|]; cbn [worker_loop poison_dart_drop poison workers]; try done; by rewrite list_lookup_insert_ne by congruence.
Qed.

Lemma count_pos s (p : Pool) i : workers p !! i = Some s -> 0 < count s p.
Proof.
  intros Hi. unfold count. assert (s ∈ filter (eq s) (workers p)) as Hin by (apply list_elem_of_filter; by eapply conj, list_elem_of_lookup_2).
  destruct (filter (eq s) (workers p)); [by apply elem_of_nil in Hin|]. cbn [length]. lia.
Qed.

Lemma count_nonneg s p : 0 <= count s p.
Proof. unfold count. lia. Qed.

(** A thread that ended otherwise than by closing has poisoned the database. *)
Definition marked_crashes (p : Pool) : Prop := 0 < count Crashed p -> pool_poisoned p = true.

Lemma spawn_marked spawn : forall p, marked_crashes p -> marked_crashes (spawn_threads spawn p).1.
Proof.
  induction spawn as [|[[]|e] spawn IH]; intros p Hp; cbn [spawn_threads fst]; [done| |done]. apply IH. revert Hp.
  unfold marked_crashes, count. cbn [workers pool_poisoned]. rewrite filter_app, length_app. change (filter (eq Crashed) [Running]) with (@nil Worker).
  cbn [length]. by rewrite Nat.add_0_r.
Qed.

Lemma step_marked p p' : pool_step p p' -> marked_crashes p -> marked_crashes p'.
Proof.
  intros [i tick Hi|]; [|by intros _ _]. unfold marked_crashes, count, worker_loop.
  destruct tick as [[[]|x]|]; cbn [poison_dart_drop poison workers pool_poisoned]; try done. rewrite (count_insert _ _ _ i Hi).
  repeat case_decide; try done. by rewrite Z.add_0_r, Z.sub_0_r.
Qed.

Lemma run_marked p p' : rtc pool_step p p' -> marked_crashes p -> marked_crashes p'.
Proof. induction 1 as [|p p1 p' Hs _ IH]; [done|]. intros Hp. by apply IH, (step_marked p). Qed.

(** C25: The destructor of a database waits exactly for the threads that still run, plus
    those that can no longer count themselves out: it returns once all threads are
    closed if every thread was spawned and none crashed, and never otherwise. When a
    thread failed or panicked, the database is poisoned (as it is when a writer could not
    persist the journal). *)
Theorem drop_waits_spec spawn p :
  rtc pool_step (start spawn (mkPool [] 0 false)).1 p ->
  (drop_waits p = false <-> count Running p = 0 /\ count Crashed p = 0 /\ lost spawn = 0) /\
  (count Crashed p + lost spawn > 0 -> forall p', rtc pool_step p p' -> drop_waits p' = true) /\
  (0 < count Crashed p -> pool_poisoned p = true).
Proof.
  intros Hrun. assert (0 < count Crashed p -> pool_poisoned p = true) as Hmark by (by apply (run_marked _ _ Hrun), spawn_marked).
  assert (counted (lost spawn) p) as Hp.
  { apply (run_counted _ _ _ Hrun). apply (spawn_counted spawn _ 0). unfold counted, count. cbn [workers thread_counter]. change (filter (eq Running) []) with (@nil Worker). change (filter (eq Crashed) []) with (@nil Worker). cbn [length]. lia. }
  assert (0 <= lost spawn) as Hl.
  { unfold lost. destruct (list_find _ spawn) as [[i r]|] eqn:E; [|done]. apply list_find_Some in E as (E & _).
    apply lookup_lt_Some in E. lia. }
  pose proof (count_nonneg Running p). pose proof (count_nonneg Crashed p). unfold drop_waits. split_and!; [| |exact Hmark].
  - rewrite bool_decide_eq_false. unfold counted in Hp. lia.
  - intros Hbad p' Hrun'. pose proof (run_counted _ _ _ Hrun' Hp) as Hp'. unfold counted in Hp'. pose proof (count_nonneg Running p').
    apply bool_decide_eq_true. destruct (decide (0 < lost spawn)); [pose proof (count_nonneg Crashed p'); lia|].
    destruct (crashed_stays p p' Hrun') as (i & Hi%count_pos); [|lia].
    unfold count in Hbad. destruct (filter (eq Crashed) (workers p)) as [|x l] eqn:Ef; [cbn in Hbad; lia|].
    assert (x ∈ filter (eq Crashed) (workers p)) as [<- Hx]%list_elem_of_filter by (rewrite Ef; left). by apply list_elem_of_lookup_1.
Qed.

(** Two threads; one takes a [Close], the other one panics. *)
Lemma drop_waits_spec_witness :
  let p0 := (start [Ok (); Ok ()] (mkPool [] 0 false)).1 in
  let p := worker_loop 1 None (worker_loop 0 (Some (Ok true)) p0) in
  workers p = [Closed; Crashed] /\ drop_waits p = true /\ forall p', rtc pool_step p p' -> drop_waits p' = true.
Proof.
  intros p0 p. split; [done|]. split; [done|].
  destruct (drop_waits_spec [Ok (); Ok ()] p) as (_ & Hw & _).
  - eapply rtc_l; [by apply (ps_tick p0 0 (Some (Ok true)))|]. eapply rtc_l; [by apply (ps_tick _ 1 None)|]. apply rtc_refl.
  - apply Hw. done.
Defined.

(** Closing the threads one by one takes as many steps as there are threads. *)
Lemma closing_terminates p : count Crashed p = 0 -> counted 0 p -> exists p', rtc pool_step p p' /\ drop_waits p' = false.
Proof.
  remember (Z.to_nat (count Running p)) as n eqn:En. revert p En. induction n as [|n IH]; intros p En Hc Hp.
  - exists p. split; [done|]. apply bool_decide_eq_false. unfold counted in Hp. pose proof (count_nonneg Running p). lia.
  - assert (exists i, workers p !! i = Some Running) as (i & Hi).
    { unfold count in En. destruct (filter (eq Running) (workers p)) as [|x l] eqn:Ef; [cbn in En; lia|].
      assert (x ∈ filter (eq Running) (workers p)) as [<- Hx]%list_elem_of_filter by (rewrite Ef; left). by apply list_elem_of_lookup_1. }
    pose proof (ps_tick p i (Some (Ok true)) Hi) as Hstep. pose proof (step_counted _ _ _ Hstep Hp) as Hp'.
    destruct (IH (worker_loop i (Some (Ok true)) p)) as (p' & Hr & Hd); [| |done|exists p'; by split; [eapply rtc_l|]];
      unfold count in *; cbn [worker_loop poison_dart_drop workers]; rewrite (count_insert _ _ _ i Hi); repeat case_decide; try done; lia.
Qed.
