(* ===== verification/SecureDb.v ===== *)
(** * Opening secure databases and keyspaces

    Models [SecureDatabase] and its builder ([src/src/secure/keyspace.rs]), the two
    secure transactional databases and theirs ([src/src/secure/tx.rs]), and the
    installation of retention policies. A secure keyspace is a keyspace of the catalogue
    under a reserved name; opening the raw database is a parameter. *)

From stdpp Require Import base gmap list sorting strings.
From S2P Require Import Prelude Errors Utf8 Visibility Composite Store Cell Crypto Providers Policy SecureKeyspace.
From S2P Require Import JournalEntry JournalReader JournalWriter SnapshotTracker BTree ConflictManager Mvcc Db WriteTx Optimistic SecureTx.
From S2P Require Import Panic KeyspaceConfig MetaKeyspace KeyspaceOptions Catalog CatalogProps.

#[local] Open Scope state_scope.

(** ** Builders *)

(** [SecureDatabaseBuilder], [SingleWriterSecureTxDatabaseBuilder] and
    [OptimisticSecureTxDatabaseBuilder]; the builder of the raw database is left out. *)
Record SecureBuilder (A I : Type) := mkSecureBuilder {
  sb_authenticator : option (Credentials -> Result (option I));
  sb_permission_handler : option ((I -> SystemPermission -> bool) * (I -> str -> KeyspacePermission -> bool));
  sb_authorizor : option (I -> Result Authorizations);
  sb_audit : option (AuditConfig A I)
}.
Arguments mkSecureBuilder {A I}.
Arguments sb_authenticator {A I}.
Arguments sb_permission_handler {A I}.
Arguments sb_authorizor {A I}.
Arguments sb_audit {A I}.

(** [SecureDatabase], [SingleWriterSecureTxDatabase] and [OptimisticSecureTxDatabase]
    around a raw database [D]. *)
Record SecureDatabase (D A I : Type) := mkSecureDatabase { sdb_inner : D; sdb_security : SecurityProviders A I }.
Arguments mkSecureDatabase {D A I}.
Arguments sdb_inner {D A I}.
Arguments sdb_security {D A I}.

Section builders.
Context {S D A I : Type}.

Definition builder_new : SecureBuilder A I := mkSecureBuilder None None None None.
Definition builder_authenticator a (b : SecureBuilder A I) : SecureBuilder A I :=
  mkSecureBuilder (Some a) (sb_permission_handler b) (sb_authorizor b) (sb_audit b).
Definition builder_permission_handler p (b : SecureBuilder A I) : SecureBuilder A I :=
  mkSecureBuilder (sb_authenticator b) (Some p) (sb_authorizor b) (sb_audit b).
Definition builder_authorizor z (b : SecureBuilder A I) : SecureBuilder A I :=
  mkSecureBuilder (sb_authenticator b) (sb_permission_handler b) (Some z) (sb_audit b).
Definition builder_audit_sink sink mode (b : SecureBuilder A I) : SecureBuilder A I :=
  mkSecureBuilder (sb_authenticator b) (sb_permission_handler b) (sb_authorizor b) (Some (mkAuditConfig sink mode)).

(** [inner.open()]. *)
Context (inner_open : StateR S D).

(** [SecureDatabaseBuilder::open]. *)
Definition builder_open (b : SecureBuilder A I) : StateR S (SecureDatabase D A I) :=
  a <- st_lift (ok_or (sb_authenticator b) (MissingSecurityProvider "authenticator")) ;;
  p <- st_lift (ok_or (sb_permission_handler b) (MissingSecurityProvider "permission_handler")) ;;
  z <- st_lift (ok_or (sb_authorizor b) (MissingSecurityProvider "authorizor")) ;;
  inner <- inner_open ;;
  st_ret (mkSecureDatabase inner (mkSecurityProviders a p.1 p.2 z (sb_audit b))).

(** [open] of the transactional builders. *)
Definition tx_builder_open (b : SecureBuilder A I) : StateR S (SecureDatabase D A I) :=
  security <- st_lift (providers_from_parts (sb_authenticator b) (sb_permission_handler b) (sb_authorizor b) (sb_audit b)) ;;
  inner <- inner_open ;;
  st_ret (mkSecureDatabase inner security).

(** The first provider that is missing. *)
Definition missing (b : SecureBuilder A I) : option string :=
  match sb_authenticator b, sb_permission_handler b, sb_authorizor b with
  | None, _, _ => Some "authenticator"%string
  | _, None, _ => Some "permission_handler"%string
  | _, _, None => Some "authorizor"%string
  | _, _, _ => None
  end.

(** Secure databases of all kinds open fail-closed and alike: if a provider is missing,
    the first missing one is reported and the raw database is not even touched;
    otherwise the outcome is that of opening the raw database, and the database checks
    against exactly the providers given. *)
Theorem secure_open_spec (b : SecureBuilder A I) s :
  builder_open b s = tx_builder_open b s /\
  match missing b with
  | Some what => builder_open b s = (s, Err (MissingSecurityProvider what))
  | None =>
      (builder_open b s).1 = (inner_open s).1 /\
      match (inner_open s).2, (builder_open b s).2 with
      | Err e, Err e' => e' = e
      | Ok d, Ok db => sdb_inner db = d /\ audit (sdb_security db) = sb_audit b /\
          sb_authenticator b = Some (authenticator (sdb_security db)) /\ sb_authorizor b = Some (authorizor (sdb_security db)) /\
          sb_permission_handler b = Some (has_system_permission (sdb_security db), has_keyspace_permission (sdb_security db))
      | _, _ => False
      end
  end.
Proof.
  unfold builder_open, tx_builder_open, providers_from_parts, missing, st_bind, st_lift, st_ret.
  destruct b as [[a|] [[p1 p2]|] [z|] au]; cbn; try done. destruct (inner_open s) as [s' [d|e]]; done.
Qed.
End builders.

(** ** Keyspaces *)

(** [SecureKeyspaceOptions] of [src/src/secure/crypto.rs]. *)
Record SecureKeyspaceOptions (F : Type) := mkSecureKeyspaceOptions {
  so_create_options : CreateOptions F;
  so_encryption : option EncryptionConfig;
  so_retention : option RetentionPolicy
}.
Arguments mkSecureKeyspaceOptions {F}.
Arguments so_create_options {F}.
Arguments so_encryption {F}.
Arguments so_retention {F}.

#[local] Open Scope pstate_scope.

Section keyspaces.
Context `{JournalCodec, StrategyConfig, PrefixRange} {S F A I : Type} `{!ReadableOps S, !IngestOps S}.
Context (assigner : option (str -> option F)).
(** [Arc::new(SecureRetentionFactory { policy })]. *)
Context (retention_factory : SecureCompactionPolicy A I -> F).

Abbreviation Cat := (Catalog S F).

Definition with_create_options (o : CreateOptions F) (so : SecureKeyspaceOptions F) : SecureKeyspaceOptions F :=
  mkSecureKeyspaceOptions o (so_encryption so) (so_retention so).
Definition with_encryption (e : EncryptionConfig) (so : SecureKeyspaceOptions F) : SecureKeyspaceOptions F :=
  mkSecureKeyspaceOptions (so_create_options so) (Some e) (so_retention so).
Definition with_retention (r : RetentionPolicy) (so : SecureKeyspaceOptions F) : SecureKeyspaceOptions F :=
  mkSecureKeyspaceOptions (so_create_options so) (so_encryption so) (Some r).

(** [SecureCompactionPolicy::install_on]. *)
Definition install_on (policy : SecureCompactionPolicy A I) (o : CreateOptions F) : CreateOptions F :=
  with_compaction_filter_factory (retention_factory policy) o.

Definition install_retention_policy (name : str) (create_options : CreateOptions F) (retention : option RetentionPolicy)
    (audit : option (AuditConfig A I)) : Result (CreateOptions F) :=
  match retention with
  | None => Ok create_options
  | Some retention => policy ← compaction_policy_new name retention audit; Ok (install_on policy create_options)
  end.

(** [SecureDatabase::secure_keyspace]: the raw handle and the secure keyspace. *)
Definition secure_keyspace (security : SecurityProviders A I) (env : CreateEnv) (name : str) (opts : SecureKeyspaceOptions F) :
    PState Cat (Handle F * SecureKeyspace A I) :=
  let physical_name := physical_keyspace_name name in
  let encryption := mkValueEncryption name <$> so_encryption opts in
  create_options <-- ps_pure (p_lift (install_retention_policy name (so_create_options opts) (so_retention opts) (audit security))) ;;
  inner <-- raw_keyspace assigner env physical_name create_options ;;
  ps_ret (inner, mkSecureKeyspace name security encryption).

(** The handle as the write path sees it. *)
Definition keyspace_of (h : Handle F) (c : Cat) : Keyspace :=
  mkKeyspace (h_id h) (h_name h) (bool_decide (h_id h ∈ cat_deleted c)) (KeyspaceOptions.manual_journal_persist (h_config h)).

(** [secure_keyspace] of the transactional databases. *)
Definition tx_secure_keyspace_open (security : SecurityProviders A I) (env : CreateEnv) (name : str) (opts : SecureKeyspaceOptions F) :
    PState Cat SecureTxKeyspace :=
  let encryption := mkValueEncryption name <$> so_encryption opts in
  create_options <-- ps_pure (p_lift (install_retention_policy name (so_create_options opts) (so_retention opts) (audit security))) ;;
  raw <-- raw_keyspace assigner env (physical_keyspace_name name) create_options ;;
  (fun c => Some (c, Ok (mkSecureTxKeyspace (keyspace_of raw c) name encryption))).

(** ** What is opened *)

Lemma physical_name_inj name name' : physical_keyspace_name name = physical_keyspace_name name' -> name = name'.
Proof. apply app_inv_head. Qed.

Lemma install_retention_cases name o retention au :
  match install_retention_policy name o retention au with
  | Ok o' => o' = o /\ retention = None \/
      exists r, retention = Some r /\ validate r = Ok () /\ o' = install_on (mkSecureCompactionPolicy name r au) o
  | Err e => exists r, retention = Some r /\ validate r = Err e
  end.
Proof.
  unfold install_retention_policy, compaction_policy_new. destruct retention as [r|]; [|by left].
  destruct (validate r) as [[]|e] eqn:Ev; [|by exists r]. right. by exists r.
Qed.

Lemma install_strategy name o retention au o' :
  install_retention_policy name o retention au = Ok o' -> compaction_strategy o' = compaction_strategy o.
Proof.
  intros E. pose proof (install_retention_cases name o retention au) as Hc. rewrite E in Hc.
  destruct Hc as [[-> _]|(r & _ & _ & ->)]; [done|by destruct o].
Qed.

Lemma install_options name o retention au o' :
  install_retention_policy name o retention au = Ok o' -> options_ok o -> options_ok o'.
Proof.
  intros E Ho. pose proof (install_retention_cases name o retention au) as Hc. rewrite E in Hc.
  destruct Hc as [[-> _]|(r & _ & _ & ->)]; [done|]. destruct o, Ho. by constructor.
Qed.

Context `{!ReadableLaws S, !IngestLaws S}.

Lemma raw_keyspace_new env name opts (c c' : Cat) h :
  raw_keyspace assigner env name opts c = Some (c', Ok h) -> cat_keyspaces c !! name = None ->
  h_name h = name /\ h_config h = assign assigner name opts.
Proof.
  unfold raw_keyspace, ps_bind at 1, ps_assert. destruct (is_valid_keyspace_name name); [|done]. intros E Hn. rewrite Hn in E.
  unfold ps_bind at 1, next_keyspace_id in E. unfold ps_bind at 1, keyspace_create_new, ps_bind at 1, ps_pure, p_lift in E.
  destruct (env_mkdir env) as [[]|]; [|done]. unfold ps_bind at 1, ps_modify in E. unfold ps_bind at 1 in E.
  destruct (env_open env) as [[]|]; [|done]. unfold ps_ret at 1, ps_bind at 1 in E.
  destruct (create_keyspace _ _ _ _) as [[c1 [[]|]]|]; [|done|done]. unfold ps_ret in E. by injection E as _ <-.
Qed.

(** What the three variants do first. *)
Lemma open_physical env name opts au (c c' : Cat) r :
  catalog_ok c -> is_str (physical_keyspace_name name) -> options_ok (so_create_options opts) -> keyspace_id_counter c <= u64_max ->
  (create_options <-- ps_pure (p_lift (install_retention_policy name (so_create_options opts) (so_retention opts) au)) ;;
   raw_keyspace assigner env (physical_keyspace_name name) create_options) c = Some (c', r) ->
  catalog_ok c' /\ (forall n, n <> physical_keyspace_name name -> cat_keyspaces c' !! n = cat_keyspaces c !! n) /\
  match r with
  | Ok h => cat_keyspaces c' !! physical_keyspace_name name = Some h /\
      match cat_keyspaces c !! physical_keyspace_name name with
      | Some h0 => h = h0
      | None => exists o, install_retention_policy name (so_create_options opts) (so_retention opts) au = Ok o /\
          h_config h = assign assigner (physical_keyspace_name name) o
      end
  | Err e => cat_keyspaces c' = cat_keyspaces c /\ forall p, so_retention opts = Some p -> validate p = Err e -> c' = c
  end.
Proof.
  intros Hok Hs Ho Hmax. unfold ps_bind, ps_pure, p_lift.
  pose proof (install_retention_cases name (so_create_options opts) (so_retention opts) au) as Hc.
  destruct (install_retention_policy _ _ _ _) as [o|e] eqn:Ei; [|by intros [= <- <-]].
  pose proof (install_options _ _ _ _ _ Ei Ho) as Ho'. intros E. pose proof (raw_keyspace_new env (physical_keyspace_name name) o c c') as Hnew.
  destruct (raw_keyspace_ok assigner env _ o c c' r Hok Hs Ho' Hmax E) as [Hok' Hr]. split; [done|]. destruct r as [h|e].
  - destruct Hr as [Hr Hold]. rewrite Hr. split; [intros n Hn; by rewrite lookup_insert_ne|]. split; [apply lookup_insert_eq|].
    destruct (cat_keyspaces c !! physical_keyspace_name name) as [h0|] eqn:Eh; [by apply Hold|]. exists o. split; [done|].
    by apply (Hnew h).
  - split; [by rewrite Hr|]. split; [done|]. intros p Hp Hv. destruct Hc as [[_ Hn]|(r & Hr' & Hv' & _)]; congruence.
Qed.

(** Opening a secure keyspace keeps the catalogue consistent and touches no other
    keyspace. The handle is the one of the reserved physical name, which the raw
    interface refuses; a new keyspace gets its retention policy as compaction filter,
    unless the database assigns another one. An invalid policy is reported and changes
    nothing; any other failure leaves the dictionary as it was. *)
Theorem secure_keyspace_spec security env name opts (c c' : Cat) r :
  catalog_ok c -> is_str (physical_keyspace_name name) -> options_ok (so_create_options opts) -> keyspace_id_counter c <= u64_max ->
  secure_keyspace security env name opts c = Some (c', r) ->
  catalog_ok c' /\ (forall n, n <> physical_keyspace_name name -> cat_keyspaces c' !! n = cat_keyspaces c !! n) /\
  match r with
  | Ok (h, ks) =>
      ks = mkSecureKeyspace name security (mkValueEncryption name <$> so_encryption opts) /\
      cat_keyspaces c' !! physical_keyspace_name name = Some h /\
      (forall env' o, db_keyspace assigner env' (physical_keyspace_name name) o c' = Some (c', Err ReservedKeyspaceName)) /\
      (cat_keyspaces c !! physical_keyspace_name name = None ->
       assigner ≫= (fun f => f (physical_keyspace_name name)) = None -> forall p, so_retention opts = Some p ->
       compaction_filter_factory (h_config h) = Some (retention_factory (mkSecureCompactionPolicy name p (audit security))))
  | Err e => cat_keyspaces c' = cat_keyspaces c /\ forall p, so_retention opts = Some p -> validate p = Err e -> c' = c
  end.
Proof.
  intros Hok Hs Ho Hmax E. unfold secure_keyspace in E.
  assert (exists r0, (create_options <-- ps_pure (p_lift (install_retention_policy name (so_create_options opts) (so_retention opts) (audit security))) ;;
    raw_keyspace assigner env (physical_keyspace_name name) create_options) c = Some (c', r0) /\
    is_valid_keyspace_name (physical_keyspace_name name) || negb (is_ok r0) = true /\
    r = ((fun h => (h, mkSecureKeyspace name security (mkValueEncryption name <$> so_encryption opts))) <$> r0)) as (r0 & E0 & Hv & ->).
  { revert E. unfold ps_bind, ps_pure, p_lift. destruct (install_retention_policy _ _ _ _) as [o|e].
    2: { intros [= <- <-]. exists (Err e). split_and!; [done|apply orb_true_r|done]. }
    destruct (raw_keyspace _ _ _ _ _) as [[c1 [h|e]]|] eqn:Er; intros [= <- <-]; eexists; split_and!; try done; cbn.
    - rewrite orb_false_r. unfold raw_keyspace, ps_bind at 1, ps_assert in Er. by destruct (is_valid_keyspace_name _).
    - apply orb_true_r. }
  destruct (open_physical env name opts (audit security) c c' r0 Hok Hs Ho Hmax E0) as (Hok' & Hother & Hr).
  split; [done|]. split; [done|]. destruct r0 as [h|e]; [|done]. cbn [fmap Result_fmap]. destruct Hr as [Hh Hr]. split_and!; [done|done| |].
  - intros env' o. cbn [is_ok negb] in Hv. rewrite orb_false_r in Hv. unfold db_keyspace, ps_bind, ps_assert. rewrite Hv.
    unfold is_reserved_raw_keyspace_name, physical_keyspace_name. by rewrite starts_with_app.
  - intros Hnone Has p Hp. rewrite Hnone in Hr. destruct Hr as (o & Ei & ->). unfold assign. rewrite Has.
    pose proof (install_retention_cases name (so_create_options opts) (so_retention opts) (audit security)) as Hc. rewrite Ei in Hc.
    destruct Hc as [[_ Hn]|(p' & Hp' & _ & ->)]; [congruence|]. assert (p' = p) as -> by congruence. by destruct (so_create_options opts).
Qed.

(** Distinct secure keyspaces are distinct keyspaces. *)
Lemma secure_keyspaces_distinct (c : Cat) name name' h h' :
  catalog_ok c -> cat_keyspaces c !! physical_keyspace_name name = Some h ->
  cat_keyspaces c !! physical_keyspace_name name' = Some h' -> h_id h = h_id h' -> name = name'.
Proof. intros Hok Hh Hh' E. apply physical_name_inj. by apply (known_unique c _ h _ h'). Qed.
End keyspaces.

(** ** Samples *)

Abbreviation SamplePolicy := (SecureCompactionPolicy (list (AuditEvent nat)) nat).
Definition policy_options : CreateOptions SamplePolicy :=
  default_options Byte.x07 (Leveled Byte.x04 (64 * 1024 * 1024) [0x41200000]).
Definition empty_policy_catalog : Catalog (gmap bytes bytes) SamplePolicy := mkCatalog ∅ ∅ 1 ∅ ∅ 0 0.
Definition keep_two : RetentionPolicy := mkRetentionPolicy (Some 2%nat) None.
Definition retained_options : SecureKeyspaceOptions SamplePolicy := with_retention keep_two (mkSecureKeyspaceOptions policy_options None None).
Definition open_events (c : Catalog (gmap bytes bytes) SamplePolicy) :=
  secure_keyspace None id tx_providers all_ok (s2str "events") retained_options c.

Lemma policy_options_ok : options_ok policy_options.
Proof. constructor; try done; cbn. all: repeat (split || constructor || (vm_compute; (done || lia))). Qed.

Lemma secure_keyspace_spec_witness :
  match open_events empty_policy_catalog with
  | Some (c', Ok (h, _)) => catalog_ok c' /\
      compaction_filter_factory (h_config h) = Some (mkSecureCompactionPolicy (s2str "events") keep_two (audit tx_providers))
  | _ => False
  end.
Proof.
  assert (is_ok <$> (snd <$> open_events empty_policy_catalog) = Some true) as Hopen by (vm_compute; reflexivity).
  destruct (open_events empty_policy_catalog) as [[c' r]|] eqn:E; [|discriminate Hopen].
  assert (catalog_ok empty_policy_catalog) as Hok by (constructor; cbn; try done; try (intros *; by rewrite lookup_empty)).
  assert (is_str (physical_keyspace_name (s2str "events"))) as Hs by (apply (s2str_is_str "$fjall.secure.events")).
  destruct (secure_keyspace_spec None id tx_providers all_ok (s2str "events") retained_options empty_policy_catalog c' r
    Hok Hs policy_options_ok ltac:(vm_compute; done) E) as (Hok' & _ & Hr).
  destruct r as [[h ks]|e]; [|discriminate Hopen]. destruct Hr as (_ & _ & _ & Hf). split; [done|].
  by apply (Hf (lookup_empty (M := gmap str) _) eq_refl keep_two).
Defined.

(** ** Departures *)

(** The retention policy of a keyspace does not survive a restart: recovery restores the
    keyspace without its filter, and opening it again with the same options finds it in
    the dictionary and ignores them. *)
Theorem retention_lost_after_restart :
  match open_events empty_policy_catalog with
  | Some (c, Ok (h, _)) =>
      is_Some (compaction_filter_factory (h_config h)) /\
      match recover_keyspaces None recover_env_ok (Ok [Ok (KeyspaceDir (Some 1))]) (crash c) with
      | Some (c, Ok ()) =>
          match open_events c with
          | Some (_, Ok (h', _)) => h_id h' = h_id h /\ compaction_filter_factory (h_config h') = None
          | _ => False
          end
      | _ => False
      end
  | _ => False
  end.
Proof. vm_compute. split; [by eexists|done]. Qed.
