(* ===== verification/SecureSerial.v ===== *)
(** * Secure optimistic transactions are serializable

    The transactions of [OptimisticSecureTxDatabase] ([src/src/secure/tx.rs]): opening,
    committing and rolling back. The operations of a session between opening and commit
    act as if they ran one after the other at the commit point: what the session reads,
    and what it is shown of its authorizations, is validated at the commit, also for
    records it may not see. *)

From stdpp Require Import base gmap list sorting strings.
From S2P Require Import Prelude Errors Utf8 Visibility VisibilityParse VisibilityNormal VisibilityProps.
From S2P Require Import Composite Store Cell Crypto Providers SecureKeyspace.
From S2P Require Import JournalEntry JournalReader JournalWriter SnapshotTracker BTree ConflictManager Mvcc Db DbProps WriteTx WriteTxProps KeyspaceMap Optimistic OptimisticProps SecureTx TxHandles TxHandlesProps OptimisticSerial.

#[local] Open Scope state_scope.

(** ** Transactions *)

Section transactions.
Context `{JournalCodec, PrefixRange} {T M A I : Type} `{!TreeOps T, !MemtableOps M, !TreeReads T M}.

Abbreviation Stx := (SecureWriteTransaction A I (WriteTransaction M)).

(** [OptimisticSecureTxDatabase::begin_secure_tx]; session and providers are captured. *)
Definition begin_secure_tx (manual_persist : bool) (security : SecurityProviders A I) (session : Session I) (s : OptimisticDb T) :
    OptimisticDb T * Stx :=
  let '(s, tx) := write_tx manual_persist s in (s, mkSecureWriteTransaction tx session security).

Definition secure_commit (order : SnapshotTracker -> list (Z * nat)) (tables : WriteTransaction M -> list (str * (Keyspace * M)))
    (stx : Stx) (s : OptimisticDb T) : option (OptimisticDb T * Result CommitResult) :=
  otx_commit order (tables (stx_inner stx)) (stx_inner stx) s.

Definition secure_rollback (order : SnapshotTracker -> list (Z * nat)) (stx : Stx) (s : OptimisticDb T) : OptimisticDb T :=
  otx_rollback order (stx_inner stx) s.
End transactions.

(** ** Runs of a transaction *)

Section theory.
Context `{JournalCodec, PrefixRange} {T M A I : Type}.
Context `{!TreeOps T, !TreeLaws T, !MemtableOps M, !MemtableLaws M, !TreeReads T M, !TreeReadsLaws T M}.

Abbreviation Tx := (WriteTransaction M).
Abbreviation Stx := (SecureWriteTransaction A I Tx).
Abbreviation World := (Tx * A)%type.
Abbreviation Trace := (list (SecureOp * SecureTxKeyspace * Result Response)).

(** The operations of a transaction, each at some state of the trees, which still hold
    the snapshot [snap] of the transaction. *)
Section handles.
Context (handles : Keyspace -> Prop) (handles_ok : consistent handles).

Abbreviation serves := (serves handles).

Inductive secure_run (snap : View) : Stx -> Trace -> Stx -> Prop :=
  | sr_nil s : secure_run snap s [] s
  | sr_step t op ks a a' r s s1 s' trace :
      (forall k key, snap_view t (tx_instant (inner (stx_inner s))) k key = snap k key) ->
      readable_from t (ks_id (stk_inner ks)) <= tx_instant (inner (stx_inner s)) -> tx_seqno (inner (stx_inner s)) < u64_max ->
      handles (stk_inner ks) -> Txn.run t op ks s a = (s1, a', r) -> secure_run snap s1 trace s' -> secure_run snap s ((op, ks, r) :: trace) s'.

(** The same operations one after the other on some contents: what succeeded was
    permitted and is answered from the contents at its turn. *)
Inductive serial_run (security : SecurityProviders A I) (session : Session I) : View -> Trace -> View -> Prop :=
  | se_nil v v' : same_view v v' -> serial_run security session v [] v'
  | se_ok v v1 v' op ks resp trace :
      has_keyspace_permission security (identity session) (stk_name ks) (required op) = true ->
      answers ks (auths session) op v v1 resp -> serial_run security session v1 trace v' ->
      serial_run security session v ((op, ks, Ok resp) :: trace) v'
  | se_err v v1 v' op ks e trace :
      same_view v v1 -> serial_run security session v1 trace v' -> serial_run security session v ((op, ks, Err e) :: trace) v'.

(** Only the contents matter. *)
Lemma answers_ext ks auths op (v v0 v' : View) resp : same_view v v0 -> answers ks auths op v v' resp -> answers ks auths op v0 v' resp.
Proof.
  intros E. assert (same_view v v' -> same_view v0 v') as Hsv by (intros Hs k key; by rewrite (Hs k key), (E k key)).
  assert (forall k key o, same_view (view_set keyspace_key v k key o) v' -> same_view (view_set keyspace_key v0 k key o) v') as Hset.
  { intros k key o Hs k' key'. rewrite (Hs k' key'). unfold view_set. case_decide; [done|]. by rewrite (E k' key'). }
  destruct op as [cell value|cell|prefix scan|cell]; cbn [answers].
  - intros (-> & Hc & key & stored & Hk & Hs & Hv). split_and!; [done|done|]. exists key, stored. auto.
  - intros (Hv & key & visible & o & -> & Hk & Hi & Hd). split; [auto|]. exists key, visible, o. split_and!; try done.
    by rewrite (E (stk_inner ks) key).
  - intros (Hv & es & -> & Hes & Hz). split; [auto|]. exists es. split; [done|]. split.
    + intros Hmax. destruct (Hes Hmax) as (m & l & Hm & Hl). exists m, l. split; [|done]. intros key. by rewrite (E (stk_inner ks) key).
    + intros Hmax. destruct (Hz Hmax) as (m & rg & l & Hm & Hl). exists m, rg, l. split; [|done]. intros key. by rewrite (E (stk_inner ks) key).
  - intros (-> & Hc & key & Hk & Hv). split_and!; [done|done|]. exists key. auto.
Qed.

Lemma serial_run_ext security session (v v0 v' : View) trace :
  same_view v v0 -> serial_run security session v trace v' -> serial_run security session v0 trace v'.
Proof.
  intros E Hr. destruct Hr as [v v' Hv|v v1 v' op ks resp trace Hp Ha Hr|v v1 v' op ks e trace Hv Hr].
  - constructor. intros k key. by rewrite (Hv k key), (E k key).
  - econstructor; [done| |exact Hr]. by eapply answers_ext.
  - econstructor; [|exact Hr]. intros k key. by rewrite (Hv k key), (E k key).
Qed.

(** ** The operations of a session *)

Section operations.
Context (t : T) (security : SecurityProviders A I) (session : Session I) (ks : SecureTxKeyspace).

(** An operation that succeeds is permitted and answered from the contents. *)
Definition answered (op : SecureOp) (resp : Response) (v v' : View) : Prop :=
  has_keyspace_permission security (identity session) (stk_name ks) (required op) = true /\ answers ks (auths session) op v v' resp.

Lemma insert_version_serves snap cell value (w w' : World) r :
  otx_wf w.1 -> uses handles (inner w.1) -> handles (stk_inner ks) -> tx_seqno (inner w.1) < u64_max -> Txn.insert_version (T := T) security session ks cell value w = (w', r) ->
  serves snap w.1 w'.1 r (fun _ => answered (SInsert cell value) RUnit).
Proof.
  intros Hx Hu Hk Hs [(e & -> & Ew)|[Hp [a Hm]]]%check_then; [rewrite Ew; by apply serves_err|].
  unfold st_bind, st_lift, Txn.writing in Hm.
  destruct (canonicalize_cell cell) as [c|e] eqn:Ec; [|simplify_eq; by apply serves_err].
  apply canonicalize_cell_Ok in Ec as Ec'. destruct Ec' as [-> _].
  destruct (cell_encode cell) as [key|e] eqn:Ek; [|simplify_eq; by apply serves_err].
  destruct (maybe_encrypt_value _ _ _) as [stored|e] eqn:Es; [|simplify_eq; by apply serves_err].
  simplify_eq. apply (serves_write handles handles_ok snap w.1 (stk_inner ks) key stored Value); [done..|].
  intros base v' Hv. split; [done|]. split; [done|]. split; [done|]. by exists key, stored.
Qed.

Lemma delete_version_serves snap cell (w w' : World) r :
  otx_wf w.1 -> uses handles (inner w.1) -> handles (stk_inner ks) -> tx_seqno (inner w.1) < u64_max -> Txn.delete_version (T := T) security session ks cell w = (w', r) ->
  serves snap w.1 w'.1 r (fun _ => answered (SDelete cell) RUnit).
Proof.
  intros Hx Hu Hk Hs [(e & -> & Ew)|[Hp [a Hm]]]%check_then; [rewrite Ew; by apply serves_err|].
  unfold st_bind, st_lift, Txn.writing in Hm.
  destruct (canonicalize_cell cell) as [c|e] eqn:Ec; [|simplify_eq; by apply serves_err].
  apply canonicalize_cell_Ok in Ec as Ec'. destruct Ec' as [-> _].
  destruct (cell_encode cell) as [key|e] eqn:Ek; [|simplify_eq; by apply serves_err].
  simplify_eq. apply (serves_write handles handles_ok snap w.1 (stk_inner ks) key [] Tombstone); [done..|].
  intros base v' Hv. split; [done|]. split; [done|]. split; [done|]. by exists key.
Qed.

(** A read of an optimistic transaction. *)
Lemma otx_get_cases key (x x1 : Tx) r :
  readable_from t (ks_id (stk_inner ks)) <= tx_instant (inner x) -> otx_get (stk_inner ks) key t x = (x1, r) ->
  (exists e, r = Err e /\ x1 = x) \/
  (r = Ok (overlay (snap_view t (tx_instant (inner x))) x (stk_inner ks) key) /\
   x1 = with_cm (push_read (ks_id (stk_inner ks)) (Single key)) x).
Proof.
  intros Hr. unfold otx_get. destruct (tx_get (stk_inner ks) key (inner x) t) as [o|e] eqn:E; intros [= <- <-]; [right|left; by exists e].
  split; [|done]. f_equal. by apply tx_get_view in E as ->.
Qed.

Lemma get_version_serves cell (w w' : World) r :
  otx_wf w.1 -> uses handles (inner w.1) -> readable_from t (ks_id (stk_inner ks)) <= tx_instant (inner w.1) ->
  Txn.get_version t security session ks cell w = (w', r) ->
  serves (snap_view t (tx_instant (inner w.1))) w.1 w'.1 r (fun o => answered (SGet cell) (RValue o)).
Proof.
  intros Hx Hu Hready [(e & -> & Ew)|[Hp [a Hm]]]%check_then; [rewrite Ew; by apply serves_err|].
  unfold st_bind, st_lift, st_ret, Txn.reading in Hm.
  destruct (cell_encode cell) as [key|e] eqn:Ek; [|simplify_eq; by apply serves_err].
  cbn [txo_get optimistic_transaction] in Hm. destruct (otx_get _ key t w.1) as [x1 r1] eqn:Eg.
  destruct (otx_get_cases key w.1 x1 r1 Hready Eg) as [(e & -> & ->)|[-> ->]]; [simplify_eq; by apply serves_err|].
  set (snap := snap_view t (tx_instant (inner w.1))) in *.
  assert (w'.1 = with_cm (push_read (ks_id (stk_inner ks)) (Single key)) w.1 /\
    (forall o, r = Ok o -> exists visible, is_visible (c_visibility (vc_cell cell)) (auths session) = Ok visible /\
      decrypted (stk_encryption ks) key (if visible then overlay snap w.1 (stk_inner ks) key else None) o)) as [-> Hres].
  { destruct (is_visible _ _) as [visible|e]; [|by simplify_eq]. destruct visible; simpl in Hm.
    - destruct (overlay snap w.1 (stk_inner ks) key) as [stored|]; [|simplify_eq; split; [done|]; intros o [= <-]; by exists true].
      destruct (maybe_decrypt_entry _ _ _) as [v|e] eqn:Ed; simplify_eq; (split; [done|]); [|done].
      intros o [= <-]. exists true. split; [done|]. by exists v.
    - simplify_eq. split; [done|]. intros o [= <-]. by exists false. }
  apply serves_marked; [done|done|done|]. intros base o -> _ Hagree. destruct (Hres o eq_refl) as (visible & Hv & Hd).
  split; [done|]. split; [done|]. exists key, visible, o. split_and!; try done.
  assert (overlay snap w.1 (stk_inner ks) key = overlay base w.1 (stk_inner ks) key) as <-; [|done].
  unfold overlay. destruct (own_value _ _ _); [done|]. apply Hagree; [done|]. by apply bool_decide_eq_true.
Qed.

Lemma scan_serves prefix scan (w w' : World) r :
  otx_wf w.1 -> uses handles (inner w.1) -> readable_from t (ks_id (stk_inner ks)) <= tx_instant (inner w.1) ->
  Txn.scan_versioned_prefix t security session ks prefix scan w = (w', r) ->
  serves (snap_view t (tx_instant (inner w.1))) w.1 w'.1 r (fun es => answered (SScan prefix scan) (REntries es)).
Proof.
  intros Hx Hu Hready [(e & -> & Ew)|[Hp [a Hm]]]%check_then; [rewrite Ew; by apply serves_err|].
  unfold st_bind, st_lift, Txn.reading in Hm.
  destruct (range prefix) as [rg|e] eqn:Er; [|simplify_eq; by apply serves_err].
  cbn [txo_range optimistic_transaction otx_range] in Hm. simplify_eq. destruct (range_inhabited _ _ Er) as [k0 Hk0].
  unfold mark_range. apply serves_marked; [done|done|by eapply inhabited_valid|].
  intros base es Hes Hfin Hagree. split; [done|]. split; [done|]. exists es. split; [done|].
  destruct (scans_overlay t w.1 Hx base (stk_inner ks) rg Hready (Hfin (stk_inner ks))) as (m & l & Hm & Hl & Hd).
  { intros key. by apply Hagree. }
  change (is_satisfied_by scan) with (reaches (max_versions scan)) in Hes. split; intros Hmax.
  - exists m, (omap (selected (Txn.step (stk_encryption ks) (auths session) scan)) l). split; [done|]. split_and!.
    + by apply (selected_sorted (mkSecureKeyspace (stk_name ks) security (stk_encryption ks)) session scan l), Hl.
    + intros e. exact (selected_readable (mkSecureKeyspace (stk_name ks) security (stk_encryption ks)) session prefix scan rg m l e Er Hl).
    + apply (scan_loop_Ok _ _ _ l []) in Hes; [done|done|]. by destruct (max_versions scan) as [[]|].
  - rewrite Hmax in Hes. exists m, rg, l. split_and!; [done|done|done|]. by eapply scan_loop_zero.
Qed.
End operations.

Lemma run_serves t op ks (s s1 : Stx) a a' r :
  otx_wf (stx_inner s) -> uses handles (inner (stx_inner s)) -> handles (stk_inner ks) -> tx_seqno (inner (stx_inner s)) < u64_max ->
  readable_from t (ks_id (stk_inner ks)) <= tx_instant (inner (stx_inner s)) -> Txn.run t op ks s a = (s1, a', r) ->
  stx_session s1 = stx_session s /\ stx_security s1 = stx_security s /\
  serves (snap_view t (tx_instant (inner (stx_inner s)))) (stx_inner s) (stx_inner s1) r
    (answered (stx_security s) (stx_session s) ks op).
Proof.
  intros Hx Hu Hk Hs Hready. unfold Txn.run. cbv zeta.
  enough (forall m : StateR World Response, (forall w' r', m (stx_inner s, a) = (w', r') ->
      serves (snap_view t (tx_instant (inner (stx_inner s)))) (stx_inner s) w'.1 r' (answered (stx_security s) (stx_session s) ks op)) ->
    (let '((x, a), r) := m (stx_inner s, a) in (mkSecureWriteTransaction x (stx_session s) (stx_security s), a, r)) = (s1, a', r) ->
    stx_session s1 = stx_session s /\ stx_security s1 = stx_security s /\
    serves (snap_view t (tx_instant (inner (stx_inner s)))) (stx_inner s) (stx_inner s1) r (answered (stx_security s) (stx_session s) ks op)) as Hlift.
  { apply Hlift. intros w' r'. destruct op as [cell value|cell|prefix scan|cell]; intros (r0 & Hm & ->)%bind_ret.
    - apply (insert_version_serves _ _ _ (snap_view t (tx_instant (inner (stx_inner s))))) in Hm; [|done..]. revert Hm. by apply serves_fmap.
    - apply get_version_serves in Hm; [|done..]. revert Hm. by apply serves_fmap.
    - apply scan_serves in Hm; [|done..]. revert Hm. by apply serves_fmap.
    - apply (delete_version_serves _ _ _ (snap_view t (tx_instant (inner (stx_inner s))))) in Hm; [|done..]. revert Hm. by apply serves_fmap. }
  intros m Hm. destruct (m (stx_inner s, a)) as [[x1 a1] r1] eqn:E. intros [= <- <- <-]. split_and!; [done|done|]. by apply (Hm _ _ eq_refl).
Qed.

(** ** Whole transactions *)

Lemma secure_run_serial snap (s s' : Stx) trace :
  secure_run snap s trace s' -> otx_wf (stx_inner s) -> uses handles (inner (stx_inner s)) ->
  otx_wf (stx_inner s') /\ uses handles (inner (stx_inner s')) /\ reads_grow (stx_inner s) (stx_inner s') /\ tx_instant (inner (stx_inner s')) = tx_instant (inner (stx_inner s)) /\
  forall base : View, (forall x (ks : Keyspace), otx_wf x -> exists m : gmap bytes bytes, forall key, m !! key = overlay base x ks key) ->
    (forall (ks : Keyspace) key, recorded (stx_inner s') (ks_id ks) key -> snap ks key = base ks key) ->
    serial_run (stx_security s) (stx_session s) (overlay base (stx_inner s)) trace (overlay base (stx_inner s')).
Proof.
  induction 1 as [s|t op ks a a' r s s1 s' trace Hsnap Hready Hs Hk Hrun _ IH]; intros Hx Hu.
  { split_and!; [done|done|by intros ? ? ?|done|]. intros base _ _. by constructor. }
  destruct (run_serves t op ks s s1 a a' r Hx Hu Hk Hs Hready Hrun) as (Hses & Hsec & Hserve).
  apply (serves_ext handles _ snap) in Hserve; [|done]. destruct Hserve as (Hx1 & Hu1 & Hg1 & Hi1 & Hr).
  destruct (IH Hx1 Hu1) as (Hx' & Hu' & Hg & Hi & Hrest). split_and!; [done|done|intros k rd Hin; by apply Hg, Hg1|congruence|].
  intros base Hfin Hagree.
  assert (forall (k : Keyspace) key, recorded (stx_inner s1) (ks_id k) key -> snap k key = base k key) as Hagree1.
  { intros k key Hrec. apply Hagree. by eapply recorded_grow. }
  specialize (Hr base (fun k => Hfin _ k Hx1) Hagree1). specialize (Hrest base Hfin Hagree). rewrite Hses, Hsec in Hrest.
  destruct r as [resp|e]; [destruct Hr; by econstructor|by econstructor].
Qed.

End handles.

Section commit.
Context (order : SnapshotTracker -> list (Z * nat)) (tables : Tx -> list (str * (Keyspace * M))) (manual : bool).
Context (tables_perm : forall tx, tables tx ≡ₚ map_to_list (memtables (inner tx))).

End commit.
End theory.

(** ** Samples *)

(** The guest looks for a record of the administrators and writes one of its own. *)
Definition guest_begin := begin_secure_tx (T := history) (M := list MItem) false tx_providers guest_session sample_opt.
Definition guest_look := Txn.run ([] : history) (SGet (labelled "admin" 9)) tx_secure_keyspace guest_begin.2 [].
Definition guest_write := Txn.run ([] : history) (SInsert (labelled "" 9) [Byte.x63]) tx_secure_keyspace guest_look.1.1 [].
Definition guest_trace : list (SecureOp * SecureTxKeyspace * Result Response) :=
  [(SGet (labelled "admin" 9), tx_secure_keyspace, guest_look.2); (SInsert (labelled "" 9) [Byte.x63], tx_secure_keyspace, guest_write.2)].
Definition guest_commit := secure_commit no_order otx_tables guest_write.1.1 sample_opt.

Lemma guest_run : secure_run (eq sample_keyspace) (contents sample_opt) guest_begin.2 guest_trace guest_write.1.1.
Proof.
  eapply (sr_step _ _ []); [by intros| | |done|apply surjective_triple|]; [vm_compute; done|vm_compute; done|].
  eapply (sr_step _ _ []); [by intros| | |done|apply surjective_triple|apply sr_nil]; vm_compute; done.
Qed.

