(* ===== verification/SecureSw.v ===== *)
(** * Secure single-writer transactions

    The transactions of [SingleWriterSecureTxDatabase] ([src/src/secure/tx.rs]). A
    transaction holds the writer lock from its opening to its end, so that a whole
    transaction is one atomic step: its operations act like the same secure operations
    one after the other on the contents at that moment. *)

From stdpp Require Import base gmap list sorting strings.
From S2P Require Import Prelude Errors Utf8 Visibility VisibilityParse VisibilityNormal VisibilityProps.
From S2P Require Import Composite Store Cell Crypto Providers SecureKeyspace.
From S2P Require Import JournalEntry JournalReader JournalWriter SnapshotTracker BTree ConflictManager Mvcc Db DbProps WriteTx WriteTxProps KeyspaceMap Optimistic OptimisticProps SecureTx TxHandles TxHandlesProps OptimisticSerial SecureSerial.

#[local] Open Scope state_scope.

(** ** Transactions *)

Section transactions.
Context `{JournalCodec, PrefixRange} {T M A I : Type} `{!TreeOps T, !MemtableOps M, !TreeReads T M}.
Context (order : SnapshotTracker -> list (Z * nat)) (tables : BaseTransaction M -> list (str * (Keyspace * M))) (manual : bool).

Abbreviation Stx := (SecureWriteTransaction A I (BaseTransaction M)).

(** [SingleWriterSecureTxDatabase::begin_secure_tx], once the writer lock is held. *)
Definition sw_begin_secure_tx (security : SecurityProviders A I) (session : Session I) (db : Database T) : Database T * Stx :=
  let '(db, tx) := sw_write_tx manual db in (db, mkSecureWriteTransaction tx session security).

Definition sw_secure_commit (stx : Stx) (db : Database T) : option (Database T * Result ()) := sw_commit order tables (stx_inner stx) db.
Definition sw_secure_rollback (stx : Stx) (db : Database T) : Database T := sw_rollback order (stx_inner stx) db.

(** The operations of a session, which goes on after one that failed. *)
Fixpoint run_all (t : T) (ops : list (SecureOp * SecureTxKeyspace)) (stx : Stx) (a : A) : Stx * A * list (Result Response) :=
  match ops with
  | [] => (stx, a, [])
  | (op, ks) :: ops =>
      let '(stx, a, r) := Txn.run t op ks stx a in
      let '(stx, a, rs) := run_all t ops stx a in
      (stx, a, r :: rs)
  end.

(** A whole transaction: opened, used and committed or rolled back. *)
Definition sw_secure_tx (commits : bool) (ops : list (SecureOp * SecureTxKeyspace)) (security : SecurityProviders A I) (session : Session I)
    (db : Database T) (a : A) : option (Database T * A * (list (Result Response) * Result ())) :=
  let '(db, stx) := sw_begin_secure_tx security session db in
  let '(stx, a, rs) := run_all (db_trees db) ops stx a in
  if commits then
    '(db, r) ← sw_secure_commit stx db;
    Some (db, a, (rs, r))
  else Some (sw_secure_rollback stx db, a, (rs, Ok ())).
End transactions.

Section theory.
Context `{JournalCodec, PrefixRange} {T M A I : Type}.
Context `{!TreeOps T, !TreeLaws T, !MemtableOps M, !MemtableLaws M, !TreeReads T M, !TreeReadsLaws T M}.

Abbreviation Base := (BaseTransaction M).
Abbreviation Stx := (SecureWriteTransaction A I Base).

(** ** One operation *)

(** The values an operation stores fit into a journal entry; its keys always do. *)
Definition stores_fit (op : SecureOp) (ks : SecureTxKeyspace) : Prop :=
  match op with
  | SInsert cell value => forall key stored, cell_encode cell = Ok key ->
      maybe_encrypt_value (stk_encryption ks) key value = Ok stored -> Z.of_nat (length stored) <= u32_max
  | _ => True
  end.

Lemma encoded_key_fits cell key value : cell_encode cell = Ok key -> Z.of_nat (length value) <= u32_max -> fits key value.
Proof. intros [-> Hl]%encode_Ok Hv. by split. Qed.

(** An operation writes at most once. *)
Definition writes_once (ks : SecureTxKeyspace) (x x' : Base) : Prop :=
  x' = x \/ exists key value vt, vt <> Indirection /\ fits key value /\ x' = tx_write (stk_inner ks) key value vt x.

Lemma insert_writes security session ks cell value (w w' : Base * A) (r : Result ()) :
  stores_fit (SInsert cell value) ks -> Txn.insert_version (T := T) (I := I) security session ks cell value w = (w', r) -> writes_once ks w.1 w'.1.
Proof.
  intros Hf [(e & _ & ->)|[_ [a Hm]]]%check_then; [by left|]. unfold st_bind, st_lift, Txn.writing in Hm.
  destruct (canonicalize_cell cell) as [c|e] eqn:Ec; [|simplify_eq; by left]. apply canonicalize_cell_Ok in Ec as [-> _].
  destruct (cell_encode cell) as [key|e] eqn:Ek; [|simplify_eq; by left].
  destruct (maybe_encrypt_value _ _ _) as [stored|e] eqn:Es; simplify_eq; [right|by left].
  exists key, stored, Value. split_and!; [done| |done]. eapply encoded_key_fits; [exact Ek|by eapply Hf].
Qed.

Lemma delete_writes security session ks cell (w w' : Base * A) (r : Result ()) :
  Txn.delete_version (T := T) (I := I) security session ks cell w = (w', r) -> writes_once ks w.1 w'.1.
Proof.
  intros [(e & _ & ->)|[_ [a Hm]]]%check_then; [by left|]. unfold st_bind, st_lift, Txn.writing in Hm.
  destruct (canonicalize_cell cell) as [c|e] eqn:Ec; [|simplify_eq; by left]. apply canonicalize_cell_Ok in Ec as [-> _].
  destruct (cell_encode cell) as [key|e] eqn:Ek; simplify_eq; [right|by left].
  exists key, [], Tombstone. split_and!; [done| |done]. by eapply encoded_key_fits.
Qed.

Lemma get_writes_nothing (t : T) security session ks cell (w w' : Base * A) r :
  Txn.get_version (I := I) t security session ks cell w = (w', r) -> w'.1 = w.1.
Proof.
  intros [(e & _ & ->)|[_ [a Hm]]]%check_then; [done|]. unfold st_bind, st_lift, st_ret, Txn.reading in Hm.
  destruct (cell_encode cell) as [key|e]; [|by simplify_eq]. cbn [txo_get base_transaction] in Hm.
  destruct (tx_get _ _ _ _) as [o|e]; [|by simplify_eq]. destruct (is_visible _ _) as [visible|e]; [|by simplify_eq].
  destruct visible; cbn in Hm; [|by simplify_eq].
  destruct o as [stored|]; [|by simplify_eq]. destruct (maybe_decrypt_entry _ _ _); by simplify_eq.
Qed.

Lemma scan_writes_nothing (t : T) security session ks prefix scan (w w' : Base * A) r :
  Txn.scan_versioned_prefix (I := I) t security session ks prefix scan w = (w', r) -> w'.1 = w.1.
Proof.
  intros [(e & _ & ->)|[_ [a Hm]]]%check_then; [done|]. unfold st_bind, st_lift, Txn.reading in Hm.
  destruct (range prefix) as [rg|e]; [|by simplify_eq]. cbn [txo_range base_transaction] in Hm. by simplify_eq.
Qed.

Lemma run_writes_once (t : T) op ks (s s1 : Stx) a a1 r :
  stores_fit op ks -> Txn.run t op ks s a = (s1, a1, r) -> writes_once ks (stx_inner s) (stx_inner s1).
Proof.
  intros Hf. unfold Txn.run. cbv zeta.
  enough (forall m : StateR (Base * A) Response, (forall w' r', m (stx_inner s, a) = (w', r') -> writes_once ks (stx_inner s) w'.1) ->
    (let '((x, a), r) := m (stx_inner s, a) in (mkSecureWriteTransaction x (stx_session s) (stx_security s), a, r)) = (s1, a1, r) ->
    writes_once ks (stx_inner s) (stx_inner s1)) as Hlift.
  { apply Hlift. intros w' r'. destruct op as [cell value|cell|prefix scan|cell]; intros (r0 & Hm & _)%bind_ret.
    - by apply insert_writes in Hm.
    - left. by apply get_writes_nothing in Hm.
    - left. by apply scan_writes_nothing in Hm.
    - by apply delete_writes in Hm. }
  intros m Hm. destruct (m (stx_inner s, a)) as [[x1 a2] r2] eqn:E. intros [= <- <- <-]. by apply (Hm _ _ eq_refl).
Qed.

Lemma writes_once_keeps ks (x x' : Base) :
  writes_once ks x x' -> tx_wf x -> tx_fits x -> tx_instant x' = tx_instant x /\ tx_seqno x' <= tx_seqno x + 1 /\ tx_fits x'.
Proof.
  intros [-> |(key & value & vt & _ & Hkv & ->)] Hwf Hf; [split_and!; [done|lia|done]|].
  split_and!; [by rewrite tx_write_tables|rewrite tx_write_tables; done|by apply tx_write_fits].
Qed.

Lemma writes_once_uses handles ks (x x' : Base) : handles (stk_inner ks) -> writes_once ks x x' -> uses handles x -> uses handles x'.
Proof. intros Hk [-> |(key & value & vt & _ & _ & ->)] Hu; [done|by apply uses_write]. Qed.

(** ** Whole transactions *)

Lemma run_all_serial handles (t : T) ops (s s' : Stx) a a' rs :
  Forall (fun p => stores_fit p.1 p.2 /\ handles (stk_inner p.2)) ops -> (forall ks, readable_from t ks <= tx_instant (stx_inner s)) ->
  tx_wf (stx_inner s) -> uses handles (stx_inner s) -> tx_fits (stx_inner s) -> tx_seqno (stx_inner s) + Z.of_nat (length ops) <= u64_max ->
  run_all t ops s a = (s', a', rs) ->
  tx_wf (stx_inner s') /\ uses handles (stx_inner s') /\ tx_fits (stx_inner s') /\ tx_instant (stx_inner s') = tx_instant (stx_inner s) /\
  serial_run (stx_security s) (stx_session s) (tx_view (stx_inner s) t) (zip_with (fun p r => (p.1, p.2, r)) ops rs) (tx_view (stx_inner s') t).
Proof.
  intros Hops. revert s a rs. induction Hops as [|[op ks] ops [Hop Hk] _ IH]; intros s a rs Hread Hwf Hu Hf Hroom; cbn [run_all].
  { intros [= <- <- <-]. split_and!; [done|done|done|done|]. by constructor. }
  destruct (Txn.run t op ks s a) as [[s1 a1] r] eqn:E1. destruct (run_all t ops s1 a1) as [[s2 a2] rs1] eqn:E2. intros [= <- <- <-].
  cbn [length] in Hroom. pose proof (run_writes_once t op ks s s1 a a1 r Hop E1) as Honce.
  pose proof (writes_once_keeps _ _ _ Honce Hwf Hf) as (Hi & Hs & Hf1). pose proof (writes_once_uses handles ks _ _ Hk Honce Hu) as Hu1.
  destruct (secure_tx_refines (TransactionLaws0 := base_transaction_laws) t op ks s s1 a a1 r Hwf ltac:(cbn; lia) (Hread _) Logic.I E1) as (Hses & Hsec & Hwf1 & Hr).
  destruct (IH s1 a1 rs1 ltac:(by rewrite Hi) Hwf1 Hu1 Hf1 ltac:(lia) E2) as (Hwf2 & Hu2 & Hf2 & Hi2 & Hser). rewrite Hses, Hsec in Hser.
  split_and!; [done|done|done|congruence|]. cbn [zip_with fst snd]. destruct r as [resp|e]; [destruct Hr; by econstructor|by econstructor].
Qed.

Section serial.
Context (order : SnapshotTracker -> list (Z * nat)) (tables : Base -> list (str * (Keyspace * M))) (manual : bool).
Context (tables_perm : forall tx, tables tx ≡ₚ map_to_list (memtables tx)).

(** C11: Secure single-writer transactions are serial. A transaction whose stored values fit
    into a journal entry does not panic and returns (apart from the write stall behind the
    commit, see [Db]): its operations that succeed are permitted and answered as if all had
    run one after the other on the contents at its opening, the failed ones doing nothing, and
    a successful commit leaves exactly what they leave in the keyspaces of its handles and
    the other keyspaces as they were; a rollback or a failed commit leaves all contents as
    they were. The handles of a transaction do not mix up keyspaces of one name. *)
Theorem sw_secure_serial handles commits ops (security : SecurityProviders A I) session (db : Database T) a :
  consistent handles -> Forall (fun p => stores_fit p.1 p.2 /\ handles (stk_inner p.2)) ops -> 2 ^ 63 + Z.of_nat (length ops) <= u64_max ->
  db_ok db -> db_seqno db < u64_max -> readable db ->
  exists db' a' rs r v, sw_secure_tx order tables manual commits ops security session db a = Some (db', a', (rs, r)) /\ db_ok db' /\
    serial_run security session (cur_view db) (zip_with (fun p r => (p.1, p.2, r)) ops rs) v /\
    (forall ks key, handles ks -> cur_view db' ks key = if commits && is_ok r then v ks key else cur_view db ks key) /\
    forall ks key, commits && is_ok r = false \/ (forall h, handles h -> ks_id h <> ks_id ks) -> cur_view db' ks key = cur_view db ks key.
Proof.
  intros Hcon Hops Hroom Hok Hmax Hread. assert (seqno (db_tracker db) <= u64_max) as Hle by (destruct Hok; lia).
  pose proof (sw_write_tx_view manual db Hok Hle) as Hopen. unfold sw_secure_tx, sw_begin_secure_tx.
  destruct (sw_write_tx manual db) as [db1 tx]. destruct Hopen as (Hok1 & Ht1 & Hq1 & Hwf & Hm & Hfit & Hseq & Hinst & Hview). rewrite Ht1.
  destruct (run_all _ ops _ a) as [[s' a'] rs] eqn:E.
  destruct (run_all_serial handles (db_trees db) ops (mkSecureWriteTransaction tx session security) s' a a' rs Hops ltac:(intros ks; cbn; by rewrite Hinst)
    Hwf (uses_empty _ tx Hm) Hfit ltac:(cbn [stx_inner]; lia) E) as (Hwf' & Hu' & Hfit' & Hi' & Hser). cbn [stx_inner stx_security stx_session] in *.
  apply (serial_run_ext _ _ _ (cur_view db)) in Hser; [|intros ks key; symmetry; by apply Hview].
  assert (forall ks key, cur_view db1 ks key = cur_view db ks key) as Hdb1 by (intros ks key; unfold cur_view, current; by rewrite Ht1).
  destruct commits; cbn [andb].
  - unfold sw_secure_commit, sw_commit, inner_commit.
    destruct (tx_commit_total (tables (stx_inner s')) (stx_inner s') db1 Hfit' (tables_perm _)) as (db2 & r & Ec). rewrite Ec. cbn [mbind option_bind].
    destruct (commit_contents _ _ _ _ _ Hwf' (uses_distinct handles Hcon _ Hwf' Hu') (tables_perm _) Hok1 ltac:(lia) Ec) as [Hok2 Hcur].
    eexists _, _, _, _, _. split; [done|]. split; [by apply drop_nonce_ok|]. split; [exact Hser|].
    assert (forall ks key, cur_view (drop_nonce order (tx_instant (stx_inner s')) db2) ks key = cur_view db2 ks key) as Hdrop by done.
    split; intros ks key Hks; rewrite Hdrop, Hcur, Hdb1.
    + destruct (is_ok r); [|done]. rewrite (committed_uses handles Hcon) by done. unfold tx_view. destruct (own_value ks key (stx_inner s')); [done|].
      rewrite Hi', Hinst. symmetry. by apply visible_current.
    + destruct (is_ok r); [|done]. destruct Hks as [?|Hks]; [done|]. by rewrite (committed_other handles Hcon).
  - eexists _, _, _, _, _. split; [done|]. split; [by apply drop_nonce_ok|]. split; [exact Hser|].
    split; intros ks key _; apply Hdb1.
Qed.
End serial.
End theory.

(** ** A sample: the guest may not delete, and sees its own write *)

Definition guest_ops : list (SecureOp * SecureTxKeyspace) :=
  [(SInsert (labelled "" 9) [Byte.x63], tx_secure_keyspace); (SDelete (labelled "" 9), tx_secure_keyspace); (SGet (labelled "" 9), tx_secure_keyspace)].

Lemma guest_ops_fit : Forall (fun p => stores_fit p.1 p.2 /\ sample_keyspace = stk_inner p.2) guest_ops.
Proof.
  constructor; [|repeat constructor]. split; [|done]. intros key stored Hk Hs. vm_compute in Hk. injection Hk as <-. vm_compute in Hs. injection Hs as <-. vm_compute. discriminate.
Qed.

Lemma sw_secure_serial_witness :
  exists db' a' rs v, sw_secure_tx (T := history) no_order sw_tables false true guest_ops tx_providers guest_session (sample_db []) [] = Some (db', a', (rs, Ok ())) /\
    is_ok <$> rs = [true; false; true] /\ last rs = Some (Ok (RValue (Some [Byte.x63]))) /\
    serial_run tx_providers guest_session (cur_view (sample_db [])) (zip_with (fun p r => (p.1, p.2, r)) guest_ops rs) v /\
    forall key, cur_view db' sample_keyspace key = v sample_keyspace key.
Proof.
  destruct (sw_secure_serial no_order sw_tables false (fun tx => Permutation_refl _) (eq sample_keyspace) true guest_ops tx_providers guest_session (sample_db []) []
    (consistent_one _) guest_ops_fit ltac:(vm_compute; discriminate) (sample_db_ok []) ltac:(vm_compute; done) ltac:(apply readable_hist; vm_compute; done))
    as (db' & a' & rs & r & v & E & _ & Hser & Hv & _).
  assert ((fun p => (is_ok <$> p.2.1, last p.2.1, p.2.2)) <$> sw_secure_tx (T := history) no_order sw_tables false true guest_ops tx_providers guest_session (sample_db []) []
    = Some ([true; false; true], Some (Ok (RValue (Some [Byte.x63]))), Ok ())) as Hc by (vm_compute; reflexivity).
  rewrite E in Hc. cbn in Hc. injection Hc as Hc1 Hc2 Hc3. subst r. exists db', a', rs, v. split_and!; [exact E|exact Hc1|exact Hc2|exact Hser|]. intros key. by apply Hv.
Defined.
