(* ===== verification/Version.v ===== *)
(** * The disk format version

    Models [src/src/version.rs] and [Database::check_version] ([src/src/db.rs]) on the
    bytes of the version marker. *)

From stdpp Require Import base list.
From S2P Require Import Prelude Errors.

(** [u8::from(FormatVersion)] and [FormatVersion::try_from(u8)]. *)
Definition u8_from (v : FormatVersion) : byte :=
  match v with V1 => Byte.x01 | V2 => Byte.x02 | V3 => Byte.x03 end.

Definition version_try_from (value : byte) : option FormatVersion :=
  match value with
  | Byte.x01 => Some V1
  | Byte.x02 => Some V2
  | Byte.x03 => Some V3
  | _ => None
  end.

(** [*b"FJL"]. *)
Definition VERSION_MAGIC : bytes := [Byte.x46; Byte.x4a; Byte.x4c].

Definition parse_file_header (bs : bytes) : option FormatVersion :=
  if decide (length bs < 3)%nat then None
  else if decide (take 3 bs = VERSION_MAGIC) then bs !! 3%nat ≫= version_try_from
  else None.

(** What [write_file_header] writes, in two calls. *)
Definition file_header (v : FormatVersion) : bytes := VERSION_MAGIC ++ [u8_from v].

(** The verdict of [check_version] on the contents of the marker. *)
Definition check_version (contents : bytes) : Result () :=
  match parse_file_header contents with
  | Some version => if decide (version = V3) then Ok () else Err (InvalidVersion (Some version))
  | None => Err (InvalidVersion None)
  end.

Lemma version_u8_roundtrip v : version_try_from (u8_from v) = Some v.
Proof. by destruct v. Qed.

Lemma u8_version_roundtrip b v : version_try_from b = Some v -> u8_from v = b.
Proof. destruct b; cbn; intros; simplify_eq; done. Qed.

(** A marker is read as a version iff it begins with the header of that version. *)
Lemma parse_file_header_spec bs v : parse_file_header bs = Some v <-> file_header v `prefix_of` bs.
Proof.
  unfold parse_file_header, file_header. split.
  - case_decide as Hl; [done|]. destruct bs as [|a [|b [|c rest]]]; [destruct Hl; cbn; lia..|]. cbn [take].
    case_decide as E; [|done]. injection E as -> -> ->.
    destruct rest as [|x rest]; cbn; [done|]. intros <-%u8_version_roundtrip. by exists rest.
  - intros [rest ->]. rewrite decide_False by (cbn; lia). cbn. apply version_u8_roundtrip.
Qed.

Lemma check_version_Ok contents : check_version contents = Ok () <-> file_header V3 `prefix_of` contents.
Proof.
  rewrite <- parse_file_header_spec. unfold check_version. destruct (parse_file_header contents) as [v|]; [|done].
  case_decide; naive_solver.
Qed.

Lemma check_version_Err contents e : check_version contents = Err e -> e = InvalidVersion (parse_file_header contents).
Proof. unfold check_version. destruct (parse_file_header contents); [case_decide|]; naive_solver. Qed.

(** A header that was cut off is no version. *)
Lemma torn_header_invalid v n : (n < 4)%nat -> parse_file_header (take n (file_header v)) = None.
Proof. intros Hn. do 4 (destruct n as [|n]; [by destruct v; vm_compute|]). lia. Qed.
