(* ===== verification/DbConfig.v ===== *)
(** * The database configuration and its builder

    Models [src/src/db_config.rs] and the setters of [src/src/builder.rs]. Caches and
    descriptor tables are their capacities; the path is the folder of [Opening]. A
    failed assertion is [None]. *)

From stdpp Require Import base list.
From S2P Require Import Prelude Errors Utf8 Panic.

Record Config (F : Type) := mkConfig {
  clean_path_on_drop : bool;
  cache : Z;
  descriptor_table : option Z;
  max_journaling_size_in_bytes : Z;
  max_write_buffer_size_in_bytes : option Z;
  cfg_manual_journal_persist : bool;
  worker_threads : Z;
  journal_compression_type : CompressionType;
  journal_compression_threshold : Z;
  compaction_filter_factory_assigner : option (str -> option F)
}.
Arguments mkConfig {F}.
Arguments clean_path_on_drop {F}.
Arguments cache {F}.
Arguments descriptor_table {F}.
Arguments max_journaling_size_in_bytes {F}.
Arguments max_write_buffer_size_in_bytes {F}.
Arguments cfg_manual_journal_persist {F}.
Arguments worker_threads {F}.
Arguments journal_compression_type {F}.
Arguments journal_compression_threshold {F}.
Arguments compaction_filter_factory_assigner {F}.

Definition DEFAULT_CPU_CORES : Z := 4.
Definition MIB : Z := 1024 * 1024.

Section builder.
Context {F : Type}.

(** [Config::new]; [queried_cores] is what [available_parallelism] answers,
    [default_compression] what the feature [lz4] selects and [open_file_limit] what the
    platform does. *)
Definition config_new (queried_cores : option Z) (default_compression : CompressionType) (open_file_limit : Z) : Config F :=
  mkConfig false (32 * MIB) (Some open_file_limit) (512 * MIB) None false (Z.min (default 1 queried_cores) DEFAULT_CPU_CORES)
    default_compression 4096 None.

Definition cache_size (size_bytes : Z) (c : Config F) : Config F :=
  mkConfig (clean_path_on_drop c) size_bytes (descriptor_table c) (max_journaling_size_in_bytes c) (max_write_buffer_size_in_bytes c)
    (cfg_manual_journal_persist c) (worker_threads c) (journal_compression_type c) (journal_compression_threshold c)
    (compaction_filter_factory_assigner c).
Definition journal_compression (comp : CompressionType) (c : Config F) : Config F :=
  mkConfig (clean_path_on_drop c) (cache c) (descriptor_table c) (max_journaling_size_in_bytes c) (max_write_buffer_size_in_bytes c)
    (cfg_manual_journal_persist c) (worker_threads c) comp (journal_compression_threshold c) (compaction_filter_factory_assigner c).
Definition builder_manual_journal_persist (flag : bool) (c : Config F) : Config F :=
  mkConfig (clean_path_on_drop c) (cache c) (descriptor_table c) (max_journaling_size_in_bytes c) (max_write_buffer_size_in_bytes c)
    flag (worker_threads c) (journal_compression_type c) (journal_compression_threshold c) (compaction_filter_factory_assigner c).
Definition worker_threads_unchecked (n : Z) (c : Config F) : Config F :=
  mkConfig (clean_path_on_drop c) (cache c) (descriptor_table c) (max_journaling_size_in_bytes c) (max_write_buffer_size_in_bytes c)
    (cfg_manual_journal_persist c) n (journal_compression_type c) (journal_compression_threshold c) (compaction_filter_factory_assigner c).
Definition set_worker_threads (n : Z) (c : Config F) : option (Config F) :=
  if decide (0 < n) then Some (worker_threads_unchecked n c) else None.
Definition max_cached_files (n : option Z) (c : Config F) : Config F :=
  mkConfig (clean_path_on_drop c) (cache c) n (max_journaling_size_in_bytes c) (max_write_buffer_size_in_bytes c)
    (cfg_manual_journal_persist c) (worker_threads c) (journal_compression_type c) (journal_compression_threshold c)
    (compaction_filter_factory_assigner c).
Definition max_journaling_size (size : Z) (c : Config F) : option (Config F) :=
  if decide (64 * 1024 * 1024 <= size) then
    Some (mkConfig (clean_path_on_drop c) (cache c) (descriptor_table c) size (max_write_buffer_size_in_bytes c)
      (cfg_manual_journal_persist c) (worker_threads c) (journal_compression_type c) (journal_compression_threshold c)
      (compaction_filter_factory_assigner c))
  else None.
Definition max_write_buffer_size (size : option Z) (c : Config F) : option (Config F) :=
  if match size with Some size => bool_decide (1024 * 1024 <= size) | None => true end then
    Some (mkConfig (clean_path_on_drop c) (cache c) (descriptor_table c) (max_journaling_size_in_bytes c) size
      (cfg_manual_journal_persist c) (worker_threads c) (journal_compression_type c) (journal_compression_threshold c)
      (compaction_filter_factory_assigner c))
  else None.
Definition temporary (flag : bool) (c : Config F) : Config F :=
  mkConfig flag (cache c) (descriptor_table c) (max_journaling_size_in_bytes c) (max_write_buffer_size_in_bytes c)
    (cfg_manual_journal_persist c) (worker_threads c) (journal_compression_type c) (journal_compression_threshold c)
    (compaction_filter_factory_assigner c).
Definition with_compaction_filter_factories (f : str -> option F) (c : Config F) : Config F :=
  mkConfig (clean_path_on_drop c) (cache c) (descriptor_table c) (max_journaling_size_in_bytes c) (max_write_buffer_size_in_bytes c)
    (cfg_manual_journal_persist c) (worker_threads c) (journal_compression_type c) (journal_compression_threshold c) (Some f).

(** ** Every configuration the builder makes is sound *)

(** The calls of the builder, the hidden one included. *)
Inductive BuilderCall :=
  | CacheSize (size_bytes : Z)
  | JournalCompression (comp : CompressionType)
  | ManualJournalPersist (flag : bool)
  | WorkerThreads (n : Z)
  | WorkerThreadsUnchecked (n : Z)
  | MaxCachedFiles (n : option Z)
  | MaxJournalingSize (size : Z)
  | MaxWriteBufferSize (size : option Z)
  | Temporary (flag : bool)
  | CompactionFilterFactories (f : str -> option F).

Definition builder_call (call : BuilderCall) (c : Config F) : option (Config F) :=
  match call with
  | CacheSize size_bytes => Some (cache_size size_bytes c)
  | JournalCompression comp => Some (journal_compression comp c)
  | ManualJournalPersist flag => Some (builder_manual_journal_persist flag c)
  | WorkerThreads n => set_worker_threads n c
  | WorkerThreadsUnchecked n => Some (worker_threads_unchecked n c)
  | MaxCachedFiles n => Some (max_cached_files n c)
  | MaxJournalingSize size => max_journaling_size size c
  | MaxWriteBufferSize size => max_write_buffer_size size c
  | Temporary flag => Some (temporary flag c)
  | CompactionFilterFactories f => Some (with_compaction_filter_factories f c)
  end.

Fixpoint build (calls : list BuilderCall) (c : Config F) : option (Config F) :=
  match calls with
  | [] => Some c
  | call :: calls => builder_call call c ≫= build calls
  end.

(** Room for at least one journal file of 64 MiB, and a write buffer limit of at least
    1 MiB if there is one; the threshold is never changed. *)
Record config_ok (c : Config F) : Prop := {
  ok_journals : 64 * MIB <= max_journaling_size_in_bytes c;
  ok_buffer size : max_write_buffer_size_in_bytes c = Some size -> MIB <= size;
  ok_threshold : journal_compression_threshold c = 4096
}.

(** The number of threads asked for last. *)
Definition last_threads (calls : list BuilderCall) (n : Z) : Z :=
  foldl (fun n call => match call with WorkerThreads m | WorkerThreadsUnchecked m => m | _ => n end) n calls.

(** A call the builder accepts. *)
Definition accepted (call : BuilderCall) : Prop :=
  match call with
  | WorkerThreads n => 0 < n
  | MaxJournalingSize size => 64 * MIB <= size
  | MaxWriteBufferSize (Some size) => MIB <= size
  | _ => True
  end.

(** The hidden call takes any number, 0 included. *)
Definition checked (call : BuilderCall) : Prop :=
  match call with WorkerThreadsUnchecked n => 0 < n | _ => True end.

Lemma last_threads_pos calls n : Forall accepted calls -> Forall checked calls -> 0 < n -> 0 < last_threads calls n.
Proof.
  unfold last_threads. intros Ha. revert n. induction Ha as [|call calls Ha _ IH]; intros n Hc Hn; [done|].
  apply Forall_cons in Hc as [Hc Hcs]. cbn [foldl]. apply IH; [done|]. by destruct call.
Qed.

Lemma builder_call_ok call c c' :
  builder_call call c = Some c' -> config_ok c -> accepted call /\ config_ok c' /\ worker_threads c' = last_threads [call] (worker_threads c).
Proof.
  unfold last_threads. destruct call as [| | |n|n| |size|[size|]| |]; cbn [builder_call accepted foldl];
    unfold set_worker_threads, max_journaling_size, max_write_buffer_size; unfold MIB in *; cbn.
  all: try (case_decide; [|done]); try (case_bool_decide; [|done]); intros [= <-] [C2 C3 C4].
  all: split; [done|]; split; [|done]; constructor; cbn; unfold MIB in *; try done; intros; simplify_eq; auto.
Qed.

Lemma builder_call_total call c : accepted call -> is_Some (builder_call call c).
Proof.
  destruct call as [| | |n|n| |size|[size|]| |]; cbn; intros Ha; try by eexists.
  - unfold set_worker_threads. rewrite decide_True by done. by eexists.
  - unfold max_journaling_size. rewrite decide_True by (unfold MIB in *; lia). by eexists.
  - unfold max_write_buffer_size. rewrite bool_decide_eq_true_2 by (unfold MIB in *; lia). by eexists.
Qed.

End builder.

(** Two calls, one of them with a value that is too small. *)
Definition sample_calls : list (BuilderCall (F := ())) := [WorkerThreads 8; MaxJournalingSize (64 * MIB); Temporary true].

