(* ===== verification/Opening.v ===== *)
(** * Opening a database

    Models [Database::create_or_recover], [create_new] and [recover] ([src/src/db.rs]),
    the lock file ([src/src/locked_file.rs]), [fsync_directory] ([src/src/file.rs]),
    [Journal::create_new] and [recover] ([src/src/journal/mod.rs]) on the folder of a
    database, on top of [Catalog] for the keyspaces, [JournalFiles] and [Recovery] for the
    journals and [WorkerPool] for the threads.

    The outcomes of the coming file-system calls on the folder are scripted, so that
    creation and opening can fail, or be cut off, anywhere. [None] is a panic, or a call
    that never returns. *)

From stdpp Require Import base gmap list strings.
From S2P Require Import Prelude Errors Utf8 Visibility Composite Store Panic JournalEntry JournalReader JournalWriter JournalFiles.
From S2P Require Import SnapshotTracker Mvcc Db Recovery KeyspaceConfig MetaKeyspace KeyspaceOptions Catalog Version Engine WorkerPool.

(** ** The folder *)

Record Folder := mkFolder {
  fo_exists : bool;
  fo_keyspaces : bool;
  fo_files : gmap str bytes;
  (** Whether some handle, of this or another process, holds the lock. *)
  fo_locked : bool;
  fo_faults : list Outcome
}.

Definition LOCK_FILE : str := s2str "lock".
Definition VERSION_MARKER : str := s2str "version".

Abbreviation FolderM := (StateR Folder).

Definition set_files (files : gmap str bytes) (f : Folder) : Folder :=
  mkFolder (fo_exists f) (fo_keyspaces f) files (fo_locked f) (fo_faults f).
Definition set_locked (b : bool) (f : Folder) : Folder :=
  mkFolder (fo_exists f) (fo_keyspaces f) (fo_files f) b (fo_faults f).
Definition set_faults (faults : list Outcome) (f : Folder) : Folder :=
  mkFolder (fo_exists f) (fo_keyspaces f) (fo_files f) (fo_locked f) faults.

Section folder.
#[local] Open Scope state_scope.

Definition next_fault (f : Folder) : Outcome * Folder :=
  match fo_faults f with
  | [] => (Success, f)
  | o :: faults => (o, set_faults faults f)
  end.

(** A call that changes nothing, and one that changes the folder if it succeeds. *)
Definition io : FolderM () := fun f =>
  match next_fault f with
  | (Success, f) => (f, Ok ())
  | (Failure k _, f) => (f, Err (Io k))
  end.
Definition io_then (g : Folder -> Folder) : FolderM () := io ;;; (fun f => (g f, Ok ())).

Definition create_dir_all : FolderM () := io_then (fun f => mkFolder true (fo_keyspaces f) (fo_files f) (fo_locked f) (fo_faults f)).
Definition create_keyspaces_dir : FolderM () := io_then (fun f => mkFolder (fo_exists f) true (fo_files f) (fo_locked f) (fo_faults f)).
(** [fsync_directory]: opening and syncing. *)
Definition fsync_directory : FolderM () := io ;;; io.

(** [File::create_new], [File::open], [std::fs::read]. *)
Definition file_create_new (name : str) : FolderM () :=
  io ;;; (fun f =>
    match fo_files f !! name with
    | Some _ => (f, Err (Io IoAlreadyExists))
    | None => (set_files (<[name := []]> (fo_files f)) f, Ok ())
    end).
Definition file_read (name : str) : FolderM bytes :=
  io ;;; (fun f => (f, match fo_files f !! name with Some bs => Ok bs | None => Err (Io IoNotFound) end)).
Definition file_open (name : str) : FolderM () := file_read name ;;; st_ret ().

(** [write_all] appends; a failing write has written a proper prefix. *)
Definition file_append (name : str) (bs : bytes) : FolderM () := fun f =>
  let write bs f := set_files (alter (fun old => old ++ bs) name (fo_files f)) f in
  match next_fault f with
  | (Success, f) => (write bs f, Ok ())
  | (Failure k n, f) => (write (take (Nat.min n (length bs - 1)) bs) f, Err (Io k))
  end.

(** [Path::try_exists]. *)
Definition try_exists (name : str) : FolderM bool :=
  io ;;; (fun f => (f, Ok (bool_decide (is_Some (fo_files f !! name))))).

(** ** The lock *)

(** [File::try_lock]; [false] is [WouldBlock]. *)
Definition try_lock : FolderM bool :=
  io ;;; (fun f => if fo_locked f then (f, Ok false) else (set_locked true f, Ok true)).

(** [LockedFileGuard::create_new]. *)
Definition lock_create_new : FolderM () :=
  (fun f =>
     match file_create_new LOCK_FILE f with
     | (f, Err (Io IoAlreadyExists)) => file_open LOCK_FILE f
     | r => r
     end) ;;;
  locked <- try_lock ;;
  if (locked : bool) then st_ret () else st_err Locked.

(** The loop of [try_acquire]; [others] is what happens to the folder while it sleeps,
    with [retries] attempts left. *)
Fixpoint try_lock_loop (others : nat -> Folder -> Folder) (retries : nat) : FolderM () :=
  match retries with
  | O => st_ret ()
  | S retries =>
      locked <- try_lock ;;
      if (locked : bool) then st_ret ()
      else if decide (retries = 0)%nat then st_err Locked
      else (fun f => try_lock_loop others retries (others retries f))
  end.

Definition RETRIES : nat := 3.

Definition lock_try_acquire (others : nat -> Folder -> Folder) : FolderM () :=
  file_open LOCK_FILE ;;; try_lock_loop others RETRIES.

(** ** The version marker *)

Definition marker_create : FolderM () :=
  file_create_new VERSION_MARKER ;;;
  file_append VERSION_MARKER VERSION_MAGIC ;;;
  file_append VERSION_MARKER [u8_from V3] ;;;
  io.

Definition folder_check_version : FolderM () :=
  contents <- file_read VERSION_MARKER ;; st_lift (check_version contents).

(** ** Journals

    [PRE_ALLOCATED_BYTES] is a parameter here, so that samples stay small. *)

Context (pre_allocated_bytes : nat).

(** [Journal::create_new]. *)
Definition journal_create_new (name : str) : FolderM () :=
  io ;;;
  file_create_new name ;;;
  io_then (fun f => set_files (<[name := zeros pre_allocated_bytes]> (fo_files f)) f) ;;;
  io ;;;
  fsync_directory.

(** The order in which [read_dir] lists the files. *)
Context (listing : gmap str bytes -> list str).

(** [Journal::recover] and the sync of the active journal; an active journal that exists
    is probed and opened ([Journal::from_file]). *)
Definition journal_recover : FolderM RecoveryResult :=
  io ;;;
  r <- st_read (fun f => (recover_journals (listing (fo_files f))).1) ;;
  (if was_active_created r then journal_create_new (active r) else try_exists (active r) ;;; file_open (active r)) ;;;
  io ;;;
  st_ret r.
End folder.

(** ** The database *)

(** What is on disk: the folder, the meta tree and the keyspace folders, and the trees. *)
Record Disk (S F T : Type) := mkDisk { dk_folder : Folder; dk_catalog : Catalog S F; dk_trees : T }.
Arguments mkDisk {S F T}.
Arguments dk_folder {S F T}.
Arguments dk_catalog {S F T}.
Arguments dk_trees {S F T}.

(** An open database. *)
Record OpenDb (S F T : Type) := mkOpenDb {
  od_catalog : Catalog S F;
  od_state : Recovering T;
  od_tracker : SnapshotTracker;
  od_flush_queue : list Z;
  od_journal : str;
  od_pool : Pool
}.
Arguments mkOpenDb {S F T}.
Arguments od_catalog {S F T}.
Arguments od_state {S F T}.
Arguments od_tracker {S F T}.
Arguments od_flush_queue {S F T}.
Arguments od_journal {S F T}.
Arguments od_pool {S F T}.

(** The rest of what the system answers: what others do while the lock is awaited, the
    opening of the meta tree, the keyspaces folder, reading journals, spawning threads. *)
Record OpenEnv := mkOpenEnv {
  oe_others : nat -> Folder -> Folder;
  oe_meta : Result ();
  oe_recover : RecoverEnv;
  oe_dirents : Result (list (Result DirEnt));
  oe_len : str -> Result ();
  oe_read : str -> Result ();
  oe_spawn : list (Result ())
}.

Section opening.
#[local] Open Scope pstate_scope.
Context `{JournalCodec, StrategyConfig, PrefixRange} {S F : Type} `{!ReadableOps S, !IngestOps S}.
Context {T : Type} `{!TreeOps T, !LsmOps T}.
Context (assigner : option (str -> option F)).
Context (pre_allocated_bytes : nat) (listing : gmap str bytes -> list str).
(** The iteration orders of the hash maps of watermarks and of keyspaces. *)
Context (values : gmap Z Z -> list (Z * Z)) (handles : gmap str (Handle F) -> list (Handle F)).

Abbreviation D := (Disk S F T).

Definition set_folder (f : Folder) (d : D) : D := mkDisk f (dk_catalog d) (dk_trees d).

Definition on_folder {A} (m : StateR Folder A) : PState D A := fun d =>
  let '(f, r) := m (dk_folder d) in Some (set_folder f d, r).
Definition on_catalog {A} (m : PState (Catalog S F) A) : PState D A := fun d =>
  match m (dk_catalog d) with
  | Some (c, r) => Some (mkDisk (dk_folder d) c (dk_trees d), r)
  | None => None
  end.

(** The lock guard is dropped when an error is returned. *)
Definition guarded {A} (m : PState D A) : PState D A := fun d =>
  match m d with
  | Some (d, Err e) => Some (set_folder (set_locked false (dk_folder d)) d, Err e)
  | r => r
  end.

Definition start_workers (env : OpenEnv) : PState D Pool := fun d =>
  match start (oe_spawn env) (mkPool [] 0 false) with
  | (pool, Ok ()) => Some (d, Ok pool)
  | (_, Err e) => Some (d, Err e)
  end.

(** [Database::create_new]. *)
Definition db_create_new (env : OpenEnv) : PState D (OpenDb S F T) :=
  on_folder create_dir_all ;;;;
  on_folder lock_create_new ;;;;
  guarded (
    on_folder create_keyspaces_dir ;;;;
    on_folder (journal_create_new pre_allocated_bytes (journal_name 0)) ;;;;
    on_folder marker_create ;;;;
    on_folder fsync_directory ;;;;
    on_folder fsync_directory ;;;;
    ps_pure (p_lift (oe_meta env)) ;;;;
    pool <-- start_workers env ;;
    (fun d => Some (d, Ok (mkOpenDb (crash (dk_catalog d)) (recovering_new (dk_trees d)) (tracker_new 0) [] (journal_name 0) pool)))).

(** How the id of a journal item leads to a recovered keyspace: [resolve_id] and the
    dictionary. Ids are [u64]. *)
Definition resolve_keyspace (c : Catalog S F) (id : Z) : PResult bool :=
  if bool_decide (0 <= id <= u64_max) then
    match resolve_id id (cat_tree c) with
    | Some (Ok (Some name)) => Some (Ok (bool_decide (is_Some (cat_keyspaces c !! name))))
    | Some (Ok None) => Some (Ok false)
    | Some (Err e) => Some (Err e)
    | None => None
    end
  else Some (Ok false).

Definition journal_contents (env : OpenEnv) (d : D) (name : str) : Result bytes :=
  oe_read env name ≫= (fun _ => match fo_files (dk_folder d) !! name with Some bs => Ok bs | None => Err (Io IoNotFound) end).

Definition sealed_file_of (env : OpenEnv) (d : D) (name : str) : SealedFile :=
  mkSealedFile name
    (oe_len env name ≫= (fun _ =>
       match fo_files (dk_folder d) !! name with Some bs => Ok (Z.of_nat (length bs)) | None => Err (Io IoNotFound) end))
    (journal_contents env d name).

(** From [recover_sealed_memtables] to the queueing of flushes. The journals that were read
    are left without their incomplete tails. *)
Definition recover_data (env : OpenEnv) (journals : RecoveryResult) : PState D (Recovering T * (SnapshotTracker * list Z)) := fun d =>
  let c := dk_catalog d in
  let ids := h_id <$> handles (cat_keyspaces c) in
  let sealed := (fun j => sealed_file_of env d j.2) <$> JournalFiles.sealed journals in
  let recovery : PState (Recovering T) (SnapshotTracker * list Z) :=
    if was_active_created journals then recover_database (resolve_keyspace c) values sealed ids None
    else match journal_contents env d (active journals) with
         | Ok contents => recover_database (resolve_keyspace c) values sealed ids (Some contents)
         | Err e => recover_sealed_memtables (resolve_keyspace c) values sealed ;;;; check_memtables ids ;;;; ps_err e
         end in
  match recovery (recovering_new (dk_trees d)) with
  | None => None
  | Some (s, r) =>
      let cut : gmap str bytes := list_to_map (zip ((JournalFiles.sealed journals).*2 ++ [active journals]) (rv_files s)) in
      Some (mkDisk (set_files (cut ∪ fo_files (dk_folder d)) (dk_folder d)) c (rv_trees s), (fun x => (s, x)) <$> r)
  end.

(** [FlushManager::enqueue] and [send] for the keyspaces to flush, into channels that no
    thread empties yet: when they are full, opening blocks for good, which is [None]. *)
Definition queue_flushes (queue : list Z) : PState D () := fun d =>
  if decide (length queue <= CHANNEL_SIZE)%nat then Some (d, Ok ()) else None.

(** [Database::recover]. *)
Definition db_recover (env : OpenEnv) : PState D (OpenDb S F T) :=
  on_folder folder_check_version ;;;;
  on_folder (lock_try_acquire (oe_others env)) ;;;;
  guarded (
    journals <-- on_folder (journal_recover pre_allocated_bytes listing) ;;
    ps_pure (p_lift (oe_meta env)) ;;;;
    on_catalog (recover_keyspaces assigner (oe_recover env) (oe_dirents env)) ;;;;
    recovered <-- recover_data env journals ;;
    queue_flushes recovered.2.2 ;;;;
    pool <-- start_workers env ;;
    (fun d => Some (d, Ok (mkOpenDb (dk_catalog d) recovered.1 recovered.2.1 recovered.2.2 (active journals) pool)))).

(** [Database::create_or_recover]. *)
Definition create_or_recover (env : OpenEnv) : PState D (OpenDb S F T) :=
  marked <-- on_folder (try_exists VERSION_MARKER) ;;
  if (marked : bool) then db_recover env else db_create_new env.

(** The process ends, by a crash or otherwise: the lock is released, the catalogue is
    what is on disk, and the trees are what [reopened] finds. *)
Definition release (reopened : T -> T) (d : D) : D :=
  mkDisk (set_locked false (dk_folder d)) (crash (dk_catalog d)) (reopened (dk_trees d)).
End opening.
