(* ===== verification/OpeningProps.v ===== *)
(** * Opening a database: refusals, interrupted creations, and reopening after a crash *)

From stdpp Require Import base gmap list sorting strings relations.
From S2P Require Import Prelude Errors Utf8 Visibility Composite Store Panic JournalEntry JournalReader JournalWriter JournalFiles.
From S2P Require Import SnapshotTracker Mvcc Db DbProps ReplayHistory Recovery RecoveryProps RecoveryFrame KeyspaceConfig MetaKeyspace KeyspaceOptions Catalog.
From S2P Require Import CatalogProps Version Engine EngineProps EngineRestart EngineDurable WorkerPool Opening.

(** ** Calls on the folder *)

(** The folder up to the script of faults. *)
Definition same_folder (f g : Folder) : Prop := set_faults [] f = set_faults [] g.

Lemma same_folder_trans f g h : same_folder f g -> same_folder g h -> same_folder f h.
Proof. unfold same_folder. congruence. Qed.

Lemma io_cases f : exists f', same_folder f f' /\ (io f = (f', Ok ()) \/ exists k, io f = (f', Err (Io k))).
Proof.
  unfold io, next_fault. destruct (fo_faults f) as [|[|k n] fs] eqn:E; eexists; (split; [|first [left; done|right; by exists k]]); done.
Qed.

Lemma io_calm f : fo_faults f = [] -> io f = (f, Ok ()).
Proof. unfold io, next_fault. by intros ->. Qed.

Lemma same_files f g : same_folder f g ->
  fo_exists f = fo_exists g /\ fo_keyspaces f = fo_keyspaces g /\ fo_files f = fo_files g /\ fo_locked f = fo_locked g.
Proof. unfold same_folder, set_faults. by intros [=]. Qed.

(** A call that leaves the folder as it is. *)
Definition inert {A} (m : StateR Folder A) : Prop := forall f f' r, m f = (f', r) -> same_folder f f'.

Lemma inert_io : inert io.
Proof. intros f f' r E. destruct (io_cases f) as (g & Hg & [E'|[k E']]); rewrite E' in E; by simplify_eq. Qed.

Lemma inert_ret {A} (a : A) : inert (st_ret a).
Proof. by intros f f' r [= <- _]. Qed.

Lemma inert_bind {A B} (m : StateR Folder A) (k : A -> StateR Folder B) : inert m -> (forall a, inert (k a)) -> inert (st_bind m k).
Proof.
  intros Hm Hk f f' r. unfold st_bind. destruct (m f) as [g [a|e]] eqn:E; [|intros [= <- _]; by apply Hm in E].
  intros E2. apply Hm in E. apply Hk in E2. by eapply same_folder_trans.
Qed.

Lemma inert_read {A} (g : Folder -> Result A) : inert (fun f => (f, g f)).
Proof. by intros f f' r [= <- _]. Qed.

#[local] Hint Resolve inert_io inert_ret inert_read inert_bind : core.

Lemma inert_file_read name : inert (file_read name).
Proof. apply inert_bind; auto. Qed.
Lemma inert_file_open name : inert (file_open name).
Proof. apply inert_bind; [apply inert_file_read|auto]. Qed.
Lemma inert_try_exists name : inert (try_exists name).
Proof. apply inert_bind; auto. Qed.
Lemma inert_fsync : inert fsync_directory.
Proof. apply inert_bind; auto. Qed.
Lemma inert_check_version : inert folder_check_version.
Proof. apply inert_bind; [apply inert_file_read|]. intros contents. by intros f f' r [= <- _]. Qed.

(** ** Refusals *)

(** While the lock is held, taking it fails and nothing changes. *)
Lemma try_lock_held f f' r : fo_locked f = true -> try_lock f = (f', r) -> same_folder f f' /\ (r = Ok false \/ exists e, r = Err e).
Proof.
  intros Hl. unfold try_lock, st_bind. destruct (io_cases f) as (g & Hg & [->|[k ->]]).
  - destruct (same_files _ _ Hg) as (_ & _ & _ & El). rewrite <- El, Hl. intros [= <- <-]. auto.
  - intros [= <- <-]. eauto.
Qed.

(** Others keep the lock and leave the folder alone. *)
Definition keeps_lock (others : nat -> Folder -> Folder) : Prop := forall n f, same_folder f (others n f).

Lemma try_lock_loop_held others n f f' r :
  keeps_lock others -> fo_locked f = true -> try_lock_loop others (S n) f = (f', r) -> same_folder f f' /\ is_ok r = false.
Proof.
  intros Ho. revert f. induction n as [|n IH]; intros f Hl; cbn [try_lock_loop]; unfold st_bind;
    destruct (try_lock f) as [g [b|e]] eqn:E; destruct (try_lock_held _ _ _ Hl E) as [Hg [[= ->]|[e' [=]]]].
  - rewrite decide_True by done. intros [= <- <-]. done.
  - intros [= <- <-]. done.
  - rewrite decide_False by done. intros E2. pose proof (same_folder_trans _ _ _ Hg (Ho (S n) g)) as Hs.
    destruct (IH _ ltac:(by destruct (same_files _ _ Hs) as (_ & _ & _ & <-)) E2) as [Hs2 Hr]. split; [by eapply same_folder_trans|done].
  - intros [= <- <-]. done.
Qed.

Lemma try_acquire_held others f f' r :
  keeps_lock others -> fo_locked f = true -> lock_try_acquire others f = (f', r) -> same_folder f f' /\ is_ok r = false.
Proof.
  intros Ho Hl. unfold lock_try_acquire, st_bind. destruct (file_open LOCK_FILE f) as [g [[]|e]] eqn:E; apply inert_file_open in E as Hg.
  - intros E2. destruct (try_lock_loop_held others 2 g f' r Ho ltac:(by destruct (same_files _ _ Hg) as (_ & _ & _ & <-)) E2).
    split; [by eapply same_folder_trans|done].
  - intros [= <- <-]. done.
Qed.

Lemma lock_create_held f f' r :
  fo_locked f = true -> is_Some (fo_files f !! LOCK_FILE) -> lock_create_new f = (f', r) -> same_folder f f' /\ is_ok r = false.
Proof.
  intros Hl [bs Hf]. unfold lock_create_new, st_bind at 1.
  destruct (match file_create_new LOCK_FILE f with (f0, Err (Io IoAlreadyExists)) => file_open LOCK_FILE f0 | r0 => r0 end) as [g rg] eqn:E.
  assert (same_folder f g) as Hg.
  { unfold file_create_new, st_bind in E. destruct (io_cases f) as (h & Hh & [Ei|[k Ei]]); rewrite Ei in E.
    - destruct (same_files _ _ Hh) as (_ & _ & Ef & _). rewrite <- Ef, Hf in E. apply inert_file_open in E. by eapply same_folder_trans.
    - destruct k; try (injection E as <- <-; done). apply inert_file_open in E. by eapply same_folder_trans. }
  destruct rg as [[]|e]; [|intros [= <- <-]; done]. unfold st_bind.
  destruct (try_lock g) as [h [b|e]] eqn:Et; (destruct (try_lock_held g h _ ltac:(by destruct (same_files _ _ Hg) as (_ & _ & _ & <-)) Et) as [Hh [[= ->]|[e' [=]]]]);
    intros [= <- <-]; (split; [by eapply same_folder_trans|done]).
Qed.

Section opening.
Context `{JournalCodec, StrategyConfig, PrefixRange} {S F : Type} `{!ReadableOps S, !ReadableLaws S, !IngestOps S, !IngestLaws S}.
Context {T : Type} `{!TreeOps T, !TreeLaws T, !LsmOps T, !LsmLaws T, !FlushOps T, !FlushLaws T}.
Context (assigner : option (str -> option F)) (pre_allocated_bytes : nat) (listing : gmap str bytes -> list str).
Context (values : gmap Z Z -> list (Z * Z)) (handles : gmap str (Handle F) -> list (Handle F)).

Abbreviation D := (Disk S F T).
Abbreviation open := (create_or_recover assigner pre_allocated_bytes listing values handles).

Definition untouched (d d' : D) : Prop :=
  same_folder (dk_folder d) (dk_folder d') /\ dk_catalog d' = dk_catalog d /\ dk_trees d' = dk_trees d.

(** A marker of another version, or of none. *)
Definition foreign (d : D) : Prop :=
  exists bs, fo_files (dk_folder d) !! VERSION_MARKER = Some bs /\ parse_file_header bs <> Some V3.

(** The database is open elsewhere, and stays so. *)
Definition in_use (env : OpenEnv) (d : D) : Prop :=
  fo_locked (dk_folder d) = true /\ fo_exists (dk_folder d) = true /\ is_Some (fo_files (dk_folder d) !! LOCK_FILE) /\
  keeps_lock (oe_others env).

Lemma on_folder_err {A B} (m : StateR Folder A) (k : A -> PState D B) d f e :
  m (dk_folder d) = (f, Err e) -> ps_bind (on_folder m) k d = Some (set_folder f d, Err e).
Proof. intros E. unfold ps_bind, on_folder. by rewrite E. Qed.
Lemma on_folder_ok {A B} (m : StateR Folder A) (k : A -> PState D B) d f a :
  m (dk_folder d) = (f, Ok a) -> ps_bind (on_folder m) k d = k a (set_folder f d).
Proof. intros E. unfold ps_bind, on_folder. by rewrite E. Qed.

Lemma check_foreign f f' r bs :
  fo_files f !! VERSION_MARKER = Some bs -> parse_file_header bs <> Some V3 -> folder_check_version f = (f', r) ->
  exists e, r = Err e /\ (fo_faults f = [] -> e = InvalidVersion (parse_file_header bs)).
Proof.
  intros Hf Hp. unfold folder_check_version, file_read, st_bind. destruct (io_cases f) as (g & Hg & [Ei|[k Ei]]); rewrite Ei.
  - destruct (same_files _ _ Hg) as (_ & _ & Ef & _). rewrite <- Ef, Hf. unfold st_lift. intros [= <- <-].
    destruct (check_version bs) as [[]|e] eqn:Ec.
    + apply check_version_Ok, parse_file_header_spec in Ec. done.
    + exists e. split; [done|]. intros _. by apply check_version_Err.
  - intros [= <- <-]. eexists. split; [done|]. intros Hc. rewrite io_calm in Ei by done. congruence.
Qed.

(** What is not opened is not touched. *)
Lemma open_untouched env d :
  foreign d \/ in_use env d ->
  exists d' e, open env d = Some (d', Err e) /\ untouched d d' /\
    (fo_faults (dk_folder d) = [] -> forall bs, fo_files (dk_folder d) !! VERSION_MARKER = Some bs ->
      parse_file_header bs <> Some V3 -> e = InvalidVersion (parse_file_header bs)).
Proof.
  intros Hd. unfold create_or_recover.
  destruct (try_exists VERSION_MARKER (dk_folder d)) as [f [marked|e]] eqn:Et; apply inert_try_exists in Et as Hf.
  2: { eexists _, e. split_and!; [by apply on_folder_err|done|]. intros Hc.
       unfold try_exists, st_bind in Et. by rewrite io_calm in Et. }
  rewrite (on_folder_ok _ _ _ _ _ Et). pose proof (same_files _ _ Hf) as (Ee & _ & Ef & El).
  assert (marked = bool_decide (is_Some (fo_files (dk_folder d) !! VERSION_MARKER)) /\ (fo_faults (dk_folder d) = [] -> f = dk_folder d)) as [-> Hcalm].
  { unfold try_exists, st_bind in Et. destruct (io_cases (dk_folder d)) as (g & Hg & [Ei|[k Ei]]); rewrite Ei in Et; [|done].
    injection Et as <- <-. destruct (same_files _ _ Hg) as (_ & _ & -> & _). split; [done|]. intros Hc. rewrite io_calm in Ei by done. by injection Ei. }
  case_bool_decide as Hm.
  - unfold db_recover. destruct (folder_check_version (dk_folder (set_folder f d))) as [g [[]|e]] eqn:Ec; apply inert_check_version in Ec as Hg; cbn in Hg.
    + rewrite (on_folder_ok _ _ _ _ _ Ec). destruct Hd as [(bs & Hb & Hp)|(Hl & _ & _ & Ho)].
      { rewrite Ef in Hb. destruct (check_foreign _ _ _ _ Hb Hp Ec) as (e & [=] & _). }
      pose proof (same_files _ _ Hg) as (_ & _ & _ & El2). destruct (lock_try_acquire (oe_others env) g) as [h r] eqn:Ea.
      destruct (try_acquire_held _ g h r Ho ltac:(congruence) Ea) as [Hh Hr]. destruct r as [[]|e]; [done|].
      rewrite (on_folder_err _ _ _ h e) by done. eexists _, _. split_and!; [done|refine (conj _ (conj eq_refl eq_refl)); by do 2 (eapply same_folder_trans; [done|])|].
      intros _ bs Hb Hp. rewrite Ef in Hb. destruct (check_foreign _ _ _ _ Hb Hp Ec) as (? & [=] & _).
    + rewrite (on_folder_err _ _ _ g e) by done. eexists _, _. split_and!; [done|refine (conj _ (conj eq_refl eq_refl)); by eapply same_folder_trans|].
      intros Hc bs Hb Hp. rewrite Ef in Hb. destruct (check_foreign _ _ _ _ Hb Hp Ec) as (e' & [= <-] & He). apply He. by rewrite Hcalm.
  - destruct Hd as [(bs & Hb & _)|(Hl & Hx & Hlock & _)]; [destruct Hm; by eexists|].
    assert (exists g r, create_dir_all f = (g, r) /\ same_folder f g) as (g & r & Ec & Hg).
    { unfold create_dir_all, io_then, st_bind. destruct (io_cases f) as (g & Hg & [->|[k ->]]); eexists _, _; (split; [done|]); [|done].
      eapply same_folder_trans; [done|]. destruct (same_files _ _ Hg) as (Hx' & _). unfold same_folder, set_faults. cbn. by rewrite <- Hx', <- Ee, Hx. }
    unfold db_create_new. destruct r as [[]|e].
    2: { rewrite (on_folder_err _ _ _ g e) by done. eexists _, _. split_and!; [done|refine (conj _ (conj eq_refl eq_refl)); by eapply same_folder_trans|].
         intros _ bs Hb. destruct Hm. by eexists. }
    rewrite (on_folder_ok _ _ _ g ()) by done. pose proof (same_files _ _ Hg) as (_ & _ & Ef2 & El2).
    destruct (lock_create_new g) as [h r] eqn:Ea. destruct (lock_create_held g h r) as [Hh Hr]; [congruence|by rewrite <- Ef2, <- Ef|done|].
    destruct r as [[]|e]; [done|]. rewrite (on_folder_err _ _ _ h e) by done. eexists _, _.
    split_and!; [done|refine (conj _ (conj eq_refl eq_refl)); by do 2 (eapply same_folder_trans; [done|])|]. intros _ bs Hb. destruct Hm. by eexists.
Qed.

(** C35: Opening fails and touches nothing when the version marker is not that of this
    version, which is reported, or when the database is open elsewhere, whatever else the
    file system does. *)
Theorem open_refused env d :
  foreign d \/ in_use env d ->
  exists d' e, open env d = Some (d', Err e) /\ untouched d d' /\
    (fo_faults (dk_folder d) = [] -> forall bs, fo_files (dk_folder d) !! VERSION_MARKER = Some bs ->
      parse_file_header bs <> Some V3 -> e = InvalidVersion (parse_file_header bs)).
Proof. apply open_untouched. Qed.

(** ** Creation *)

Lemma calm_try_lock f : fo_faults f = [] -> fo_locked f = false -> try_lock f = (set_locked true f, Ok true).
Proof. intros Hc Hl. unfold try_lock, st_bind. by rewrite io_calm, Hl. Qed.
Lemma calm_read f name bs : fo_faults f = [] -> fo_files f !! name = Some bs -> file_read name f = (f, Ok bs).
Proof. intros Hc Hf. unfold file_read, st_bind. by rewrite io_calm, Hf. Qed.
Lemma calm_open f name bs : fo_faults f = [] -> fo_files f !! name = Some bs -> file_open name f = (f, Ok ()).
Proof. intros Hc Hf. unfold file_open, st_bind. by rewrite (calm_read f name bs). Qed.
Lemma calm_try_exists f name : fo_faults f = [] -> try_exists name f = (f, Ok (bool_decide (is_Some (fo_files f !! name)))).
Proof. intros Hc. unfold try_exists, st_bind. by rewrite io_calm. Qed.
Lemma calm_create f name :
  fo_faults f = [] -> fo_files f !! name = None -> file_create_new name f = (set_files (<[name := []]> (fo_files f)) f, Ok ()).
Proof. intros Hc Hf. unfold file_create_new, st_bind. by rewrite io_calm, Hf. Qed.
Lemma calm_fsync f : fo_faults f = [] -> fsync_directory f = (f, Ok ()).
Proof. intros Hc. unfold fsync_directory, st_bind. by rewrite !io_calm. Qed.

(** The files of a folder in which the lock has been taken. *)
Definition locked_files (files : gmap str bytes) : gmap str bytes :=
  match files !! LOCK_FILE with Some _ => files | None => <[LOCK_FILE := []]> files end.

Lemma locked_files_ne files name : name <> LOCK_FILE -> locked_files files !! name = files !! name.
Proof. intros Hn. unfold locked_files. destruct (files !! LOCK_FILE); [done|]. by apply lookup_insert_ne. Qed.

Lemma calm_lock_create f :
  fo_faults f = [] -> fo_locked f = false -> lock_create_new f = (set_locked true (set_files (locked_files (fo_files f)) f), Ok ()).
Proof.
  intros Hc Hl. unfold lock_create_new, locked_files, st_bind at 1. destruct (fo_files f !! LOCK_FILE) as [bs|] eqn:E.
  - assert (file_create_new LOCK_FILE f = (f, Err (Io IoAlreadyExists))) as -> by (unfold file_create_new, st_bind; by rewrite io_calm, E).
    rewrite (calm_open f LOCK_FILE bs) by done. unfold st_bind. rewrite calm_try_lock by done. by destruct f.
  - rewrite calm_create by done. unfold st_bind. by rewrite calm_try_lock.
Qed.

Lemma calm_journal f name :
  fo_faults f = [] -> fo_files f !! name = None ->
  journal_create_new pre_allocated_bytes name f = (set_files (<[name := zeros pre_allocated_bytes]> (fo_files f)) f, Ok ()).
Proof.
  intros Hc Hf. unfold journal_create_new, st_bind at 1. rewrite io_calm by done. unfold st_bind at 1. rewrite calm_create by done.
  unfold io_then, st_bind. rewrite io_calm by done. cbn [fo_files set_files]. rewrite insert_insert_eq. rewrite io_calm by done. by apply calm_fsync.
Qed.

Lemma calm_append f name bs old :
  fo_faults f = [] -> fo_files f !! name = Some old -> file_append name bs f = (set_files (<[name := old ++ bs]> (fo_files f)) f, Ok ()).
Proof.
  intros Hc Hf. unfold file_append, next_fault. rewrite Hc. do 3 f_equal. apply map_eq. intros n. destruct (decide (n = name)) as [->|Hn].
  - by rewrite lookup_alter_eq, lookup_insert_eq, Hf.
  - by rewrite lookup_alter_ne, lookup_insert_ne.
Qed.

Lemma calm_marker f :
  fo_faults f = [] -> fo_files f !! VERSION_MARKER = None ->
  marker_create f = (set_files (<[VERSION_MARKER := file_header V3]> (fo_files f)) f, Ok ()).
Proof.
  intros Hc Hf. unfold marker_create, st_bind at 1. rewrite calm_create by done. unfold st_bind at 1.
  rewrite (calm_append _ _ _ []) by (cbn; rewrite ?lookup_insert_eq; done). unfold st_bind.
  rewrite (calm_append _ _ _ VERSION_MAGIC) by (cbn; rewrite ?lookup_insert_eq; done). rewrite io_calm by done.
  cbn [fo_files set_files]. by rewrite !insert_insert_eq.
Qed.

Lemma start_all_ok spawn : Forall (eq (Ok ())) spawn ->
  start spawn (mkPool [] 0 false) = (mkPool (replicate (length spawn) Running) (Z.of_nat (length spawn)) false, Ok ()).
Proof.
  intros Hs. unfold start. cbn [workers thread_counter pool_poisoned]. rewrite Z.add_0_l. generalize (Z.of_nat (length spawn)). intros n.
  change (replicate (length spawn) Running) with ([] ++ replicate (length spawn) Running). generalize (@nil Worker).
  induction Hs as [|r spawn <- _ IH]; intros ws; cbn; [by rewrite app_nil_r|]. rewrite IH. by rewrite <- app_assoc.
Qed.

(** A folder without a database, where nothing fails. *)
Lemma creation_opens env d :
  let f := dk_folder d in
  fo_faults f = [] -> fo_locked f = false -> fo_files f !! VERSION_MARKER = None -> fo_files f !! journal_name 0 = None ->
  oe_meta env = Ok () -> Forall (eq (Ok ())) (oe_spawn env) ->
  open env d =
    Some (mkDisk (mkFolder true true
            (<[VERSION_MARKER := file_header V3]> (<[journal_name 0 := zeros pre_allocated_bytes]> (locked_files (fo_files f)))) true [])
            (dk_catalog d) (dk_trees d),
          Ok (mkOpenDb (crash (dk_catalog d)) (recovering_new (dk_trees d)) (tracker_new 0) [] (journal_name 0)
                (mkPool (replicate (length (oe_spawn env)) Running) (Z.of_nat (length (oe_spawn env))) false))).
Proof.
  destruct d as [[ex ksdir files locked faults] c t]. cbn [dk_folder dk_catalog dk_trees fo_faults fo_locked fo_files].
  intros -> -> Hv Hj Hm Hs. unfold create_or_recover.
  erewrite on_folder_ok by (by apply calm_try_exists). cbn [dk_folder fo_files]. rewrite Hv. change (bool_decide (is_Some None)) with false. cbv iota.
  unfold db_create_new. erewrite on_folder_ok by (unfold create_dir_all, io_then, st_bind; by rewrite io_calm).
  erewrite on_folder_ok by (by apply calm_lock_create). unfold guarded.
  erewrite on_folder_ok by (unfold create_keyspaces_dir, io_then, st_bind; by rewrite io_calm).
  erewrite on_folder_ok by (apply calm_journal; [done|]; cbn; by rewrite locked_files_ne).
  erewrite on_folder_ok by (apply calm_marker; [done|]; cbn; by rewrite lookup_insert_ne, locked_files_ne).
  do 2 (erewrite on_folder_ok by (by apply calm_fsync)).
  unfold ps_bind, ps_pure, p_lift, start_workers. by rewrite Hm, start_all_ok.
Qed.

(** ** Reopening after a crash *)

Context (tree_clear_ok : clears_succeed T).
Context (listing_perm : forall files, listing files ≡ₚ (map_to_list files).*1).
Context (values_perm : forall wms, values wms ≡ₚ map_to_list wms).
Context (handles_perm : forall m, handles m ≡ₚ (map_to_list m).*2).

Definition keyspace_ids (c : Catalog S F) : list Z := h_id <$> handles (cat_keyspaces c).

Lemma keyspace_ids_known (c : Catalog S F) id : id ∈ keyspace_ids c <-> known c id.
Proof.
  unfold keyspace_ids, known. rewrite handles_perm, list_elem_of_fmap. split.
  - intros (h & -> & ([name h'] & -> & Hin)%list_elem_of_fmap). apply elem_of_map_to_list in Hin. by exists name, h'.
  - intros (name & h & E & <-). exists h. split; [done|]. apply list_elem_of_fmap. exists (name, h). split; [done|]. by apply elem_of_map_to_list.
Qed.

(** In a consistent catalogue an id leads to a keyspace iff it is one's. *)
Lemma resolve_known (c : Catalog S F) id :
  catalog_ok c -> (forall key, is_ok (rd_get key (cat_tree c)) = true) ->
  resolve_keyspace c id = Some (Ok (bool_decide (id ∈ keyspace_ids c))).
Proof.
  intros Hok Hread. unfold resolve_keyspace, resolve_id. case_bool_decide as Hu.
  - specialize (Hread (name_key id)). destruct (rd_get (name_key id) (cat_tree c)) as [o|] eqn:Eg; [|done]. apply get_law in Eg. destruct o as [v|].
    + destruct (co_names _ Hok id v Hu (eq_sym Eg)) as (name & h & En & Eid).
      destruct (co_listed _ Hok _ _ En) as [_ L2 _ _ (o & kvs & _ & _ & _ & [L8 _])].
      assert (v = str_bytes name) as -> by congruence. rewrite from_utf8_str_bytes, En by done. do 2 f_equal.
      transitivity true; [by rewrite bool_decide_eq_true|]. symmetry. apply bool_decide_eq_true, keyspace_ids_known. by exists name, h.
    + do 2 f_equal. symmetry. apply bool_decide_eq_false. intros (name & h & En & Eid)%keyspace_ids_known.
      destruct (co_listed _ Hok _ _ En) as [_ _ _ _ (o & kvs & _ & _ & _ & [L8 _])]. congruence.
  - do 2 f_equal. symmetry. apply bool_decide_eq_false. intros (name & h & En & Eid)%keyspace_ids_known.
    destruct (co_listed _ Hok _ _ En) as [_ _ [Hi _] _ _]. unfold_ranges. lia.
Qed.

(** The journals of a run of the engine, in the files of the folder: sealed ones under
    [sealed_ids], the active one under [id]. Torn tails are allowed. *)
Record journals_in (files : gmap str bytes) (sealed_ids : list Z) (id : Z) (js : list (list batch)) (current : list batch) : Prop := {
  ji_ids : Forall is_u64 (sealed_ids ++ [id]);
  ji_sorted : StronglySorted Z.lt (sealed_ids ++ [id]);
  ji_only name : is_Some (files !! name) -> is_journal_name name = true -> exists i, i ∈ sealed_ids ++ [id] /\ name = journal_name i;
  ji_sealed : Forall2 (fun i bs => exists contents file, files !! journal_name i = Some contents /\
                        read_journal contents = Some (Ok (batch_of <$> bs), file)) sealed_ids js;
  ji_active : exists contents file, files !! journal_name id = Some contents /\
                read_journal contents = Some (Ok (batch_of <$> current), file)
}.

Lemma journals_found files sealed_ids id js current :
  journals_in files sealed_ids id js current ->
  (recover_journals (listing files)).1 =
    Ok (mkRecoveryResult (journal_name id) ((fun i => (i, journal_name i)) <$> sealed_ids) false).
Proof.
  intros [Hu Hs Honly Hsealed Hact].
  assert (forall i, i ∈ sealed_ids ++ [id] -> is_u64 i) as Hu' by (intros i Hi; by eapply list.Forall_forall in Hu).
  assert (forall i, i ∈ sealed_ids ++ [id] -> exists bs, files !! journal_name i = Some bs) as Hin.
  { intros i [Hi| ->%list_elem_of_singleton]%elem_of_app; [|destruct Hact as (bs & ? & ? & _); by exists bs].
    apply list_elem_of_lookup in Hi as [n Hn]. destruct (Forall2_lookup_l _ _ _ _ _ Hsealed Hn) as (? & _ & bs & ? & ? & _). by exists bs. }
  assert (forall name, name ∈ listing files <-> is_Some (files !! name)) as Hlist.
  { intros name. rewrite listing_perm, list_elem_of_fmap. split.
    - intros ([n bs] & -> & ?%elem_of_map_to_list). by exists bs.
    - intros [bs ?]. exists (name, bs). split; [done|]. by apply elem_of_map_to_list. }
  assert (filter (fun n => is_journal_name n = true) (listing files) ≡ₚ journal_name <$> (sealed_ids ++ [id])) as Hf.
  { apply NoDup_Permutation.
    - apply NoDup_filter. rewrite listing_perm. apply NoDup_fst_map_to_list.
    - apply NoDup_fmap_2_strong; [intros; by apply journal_name_inj; auto|by apply (StronglySorted_NoDup Z.lt)].
    - intros name. rewrite list_elem_of_filter, list_elem_of_fmap, Hlist. split.
      + intros [Hj Hn]. destruct (Honly name Hn Hj) as (i & Hi & ->). by exists i.
      + intros (i & -> & Hi). split; [apply journal_name_is, (Hu' i Hi)|]. destruct (Hin i Hi) as [bs ->]. by exists bs. }
  apply Permutation_map_inv in Hf as (ids & Hf & Hp).
  destruct (recover_journals_spec ids (listing files)) as (s' & i' & -> & Hs' & Hp').
  - split_and!; [by rewrite <- Hp|rewrite <- Hp; by apply (StronglySorted_NoDup Z.lt)|done].
  - intros ->. by apply Permutation_nil_r, app_nil in Hp as [_ [=]].
  - assert (s' ++ [i'] = sealed_ids ++ [id]) as Heq.
    { apply (StronglySorted_unique_strong Z.lt); [intros; lia|done|done|by rewrite Hp', Hp]. }
    by apply app_inj_tail in Heq as [-> ->].
Qed.

Lemma recover_database_queue lookup files keyspaces contents (s s' : Recovering T) tracker queue :
  recover_database lookup values files keyspaces contents s = Some (s', Ok (tracker, queue)) -> (length queue <= length keyspaces)%nat.
Proof.
  unfold recover_database. intros [(s1 & [] & _ & E)|(e & [=] & _)]%ps_bind_Some.
  apply ps_bind_Some in E as [(s2 & [] & _ & E)|(e & [=] & _)]. apply ps_bind_Some in E as [(s3 & [] & _ & E)|(e & [=] & _)].
  injection E as <- <- <-. apply length_filter.
Qed.

(** What a database that was killed leaves on disk, and a system that answers: [c] is its
    catalogue, [e] its engine. *)
Record reopenable (env : OpenEnv) (d : D) (c : Catalog S F) (e : Engine T) (sealed_ids : list Z) (id : Z)
    (dirents : list (Result DirEnt)) : Prop := {
  ro_calm : fo_faults (dk_folder d) = [];
  ro_unlocked : fo_locked (dk_folder d) = false;
  ro_lock : is_Some (fo_files (dk_folder d) !! LOCK_FILE);
  ro_version : exists bs, fo_files (dk_folder d) !! VERSION_MARKER = Some bs /\ file_header V3 `prefix_of` bs;
  ro_journals : journals_in (fo_files (dk_folder d)) sealed_ids id (en_contents e) (en_journal e);
  ro_catalog : dk_catalog d = crash c;
  ro_catalog_ok : catalog_ok c /\ keyspace_id_counter c <= u64_max;
  ro_trees : dk_trees d = reopened (en_trees e);
  ro_live ks : known c ks -> live e ks;
  ro_few : (size (cat_keyspaces c) <= CHANNEL_SIZE)%nat;
  ro_dirents : oe_dirents env = Ok dirents /\ lists_folders dirents (cat_folders c) /\ Forall (fun r => is_ok r = true) dirents;
  ro_answers : disk_answers (oe_recover env) c;
  ro_env : oe_meta env = Ok () /\ (forall n, oe_len env n = Ok ()) /\ (forall n, oe_read env n = Ok ()) /\ Forall (eq (Ok ())) (oe_spawn env)
}.

(** Up to the recovery of the data. *)
Lemma recover_opens env d c e sealed_ids id dirents :
  reopenable env d c e sealed_ids id dirents ->
  exists c', catalog_ok c' /\ cat_tree c' = cat_tree c /\
    (forall name, cat_keyspaces c' !! name = rec_handle assigner <$> cat_keyspaces c !! name) /\
    let d1 := mkDisk (set_locked true (dk_folder d)) c' (dk_trees d) in
    let journals := mkRecoveryResult (journal_name id) ((fun i => (i, journal_name i)) <$> sealed_ids) false in
    forall f s x, recover_data values handles env journals d1 = Some (mkDisk f c' (rv_trees s), Ok (s, x)) ->
      (length x.2 <= CHANNEL_SIZE)%nat ->
      open env d = Some (mkDisk f c' (rv_trees s),
        Ok (mkOpenDb c' s x.1 x.2 (journal_name id)
              (mkPool (replicate (length (oe_spawn env)) Running) (Z.of_nat (length (oe_spawn env))) false))).
Proof.
  intros [Hc Hu [lk Hlk] (bs & Hbs & Hver) Hj Ecat [Hcat Hcnt] Etr Hlive Hfew (Edir & Hdir & Hdok) Hans (Emeta & Elen & Eread & Hspawn)].
  destruct (recover_keyspaces_spec assigner (oe_recover env) dirents c Hcat Hcnt Hdir) as (c' & r & Er & Hr & Hok).
  rewrite (Hok Hans Hdok) in Er, Hr. destruct (Hr eq_refl) as (Hok' & Et & Hks & _). exists c'. split_and!; [done|done|done|].
  destruct d as [[ex ksdir files locked faults] cat t]. cbn [dk_folder dk_catalog dk_trees fo_faults fo_locked fo_files] in *. subst faults locked cat.
  intros f s x Ed Hx. unfold create_or_recover.
  erewrite on_folder_ok by (by apply calm_try_exists). cbn [dk_folder fo_files]. rewrite bool_decide_eq_true_2 by (by eexists). unfold db_recover.
  erewrite on_folder_ok.
  2: { unfold folder_check_version, st_bind. erewrite calm_read by done. unfold st_lift. by rewrite (proj2 (check_version_Ok bs) Hver). }
  erewrite on_folder_ok.
  2: { unfold lock_try_acquire, st_bind at 1. erewrite calm_open by done. cbn [try_lock_loop RETRIES]. unfold st_bind. by rewrite calm_try_lock. }
  unfold guarded. erewrite on_folder_ok.
  2: { destruct (ji_active _ _ _ _ _ Hj) as (contents & ? & Hact & _).
       unfold journal_recover, st_bind, st_read. rewrite io_calm by done. cbn [set_folder dk_folder set_locked fo_files].
       rewrite (journals_found _ _ _ _ _ Hj). cbn [was_active_created active]. rewrite calm_try_exists by done.
       erewrite calm_open by done. by rewrite io_calm. }
  unfold ps_bind at 1, ps_pure, p_lift. rewrite Emeta. unfold ps_bind at 1, on_catalog. cbn [dk_catalog set_folder]. rewrite Edir, Er.
  cbn [dk_folder dk_trees set_folder set_locked fo_exists fo_keyspaces fo_files fo_faults]. unfold ps_bind at 1.
  change (set_locked true (mkFolder ex ksdir files false [])) with (mkFolder ex ksdir files true []) in Ed |- *. rewrite Ed.
  unfold ps_bind, queue_flushes. cbn [snd fst]. rewrite decide_True by done. unfold start_workers. by rewrite start_all_ok.
Qed.

(** The engine the workers of an opened database start with; [e] is the one whose journals
    are on disk. *)
Definition opened_engine (e : Engine T) (db : OpenDb S F T) : Engine T :=
  mkEngine (rv_trees (od_state db)) (en_journal e) (en_contents e) (rv_manager (od_state db)) (keyspace_ids (od_catalog db)) ∅
    (rv_seqno (od_state db)) (od_tracker db) (rv_write_buffer_size (od_state db))
    (replicate (length (od_flush_queue db)) MFlush) (od_flush_queue db) 0 0.

(** What recovery finds in the folder, with the catalogue [c'] it has rebuilt. *)
Definition image_of (env : OpenEnv) (d : D) (c' : Catalog S F) (sealed_ids : list Z) (contents file : bytes) : Image :=
  mkImage (fun ks => bool_decide (ks ∈ keyspace_ids c')) (resolve_keyspace c') values (keyspace_ids c')
    ((fun i => sealed_file_of env d (journal_name i)) <$> sealed_ids) contents file.

Lemma rebuilt_known (c c' : Catalog S F) ks :
  (forall name, cat_keyspaces c' !! name = rec_handle assigner <$> cat_keyspaces c !! name) -> known c' ks <-> known c ks.
Proof.
  intros Hks. unfold known. setoid_rewrite Hks. split.
  - intros (name & h & (h0 & E & ->)%fmap_Some & <-). by exists name, h0.
  - intros (name & h & E & <-). exists name, (rec_handle assigner h). by rewrite E.
Qed.

Lemma folder_image env d c e sealed_ids id dirents c' :
  reopenable env d c e sealed_ids id dirents -> catalog_ok c' -> cat_tree c' = cat_tree c ->
  (forall name, cat_keyspaces c' !! name = rec_handle assigner <$> cat_keyspaces c !! name) ->
  let d1 := mkDisk (set_locked true (dk_folder d)) c' (dk_trees d) in
  exists contents file, fo_files (dk_folder d) !! journal_name id = Some contents /\ crash_image e (image_of env d1 c' sealed_ids contents file).
Proof.
  intros Hro Hok' Et Hks d1. pose proof Hro as [_ _ _ _ Hj _ _ _ Hlive _ _ [_ Hreads] (_ & Elen & Eread & _)].
  destruct (ji_active _ _ _ _ _ Hj) as (contents & file & Hact & Hread). exists contents, file. split; [done|].
  split; cbn [image_of im_known im_lookup im_values im_keyspaces im_files im_contents im_truncated].
  - intros ks. apply resolve_known; [done|]. by rewrite Et.
  - done.
  - intros ks. apply bool_decide_eq_true.
  - intros ks Hk%bool_decide_eq_true. by apply Hlive, (rebuilt_known c c'), keyspace_ids_known.
  - apply Forall2_fmap_l. eapply Forall2_impl; [apply (ji_sealed _ _ _ _ _ Hj)|]. intros i bs (cts & fl & Hf & Hb).
    change (journal_of (sealed_file_of env d1 (journal_name i)) bs).
    unfold journal_of, sealed_file_of, journal_contents. cbn [sf_len sf_contents]. rewrite Elen, Eread. cbn [mbind Result_bind].
    change (fo_files (dk_folder d1)) with (fo_files (dk_folder d)). rewrite Hf. split; [done|]. by exists cts, fl.
  - done.
Qed.

(** The files after their incomplete tails were cut off. *)
Definition cut_file (contents : bytes) : option bytes := snd <$> read_journal contents.
Definition cut_files (names : list str) (files : gmap str bytes) (name : str) : option bytes :=
  if decide (name ∈ names) then files !! name ≫= cut_file else files !! name.

Lemma written_back (g : str -> option bytes) (names : list str) (files : gmap str bytes) (name : str) :
  Forall (fun n => is_Some (g n)) names ->
  ((list_to_map (zip names (omap g names)) : gmap str bytes) ∪ files) !! name = if decide (name ∈ names) then g name else files !! name.
Proof.
  intros Hg. assert ((list_to_map (zip names (omap g names)) : gmap str bytes) !! name = if decide (name ∈ names) then g name else None) as E.
  { induction Hg as [|n names [x Hx] _ IH]; [done|]. cbn [omap list_omap]. rewrite Hx. cbn [zip list_to_map foldr uncurry].
    destruct (decide (n = name)) as [->|Hne].
    - rewrite lookup_insert_eq, decide_True by left. done.
    - rewrite lookup_insert_ne by done. etrans; [exact IH|]. destruct (decide (name ∈ names)) as [Hin|Hout].
      + by rewrite decide_True by (by right).
      + by rewrite decide_False by (intros [?|?]%elem_of_cons; congruence). }
  destruct (decide (name ∈ names)) as [Hin|Hout].
  - rewrite Forall_forall in Hg. destruct (Hg name Hin) as [x Hx]. rewrite Hx in E |- *. by apply lookup_union_Some_l.
  - by rewrite lookup_union_r.
Qed.

Lemma omap_fmap {A B C} (f : A -> B) (g : B -> option C) (l : list A) : omap g (f <$> l) = omap (fun x => g (f x)) l.
Proof. induction l as [|x l IH]; [done|]. rewrite fmap_cons. cbn [omap list_omap]. change (list_omap B C g (f <$> l)) with (omap g (f <$> l)). by rewrite IH. Qed.

(** The data is recovered from that image, and the queue of flushes fits the channel. *)
Lemma recover_data_image env d c e sealed_ids id dirents c' contents file s x :
  reopenable env d c e sealed_ids id dirents ->
  (forall name, cat_keyspaces c' !! name = rec_handle assigner <$> cat_keyspaces c !! name) ->
  let d1 := mkDisk (set_locked true (dk_folder d)) c' (dk_trees d) in
  let journals := mkRecoveryResult (journal_name id) ((fun i => (i, journal_name i)) <$> sealed_ids) false in
  fo_files (dk_folder d) !! journal_name id = Some contents -> read_journal contents = Some (Ok (batch_of <$> en_journal e), file) ->
  recover_image (image_of env d1 c' sealed_ids contents file) e = Some (s, Ok x) ->
  rv_files s = omap left_file (im_files (image_of env d1 c' sealed_ids contents file)) ++ [file] ->
  exists f, recover_data values handles env journals d1 = Some (mkDisk f c' (rv_trees s), Ok (s, x)) /\ fo_locked f = true /\
    (forall name, fo_files f !! name = cut_files (journal_name <$> sealed_ids ++ [id]) (fo_files (dk_folder d)) name) /\
    (length x.2 <= CHANNEL_SIZE)%nat.
Proof.
  intros Hro Hks d1 journals Hact Hread Erec Hfiles. pose proof Hro as [_ _ _ _ Hj _ _ Etr _ Hfew _ _ (_ & _ & Eread & _)].
  unfold recover_image in Erec. cbn [image_of im_lookup im_values im_keyspaces im_files im_contents] in Erec, Hfiles. eexists. split_and!.
  - unfold recover_data. cbn [was_active_created active JournalFiles.sealed dk_catalog dk_folder d1 dk_trees journals].
    unfold journal_contents at 1. rewrite Eread. cbn [mbind Result_bind].
    change (fo_files (dk_folder d1)) with (fo_files (dk_folder d)). rewrite Hact.
    rewrite <- list_fmap_compose, Etr. cbn [compose snd]. fold (keyspace_ids c'). unfold compose. cbn [snd]. by rewrite Erec.
  - done.
  - set (files := fo_files (dk_folder d)) in *. set (g := fun n => files !! n ≫= cut_file).
    assert (forall i, left_file (sealed_file_of env d1 (journal_name i)) = g (journal_name i)) as Hg.
    { intros i. unfold left_file, sealed_file_of, journal_contents, g, cut_file. cbn [sf_contents]. rewrite Eread. cbn [mbind Result_bind].
      change (fo_files (dk_folder d1)) with files. by destruct (files !! journal_name i). }
    assert (g (journal_name id) = Some file) as Hgid by (unfold g, cut_file; rewrite Hact; cbn [mbind option_bind]; by rewrite Hread).
    assert (rv_files s = omap g (journal_name <$> sealed_ids ++ [id])) as Eg.
    { rewrite Hfiles, fmap_app, omap_app, !omap_fmap. f_equal.
      - clear - Hg. induction sealed_ids as [|i ids IH]; [done|]. cbn [omap list_omap]. rewrite Hg. change (list_omap Z bytes) with (@omap list _ Z bytes). by rewrite IH.
      - cbn [omap list_omap]. by rewrite Hgid. }
    intros name. cbn [set_files fo_files dk_folder d1 set_locked]. rewrite Eg.
    assert (((fun i => (i, journal_name i)) <$> sealed_ids).*2 ++ [journal_name id] = journal_name <$> sealed_ids ++ [id]) as En.
    { rewrite fmap_app, <- list_fmap_compose. done. }
    cbn [JournalFiles.sealed active journals]. rewrite En. apply written_back. rewrite fmap_app. apply Forall_app. split.
    + apply Forall_fmap. pose proof (ji_sealed _ _ _ _ _ Hj) as Hs. apply list.Forall_forall. intros i [n Hn]%list_elem_of_lookup.
      destruct (Forall2_lookup_l _ _ _ _ _ Hs Hn) as (bs & _ & cts & fl & Hf & Hb). unfold g, cut_file, compose. fold files in Hf. rewrite Hf. cbn [mbind option_bind]. rewrite Hb. by eexists.
    + constructor; [|constructor]. rewrite Hgid. by eexists.
  - destruct x as [tracker queue]. apply recover_database_queue in Erec. etrans; [exact Erec|]. etrans; [|exact Hfew].
    unfold keyspace_ids. rewrite length_fmap, handles_perm, length_fmap, length_map_to_list.
    assert (cat_keyspaces c' = rec_handle assigner <$> cat_keyspaces c) as -> by (apply map_eq; intros name; by rewrite lookup_fmap, Hks).
    by rewrite map_size_fmap.
Qed.

(** What an image is recovered to, beyond its keyspaces. *)
Lemma image_elsewhere (e : Engine T) im s r v :
  crash_image e im -> recover_image im e = Some (s, r) -> im_known im (v_keyspace v) = false ->
  v ∈ versions (rv_trees s) -> v ∈ versions (reopened (en_trees e)).
Proof.
  intros Hci Erec. exact (recovered_elsewhere tree_clear_ok _ _ (ci_lookup _ _ Hci) _ (ci_values _ _ Hci) _ _ _
    (recovering_new (reopened (en_trees e))) s r v Erec).
Qed.
Lemma image_seqno (e : Engine T) im s r : crash_image e im -> recover_image im e = Some (s, r) -> 0 <= rv_seqno s.
Proof. intros Hci Erec. apply (frames_recover tree_clear_ok _ _ (ci_lookup _ _ Hci) _ (ci_values _ _ Hci)) in Erec as [_ Hle]. exact Hle. Qed.

(** Opening again, with what becomes of other keyspaces' trees and of the counter. *)
Lemma reopens w e fl c env d sealed_ids id dirents :
  lives w (e, fl) -> reopenable env d c e sealed_ids id dirents ->
  exists d' db, open env d = Some (d', Ok db) /\ catalog_ok (od_catalog db) /\
    (forall name, cat_keyspaces (od_catalog db) !! name = rec_handle assigner <$> cat_keyspaces c !! name) /\
    (forall ks key i, known c ks -> exact ks -> w <= i ->
      snapshot_get (versions (rv_trees (od_state db))) ks key i = snapshot_get (versions (finish fl (en_trees e))) ks key i) /\
    (forall v, v ∈ versions (rv_trees (od_state db)) -> known c (v_keyspace v) -> v_seqno v < rv_seqno (od_state db)) /\
    tracker_get (od_tracker db) = Z.max 0 (rv_seqno (od_state db)) /\
    od_journal db = journal_name id /\
    (forall name, fo_files (dk_folder d') !! name = cut_files (journal_name <$> sealed_ids ++ [id]) (fo_files (dk_folder d)) name) /\
    fo_locked (dk_folder d') = true /\
    (Forall (fun b => b.1 < rv_seqno (od_state db)) (all_batches e) -> lives w (opened_engine e db, None)) /\
    (forall v, v ∈ versions (rv_trees (od_state db)) -> ~ known c (v_keyspace v) -> v ∈ versions (dk_trees d)) /\ 0 <= rv_seqno (od_state db).
Proof.
  intros Hlives Hro. destruct (recover_opens _ _ _ _ _ _ _ Hro) as (c' & Hok' & Et & Hks & Hopen). cbv zeta in Hopen.
  destruct (folder_image _ _ _ _ _ _ _ c' Hro Hok' Et Hks) as (contents & file & Hact & Hci).
  destruct (image_recovers tree_clear_ok w e fl _ Hlives Hci) as (s & tracker & queue & Erec & Hr & Hs & Htr & Hfi).
  destruct (recover_data_image _ _ _ _ _ _ _ c' contents file s (tracker, queue) Hro Hks Hact (ci_active _ _ Hci) Erec Hfi) as (f & Edata & Hlock & Hcut & Hq).
  assert (forall ks, known c ks -> bool_decide (ks ∈ keyspace_ids c') = true) as Hknown.
  { intros ks Hk. by apply bool_decide_eq_true, keyspace_ids_known, (rebuilt_known c c'). }
  eexists _, _. split_and!; [by apply (Hopen f s (tracker, queue))|done|done| | |done|done|done|done| | |].
  - intros ks key i Hk Hx Hi. by apply Hr; [apply Hknown| |].
  - intros v Hv Hk. by apply Hs; [|apply Hknown].
  - intros Hseq. rewrite Forall_forall in Hseq. by apply (lives_restart w e fl _ s tracker queue Hlives Hci Erec).
  - intros v Hv Hk. rewrite (ro_trees _ _ _ _ _ _ _ Hro). apply (image_elsewhere _ _ _ _ v Hci Erec); [|done].
    apply bool_decide_eq_false. rewrite keyspace_ids_known. by intros ?%(rebuilt_known c c').
  - by apply (image_seqno _ _ _ _ Hci Erec).
Qed.
End opening.

(** C3: Opening a database again after its process was killed, however often that has
    happened before, gives the same database, if the batches of its journals had reached
    their files (an incomplete one may follow), clearing a tree succeeds, nothing fails
    while it is opened and it has at most a thousand keyspaces, as many as the channel of
    the workers holds. Opening then succeeds and the dictionary has the same keyspaces
    with their stored options. Each keyspace that is compacted without losing data and
    never weakly removed from reads as before, with a write that was under way done, at
    all instants compactions have not passed. The sequence number is above all versions
    left in its keyspaces, writes go on in the newest journal, no other process can open
    the database, and of the files only the journals changed: what follows their last
    complete batch is cut off. Unless sequence numbers went back, the database can be
    killed and opened again. *)
Theorem reopen_restores `{JournalCodec, StrategyConfig, PrefixRange} {S F : Type} `{!ReadableOps S, !ReadableLaws S, !IngestOps S, !IngestLaws S}
    {T : Type} `{!TreeOps T, !TreeLaws T, !LsmOps T, !LsmLaws T, !FlushOps T, !FlushLaws T}
    (assigner : option (str -> option F)) (pre_allocated_bytes : nat) (listing : gmap str bytes -> list str)
    (values : gmap Z Z -> list (Z * Z)) (handles : gmap str (Handle F) -> list (Handle F))
    w (e : Engine T) fl (c : Catalog S F) env d sealed_ids id dirents :
  clears_succeed T -> (forall files, listing files ≡ₚ (map_to_list files).*1) ->
  (forall wms, values wms ≡ₚ map_to_list wms) -> (forall m, handles m ≡ₚ (map_to_list m).*2) ->
  lives w (e, fl) -> reopenable env d c e sealed_ids id dirents ->
  exists d' db, create_or_recover assigner pre_allocated_bytes listing values handles env d = Some (d', Ok db) /\ catalog_ok (od_catalog db) /\
    (forall name, cat_keyspaces (od_catalog db) !! name = rec_handle assigner <$> cat_keyspaces c !! name) /\
    (forall ks key i, known c ks -> exact ks -> w <= i ->
      snapshot_get (versions (rv_trees (od_state db))) ks key i = snapshot_get (versions (finish fl (en_trees e))) ks key i) /\
    (forall v, v ∈ versions (rv_trees (od_state db)) -> known c (v_keyspace v) -> v_seqno v < rv_seqno (od_state db)) /\
    tracker_get (od_tracker db) = Z.max 0 (rv_seqno (od_state db)) /\
    od_journal db = journal_name id /\
    (forall name, fo_files (dk_folder d') !! name = cut_files (journal_name <$> sealed_ids ++ [id]) (fo_files (dk_folder d)) name) /\
    fo_locked (dk_folder d') = true /\
    (Forall (fun b => b.1 < rv_seqno (od_state db)) (all_batches e) -> lives w (opened_engine handles e db, None)).
Proof.
  intros Hc Hp1 Hp2 Hp3 Hlives Hro.
  destruct (reopens assigner pre_allocated_bytes listing values handles Hc Hp1 Hp2 Hp3 w e fl c env d sealed_ids id dirents Hlives Hro) as (d' & db & Hr).
  exists d', db. tauto.
Qed.

(** ** Interrupted creations *)

Section interrupted.
Context `{JournalCodec, StrategyConfig, PrefixRange} {S F : Type} `{!ReadableOps S, !ReadableLaws S, !IngestOps S, !IngestLaws S}.
Context {T : Type} `{!TreeOps T, !TreeLaws T, !LsmOps T, !LsmLaws T, !FlushOps T, !FlushLaws T}.
Context (assigner : option (str -> option F)) (pre_allocated_bytes : nat) (listing : gmap str bytes -> list str).
Context (values : gmap Z Z -> list (Z * Z)) (handles : gmap str (Handle F) -> list (Handle F)).

Abbreviation D := (Disk S F T).
Abbreviation open := (create_or_recover assigner pre_allocated_bytes listing values handles).

(** The first journal exists and the marker does not, or only a part of it. *)
Definition half_created (files : gmap str bytes) : Prop :=
  (files !! VERSION_MARKER = None /\ is_Some (files !! journal_name 0)) \/
  exists n, (n < 4)%nat /\ files !! VERSION_MARKER = Some (take n (file_header V3)).

(** The files stay, up to a lock file. *)
Definition keeps_files {A} (m : StateR Folder A) : Prop := forall f f' r, m f = (f', r) ->
  forall name, name <> LOCK_FILE -> fo_files f' !! name = fo_files f !! name.

Lemma keeps_bind {A B} (m : StateR Folder A) (k : A -> StateR Folder B) : keeps_files m -> (forall a, keeps_files (k a)) -> keeps_files (st_bind m k).
Proof.
  intros Hm Hk f f' r. unfold st_bind. destruct (m f) as [g [a|e]] eqn:E; [|intros [= <- _]; by apply Hm in E].
  intros E2 name Hn. rewrite (Hk _ _ _ _ E2) by done. by apply (Hm _ _ _ E).
Qed.
Lemma keeps_inert {A} (m : StateR Folder A) : inert m -> keeps_files m.
Proof. intros Hm f f' r E name _. apply Hm, same_files in E as (_ & _ & -> & _). done. Qed.
Lemma keeps_io_then g : (forall f, fo_files (g f) = fo_files f) -> keeps_files (io_then g).
Proof. intros Hg. apply keeps_bind; [apply keeps_inert, inert_io|]. intros _ f f' r [= <- _] name _. by rewrite Hg. Qed.

Lemma keeps_lock_create : keeps_files lock_create_new.
Proof.
  apply keeps_bind.
  - intros f f' r E name Hn. unfold file_create_new, st_bind in E. destruct (io f) as [g [[]|e]] eqn:Ei.
    + apply (keeps_inert io inert_io _ _ _ Ei name) in Hn as Hg. destruct (fo_files g !! LOCK_FILE).
      * rewrite <- Hg. by apply (keeps_inert _ (inert_file_open LOCK_FILE) _ _ _ E).
      * injection E as <- _. cbn. by rewrite lookup_insert_ne.
    + apply (keeps_inert io inert_io _ _ _ Ei name) in Hn as Hg.
      destruct e as [| [] | | | | | | | | | | | | | | | | | |]; try (by injection E as <- _).
      rewrite <- Hg. by apply (keeps_inert _ (inert_file_open LOCK_FILE) _ _ _ E).
  - intros []. apply keeps_bind; [|intros []; by intros f f' r [= <- _]].
    apply keeps_bind; [apply keeps_inert, inert_io|]. intros _ f f' r. by destruct (fo_locked f); intros [= <- _].
Qed.

(** The steps of a creation up to the first journal, which exists already. *)
Lemma journal_exists_fails f f' r name :
  is_Some (fo_files f !! name) -> journal_create_new pre_allocated_bytes name f = (f', r) -> same_folder f f' /\ is_ok r = false.
Proof.
  intros [bs Hf]. unfold journal_create_new, file_create_new, st_bind at 1.
  destruct (io_cases f) as (g & Hg & [-> |[k ->]]); [|by intros [= <- <-]]. unfold st_bind at 1 2.
  destruct (io_cases g) as (h & Hh & [-> |[k ->]]); [|by intros [= <- <-]; split; [eapply same_folder_trans|]].
  pose proof (same_files _ _ (same_folder_trans _ _ _ Hg Hh)) as (_ & _ & Ef & _). rewrite <- Ef, Hf.
  intros [= <- <-]. split; [by eapply same_folder_trans|done].
Qed.

(** No marker, but a journal: a computation that fails on this and leaves it so. *)
Definition unmarked (d : D) : Prop := fo_files (dk_folder d) !! VERSION_MARKER = None /\ is_Some (fo_files (dk_folder d) !! journal_name 0).
Definition fails {A} (m : PState D A) : Prop := forall d, unmarked d -> exists d' e, m d = Some (d', Err e) /\ unmarked d'.

Lemma unmarked_keeps {A} (m : StateR Folder A) d f r : keeps_files m -> m (dk_folder d) = (f, r) -> unmarked d -> unmarked (set_folder f d).
Proof. intros Hm E [Hv Hj]. unfold unmarked. cbn. by rewrite !(Hm _ _ _ E). Qed.

Lemma open_fails_bind {A B} (m : StateR Folder A) (k : A -> PState D B) : keeps_files m -> (forall a, fails (k a)) -> fails (ps_bind (on_folder m) k).
Proof.
  intros Hm Hk d Hd. destruct (m (dk_folder d)) as [f [a|e]] eqn:E; apply (unmarked_keeps m d f _ Hm E) in Hd.
  - rewrite (on_folder_ok _ _ _ _ _ E). by apply Hk.
  - exists (set_folder f d), e. split; [by apply on_folder_err|done].
Qed.

Lemma fails_guarded {A} (m : PState D A) : fails m -> fails (guarded m).
Proof. intros Hm d Hd. unfold guarded. destruct (Hm d Hd) as (d' & e & -> & Hd'). by eexists _, e. Qed.

Lemma fails_journal {A} (k : () -> PState D A) : fails (ps_bind (on_folder (journal_create_new pre_allocated_bytes (journal_name 0))) k).
Proof.
  intros d Hd. destruct (journal_create_new pre_allocated_bytes (journal_name 0) (dk_folder d)) as [f r] eqn:E.
  destruct (journal_exists_fails _ _ _ _ (proj2 Hd) E) as [Hs Hr]. destruct r as [[]|e]; [done|].
  exists (set_folder f d), e. split; [by apply on_folder_err|]. apply same_files in Hs as (_ & _ & Ef & _). unfold unmarked. cbn. by rewrite <- Ef.
Qed.

Lemma create_fails env : fails (db_create_new pre_allocated_bytes env).
Proof.
  apply open_fails_bind; [by apply keeps_io_then|intros _]. apply open_fails_bind; [apply keeps_lock_create|intros _].
  apply fails_guarded. apply open_fails_bind; [by apply keeps_io_then|intros _]. apply fails_journal.
Qed.

(** An opening that finds a half-created database fails, whatever happens, and leaves it
    half created. *)
Theorem half_created_stuck env (d : D) :
  half_created (fo_files (dk_folder d)) ->
  exists d' e, open env d = Some (d', Err e) /\ half_created (fo_files (dk_folder d')).
Proof.
  intros [Hd|(n & Hn & Hv)].
  2: { destruct (open_untouched assigner pre_allocated_bytes listing values handles env d) as (d' & e & E & (Hs & _) & _).
       - left. eexists. split; [done|]. by rewrite torn_header_invalid.
       - exists d', e. split; [done|]. right. exists n. split; [done|]. by apply same_files in Hs as (_ & _ & <- & _). }
  enough (exists d' e, open env d = Some (d', Err e) /\ unmarked d') as (d' & e & E & Hd'); [exists d', e; split; [done|by left]|].
  unfold create_or_recover. destruct (try_exists VERSION_MARKER (dk_folder d)) as [f [marked|e]] eqn:Et;
    apply (unmarked_keeps _ d f _ (keeps_inert _ (inert_try_exists VERSION_MARKER)) Et) in Hd as Hf.
  2: { eexists _, e. split; [by apply on_folder_err|done]. }
  rewrite (on_folder_ok _ _ _ _ _ Et). assert (marked = false) as ->; [|by apply create_fails].
  unfold try_exists, st_bind in Et. destruct (io_cases (dk_folder d)) as (g & Hg & [Ei|[k Ei]]); rewrite Ei in Et; [|done].
  injection Et as <- <-. apply same_files in Hg as (_ & _ & <- & _). by rewrite (proj1 Hd).
Qed.
End interrupted.

(** ** Samples: the database of [sample_end], killed *)

Definition one_keyspace : SampleCatalog := create_sample "a" empty_catalog.
Definition sample_listing (files : gmap str bytes) : list str := (map_to_list files).*1.
Definition sample_handles (m : gmap str (Handle ())) : list (Handle ()) := (map_to_list m).*2.
(** A sealed journal, and an active one with a torn tail. *)
Definition sample_files : gmap str bytes :=
  <[LOCK_FILE := []]> (<[VERSION_MARKER := file_header V3]>
    (<[journal_name 1 := journal_bytes (nth 0 (en_contents sample_end) [])]>
      (<[journal_name 2 := journal_bytes (en_journal sample_end) ++ zeros 8]> ∅))).
Definition killed_with (c : SampleCatalog) : Disk (gmap bytes bytes) () FlushHist :=
  mkDisk (mkFolder true true sample_files false []) (crash c) (reopened (en_trees sample_end)).
Definition killed_disk : Disk (gmap bytes bytes) () FlushHist := killed_with one_keyspace.
Definition sample_dirs : list (Result DirEnt) := [Ok (KeyspaceDir (Some 0)); Ok (KeyspaceDir (Some 1))].
Definition open_env : OpenEnv :=
  mkOpenEnv (fun _ f => f) (Ok ()) recover_env_ok (Ok sample_dirs) (fun _ => Ok ()) (fun _ => Ok ()) [Ok (); Ok ()].
Definition sample_open := create_or_recover (S := gmap bytes bytes) (T := FlushHist) (None : option (str -> option ())) 16 sample_listing map_to_list sample_handles.

(** A catalogue with one keyspace, number 1. *)
Record lists_one (name : string) (c : SampleCatalog) : Prop := {
  lo_keyspaces : h_id <$> cat_keyspaces c = {[s2str name := 1]};
  lo_folders : cat_folders c = {[1 := true]};
  lo_ok : catalog_ok c /\ keyspace_id_counter c <= u64_max
}.

Lemma lists_one_known name c ks : lists_one name c -> known c ks <-> ks = 1.
Proof.
  intros [E _ _]. split.
  - intros (n & h & Eh & <-). assert ((h_id <$> cat_keyspaces c) !! n = Some (h_id h)) as E' by (by rewrite lookup_fmap, Eh).
    rewrite E in E'. by apply lookup_singleton_Some in E' as [_ <-].
  - intros ->. assert ((h_id <$> cat_keyspaces c) !! s2str name = Some 1) as E' by (by rewrite E, lookup_singleton_eq).
    rewrite lookup_fmap in E'. apply fmap_Some in E' as (h & Eh & ->). by exists (s2str name), h.
Qed.

Lemma one_keyspace_lists : lists_one "a" one_keyspace.
Proof.
  split; [apply (bool_decide_unpack _); vm_compute; reflexivity|apply (bool_decide_unpack _); vm_compute; reflexivity|].
  split; [|vm_compute; done]. apply create_sample_ok; [done|apply empty_catalog_ok|done].
Qed.

Lemma one_keyspace_known ks : known one_keyspace ks <-> ks = 1.
Proof. apply (lists_one_known "a"), one_keyspace_lists. Qed.

Lemma sample_journals_in : journals_in sample_files [1] 2 (en_contents sample_end) (en_journal sample_end).
Proof.
  constructor.
  - repeat constructor; unfold_ranges; lia.
  - apply (bool_decide_unpack _). vm_compute. reflexivity.
  - intros name [bs E] Hj. unfold sample_files in E.
    repeat (apply lookup_insert_Some in E as [[<- _]|[_ E]]); [vm_compute in Hj; discriminate..|exists 1|exists 2|by rewrite lookup_empty in E];
      (split; [set_solver|done]).
  - change (en_contents sample_end) with [nth 0 (en_contents sample_end) []]. constructor; [|constructor].
    eexists _, _. split; [reflexivity|vm_compute; reflexivity].
  - eexists _, _. split; [reflexivity|vm_compute; reflexivity].
Qed.

Lemma killed_with_reopenable name c : lists_one name c -> reopenable open_env (killed_with c) c sample_end [1] 2 sample_dirs.
Proof.
  intros Hone. pose proof Hone as [Ek Ef Hok]. split.
  - done.
  - done.
  - by eexists.
  - eexists. split; [reflexivity|]. by exists [].
  - apply sample_journals_in.
  - done.
  - done.
  - done.
  - intros ks ->%(lists_one_known _ _ _ Hone). split; [by vm_compute; left|]. apply not_elem_of_empty.
  - rewrite <- (map_size_fmap h_id), Ek, map_size_singleton. unfold CHANNEL_SIZE. lia.
  - split; [done|]. split; [|by repeat constructor]. split_and!.
    + by apply (bool_decide_unpack _).
    + by apply (bool_decide_unpack _).
    + intros id. change (omap dir_id sample_dirs) with [1]. rewrite Ef, lookup_singleton_is_Some. set_solver.
  - done.
  - split_and!; [done|done|done|]. by repeat constructor.
Qed.

Lemma killed_reopenable : reopenable open_env killed_disk one_keyspace sample_end [1] 2 sample_dirs.
Proof. apply (killed_with_reopenable "a"), one_keyspace_lists. Qed.

Lemma reopen_restores_witness :
  exists d' db, sample_open open_env killed_disk = Some (d', Ok db) /\ od_journal db = journal_name 2 /\
    fo_files (dk_folder d') !! journal_name 2 = Some (journal_bytes (en_journal sample_end)) /\
    h_id <$> cat_keyspaces (od_catalog db) !! s2str "a" = Some 1 /\
    snapshot_get (versions (rv_trees (od_state db))) 1 key_b 5 = Some [Byte.x04].
Proof.
  destruct (reopen_restores (None : option (str -> option ())) 16 sample_listing map_to_list sample_handles
    4 sample_end None one_keyspace open_env killed_disk [1] 2 sample_dirs fh_clear_ok
    (fun _ => Permutation_refl _) (fun _ => Permutation_refl _) (fun _ => Permutation_refl _) sample_lives killed_reopenable)
    as (d' & db & E & _ & Hks & Hv & _ & _ & Ej & Hf & _).
  exists d', db. split_and!; [exact E|exact Ej|rewrite Hf; vm_compute; reflexivity| |].
  - rewrite Hks. assert (h_id <$> (cat_keyspaces one_keyspace !! s2str "a") = Some 1) as E1 by (vm_compute; reflexivity).
    by destruct (cat_keyspaces one_keyspace !! s2str "a").
  - rewrite (Hv 1 key_b 5 (proj2 (one_keyspace_known 1) eq_refl) (fh_exact 1) ltac:(done)). vm_compute. reflexivity.
Defined.

(** The folder with the marker of version 2. *)
Definition v2_disk : Disk (gmap bytes bytes) () FlushHist :=
  mkDisk (mkFolder true true (<[VERSION_MARKER := file_header V2]> sample_files) false []) (crash one_keyspace) (reopened (en_trees sample_end)).

Lemma open_refused_witness :
  exists d', sample_open open_env v2_disk = Some (d', Err (InvalidVersion (Some V2))) /\ untouched v2_disk d'.
Proof.
  assert (fo_files (dk_folder v2_disk) !! VERSION_MARKER = Some (file_header V2)) as Hf by reflexivity.
  destruct (open_refused (None : option (str -> option ())) 16 sample_listing map_to_list sample_handles open_env v2_disk) as (d' & e & E & Hu & He).
  - left. exists (file_header V2). split; [exact Hf|done].
  - exists d'. rewrite (He eq_refl _ Hf) in E by done. split; [exact E|exact Hu].
Defined.

(** A creation that is cut off behind the first journal. *)
Definition empty_disk (faults : list Outcome) : Disk (gmap bytes bytes) () FlushHist :=
  mkDisk (mkFolder false false ∅ false faults) (crash empty_catalog) (mkFlushHist [] [] [] 0).
Definition cut_creation := sample_open open_env (empty_disk (replicate 11 Success ++ [Failure IoErrorOther 0])).

Lemma creation_leaves_half :
  match cut_creation with
  | Some (d, Err _) => fo_files (dk_folder d) !! VERSION_MARKER = None /\ fo_files (dk_folder d) !! journal_name 0 = Some (zeros 16)
  | _ => False
  end.
Proof. vm_compute. done. Qed.
