(* ===== verification/Databases.v ===== *)
(** * Databases as their users hold them

    Models the rest of [Database] ([src/src/db.rs]): opening, the getters and the
    destructor; and the transactional databases [TxDatabase]
    ([src/src/tx/single_writer/mod.rs]) and [OptimisticTxDatabase]
    ([src/src/tx/optimistic/mod.rs]), which are a database with a writer lock or an
    oracle, on top of [Opening]. *)

From stdpp Require Import base gmap list strings.
From S2P Require Import Prelude Errors Utf8 Visibility Composite Store Panic JournalEntry JournalReader JournalWriter JournalFiles.
From S2P Require Import SnapshotTracker BTree ConflictManager Mvcc Db WriteTx Optimistic TxHandles Readers Recovery KeyspaceConfig MetaKeyspace KeyspaceOptions Catalog Version Engine WorkerPool Opening.

(** A [Database]: the catalogue of keyspaces, the data with journal, counters and
    tracker, the sealed journals, the queue of flushes and the threads. *)
Record LiveDb (S F T : Type) := mkLiveDb {
  ld_catalog : Catalog S F;
  ld_data : Database T;
  ld_manager : JournalManager (K := Z);
  ld_tasks : list Z;
  ld_pool : Pool
}.
Arguments mkLiveDb {S F T}.
Arguments ld_catalog {S F T}.
Arguments ld_data {S F T}.
Arguments ld_manager {S F T}.
Arguments ld_tasks {S F T}.
Arguments ld_pool {S F T}.

(** [TxDatabase]; [txd_busy] says whether a transaction holds the writer lock. *)
Record TxDatabase (S F T : Type) := mkTxDatabase { txd_inner : LiveDb S F T; txd_busy : bool }.
Arguments mkTxDatabase {S F T}.
Arguments txd_inner {S F T}.
Arguments txd_busy {S F T}.

(** [OptimisticTxDatabase]; the tracker of its oracle is that of the database. *)
Record OptimisticTxDatabase (S F T : Type) := mkOptimisticTxDatabase { otd_inner : LiveDb S F T; otd_committed : list (Z * ConflictManager) }.
Arguments mkOptimisticTxDatabase {S F T}.
Arguments otd_inner {S F T}.
Arguments otd_committed {S F T}.

Section databases.
#[local] Open Scope pstate_scope.
Context `{JournalCodec, StrategyConfig, PrefixRange} {S F : Type} `{!ReadableOps S, !IngestOps S}.
Context {T M : Type} `{!TreeOps T, !LsmOps T, !MemtableOps M}.
Context (assigner : option (str -> option F)).
Context (pre_allocated_bytes : nat) (listing : gmap str bytes -> list str).
Context (values : gmap Z Z -> list (Z * Z)) (handles : gmap str (Handle F) -> list (Handle F)).
(** [config.manual_journal_persist] and [config.clean_path_on_drop]. *)
Context (manual clean_path_on_drop : bool).

Abbreviation Live := (LiveDb S F T).
Abbreviation D := (Disk S F T).
Abbreviation TxDb := (TxDatabase S F T).
Abbreviation OptDb := (OptimisticTxDatabase S F T).

(** ** Opening *)

(** What opening makes, with the writer of the active journal ([journal_resume]). *)
Definition database_of (w : Writer) (o : OpenDb S F T) : Live :=
  let s := od_state o in
  mkLiveDb (od_catalog o) (mkDatabase w (rv_trees s) (rv_seqno s) (od_tracker o) false (rv_write_buffer_size s))
    (rv_manager s) (od_flush_queue o) (od_pool o).

Definition db_open (env : OpenEnv) (w : Writer) : PState D Live :=
  o <-- create_or_recover assigner pre_allocated_bytes listing values handles env ;; ps_ret (database_of w o).

(** [<TxDatabase as Openable>::open] and [TxDatabase::open]. *)
Definition tx_openable_open (env : OpenEnv) (w : Writer) : PState D TxDb :=
  inner <-- db_open env w ;; ps_ret (mkTxDatabase inner false).
Definition tx_open (env : OpenEnv) (w : Writer) : PState D TxDb :=
  o <-- create_or_recover assigner pre_allocated_bytes listing values handles env ;; ps_ret (mkTxDatabase (database_of w o) false).

Definition opt_open (env : OpenEnv) (w : Writer) : PState D OptDb :=
  o <-- create_or_recover assigner pre_allocated_bytes listing values handles env ;; ps_ret (mkOptimisticTxDatabase (database_of w o) []).

(** ** The database *)

Definition set_data (db : Database T) (l : Live) : Live := mkLiveDb (ld_catalog l) db (ld_manager l) (ld_tasks l) (ld_pool l).
Definition on_data {A} (m : Database T -> Database T * A) (l : Live) : Live * A := let '(db, a) := m (ld_data l) in (set_data db l, a).
Definition on_keyspaces {A} (m : PState (Catalog S F) A) : PState Live A := fun l =>
  match m (ld_catalog l) with
  | Some (c, r) => Some (mkLiveDb c (ld_data l) (ld_manager l) (ld_tasks l) (ld_pool l), r)
  | None => None
  end.

(** [Database::batch]. *)
Definition db_batch : WriteBatch := if manual then batch_new else with_durability (Some Buffer) batch_new.

Definition db_write_buffer_size (l : Live) : Z := write_buffer_size (ld_data l).
Definition outstanding_flushes (l : Live) : nat := length (ld_tasks l).
Definition db_journal_count (l : Live) : nat := journal_count (ld_manager l).
Definition keyspace_count (l : Live) : nat := size (cat_keyspaces (ld_catalog l)).
Definition list_keyspace_names (keys : gmap str (Handle F) -> list str) (l : Live) : list str := keys (cat_keyspaces (ld_catalog l)).
Definition keyspace_exists (name : str) (l : Live) : bool := bool_decide (is_Some (cat_keyspaces (ld_catalog l) !! name)).
Definition current_seqno (l : Live) : Z := db_seqno (ld_data l).
Definition visible_seqno (l : Live) : Z := tracker_get (db_tracker (ld_data l)).

(** ** Single-writer transactions *)

(** [TxDatabase::write_tx]; [None] while another transaction holds the lock. *)
Definition txd_write_tx (x : TxDb) : option (TxDb * BaseTransaction M) :=
  if txd_busy x then None
  else let '(l, tx) := on_data (sw_write_tx manual) (txd_inner x) in Some (mkTxDatabase l true, tx).

(** The end of a transaction, which takes the guard with it. *)
Definition txd_commit (order : SnapshotTracker -> list (Z * nat)) (tables : BaseTransaction M -> list (str * (Keyspace * M)))
    (tx : BaseTransaction M) (x : TxDb) : option (TxDb * Result ()) :=
  '(db, r) ← sw_commit order tables tx (ld_data (txd_inner x));
  Some (mkTxDatabase (set_data db (txd_inner x)) false, r).
Definition txd_rollback (order : SnapshotTracker -> list (Z * nat)) (tx : BaseTransaction M) (x : TxDb) : TxDb :=
  mkTxDatabase (set_data (sw_rollback order tx (ld_data (txd_inner x))) (txd_inner x)) false.

Definition txd_read_tx (x : TxDb) : TxDb * Snapshot :=
  let '(l, snap) := on_data db_snapshot (txd_inner x) in (mkTxDatabase l (txd_busy x), snap).
Definition txd_persist (mode : PersistMode) (x : TxDb) : TxDb * Result () :=
  let '(l, r) := on_data (db_persist mode) (txd_inner x) in (mkTxDatabase l (txd_busy x), r).
Definition txd_keyspace (env : CreateEnv) (name : str) (options : CreateOptions F) : PState TxDb (Handle F) := fun x =>
  match on_keyspaces (db_keyspace assigner env name options) (txd_inner x) with
  | Some (l, r) => Some (mkTxDatabase l (txd_busy x), r)
  | None => None
  end.
Definition txd_keyspace_count (x : TxDb) : nat := keyspace_count (txd_inner x).
Definition txd_list_keyspace_names (keys : gmap str (Handle F) -> list str) (x : TxDb) : list str := list_keyspace_names keys (txd_inner x).
Definition txd_keyspace_exists (name : str) (x : TxDb) : bool := keyspace_exists name (txd_inner x).
Definition txd_write_buffer_size (x : TxDb) : Z := db_write_buffer_size (txd_inner x).
Definition txd_journal_count (x : TxDb) : nat := db_journal_count (txd_inner x).

(** ** Optimistic transactions *)

(** The database and the oracle, as [Optimistic] has them. *)
Definition otd_db (x : OptDb) : OptimisticDb T := mkOptimisticDb (ld_data (otd_inner x)) (otd_committed x).
Definition otd_set_db (s : OptimisticDb T) (x : OptDb) : OptDb := mkOptimisticTxDatabase (set_data (inner_db s) (otd_inner x)) (committed_txns s).

Definition otd_write_tx (x : OptDb) : OptDb * WriteTransaction M := let '(s, tx) := write_tx manual (otd_db x) in (otd_set_db s x, tx).
Definition otd_read_tx (x : OptDb) : OptDb * Snapshot :=
  let '(l, snap) := on_data db_snapshot (otd_inner x) in (mkOptimisticTxDatabase l (otd_committed x), snap).
Definition otd_persist (mode : PersistMode) (x : OptDb) : OptDb * Result () :=
  let '(l, r) := on_data (db_persist mode) (otd_inner x) in (mkOptimisticTxDatabase l (otd_committed x), r).
Definition otd_keyspace (env : CreateEnv) (name : str) (options : CreateOptions F) : PState OptDb (Handle F) := fun x =>
  match on_keyspaces (db_keyspace assigner env name options) (otd_inner x) with
  | Some (l, r) => Some (mkOptimisticTxDatabase l (otd_committed x), r)
  | None => None
  end.
Definition otd_keyspace_count (x : OptDb) : nat := keyspace_count (otd_inner x).
Definition otd_list_keyspace_names (keys : gmap str (Handle F) -> list str) (x : OptDb) : list str := list_keyspace_names keys (otd_inner x).
Definition otd_keyspace_exists (name : str) (x : OptDb) : bool := keyspace_exists name (otd_inner x).
Definition otd_write_buffer_size (x : OptDb) : Z := db_write_buffer_size (otd_inner x).
Definition otd_journal_count (x : OptDb) : nat := db_journal_count (otd_inner x).

(** ** Closing *)

(** What a flush puts into the file of a journal; bytes behind it stay. *)
Definition flush_file (w : Writer) (f : Folder) : Folder :=
  set_files (alter (fun contents => take (flushed w) (stream w) ++ drop (flushed w) contents) (name w) (fo_files f)) f.

(** [Drop for DatabaseInner], and of its fields; [None] is a destructor that never
    returns. [removal] is what [remove_dir_all] leaves, whose failure is only logged. The
    journal and the lock are shared with keyspace handles: if some are left, neither is
    dropped. *)
Definition db_drop (removal : D -> D) (handles_left : bool) (l : Live) (d : D) : option (Live * D) :=
  if drop_waits (ld_pool l) then None
  else
    let c := ld_catalog l in
    let c := mkCatalog (cat_tree c) ∅ (keyspace_id_counter c) (cat_folders c) (cat_deleted c) (cat_seqno c) (cat_visible_seqno c) in
    let d := if clean_path_on_drop then removal d else d in
    let db := ld_data l in
    if handles_left then Some (mkLiveDb c db (manager_clear (ld_manager l)) [] (ld_pool l), d)
    else
      let w := journal_drop (db_journal db) in
      Some (mkLiveDb c (mkDatabase w (db_trees db) (db_seqno db) (db_tracker db) (is_poisoned db) (write_buffer_size db))
              (manager_clear (ld_manager l)) [] (ld_pool l),
            set_folder (set_locked false (flush_file w (dk_folder d))) d).
End databases.
