(* ===== verification/DatabasesProps.v ===== *)
(** * Databases from opening to closing

    An optimistic database that is opened again starts with a complete log, so that all
    its transactions are serialisable; closing a database and opening it again loses
    nothing, and while handles are left it can not be opened. *)

From stdpp Require Import base gmap list sorting strings relations.
From S2P Require Import Prelude Errors Utf8 Visibility Composite Store Panic JournalEntry JournalReader JournalWriter JournalFiles.
From S2P Require Import SnapshotTracker BTree ConflictManager Mvcc Db DbProps WriteTx WriteTxProps KeyspaceMap Optimistic OptimisticProps SecureTx TxHandles TxHandlesProps Readers ReadersProps OptimisticSerial ReplayHistory Recovery RecoveryProps.
From S2P Require Import KeyspaceConfig MetaKeyspace KeyspaceOptions Catalog CatalogProps Version Engine EngineProps EngineRestart EngineDurable WorkerPool Opening OpeningProps Databases.

(** ** The life of an optimistic database *)

Section life.
Context `{JournalCodec, PrefixRange} {T M G : Type}.
Context `{!TreeOps T, !TreeLaws T, !MemtableOps M, !MemtableLaws M, !TreeReads T M, !TreeReadsLaws T M}.
Context `{!GuardOps G, !ScanOps T M G, !ScanLaws T M G}.

Abbreviation ODb := (OptimisticDb T).

(** Everything its users do: begin, commit and roll back transactions, open and drop
    snapshots, persist. *)
Inductive opt_step : ODb -> ODb -> Prop :=
  | os_begin manual s s' (tx : WriteTransaction M) : write_tx manual s = (s', tx) -> opt_step s s'
  | os_commit order tables s s' (tx : WriteTransaction M) r :
      otx_wf tx -> tables ≡ₚ map_to_list (memtables (inner tx)) -> otx_commit order tables tx s = Some (s', r) -> opt_step s s'
  | os_rollback order s (tx : WriteTransaction M) : opt_step s (otx_rollback order tx s)
  | os_snapshot s db snap : db_snapshot (inner_db s) = (db, snap) -> opt_step s (mkOptimisticDb db (committed_txns s))
  | os_drop order i s : opt_step s (mkOptimisticDb (drop_nonce order i (inner_db s)) (committed_txns s))
  | os_persist mode s db r : db_persist mode (inner_db s) = (db, r) -> opt_step s (mkOptimisticDb db (committed_txns s)).

Lemma opt_inv_same start (s : ODb) db :
  opt_inv start s -> db_trees db = db_trees (inner_db s) -> db_seqno db = db_seqno (inner_db s) -> db_tracker db = db_tracker (inner_db s) ->
  opt_inv start (mkOptimisticDb db (committed_txns s)).
Proof. intros [H1 H2 H3 H4 H5] Et Es Er. constructor; cbn [committed_txns inner_db]; rewrite ?Et, ?Es, ?Er; done. Qed.

Lemma opt_inv_open start (s : ODb) tr i :
  opt_inv start s -> tracker_open (db_tracker (inner_db s)) = (tr, i) ->
  opt_inv start (mkOptimisticDb (with_tracker (fun _ => tr) (inner_db s)) (committed_txns s)).
Proof. intros Hs [= <- _]. by apply (opt_inv_tracker start s (fun t => (tracker_open t).1)). Qed.

Lemma db_persist_same mode (db db' : Database T) r :
  db_persist mode db = (db', r) -> db_trees db' = db_trees db /\ db_seqno db' = db_seqno db /\ db_tracker db' = db_tracker db.
Proof.
  unfold db_persist, st_bind, check_poisoned. destruct (is_poisoned db); [by intros [= <- _]|]. unfold persist_or_poison, with_journal.
  destruct (persist mode (db_journal db)) as [w [[]|]]; by intros [= <- _].
Qed.

Lemma opt_step_inv start s s' : opt_step s s' -> opt_inv start s -> opt_inv start s'.
Proof.
  destruct 1 as [manual s s' tx E|order tables s s' tx r Htx Hp E|order s tx|s db snap E|order i s|mode s db r E]; intros Hs.
  - unfold write_tx in E. destruct (tracker_open (db_tracker (inner_db s))) as [tr i] eqn:Eo. injection E as <- _. by apply (opt_inv_open start s tr i).
  - by apply (commit_keeps_log start s tx order tables s' r).
  - by apply opt_inv_drop.
  - unfold db_snapshot, nonce_open in E. destruct (tracker_open (db_tracker (inner_db s))) as [tr i] eqn:Eo. injection E as <- _.
    by apply (opt_inv_open start s tr i).
  - by apply opt_inv_drop.
  - apply db_persist_same in E as (? & ? & ?). by apply opt_inv_same.
Qed.

Lemma opt_steps_inv start s s' : rtc opt_step s s' -> opt_inv start s -> opt_inv start s'.
Proof. induction 1 as [|s s1 s' Hs _ IH]; [done|]. intros Hi. by eapply IH, opt_step_inv. Qed.

(** A commit adds versions of one new sequence number, if any; numbers do not fall. *)
Lemma otx_commit_adds order tables (tx : WriteTransaction M) (s s' : ODb) r :
  otx_wf tx -> tables ≡ₚ map_to_list (memtables (inner tx)) -> otx_commit order tables tx s = Some (s', r) ->
  seqno (db_tracker (inner_db s)) <= seqno (db_tracker (inner_db s')) /\
  exists l, versions (db_trees (inner_db s')) = l ++ versions (db_trees (inner_db s)) /\ forall v, v ∈ l -> v_seqno v = db_seqno (inner_db s).
Proof.
  assert (forall i (db : Database T), seqno (db_tracker (drop_nonce order i db)) = seqno (db_tracker db)) as Hdrop.
  { intros i db. unfold drop_nonce. cbn. apply close_raw_mono. }
  intros Htx Hp. unfold otx_commit. case_decide as Hne.
  { intros [= <- _]. cbn [inner_db]. rewrite Hdrop. split; [lia|]. exists []. split; [done|]. by intros v ?%elem_of_nil. }
  unfold with_commit. destruct (any_conflict _ _) as [conflicted|]; [|done]. cbn [mbind option_bind].
  set (db1 := with_tracker (close_raw order (tx_instant (inner tx))) (inner_db s)).
  assert (seqno (db_tracker db1) = seqno (db_tracker (inner_db s))) as H1' by (by apply (Hdrop (tx_instant (inner tx)) (inner_db s))).
  destruct conflicted.
  { intros [= <- _]. cbn [inner_db]. rewrite Hdrop. split; [lia|]. exists []. split; [done|]. by intros v ?%elem_of_nil. }
  unfold inner_commit, tx_commit. rewrite decide_False by done. destruct (tx_items tables) as [its|] eqn:Ei; [|done]. cbn [mbind option_bind].
  destruct (batch_commit _ db1) as [db2 r2] eqn:Eb. cbn [mbind option_bind].
  pose proof (tx_items_nonempty _ _ _ (otx_inner tx Htx) Hne Hp Ei) as Hits.
  destruct (batch_commit_frame _ _ _ _ Eb Hits) as [_ Hr]. destruct r2 as [[]|e]; intros [= <- _]; cbn [inner_db]; rewrite Hdrop.
  - destruct Hr as [-> _]. split; [unfold publish, tracker_set; cbn [seqno]; lia|]. eexists. split; [exact (batch_commit_versions _ _ _ Eb)|].
    intros v Hin. apply elem_of_reverse, list_elem_of_omap in Hin as (it & _ & Hin). unfold item_ver in Hin. destruct (it_type it); by simplify_eq/=.
  - destruct Hr as [Ht ->]. split; [lia|]. exists []. split; [cbn; by rewrite Ht|]. by intros v ?%elem_of_nil.
Qed.

(** The trees grow above what was visible. *)
Lemma opt_step_grows start (s s' : ODb) :
  opt_step s s' -> opt_inv start s -> grows s s' /\ seqno (db_tracker (inner_db s)) <= seqno (db_tracker (inner_db s')).
Proof.
  assert (forall s1 s2 : ODb, db_trees (inner_db s2) = db_trees (inner_db s1) -> grows s1 s2) as Hsame.
  { intros s1 s2 E. exists []. split; [by rewrite E|]. by intros v ?%elem_of_nil. }
  destruct 1 as [manual s s' tx E|order tables s s' tx r Htx Hp E|order s tx|s db snap E|order i s|mode s db r E]; intros Hs; cbn [inner_db otx_rollback].
  - unfold write_tx in E. cbn [tracker_open] in E. injection E as <- _. split; [by apply Hsame|done].
  - destruct (otx_commit_adds order tables tx s s' r Htx Hp E) as (Hq & l & Hl & Hv). split; [|done]. exists l. split; [done|].
    intros v Hin. rewrite (Hv v Hin). apply (oi_visible _ _ Hs).
  - split; [by apply Hsame|]. by apply Z.eq_le_incl, eq_sym, close_raw_mono.
  - unfold db_snapshot, nonce_open in E. cbn [tracker_open] in E. injection E as <- _. split; [by apply Hsame|done].
  - split; [by apply Hsame|]. by apply Z.eq_le_incl, eq_sym, close_raw_mono.
  - apply db_persist_same in E as (Et & _ & ->). split; [by apply Hsame|done].
Qed.

Lemma opt_steps_grow start (s s' : ODb) :
  rtc opt_step s s' -> opt_inv start s -> grows s s' /\ seqno (db_tracker (inner_db s)) <= seqno (db_tracker (inner_db s')).
Proof.
  induction 1 as [s|s s1 s' Hs _ IH]; intros Hi.
  - split; [|done]. exists []. split; [done|]. by intros v ?%elem_of_nil.
  - destruct (opt_step_grows start s s1 Hs Hi) as [(l & Hl & Hlv) Hq]. destruct IH as [(l' & Hl' & Hlv') Hq']; [by eapply opt_step_inv|].
    split; [|lia]. exists (l' ++ l). split; [by rewrite Hl', Hl, app_assoc|]. intros v [Hv|Hv]%elem_of_app; [|by apply Hlv].
    specialize (Hlv' v Hv). lia.
Qed.

(** What the commit of a transaction that saw [sa] when it was opened does at [sc]. *)
Definition serialised (handles : Keyspace -> Prop) (sa sc s' : ODb) (tx : WriteTransaction M)
    (trace : list (OtxCall * Result OtxAnswer)) (r : Result CommitResult) : Prop :=
  match r with
  | Ok Committed =>
      (memtables (inner tx) <> ∅ /\ exists v, serial_calls (contents sc) trace v /\ leaves handles v sc s') \/
      (memtables (inner tx) = ∅ /\ exists v, serial_calls (contents sa) trace v /\ same_view (contents sa) v /\ same_view (contents sc) (contents s'))
  | _ => same_view (contents sc) (contents s')
  end.

(** A transaction in the life of a database whose log was complete at the start. *)
Lemma life_serializable start s0 s1 manual s2 (tx0 : WriteTransaction M) s3 (tx : WriteTransaction M) trace order tables s4 handles r :
  opt_inv start s0 -> start <= seqno (db_tracker (inner_db s0)) ->
  (forall tx : WriteTransaction M, tables tx ≡ₚ map_to_list (memtables (inner tx))) -> consistent handles ->
  rtc opt_step s0 s1 -> write_tx manual s1 = (s2, tx0) -> otx_run handles (contents s1) tx0 trace tx -> rtc opt_step s2 s3 ->
  get_seqno_safe_to_gc (db_tracker (inner_db s3)) <= seqno (db_tracker (inner_db s1)) -> db_seqno (inner_db s3) < u64_max ->
  otx_commit order (tables tx) tx s3 = Some (s4, r) -> serialised handles s1 s3 s4 tx trace r.
Proof.
  intros Hi Hst Hp Hcon Hr1 Ew Hrun Hr2 Hw Hmax Hc. pose proof (opt_steps_inv start _ _ Hr1 Hi) as Hi1.
  assert (rtc opt_step s1 s3) as Hr3 by (eapply rtc_l; [by eapply os_begin|exact Hr2]).
  pose proof (opt_steps_inv start _ _ Hr3 Hi1) as Hi3. destruct (opt_steps_grow start _ _ Hr1 Hi) as [_ Hq1].
  destruct (opt_steps_grow start _ _ Hr3 Hi1) as [Hg Hq3]. pose proof (oi_visible _ _ Hi3).
  apply (commit_serial (G := G) order tables manual Hp handles start s1 s2 s3 s4 tx0 tx trace r); try done; [by apply (opt_db_ok start)|lia].
Qed.
End life.

Section databases.
Context `{JournalCodec, StrategyConfig, PrefixRange} {S F : Type} `{!ReadableOps S, !ReadableLaws S, !IngestOps S, !IngestLaws S}.
Context {T M G : Type} `{!TreeOps T, !TreeLaws T, !LsmOps T, !LsmLaws T, !FlushOps T, !FlushLaws T, !MemtableOps M, !MemtableLaws M}.
Context `{!TreeReads T M, !TreeReadsLaws T M, !GuardOps G, !ScanOps T M G, !ScanLaws T M G}.
Context (assigner : option (str -> option F)) (pre_allocated_bytes : nat) (listing : gmap str bytes -> list str).
Context (values : gmap Z Z -> list (Z * Z)) (handles : gmap str (Handle F) -> list (Handle F)).
Context (tree_clear_ok : clears_succeed T).
Context (listing_perm : forall files, listing files ≡ₚ (map_to_list files).*1).
Context (values_perm : forall wms, values wms ≡ₚ map_to_list wms).
Context (handles_perm : forall m, handles m ≡ₚ (map_to_list m).*2).

Abbreviation D := (Disk S F T).
Abbreviation open := (create_or_recover assigner pre_allocated_bytes listing values handles).
Abbreviation opened := (opt_open assigner pre_allocated_bytes listing values handles).

(** ** Opening an optimistic database *)

(** The trees are those of keyspaces of the catalogue: recovery removes the folders of
    others. *)
Definition only_known (c : Catalog S F) (t : T) : Prop := forall v, v ∈ versions t -> known c (v_keyspace v).

Lemma reopened_serializable w e fl c env d sealed_ids id dirents wr :
  lives w (e, fl) -> reopenable env d c e sealed_ids id dirents -> only_known c (dk_trees d) ->
  exists d' x, opened env wr d = Some (d', Ok x) /\
    (forall ks key i, known c ks -> exact ks -> w <= i ->
      snapshot_get (versions (db_trees (inner_db (otd_db x)))) ks key i = snapshot_get (versions (finish fl (en_trees e))) ks key i) /\
    forall s1 manual s2 (tx0 : WriteTransaction M) s3 (tx : WriteTransaction M) trace order tables s4 used r,
      (forall tx : WriteTransaction M, tables tx ≡ₚ map_to_list (memtables (inner tx))) -> consistent used ->
      rtc (opt_step (M := M)) (otd_db x) s1 -> write_tx manual s1 = (s2, tx0) -> otx_run used (contents s1) tx0 trace tx ->
      rtc (opt_step (M := M)) s2 s3 ->
      get_seqno_safe_to_gc (db_tracker (inner_db s3)) <= seqno (db_tracker (inner_db s1)) -> db_seqno (inner_db s3) < u64_max ->
      otx_commit order (tables tx) tx s3 = Some (s4, r) -> serialised used s1 s3 s4 tx trace r.
Proof.
  intros Hlives Hro Hknown.
  destruct (reopens assigner pre_allocated_bytes listing values handles tree_clear_ok listing_perm values_perm handles_perm
    w e fl c env d sealed_ids id dirents Hlives Hro) as (d' & db & Eo & _ & _ & Hr & Hv & Htr & _ & _ & _ & _ & Helse & Hseq).
  exists d', (mkOptimisticTxDatabase (database_of wr db) []). split; [unfold opt_open, ps_bind; by rewrite Eo|]. split; [done|].
  intros s1 manual s2 tx0 s3 tx trace order tables s4 used r Hp. apply (life_serializable (G := G) (rv_seqno (od_state db))); [| |done].
  - unfold tracker_get in Htr. assert (seqno (od_tracker db) = rv_seqno (od_state db)) as Es by lia.
    assert (forall v, v ∈ versions (rv_trees (od_state db)) -> v_seqno v < rv_seqno (od_state db)) as Hall.
    { intros v Hin. apply Hv; [done|]. destruct (decide (v_keyspace v ∈ keyspace_ids handles c)) as [Hk|Hk];
        rewrite (keyspace_ids_known handles handles_perm) in Hk; [done|by apply Hknown, Helse]. }
    constructor; cbn [committed_txns inner_db otd_db otd_inner otd_committed database_of ld_data db_tracker db_seqno db_trees]; rewrite ?Es.
    + constructor.
    + by intros ts cm ?%elem_of_nil.
    + done.
    + done.
    + intros v Hin Hst. specialize (Hall v Hin). lia.
  - cbn. unfold tracker_get in Htr. lia.
Qed.

(** ** Closing *)

(** A running database: what is in its folder, except that the file of the active journal
    ends where the last flush did. *)
Record running (env : OpenEnv) (d : D) (l : LiveDb S F T) (e : Engine T) (sealed_ids : list Z) (id : Z) (dirents : list (Result DirEnt)) : Prop := {
  rn_calm : fo_faults (dk_folder d) = [];
  rn_lock : fo_exists (dk_folder d) = true /\ fo_locked (dk_folder d) = true /\ is_Some (fo_files (dk_folder d) !! LOCK_FILE);
  rn_version : exists bs, fo_files (dk_folder d) !! VERSION_MARKER = Some bs /\ file_header V3 `prefix_of` bs;
  rn_ids : Forall is_u64 (sealed_ids ++ [id]) /\ StronglySorted Z.lt (sealed_ids ++ [id]);
  rn_only name : is_Some (fo_files (dk_folder d) !! name) -> is_journal_name name = true -> exists i, i ∈ sealed_ids ++ [id] /\ name = journal_name i;
  rn_sealed : Forall2 (fun i bs => exists contents file, fo_files (dk_folder d) !! journal_name i = Some contents /\
                        read_journal contents = Some (Ok (batch_of <$> bs), file)) sealed_ids (en_contents e);
  rn_writer : let w := db_journal (ld_data l) in
    writer_ok w /\ JournalWriter.name w = journal_name id /\ stream w = journal_bytes (en_journal e) /\ Forall batch_wf (en_journal e);
  rn_file : let w := db_journal (ld_data l) in exists m, fo_files (dk_folder d) !! journal_name id = Some (take (flushed w) (stream w) ++ zeros m);
  rn_trees : db_trees (ld_data l) = en_trees e;
  rn_catalog : catalog_ok (ld_catalog l) /\ keyspace_id_counter (ld_catalog l) <= u64_max;
  rn_live ks : known (ld_catalog l) ks -> live e ks;
  rn_few : (size (cat_keyspaces (ld_catalog l)) <= CHANNEL_SIZE)%nat;
  rn_dirents : oe_dirents env = Ok dirents /\ lists_folders dirents (cat_folders (ld_catalog l)) /\ Forall (fun r => is_ok r = true) dirents;
  rn_answers : disk_answers (oe_recover env) (ld_catalog l);
  rn_env : oe_meta env = Ok () /\ (forall n, oe_len env n = Ok ()) /\ (forall n, oe_read env n = Ok ()) /\ Forall (eq (Ok ())) (oe_spawn env)
}.

(** What the next opening finds. *)
Definition left_behind (l : LiveDb S F T) (d : D) : D := mkDisk (dk_folder d) (crash (ld_catalog l)) (reopened (db_trees (ld_data l))).

Lemma drop_zeros n m : drop n (zeros m) = zeros (m - n).
Proof. unfold zeros. revert n. induction m as [|m IH]; intros [|n]; try done. cbn. apply IH. Qed.

(** A flush to the end of the journal. *)
Lemma flushed_file (w w' : Writer) m :
  writer_ok w -> stream w' = stream w -> flushed w' = length (stream w') ->
  exists m', take (flushed w') (stream w') ++ drop (flushed w') (take (flushed w) (stream w) ++ zeros m) = stream w ++ zeros m'.
Proof.
  intros [[_ Hf] _] Es ->. rewrite firstn_all, Es, drop_app, drop_ge, drop_zeros by (rewrite length_take; lia). by eexists.
Qed.

(** The journals of the folder when the active one is complete. *)
Lemma flushed_journals env d l e sealed_ids id dirents contents file :
  running env d l e sealed_ids id dirents -> read_journal contents = Some (Ok (batch_of <$> en_journal e), file) ->
  journals_in (<[journal_name id := contents]> (fo_files (dk_folder d))) sealed_ids id (en_contents e) (en_journal e).
Proof.
  intros Hr Hread. destruct (rn_ids _ _ _ _ _ _ _ Hr) as [Hu Hs]. constructor; [done|done| | |].
  - intros name [x [[<- _]|[_ Hx]]%lookup_insert_Some] Hj; [exists id; split; [set_solver|done]|]. apply (rn_only _ _ _ _ _ _ _ Hr); [by exists x|done].
  - pose proof (rn_sealed _ _ _ _ _ _ _ Hr) as Hse. apply Forall2_same_length_lookup_2; [by apply Forall2_length in Hse|].
    intros i n bs Hn Hbs. destruct (Forall2_lookup_lr _ _ _ _ _ _ Hse Hn Hbs) as (cts & fl & Hf & Hb). exists cts, fl. split; [|done].
    rewrite lookup_insert_ne; [done|]. intros En. apply Forall_app in Hu as [Hu [Hid _]%Forall_cons]. apply list_elem_of_lookup_2 in Hn.
    rewrite list.Forall_forall in Hu. apply journal_name_inj in En; [|done|by apply Hu]. subst n.
    apply StronglySorted_app in Hs as (Hlt & _). specialize (Hlt id id Hn ltac:(set_solver)). lia.
  - exists contents, file. by rewrite lookup_insert_eq.
Qed.

Lemma closed_reopenable env d l e sealed_ids id dirents removal l' d' :
  running env d l e sealed_ids id dirents -> is_ok (persist SyncAll (db_journal (ld_data l))).2 = true ->
  db_drop false removal false l d = Some (l', d') ->
  reopenable env (left_behind l' d') (ld_catalog l) e sealed_ids id dirents.
Proof.
  intros Hr Hok. unfold db_drop. destruct (drop_waits (ld_pool l)); [done|]. cbv zeta iota. intros [= <- <-].
  set (w := db_journal (ld_data l)) in *. destruct (rn_writer _ _ _ _ _ _ _ Hr) as (Hw & Hname & Hstream & Hwf). fold w in Hw, Hname, Hstream.
  unfold journal_drop. destruct (persist SyncAll w) as [w' r] eqn:Ep. destruct r as [[]|]; [|done]. cbn [fst].
  destruct (persist_cases _ _ _ Ep Hw) as ((Hle & _) & Es & Hsy). pose proof (persist_name SyncAll w) as Hn'. rewrite Ep in Hn'. cbn [fst] in Hn'.
  destruct (rn_file _ _ _ _ _ _ _ Hr) as (m & Hfile). fold w in Hfile.
  destruct (flushed_file w w' m Hw Es ltac:(lia)) as (m' & Em). set (files := fo_files (dk_folder d)) in *.
  assert (alter (fun contents => take (flushed w') (stream w') ++ drop (flushed w') contents) (JournalWriter.name w') files =
    <[journal_name id := journal_bytes (en_journal e) ++ zeros m']> files) as Efiles.
  { rewrite Hn', Hname. apply map_eq. intros k. destruct (decide (k = journal_name id)) as [->|Hk].
    - rewrite lookup_alter_eq, lookup_insert_eq, Hfile. cbn. by rewrite Em, Hstream.
    - by rewrite lookup_alter_ne, lookup_insert_ne. }
  destruct (rn_ids _ _ _ _ _ _ _ Hr) as [[_ [Hid _]%Forall_cons]%Forall_app _]. pose proof (journal_name_is id ltac:(apply Hid)) as Hj.
  pose proof (flushed_journals _ _ _ _ _ _ _ _ _ Hr (read_complete (en_journal e) m' Hwf)) as Hjs.
  destruct (rn_lock _ _ _ _ _ _ _ Hr) as (_ & _ & lk & Hlk). destruct (rn_version _ _ _ _ _ _ _ Hr) as (bs & Hbs & Hver).
  split; unfold left_behind; cbn [dk_folder dk_catalog dk_trees set_folder set_locked fo_faults fo_locked fo_files flush_file set_files ld_catalog ld_data db_trees].
  - apply (rn_calm _ _ _ _ _ _ _ Hr).
  - done.
  - fold files. rewrite Efiles, lookup_insert_ne by (intros E; by rewrite E in Hj). by exists lk.
  - fold files. exists bs. rewrite Efiles, lookup_insert_ne by (intros E; by rewrite E in Hj). done.
  - fold files. by rewrite Efiles.
  - done.
  - apply (rn_catalog _ _ _ _ _ _ _ Hr).
  - by rewrite (rn_trees _ _ _ _ _ _ _ Hr).
  - apply (rn_live _ _ _ _ _ _ _ Hr).
  - apply (rn_few _ _ _ _ _ _ _ Hr).
  - apply (rn_dirents _ _ _ _ _ _ _ Hr).
  - apply (rn_answers _ _ _ _ _ _ _ Hr).
  - apply (rn_env _ _ _ _ _ _ _ Hr).
Qed.

Lemma closes_reopens w env env' d l e sealed_ids id dirents removal handles_left :
  lives w (e, None) -> running env d l e sealed_ids id dirents -> drop_waits (ld_pool l) = false ->
  is_ok (persist SyncAll (db_journal (ld_data l))).2 = true -> keeps_lock (oe_others env') ->
  exists l' d', db_drop false removal handles_left l d = Some (l', d') /\
    if handles_left : bool then
      exists d2 x, open env' (left_behind l' d') = Some (d2, Err x) /\ untouched (left_behind l' d') d2
    else
      exists d2 db, open env (left_behind l' d') = Some (d2, Ok db) /\
        (forall name, cat_keyspaces (od_catalog db) !! name = rec_handle assigner <$> cat_keyspaces (ld_catalog l) !! name) /\
        (forall ks key i, known (ld_catalog l) ks -> exact ks -> w <= i ->
          snapshot_get (versions (rv_trees (od_state db))) ks key i = snapshot_get (versions (db_trees (ld_data l))) ks key i).
Proof.
  intros Hlives Hr Hpool Hok Ho. destruct handles_left.
  - eexists _, _. split; [unfold db_drop; by rewrite Hpool|]. destruct (rn_lock _ _ _ _ _ _ _ Hr) as (He & Hl & Hf).
    destruct (open_untouched assigner pre_allocated_bytes listing values handles env' (left_behind
      (mkLiveDb (mkCatalog (cat_tree (ld_catalog l)) ∅ (keyspace_id_counter (ld_catalog l)) (cat_folders (ld_catalog l)) (cat_deleted (ld_catalog l))
        (cat_seqno (ld_catalog l)) (cat_visible_seqno (ld_catalog l))) (ld_data l) (manager_clear (ld_manager l)) [] (ld_pool l)) d))
      as (d2 & x & E & Hu & _); [by right|]. by exists d2, x.
  - destruct (db_drop false removal false l d) as [[l' d']|] eqn:E; [|unfold db_drop in E; by rewrite Hpool in E].
    exists l', d'. split; [done|]. pose proof (closed_reopenable _ _ _ _ _ _ _ _ _ _ Hr Hok E) as Hro.
    destruct (reopens assigner pre_allocated_bytes listing values handles tree_clear_ok listing_perm values_perm handles_perm
      w e None (ld_catalog l) env (left_behind l' d') sealed_ids id dirents Hlives Hro) as (d2 & db & Eo & _ & Hk & Hreads & _).
    exists d2, db. split; [done|]. split; [done|]. rewrite (rn_trees _ _ _ _ _ _ _ Hr). done.
Qed.

(** A temporary database is gone: if its folder could be removed, the next opening makes a
    new one. *)
Lemma temporary_gone env removal l (d : D) :
  drop_waits (ld_pool l) = false -> oe_meta env = Ok () -> Forall (eq (Ok ())) (oe_spawn env) ->
  fo_files (dk_folder (removal d)) = ∅ -> fo_faults (dk_folder (removal d)) = [] ->
  exists l' d' d2 db, db_drop true removal false l d = Some (l', d') /\ open env d' = Some (d2, Ok db) /\
    cat_keyspaces (od_catalog db) = ∅ /\ od_journal db = journal_name 0.
Proof.
  intros Hp Hm Hs Hf Hc. eexists _, _, _, _. split; [unfold db_drop; by rewrite Hp|]. cbv zeta iota. split; [|split].
  - apply creation_opens; cbn [dk_folder set_folder set_locked fo_faults fo_locked fo_files flush_file set_files]; rewrite ?Hf; done.
  - done.
  - done.
Qed.
End databases.

Section claims.
Context `{JournalCodec, StrategyConfig, PrefixRange} {S F : Type} `{!ReadableOps S, !ReadableLaws S, !IngestOps S, !IngestLaws S}.
Context {T M G : Type} `{!TreeOps T, !TreeLaws T, !LsmOps T, !LsmLaws T, !FlushOps T, !FlushLaws T, !MemtableOps M, !MemtableLaws M}.
Context `{!TreeReads T M, !TreeReadsLaws T M, !GuardOps G, !ScanOps T M G, !ScanLaws T M G}.
Context (assigner : option (str -> option F)) (pre_allocated_bytes : nat) (listing : gmap str bytes -> list str).
Context (values : gmap Z Z -> list (Z * Z)) (handles : gmap str (Handle F) -> list (Handle F)).


End claims.

(** ** Samples *)

Lemma sample_only_known : only_known one_keyspace (dk_trees killed_disk).
Proof.
  intros v Hv. apply one_keyspace_known. revert v Hv. apply list.Forall_forall. vm_compute. repeat constructor.
Qed.

Definition sample_writer (flushed : nat) : Writer :=
  mkWriter (journal_name 2) (journal_bytes (en_journal sample_end)) flushed flushed [] true CompressionNone 0 [].

(** Reads merged with a memtable, as for histories. *)
#[export] Instance fh_tree_reads : TreeReads FlushHist (list MItem) := {|
  tree_contains_key ks key instant t := tree_contains_key (T := history) ks key instant (versions t);
  tree_size_of ks key instant t := tree_size_of (T := history) ks key instant (versions t);
  tree_range ks r instant own t := tree_range (T := history) ks r instant own (versions t)
|}.
#[export] Instance fh_tree_reads_laws : TreeReadsLaws FlushHist (list MItem).
Proof. constructor. intros ks r i own t Hi. exact (tree_range_merged (T := history) ks r i own (versions t) Hi). Qed.

#[export] Instance fh_scans : ScanOps FlushHist (list MItem) entry := {|
  tree_iter ks i own t := tree_iter (T := history) ks i own (versions t);
  tree_scan ks r i own t := tree_scan (T := history) ks r i own (versions t);
  tree_prefix ks prefix i own t := tree_prefix (T := history) ks prefix i own (versions t);
  tree_first_key_value ks i own t := tree_first_key_value (T := history) ks i own (versions t);
  tree_last_key_value ks i own t := tree_last_key_value (T := history) ks i own (versions t);
  tree_is_empty ks i own t := tree_is_empty (T := history) (G := entry) ks i own (versions t)
|}.

#[export] Instance fh_scan_laws : ScanLaws FlushHist (list MItem) entry.
Proof.
  refine {| guard_of := Some |}.
  - exact (into_inner_if_law (T := history) (M := list MItem)).
  - exact (into_inner_law (T := history) (M := list MItem)).
  - exact (key_law (T := history) (M := list MItem)).
  - exact (size_law (T := history) (M := list MItem)).
  - exact (value_law (T := history) (M := list MItem)).
  - intros ks key i t b. exact (contains_key_law (T := history) (M := list MItem) (G := entry) ks key i (versions t) b).
  - intros ks key i t o. exact (size_of_law (T := history) (M := list MItem) (G := entry) ks key i (versions t) o).
  - intros ks i own t. exact (iter_law (T := history) ks i own (versions t)).
  - intros ks r i own t. exact (scan_law (T := history) ks r i own (versions t)).
  - intros ks prefix i own t. exact (prefix_law (T := history) ks prefix i own (versions t)).
  - intros ks i own t l. exact (first_law (T := history) ks i own (versions t) l).
  - intros ks i own t l. exact (last_law (T := history) ks i own (versions t) l).
  - intros ks i own t l b. exact (is_empty_law (T := history) ks i own (versions t) l b).
  - intros ks r i own t. exact (range_results (T := history) ks r i own (versions t)).
Qed.


(** The same database, closed properly; nothing of its journal had reached the file. *)
Definition closing_db : LiveDb (gmap bytes bytes) () FlushHist :=
  mkLiveDb one_keyspace (mkDatabase (sample_writer 0) (en_trees sample_end) (en_seqno sample_end) (en_tracker sample_end) false 0)
    (en_manager sample_end) [] (mkPool [Closed; Closed] 0 false).
Definition closing_files : gmap str bytes := <[journal_name 2 := zeros 8]> sample_files.
Definition closing_disk : Disk (gmap bytes bytes) () FlushHist :=
  mkDisk (mkFolder true true closing_files true []) (crash one_keyspace) (reopened (en_trees sample_end)).

Lemma sample_journal_wf : Forall batch_wf (en_journal sample_end).
Proof.
  assert (en_journal sample_end = [(4, [Item 1 key_b [Byte.x04] Value CompressionNone])]) as -> by (vm_compute; reflexivity).
  repeat (constructor || unfold_ranges || (simpl; lia)).
Qed.

Lemma sample_writer_ok : writer_ok (sample_writer 0).
Proof. split; [|done]. cbn. lia. Qed.

Lemma closing_running : running open_env closing_disk closing_db sample_end [1] 2 sample_dirs.
Proof.
  destruct killed_reopenable as [_ _ _ _ [Hids Hsort Honly Hsealed _] _ Hcat _ Hlive Hfew Hdir Hans Henv].
  constructor.
  - done.
  - split_and!; [done|done|]. by eexists.
  - eexists. split; [reflexivity|]. by exists [].
  - by split.
  - intros name [bs Hb] Hj. change (closing_files !! name = Some bs) in Hb. unfold closing_files in Hb.
    apply lookup_insert_Some in Hb as [[<- _]|[_ Hb]]; [exists 2; split; [set_solver|done]|]. apply Honly; [by exists bs|done].
  - apply Forall2_cons_inv_l in Hsealed as (bs & l & (cts & fl & Hf & Hr) & Hnil & E). apply Forall2_nil_inv_l in Hnil as ->. rewrite E.
    constructor; [|constructor]. exists cts, fl. split; [|exact Hr]. change (closing_files !! journal_name 1 = Some cts). unfold closing_files.
    by rewrite lookup_insert_ne.
  - split_and!; [apply sample_writer_ok|reflexivity|reflexivity|apply sample_journal_wf].
  - exists 8%nat. change (closing_files !! journal_name 2 = Some ([] ++ zeros 8)). unfold closing_files. apply lookup_insert_eq.
  - reflexivity.
  - exact Hcat.
  - exact Hlive.
  - exact Hfew.
  - exact Hdir.
  - exact Hans.
  - exact Henv.
Qed.

