(* ===== verification/SecureTxDatabases.v ===== *)
(** * Secure transactional databases on disk

    Models [SingleWriterSecureTxDatabase] and [OptimisticSecureTxDatabase]
    ([src/src/secure/tx.rs]) on top of the transactional databases of [Databases]: how
    they are opened and how they open secure keyspaces. A secure keyspace is found again,
    with its contents, after the database was killed. *)

From stdpp Require Import base gmap list sorting strings relations.
From S2P Require Import Prelude Errors Utf8 Visibility Composite Store Cell Crypto Providers Policy SecureKeyspace Panic JournalEntry JournalReader JournalWriter JournalFiles.
From S2P Require Import SnapshotTracker BTree ConflictManager Mvcc Db DbProps WriteTx Optimistic OptimisticProps TxHandles SecureTx SecureSerial SecureSw Readers ReplayHistory Recovery RecoveryProps.
From S2P Require Import KeyspaceConfig MetaKeyspace KeyspaceOptions Catalog CatalogProps SecureDb Version Engine EngineProps EngineRestart EngineDurable WorkerPool Opening OpeningProps Databases.

Section databases.
#[local] Open Scope pstate_scope.
Context `{JournalCodec, StrategyConfig, PrefixRange} {S F A I : Type} `{!ReadableOps S, !ReadableLaws S, !IngestOps S, !IngestLaws S}.
Context {T M : Type} `{!TreeOps T, !TreeLaws T, !LsmOps T, !LsmLaws T, !FlushOps T, !FlushLaws T, !MemtableOps M}.
Context (assigner : option (str -> option F)) (retention_factory : SecureCompactionPolicy A I -> F).
Context (pre_allocated_bytes : nat) (listing : gmap str bytes -> list str).
Context (values : gmap Z Z -> list (Z * Z)) (handles : gmap str (Handle F) -> list (Handle F)).
(** [config.manual_journal_persist]. *)
Context (manual : bool).

Abbreviation D := (Disk S F T).
Abbreviation SwDb := (SecureDatabase (TxDatabase S F T) A I).
Abbreviation OptDb := (SecureDatabase (OptimisticTxDatabase S F T) A I).
Abbreviation secure_parts b := (providers_from_parts (sb_authenticator b) (sb_permission_handler b) (sb_authorizor b) (sb_audit b)).

(** ** Opening *)

(** [SingleWriterSecureTxDatabaseBuilder::open] and that of the optimistic kind. *)
Definition sw_secure_open (b : SecureBuilder A I) (env : OpenEnv) (w : Writer) : PState D SwDb :=
  security <-- ps_pure (p_lift (secure_parts b)) ;;
  inner <-- tx_openable_open assigner pre_allocated_bytes listing values handles env w ;;
  ps_ret (mkSecureDatabase inner security).
Definition opt_secure_open (b : SecureBuilder A I) (env : OpenEnv) (w : Writer) : PState D OptDb :=
  security <-- ps_pure (p_lift (secure_parts b)) ;;
  inner <-- opt_open assigner pre_allocated_bytes listing values handles env w ;;
  ps_ret (mkSecureDatabase inner security).

(** ** Keyspaces *)

Definition on_inner {X Y B} (get : X -> LiveDb S F T) (set : LiveDb S F T -> X -> Y) (m : PState (Catalog S F) B) (x : X) : option (Y * Result B) :=
  match on_keyspaces m (get x) with
  | Some (l, r) => Some (set l x, r)
  | None => None
  end.

(** [secure_keyspace] of both kinds: the options are checked before the catalogue is
    touched. *)
Definition sw_secure_keyspace (env : CreateEnv) (name : str) (opts : SecureKeyspaceOptions F) : PState SwDb SecureTxKeyspace := fun x =>
  on_inner (fun x => txd_inner (sdb_inner x)) (fun l x => mkSecureDatabase (mkTxDatabase l (txd_busy (sdb_inner x))) (sdb_security x))
    (tx_secure_keyspace_open assigner retention_factory (sdb_security x) env name opts) x.
Definition opt_secure_keyspace (env : CreateEnv) (name : str) (opts : SecureKeyspaceOptions F) : PState OptDb SecureTxKeyspace := fun x =>
  on_inner (fun x => otd_inner (sdb_inner x)) (fun l x => mkSecureDatabase (mkOptimisticTxDatabase l (otd_committed (sdb_inner x))) (sdb_security x))
    (tx_secure_keyspace_open assigner retention_factory (sdb_security x) env name opts) x.

(** A secure keyspace of the catalogue, with options that are valid. *)
Definition valid_options (au : option (AuditConfig A I)) (name : str) (opts : SecureKeyspaceOptions F) : Prop :=
  is_ok (install_retention_policy retention_factory name (so_create_options opts) (so_retention opts) au) = true.

Lemma open_existing security env name opts (c : Catalog S F) h :
  valid_options (audit security) name opts -> is_valid_keyspace_name (physical_keyspace_name name) = true ->
  cat_keyspaces c !! physical_keyspace_name name = Some h ->
  tx_secure_keyspace_open assigner retention_factory security env name opts c =
    Some (c, Ok (mkSecureTxKeyspace (keyspace_of h c) name (mkValueEncryption name <$> so_encryption opts))).
Proof.
  unfold valid_options, tx_secure_keyspace_open, ps_bind, ps_pure, p_lift. destruct (install_retention_policy _ _ _ _ _) as [o|e]; [|done].
  intros _ Hn Hc. unfold raw_keyspace, ps_bind, ps_assert. by rewrite Hn, Hc.
Qed.

(** The providers of the builder are those the database asks. *)
Definition provides (b : SecureBuilder A I) (security : SecurityProviders A I) : Prop :=
  sb_authenticator b = Some (authenticator security) /\ sb_authorizor b = Some (authorizor security) /\
  sb_permission_handler b = Some (has_system_permission security, has_keyspace_permission security) /\ audit security = sb_audit b.

Lemma secure_parts_cases b :
  match missing b with
  | Some what => secure_parts b = Err (MissingSecurityProvider what)
  | None => exists security, secure_parts b = Ok security /\ provides b security
  end.
Proof. destruct b as [[a|] [[p1 p2]|] [z|] au]; try done. by eexists. Qed.

(** ** Opening again *)

Context (tree_clear_ok : clears_succeed T).
Context (listing_perm : forall files, listing files ≡ₚ (map_to_list files).*1).
Context (values_perm : forall wms, values wms ≡ₚ map_to_list wms).
Context (handles_perm : forall m, handles m ≡ₚ (map_to_list m).*2).

(** What a secure keyspace that was opened again has to do with the engine that was
    killed: the keyspace [h], with its contents if it is compacted without losing data,
    so without a retention policy. *)
Definition found_again (w : Z) (e : Engine T) (fl : option Flight) (h : Handle F) (name : str) (l : LiveDb S F T) (sk : SecureTxKeyspace) : Prop :=
  stk_name sk = name /\ ks_id (stk_inner sk) = h_id h /\
  forall key i, exact (h_id h) -> w <= i ->
    snapshot_get (versions (db_trees (ld_data l))) (ks_id (stk_inner sk)) key i = snapshot_get (versions (finish fl (en_trees e))) (h_id h) key i.

Lemma secure_reopens w e fl c env d sealed_ids id dirents wr b cenv name opts h :
  lives w (e, fl) -> reopenable env d c e sealed_ids id dirents ->
  cat_keyspaces c !! physical_keyspace_name name = Some h -> is_valid_keyspace_name (physical_keyspace_name name) = true ->
  valid_options (sb_audit b) name opts ->
  match missing b with
  | Some what =>
      sw_secure_open b env wr d = Some (d, Err (MissingSecurityProvider what)) /\
      opt_secure_open b env wr d = Some (d, Err (MissingSecurityProvider what))
  | None =>
      (exists d' x sk, sw_secure_open b env wr d = Some (d', Ok x) /\ provides b (sdb_security x) /\
        sw_secure_keyspace cenv name opts x = Some (x, Ok sk) /\ found_again w e fl h name (txd_inner (sdb_inner x)) sk) /\
      (exists d' x sk, opt_secure_open b env wr d = Some (d', Ok x) /\ provides b (sdb_security x) /\
        opt_secure_keyspace cenv name opts x = Some (x, Ok sk) /\ found_again w e fl h name (otd_inner (sdb_inner x)) sk)
  end.
Proof.
  intros Hlives Hro Hh Hn Hv. unfold sw_secure_open, opt_secure_open. pose proof (secure_parts_cases b) as Hb. destruct (missing b) as [what|].
  { unfold ps_bind, ps_pure, p_lift. by rewrite Hb. }
  destruct Hb as (security & Hb & Hp).
  destruct (reopens assigner pre_allocated_bytes listing values handles tree_clear_ok listing_perm values_perm handles_perm
    w e fl c env d sealed_ids id dirents Hlives Hro) as (d' & db & Eo & _ & Hk & Hr & _).
  assert (cat_keyspaces (od_catalog db) !! physical_keyspace_name name = Some (rec_handle assigner h)) as Hh' by (by rewrite Hk, Hh).
  assert (valid_options (audit security) name opts) as Hv' by (by destruct Hp as (_ & _ & _ & ->)).
  pose proof (open_existing security cenv name opts _ _ Hv' Hn Hh') as Eks.
  assert (forall sk, ks_id (stk_inner sk) = h_id h -> stk_name sk = name -> found_again w e fl h name (database_of wr db) sk) as Hfound.
  { intros sk Hid Hname. split_and!; [done|done|]. intros key i Hx Hi. rewrite Hid. apply Hr; [|done|done]. by exists (physical_keyspace_name name), h. }
  split.
  - eexists d', (mkSecureDatabase (mkTxDatabase (database_of wr db) false) security), _. split_and!.
    + unfold tx_openable_open, db_open, ps_bind, ps_pure, p_lift. by rewrite Hb, Eo.
    + done.
    + unfold sw_secure_keyspace, on_inner, on_keyspaces. cbn [txd_inner sdb_inner sdb_security ld_catalog database_of]. by rewrite Eks.
    + by apply Hfound.
  - eexists d', (mkSecureDatabase (mkOptimisticTxDatabase (database_of wr db) []) security), _. split_and!.
    + unfold opt_open, ps_bind, ps_pure, p_lift. by rewrite Hb, Eo.
    + done.
    + unfold opt_secure_keyspace, on_inner, on_keyspaces. cbn [otd_inner sdb_inner sdb_security ld_catalog database_of]. by rewrite Eks.
    + by apply Hfound.
Qed.
End databases.

(** C13: Secure transactional databases of both kinds survive a crash and open fail-closed.
    Without one of the providers, opening reports the first that is missing and does not
    touch the disk. With all of them, and under the conditions of C3, opening a database
    whose process was killed succeeds, and the database asks exactly these providers; a
    secure keyspace of it is then found under its name, without changing the database. If
    the keyspace has no retention policy and is not compacted with [Fifo], so that
    compactions lose no data, and is never weakly removed from, it has the contents from
    before the crash (a write under way is done). *)
Theorem secure_tx_reopen `{JournalCodec, StrategyConfig, PrefixRange} {S F A I : Type} `{!ReadableOps S, !ReadableLaws S, !IngestOps S, !IngestLaws S}
    {T : Type} `{!TreeOps T, !TreeLaws T, !LsmOps T, !LsmLaws T, !FlushOps T, !FlushLaws T}
    (assigner : option (str -> option F)) (retention_factory : SecureCompactionPolicy A I -> F) (pre_allocated_bytes : nat)
    (listing : gmap str bytes -> list str) (values : gmap Z Z -> list (Z * Z)) (handles : gmap str (Handle F) -> list (Handle F))
    w (e : Engine T) fl (c : Catalog S F) env d sealed_ids id dirents wr b cenv name opts h :
  clears_succeed T -> (forall files, listing files ≡ₚ (map_to_list files).*1) ->
  (forall wms, values wms ≡ₚ map_to_list wms) -> (forall m, handles m ≡ₚ (map_to_list m).*2) ->
  lives w (e, fl) -> reopenable env d c e sealed_ids id dirents ->
  cat_keyspaces c !! physical_keyspace_name name = Some h -> is_valid_keyspace_name (physical_keyspace_name name) = true ->
  valid_options retention_factory (sb_audit b) name opts ->
  match missing b with
  | Some what =>
      sw_secure_open assigner pre_allocated_bytes listing values handles b env wr d = Some (d, Err (MissingSecurityProvider what)) /\
      opt_secure_open assigner pre_allocated_bytes listing values handles b env wr d = Some (d, Err (MissingSecurityProvider what))
  | None =>
      (exists d' x sk, sw_secure_open assigner pre_allocated_bytes listing values handles b env wr d = Some (d', Ok x) /\ provides b (sdb_security x) /\
        sw_secure_keyspace assigner retention_factory cenv name opts x = Some (x, Ok sk) /\ found_again w e fl h name (txd_inner (sdb_inner x)) sk) /\
      (exists d' x sk, opt_secure_open assigner pre_allocated_bytes listing values handles b env wr d = Some (d', Ok x) /\ provides b (sdb_security x) /\
        opt_secure_keyspace assigner retention_factory cenv name opts x = Some (x, Ok sk) /\ found_again w e fl h name (otd_inner (sdb_inner x)) sk)
  end.
Proof. intros Hc Hp1 Hp2 Hp3. by apply secure_reopens. Qed.

(** ** A sample: the secure keyspace "a", killed and opened again *)

Definition secure_catalog : SampleCatalog := create_sample "$fjall.secure.a" empty_catalog.
Definition sample_builder : SecureBuilder (list (AuditEvent nat)) nat :=
  builder_authorizor (authorizor tx_providers)
    (builder_permission_handler (has_system_permission tx_providers, has_keyspace_permission tx_providers)
      (builder_authenticator (authenticator tx_providers) builder_new)).
Definition plain_options : SecureKeyspaceOptions () := mkSecureKeyspaceOptions sample_options None None.
Definition no_factory (p : SecureCompactionPolicy (list (AuditEvent nat)) nat) : () := ().
Definition active_writer : Writer := mkWriter (journal_name 2) (journal_bytes (en_journal sample_end)) 0 0 [] true CompressionNone 0 [].

Lemma secure_catalog_lists : lists_one "$fjall.secure.a" secure_catalog.
Proof.
  split; [apply (bool_decide_unpack _); vm_compute; reflexivity|apply (bool_decide_unpack _); vm_compute; reflexivity|].
  split; [|vm_compute; done]. apply create_sample_ok; [done|apply empty_catalog_ok|done].
Qed.

Lemma secure_handle : exists h, cat_keyspaces secure_catalog !! physical_keyspace_name (s2str "a") = Some h /\ h_id h = 1.
Proof.
  assert (h_id <$> cat_keyspaces secure_catalog !! physical_keyspace_name (s2str "a") = Some 1) as E.
  { rewrite <- lookup_fmap, (lo_keyspaces _ _ secure_catalog_lists). apply lookup_singleton_eq. }
  apply fmap_Some in E as (h & -> & ->). by exists h.
Qed.

Lemma secure_tx_reopen_witness :
  exists d' x sk,
    opt_secure_open (None : option (str -> option ())) 16 sample_listing map_to_list sample_handles sample_builder open_env active_writer (killed_with secure_catalog) = Some (d', Ok x) /\
    opt_secure_keyspace None no_factory all_ok (s2str "a") plain_options x = Some (x, Ok sk) /\
    snapshot_get (versions (db_trees (ld_data (otd_inner (sdb_inner x))))) (ks_id (stk_inner sk)) key_b 5 = Some [Byte.x04].
Proof.
  destruct secure_handle as (h & Hh & Hid).
  pose proof (secure_tx_reopen (None : option (str -> option ())) no_factory 16 sample_listing map_to_list sample_handles
    4 sample_end None secure_catalog open_env (killed_with secure_catalog) [1] 2 sample_dirs active_writer sample_builder all_ok (s2str "a") plain_options h
    fh_clear_ok (fun _ => Permutation_refl _) (fun _ => Permutation_refl _) (fun _ => Permutation_refl _) sample_lives (killed_with_reopenable _ _ secure_catalog_lists) Hh eq_refl eq_refl) as [_ (d' & x & sk & E & _ & Ek & _ & _ & Hv)].
  exists d', x, sk. split; [exact E|]. split; [exact Ek|]. rewrite (Hv key_b 5 (fh_exact _) ltac:(done)), Hid. vm_compute. reflexivity.
Defined.
